(* ===== verification/_CoqProject ===== *)
-Q . S2P
Prelude.v
Program.v
ObjectStore.v
MemoryStore.v
ContractProgram.v
Json.v
CoreTypes.v
Lifecycle.v
StructMap.v
StructLog.v
Client.v
WorkQueue.v
QueueRefinement.v
QueueHistory.v
QueueRuns.v
UnitTests.v
Concurrent.v
ConcurrentMap.v
ConcurrentQueue.v
QueueWorkers.v
ConcurrentLog.v
Scenarios.v
Linearization.v
FileSystem.v
Envelope.v
FilesystemStore.v
FilesystemMachine.v
FilesystemPaths.v
FilesystemRules.v
FilesystemProofs.v
FilesystemLinearizable.v
PowerLoss.v
CarefulWrites.v
Durability.v
DurableWrites.v
FilesystemScenarios.v
PowerLossScenarios.v
S3Store.v
S3Machine.v
S3Linearizable.v
S3Scenarios.v
Composition.v
SystemLinearizable.v
Isolation.v
StructSystem.v
RelyGuarantee.v
Sharing.v
SharedStructures.v
Portable.v
Retry.v
QueueSystem.v
Backends.v
SystemScheduler.v
StructWorkers.v
FilesystemWorkers.v
S3Workers.v
Binding.v
BindingOperations.v
BindingMachine.v
BindingRegistry.v
BindingPrograms.v
NativeSystem.v
NativeWorkers.v
BindingErrors.v
BindingScenarios.v
NativeScenarios.v
