(* ===== verification/Prelude.v ===== *)
(** * Verification of objsds

    objsds keeps data structures in an object store: each map, log or work queue is one
    JSON object, read whole and rewritten whole under a condition on its version.  This
    library models the crates of the repository (under [src/crates]) and proves that
    their operations do what they promise, alone and under arbitrary concurrency, on each
    of the three storage backends, and up to the handles JavaScript holds.

    ** The program and its model

    An operation is a blocking function that calls an object store, a clock and a UUID
    generator.  It is modelled as a program ([Program.prog]): a tree of calls with
    explicit replies, written with the same guards and early returns as the source.
    [run] executes one against a concrete handler, [exec] against a relational
    specification, [plays] records its calls.  A panic is a value of the tree.

    - Prelude.v, Program.v, Json.v, Linearization.v, Composition.v: no component, the
      vocabulary of the others.  [Prelude] has Rust's results, machine-width arithmetic
      and the slice functions the source calls.
    - ObjectStore.v (objsds-store/src): locations, versions, objects, conditional-write
      errors, the trait [ObjectStore] as a class and its documented contract
      [store_step], a relation on an abstract store [astore].
    - MemoryStore.v (objsds-store-memory/src/state.rs, store.rs): Module [Memory].
    - FileSystem.v, Envelope.v, FilesystemStore.v (objsds-store-filesystem/src): the
      calls of std::fs on a directory tree; Modules [FsError] (error.rs), [Format]
      (format.rs) and [Filesystem] (path.rs, lock.rs, store.rs).
    - S3Store.v (objsds-store-s3/src): Module [S3], operations, builder, credentials and
      errors.
    - CoreTypes.v, Lifecycle.v, Client.v (objsds/src/error.rs, client.rs, document.rs,
      lifecycle.rs): Modules [Core], [Lifecycle], [Client].
    - StructMap.v (objsds/src/map), StructLog.v (objsds/src/log), WorkQueue.v
      (objsds-queue/src/lib.rs): Modules [Map], [Log], [Queue].  Next to each is what it
      should do, as data: [map_op] and [map_model], [log_op] and [log_view], [queue_op]
      and [queue_model]; [map_run], [log_run] and [queue_run] give the program of each
      operation.
    - Binding.v (objsds-napi/src/lib.rs and its facade npm/src/index.ts): Module [Napi],
      the native client, its registry of handles and its tasks.

    State is what the source mutates: [Memory.State] behind the adapter's mutex, the
    tree, locks and UUIDs of [fs_state], the server of S3Machine, the registry
    [Napi.Cells].  A handle of a structure is immutable; its document lives in the store.

    ** What is proved

    - Functional behaviour.  Every operation of a map, a log or a queue, run on any
      adapter that keeps the contract, refines its model, errors included
      ([map_operation_refines_model], [log_operation_refines_model],
      [queue_operation_refines_model]); rejects what it cannot read
      ([map_operation_rejects]); does not panic; and opening never damages an existing
      object.  QueueHistory.v shows what a queue promises over time, and
      [claim_first_available] of QueueRuns.v which message [claim] hands out.
    - Concurrent clients.  Concurrent.v is a machine in which any number of clients
      interleave their calls.  Operations are [disciplined]: one read, then at most one
      conditional write of what was read; such programs linearize.  ConcurrentMap.v,
      ConcurrentLog.v, ConcurrentQueue.v and QueueWorkers.v draw the consequences: no
      lost update, append-only logs, exclusive leases.
    - Adapters.  An adapter that overlaps operations, blocks, fails and crashes promises
      that they take effect one at a time between invocation and return, as the contract
      says ([linearizes] of Linearization.v).  The in-memory adapter is atomic
      ([memory_implements_contract]); FilesystemMachine.v to FilesystemLinearizable.v
      prove it of the filesystem adapter, with object files that are whole at every
      moment, no deadlock and a bounded number of calls; S3Machine.v and S3Linearizable.v
      of the S3 adapter, where a write reported as failed may still arrive.
    - Power failures.  PowerLoss.v says what a disk may hold of the tree when the power
      fails, by what was synced ([power_loss]); CarefulWrites.v states the order of writes
      the filesystem adapter keeps ([careful]), and Durability.v and DurableWrites.v prove
      that no object is torn or, once reported, undone, except with its directory, and that
      the adapter starts again from what is left ([power_loss_leaves_whole_objects],
      [reported_writes_survive], [power_loss_restarts]).
    - Both together.  Composition.v runs clients on any [Backend]; SystemLinearizable.v
      explains every execution of any programs on a backend that linearizes by one of
      Concurrent.v, and QueueSystem.v and StructSystem.v restate the promises of queues,
      maps and logs for it.  Backends.v makes the three adapters such backends.
    - Whole processes.  RelyGuarantee.v is a logic for programs that make many calls
      ([guarded]); Sharing.v and SharedStructures.v prove in it that processes which open
      or create one structure at the same time and then operate on it never break it or
      find it broken, and keep stored messages within their types; Retry.v proves the
      retry loop of the crate documentation (objsds/src/lib.rs) lock-free.
      These results, and those of Portable.v, are for backends without spurious conflicts
      and without delayed writes: the in-memory and the filesystem adapter, not S3.
    - Interchangeable backends.  Portable.v: a process that is alone on such a backend
      gets from it what the in-memory adapter gives, up to versions; [twins] relates two
      runs of one program.
    - The repository's own contract test.  ContractProgram.v models the program
      (objsds-tests/src/backend_contract.rs) that tests backends, and shows that what it
      asserts follows from the contract.
    - The unit tests.  QueueRuns.v: on the in-memory adapter a queue operation always
      returns, with exactly what the model computes ([memory_queue_exact]).  UnitTests.v
      models the tests the crates keep beside their code, with their manual clock and
      the stores that fail, conflict or race, and shows that they pass ([unit_tests_pass]).
    - The binding.  BindingOperations.v: a task on a handle is one run of the core
      operation asked for, on the structure looked up, its result in JSON.
      BindingMachine.v and BindingRegistry.v: whatever tasks and releases interleave, a
      handle names what was registered under it until it is released.  BindingErrors.v:
      errors survive the trip to JavaScript.
    - End to end.  NativeSystem.v runs any number of native clients on one backend.
      BindingPrograms.v shows what each task does of the core crates, and Isolation.v that
      clients of one structure may forget those of others and those that only open it; so
      in NativeWorkers.v the promises of queues, maps and logs hold for JavaScript tasks
      and the JSON they return.
    - Scenarios.v, FilesystemScenarios.v, PowerLossScenarios.v, S3Scenarios.v,
      StructWorkers.v, FilesystemWorkers.v, S3Workers.v, BindingScenarios.v,
      NativeScenarios.v: concrete executions that apply the theorems, and four that show
      defects: [unnormalized_location_aliases], [first_object_may_be_lost],
      [native_handle_reused], and [s3_build_outcome] on an error that cannot occur.

    ** Bounds and fuel

    Integers are [N] or [Z] with the checks and the wrapping of the source written out:
    the [u64] version counter of the in-memory adapter panics or wraps by build, [u32]
    attempts and [u64] deadlines are checked, the [u32] counter of handles wraps.
    [binary_search_by] runs with the length of the slice as fuel, which halves at each
    step ([binary_search_loop_window]); all other recursion is structural.

    ** What is assumed

    Parameters stand for code outside the repository, with laws that state its
    documentation: serde_json ([ToJson], [FromJson], [JsonValues]) decodes what it
    encoded; the uuid crate ([UuidCrate]) has injective texts; s3_client ([S3Client]).
    [fs_effect] is the file system: rename is atomic, advisory locks exclude, a call that
    fails may have done part of its work; [disk_effect] is the disk below it: what was
    not synced may be lost or, of contents, be anything.  [s3_effect] is S3: strongly
    consistent whole objects, atomic conditional writes, an ETag never given to other contents of a key;
    the client sends each request once.  UUIDs of one generator do not repeat where a
    theorem says so; clocks may read anything.

    ** What is not modelled

    Paths of Windows, and the target of a symbolic link (a path through one is refused);
    the recovery of a poisoned mutex is the absence
    of a step.  The conversions of Node-API and the scheduling of its pool; the rest of
    the TypeScript facade, which checks arguments.  Build scripts, release scripts,
    examples, and the integration tests.

    ** This file

    What every component uses: Rust's [Result] with its combinators, bytes,
    machine-width bounds and checked addition, and the slice and vector
    operations of the Rust standard library the source calls
    ([binary_search_by], [partition_point], [windows(2).any], [position],
    [Vec::insert], [Vec::remove], indexing), each with the lemmas that make it
    usable in proofs.  The notations live in [objsds_scope]; the lemmas that
    close routine goals are collected in the hint database [objsds]. *)

From stdpp Require Export base tactics option list numbers strings gmap sorting pretty.
From Stdlib Require Strings.Byte Strings.Ascii.
Export (notations) Strings.Ascii.
From Stdlib Require Import Lia.

(* naive_solver clears hypotheses speculatively. *)
#[export] Set Warnings "-clear-no-such-hyp".

Create HintDb objsds discriminated.
#[export] Hint Variables Opaque : objsds.
#[export] Hint Constants Opaque : objsds.

Declare Scope objsds_scope.
Delimit Scope objsds_scope with objsds.
#[global] Open Scope objsds_scope.

(** ** Results *)

(** Rust's [Result<A, E>]. *)
Inductive result (A E : Type) : Type :=
  | Ok (a : A)
  | Err (e : E).
Arguments Ok {A E} a.
Arguments Err {A E} e.

#[export] Instance result_eq_dec {A E} `{EqDecision A, EqDecision E} :
  EqDecision (result A E).
Proof. solve_decision. Defined.

(** [Result::map], [Result::map_err] and [Option::ok_or]. *)
Definition map_ok {A B E} (f : A → B) (r : result A E) : result B E :=
  match r with Ok a => Ok (f a) | Err e => Err e end.

Definition map_err {A E F} (f : E → F) (r : result A E) : result A F :=
  match r with Ok a => Ok a | Err e => Err (f e) end.

Definition ok_or {A E} (o : option A) (e : E) : result A E :=
  match o with Some a => Ok a | None => Err e end.

(** The [?] operator on a pure result. *)
Definition and_then {A B E} (r : result A E) (k : A → result B E) : result B E :=
  match r with Ok a => k a | Err e => Err e end.

Notation "'let*' x ':=' r 'in' k" := (and_then r (λ x, k))
  (at level 10, x name, r at level 100, k at level 200)
  : objsds_scope.
Notation "'let*' ' p ':=' r 'in' k" := (and_then r (λ p, k))
  (at level 10, p strict pattern, r at level 100, k at level 200) : objsds_scope.

Definition is_ok {A E} (r : result A E) : bool :=
  match r with Ok _ => true | Err _ => false end.

Definition ok {A E} (r : result A E) : option A :=
  match r with Ok a => Some a | Err _ => None end.

Lemma map_ok_id {A E} (r : result A E) : map_ok id r = r.
Proof. by destruct r. Qed.

Lemma ok_or_Ok {A E} (o : option A) (e : E) a : ok_or o e = Ok a ↔ o = Some a.
Proof. destruct o; naive_solver. Qed.

Lemma map_err_Ok {A E F} (f : E → F) (r : result A E) a :
  map_err f r = Ok a ↔ r = Ok a.
Proof. destruct r; naive_solver. Qed.

(** ** Bytes *)

Abbreviation byte := Byte.byte.

#[export] Instance byte_eq_dec : EqDecision byte := Byte.byte_eq_dec.

#[export] Program Instance byte_countable : Countable byte := {|
  encode b := encode (Byte.to_N b);
  decode p := n ← decode p; Byte.of_N n
|}.
Next Obligation. intros b. simpl. rewrite decode_encode. apply Byte.of_to_N. Qed.

(** [Vec<u8>] and [&[u8]]. *)
Abbreviation bytes := (list byte).

(** The bytes of a byte-string literal. *)
Definition bytes_of_string (s : string) : bytes := String.list_byte_of_string s.

(** ** Machine integers

    A [u32] or [u64] is an [N] below the width's bound; the operations the
    source uses on them check or wrap explicitly. *)

Definition u32_max : N := 4294967295.
Definition u64_max : N := 18446744073709551615.

(** [u32::checked_add] and [u64::checked_add]. *)
Definition checked_add (max n m : N) : option N :=
  if (n + m <=? max)%N then Some (n + m)%N else None.

(** [u64::try_from] on an unsigned value of a larger width. *)
Definition try_from_unsigned (max n : N) : option N :=
  if (n <=? max)%N then Some n else None.

(** [u64::try_from] on a signed 64-bit value. *)
Definition try_from_signed (n : Z) : option N :=
  if (0 <=? n)%Z then Some (Z.to_N n) else None.

Lemma checked_add_Some max n m k :
  checked_add max n m = Some k ↔ (k = n + m ∧ n + m ≤ max)%N.
Proof.
  unfold checked_add. destruct (N.leb_spec (n + m) max); split.
  all: intros; destruct_and?; simplify_eq; done || lia.
Qed.

Lemma checked_add_None max n m :
  checked_add max n m = None ↔ (max < n + m)%N.
Proof.
  unfold checked_add. destruct (N.leb_spec (n + m) max); split; intros; done || lia.
Qed.

(** ** Ordered search in slices

    [slice::binary_search_by] as the standard library implements it: halve the
    window while it has more than one element, then look at the one left. *)

Section BinarySearch.
Context {A : Type}.
Implicit Types (f : A → comparison) (l : list A) (base size : nat).

Fixpoint binary_search_loop f l (fuel base size : nat) : nat :=
  match fuel with
  | O => base
  | S fuel =>
      if 1 <? size then
        let half := size / 2 in
        let mid := base + half in
        let base' :=
          match l !! mid with
          | Some x => match f x with Gt => base | _ => mid end
          | None => base
          end in
        binary_search_loop f l fuel base' (size - half)
      else base
  end.

(** [Ok i]: an element comparing [Eq] at [i]; [Err i]: none, [i] is where one
    can be inserted. *)
Definition binary_search_by f l : result nat nat :=
  match l with
  | [] => Err 0
  | _ =>
      let base := binary_search_loop f l (length l) 0 (length l) in
      match l !! base with
      | Some x =>
          match f x with
          | Eq => Ok base
          | Lt => Err (base + 1)
          | Gt => Err base
          end
      | None => Err base
      end
  end.

(** The slice is ordered with respect to the comparator: [Lt]s, then [Eq]s,
    then [Gt]s. *)
Definition search_ordered f l : Prop :=
  ∀ i j x y, i < j → l !! i = Some x → l !! j = Some y →
    (f x = Gt → f y = Gt) ∧ (f y = Lt → f x = Lt).

(** What the loop maintains about its window. *)
Definition window_ok f l base size : Prop :=
  0 < size ∧ base + size ≤ length l ∧
  (base = 0 ∨ ∃ x, l !! base = Some x ∧ f x ≠ Gt) ∧
  (∀ j y, base + size ≤ j → l !! j = Some y → f y = Gt).

Lemma half_bounds n : 1 < n → 0 < n / 2 ∧ n / 2 ≤ n - n / 2 ∧ n / 2 < n.
Proof.
  intros Hn. pose proof (Nat.div_mod_eq n 2).
  pose proof (Nat.mod_upper_bound n 2 ltac:(lia)).
  lia.
Qed.

Lemma window_ok_halve f l base size x :
  search_ordered f l →
  window_ok f l base size → 1 < size →
  l !! (base + size / 2) = Some x →
  window_ok f l (match f x with Gt => base | _ => base + size / 2 end)
    (size - size / 2).
Proof.
  intros Hord (Hpos & Hlen & Hlow & Hhigh) Hsize Hx.
  pose proof (half_bounds _ Hsize) as (? & ? & ?).
  destruct (f x) eqn:Hf; (split; [lia|]); (split; [lia|]); split.
  all: try (right; exists x; by rewrite Hf).
  all: try (intros j y ?; apply Hhigh; lia).
  - exact Hlow.
  - intros j y Hj Hy.
    destruct (decide (j = base + size / 2)) as [->|]; [naive_solver|].
    eapply (Hord (base + size / 2) j x y); [lia|done..].
Qed.

Lemma binary_search_loop_window f l fuel base size :
  search_ordered f l → size ≤ S fuel → window_ok f l base size →
  window_ok f l (binary_search_loop f l fuel base size) 1.
Proof.
  intros Hord. revert base size.
  induction fuel as [|fuel IH]; intros base size Hfuel Hw;
    cbn [binary_search_loop]; cbv zeta.
  { assert (size = 1) as -> by (destruct Hw; lia). done. }
  destruct (Nat.ltb_spec 1 size) as [Hsize|Hsize].
  - pose proof (half_bounds _ Hsize) as (? & ? & ?).
    destruct (lookup_lt_is_Some_2 l (base + size / 2)) as [x Hx].
    { destruct Hw as (_ & ? & _); lia. }
    rewrite Hx. apply IH; [lia|].
    by apply window_ok_halve.
  - assert (size = 1) as -> by (destruct Hw; lia). done.
Qed.
End BinarySearch.

Section BinarySearchSpec.
Context {A : Type}.
Implicit Types (f : A → comparison) (l : list A).

Lemma binary_search_window f l :
  search_ordered f l → l ≠ [] →
  window_ok f l (binary_search_loop f l (length l) 0 (length l)) 1.
Proof.
  intros Hord Hne. apply binary_search_loop_window; [done|lia|].
  destruct l as [|x l]; [done|].
  split; [simpl; lia|]. split; [done|]. split; [by left|].
  intros j y Hj Hy. apply lookup_lt_Some in Hy. lia.
Qed.

Lemma binary_search_by_Ok f l i :
  search_ordered f l → binary_search_by f l = Ok i →
  ∃ x, l !! i = Some x ∧ f x = Eq.
Proof.
  intros Hord. unfold binary_search_by. destruct l as [|x0 l0] eqn:Hl; [done|].
  rewrite <-Hl. case_match eqn:Hx; [|done].
  case_match eqn:Hf; intros; simplify_eq. eauto.
Qed.

Lemma binary_search_by_Err f l i :
  search_ordered f l → binary_search_by f l = Err i →
  i ≤ length l ∧
  (∀ j y, l !! j = Some y → j < i → f y = Lt) ∧
  (∀ j y, l !! j = Some y → i ≤ j → f y = Gt).
Proof.
  intros Hord. unfold binary_search_by. destruct l as [|x0 l0] eqn:Hl.
  { intros; simplify_eq. split; [done|]. by split; intros j y Hy; rewrite lookup_nil in Hy. }
  rewrite <-Hl in *.
  destruct (binary_search_window f l Hord) as (_ & Hlen & Hlow & Hhigh);
    [by rewrite Hl|].
  generalize dependent (binary_search_loop f l (length l) 0 (length l)).
  intros b Hlen Hlow Hhigh.
  destruct (lookup_lt_is_Some_2 l b) as [x Hx]; [lia|]. rewrite Hx.
  destruct (f x) eqn:Hf; intros; simplify_eq.
  - split; [lia|]. split; [|intros; eapply Hhigh; [|done]; lia].
    intros j y Hy Hj. destruct (decide (j = b)) as [->|]; [by simplify_eq|].
    eapply (Hord j b y x); [lia|done..].
  - destruct Hlow as [->|(x' & ? & ?)]; [|by simplify_eq].
    split; [lia|]. split; [lia|]. intros j y Hy Hj.
    destruct (decide (j = 0)) as [->|]; [by simplify_eq|].
    eapply (Hord 0 j x y); [lia|done..].
Qed.
End BinarySearchSpec.

Section BinarySearchBounds.
Context {A : Type}.
Implicit Types (f : A → comparison) (l : list A).

(** Whatever the comparator and the order of the slice, the indices returned
    are in range: the loop never leaves its window. *)
Lemma binary_search_loop_bound f l fuel base size :
  0 < size → base + size ≤ length l →
  binary_search_loop f l fuel base size < length l.
Proof.
  revert base size. induction fuel as [|fuel IH]; intros base size Hpos Hlen;
    cbn [binary_search_loop]; cbv zeta; [lia|].
  destruct (Nat.ltb_spec 1 size) as [Hsize|]; [|lia].
  pose proof (half_bounds _ Hsize) as (? & ? & ?).
  repeat case_match; apply IH; lia.
Qed.

Lemma binary_search_by_bound f l :
  match binary_search_by f l with
  | Ok i => i < length l
  | Err i => i ≤ length l
  end.
Proof.
  unfold binary_search_by. destruct l as [|x0 l0] eqn:Hl; [done|].
  rewrite <-Hl.
  pose proof (binary_search_loop_bound f l (length l) 0 (length l)) as Hb.
  specialize (Hb ltac:(rewrite Hl; simpl; lia) ltac:(lia)).
  generalize dependent (binary_search_loop f l (length l) 0 (length l)).
  intros b Hb. destruct (l !! b) as [x|]; [destruct (f x)|]; lia.
Qed.
End BinarySearchBounds.

(** [slice::partition_point], through [binary_search_by] as in the standard
    library. *)
Definition partition_point {A} (pred : A → bool) (l : list A) : nat :=
  match binary_search_by (λ x, if pred x then Lt else Gt) l with
  | Ok i => i
  | Err i => i
  end.

(** [slice::binary_search_by_key] for a key compared as an unsigned integer. *)
Definition binary_search_by_key {A} (b : N) (key : A → N) (l : list A) :
    result nat nat :=
  binary_search_by (λ x, (key x ?= b)%N) l.

(** [l.windows(2).any(p)] with [p] taking the two elements of the window. *)
Fixpoint windows2_any {A} (p : A → A → bool) (l : list A) : bool :=
  match l with
  | x :: (y :: _) as l' => p x y || windows2_any p l'
  | _ => false
  end.

(** [l.iter().position(p)]. *)
Fixpoint position {A} (p : A → bool) (l : list A) : option nat :=
  match l with
  | [] => None
  | x :: l => if p x then Some 0 else S <$> position p l
  end.

(** [Vec::insert], [None] where it panics. *)
Definition vec_insert {A} (i : nat) (x : A) (l : list A) : option (list A) :=
  if i <=? length l then Some (take i l ++ x :: drop i l) else None.

(** [Vec::remove]: the removed element and the rest, [None] where it panics. *)
Definition vec_remove {A} (i : nat) (l : list A) : option (A * list A) :=
  x ← l !! i; Some (x, take i l ++ drop (S i) l).

(** ** Lists ordered by a key *)

Definition sorted_by {A} (key : A → N) : list A → Prop :=
  StronglySorted (λ x y, key x < key y)%N.

Section SortedBy.
Context {A : Type} (key : A → N).
Implicit Types (l : list A) (x y : A) (k : N).

Lemma sorted_by_nil : sorted_by key [].
Proof. constructor. Qed.

Lemma sorted_by_lookup l i j x y :
  sorted_by key l → i < j → l !! i = Some x → l !! j = Some y →
  (key x < key y)%N.
Proof.
  intros Hs. revert i j. induction Hs as [|z l Hs IH Hz]; [done|].
  intros [|i] [|j] Hij Hx Hy; simplify_eq/=; [lia| |lia|].
  - by eapply (Forall_lookup_1 _ _ j) in Hz.
  - eapply IH; [|done..]. lia.
Qed.

Lemma sorted_by_lookup_inj l i j x y :
  sorted_by key l → l !! i = Some x → l !! j = Some y → key x = key y → i = j.
Proof.
  intros Hs Hx Hy Hk. destruct (Nat.lt_total i j) as [Hij|[->|Hij]]; [|done|].
  - pose proof (sorted_by_lookup l i j x y Hs Hij Hx Hy). lia.
  - pose proof (sorted_by_lookup l j i y x Hs Hij Hy Hx). lia.
Qed.

(** The adjacent-pairs check the source makes is strict sortedness. *)
Lemma windows2_any_sorted_by l :
  windows2_any (λ x y, key y <=? key x)%N l = false ↔ sorted_by key l.
Proof.
  unfold sorted_by. split.
  - intros Hw. apply Sorted_StronglySorted; [intros ???; lia|].
    induction l as [|x [|y l] IH]; [repeat constructor..|].
    simpl in Hw. apply orb_false_iff in Hw as [Hxy Hw].
    apply N.leb_gt in Hxy. constructor; [by apply IH|by constructor].
  - intros Hs%StronglySorted_Sorted.
    induction l as [|x [|y l] IH]; [done..|]. simpl.
    inversion Hs as [|?? Hs' Hd]; subst. inversion Hd; subst.
    apply orb_false_iff. split; [by apply N.leb_gt|by apply IH].
Qed.

Lemma sorted_by_search_ordered l k :
  sorted_by key l → search_ordered (λ x, (key x ?= k)%N) l.
Proof.
  intros Hs i j x y Hij Hx Hy.
  pose proof (sorted_by_lookup l i j x y Hs Hij Hx Hy).
  rewrite !N.compare_gt_iff, !N.compare_lt_iff. lia.
Qed.
End SortedBy.

#[export] Hint Resolve sorted_by_nil sorted_by_search_ordered : objsds.

Section SearchSpecs.
Context {A : Type}.
Implicit Types (l : list A) (x y : A).

Lemma partition_point_bound (p : A → bool) l : partition_point p l ≤ length l.
Proof.
  unfold partition_point.
  pose proof (binary_search_by_bound (λ x, if p x then Lt else Gt) l).
  case_match; lia.
Qed.

(** On a slice where the predicate holds of a prefix only, [partition_point]
    is the length of that prefix. *)
Lemma partition_point_spec (p : A → bool) l :
  (∀ i j x y, i < j → l !! i = Some x → l !! j = Some y →
     p y = true → p x = true) →
  (∀ j y, l !! j = Some y → j < partition_point p l → p y = true) ∧
  (∀ j y, l !! j = Some y → partition_point p l ≤ j → p y = false).
Proof.
  intros Hp. unfold partition_point.
  set (f := λ x, if p x then Lt else Gt).
  assert (search_ordered f l) as Hord.
  { intros i j x y Hij Hx Hy. specialize (Hp i j x y Hij Hx Hy).
    unfold f. destruct (p x), (p y); naive_solver. }
  destruct (binary_search_by f l) as [i|i] eqn:Hs.
  - apply binary_search_by_Ok in Hs as (x & _ & Hx); [|done].
    unfold f in Hx. by destruct (p x).
  - apply binary_search_by_Err in Hs as (_ & Hlt & Hgt); [|done].
    split; intros j y Hy Hj;
      [specialize (Hlt j y Hy Hj)|specialize (Hgt j y Hy Hj)];
      unfold f in *; by destruct (p y).
Qed.

Lemma take_Forall (P : A → Prop) l n :
  (∀ j y, l !! j = Some y → j < n → P y) → Forall P (take n l).
Proof.
  intros HP. apply Forall_lookup_2. intros j y [Hy Hj]%lookup_take_Some. eauto.
Qed.

Lemma drop_Forall (P : A → Prop) l n :
  (∀ j y, l !! j = Some y → n ≤ j → P y) → Forall P (drop n l).
Proof.
  intros HP. apply Forall_lookup_2. intros j y Hy.
  rewrite lookup_drop in Hy. eapply HP; [done|lia].
Qed.

Lemma filter_all (P : A → Prop) `{∀ x, Decision (P x)} l :
  Forall P l → filter P l = l.
Proof.
  induction 1 as [|x l Hx _ IH]; [done|]. by rewrite filter_cons_True, IH.
Qed.

Lemma filter_none (P : A → Prop) `{∀ x, Decision (P x)} l :
  Forall (λ x, ¬ P x) l → filter P l = [].
Proof.
  induction 1 as [|x l Hx _ IH]; [done|]. by rewrite filter_cons_False.
Qed.

Lemma filter_partition (P : A → Prop) `{∀ x, Decision (P x)} l n :
  Forall P (take n l) → Forall (λ x, ¬ P x) (drop n l) →
  filter P l = take n l ∧ filter (λ x, ¬ P x) l = drop n l.
Proof.
  intros Ht Hd.
  assert (∀ (Q : A → Prop) `{∀ x, Decision (Q x)},
            filter Q l = filter Q (take n l) ++ filter Q (drop n l)) as Hsplit.
  { intros Q ?. by rewrite <-filter_app, take_drop. }
  assert (Forall (λ x, ¬ ¬ P x) (take n l)) as Ht'.
  { eapply Forall_impl; [exact Ht|]. naive_solver. }
  split.
  - by rewrite Hsplit, (filter_all P), (filter_none P), app_nil_r.
  - by rewrite Hsplit, (filter_none (λ x, ¬ P x)), (filter_all (λ x, ¬ P x)).
Qed.

Lemma filter_suffix (P : A → Prop) `{∀ x, Decision (P x)} l n :
  Forall (λ x, ¬ P x) (take n l) → Forall P (drop n l) → filter P l = drop n l.
Proof.
  intros Ht Hd. rewrite <-(take_drop n l) at 1.
  by rewrite filter_app, filter_none, filter_all.
Qed.

Lemma position_Some (p : A → bool) l i :
  position p l = Some i ↔
  (∃ x, l !! i = Some x ∧ p x = true) ∧
  (∀ j y, j < i → l !! j = Some y → p y = false).
Proof.
  revert i. induction l as [|x l IH]; intros i; simpl.
  { split; [done|]. intros [(x & Hx & _) _]. by rewrite lookup_nil in Hx. }
  destruct (p x) eqn:Hp.
  - split.
    + intros; simplify_eq/=. split; [eauto|]. intros; lia.
    + intros [_ Hlt]. destruct i as [|i]; [done|].
      specialize (Hlt 0 x ltac:(lia) eq_refl). congruence.
  - rewrite fmap_Some. split.
    + intros (i' & [Hi Hlt]%IH & ->). split; [done|].
      intros [|j] y Hj Hy; simplify_eq/=; [done|]. apply (Hlt j); [lia|done].
    + intros [(y & Hy & Hpy) Hlt].
      destruct i as [|i]; simpl in Hy; [congruence|].
      exists i. split; [|done]. apply IH. split; [eauto|].
      intros j z Hj Hz. apply (Hlt (S j)); [lia|done].
Qed.

Lemma position_None (p : A → bool) l :
  position p l = None ↔ Forall (λ x, p x = false) l.
Proof.
  induction l as [|x l IH]; simpl; [by split; [constructor|]|].
  rewrite Forall_cons. destruct (p x) eqn:Hp; [naive_solver|].
  rewrite fmap_None, IH. naive_solver.
Qed.

Lemma vec_insert_Some i x l l' :
  vec_insert i x l = Some l' ↔ i ≤ length l ∧ l' = take i l ++ x :: drop i l.
Proof.
  unfold vec_insert. destruct (Nat.leb_spec i (length l)); naive_solver lia.
Qed.

Lemma vec_insert_is_Some i x l : i ≤ length l → is_Some (vec_insert i x l).
Proof. intros Hi. eexists. by apply vec_insert_Some. Qed.

Lemma vec_remove_is_Some i l : i < length l → is_Some (vec_remove i l).
Proof.
  intros [x Hx]%lookup_lt_is_Some_2. unfold vec_remove. rewrite Hx. by eexists.
Qed.

Lemma vec_remove_Some i x l l' :
  vec_remove i l = Some (x, l') ↔ l !! i = Some x ∧ l' = take i l ++ drop (S i) l.
Proof. unfold vec_remove. destruct (l !! i); naive_solver. Qed.
End SearchSpecs.

Section SortedOperations.
Context {A : Type} (key : A → N).
Implicit Types (l : list A) (x y : A) (k : N).

Lemma sorted_by_app l1 l2 :
  sorted_by key (l1 ++ l2) ↔
  (∀ x y, x ∈ l1 → y ∈ l2 → (key x < key y)%N) ∧
  sorted_by key l1 ∧ sorted_by key l2.
Proof. apply StronglySorted_app. Qed.

Lemma sorted_by_cons x l :
  sorted_by key (x :: l) ↔ Forall (λ y, (key x < key y)%N) l ∧ sorted_by key l.
Proof. apply StronglySorted_cons. Qed.

Lemma sorted_by_take_drop l i : sorted_by key l →
  sorted_by key (take i l) ∧ sorted_by key (drop i l) ∧
  (∀ x y, x ∈ take i l → y ∈ drop i l → (key x < key y)%N).
Proof.
  intros Hs. rewrite <-(take_drop i l) in Hs.
  apply sorted_by_app in Hs. naive_solver.
Qed.

(** Inserting at a point that separates smaller from larger keys. *)
Lemma sorted_by_insert l i x :
  sorted_by key l →
  Forall (λ y, (key y < key x)%N) (take i l) →
  Forall (λ y, (key x < key y)%N) (drop i l) →
  sorted_by key (take i l ++ x :: drop i l).
Proof.
  intros (Ht & Hd & Htd)%(sorted_by_take_drop _ i) Hlt Hgt.
  rewrite Forall_forall in Hlt. apply sorted_by_app.
  split; [|split; [done|by apply sorted_by_cons]].
  intros y z Hy [->|Hz]%elem_of_cons; auto.
Qed.

Lemma sorted_by_remove l i :
  sorted_by key l → sorted_by key (take i l ++ drop (S i) l).
Proof.
  intros Hs. pose proof (sorted_by_take_drop l i Hs) as (Ht & Hd & Htd).
  pose proof (sorted_by_take_drop l (S i) Hs) as (_ & Hd' & _).
  apply sorted_by_app. split; [|done]. intros x y Hx Hy. apply Htd; [done|].
  replace (S i) with (i + 1) in Hy by lia. rewrite <-drop_drop in Hy.
  apply list_elem_of_lookup in Hy as (j & Hj).
  rewrite lookup_drop in Hj. apply list_elem_of_lookup. eauto.
Qed.

Lemma sorted_by_NoDup l : sorted_by key l → NoDup l.
Proof.
  induction 1 as [|x l Hs IH Hx]; constructor; [|done].
  intros Hin. rewrite Forall_forall in Hx. specialize (Hx x Hin). simpl in Hx. lia.
Qed.

Lemma sorted_by_filter (P : A → Prop) `{∀ x, Decision (P x)} l :
  sorted_by key l → sorted_by key (filter P l).
Proof.
  induction 1 as [|x l Hs IH Hx]; [constructor|].
  destruct (decide (P x)); [rewrite filter_cons_True by done|by rewrite filter_cons_False].
  apply sorted_by_cons. split; [|done]. apply Forall_forall.
  intros y [_ Hy]%list_elem_of_filter. by eapply Forall_forall in Hx.
Qed.

(** Updating an element without changing its key. *)
Lemma sorted_by_update l i x y :
  sorted_by key l → l !! i = Some x → key y = key x →
  sorted_by key (<[i:=y]> l).
Proof.
  intros Hs Hx Hk. revert i Hx.
  induction Hs as [|z l Hs IH Hz]; intros [|i] Hx; simplify_eq/=.
  - apply sorted_by_cons. split; [|done]. by rewrite Hk.
  - apply sorted_by_cons. split; [|by apply IH].
    apply Forall_insert; [done|]. rewrite Hk. by eapply Forall_lookup_1 in Hz.
Qed.

Lemma sorted_by_middle l1 l2 x y :
  sorted_by key (l1 ++ x :: l2) → key y = key x → sorted_by key (l1 ++ y :: l2).
Proof.
  intros Hs Hk. replace (l1 ++ y :: l2) with (<[length l1 := y]> (l1 ++ x :: l2))
    by (by rewrite insert_app_r_alt, Nat.sub_diag by done).
  by apply (sorted_by_update _ _ x); [|apply list_lookup_middle|].
Qed.

Lemma binary_search_by_key_Ok l k i :
  sorted_by key l → binary_search_by_key k key l = Ok i →
  ∃ x, l !! i = Some x ∧ key x = k.
Proof.
  intros Hs Hi.
  apply binary_search_by_Ok in Hi as (x & Hx & Hk%N.compare_eq_iff);
    eauto with objsds.
Qed.

Lemma binary_search_by_key_Err l k i :
  sorted_by key l → binary_search_by_key k key l = Err i →
  i ≤ length l ∧
  Forall (λ x, (key x < k)%N) (take i l) ∧ Forall (λ x, (k < key x)%N) (drop i l).
Proof.
  intros Hs Hi.
  apply binary_search_by_Err in Hi as (Hlen & Hlt & Hgt); [|eauto with objsds].
  split; [done|split].
  - apply take_Forall. intros j y Hy Hj. by apply N.compare_lt_iff, (Hlt j).
  - apply drop_Forall. intros j y Hy Hj. by apply N.compare_gt_iff, (Hgt j).
Qed.

(** A key that is absent is not found, and one that is present is found at its
    index. *)
Lemma binary_search_by_key_absent l k :
  sorted_by key l → k ∉ key <$> l →
  ∃ i, binary_search_by_key k key l = Err i.
Proof.
  intros Hs Hk. destruct (binary_search_by_key k key l) as [i|i] eqn:Hi; [|eauto].
  apply binary_search_by_key_Ok in Hi as (x & Hx & <-); [|done].
  destruct Hk. apply list_elem_of_fmap. exists x. split; [done|].
  by eapply list_elem_of_lookup_2.
Qed.

Lemma binary_search_by_key_present l i x :
  sorted_by key l → l !! i = Some x → binary_search_by_key (key x) key l = Ok i.
Proof.
  intros Hs Hx.
  destruct (binary_search_by_key (key x) key l) as [j|j] eqn:Hj.
  - apply binary_search_by_key_Ok in Hj as (y & Hy & Hk); [|done].
    f_equal. by eapply sorted_by_lookup_inj.
  - apply binary_search_by_key_Err in Hj as (_ & Hlt & Hgt); [|done].
    rewrite Forall_lookup in Hlt, Hgt.
    destruct (decide (i < j)).
    + specialize (Hlt i x). rewrite lookup_take_Some in Hlt. naive_solver lia.
    + specialize (Hgt (i - j) x). rewrite lookup_drop in Hgt.
      replace (j + (i - j)) with i in Hgt by lia. naive_solver lia.
Qed.

Lemma partition_point_lt l k :
  sorted_by key l →
  let i := partition_point (λ x, key x <? k)%N l in
  Forall (λ x, (key x < k)%N) (take i l) ∧ Forall (λ x, (k ≤ key x)%N) (drop i l).
Proof.
  intros Hs. destruct (partition_point_spec (λ x, key x <? k)%N l) as [Hlt Hge].
  { intros i j x y Hij Hx Hy. pose proof (sorted_by_lookup key l i j x y Hs Hij Hx Hy).
    rewrite !N.ltb_lt. lia. }
  split; [apply take_Forall|apply drop_Forall]; intros j y Hy Hj.
  - by apply N.ltb_lt, (Hlt j).
  - by apply N.ltb_ge, (Hge j).
Qed.

Lemma partition_point_le l k :
  sorted_by key l →
  let i := partition_point (λ x, key x <=? k)%N l in
  Forall (λ x, (key x ≤ k)%N) (take i l) ∧ Forall (λ x, (k < key x)%N) (drop i l).
Proof.
  intros Hs. destruct (partition_point_spec (λ x, key x <=? k)%N l) as [Hlt Hge].
  { intros i j x y Hij Hx Hy. pose proof (sorted_by_lookup key l i j x y Hs Hij Hx Hy).
    rewrite !N.leb_le. lia. }
  split; [apply take_Forall|apply drop_Forall]; intros j y Hy Hj.
  - by apply N.leb_le, (Hlt j).
  - by apply N.leb_gt, (Hge j).
Qed.
End SortedOperations.

#[export] Hint Resolve sorted_by_insert sorted_by_remove sorted_by_update : objsds.

(** ** Insertion into an ordered list

    The reference the source's search-and-insert is compared with. *)

Fixpoint insert_sorted {A} (key : A → N) (x : A) (l : list A) : list A :=
  match l with
  | [] => [x]
  | y :: l' => if (key x <? key y)%N then x :: l else y :: insert_sorted key x l'
  end.

Section InsertSorted.
Context {A : Type} (key : A → N).
Implicit Types (l : list A) (x y : A).

Lemma insert_sorted_perm x l : insert_sorted key x l ≡ₚ x :: l.
Proof.
  induction l as [|y l IH]; simpl; [done|]. case_match; [done|].
  rewrite IH. apply Permutation_swap.
Qed.

Lemma elem_of_insert_sorted x y l : y ∈ insert_sorted key x l ↔ y = x ∨ y ∈ l.
Proof. by rewrite insert_sorted_perm, elem_of_cons. Qed.

Lemma insert_sorted_sorted x l :
  sorted_by key l → key x ∉ key <$> l → sorted_by key (insert_sorted key x l).
Proof.
  intros Hs Hx. induction Hs as [|y l Hs IH Hy]; simpl.
  { apply sorted_by_cons. split; constructor. }
  apply not_elem_of_cons in Hx as [Hxy Hx].
  destruct (N.ltb_spec (key x) (key y)); apply sorted_by_cons.
  - split; [|by apply sorted_by_cons]. constructor; [done|].
    eapply Forall_impl; [exact Hy|]. intros z; simpl. lia.
  - split; [|by apply IH]. apply Forall_forall. intros z.
    rewrite elem_of_insert_sorted. intros [->|Hz]; [lia|].
    by eapply Forall_forall in Hy.
Qed.

(** Inserting where a search says equals insertion in order. *)
Lemma insert_sorted_split x l i :
  Forall (λ y, key y < key x)%N (take i l) → Forall (λ y, key x < key y)%N (drop i l) →
  take i l ++ x :: drop i l = insert_sorted key x l.
Proof.
  revert i. induction l as [|y l IH]; intros i Hlt Hgt; [by destruct i|].
  destruct i as [|i]; simpl in *.
  - apply Forall_cons in Hgt as [Hgt _]. apply N.ltb_lt in Hgt. by rewrite Hgt.
  - apply Forall_cons in Hlt as [Hy Hlt].
    destruct (N.ltb_spec (key x) (key y)); [lia|]. by rewrite IH.
Qed.

(** An absent key: everything not smaller is larger. *)
Lemma Forall_le_lt_absent k l :
  k ∉ key <$> l → Forall (λ y, (k ≤ key y)%N) l → Forall (λ y, (k < key y)%N) l.
Proof.
  intros Hk Hl. apply Forall_forall. intros y Hy. rewrite Forall_forall in Hl.
  specialize (Hl y Hy). assert (k ≠ key y); [|lia].
  intros ->. apply Hk. by apply list_elem_of_fmap_2.
Qed.

Lemma not_elem_of_fmap_drop k l i : k ∉ key <$> l → k ∉ key <$> drop i l.
Proof.
  intros Hk (y & -> & Hy)%list_elem_of_fmap. apply Hk, list_elem_of_fmap_2.
  rewrite <-(take_drop i l). set_solver.
Qed.

(** [binary_search_by_key] then [insert] is insertion in order. *)
Lemma binary_search_insert x l :
  sorted_by key l → key x ∉ key <$> l →
  vec_insert (match binary_search_by_key (key x) key l with Ok i | Err i => i end) x l =
  Some (insert_sorted key x l).
Proof.
  intros Hs Hx. destruct (binary_search_by_key_absent key l (key x) Hs Hx) as [i Hi].
  rewrite Hi. apply binary_search_by_key_Err in Hi as (Hlen & Hlt & Hgt); [|done].
  apply vec_insert_Some. split; [done|]. symmetry. by apply insert_sorted_split.
Qed.

(** [partition_point] then [insert] is insertion in order. *)
Lemma partition_point_insert x l :
  sorted_by key l → key x ∉ key <$> l →
  vec_insert (partition_point (λ y, key y <? key x)%N l) x l =
  Some (insert_sorted key x l).
Proof.
  intros Hs Hx. pose proof (partition_point_lt key l (key x) Hs) as [Hlt Hge].
  apply vec_insert_Some. split; [apply partition_point_bound|]. symmetry.
  apply insert_sorted_split; [done|].
  apply Forall_le_lt_absent; [|done]. by apply not_elem_of_fmap_drop.
Qed.
End InsertSorted.

#[export] Hint Resolve insert_sorted_sorted : objsds.

(** ** Reference lookups in an ordered list *)

Section SortedLookup.
Context {A : Type} (key : A → N).
Implicit Types (l : list A) (x y : A).

(** Scanning for a key finds the element that carries it. *)
Lemma sorted_by_find l x :
  sorted_by key l → x ∈ l → head (filter (λ y, key y = key x) l) = Some x.
Proof.
  intros Hs (i & Hi)%list_elem_of_lookup.
  destruct (filter (λ y, key y = key x) l) as [|y l'] eqn:Hf.
  - assert (x ∈ filter (λ y, key y = key x) l) as Hx.
    { apply list_elem_of_filter. split; [done|]. by eapply list_elem_of_lookup_2. }
    rewrite Hf in Hx. by apply elem_of_nil in Hx.
  - assert (y ∈ filter (λ y, key y = key x) l) as Hy by (rewrite Hf; set_solver).
    apply list_elem_of_filter in Hy as [Hy (j & Hj)%list_elem_of_lookup].
    assert (j = i) as -> by (by eapply sorted_by_lookup_inj).
    by simplify_eq/=.
Qed.

(** Removing the element with a key by index is filtering the key out. *)
Lemma filter_ne_remove l j x :
  sorted_by key l → l !! j = Some x →
  filter (λ y, key y ≠ key x) l = take j l ++ drop (S j) l.
Proof.
  intros Hs. revert j. induction Hs as [|y l Hs IH Hy]; intros [|j] Hx; simplify_eq/=.
  - rewrite filter_cons_False by naive_solver. rewrite drop_0. apply filter_all.
    eapply Forall_impl; [exact Hy|]. intros z; simpl. lia.
  - pose proof (Forall_lookup_1 _ _ _ _ Hy Hx). simpl in *.
    rewrite filter_cons_True by lia. by rewrite (IH j).
Qed.

Lemma find_absent l k :
  k ∉ key <$> l → head (filter (λ y, key y = k) l) = None.
Proof.
  intros Hk. rewrite (filter_none (λ y, key y = k)); [done|].
  apply Forall_forall. intros y Hy <-. apply Hk. by apply list_elem_of_fmap_2.
Qed.

Lemma Forall_lt_absent l k i :
  Forall (λ y, (key y < k)%N) (take i l) → Forall (λ y, (k < key y)%N) (drop i l) →
  k ∉ key <$> l.
Proof.
  intros Hlt Hgt (y & -> & Hy)%list_elem_of_fmap. rewrite <-(take_drop i l) in Hy.
  rewrite Forall_forall in Hlt, Hgt.
  apply elem_of_app in Hy as [Hy|Hy]; [specialize (Hlt y Hy)|specialize (Hgt y Hy)]; lia.
Qed.
End SortedLookup.

(** ** Filtering maps *)

Lemma alter_const `{Countable K} {A} (m : gmap K A) i x y :
  m !! i = Some x → alter (λ _, y) i m = <[i := y]> m.
Proof.
  intros Hi. apply map_eq. intros j. destruct (decide (i = j)) as [<-|Hne].
  - by rewrite lookup_alter_eq, lookup_insert_eq, Hi.
  - by rewrite lookup_alter_ne, lookup_insert_ne.
Qed.

Lemma omap_cons {A B} (f : A → option B) x l :
  omap f (x :: l) = match f x with Some y => y :: omap f l | None => omap f l end.
Proof. done. Qed.
