(* ===== verification/Program.v ===== *)
(** * Effectful programs

    The source's operations are blocking functions that call an object store, a
    clock and a UUID generator.  They are modelled as programs over a signature
    of calls: [C] is the type of calls and [R c] the type of the reply to [c].
    Interfering clients can act between two calls, so a program keeps its calls
    explicit, and is given a meaning in two ways:

    - [run] executes it against a handler, a concrete implementation of the calls
      as a state-passing function ([None] is a panic);
    - [exec] is its big-step semantics against a relational specification of the
      calls.

    [run_exec] relates the two for every handler that simulates the relation. *)

From S2P Require Import Prelude.

Section Programs.
Context {C : Type} (R : C → Type).

Inductive prog (A : Type) : Type :=
  | Ret (a : A)
  | Panic
  | Call (c : C) (k : R c → prog A).
End Programs.
Arguments Ret {C R A} a.
Arguments Panic {C R A}.
Arguments Call {C R A} c k.

Section Combinators.
Context {C : Type} {R : C → Type}.

Fixpoint prog_bind {A B} (f : A → prog R B) (p : prog R A) : prog R B :=
  match p with
  | Ret a => f a
  | Panic => Panic
  | Call c k => Call c (λ r, prog_bind f (k r))
  end.

#[global] Instance prog_mret : MRet (prog R) := λ A a, Ret a.
#[global] Instance prog_mbind : MBind (prog R) := @prog_bind.

(** One call, returning its reply. *)
Definition call (c : C) : prog R (R c) := Call c Ret.

(** The [?] operator: continue on [Ok], return early on [Err]. *)
Definition try_bind {A B E} (f : A → prog R (result B E)) (p : prog R (result A E)) :
    prog R (result B E) :=
  prog_bind (λ r, match r with Ok a => f a | Err e => Ret (Err e) end) p.

(** [map_err] on the result of a program. *)
Definition prog_map_err {A E F} (f : E → F) (p : prog R (result A E)) :
    prog R (result A F) :=
  prog_bind (λ r, Ret (map_err f r)) p.

Definition prog_map_ok {A B E} (f : A → B) (p : prog R (result A E)) :
    prog R (result B E) :=
  prog_bind (λ r, Ret (map_ok f r)) p.

(** A standard-library operation that panics where the model has [None]. *)
Definition or_panic {A} (o : option A) : prog R A :=
  match o with Some a => Ret a | None => Panic end.

Lemma try_bind_Ok {A B E} (f : A → prog R (result B E)) a :
  try_bind f (Ret (Ok a)) = f a.
Proof. done. Qed.

Lemma try_bind_Err {A B E} (f : A → prog R (result B E)) e :
  try_bind f (Ret (Err e)) = Ret (Err e).
Proof. done. Qed.

(** The program reaches no panic, whatever the replies. *)
Fixpoint panic_free {A} (p : prog R A) : Prop :=
  match p with
  | Ret _ => True
  | Panic => False
  | Call c k => ∀ r, panic_free (k r)
  end.

Lemma panic_free_bind {A B} (f : A → prog R B) (p : prog R A) :
  panic_free p → (∀ a, panic_free (f a)) → panic_free (prog_bind f p).
Proof. induction p as [a| |c k IH]; simpl; naive_solver. Qed.

Lemma panic_free_try_bind {A B E} (f : A → prog R (result B E)) p :
  panic_free p → (∀ a, panic_free (f a)) → panic_free (try_bind f p).
Proof. intros Hp Hf. apply panic_free_bind; [done|]. by intros [a|e]. Qed.

(** The program makes at most [n] calls, whatever the replies. *)
Fixpoint calls_within {A} (n : nat) (p : prog R A) {struct p} : Prop :=
  match p with
  | Call c k => match n with O => False | S n => ∀ r, calls_within n (k r) end
  | _ => True
  end.

Lemma calls_within_mono {A} n m (p : prog R A) :
  n ≤ m → calls_within n p → calls_within m p.
Proof.
  revert n m. induction p as [a| |c k IH]; intros n m Hle Hp; [exact I..|].
  destruct n as [|n]; [by destruct Hp|]. destruct m as [|m]; [lia|].
  intros r. apply (IH r n); [lia|apply Hp].
Qed.

Lemma calls_within_bind {A B} n m (f : A → prog R B) (p : prog R A) :
  calls_within n p → (∀ a, calls_within m (f a)) → calls_within (n + m) (prog_bind f p).
Proof.
  intros Hp Hf. revert n Hp. induction p as [a| |c k IH]; intros n Hp.
  - apply (calls_within_mono m); [lia|apply Hf].
  - exact I.
  - destruct n as [|n]; [by destruct Hp|]. intros r. apply IH, Hp.
Qed.

Lemma calls_within_try_bind {A B E} n m (f : A → prog R (result B E)) p :
  calls_within n p → (∀ a, calls_within m (f a)) → calls_within (n + m) (try_bind f p).
Proof. intros Hp Hf. apply calls_within_bind; [done|]. by intros [a|e]. Qed.

(** The first program only passes on a value computed from its result. *)
Lemma calls_within_try_bind_map {A B D E} n m (g : A → B) (f : B → prog R (result D E)) p :
  calls_within n p → (∀ a, calls_within m (f (g a))) →
  calls_within (n + m) (try_bind f (try_bind (λ a, Ret (Ok (g a))) p)).
Proof.
  intros Hp Hf. revert n Hp. induction p as [[a|e]| |c k IH]; intros n Hp.
  - apply (calls_within_mono m); [lia|apply Hf].
  - exact I.
  - exact I.
  - destruct n as [|n]; [by destruct Hp|]. intros r. apply IH, Hp.
Qed.

(** Every call the program may make has the property. *)
Fixpoint calls_all {A} (P : C → Prop) (p : prog R A) : Prop :=
  match p with Call c k => P c ∧ ∀ r, calls_all P (k r) | _ => True end.

Lemma calls_all_bind {A B} P (f : A → prog R B) (p : prog R A) :
  calls_all P p → (∀ a, calls_all P (f a)) → calls_all P (prog_bind f p).
Proof. induction p; simpl; naive_solver. Qed.

Lemma calls_all_weaken {A} (P Q : C → Prop) (p : prog R A) :
  (∀ c, P c → Q c) → calls_all P p → calls_all Q p.
Proof. intros HPQ. induction p; simpl; naive_solver. Qed.

Lemma panic_free_or_panic {A} (o : option A) : is_Some o → panic_free (or_panic o).
Proof. by intros [a ->]. Qed.
End Combinators.

(** Proves a property that is a recursion over a program of the source: it follows the
    program call by call, whatever the replies, and splits on what the pure code tests;
    [close] is for the goals met on the way. *)
Ltac follow_calls close :=
  repeat first
    [ exact I | reflexivity
    | close
    | match goal with
      | |- _ ∧ _ => split
      | |- ∀ _, _ => intro
      end
    | progress unfold prog_map_ok, prog_map_err, try_bind, map_err, map_ok, ok_or, or_panic
    | progress simpl
    | match goal with
      | |- context [match ?x with _ => _ end] =>
          lazymatch x with context [match _ with _ => _ end] => fail | _ => destruct x end
      end
    | match goal with |- context [match position ?f ?l with _ => _ end] => destruct (position f l) end ].

Notation "'let?' x ':=' p 'in' k" := (try_bind (λ x, k) p)
  (at level 10, x name, p at level 100, k at level 200) : objsds_scope.
Notation "'let?' ' x ':=' p 'in' k" := (try_bind (λ x, k) p)
  (at level 10, x strict pattern, p at level 100, k at level 200) : objsds_scope.
Notation "'let!' x ':=' p 'in' k" := (prog_bind (λ x, k) p)
  (at level 10, x name, p at level 100, k at level 200) : objsds_scope.
Notation "'let!' ' x ':=' p 'in' k" := (prog_bind (λ x, k) p)
  (at level 10, x strict pattern, p at level 100, k at level 200) : objsds_scope.

Create Rewrite HintDb prog.
#[export] Hint Rewrite @try_bind_Ok @try_bind_Err : prog.

(** Reduce the early returns of a program whose results are known. *)
Ltac prog_simpl := repeat progress (simpl in *; autorewrite with prog in * ).

#[export] Hint Resolve panic_free_bind panic_free_try_bind : objsds.

(** ** Running against a handler *)

Section Run.
Context {C : Type} {R : C → Type} {W : Type}.

Definition handler : Type := ∀ c, W → option (R c * W).

Fixpoint run {A} (h : handler) (p : prog R A) (w : W) : option (A * W) :=
  match p with
  | Ret a => Some (a, w)
  | Panic => None
  | Call c k =>
      match h c w with
      | Some (r, w') => run h (k r) w'
      | None => None
      end
  end.

Lemma run_bind {A B} h (f : A → prog R B) (p : prog R A) w :
  run h (prog_bind f p) w =
  match run h p w with
  | Some (a, w') => run h (f a) w'
  | None => None
  end.
Proof.
  revert w. induction p as [a| |c k IH]; intros w; simpl; [done..|].
  by destruct (h c w) as [[r w']|].
Qed.

(** A handler that never panics runs every panic-free program to the end. *)
Lemma run_total {A} h (p : prog R A) w :
  (∀ c w, is_Some (h c w)) → panic_free p → is_Some (run h p w).
Proof.
  intros Hh. revert w. induction p as [a| |c k IH]; intros w Hp; simpl in *;
    [by eexists|done|].
  destruct (Hh c w) as [[r w'] ->]. by apply IH.
Qed.
End Run.
Arguments handler {C} R W.

(** ** Relational execution *)

Section Exec.
Context {C : Type} {R : C → Type} {W : Type}.
Variable step : W → ∀ c, R c → W → Prop.

(** [exec w p a w']: from [w], [p] can return [a] in [w'], each of its calls
    taking one [step]. *)
Fixpoint exec {A} (w : W) (p : prog R A) (a : A) (w' : W) : Prop :=
  match p with
  | Ret x => a = x ∧ w' = w
  | Panic => False
  | Call c k => ∃ r w1, step w c r w1 ∧ exec w1 (k r) a w'
  end.

Lemma exec_bind {A B} (f : A → prog R B) (p : prog R A) w w2 b :
  exec w (prog_bind f p) b w2 ↔
  ∃ a w1, exec w p a w1 ∧ exec w1 (f a) b w2.
Proof.
  revert w. induction p as [x| |c k IH]; intros w; simpl; [naive_solver..|].
  setoid_rewrite IH. naive_solver.
Qed.

Lemma exec_try_bind {A B E} (f : A → prog R (result B E)) p w w2 b :
  exec w (try_bind f p) b w2 ↔
  (∃ a w1, exec w p (Ok a) w1 ∧ exec w1 (f a) b w2) ∨
  (∃ e, exec w p (Err e) w2 ∧ b = Err e).
Proof.
  unfold try_bind. rewrite exec_bind. split.
  - intros ([a|e] & w1 & Hp & Hf); [by eauto|].
    destruct Hf as [-> ->]. eauto.
  - intros [(a & w1 & ? & ?)|(e & ? & ->)]; by eexists _, _.
Qed.

(** A handler simulates the relation when each call it answers is a [step],
    up to a relation between its states and those of the specification. *)
Definition simulates {S} (h : handler R S) (sim : S → W → Prop) : Prop :=
  ∀ c s r s' w, sim s w → h c s = Some (r, s') → ∃ w', step w c r w' ∧ sim s' w'.

Theorem run_exec {S A} (h : handler R S) (sim : S → W → Prop) (p : prog R A) s s' a w :
  simulates h sim → sim s w → run h p s = Some (a, s') →
  ∃ w', exec w p a w' ∧ sim s' w'.
Proof.
  intros Hsim. revert s w. induction p as [x| |c k IH]; intros s w Hs Hrun; simpl in *.
  - simplify_eq. eauto.
  - done.
  - destruct (h c s) as [[r s1]|] eqn:Hc; [|done].
    destruct (Hsim _ _ _ _ _ Hs Hc) as (w1 & Hstep & Hs1).
    destruct (IH r s1 w1 Hs1 Hrun) as (w' & Hexec & Hs'). eauto 10.
Qed.

(** Every execution of [p] ends in [Q], where [None] is a panic. *)
Fixpoint wp {A} (p : prog R A) (Q : option A → W → Prop) (w : W) : Prop :=
  match p with
  | Ret x => Q (Some x) w
  | Panic => Q None w
  | Call c k => ∀ r w', step w c r w' → wp (k r) Q w'
  end.

Lemma wp_exec {A} (p : prog R A) Q w a w' : wp p Q w → exec w p a w' → Q (Some a) w'.
Proof.
  revert w. induction p as [x| |c k IH]; intros w; simpl.
  - by intros ? [-> ->].
  - done.
  - intros Hp (r & w1 & Hs & Hx). by eapply IH; [apply Hp|].
Qed.
End Exec.

(** More permissive steps allow more executions. *)
Lemma exec_mono {C R W A} (step1 step2 : W → ∀ c : C, R c → W → Prop)
    (p : prog R A) w a w' :
  (∀ w c r w1, step1 w c r w1 → step2 w c r w1) →
  exec step1 w p a w' → exec step2 w p a w'.
Proof.
  intros Hstep. revert w. induction p as [x| |c k IH]; intros w; simpl; [done..|].
  intros (r & w1 & ? & ?). eauto 10.
Qed.

(** ** Runs as calls with replies

    What a program did: [plays p cs a] says that [p], making the calls [cs] and getting
    the replies in them, returns [a]. *)

Section Plays.
Context {C : Type} {R : C → Type}.

Fixpoint plays {A} (p : prog R A) (cs : list {c : C & R c}) (a : A) : Prop :=
  match p with
  | Ret x => cs = [] ∧ a = x
  | Panic => False
  | Call c k => ∃ r cs', cs = existT c r :: cs' ∧ plays (k r) cs' a
  end.

Lemma plays_bind {A B} (f : A → prog R B) (p : prog R A) cs b :
  plays (prog_bind f p) cs b ↔
  ∃ cs1 cs2 a, cs = cs1 ++ cs2 ∧ plays p cs1 a ∧ plays (f a) cs2 b.
Proof.
  revert cs. induction p as [x| |c k IH]; intros cs; simpl.
  - split; [intros H; by exists [], cs, x|]. by intros (? & ? & ? & -> & [-> ->] & ?).
  - split; [done|]. by intros (? & ? & ? & _ & [] & _).
  - setoid_rewrite IH. split.
    + intros (r & cs' & -> & cs1 & cs2 & a & -> & ? & ?).
      exists (existT c r :: cs1), cs2, a. naive_solver.
    + intros (? & cs2 & a & -> & (r & cs1 & -> & ?) & ?). exists r, (cs1 ++ cs2).
      split; [done|]. by exists cs1, cs2, a.
Qed.

Lemma plays_try_bind {A B E} (f : A → prog R (result B E)) p cs b :
  plays (try_bind f p) cs b ↔
  (∃ cs1 cs2 a, cs = cs1 ++ cs2 ∧ plays p cs1 (Ok a) ∧ plays (f a) cs2 b) ∨
  (∃ e, plays p cs (Err e) ∧ b = Err e).
Proof.
  unfold try_bind. rewrite plays_bind. split.
  - intros (cs1 & cs2 & [a|e] & -> & Hp & Hf); [left; by exists cs1, cs2, a|].
    destruct Hf as [-> ->]. rewrite app_nil_r. eauto.
  - intros [(cs1 & cs2 & a & -> & ? & ?)|(e & ? & ->)].
    + by exists cs1, cs2, (Ok a).
    + exists cs, [], (Err e). by rewrite app_nil_r.
Qed.

Lemma plays_or_panic {A} (o : option A) cs a :
  plays (or_panic o) cs a ↔ cs = [] ∧ o = Some a.
Proof. destruct o; simpl; naive_solver. Qed.

(** A run against the relation is one whose replies are steps of it. *)
Fixpoint replies {W} (step : W → ∀ c, R c → W → Prop) (w : W) (cs : list {c : C & R c})
    (w' : W) : Prop :=
  match cs with
  | [] => w' = w
  | existT c r :: cs => ∃ w1, step w c r w1 ∧ replies step w1 cs w'
  end.

Lemma plays_exec {W A} (step : W → ∀ c, R c → W → Prop) (p : prog R A) cs a w w' :
  plays p cs a → replies step w cs w' → exec step w p a w'.
Proof.
  revert cs w. induction p as [x| |c k IH]; intros cs w; simpl; [|done|].
  - by intros [-> ->].
  - intros (r & cs' & -> & Hp) (w1 & Hs & Hr). eauto.
Qed.
End Plays.
