(* ===== verification/ObjectStore.v ===== *)
(** * The object-store interface (crate objsds-store)

    Locations, versions, objects, the errors of conditional writes, and the
    [ObjectStore] trait as a type class.  The calls a data structure makes (the
    three store operations, the clock and the UUID generator) form the signature
    [call]/[reply] of its programs.  [store_step] is the contract the trait's
    documentation states, as a relation on an abstract store that remembers every
    version it has issued, and [StoreContract] is what an adapter has to prove. *)

From S2P Require Import Prelude.
From S2P Require Import Program.

(** ** String predicates of the Rust standard library *)

(** [str::contains] with a string pattern. *)
Fixpoint str_contains (pat s : string) : bool :=
  String.prefix pat s ||
  match s with
  | EmptyString => false
  | String _ s => str_contains pat s
  end.

(** [str::starts_with]. *)
Definition str_starts_with (pat s : string) : bool := String.prefix pat s.

(** ** Locations (location.rs) *)

(** Whether a value is one non-empty relative path segment. *)
Definition is_path_segment (value : string) : bool :=
  negb (String.eqb value "") && negb (String.eqb value ".") &&
  negb (String.eqb value "..") && negb (str_contains "/" value).

Record Location := MkLocation { location_str : string }.

(** [Location::as_str]. *)
Definition as_str (l : Location) : string := location_str l.

#[export] Instance Location_eq_dec : EqDecision Location.
Proof. solve_decision. Defined.

#[export] Instance Location_countable : Countable Location.
Proof.
  refine (inj_countable' location_str MkLocation _). by intros [].
Defined.

Inductive InvalidLocation := MkInvalidLocation.

#[export] Instance InvalidLocation_eq_dec : EqDecision InvalidLocation.
Proof. solve_decision. Defined.

Definition location_new (value : string) : result Location InvalidLocation :=
  if String.eqb value "" || str_starts_with "/" value || str_contains "//" value
  then Err MkInvalidLocation
  else Ok (MkLocation value).

Definition location_structure (namespace kind name : string) :
    result Location InvalidLocation :=
  if negb (forallb is_path_segment [namespace; kind; name])
  then Err MkInvalidLocation
  else location_new (namespace +:+ "/" +:+ kind +:+ "/" +:+ name +:+ ".json").

(** [Display] for [Location]. *)
Definition Location_display (l : Location) : string := location_str l.

(** [Location::new] accepts relative strings that are not normalized paths, and ones
    that climb out of a directory. *)
Lemma location_new_not_normalized :
  location_new "a/./b" = Ok (MkLocation "a/./b") ∧
  location_new "a/" = Ok (MkLocation "a/") ∧
  location_new "../a" = Ok (MkLocation "../a").
Proof. done. Qed.

Definition InvalidLocation_display (_ : InvalidLocation) : string :=
  "object location must be relative, non-empty, and normalized".

(** ** Versions and objects (version.rs, object.rs) *)

Record Version := version_new { version_as_str : string }.

#[export] Instance Version_eq_dec : EqDecision Version.
Proof. solve_decision. Defined.

#[export] Instance Version_countable : Countable Version.
Proof. refine (inj_countable' version_as_str version_new _). by intros []. Defined.

Record Object := MkObject { object_bytes : bytes; object_version : Version }.

#[export] Instance Object_eq_dec : EqDecision Object.
Proof. solve_decision. Defined.

(** ** Conditional-write errors (error.rs) *)

Inductive CreateError (E : Type) :=
  | CreateAlreadyExists (observed : Version)
  | CreateStore (e : E).
Arguments CreateAlreadyExists {E} observed.
Arguments CreateStore {E} e.

Inductive ReplaceError (E : Type) :=
  | ReplaceConflict (observed : option Version)
  | ReplaceStore (e : E).
Arguments ReplaceConflict {E} observed.
Arguments ReplaceStore {E} e.

(** ** The trait (store.rs)

    The state of the backend is threaded explicitly; [None] is a panic. *)
Class ObjectStore (S E : Type) := {
  store_get : S → Location → option (result (option Object) E * S);
  store_create : S → Location → bytes → option (result Version (CreateError E) * S);
  store_replace :
    S → Location → Version → bytes → option (result Version (ReplaceError E) * S);
}.

(** ** Calls made by the data structures *)

(** A 128-bit UUID, ordered as its big-endian bytes are. *)
Abbreviation Uuid := N.

Inductive call : Type :=
  | Get (l : Location)
  | Create (l : Location) (b : bytes)
  | Replace (l : Location) (expected : Version) (b : bytes)
  | NowMillis
  | NowV7.

#[export] Instance call_eq_dec : EqDecision call.
Proof. solve_decision. Defined.

(** A call of the object store. *)
Definition store_call (c : call) : bool :=
  match c with NowMillis | NowV7 => false | _ => true end.

Definition reply (E : Type) (c : call) : Type :=
  match c with
  | Get _ => result (option Object) E
  | Create _ _ => result Version (CreateError E)
  | Replace _ _ _ => result Version (ReplaceError E)
  | NowMillis => N
  | NowV7 => Uuid
  end.

(** Programs of the data structures, for a backend error type [E]. *)
Abbreviation io E := (prog (reply E)).

Definition get {E} (l : Location) : io E (result (option Object) E) :=
  Call (R := reply E) (Get l) Ret.
Definition create {E} (l : Location) (b : bytes) :
    io E (result Version (CreateError E)) :=
  Call (R := reply E) (Create l b) Ret.
Definition replace {E} (l : Location) (expected : Version) (b : bytes) :
    io E (result Version (ReplaceError E)) :=
  Call (R := reply E) (Replace l expected b) Ret.
Definition now_millis {E} : io E N := Call (R := reply E) NowMillis Ret.
Definition now_v7 {E} : io E Uuid := Call (R := reply E) NowV7 Ret.

(** ** Running against an adapter

    The readings of the clock and the UUIDs generated are external inputs: the
    environment gives the n-th of each. *)
Record Env := { env_millis : nat → N; env_uuid : nat → Uuid }.

Record world (S : Type) := MkWorld { w_store : S; w_clock : nat; w_uuids : nat }.
Arguments MkWorld {S} w_store w_clock w_uuids.
Arguments w_store {S} w.
Arguments w_clock {S} w.
Arguments w_uuids {S} w.

Definition with_store {S A} (w : world S) (r : option (A * S)) : option (A * world S) :=
  '(a, s) ← r; Some (a, MkWorld s (w_clock w) (w_uuids w)).

Definition handle {S E} `{ObjectStore S E} (env : Env) : handler (reply E) (world S) :=
  λ c w,
    match c with
    | Get l => with_store w (store_get (w_store w) l)
    | Create l b => with_store w (store_create (w_store w) l b)
    | Replace l v b => with_store w (store_replace (w_store w) l v b)
    | NowMillis =>
        Some (env_millis env (w_clock w),
              MkWorld (w_store w) (w_clock w + 1) (w_uuids w))
    | NowV7 =>
        Some (env_uuid env (w_uuids w),
              MkWorld (w_store w) (w_clock w) (w_uuids w + 1))
    end.

(** ** The contract

    The abstract store: the current objects, every version ever issued at a location
    with the bytes it identifies, and the number of writes so far. *)
Record astore := MkAStore {
  cur : gmap Location Object;
  hist : gmap (Location * Version) bytes;
  puts : nat;
}.

Definition empty_astore : astore := MkAStore ∅ ∅ 0.

Definition fresh (a : astore) (l : Location) (v : Version) : Prop :=
  hist a !! (l, v) = None.

(** A write of [b] may issue [v]: a version is never given to other bytes.  A backend
    that derives versions from the contents issues the same version again when the
    same bytes are written again. *)
Definition issuable (a : astore) (l : Location) (b : bytes) (v : Version) : Prop :=
  ∀ b', hist a !! (l, v) = Some b' → b' = b.

Definition put (l : Location) (b : bytes) (v : Version) (a : astore) : astore :=
  MkAStore (<[l := MkObject b v]> (cur a)) (<[(l, v) := b]> (hist a))
    (puts a + 1).

(** The current object of a location is the one its version identifies. *)
Definition coherent (a : astore) : Prop :=
  ∀ l o, cur a !! l = Some o → hist a !! (l, object_version o) = Some (object_bytes o).

(** Atomic conditional operations that transfer whole objects.  A backend failure
    of a write is ambiguous: the write may have been applied.  When [spurious], a
    conditional failure may be reported although the condition held, and the
    version it reports may be one observed later. *)
Definition store_step (spurious : bool) {E} (a : astore) (c : call) :
    reply E c → astore → Prop :=
  match c with
  | Get l => λ r a', a' = a ∧ (r = Ok (cur a !! l) ∨ ∃ e, r = Err e)
  | Create l b => λ r a',
      match r with
      | Ok v => cur a !! l = None ∧ issuable a l b v ∧ a' = put l b v a
      | Err (CreateAlreadyExists observed) =>
          a' = a ∧
          (spurious = false → ∃ o, cur a !! l = Some o ∧ observed = object_version o)
      | Err (CreateStore _) =>
          a' = a ∨ (cur a !! l = None ∧ ∃ v, issuable a l b v ∧ a' = put l b v a)
      end
  | Replace l expected b => λ r a',
      match r with
      | Ok v =>
          (object_version <$> cur a !! l) = Some expected ∧ issuable a l b v ∧
          a' = put l b v a
      | Err (ReplaceConflict observed) =>
          a' = a ∧
          (spurious = false →
             observed = object_version <$> cur a !! l ∧ observed ≠ Some expected)
      | Err (ReplaceStore _) =>
          a' = a ∨
          ((object_version <$> cur a !! l) = Some expected ∧
           ∃ v, issuable a l b v ∧ a' = put l b v a)
      end
  | NowMillis => λ _ a', a' = a
  | NowV7 => λ _ a', a' = a
  end.

(** The version a reply issues, if it does. *)
Definition issued {E} (c : call) : reply E c → option Version :=
  match c with
  | Create _ _ => ok
  | Replace _ _ _ => ok
  | Get _ => λ _, None
  | NowMillis => λ _, None
  | NowV7 => λ _, None
  end.

(** What an adapter proves: its operations are steps of the abstract store. *)
Class StoreContract (S E : Type) `{!ObjectStore S E} := {
  contract_spurious : bool;
  contract_sim : S → astore → Prop;
  contract_coherent s a : contract_sim s a → coherent a;
  contract_get s a l r s' :
    contract_sim s a → store_get s l = Some (r, s') →
    ∃ a', store_step contract_spurious a (Get l) r a' ∧ contract_sim s' a';
  contract_create s a l b r s' :
    contract_sim s a → store_create s l b = Some (r, s') →
    ∃ a', store_step contract_spurious a (Create l b) r a' ∧ contract_sim s' a';
  contract_replace s a l v b r s' :
    contract_sim s a → store_replace s l v b = Some (r, s') →
    ∃ a', store_step contract_spurious a (Replace l v b) r a' ∧ contract_sim s' a';
}.

(** The world of a relational execution: the abstract store, and the UUIDs and
    clock readings taken so far, oldest first. *)
Record aworld := MkAWorld {
  aw_store : astore;
  aw_uuids : list Uuid;
  aw_clock : list N;
}.

Definition world_step (spurious : bool) {E} (w : aworld) (c : call) :
    reply E c → aworld → Prop :=
  match c with
  | NowMillis => λ t w', w' = MkAWorld (aw_store w) (aw_uuids w) (aw_clock w ++ [t])
  | NowV7 => λ u w', w' = MkAWorld (aw_store w) (aw_uuids w ++ [u]) (aw_clock w)
  | c => λ r w', ∃ a', store_step spurious (aw_store w) c r a' ∧
                       w' = MkAWorld a' (aw_uuids w) (aw_clock w)
  end.

(** ** Facts about the contract *)

Section ContractFacts.
Context {E : Type} (spurious : bool).
Implicit Types (a : astore) (l : Location) (v : Version) (b : bytes).

Lemma fresh_issuable a l b v : fresh a l v → issuable a l b v.
Proof. unfold fresh, issuable. congruence. Qed.

Lemma put_coherent a l v b : coherent a → coherent (put l b v a).
Proof.
  intros Ha l' o. unfold put; simpl.
  destruct (decide (l = l')) as [<-|Hl].
  - rewrite lookup_insert_eq. intros; simplify_eq/=. apply lookup_insert_eq.
  - rewrite lookup_insert_ne by done. intros Ho%Ha.
    rewrite lookup_insert_ne by congruence. done.
Qed.

Lemma put_hist a l v b : issuable a l b v → hist a ⊆ hist (put l b v a).
Proof.
  intros Hi. apply map_subseteq_spec. intros k b' Hk. simpl.
  destruct (decide (k = (l, v))) as [->|Hne]; [|by rewrite lookup_insert_ne].
  rewrite lookup_insert_eq. f_equal. symmetry. by apply Hi.
Qed.

Lemma store_step_put a c (r : reply E c) a' :
  store_step spurious a c r a' →
  a' = a ∨ ∃ l b v, issuable a l b v ∧ a' = put l b v a.
Proof.
  destruct c; simpl; intros Hs; repeat case_match; naive_solver.
Qed.

Lemma store_step_coherent a c (r : reply E c) a' :
  store_step spurious a c r a' → coherent a → coherent a'.
Proof.
  intros [->|(l & b & v & ? & ->)]%store_step_put ?; auto using put_coherent.
Qed.

(** Issued versions are never forgotten or reassigned. *)
Lemma store_step_hist a c (r : reply E c) a' :
  store_step spurious a c r a' → hist a ⊆ hist a'.
Proof. intros [->|(l & b & v & ? & ->)]%store_step_put; auto using put_hist. Qed.

(** A version identifies its object: whoever read an object knows the current
    one as soon as it still carries that version. *)
Lemma coherent_same_version a l o o' :
  coherent a → hist a !! (l, object_version o) = Some (object_bytes o) →
  cur a !! l = Some o' → object_version o' = object_version o → o' = o.
Proof.
  intros Ha Ho Ho' Hv. specialize (Ha _ _ Ho'). rewrite Hv in Ha.
  destruct o, o'; simpl in *; congruence.
Qed.
End ContractFacts.

(** ** From an adapter to the contract *)

Section Refinement.
Context {S E : Type} `{StoreContract S E} (env : Env).

(** The concrete world and the abstract one agree: the stores are related, and
    the same UUIDs and clock readings have been consumed. *)
Definition world_sim (w : world S) (aw : aworld) : Prop :=
  contract_sim (w_store w) (aw_store aw) ∧
  aw_uuids aw = env_uuid env <$> seq 0 (w_uuids w) ∧
  aw_clock aw = env_millis env <$> seq 0 (w_clock w).

Lemma handle_simulates :
  simulates (world_step contract_spurious) (handle (E := E) env) world_sim.
Proof.
  intros c w r w' [a us cs] (Hsim & Hus & Hcs) Hh; simpl in Hsim, Hus, Hcs.
  destruct c as [l|l b|l v b| |]; simpl in Hh; unfold with_store in Hh.
  - destruct (store_get _ _) as [[r0 s']|] eqn:Hg; simplify_eq/=.
    destruct (contract_get _ _ _ _ _ Hsim Hg) as (a' & ? & ?).
    eexists. split; [by exists a'|done].
  - destruct (store_create _ _ _) as [[r0 s']|] eqn:Hg; simplify_eq/=.
    destruct (contract_create _ _ _ _ _ _ Hsim Hg) as (a' & ? & ?).
    eexists. split; [by exists a'|done].
  - destruct (store_replace _ _ _ _) as [[r0 s']|] eqn:Hg; simplify_eq/=.
    destruct (contract_replace _ _ _ _ _ _ _ Hsim Hg) as (a' & ? & ?).
    eexists. split; [by exists a'|done].
  - simplify_eq/=. eexists. split; [done|]. split; [done|]. split; [done|].
    simpl. by rewrite seq_app, fmap_app.
  - simplify_eq/=. eexists. split; [done|]. split; [done|]. split; [|done].
    simpl. by rewrite seq_app, fmap_app.
Qed.

(** A run of a program against an adapter is an execution of the program
    against the contract, with the UUIDs and clock readings of the run. *)
Lemma run_handle_exec {A} (p : io E A) w aw x w' :
  world_sim w aw → run (handle env) p w = Some (x, w') →
  ∃ aw', exec (world_step contract_spurious) aw p x aw' ∧ world_sim w' aw'.
Proof. intros. eapply run_exec; eauto using handle_simulates. Qed.
End Refinement.

(** ** Locations *)

Section Locations.
Implicit Types (s t : string).

Lemma str_contains_cons pat c s :
  str_contains pat (String c s) =
  String.prefix pat (String c s) || str_contains pat s.
Proof. done. Qed.

Lemma prefix_cons a b s t :
  String.prefix (String a s) (String b t) = bool_decide (a = b) && String.prefix s t.
Proof.
  cbn [String.prefix]. destruct (Ascii.ascii_dec a b).
  - by rewrite bool_decide_eq_true_2.
  - by rewrite bool_decide_eq_false_2.
Qed.

Lemma prefix_append s t : String.prefix s (s +:+ t) = true.
Proof.
  induction s as [|c s IH]; [by destruct t|].
  change (String c s +:+ t) with (String c (s +:+ t)).
  by rewrite prefix_cons, IH, bool_decide_eq_true_2.
Qed.

Lemma prefix_slash c s : String.prefix "/" (String c s) = bool_decide (c = "/"%char).
Proof.
  rewrite prefix_cons. replace (String.prefix "" s) with true by (by destruct s).
  rewrite andb_true_r. apply bool_decide_ext. naive_solver.
Qed.

Lemma no_slash_cons c s :
  str_contains "/" (String c s) = false ↔
  c ≠ "/"%char ∧ str_contains "/" s = false.
Proof.
  rewrite str_contains_cons, orb_false_iff, prefix_slash, bool_decide_eq_false.
  done.
Qed.

Lemma prefix_double_slash c s :
  c ≠ "/"%char → String.prefix "//" (String c s) = false.
Proof. intros Hc. by rewrite prefix_cons, bool_decide_eq_false_2. Qed.

(** Joining with one slash creates no double slash. *)
Lemma no_double_slash_join s t :
  str_contains "/" s = false → str_starts_with "/" t = false →
  str_contains "//" t = false → str_contains "//" (s +:+ "/" +:+ t) = false.
Proof.
  intros Hs Ht Ht'. induction s as [|c s IH].
  - change ("" +:+ "/" +:+ t) with (String "/" t).
    rewrite str_contains_cons, Ht', orb_false_r, prefix_cons. exact Ht.
  - apply no_slash_cons in Hs as [Hc Hs].
    change (String c s +:+ "/" +:+ t) with (String c (s +:+ "/" +:+ t)).
    rewrite str_contains_cons, IH, orb_false_r by done.
    by apply prefix_double_slash.
Qed.

Lemma no_slash_app s t :
  str_contains "/" s = false → str_contains "/" t = false →
  str_contains "/" (s +:+ t) = false.
Proof.
  intros Hs Ht. induction s as [|c s IH]; [done|].
  apply no_slash_cons in Hs as [Hc Hs].
  change (String c s +:+ t) with (String c (s +:+ t)).
  apply no_slash_cons. auto.
Qed.

Lemma no_slash_no_double s :
  str_contains "/" s = false → str_contains "//" s = false.
Proof.
  intros Hs. induction s as [|c s IH]; [done|].
  apply no_slash_cons in Hs as [Hc Hs].
  by rewrite str_contains_cons, IH, prefix_double_slash.
Qed.

Lemma no_slash_starts s : str_contains "/" s = false → str_starts_with "/" s = false.
Proof.
  destruct s as [|c s]; [done|]. intros [Hc _]%no_slash_cons.
  unfold str_starts_with. by rewrite prefix_slash, bool_decide_eq_false_2.
Qed.

Lemma segment_starts_join s t :
  s ≠ "" → str_contains "/" s = false → str_starts_with "/" (s +:+ t) = false.
Proof.
  destruct s as [|c s]; [done|]. intros _ [Hc _]%no_slash_cons.
  change (String c s +:+ t) with (String c (s +:+ t)).
  unfold str_starts_with. by rewrite prefix_slash, bool_decide_eq_false_2.
Qed.

(** The first slash splits a joined string uniquely. *)
Lemma join_inj s s' t t' :
  str_contains "/" s = false → str_contains "/" s' = false →
  s +:+ "/" +:+ t = s' +:+ "/" +:+ t' → s = s' ∧ t = t'.
Proof.
  revert s'. induction s as [|c s IH]; intros [|c' s'] Hs Hs' Heq.
  - split; [done|]. by injection Heq.
  - apply no_slash_cons in Hs' as [Hc' _]. by injection Heq.
  - apply no_slash_cons in Hs as [Hc _]. injection Heq. congruence.
  - apply no_slash_cons in Hs as [_ Hs], Hs' as [_ Hs'].
    injection Heq as -> Heq. destruct (IH s' Hs Hs' Heq) as [-> ->]. done.
Qed.

Lemma str_app_inj_r s s' t : s +:+ t = s' +:+ t → s = s'.
Proof.
  intros Heq. apply (f_equal String.list_ascii_of_string) in Heq.
  assert (∀ a b, String.list_ascii_of_string (a +:+ b) =
            String.list_ascii_of_string a ++ String.list_ascii_of_string b) as Happ.
  { intros a b. induction a as [|c a IH]; [done|].
    change (String c a +:+ b) with (String c (a +:+ b)). simpl. by rewrite IH. }
  rewrite !Happ in Heq. apply (inj (.++ _)) in Heq.
  rewrite <-(String.string_of_list_ascii_of_string s),
    <-(String.string_of_list_ascii_of_string s'). by rewrite Heq.
Qed.

Lemma is_path_segment_true s :
  is_path_segment s = true ↔
  s ≠ "" ∧ s ≠ "." ∧ s ≠ ".." ∧ str_contains "/" s = false.
Proof.
  unfold is_path_segment.
  rewrite !andb_true_iff, !negb_true_iff, !String.eqb_neq. naive_solver.
Qed.
End Locations.

Section StructureLocations.
Implicit Types (namespace kind name : string).

Lemma json_no_slash name :
  str_contains "/" name = false → str_contains "/" (name +:+ ".json") = false.
Proof. intros. by apply no_slash_app. Qed.

Lemma structure_path_valid namespace kind name :
  is_path_segment namespace = true → is_path_segment kind = true →
  is_path_segment name = true →
  location_new (namespace +:+ "/" +:+ kind +:+ "/" +:+ name +:+ ".json") =
  Ok (MkLocation (namespace +:+ "/" +:+ kind +:+ "/" +:+ name +:+ ".json")).
Proof.
  intros (Hn & _ & _ & Hn')%is_path_segment_true (Hk & _ & _ & Hk')%is_path_segment_true
    (Hm & _ & _ & Hm')%is_path_segment_true.
  unfold location_new.
  rewrite (no_double_slash_join namespace), (segment_starts_join namespace) by
    auto using segment_starts_join, no_double_slash_join, no_slash_starts,
      no_slash_no_double, json_no_slash.
  by destruct namespace.
Qed.

(** C37: [Location::structure] returns [{namespace}/{kind}/{name}.json] exactly
    when all three arguments are path segments, and [InvalidLocation] otherwise:
    the second validation, by [Location::new], never rejects what the first
    accepted. *)
Lemma location_structure_spec namespace kind name :
  location_structure namespace kind name =
  if is_path_segment namespace && is_path_segment kind && is_path_segment name
  then Ok (MkLocation (namespace +:+ "/" +:+ kind +:+ "/" +:+ name +:+ ".json"))
  else Err MkInvalidLocation.
Proof.
  unfold location_structure. simpl forallb. rewrite andb_true_r, andb_assoc.
  destruct (is_path_segment namespace) eqn:Hn, (is_path_segment kind) eqn:Hk,
    (is_path_segment name) eqn:Hm; simpl; auto using structure_path_valid.
Qed.

Lemma location_structure_Ok namespace kind name l :
  location_structure namespace kind name = Ok l →
  is_path_segment namespace = true ∧ is_path_segment kind = true ∧
  is_path_segment name = true ∧
  as_str l = namespace +:+ "/" +:+ kind +:+ "/" +:+ name +:+ ".json".
Proof.
  unfold location_structure. simpl forallb. rewrite andb_true_r.
  destruct (is_path_segment namespace) eqn:Hn, (is_path_segment kind) eqn:Hk,
    (is_path_segment name) eqn:Hm; simpl; try done.
  rewrite structure_path_valid by done. intros; by simplify_eq/=.
Qed.

Lemma structure_path_inj namespace kind name namespace' kind' name' :
  is_path_segment namespace = true → is_path_segment namespace' = true →
  is_path_segment kind = true → is_path_segment kind' = true →
  namespace +:+ "/" +:+ kind +:+ "/" +:+ name +:+ ".json" =
    namespace' +:+ "/" +:+ kind' +:+ "/" +:+ name' +:+ ".json" →
  namespace = namespace' ∧ kind = kind' ∧ name = name'.
Proof.
  intros (_ & _ & _ & Hn)%is_path_segment_true (_ & _ & _ & Hn')%is_path_segment_true
    (_ & _ & _ & Hk)%is_path_segment_true (_ & _ & _ & Hk')%is_path_segment_true Heq.
  apply join_inj in Heq as [-> Heq]; [|done..].
  apply join_inj in Heq as [-> Heq]; [|done..].
  by apply str_app_inj_r in Heq as ->.
Qed.
End StructureLocations.

(** ** Executions of single calls *)

Section ExecCalls.
Context {E : Type} (spurious : bool).
Implicit Types (w : aworld) (l : Location).

(** The world after a store call that leaves the store in [a]. *)
Definition set_store (a : astore) w : aworld :=
  MkAWorld a (aw_uuids w) (aw_clock w).

Lemma set_store_id w : set_store (aw_store w) w = w.
Proof. by destruct w. Qed.

Lemma exec_get w l r w' :
  exec (world_step spurious) w (get (E := E) l) r w' ↔
  w' = w ∧ (r = Ok (cur (aw_store w) !! l) ∨ ∃ e, r = Err e).
Proof.
  simpl. split.
  - intros (r' & w1 & (a' & [-> Hr] & ->) & -> & ->). split; [by destruct w|done].
  - intros [-> Hr]. exists r, w. split; [|done].
    exists (aw_store w). split; [done|]. symmetry. apply set_store_id.
Qed.

Lemma exec_create w l b r w' :
  exec (world_step spurious) w (create (E := E) l b) r w' ↔
  ∃ a', store_step spurious (aw_store w) (Create l b) r a' ∧ w' = set_store a' w.
Proof. simpl. naive_solver. Qed.

Lemma exec_replace w l v b r w' :
  exec (world_step spurious) w (replace (E := E) l v b) r w' ↔
  ∃ a', store_step spurious (aw_store w) (Replace l v b) r a' ∧ w' = set_store a' w.
Proof. simpl. naive_solver. Qed.

Lemma exec_now_v7 w u w' :
  exec (world_step spurious) w (now_v7 (E := E)) u w' ↔
  w' = MkAWorld (aw_store w) (aw_uuids w ++ [u]) (aw_clock w).
Proof. simpl. naive_solver. Qed.

Lemma exec_now_millis w t w' :
  exec (world_step spurious) w (now_millis (E := E)) t w' ↔
  w' = MkAWorld (aw_store w) (aw_uuids w) (aw_clock w ++ [t]).
Proof. simpl. naive_solver. Qed.

(** A run only adds to what was drawn and to what was written. *)
Lemma exec_extends {A} w (p : io E A) x w' :
  exec (world_step spurious) w p x w' →
  aw_uuids w `prefix_of` aw_uuids w' ∧ aw_clock w `prefix_of` aw_clock w' ∧
  puts (aw_store w) ≤ puts (aw_store w').
Proof.
  revert w. induction p as [y| |c k IH]; intros w; simpl; [by intros [_ ->]|done|].
  intros (r & w1 & Hs & (? & ? & Hle)%IH).
  destruct c; cbn [world_step] in Hs; try (destruct Hs as (a' & Ha & ->));
    try subst w1; split_and!; try done; try (by eapply prefix_app_l);
    (etrans; [|exact Hle]); apply store_step_put in Ha as [->|(? & ? & ? & _ & ->)]; simpl; lia.
Qed.
End ExecCalls.

(** ** Reading and replacing a document

    Every structure reads its object with one [Get] followed by pure decoding, and
    writes it back with pure encoding followed by one [Replace].  [F] is the error
    type of the structure, [st] its injection of backend errors. *)

Section ObjectProtocol.
Context {E F : Type} (st : E → F).

(** [p] reads location [l] and returns what [obs] makes of the object. *)
Definition reads_object {T} (l : Location) (obs : option Object → result T F)
    (p : io E (result T F)) : Prop :=
  ∃ k, p = Call (R := reply E) (Get l) k ∧
    ∀ r : result (option Object) E,
      k r = Ret (match r with Ok o => obs o | Err e => Err (st e) end).

(** [p] encodes ([rb]) and replaces location [l], expecting version [v]; [conv]
    translates the reply. *)
Definition replaces_object {T} (l : Location) (v : Version) (rb : result bytes F)
    (conv : result Version (ReplaceError E) → result T F)
    (p : io E (result T F)) : Prop :=
  match rb with
  | Ok b =>
      ∃ k, p = Call (R := reply E) (Replace l v b) k ∧
        ∀ r : result Version (ReplaceError E), k r = Ret (conv r)
  | Err e => p = Ret (Err e)
  end.

Context (spurious : bool).
Implicit Types (w : aworld) (l : Location).

Lemma exec_reads_object {T} l (obs : _ → result T F) p w r w' :
  reads_object l obs p →
  exec (world_step spurious) w p r w' ↔
  w' = w ∧ (r = obs (cur (aw_store w) !! l) ∨ ∃ e, r = Err (st e)).
Proof.
  intros (k & -> & Hk). cbn [exec world_step store_step]. split.
  - intros (r0 & w1 & (a' & [-> Hr] & ->) & Hx). rewrite Hk in Hx.
    destruct Hx as [-> ->]. split; [by destruct w|].
    destruct Hr as [->|[e ->]]; eauto.
  - intros [-> Hr]. destruct Hr as [->|[e ->]].
    + exists (Ok (cur (aw_store w) !! l)), w. rewrite Hk. split; [|done].
      exists (aw_store w). split; [by auto|by destruct w].
    + exists (Err e), w. rewrite Hk. split; [|done].
      exists (aw_store w). split; [by eauto|by destruct w].
Qed.

Lemma exec_reads_object_bind {T A} l (obs : _ → result T F) p
    (f : T → io E (result A F)) w r w' :
  reads_object l obs p → exec (world_step spurious) w (try_bind f p) r w' →
  (∃ e, r = Err (st e) ∧ w' = w) ∨
  match obs (cur (aw_store w) !! l) with
  | Ok x => exec (world_step spurious) w (f x) r w'
  | Err e => r = Err e ∧ w' = w
  end.
Proof.
  intros Hp [(x & w1 & Hr & Hf)|(e & Hr & ->)]%exec_try_bind;
    apply (exec_reads_object l obs p _ _ _ Hp) in Hr as [-> [Hr|[e' Hr]]]; try done.
  - right. by rewrite <-Hr.
  - right. by rewrite <-Hr.
  - left. exists e'. by simplify_eq.
Qed.

Lemma exec_replaces_object {T} l v rb (conv : _ → result T F) p w r w' :
  replaces_object l v rb conv p → exec (world_step spurious) w p r w' →
  match rb with
  | Ok b =>
      ∃ r0 a', store_step spurious (aw_store w) (Replace l v b) r0 a' ∧
        r = conv r0 ∧ w' = set_store a' w
  | Err e => r = Err e ∧ w' = w
  end.
Proof.
  destruct rb as [b|e]; simpl; [|by intros ->].
  intros (k & -> & Hk) (r0 & w1 & (a' & Hs & ->) & Hx). rewrite Hk in Hx.
  destruct Hx as [-> ->]. by exists r0, a'.
Qed.

(** A structure that mutates its document: the outcome of the write. *)
Definition wrote (w : aworld) (l : Location) (b : bytes) (v : Version) (w' : aworld) :
    Prop :=
  issuable (aw_store w) l b v ∧ w' = set_store (put l b v (aw_store w)) w.
End ObjectProtocol.

(** Proves [reads_object l st obs p] and [replaces_object l v rb conv p] by running
    the program up to its call and splitting on what the pure code tests; [obs] is
    the definition to unfold. *)
Tactic Notation "solve_object_protocol" reference(obs) :=
  eexists; split; [reflexivity|];
  let r := fresh "r" in
  intros [r|r]; cbn; try done;
  unfold obs, and_then;
  repeat (case_match; prog_simpl; simplify_eq; try done).
