(* ===== verification/MemoryStore.v ===== *)
(** * The in-memory adapter (crate objsds-store-memory)

    [State] is the state behind the adapter's mutex: every operation takes the
    mutex for its whole duration and recovers a poisoned one, so operations are
    atomic functions on it.  The version counter is a [u64]: past its maximum
    [version] panics in a build with overflow checks and wraps in one without;
    [overflow_checks] selects the build. *)

From S2P Require Import Prelude.
From S2P Require Import Program.
From S2P Require Import ObjectStore.

Module Memory.

Record State := MkState {
  objects : gmap Location Object;
  next_version : N;
}.

(** [MemoryStore::default()]. *)
Definition default : State := MkState ∅ 0.

(** The token of the n-th version: [u64::to_string]. *)
Definition token (n : N) : Version := version_new (pretty n).

Section Operations.
Context (overflow_checks : bool).
Implicit Types (s : State) (l : Location) (b : bytes).

Definition version s : option (Version * State) :=
  let next := (next_version s + 1)%N in
  if (next <=? u64_max)%N then Some (token next, MkState (objects s) next)
  else if overflow_checks then None
  else
    let wrapped := (next mod (u64_max + 1))%N in
    Some (token wrapped, MkState (objects s) wrapped).

Definition get s l : option (result (option Object) Empty_set * State) :=
  Some (Ok (objects s !! l), s).

Definition create s l b : option (result Version (CreateError Empty_set) * State) :=
  match objects s !! l with
  | Some object => Some (Err (CreateAlreadyExists (object_version object)), s)
  | None =>
      '(v, s) ← version s;
      Some (Ok v, MkState (<[l := MkObject b v]> (objects s)) (next_version s))
  end.

Definition replace s l (expected : Version) b :
    option (result Version (ReplaceError Empty_set) * State) :=
  let conflict (object : option Object) :=
    Some (Err (ReplaceConflict (object_version <$> object)), s) in
  let write :=
    '(v, s) ← version s;
    Some (Ok v, MkState (<[l := MkObject b v]> (objects s)) (next_version s)) in
  match objects s !! l with
  | Some object =>
      if decide (object_version object = expected) then write
      else conflict (Some object)
  | None => conflict None
  end.
End Operations.

Definition store (overflow_checks : bool) : ObjectStore State Empty_set := {|
  store_get := get;
  store_create := create overflow_checks;
  store_replace := replace overflow_checks;
|}.

(** The adapter as other components run on it: with overflow checks. *)
#[global] Instance checked_store : ObjectStore State Empty_set := store true.

(** The abstract store has the same objects, and every version it has issued is
    the token of a number the counter has passed. *)
Definition sim (s : State) (a : astore) : Prop :=
  objects s = cur a ∧ coherent a ∧
  (∀ l v b, hist a !! (l, v) = Some b → ∃ n, v = token n ∧ (n ≤ next_version s)%N).

(** ** Facts *)

#[global] Instance token_inj : Inj (=) (=) token.
Proof. intros n m Heq. unfold token in Heq. by simplify_eq. Qed.

Lemma sim_default : sim default empty_astore.
Proof.
  split; [done|]. split; [intros l o Hl|intros l v b Hl];
    simpl in Hl; by rewrite lookup_empty in Hl.
Qed.

Lemma version_Some s v s' :
  version true s = Some (v, s') →
  (next_version s < u64_max)%N ∧ v = token (next_version s + 1) ∧
  s' = MkState (objects s) (next_version s + 1).
Proof.
  unfold version. destruct (N.leb_spec (next_version s + 1) u64_max); [|done].
  intros; simplify_eq. split; [lia|done].
Qed.

(** A new version is fresh at every location, and recording it keeps the
    simulation. *)
Lemma sim_put s a l b v s' :
  sim s a → version true s = Some (v, s') →
  (∀ l, fresh a l v) ∧
  sim (MkState (<[l := MkObject b v]> (objects s')) (next_version s')) (put l b v a).
Proof.
  intros (Hobj & Hcoh & Hhist) (_ & -> & ->)%version_Some.
  assert (∀ l, fresh a l (token (next_version s + 1))) as Hfresh.
  { clear l. intros l. unfold fresh. destruct (hist a !! _) as [b'|] eqn:Hv; [|done].
    apply Hhist in Hv as (n & Hn%(inj token) & ?). lia. }
  split; [done|]. split; [simpl; by rewrite Hobj|].
  split; [by apply put_coherent|].
  intros l' v' b' Hv'. simpl in Hv'.
  destruct (decide ((l, token (next_version s + 1)) = (l', v'))) as [Heq|Hne].
  - simplify_eq. simpl. eauto with lia.
  - rewrite lookup_insert_ne in Hv' by done.
    apply Hhist in Hv' as (n & -> & ?). exists n. simpl. split; [done|lia].
Qed.

Lemma create_sim s a l b r s' :
  sim s a → create true s l b = Some (r, s') →
  ∃ a', store_step (E := Empty_set) false a (Create l b) r a' ∧ sim s' a' ∧
    ∀ v, issued (Create l b) r = Some v → ∀ l, fresh a l v.
Proof.
  intros Hsim. unfold create. destruct (objects s !! l) as [o|] eqn:Ho.
  - intros; simplify_eq. exists a. split; [|by split]. split; [done|]. intros _.
    exists o. split; [by destruct Hsim as [<- _]|done].
  - destruct (version true s) as [[v s1]|] eqn:Hv; [|done].
    intros; simplify_eq/=. destruct (sim_put s a l b v s1 Hsim Hv) as [Hf Hs].
    eexists. split; [|split; [exact Hs|by intros ? [= <-]]].
    split; [by destruct Hsim as [<- _]|]. split; [|done]. by apply fresh_issuable.
Qed.

Lemma replace_sim s a l expected b r s' :
  sim s a → replace true s l expected b = Some (r, s') →
  ∃ a', store_step (E := Empty_set) false a (Replace l expected b) r a' ∧ sim s' a' ∧
    ∀ v, issued (Replace l expected b) r = Some v → ∀ l, fresh a l v.
Proof.
  intros Hsim. unfold replace.
  assert (objects s !! l = cur a !! l) as Hcur by (by destruct Hsim as [<- _]).
  destruct (objects s !! l) as [o|] eqn:Ho; [case_decide as Hd|].
  - destruct (version true s) as [[v s1]|] eqn:Hv; [|done].
    intros; simplify_eq/=. destruct (sim_put s a l b v s1 Hsim Hv) as [Hf Hs].
    eexists. split; [|split; [exact Hs|by intros ? [= <-]]].
    split; [by rewrite <-Hcur|]. split; [|done]. by apply fresh_issuable.
  - intros; simplify_eq. exists a. split; [|by split]. split; [done|]. intros _.
    rewrite <-Hcur. split; [done|]. simpl. congruence.
  - intros; simplify_eq. exists a. split; [|by split]. split; [done|]. intros _.
    by rewrite <-Hcur.
Qed.

(** C21: the in-memory adapter, built with overflow checks, implements the
    object-store contract: each of its
    three operations is a step of the abstract store, without spurious
    conflicts; and a version it issues was never issued before, anywhere. *)
Theorem memory_implements_contract env c (w : world State) r w' a :
  sim (w_store w) a → handle (E := Empty_set) env c w = Some (r, w') →
  ∃ a', store_step false a c r a' ∧ sim (w_store w') a' ∧
    ∀ v, issued c r = Some v → ∀ l, fresh a l v.
Proof.
  intros Hsim. destruct c as [l|l b|l v b| |]; simpl.
  - intros; simplify_eq/=. exists a. split; [|by split]. split; [done|left].
    by destruct Hsim as [-> _].
  - unfold with_store. destruct (create _ _ _ _) as [[r0 s']|] eqn:Hc; [|done].
    intros; simplify_eq/=. by eapply create_sim.
  - unfold with_store. destruct (replace _ _ _ _ _) as [[r0 s']|] eqn:Hc; [|done].
    intros; simplify_eq/=. by eapply replace_sim.
  - intros; simplify_eq/=. exists a. split; [done|by split].
  - intros; simplify_eq/=. exists a. split; [done|by split].
Qed.

(** The version counter stays a [u64]; below its maximum both builds issue
    the next number's token, and at the maximum a build with overflow checks
    panics while one without starts over at token 0. *)
Lemma memory_version_width overflow_checks s :
  (next_version s ≤ u64_max)%N →
  match version overflow_checks s with
  | Some (v, s') =>
      (next_version s' ≤ u64_max)%N ∧ objects s' = objects s ∧
      v = token (next_version s') ∧
      next_version s' = if (next_version s =? u64_max)%N then 0%N
                        else (next_version s + 1)%N
  | None => overflow_checks = true ∧ next_version s = u64_max
  end.
Proof.
  intros Hs. unfold version.
  destruct (N.leb_spec (next_version s + 1) u64_max) as [Hle|Hgt].
  - simpl. destruct (N.eqb_spec (next_version s) u64_max); [lia|].
    by split_and!.
  - assert (next_version s = u64_max) as -> by lia.
    destruct overflow_checks; [done|].
    change ((u64_max + 1) mod (u64_max + 1))%N with 0%N.
    rewrite N.eqb_refl. simpl. split_and!; done || lia.
Qed.

Lemma memory_implements_contract_witness :
  ∃ a', store_step (E := Empty_set) false empty_astore
          (Create (MkLocation "a") []) (Ok (token 1)) a' ∧
        sim (MkState {[MkLocation "a" := MkObject [] (token 1)]} 1) a' ∧
        ∀ v, Some (token 1) = Some v → ∀ l, fresh empty_astore l v.
Proof.
  apply (memory_implements_contract
           {| env_millis := λ _, 0%N; env_uuid := λ _, 0%N |}
           (Create (MkLocation "a") []) (MkWorld default 0 0) (Ok (token 1))
           (MkWorld (MkState {[MkLocation "a" := MkObject [] (token 1)]} 1) 0 0)).
  - apply sim_default.
  - reflexivity.
Defined.

#[global] Program Instance contract : StoreContract State Empty_set := {|
  contract_spurious := false;
  contract_sim := sim;
|}.
Next Obligation. by intros s a (_ & ? & _). Qed.
Next Obligation.
  intros s a l r s' Hsim Hg. simpl in *. unfold get in Hg. simplify_eq.
  exists a. split; [|done]. split; [done|left]. by destruct Hsim as [-> _].
Qed.
Next Obligation.
  intros s a l b r s' Hsim Hc. destruct (create_sim s a l b r s' Hsim Hc) as (a' & ? & ? & _).
  eauto.
Qed.
Next Obligation.
  intros s a l v b r s' Hsim Hc.
  destruct (replace_sim s a l v b r s' Hsim Hc) as (a' & ? & ? & _). eauto.
Qed.

End Memory.
