(* ===== verification/ContractProgram.v ===== *)
(** * The repository's contract test (objsds-tests/src/backend_contract.rs)

    [assert_backend_contract] is the program with which the repository tests its backends.
    An [assert!] or [expect] that fails is a panic.  What it accepts is characterised, and
    it is shown to accept every backend that keeps the contract. *)

From S2P Require Import Prelude.
From S2P Require Import Program.
From S2P Require Import ObjectStore.
From S2P Require Import MemoryStore.

Module Tests.

Section Assertions.
Context {E : Type}.

(** [assert!]. *)
Definition assert (condition : bool) : io E unit := if condition then Ret tt else Panic.

(** [Result::expect]. *)
Definition expect {A F} (r : result A F) : io E A := or_panic (ok r).

Definition one : bytes := bytes_of_string "one".
Definition two : bytes := bytes_of_string "two".
Definition duplicate : bytes := bytes_of_string "duplicate".
Definition stale : bytes := bytes_of_string "stale".

(** The patterns the test matches its errors against. *)
Definition already_exists (r : result Version (CreateError E)) : bool :=
  match r with Err (CreateAlreadyExists _) => true | _ => false end.

Definition conflict_with (second : Version) (r : result Version (ReplaceError E)) : bool :=
  match r with
  | Err (ReplaceConflict (Some observed)) => bool_decide (observed = second)
  | _ => false
  end.

Definition assert_backend_contract (location : Location) : io E unit :=
  let! initial := get location in
  let! object := expect initial in
  let! _ := assert (bool_decide (object = None)) in
  let! created := create location one in
  let! first := expect created in
  let! created := create location duplicate in
  let! _ := assert (already_exists created) in
  let! replaced := replace location first two in
  let! second := expect replaced in
  let! replaced := replace location first stale in
  let! _ := assert (conflict_with second replaced) in
  let! final := get location in
  let! object := expect final in
  let! object := or_panic object in
  assert (bool_decide (object_bytes object = two)).
End Assertions.
End Tests.

(** ** What the test accepts *)

Section Accepts.
Context {E : Type}.
Implicit Types (l : Location) (v : Version).

(** The calls of a run that passes, with their replies. *)
Definition passing_run l first second existing v : list {c : call & reply E c} :=
  [existT (Get l) (Ok None); existT (Create l Tests.one) (Ok first);
   existT (Create l Tests.duplicate) (Err (CreateAlreadyExists existing));
   existT (Replace l first Tests.two) (Ok second);
   existT (Replace l first Tests.stale) (Err (ReplaceConflict (Some second)));
   existT (Get l) (Ok (Some (MkObject Tests.two v)))].

Lemma plays_assert (b : bool) cs (x : unit) :
  plays (Tests.assert (E := E) b) cs x ↔ cs = [] ∧ b = true.
Proof. destruct b, x; simpl; naive_solver. Qed.

Lemma plays_call c cs (r : reply E c) :
  plays (Call (R := reply E) c Ret) cs r ↔ cs = [existT c r].
Proof. simpl. split; [by intros (r' & cs' & -> & -> & ->)|]. intros ->. by exists r, []. Qed.

Lemma already_exists_true r : Tests.already_exists (E := E) r = true ↔
  ∃ v, r = Err (CreateAlreadyExists v).
Proof. destruct r as [|[]]; simpl; naive_solver. Qed.

Lemma conflict_with_true v r : Tests.conflict_with (E := E) v r = true ↔
  r = Err (ReplaceConflict (Some v)).
Proof.
  destruct r as [|[[v'|]|]]; simpl; rewrite ?bool_decide_eq_true; naive_solver.
Qed.

Lemma contract_test_accepts l cs x :
  plays (Tests.assert_backend_contract (E := E) l) cs x ↔
  ∃ first second existing v, cs = passing_run l first second existing v.
Proof.
  unfold Tests.assert_backend_contract, Tests.expect. split.
  - intros H. repeat (apply plays_bind in H as (? & ? & ? & -> & ? & H)).
    repeat match goal with
      | H : plays (get _) _ _ |- _ => apply (plays_call (Get _)) in H
      | H : plays (create _ _) _ _ |- _ => apply (plays_call (Create _ _)) in H
      | H : plays (replace _ _ _) _ _ |- _ => apply (plays_call (Replace _ _ _)) in H
      | H : plays (or_panic _) _ _ |- _ => apply plays_or_panic in H as [-> H]
      | H : plays (Tests.assert _) _ _ |- _ => apply plays_assert in H as [-> H]
      end.
    repeat match goal with
      | H : ok ?r = Some _ |- _ => destruct r; [injection H as ->|discriminate H]
      | H : bool_decide _ = true |- _ => apply bool_decide_eq_true in H
      | H : Tests.already_exists _ = true |- _ => apply already_exists_true in H as [? ->]
      | H : Tests.conflict_with _ _ = true |- _ => apply conflict_with_true in H as ->
      end.
    subst. match goal with
      | H : object_bytes ?o = _ |- _ => destruct o as [b v]; simpl in H; subst b
      end. by eexists _, _, _, v.
  - intros (first & second & existing & v & ->). destruct x.
    cbn [get create replace prog_bind plays passing_run].
    repeat (do 2 eexists; split; [reflexivity|]; cbn;
            rewrite ?bool_decide_eq_true_2 by done; cbn). done.
Qed.

(** ** Backends that pass *)

(** The reply is a failure of the backend. *)
Definition failed (c : call) : reply E c → Prop :=
  match c with
  | Get _ => λ r, ∃ e, r = Err e
  | Create _ _ => λ r, ∃ e, r = Err (CreateStore e)
  | Replace _ _ _ => λ r, ∃ e, r = Err (ReplaceStore e)
  | _ => λ _, False
  end.

(** A step of a backend that keeps the contract, reports no spurious conflict, and does
    not fail. *)
Definition healthy_step (w : aworld) (c : call) (r : reply E c) (w' : aworld) : Prop :=
  world_step false w c r w' ∧ ¬ failed c r.

(** C39: the contract test is right.  It passes exactly when it reads nothing, creates,
    is told that the object exists, replaces, is told of the conflict with the version just
    written, and reads what it replaced the object by; and on a location where nothing is
    stored it never panics when the backend keeps the contract, conflicts are not
    spurious, and no call fails: it then leaves its second object there, under the version
    the replacement issued, which is not the first. *)
Theorem contract_test_sound l (w : aworld) :
  (∀ cs x, plays (Tests.assert_backend_contract (E := E) l) cs x ↔
     ∃ first second existing v, cs = passing_run l first second existing v) ∧
  (cur (aw_store w) !! l = None →
   wp healthy_step (Tests.assert_backend_contract l) (λ x w',
     x = Some tt ∧ ∃ first second, first ≠ second ∧
       hist (aw_store w') !! (l, first) = Some Tests.one ∧
       cur (aw_store w') !! l = Some (MkObject Tests.two second)) w).
Proof.
  split; [intros; apply contract_test_accepts|]. intros Hnone.
  unfold Tests.assert_backend_contract, Tests.expect. cbn [get create replace prog_bind wp].
  intros r1 w1 [(a1 & [-> Hr] & ->) Hf1]. destruct Hr as [->|Hr]; [|by destruct Hf1].
  simpl. rewrite Hnone. simpl.
  intros r2 w2 [(a2 & Hs & ->) Hf2]. destruct r2 as [first|[v|e]];
    [|by destruct Hs as [_ (o & ? & _)]; simplify_eq/=|by destruct Hf2; eexists].
  destruct Hs as (_ & _ & ->). simpl.
  intros r3 w3 [(a3 & Hs & ->) Hf3]. simpl in Hs. rewrite lookup_insert_eq in Hs.
  destruct r3 as [v|[existing|e]];
    [by destruct Hs|destruct Hs as [-> _]|by destruct Hf3; eexists]. simpl.
  intros r4 w4 [(a4 & Hs & ->) Hf4]. simpl in Hs. rewrite lookup_insert_eq in Hs.
  destruct r4 as [second|[observed|e]];
    [|by destruct Hs as [_ Hs]; destruct (Hs eq_refl)|by destruct Hf4; eexists].
  destruct Hs as (_ & Hi & ->). simpl.
  assert (second ≠ first) as Hne.
  { intros ->. specialize (Hi Tests.one (lookup_insert_eq _ _ _)). discriminate Hi. }
  intros r5 w5 [(a5 & Hs & ->) Hf5]. simpl in Hs. rewrite lookup_insert_eq in Hs.
  destruct r5 as [v|[observed|e]];
    [by destruct Hs; simplify_eq/=|destruct Hs as [-> Hs]; destruct (Hs eq_refl) as [-> _]|
     by destruct Hf5; eexists].
  simpl. rewrite bool_decide_eq_true_2 by done. simpl.
  intros r6 w6 [(a6 & [-> Hr] & ->) Hf6]. destruct Hr as [->|Hr]; [|by destruct Hf6].
  simpl. rewrite lookup_insert_eq. simpl. split; [done|].
  exists first, second. split; [done|]. rewrite lookup_insert_eq. split; [|done].
  rewrite lookup_insert_ne by congruence. by rewrite lookup_insert_eq.
Qed.
End Accepts.
