(* ===== verification/Json.v ===== *)
(** * The interface to serde_json

    Documents are encoded and decoded by serde_json, which the source only calls:
    [serde_json::to_vec], [serde_json::from_slice] and its error type are
    parameters.  [to_vec] is what [#[derive(Serialize)]] provides for a type,
    [from_slice] what [#[derive(Deserialize)]] provides.  The round trip that the
    code relies on, a document it wrote decodes to the same document, is the law
    [json_round_trip]. *)

From S2P Require Import Prelude.

(** [J] is [serde_json::Error]. *)
Class ToJson (J D : Type) := to_vec : D → result bytes J.
Class FromJson (J D : Type) := from_slice : bytes → result D J.

(** Bytes written for [d : D] decode as [f d : D']; [D'] is [D] and [f] the
    identity except where the source encodes a borrowed form of a document. *)
Class JsonRoundTrip {J D D'} `{!ToJson J D, !FromJson J D'} (f : D → D') : Prop :=
  json_round_trip : ∀ d b, to_vec d = Ok b → from_slice b = Ok (f d).

(** Every value of the type can be encoded. *)
Class JsonTotal {J} D `{!ToJson J D} : Prop :=
  json_total : ∀ d : D, is_Some (ok (to_vec d)).

(** A concrete codec, for evaluating the model on examples: any countable type
    written as the bits of its code.  No theorem is stated about it. *)
Module ExampleCodec.

Fixpoint bits (p : positive) : bytes :=
  match p with
  | xH => []
  | xO p => Byte.x00 :: bits p
  | xI p => Byte.x01 :: bits p
  end.

Fixpoint unbits (b : bytes) : option positive :=
  match b with
  | [] => Some xH
  | c :: b =>
      p ← unbits b;
      if decide (c = Byte.x00) then Some (xO p)
      else if decide (c = Byte.x01) then Some (xI p) else None
  end.

Lemma unbits_bits p : unbits (bits p) = Some p.
Proof. induction p as [p IH|p IH|]; simpl; by rewrite ?IH. Qed.

Definition to_vec {D} `{Countable D} : ToJson unit D := λ d, Ok (bits (encode d)).

Definition from_slice {D} `{Countable D} : FromJson unit D := λ b,
  ok_or (p ← unbits b; decode p) tt.

Lemma round_trip {D} `{Countable D} :
  @JsonRoundTrip unit D D to_vec from_slice id.
Proof.
  intros d b Hb. unfold Json.to_vec, to_vec in Hb. simplify_eq.
  unfold Json.from_slice, from_slice. rewrite unbits_bits. simpl.
  by rewrite decode_encode.
Qed.

End ExampleCodec.
