(* ===== verification/CoreTypes.v ===== *)
(** * Errors, client configuration and document metadata (crate objsds)

    The public errors of the core crate with their display text (error.rs), the
    configuration errors and the location of a structure (client.rs), and the
    metadata check every opened document passes (document.rs). *)

From S2P Require Import Prelude.
From S2P Require Import ObjectStore.

(** [std::fmt::Display]. *)
Class Display (A : Type) := to_string : A → string.

#[export] Instance Version_display : Display Version := version_as_str.
#[export] Instance N_display : Display N := pretty.
#[export] Instance string_display : Display string := id.
#[export] Instance Empty_set_display : Display Empty_set := λ e, match e with end.

(** [serde_json::Error] for the example codec. *)
#[export] Instance unit_display : Display unit := λ _, "invalid JSON".

Module Core.

(** ** client.rs *)

Inductive BuildError :=
  | MissingStore
  | MissingNamespace
  | InvalidNamespace
  | MissingSchema
  | InvalidName.

#[global] Instance BuildError_eq_dec : EqDecision BuildError.
Proof. solve_decision. Defined.

#[global] Instance BuildError_display : Display BuildError := λ e,
  match e with
  | MissingStore => "missing object store"
  | MissingNamespace => "missing namespace"
  | InvalidNamespace => "namespace must be one non-empty path segment"
  | MissingSchema => "missing schema identifier"
  | InvalidName => "structure name must be one non-empty path segment"
  end.

Definition location (namespace kind name : string) : result Location BuildError :=
  if negb (is_path_segment name) then Err InvalidName
  else map_err (λ _, InvalidName) (location_structure namespace kind name).

(** ** error.rs *)

Inductive CompatibilityError :=
  | FormatVersion (expected observed : N)
  | Kind (expected observed : string)
  | Schema (expected observed : string).

#[global] Instance CompatibilityError_eq_dec : EqDecision CompatibilityError.
Proof. solve_decision. Defined.

Record AlreadyExistsError := MkAlreadyExistsError { already_observed : Version }.

#[global] Instance AlreadyExistsError_eq_dec : EqDecision AlreadyExistsError.
Proof. solve_decision. Defined.

Record ConflictError := MkConflictError {
  conflict_expected : Version;
  conflict_observed : option Version;
}.

#[global] Instance ConflictError_eq_dec : EqDecision ConflictError.
Proof. solve_decision. Defined.

Record StoreError (E : Type) := MkStoreError { source : E }.
Arguments MkStoreError {E} source.
Arguments source {E} s.

(** [J] is [serde_json::Error]. *)
Inductive DocumentError (J : Type) :=
  | Serialize (e : J)
  | Deserialize (e : J)
  | Corrupt (reason : string).
Arguments Serialize {J} e.
Arguments Deserialize {J} e.
Arguments Corrupt {J} reason.

Inductive Error (E J : Type) :=
  | Configuration (e : BuildError)
  | Store (e : StoreError E)
  | Document (e : DocumentError J)
  | NotFound
  | AlreadyExists (e : AlreadyExistsError)
  | Conflict (e : ConflictError)
  | Incompatible (e : CompatibilityError).
Arguments Configuration {E J} e.
Arguments Store {E J} e.
Arguments Document {E J} e.
Arguments NotFound {E J}.
Arguments AlreadyExists {E J} e.
Arguments Conflict {E J} e.
Arguments Incompatible {E J} e.

#[global] Instance StoreError_display {E} `{!Display E} : Display (StoreError E) :=
  λ e, to_string (source e).

#[global] Instance AlreadyExistsError_display : Display AlreadyExistsError := λ e,
  "object already exists at version " +:+ version_as_str (already_observed e).

#[global] Instance ConflictError_display : Display ConflictError := λ e,
  match conflict_observed e with
  | Some observed =>
      "expected object version " +:+ version_as_str (conflict_expected e) +:+
      ", observed " +:+ version_as_str observed
  | None =>
      "expected object version " +:+ version_as_str (conflict_expected e) +:+
      ", but the object was deleted"
  end.

#[global] Instance DocumentError_display {J} `{!Display J} :
    Display (DocumentError J) := λ e,
  match e with
  | Serialize error => "could not encode JSON document: " +:+ to_string error
  | Deserialize error => "persisted JSON document is malformed: " +:+ to_string error
  | Corrupt reason => "persisted document is corrupt: " +:+ reason
  end.

#[global] Instance CompatibilityError_display : Display CompatibilityError := λ e,
  "incompatible data structure: " +:+
  match e with
  | FormatVersion expected observed =>
      "expected format version " +:+ to_string expected +:+ ", observed " +:+
      to_string observed
  | Kind expected observed =>
      "expected kind " +:+ expected +:+ ", observed " +:+ observed
  | Schema expected observed =>
      "expected schema " +:+ expected +:+ ", observed " +:+ observed
  end.

#[global] Instance Error_display {E J} `{!Display E, !Display J} :
    Display (Error E J) := λ e,
  match e with
  | Configuration error => "invalid configuration: " +:+ to_string error
  | Store error => "object store error: " +:+ to_string (source error)
  | Document error => to_string error
  | NotFound => "data structure does not exist"
  | AlreadyExists _ => "data structure already exists"
  | Conflict _ => "object version conflict"
  | Incompatible error => to_string error
  end.

(** [std::error::Error::source]: the error an error wraps, by its type. *)
Inductive SourceRef (E J : Type) :=
  | SourceBuild (e : BuildError)
  | SourceStore (e : E)
  | SourceDocument (e : DocumentError J)
  | SourceJson (e : J).
Arguments SourceBuild {E J} e.
Arguments SourceStore {E J} e.
Arguments SourceDocument {E J} e.
Arguments SourceJson {E J} e.

Definition Error_source {E J} (e : Error E J) : option (SourceRef E J) :=
  match e with
  | Configuration error => Some (SourceBuild error)
  | Store error => Some (SourceStore (source error))
  | Document error => Some (SourceDocument error)
  | _ => None
  end.

Definition StoreError_source {E J} (e : StoreError E) : option (SourceRef E J) :=
  Some (SourceStore (source e)).

Definition DocumentError_source {E J} (e : DocumentError J) : option (SourceRef E J) :=
  match e with
  | Serialize error | Deserialize error => Some (SourceJson error)
  | Corrupt _ => None
  end.

(** ** document.rs *)

Definition FORMAT_VERSION : N := 1.

Definition validate {E J} (format_version : N)
    (observed_kind observed_schema expected_kind expected_schema : string) :
    result unit (Error E J) :=
  if negb (format_version =? FORMAT_VERSION)%N then
    Err (Incompatible (FormatVersion FORMAT_VERSION format_version))
  else if negb (String.eqb observed_kind expected_kind) then
    Err (Incompatible (Kind expected_kind observed_kind))
  else if negb (String.eqb observed_schema expected_schema) then
    Err (Incompatible (Schema expected_schema observed_schema))
  else Ok tt.

(** ** Facts *)

Lemma location_Ok namespace kind name l :
  location namespace kind name = Ok l ↔ location_structure namespace kind name = Ok l.
Proof.
  unfold location. destruct (is_path_segment name) eqn:Hname; simpl.
  - apply map_err_Ok.
  - split; [done|]. intros (_ & _ & ? & _)%location_structure_Ok. congruence.
Qed.

Lemma validate_refl {E J} kind schema :
  validate (E := E) (J := J) FORMAT_VERSION kind schema kind schema = Ok tt.
Proof. unfold validate. by rewrite !String.eqb_refl. Qed.

(** Metadata is accepted exactly when the format version is the supported
    one and kind and schema are those requested; otherwise the first mismatch,
    in that order, is reported with the expected and the observed value. *)
Lemma validate_spec {E J} version kind schema kind' schema' :
  validate (E := E) (J := J) version kind schema kind' schema' =
  if decide (version ≠ FORMAT_VERSION) then
    Err (Incompatible (FormatVersion FORMAT_VERSION version))
  else if decide (kind ≠ kind') then Err (Incompatible (Kind kind' kind))
  else if decide (schema ≠ schema') then Err (Incompatible (Schema schema' schema))
  else Ok tt.
Proof.
  unfold validate.
  destruct (N.eqb_spec version FORMAT_VERSION), (String.eqb_spec kind kind'),
    (String.eqb_spec schema schema'); simpl; repeat case_decide; naive_solver.
Qed.

Lemma validate_Ok {E J} version kind schema kind' schema' u :
  validate (E := E) (J := J) version kind schema kind' schema' = Ok u ↔
  version = FORMAT_VERSION ∧ kind = kind' ∧ schema = schema'.
Proof.
  unfold validate.
  destruct (N.eqb_spec version FORMAT_VERSION), (String.eqb_spec kind kind'),
    (String.eqb_spec schema schema'), u; simpl; naive_solver.
Qed.

End Core.
