(* ===== verification/Lifecycle.v ===== *)
(** * Creating, opening and replacing structures (lifecycle.rs)

    The three lifecycle protocols shared by Map and Log, and the conditional
    writes with the backend's errors translated to those of the core crate. *)

From S2P Require Import Prelude.
From S2P Require Import Program.
From S2P Require Import ObjectStore.
From S2P Require Import CoreTypes.
Import Core.

Module Lifecycle.
Section Operations.
Context {E J : Type}.
Implicit Types (location : Location).

Definition create location (b : bytes) : io E (result Version (Error E J)) :=
  prog_map_err (λ error,
    match error with
    | CreateAlreadyExists observed => AlreadyExists (MkAlreadyExistsError observed)
    | CreateStore source => Store (MkStoreError source)
    end) (ObjectStore.create location b).

(** [empty_bytes] is the caller's closure: pure, run only when reached. *)
Definition create_structure location (empty_bytes : result bytes (Error E J)) :
    io E (result unit (Error E J)) :=
  let? b := Ret empty_bytes in
  let? _ := create location b in
  Ret (Ok tt).

Definition open_structure {T} (read : io E (result T (Error E J))) :
    io E (result unit (Error E J)) :=
  let? _ := read in
  Ret (Ok tt).

Definition open_or_create_structure {T} location
    (empty_bytes : result bytes (Error E J)) (read : io E (result T (Error E J))) :
    io E (result unit (Error E J)) :=
  let? object := prog_map_err (λ e, Store (MkStoreError e)) (get location) in
  match object with
  | Some _ => open_structure read
  | None =>
      let? b := Ret empty_bytes in
      let! r := create location b in
      match r with
      | Ok _ => Ret (Ok tt)
      | Err (AlreadyExists _) => open_structure read
      | Err error => Ret (Err error)
      end
  end.

Definition replace location (expected : Version) (b : bytes) :
    io E (result Version (Error E J)) :=
  prog_map_err (λ error,
    match error with
    | ReplaceConflict observed => Conflict (MkConflictError expected observed)
    | ReplaceStore source => Store (MkStoreError source)
    end) (ObjectStore.replace location expected b).
End Operations.
End Lifecycle.

(** ** Executions of the lifecycle operations *)

Section LifecycleFacts.
Context {E J : Type} (spurious : bool).
Implicit Types (w : aworld) (l : Location).

Lemma exec_prog_map_err {W : Type} (step : W → ∀ c, reply E c → W → Prop)
    {A F G} (f : F → G) (p : io E (result A F)) x r x' :
  exec step x (prog_map_err f p) r x' ↔
  ∃ r0, exec step x p r0 x' ∧ r = map_err f r0.
Proof. unfold prog_map_err. rewrite exec_bind. simpl. naive_solver. Qed.

Lemma exec_prog_map_ok {W : Type} (step : W → ∀ c, reply E c → W → Prop)
    {A B F} (f : A → B) (p : io E (result A F)) x r x' :
  exec step x (prog_map_ok f p) r x' ↔
  ∃ r0, exec step x p r0 x' ∧ r = map_ok f r0.
Proof. unfold prog_map_ok. rewrite exec_bind. simpl. naive_solver. Qed.

(** What a replacement returns and does, with the core crate's errors. *)
Definition replace_outcome w l expected b (r : result Version (Error E J)) w' : Prop :=
  match r with
  | Ok v =>
      (object_version <$> cur (aw_store w) !! l) = Some expected ∧ wrote w l b v w'
  | Err (Store _) =>
      w' = w ∨
      (object_version <$> cur (aw_store w) !! l) = Some expected ∧
      ∃ v, wrote w l b v w'
  | Err (Conflict c) =>
      w' = w ∧ conflict_expected c = expected ∧
      (spurious = false →
         conflict_observed c = object_version <$> cur (aw_store w) !! l ∧
         conflict_observed c ≠ Some expected)
  | Err _ => False
  end.

Lemma exec_lifecycle_replace w l expected b r w' :
  exec (world_step spurious) w (Lifecycle.replace (E := E) (J := J) l expected b) r w' →
  replace_outcome w l expected b r w'.
Proof.
  unfold Lifecycle.replace. rewrite exec_prog_map_err.
  intros (r0 & Hr%exec_replace & ->). destruct Hr as (a' & Hs & ->).
  destruct r0 as [v|[obs|e]]; simpl in Hs |- *.
  - by destruct Hs as (? & ? & ->).
  - destruct Hs as [-> Hs]. rewrite set_store_id. eauto.
  - destruct Hs as [->|(? & v & ? & ->)].
    + left. apply set_store_id.
    + right. split; [done|]. by exists v.
Qed.

(** What a conditional create returns and does. *)
Definition create_outcome w l b (r : result Version (Error E J)) w' : Prop :=
  match r with
  | Ok v => cur (aw_store w) !! l = None ∧ wrote w l b v w'
  | Err (Store _) =>
      w' = w ∨ (cur (aw_store w) !! l = None ∧ ∃ v, wrote w l b v w')
  | Err (AlreadyExists e) =>
      w' = w ∧
      (spurious = false →
         ∃ o, cur (aw_store w) !! l = Some o ∧ already_observed e = object_version o)
  | Err _ => False
  end.

Lemma exec_lifecycle_create w l b r w' :
  exec (world_step spurious) w (Lifecycle.create (E := E) (J := J) l b) r w' →
  create_outcome w l b r w'.
Proof.
  unfold Lifecycle.create. rewrite exec_prog_map_err.
  intros (r0 & Hr%exec_create & ->). destruct Hr as (a' & Hs & ->).
  destruct r0 as [v|[obs|e]]; simpl in Hs |- *.
  - by destruct Hs as (? & ? & ->).
  - destruct Hs as [-> Hs]. rewrite set_store_id. eauto.
  - destruct Hs as [->|(? & v & ? & ->)].
    + left. apply set_store_id.
    + right. split; [done|]. by exists v.
Qed.

(** The outcome of writing back a document that was read at the object [o]: [P]
    is what is known of the encoded bytes. *)
Definition write_outcome w l (P : bytes → Prop) (r : result Version (Error E J)) w' :
    Prop :=
  match r with
  | Ok v => ∃ b, P b ∧ wrote w l b v w'
  | Err (Store _) => w' = w ∨ ∃ b v, P b ∧ wrote w l b v w'
  | Err (Conflict _) => spurious = true ∧ w' = w
  | Err (Document (Serialize _)) => w' = w
  | Err _ => False
  end.

Lemma write_outcome_uuids w l P r w' :
  write_outcome w l P r w' → aw_uuids w' = aw_uuids w.
Proof.
  unfold write_outcome. destruct r as [v|[e|e|[]| |e|e|e]]; try done.
  - by intros (b & _ & _ & ->).
  - by intros [->|(b & v & _ & _ & ->)].
  - by intros ->.
  - by intros [_ ->].
Qed.

Lemma exec_encode_replace w o l (enc : result bytes J) (P : bytes → Prop) r w' :
  cur (aw_store w) !! l = Some o → (∀ b, enc = Ok b → P b) →
  exec (world_step spurious) w
    (let? b := Ret (map_err Document (map_err Serialize enc)) in
     Lifecycle.replace l (object_version o) b) r w' →
  write_outcome w l P r w'.
Proof.
  intros Ho HP. destruct enc as [b|e]; cbn [map_err].
  - rewrite try_bind_Ok. intros Hr%exec_lifecycle_replace.
    specialize (HP b eq_refl). unfold replace_outcome in Hr. rewrite Ho in Hr.
    unfold write_outcome. destruct r as [v|[]]; try done.
    + destruct Hr as [_ Hr]. eauto.
    + destruct Hr as [->|(_ & v & Hr)]; eauto.
    + destruct Hr as (-> & _ & Hr). split; [|done].
      destruct spurious; [done|]. destruct Hr as [Hr1 Hr2]; [done|].
      simpl in Hr1. congruence.
  - rewrite try_bind_Err. by intros [-> ->].
Qed.

Lemma wrote_cur w l b v w' :
  wrote w l b v w' → cur (aw_store w') = <[l := MkObject b v]> (cur (aw_store w)).
Proof. by intros [_ ->]. Qed.
End LifecycleFacts.

Section OpenOrCreate.
Context {E J : Type} (spurious : bool).
Implicit Types (w : aworld) (l : Location).

(** A program that leaves the world as it found it. *)
Definition read_only {A} (p : io E A) : Prop :=
  ∀ w r w', exec (world_step spurious) w p r w' → w' = w.

(** The outcome of creating a structure. *)
Definition created w l (empty : result bytes (Error E J)) (r : result unit (Error E J)) w' :
    Prop :=
  match r with
  | Ok _ => cur (aw_store w) !! l = None ∧ ∃ b v, empty = Ok b ∧ wrote w l b v w'
  | Err (Store _) =>
      w' = w ∨ cur (aw_store w) !! l = None ∧ ∃ b v, empty = Ok b ∧ wrote w l b v w'
  | Err (AlreadyExists _) =>
      w' = w ∧ (spurious = false → is_Some (cur (aw_store w) !! l))
  | Err e => w' = w ∧ empty = Err e
  end.

Lemma exec_create_structure w l empty r w' :
  (∀ e, empty = Err e → ∃ j, e = Document j) →
  exec (world_step spurious) w (Lifecycle.create_structure (E := E) (J := J) l empty) r w' →
  created w l empty r w'.
Proof.
  intros Hempty. unfold Lifecycle.create_structure. destruct empty as [b|e].
  - rewrite try_bind_Ok, exec_try_bind.
    intros [(v & w1 & Hc%exec_lifecycle_create & [-> ->])|(e & Hc%exec_lifecycle_create & ->)].
    + destruct Hc as [? ?]. simpl. eauto 10.
    + unfold create_outcome in Hc. destruct e; try done; simpl.
      * destruct Hc as [?|(? & v & ?)]; eauto 10.
      * destruct Hc as [-> Hc]. split; [done|]. intros [o [? _]]%Hc. by eexists.
  - rewrite try_bind_Err. intros [-> ->].
    destruct (Hempty e eq_refl) as [j ->]. done.
Qed.

Lemma exec_open_structure {T} w (read : io E (result T (Error E J))) r w' :
  exec (world_step spurious) w (Lifecycle.open_structure read) r w' ↔
  match r with
  | Ok _ => ∃ x, exec (world_step spurious) w read (Ok x) w'
  | Err e => exec (world_step spurious) w read (Err e) w'
  end.
Proof.
  unfold Lifecycle.open_structure. rewrite exec_try_bind. simpl. split.
  - intros [(x & w1 & Hx & -> & ->)|(e & Hx & ->)]; eauto.
  - destruct r as [[]|e]; naive_solver.
Qed.

(** [open_or_create] never changes an existing object: it opens it, or creates
    one where there is none. *)
Lemma exec_open_or_create {T} w l empty (read : io E (result T (Error E J))) r w' :
  read_only read →
  exec (world_step spurious) w (Lifecycle.open_or_create_structure l empty read) r w' →
  match r with
  | Ok _ =>
      (w' = w ∧ ∃ x, exec (world_step spurious) w read (Ok x) w) ∨
      (cur (aw_store w) !! l = None ∧ ∃ b v, empty = Ok b ∧ wrote w l b v w')
  | Err e =>
      w' = w ∨
      (cur (aw_store w) !! l = None ∧
       ∃ b v s, empty = Ok b ∧ wrote w l b v w' ∧ e = Store s)
  end.
Proof.
  intros Hread. unfold Lifecycle.open_or_create_structure. rewrite exec_try_bind.
  setoid_rewrite exec_prog_map_err. setoid_rewrite exec_get.
  intros [(o & w1 & (r0 & [-> Hr0] & Hr) & Hx)|(e & (r0 & [-> _] & _) & ->)]; [|by left].
  assert (∀ r w', exec (world_step spurious) w (Lifecycle.open_structure read) r w' →
            match r with
            | Ok _ => w' = w ∧ ∃ x, exec (world_step spurious) w read (Ok x) w
            | Err _ => w' = w
            end) as Hopen.
  { intros r1 w1 Hx1%exec_open_structure. destruct r1 as [u|e1].
    - destruct Hx1 as [x Hx1]. assert (w1 = w) as -> by eauto. eauto.
    - eauto. }
  destruct o as [o|].
  { apply Hopen in Hx. destruct r as [u|e]; auto. }
  destruct Hr0 as [->|[e ->]]; [|done]. simpl in Hr. simplify_eq.
  destruct empty as [b|e]; [rewrite try_bind_Ok in Hx|].
  - apply exec_bind in Hx as (r1 & w1 & Hc%exec_lifecycle_create & Hx).
    unfold create_outcome in Hc. destruct r1 as [v|[]]; simpl in Hx; try done.
    + destruct Hx as [-> ->], Hc as [? ?]. eauto 10.
    + destruct Hx as [-> ->]. destruct Hc as [->|(? & v & ?)]; eauto 10.
    + destruct Hc as [-> _]. apply Hopen in Hx. destruct r as [u|e']; auto.
  - rewrite try_bind_Err in Hx. destruct Hx as [-> ->]. by left.
Qed.
End OpenOrCreate.
