(* ===== verification/StructMap.v ===== *)
(** * Map (objsds/src/map)

    A map from strings to values held in one object.  [OwnedMapDocument] is the
    stored document, [Map.Map] the handle; each operation reads the whole document,
    and a mutation writes it back with one conditional replacement. *)

From S2P Require Import Prelude.
From S2P Require Import Program.
From S2P Require Import ObjectStore.
From S2P Require Import Json.
From S2P Require Import CoreTypes.
From S2P Require Import Lifecycle.
Import Core.

(** [BTreeMap<String, V>] is a finite map; its iteration order is the byte order
    of the keys. *)
Definition btree_into_iter {V} (m : gmap string V) : list (string * V) :=
  merge_sort (λ x y, String.le x.1 y.1) (map_to_list m).

Module Map.

Record Map (S : Type) := MkMap { store : S; location : Location; schema : string }.
Arguments MkMap {S} store location schema.
Arguments store {S} m.
Arguments location {S} m.
Arguments schema {S} m.

(** Result of [insert_if_absent]. *)
Inductive InsertIfAbsent (V : Type) :=
  | Inserted (version : Version)
  | Occupied (value : V).
Arguments Inserted {V} version.
Arguments Occupied {V} value.

(** The document as an empty map writes it, and as it is read and rewritten. *)
Record MapDocument (V : Type) := MkMapDocument {
  md_format_version : N;
  md_kind : string;
  md_schema : string;
  md_entries : gmap string V;
}.
Arguments MkMapDocument {V}.

Record OwnedMapDocument (V : Type) := MkOwnedMapDocument {
  format_version : N;
  kind : string;
  doc_schema : string;
  entries_ : gmap string V;
}.
Arguments MkOwnedMapDocument {V}.
Arguments format_version {V} o.
Arguments kind {V} o.
Arguments doc_schema {V} o.
Arguments entries_ {V} o.

(** Both documents have the same fields. *)
Definition to_owned {V} (d : MapDocument V) : OwnedMapDocument V :=
  MkOwnedMapDocument (md_format_version V d) (md_kind V d) (md_schema V d)
    (md_entries V d).

Definition set_entries {V} (d : OwnedMapDocument V) (es : gmap string V) :
    OwnedMapDocument V :=
  MkOwnedMapDocument (format_version d) (kind d) (doc_schema d) es.

Section Operations.
Context {S E J V : Type}.
Context `{!ToJson J (MapDocument V), !ToJson J (OwnedMapDocument V),
          !FromJson J (OwnedMapDocument V)}.
Implicit Types (m : Map S) (key : string) (value : V).

Definition empty_bytes m : result bytes (Error E J) :=
  map_err Document (map_err Serialize
    (to_vec (MkMapDocument FORMAT_VERSION "map" (schema m) (∅ : gmap string V)))).

Definition read m : io E (result (Version * OwnedMapDocument V) (Error E J)) :=
  let? object := prog_map_err (λ e, Store (MkStoreError e)) (get (location m)) in
  let? object := Ret (ok_or object NotFound) in
  let? document := Ret (map_err Document (map_err Deserialize
                          (from_slice (object_bytes object)))) in
  let? _ := Ret (validate (format_version document) (kind document)
                   (doc_schema document) "map" (schema m)) in
  Ret (Ok (object_version object, document)).

Definition write m (version : Version) (document : OwnedMapDocument V) :
    io E (result Version (Error E J)) :=
  let? b := Ret (map_err Document (map_err Serialize (to_vec document))) in
  Lifecycle.replace (location m) version b.

Definition get m key : io E (result (option V) (Error E J)) :=
  let? ' (_, document) := read m in
  Ret (Ok (entries_ document !! key)).

Definition entries m : io E (result (list (string * V)) (Error E J)) :=
  let? ' (_, document) := read m in
  Ret (Ok (btree_into_iter (entries_ document))).

Definition insert m key value : io E (result Version (Error E J)) :=
  let? ' (version, document) := read m in
  let document := set_entries document (<[key := value]> (entries_ document)) in
  write m version document.

Definition insert_if_absent m key value :
    io E (result (InsertIfAbsent V) (Error E J)) :=
  let? ' (version, document) := read m in
  match entries_ document !! key with
  | Some value => Ret (Ok (Occupied value))
  | None =>
      let document := set_entries document (<[key := value]> (entries_ document)) in
      prog_map_ok Inserted (write m version document)
  end.

Definition remove m key : io E (result (option V) (Error E J)) :=
  let? ' (version, document) := read m in
  let removed := entries_ document !! key in
  let document := set_entries document (delete key (entries_ document)) in
  match removed with
  | Some _ =>
      let? _ := write m version document in
      Ret (Ok removed)
  | None => Ret (Ok removed)
  end.
End Operations.

(** ** Builder (builder.rs) *)

Record MapBuilder (S : Type) := MkMapBuilder {
  builder_store : S;
  builder_location : result Location BuildError;
  builder_schema : option string;
}.
Arguments MkMapBuilder {S} builder_store builder_location builder_schema.
Arguments builder_store {S} m.
Arguments builder_location {S} m.
Arguments builder_schema {S} m.

Definition config_error {E J} (error : BuildError) : Error E J := Configuration error.

Section Builder.
Context {S E J V : Type}.
Context `{!ToJson J (MapDocument V), !ToJson J (OwnedMapDocument V),
          !FromJson J (OwnedMapDocument V)}.
Implicit Types (builder : MapBuilder S).

Definition builder_new (store : S) (namespace name : string) : MapBuilder S :=
  MkMapBuilder store (Core.location namespace "maps" name) None.

Definition with_schema builder (schema : string) : MapBuilder S :=
  MkMapBuilder (builder_store builder) (builder_location builder) (Some schema).

Definition finish builder : result (Map S) BuildError :=
  let* schema := ok_or (builder_schema builder) MissingSchema in
  if String.eqb schema "" then Err MissingSchema
  else
    let* location := builder_location builder in
    Ok (MkMap (builder_store builder) location schema).

Definition create builder : io E (result (Map S) (Error E J)) :=
  let? map := Ret (map_err config_error (finish builder)) in
  let? _ := Lifecycle.create_structure (location map) (empty_bytes (V := V) map) in
  Ret (Ok map).

Definition open builder : io E (result (Map S) (Error E J)) :=
  let? map := Ret (map_err config_error (finish builder)) in
  let? _ := Lifecycle.open_structure (read (V := V) map) in
  Ret (Ok map).

Definition open_or_create builder : io E (result (Map S) (Error E J)) :=
  let? map := Ret (map_err config_error (finish builder)) in
  let? _ := Lifecycle.open_or_create_structure (location map)
              (empty_bytes (V := V) map) (read (V := V) map) in
  Ret (Ok map).
End Builder.
End Map.

(** ** Specification *)

(** The operations of a map as data, with their results, and what each does to a
    finite map: the new contents if it writes, and its output given the version
    the write was assigned. *)
Inductive map_op (V : Type) :=
  | OpGet (key : string)
  | OpEntries
  | OpInsert (key : string) (value : V)
  | OpInsertIfAbsent (key : string) (value : V)
  | OpRemove (key : string).
Arguments OpGet {V} key.
Arguments OpEntries {V}.
Arguments OpInsert {V} key value.
Arguments OpInsertIfAbsent {V} key value.
Arguments OpRemove {V} key.

Inductive map_output (V : Type) :=
  | OutValue (value : option V)
  | OutEntries (entries : list (string * V))
  | OutVersion (version : Version)
  | OutInsert (r : Map.InsertIfAbsent V).
Arguments OutValue {V} value.
Arguments OutEntries {V} entries.
Arguments OutVersion {V} version.
Arguments OutInsert {V} r.

Definition map_model {V} (o : map_op V) (es : gmap string V) :
    option (gmap string V) * (Version → map_output V) :=
  match o with
  | OpGet key => (None, λ _, OutValue (es !! key))
  | OpEntries => (None, λ _, OutEntries (btree_into_iter es))
  | OpInsert key value => (Some (<[key := value]> es), OutVersion)
  | OpInsertIfAbsent key value =>
      match es !! key with
      | Some old => (None, λ _, OutInsert (Map.Occupied old))
      | None => (Some (<[key := value]> es), λ v, OutInsert (Map.Inserted v))
      end
  | OpRemove key =>
      match es !! key with
      | Some old => (Some (delete key es), λ _, OutValue (Some old))
      | None => (None, λ _, OutValue None)
      end
  end.

Section MapSpec.
Context {S E J V : Type}.
Context `{!ToJson J (Map.MapDocument V), !ToJson J (Map.OwnedMapDocument V),
          !FromJson J (Map.OwnedMapDocument V)}.
Implicit Types (m : Map.Map S) (es : gmap string V) (w : aworld) (b : bytes).

Definition map_run m (o : map_op V) : io E (result (map_output V) (Error E J)) :=
  match o with
  | OpGet key => prog_map_ok OutValue (Map.get m key)
  | OpEntries => prog_map_ok OutEntries (Map.entries m)
  | OpInsert key value => prog_map_ok OutVersion (Map.insert m key value)
  | OpInsertIfAbsent key value =>
      prog_map_ok OutInsert (Map.insert_if_absent m key value)
  | OpRemove key => prog_map_ok OutValue (Map.remove m key)
  end.

(** The bytes are a valid document of map [m] with these entries. *)
Definition map_decodes m b es : Prop :=
  ∃ d : Map.OwnedMapDocument V, from_slice b = Ok d ∧
    Map.format_version d = FORMAT_VERSION ∧ Map.kind d = "map" ∧
    Map.doc_schema d = Map.schema m ∧ Map.entries_ d = es.

(** The store holds the map [m] with these entries. *)
Definition map_holds m (a : astore) es : Prop :=
  ∃ o, cur a !! Map.location m = Some o ∧ map_decodes m (object_bytes o) es.

(** The outcome of one operation executed without interference. *)
Definition map_outcome spurious m (o : map_op V) es w
    (r : result (map_output V) (Error E J)) w' : Prop :=
  let '(es', out) := map_model o es in
  match es', r with
  | None, Ok x => w' = w ∧ ∀ v, x = out v
  | Some es', Ok x =>
      ∃ b v, wrote w (Map.location m) b v w' ∧ map_decodes m b es' ∧ x = out v
  | None, Err (Store _) => w' = w
  | Some es', Err (Store _) =>
      w' = w ∨ ∃ b v, wrote w (Map.location m) b v w' ∧ map_decodes m b es'
  | Some _, Err (Conflict _) => spurious = true ∧ w' = w
  | Some _, Err (Document (Serialize _)) => w' = w
  | _, Err _ => False
  end.
End MapSpec.

Section MapFacts.
Context {S E J V : Type}.
Context `{!ToJson J (Map.MapDocument V), !ToJson J (Map.OwnedMapDocument V),
          !FromJson J (Map.OwnedMapDocument V)}.
Context (spurious : bool).
Implicit Types (m : Map.Map S) (es : gmap string V) (w : aworld) (b : bytes).

(** What [read] makes of the object it found. *)
Definition map_observed m (object : option Object) :
    result (Version * Map.OwnedMapDocument V) (Error E J) :=
  let* o := ok_or object NotFound in
  let* d := map_err Document (map_err Deserialize (from_slice (object_bytes o))) in
  let* _ := validate (Map.format_version d) (Map.kind d) (Map.doc_schema d)
              "map" (Map.schema m) in
  Ok (object_version o, d).

Lemma map_read_reads m :
  reads_object (λ e, Store (MkStoreError e)) (Map.location m) (map_observed m)
    (Map.read m).
Proof. solve_object_protocol map_observed. Qed.

Lemma exec_map_read m w (r : result _ (Error E J)) w' :
  exec (world_step spurious) w (Map.read m) r w' ↔
  w' = w ∧ (r = map_observed m (cur (aw_store w) !! Map.location m) ∨
            ∃ e, r = Err (Store (MkStoreError e))).
Proof. apply exec_reads_object, map_read_reads. Qed.

Lemma map_observed_holds m a es :
  map_holds m a es →
  ∃ o d, cur a !! Map.location m = Some o ∧ Map.entries_ d = es ∧
    map_observed m (cur a !! Map.location m) = Ok (object_version o, d) ∧
    Map.format_version d = FORMAT_VERSION ∧ Map.kind d = "map" ∧
    Map.doc_schema d = Map.schema m.
Proof.
  intros (o & Ho & d & Hd & Hv & Hk & Hs & He). exists o, d.
  rewrite Ho. unfold map_observed. simpl. rewrite Hd. simpl.
  rewrite Hv, Hk, Hs, validate_refl. done.
Qed.

(** An operation that reads and continues, executed where the map holds [es]. *)
Lemma exec_map_read_bind {A} m w es (f : _ → io E (result A (Error E J))) r w' :
  map_holds m (aw_store w) es →
  exec (world_step spurious) w (try_bind f (Map.read m)) r w' →
  (∃ e, r = Err (Store e) ∧ w' = w) ∨
  ∃ o d, cur (aw_store w) !! Map.location m = Some o ∧ Map.entries_ d = es ∧
    (∀ es', to_vec (J := J) (Map.set_entries d es') =
            to_vec (Map.MkOwnedMapDocument FORMAT_VERSION "map" (Map.schema m) es')) ∧
    exec (world_step spurious) w (f (object_version o, d)) r w'.
Proof.
  intros Hh Hx.
  destruct (map_observed_holds m _ es Hh) as (o & d & Ho & He & Hobs & Hv & Hk & Hs).
  apply (exec_reads_object_bind _ _ _ _ _ _ _ _ _ (map_read_reads m)) in Hx
    as [(e & -> & ->)|Hx]; [by eauto|].
  rewrite Hobs in Hx. right. exists o, d. split_and!; try done. intros es'.
  unfold Map.set_entries. by rewrite Hv, Hk, Hs.
Qed.

Context `{!JsonRoundTrip (D := Map.OwnedMapDocument V) id}.

Lemma map_decodes_written m es b :
  to_vec (Map.MkOwnedMapDocument FORMAT_VERSION "map" (Map.schema m) es) = Ok b →
  map_decodes (J := J) m b es.
Proof.
  intros Hb%(json_round_trip (f := id)). by eexists.
Qed.

(** What a mutation's write does. *)
Lemma exec_map_write m w o d es' (r : result Version (Error E J)) w' :
  cur (aw_store w) !! Map.location m = Some o →
  (∀ es', to_vec (J := J) (Map.set_entries d es') =
          to_vec (Map.MkOwnedMapDocument FORMAT_VERSION "map" (Map.schema m) es')) →
  exec (world_step spurious) w
    (Map.write m (object_version o) (Map.set_entries d es')) r w' →
  write_outcome spurious w (Map.location m) (λ b, map_decodes m b es') r w'.
Proof.
  intros Ho Hd. apply exec_encode_replace; [done|]. rewrite Hd.
  apply map_decodes_written.
Qed.

Lemma map_run_outcome m (o : map_op V) es w
    (r : result _ (Error E J)) w' :
  map_holds m (aw_store w) es →
  exec (world_step spurious) w (map_run m o) r w' →
  map_outcome spurious m o es w r w'.
Proof.
  intros Hh Hx. unfold map_outcome.
  destruct o as [key| |key value|key value|key];
    cbn [map_run] in Hx; apply exec_prog_map_ok in Hx as (r0 & Hx & ->);
    (eapply exec_map_read_bind in Hx; [|done]);
    destruct Hx as [(e & -> & ->)|(o & d & Ho & <- & Hd & Hx)]; simpl;
    try done.
  - by destruct Hx as [-> ->].
  - by destruct Hx as [-> ->].
  - by left.
  - eapply exec_map_write in Hx; [|done..].
    unfold write_outcome in Hx. destruct r0 as [v|[]]; naive_solver.
  - destruct (es !! key); simpl; by try left.
  - destruct (Map.entries_ d !! key) as [old|] eqn:Hk; simpl in *.
    + by destruct Hx as [-> ->].
    + apply exec_prog_map_ok in Hx as (r1 & Hx & ->).
      eapply exec_map_write in Hx; [|done..].
      unfold write_outcome in Hx. destruct r1 as [v|[]]; naive_solver.
  - destruct (es !! key); simpl; by try left.
  - destruct (Map.entries_ d !! key) as [old|] eqn:Hk; simpl in *.
    + apply exec_try_bind in Hx as [(v & w1 & Hx & [-> ->])|(e & Hx & ->)].
      * eapply exec_map_write in Hx; [|done..]. naive_solver.
      * eapply exec_map_write in Hx; [|done..].
        unfold write_outcome in Hx. destruct e; naive_solver.
    + by destruct Hx as [-> ->].
Qed.
End MapFacts.

Section MapAdapter.
Context {St S E J V : Type} `{StoreContract St E} (env : Env).
Context `{!ToJson J (Map.MapDocument V), !ToJson J (Map.OwnedMapDocument V),
          !FromJson J (Map.OwnedMapDocument V)}.
Context `{!JsonRoundTrip (J := J) (D := Map.OwnedMapDocument V) id}.

(** C25: each map operation, run against any adapter that implements the store
    contract and holds the map, refines the corresponding operation on a finite
    map: a read-only outcome leaves the store alone and is computed from the
    entries; a mutation writes a document with exactly the new entries under a
    new version.  A conflict can only come from a backend that reports spurious
    ones; an encoding error writes nothing; a backend failure leaves the map
    unchanged or applies the whole mutation. *)
Theorem map_operation_refines_model (m : Map.Map S) (o : map_op V) (es : gmap string V)
    (w : world St) aw r w' :
  world_sim env w aw → map_holds (J := J) m (aw_store aw) es →
  run (handle env) (map_run (J := J) m o) w = Some (r, w') →
  ∃ aw', world_sim env w' aw' ∧ map_outcome contract_spurious m o es aw r aw'.
Proof.
  intros Hw Hh (aw' & Hx & Hw')%(run_handle_exec env _ _ aw); [|done].
  exists aw'. split; [done|]. by apply map_run_outcome.
Qed.
End MapAdapter.

Section MapLifecycle.
Context {S E J V : Type}.
Context `{!ToJson J (Map.MapDocument V), !ToJson J (Map.OwnedMapDocument V),
          !FromJson J (Map.OwnedMapDocument V)}.
Context (spurious : bool).
Implicit Types (m : Map.Map S) (es : gmap string V) (w : aworld) (b : bytes).

Lemma map_observed_Ok m a x :
  map_observed (E := E) (J := J) (V := V) m (cur a !! Map.location m) = Ok x →
  map_holds (J := J) m a (Map.entries_ x.2).
Proof.
  unfold map_observed. destruct (cur a !! _) as [o|] eqn:Ho; simpl; [|done].
  destruct (from_slice _) as [d|e] eqn:Hd; simpl; [|done].
  destruct (validate _ _ _ _ _) as [u|e] eqn:Hv; simpl; [|done].
  intros; simplify_eq/=. apply validate_Ok in Hv as (? & ? & ?).
  exists o. split; [done|]. by exists d.
Qed.

Lemma map_read_only m :
  read_only spurious (Map.read (E := E) (J := J) (V := V) m).
Proof. by intros w r w' [-> _]%exec_map_read. Qed.

(** An operation on a map whose object is absent, is not a JSON document of
    the map's type, or carries other metadata, returns exactly that error (or the
    backend's) and writes nothing. *)
Lemma map_operation_rejects m (o : map_op V) w e (r : result _ (Error E J)) w' :
  map_observed (E := E) (J := J) (V := V) m (cur (aw_store w) !! Map.location m) = Err e →
  exec (world_step spurious) w (map_run m o) r w' →
  w' = w ∧ (r = Err e ∨ ∃ s, r = Err (Store s)).
Proof.
  intros Hobs Hx.
  assert (∀ {A} (f : _ → io E (result A (Error E J))) r,
      exec (world_step spurious) w (try_bind f (Map.read m)) r w' →
      w' = w ∧ (r = Err e ∨ ∃ s, r = Err (Store s))) as Hread.
  { intros A f r0 [(x & w1 & Hr%exec_map_read & _)|(e0 & Hr%exec_map_read & ->)]%exec_try_bind.
    - rewrite Hobs in Hr. destruct Hr as [_ [Hr|[s Hr]]]; congruence.
    - rewrite Hobs in Hr. destruct Hr as [-> [Hr|[s Hr]]]; simplify_eq; eauto. }
  destruct o; cbn [map_run] in Hx; apply exec_prog_map_ok in Hx as (r0 & Hx & ->);
    apply Hread in Hx as [-> [->|[s ->]]]; simpl; eauto.
Qed.

Context `{!JsonRoundTrip (D := Map.MapDocument V) (J := J) Map.to_owned}.

Lemma map_decodes_empty m b :
  Map.empty_bytes (E := E) (J := J) (V := V) m = Ok b → map_decodes (J := J) m b (∅ : gmap string V).
Proof.
  unfold Map.empty_bytes. rewrite !map_err_Ok. intros Hb%(json_round_trip (f := Map.to_owned)).
  by eexists.
Qed.

Lemma map_holds_wrote m b w v es w' :
  map_decodes (J := J) m b es → wrote w (Map.location m) b v w' →
  map_holds (J := J) m (aw_store w') es.
Proof.
  intros Hb [_ ->]. eexists. simpl. by rewrite lookup_insert_eq.
Qed.

(** [open_or_create] never touches an existing object.  On success the
    returned handle is the one configured, and the store holds a valid map at its
    location, an empty one if there was no object; on failure the store is
    unchanged, except that a backend failure may leave the empty map created. *)
Lemma map_open_or_create_safe builder m w (r : result (Map.Map S) (Error E J)) w' :
  Map.finish builder = Ok m →
  exec (world_step spurious) w (Map.open_or_create (V := V) builder) r w' →
  (is_Some (cur (aw_store w) !! Map.location m) → w' = w) ∧
  match r with
  | Ok m' =>
      m' = m ∧ ∃ es : gmap string V, map_holds (J := J) m (aw_store w') es ∧
        (cur (aw_store w) !! Map.location m = None → es = ∅)
  | Err _ =>
      w' = w ∨ (cur (aw_store w) !! Map.location m = None ∧
                map_holds (J := J) m (aw_store w') (∅ : gmap string V))
  end.
Proof.
  intros Hfin. unfold Map.open_or_create. rewrite Hfin. cbn [map_err]. rewrite try_bind_Ok.
  rewrite exec_try_bind.
  intros [(u & w1 & Hx & -> & ->)|(e & Hx & ->)];
    apply exec_open_or_create in Hx; try apply map_read_only.
  - destruct Hx as [(-> & x & [_ Hx]%exec_map_read)|(Hnone & b & v & Hb & Hw)].
    + split; [done|]. split; [done|].
      destruct Hx as [Hx|[s ?]]; [|done]. symmetry in Hx.
      exists (Map.entries_ x.2). split; [by apply map_observed_Ok|].
      intros Hnone. by rewrite Hnone in Hx.
    + split; [by rewrite Hnone; intros []|]. split; [done|]. exists ∅.
      split; [|done]. eauto using map_holds_wrote, map_decodes_empty.
  - destruct Hx as [->|(Hnone & b & v & s & Hb & Hw & ->)]; [by split; [|left]|].
    split; [by rewrite Hnone; intros []|]. right.
    eauto using map_holds_wrote, map_decodes_empty.
Qed.
End MapLifecycle.

(** ** Iteration order *)

Section Iteration.
Context {V : Type}.
Implicit Types (m : gmap string V).

Lemma string_le_trans : Transitive String.le.
Proof. apply _. Qed.

Lemma btree_into_iter_perm m : btree_into_iter m ≡ₚ map_to_list m.
Proof. apply merge_sort_Permutation. Qed.

Lemma btree_into_iter_keys_NoDup m : NoDup (btree_into_iter m).*1.
Proof. rewrite btree_into_iter_perm. apply NoDup_fst_map_to_list. Qed.

(** [entries] enumerates each binding of the map exactly once, in strictly
    increasing byte order of the keys. *)
Lemma entries_sorted_complete m :
  StronglySorted (λ x y, String.le x.1 y.1 ∧ x.1 ≠ y.1) (btree_into_iter m) ∧
  (∀ k v, (k, v) ∈ btree_into_iter m ↔ m !! k = Some v) ∧
  length (btree_into_iter m) = size m.
Proof.
  split_and!.
  - assert (StronglySorted (λ x y, String.le x.1 y.1) (btree_into_iter m)) as Hs.
    { apply StronglySorted_merge_sort; [intros x y z; apply string_le_trans|].
      intros x y. apply (total String.le). }
    pose proof (btree_into_iter_keys_NoDup m) as Hnd.
    induction Hs as [|x l Hs IH Hx]; [constructor|].
    simpl in Hnd. apply NoDup_cons in Hnd as [Hn Hnd].
    constructor; [by apply IH|]. rewrite Forall_forall in Hx |- *.
    intros y Hy. split; [by apply Hx|]. intros Heq. apply Hn. rewrite Heq.
    by apply list_elem_of_fmap_2.
  - intros k v. by rewrite btree_into_iter_perm, elem_of_map_to_list.
  - by rewrite btree_into_iter_perm, length_map_to_list.
Qed.
End Iteration.
