(* ===== verification/StructLog.v ===== *)
(** * Log (objsds/src/log)

    An append-only sequence of records ordered by UUIDv7 identifiers, held in one
    object.  [LogDocument] is the stored document, [Log.Log] the handle. *)

From S2P Require Import Prelude.
From S2P Require Import Program.
From S2P Require Import ObjectStore.
From S2P Require Import Json.
From S2P Require Import CoreTypes.
From S2P Require Import Lifecycle.
Import Core.

Module Log.

(** ** record.rs *)

Record LogId := MkLogId { logid_uuid : Uuid }.

#[global] Instance LogId_eq_dec : EqDecision LogId.
Proof. solve_decision. Defined.

#[global] Instance LogId_countable : Countable LogId.
Proof. refine (inj_countable' logid_uuid MkLogId _). by intros []. Defined.

Definition LogId_now {E} : io E LogId :=
  let! uuid := now_v7 in Ret (MkLogId uuid).

(** One immutable log record. *)
Record LogRecord (V : Type) := MkRecord { id : LogId; value : V }.
Arguments MkRecord {V} id value.
Arguments id {V} l.
Arguments value {V} l.

#[global] Instance LogRecord_eq_dec {V} `{EqDecision V} : EqDecision (LogRecord V).
Proof. solve_decision. Defined.

#[global] Instance LogRecord_countable {V} `{Countable V} : Countable (LogRecord V).
Proof.
  refine (inj_countable' (λ r, (id r, value r)) (λ p, MkRecord p.1 p.2) _).
  by intros [].
Defined.

(** The number records are ordered by. *)
Definition key {V} (r : LogRecord V) : N := logid_uuid (id r).

(** ** mod.rs *)

Record Log (S : Type) := MkLog { store : S; location : Location; schema : string }.
Arguments MkLog {S} store location schema.
Arguments store {S} l.
Arguments location {S} l.
Arguments schema {S} l.

Record LogDocument (V : Type) := MkLogDocument {
  format_version : N;
  kind : string;
  doc_schema : string;
  records_ : list (LogRecord V);
}.
Arguments MkLogDocument {V}.
Arguments format_version {V} l.
Arguments kind {V} l.
Arguments doc_schema {V} l.
Arguments records_ {V} l.

Definition set_records {V} (d : LogDocument V) (rs : list (LogRecord V)) :
    LogDocument V :=
  MkLogDocument (format_version d) (kind d) (doc_schema d) rs.

Section Operations.
Context {S E J V : Type}.
Context `{!ToJson J (LogDocument V), !FromJson J (LogDocument V)}.
Implicit Types (m : Log S) (value : V).

Definition empty_bytes m : result bytes (Error E J) :=
  map_err Document (map_err Serialize
    (to_vec (MkLogDocument FORMAT_VERSION "log" (schema m) ([] : list (LogRecord V))))).

Definition read m : io E (result (Version * LogDocument V) (Error E J)) :=
  let? object := prog_map_err (λ e, Store (MkStoreError e)) (get (location m)) in
  let? object := Ret (ok_or object NotFound) in
  let? document := Ret (map_err Document (map_err Deserialize
                          (from_slice (object_bytes object)))) in
  let? _ := Ret (validate (format_version document) (kind document)
                   (doc_schema document) "log" (schema m)) in
  if windows2_any (λ x y, (key y <=? key x)%N) (records_ document) then
    Ret (Err (Document (Corrupt "log record IDs must be strictly increasing")))
  else Ret (Ok (object_version object, document)).

Definition write m (version : Version) (document : LogDocument V) :
    io E (result Version (Error E J)) :=
  let? b := Ret (map_err Document (map_err Serialize (to_vec document))) in
  Lifecycle.replace (location m) version b.

Definition append m value : io E (result LogId (Error E J)) :=
  let? ' (version, document) := read m in
  let! id := LogId_now in
  let index :=
    match binary_search_by_key (logid_uuid id) key (records_ document) with
    | Ok index => index
    | Err index => index
    end in
  let! records := or_panic (vec_insert index (MkRecord id value) (records_ document)) in
  let? _ := write m version (set_records document records) in
  Ret (Ok id).

Definition get m (id : LogId) : io E (result (option (LogRecord V)) (Error E J)) :=
  let? ' (_, document) := read m in
  match binary_search_by_key (logid_uuid id) key (records_ document) with
  | Ok index =>
      let! ' (record, _) := or_panic (vec_remove index (records_ document)) in
      Ret (Ok (Some record))
  | Err _ => Ret (Ok None)
  end.

Definition records m : io E (result (list (LogRecord V)) (Error E J)) :=
  let? ' (_, document) := read m in
  Ret (Ok (records_ document)).

Definition records_after m (id : LogId) :
    io E (result (list (LogRecord V)) (Error E J)) :=
  let? ' (_, document) := read m in
  let index :=
    partition_point (λ record, (key record <=? logid_uuid id)%N) (records_ document) in
  Ret (Ok (drop index (records_ document))).
End Operations.

(** ** builder.rs *)

Record LogBuilder (S : Type) := MkLogBuilder {
  builder_store : S;
  builder_location : result Location BuildError;
  builder_schema : option string;
}.
Arguments MkLogBuilder {S} builder_store builder_location builder_schema.
Arguments builder_store {S} l.
Arguments builder_location {S} l.
Arguments builder_schema {S} l.

Definition config_error {E J} (error : BuildError) : Error E J := Configuration error.

Section Builder.
Context {S E J V : Type}.
Context `{!ToJson J (LogDocument V), !FromJson J (LogDocument V)}.
Implicit Types (builder : LogBuilder S).

Definition builder_new (store : S) (namespace name : string) : LogBuilder S :=
  MkLogBuilder store (Core.location namespace "logs" name) None.

Definition with_schema builder (schema : string) : LogBuilder S :=
  MkLogBuilder (builder_store builder) (builder_location builder) (Some schema).

Definition finish builder : result (Log S) BuildError :=
  let* schema := ok_or (builder_schema builder) MissingSchema in
  if String.eqb schema "" then Err MissingSchema
  else
    let* location := builder_location builder in
    Ok (MkLog (builder_store builder) location schema).

Definition create builder : io E (result (Log S) (Error E J)) :=
  let? log := Ret (map_err config_error (finish builder)) in
  let? _ := Lifecycle.create_structure (location log) (empty_bytes (V := V) log) in
  Ret (Ok log).

Definition open builder : io E (result (Log S) (Error E J)) :=
  let? log := Ret (map_err config_error (finish builder)) in
  let? _ := Lifecycle.open_structure (read (V := V) log) in
  Ret (Ok log).

Definition open_or_create builder : io E (result (Log S) (Error E J)) :=
  let? log := Ret (map_err config_error (finish builder)) in
  let? _ := Lifecycle.open_or_create_structure (location log)
              (empty_bytes (V := V) log) (read (V := V) log) in
  Ret (Ok log).
End Builder.
End Log.

(** ** Specification *)

Inductive log_op (V : Type) :=
  | LogAppend (value : V)
  | LogGet (id : Log.LogId)
  | LogRecords
  | LogRecordsAfter (id : Log.LogId).
Arguments LogAppend {V} value.
Arguments LogGet {V} id.
Arguments LogRecords {V}.
Arguments LogRecordsAfter {V} id.

Inductive log_output (V : Type) :=
  | OutId (id : Log.LogId)
  | OutRecord (record : option (Log.LogRecord V))
  | OutRecords (records : list (Log.LogRecord V)).
Arguments OutId {V} id.
Arguments OutRecord {V} record.
Arguments OutRecords {V} records.

Section LogSpec.
Context {S E J V : Type}.
Context `{!ToJson J (Log.LogDocument V), !FromJson J (Log.LogDocument V)}.
Implicit Types (m : Log.Log S) (rs : list (Log.LogRecord V)) (w : aworld) (b : bytes).

Definition log_run m (o : log_op V) : io E (result (log_output V) (Error E J)) :=
  match o with
  | LogAppend value => prog_map_ok OutId (Log.append m value)
  | LogGet id => prog_map_ok OutRecord (Log.get m id)
  | LogRecords => prog_map_ok OutRecords (Log.records m)
  | LogRecordsAfter id => prog_map_ok OutRecords (Log.records_after m id)
  end.

(** What a reading operation returns on a log with these records. *)
Definition log_view (o : log_op V) rs : option (log_output V) :=
  match o with
  | LogAppend _ => None
  | LogGet id => Some (OutRecord (head (filter (λ r, Log.key r = Log.logid_uuid id) rs)))
  | LogRecords => Some (OutRecords rs)
  | LogRecordsAfter id =>
      Some (OutRecords (filter (λ r, (Log.logid_uuid id < Log.key r)%N) rs))
  end.

Definition log_decodes m b rs : Prop :=
  ∃ d : Log.LogDocument V, from_slice b = Ok d ∧
    Log.format_version d = FORMAT_VERSION ∧ Log.kind d = "log" ∧
    Log.doc_schema d = Log.schema m ∧ Log.records_ d = rs.

(** The store holds a valid log [m] with these records. *)
Definition log_holds m (a : astore) rs : Prop :=
  sorted_by Log.key rs ∧
  ∃ o, cur a !! Log.location m = Some o ∧ log_decodes m (object_bytes o) rs.
End LogSpec.

Section LogFacts.
Context {S E J V : Type}.
Context `{!ToJson J (Log.LogDocument V), !FromJson J (Log.LogDocument V)}.
Context (spurious : bool).
Implicit Types (m : Log.Log S) (rs : list (Log.LogRecord V)) (w : aworld) (b : bytes).

(** What [read] makes of the object it found. *)
Definition log_observed m (object : option Object) :
    result (Version * Log.LogDocument V) (Error E J) :=
  let* o := ok_or object NotFound in
  let* d := map_err Document (map_err Deserialize (from_slice (object_bytes o))) in
  let* _ := validate (Log.format_version d) (Log.kind d) (Log.doc_schema d)
              "log" (Log.schema m) in
  if windows2_any (λ x y, (Log.key y <=? Log.key x)%N) (Log.records_ d)
  then Err (Document (Corrupt "log record IDs must be strictly increasing"))
  else Ok (object_version o, d).

Lemma log_read_reads m :
  reads_object (λ e, Store (MkStoreError e)) (Log.location m) (log_observed m)
    (Log.read m).
Proof. solve_object_protocol log_observed. Qed.

Lemma exec_log_read m w (r : result _ (Error E J)) w' :
  exec (world_step spurious) w (Log.read m) r w' ↔
  w' = w ∧ (r = log_observed m (cur (aw_store w) !! Log.location m) ∨
            ∃ e, r = Err (Store (MkStoreError e))).
Proof. apply exec_reads_object, log_read_reads. Qed.

Lemma log_observed_holds m a rs :
  log_holds m a rs →
  ∃ o d, cur a !! Log.location m = Some o ∧ Log.records_ d = rs ∧
    log_observed m (cur a !! Log.location m) = Ok (object_version o, d) ∧
    Log.format_version d = FORMAT_VERSION ∧ Log.kind d = "log" ∧
    Log.doc_schema d = Log.schema m.
Proof.
  intros (Hsort & o & Ho & d & Hd & Hv & Hk & Hs & He). exists o, d.
  rewrite Ho. unfold log_observed. simpl. rewrite Hd. simpl.
  rewrite Hv, Hk, Hs, validate_refl. simpl.
  rewrite (proj2 (windows2_any_sorted_by Log.key _)) by (by rewrite He). done.
Qed.

(** Conversely [read] accepts an object only when the store holds the log: a
    document with duplicate or unordered identifiers is reported as corrupt. *)
Lemma log_observed_Ok m a x :
  log_observed m (cur a !! Log.location m) = Ok x →
  log_holds (J := J) m a (Log.records_ x.2).
Proof.
  unfold log_observed. destruct (cur a !! _) as [o|] eqn:Ho; simpl; [|done].
  destruct (from_slice _) as [d|e] eqn:Hd; simpl; [|done].
  destruct (validate _ _ _ _ _) as [u|e] eqn:Hv; simpl; [|done].
  destruct (windows2_any _ _) eqn:Hw; [done|].
  intros; simplify_eq/=. apply validate_Ok in Hv as (? & ? & ?).
  split; [by apply windows2_any_sorted_by|]. exists o. split; [done|]. by exists d.
Qed.

(** An operation that reads and continues, executed where the log holds [rs]. *)
Lemma exec_log_read_bind {A} m w rs (f : _ → io E (result A (Error E J))) r w' :
  log_holds m (aw_store w) rs →
  exec (world_step spurious) w (try_bind f (Log.read m)) r w' →
  (∃ e, r = Err (Store e) ∧ w' = w) ∨
  ∃ o d, cur (aw_store w) !! Log.location m = Some o ∧ Log.records_ d = rs ∧
    (∀ rs', to_vec (J := J) (Log.set_records d rs') =
            to_vec (Log.MkLogDocument FORMAT_VERSION "log" (Log.schema m) rs')) ∧
    exec (world_step spurious) w (f (object_version o, d)) r w'.
Proof.
  intros Hh Hx.
  destruct (log_observed_holds m _ rs Hh) as (o & d & Ho & He & Hobs & Hv & Hk & Hs).
  apply (exec_reads_object_bind _ _ _ _ _ _ _ _ _ (log_read_reads m)) in Hx
    as [(e & -> & ->)|Hx]; [by eauto|].
  rewrite Hobs in Hx. right. exists o, d. split_and!; try done. intros rs'.
  unfold Log.set_records. by rewrite Hv, Hk, Hs.
Qed.

Context `{!JsonRoundTrip (D := Log.LogDocument V) id}.

Lemma log_decodes_written m rs b :
  to_vec (Log.MkLogDocument FORMAT_VERSION "log" (Log.schema m) rs) = Ok b →
  log_decodes (J := J) m b rs.
Proof. intros Hb%(json_round_trip (f := id)). by eexists. Qed.

Lemma exec_log_write m w o d rs' (r : result Version (Error E J)) w' :
  cur (aw_store w) !! Log.location m = Some o →
  (∀ rs', to_vec (J := J) (Log.set_records d rs') =
          to_vec (Log.MkLogDocument FORMAT_VERSION "log" (Log.schema m) rs')) →
  exec (world_step spurious) w
    (Log.write m (object_version o) (Log.set_records d rs')) r w' →
  write_outcome spurious w (Log.location m) (λ b, log_decodes m b rs') r w'.
Proof.
  intros Ho Hd. apply exec_encode_replace; [done|]. rewrite Hd.
  apply log_decodes_written.
Qed.

(** The outcome of an append that drew the UUID [u], from the world after. *)
Definition append_outcome m (value : V) rs (u : Uuid) w
    (r : result Log.LogId (Error E J)) w' : Prop :=
  let record := Log.MkRecord (Log.MkLogId u) value in
  let applied := ∃ b v, wrote w (Log.location m) b v w' ∧
                        log_decodes m b (insert_sorted Log.key record rs) in
  match r with
  | Ok i => i = Log.MkLogId u ∧ applied
  | Err (Store _) => w' = w ∨ applied
  | Err (Conflict _) => spurious = true ∧ w' = w
  | Err (Document (Serialize _)) => w' = w
  | Err _ => False
  end.

Lemma log_append_outcome m (value : V) rs w r w' :
  log_holds m (aw_store w) rs →
  exec (world_step spurious) w (Log.append m value) r w' →
  ((∃ e, r = Err (Store e)) ∧ w' = w) ∨
  ∃ u, aw_uuids w' = aw_uuids w ++ [u] ∧
    (u ∉ Log.key <$> rs →
     append_outcome m value rs u
       (MkAWorld (aw_store w) (aw_uuids w ++ [u]) (aw_clock w)) r w').
Proof.
  intros Hh Hx. pose proof Hh as [Hsort _].
  eapply exec_log_read_bind in Hx; [|done].
  destruct Hx as [(e & -> & ->)|(o & d & Ho & <- & Hd & Hx)]; [by eauto|]. right.
  apply exec_bind in Hx as (i & w1 & Hi & Hx).
  apply exec_bind in Hi as (u & w2 & ->%exec_now_v7 & [-> ->]).
  exists u. split.
  - apply exec_bind in Hx as (rs' & w2 & Hrs & Hx). destruct (vec_insert _ _ _); [|done].
    destruct Hrs as [-> ->].
    apply exec_try_bind in Hx as [(v & w3 & Hx & [-> ->])|(e & Hx & ->)];
      eapply exec_log_write, write_outcome_uuids in Hx; done.
  - intros Hu. cbn [Log.logid_uuid] in Hx.
    rewrite (binary_search_insert Log.key (Log.MkRecord (Log.MkLogId u) value)) in Hx
      by done.
    cbn [or_panic prog_bind] in Hx. unfold append_outcome.
    apply exec_try_bind in Hx as [(v & w3 & Hx & [-> ->])|(e & Hx & ->)];
      eapply exec_log_write in Hx; try done; simpl in Hx.
    + destruct Hx as (b & ? & ?). eauto 10.
    + destruct e; try done. destruct Hx as [->|(b & v & ? & ?)]; eauto 10.
Qed.

(** Appending keeps the log valid: the new records are sorted, they are the old
    ones and the new one. *)
Lemma log_holds_append m (value : V) rs u w b v w' :
  sorted_by Log.key rs → u ∉ Log.key <$> rs →
  let record := Log.MkRecord (Log.MkLogId u) value in
  wrote w (Log.location m) b v w' →
  log_decodes (J := J) m b (insert_sorted Log.key record rs) →
  log_holds (J := J) m (aw_store w') (insert_sorted Log.key record rs).
Proof.
  intros Hs Hu record [_ ->] Hb. split; [by apply insert_sorted_sorted|].
  eexists. simpl. by rewrite lookup_insert_eq.
Qed.

Lemma log_read_outcome m (o : log_op V) x rs w (r : result _ (Error E J)) w' :
  log_holds m (aw_store w) rs → log_view o rs = Some x →
  exec (world_step spurious) w (log_run m o) r w' →
  w' = w ∧ (r = Ok x ∨ ∃ e, r = Err (Store e)).
Proof.
  intros Hh Hview Hx. pose proof Hh as [Hsort _].
  destruct o as [value|i| |i]; simpl in Hview; simplify_eq; cbn [log_run] in Hx;
    apply exec_prog_map_ok in Hx as (r0 & Hx & ->);
    (eapply exec_log_read_bind in Hx; [|done]);
    destruct Hx as [(e & -> & ->)|(o & d & _ & <- & _ & Hx)]; simpl; eauto.
  - destruct (binary_search_by_key _ _ _) as [j|j] eqn:Hj.
    + apply binary_search_by_key_Ok in Hj as (record & Hj & Hk); [|done].
      assert (vec_remove j (Log.records_ d) =
              Some (record, take j (Log.records_ d) ++ drop (j + 1) (Log.records_ d)))
        as Hrem by (rewrite Nat.add_1_r; by apply vec_remove_Some).
      rewrite Hrem in Hx. destruct Hx as [-> ->]. split; [done|left]. simpl.
      rewrite <-Hk, sorted_by_find; [done..|]. by eapply list_elem_of_lookup_2.
    + apply binary_search_by_key_Err in Hj as (_ & Hlt & Hgt); [|done].
      destruct Hx as [-> ->]. split; [done|left]. simpl.
      rewrite find_absent; [done|]. by eapply Forall_lt_absent.
  - destruct Hx as [-> ->]. auto.
  - destruct Hx as [-> ->]. split; [done|left]. simpl. do 2 f_equal.
    destruct (partition_point_le Log.key (Log.records_ d) (Log.logid_uuid i) Hsort)
      as [Hle Hgt].
    symmetry. apply filter_suffix; [|done].
    eapply Forall_impl; [exact Hle|]. intros x; simpl. lia.
Qed.
End LogFacts.

Section LogOutcome.
Context {S E J V : Type}.
Context `{!ToJson J (Log.LogDocument V), !FromJson J (Log.LogDocument V)}.

(** The outcome of one operation executed without interference. *)
Definition log_outcome spurious (m : Log.Log S) (o : log_op V)
    (rs : list (Log.LogRecord V)) (w : aworld) (r : result (log_output V) (Error E J))
    (w' : aworld) : Prop :=
  match o with
  | LogAppend value =>
      ((∃ e, r = Err (Store e)) ∧ w' = w) ∨
      ∃ u r0, aw_uuids w' = aw_uuids w ++ [u] ∧ r = map_ok OutId r0 ∧
        (u ∉ Log.key <$> rs →
         append_outcome spurious m value rs u
           (MkAWorld (aw_store w) (aw_uuids w ++ [u]) (aw_clock w)) r0 w')
  | o => ∃ x, log_view o rs = Some x ∧ w' = w ∧ (r = Ok x ∨ ∃ e, r = Err (Store e))
  end.

Context `{!JsonRoundTrip (J := J) (D := Log.LogDocument V) id}.

Lemma log_run_outcome spurious (m : Log.Log S) (o : log_op V) rs w r w' :
  log_holds (J := J) m (aw_store w) rs →
  exec (world_step spurious) w (log_run (E := E) (J := J) m o) r w' →
  log_outcome spurious m o rs w r w'.
Proof.
  intros Hh Hx. destruct o as [value|i| |i]; unfold log_outcome;
    [|eexists; split; [reflexivity|];
     eapply log_read_outcome; [exact Hh| |exact Hx]; reflexivity..].
  cbn [log_run] in Hx. apply exec_prog_map_ok in Hx as (r0 & Hx & ->).
  (eapply log_append_outcome in Hx; [|done..]).
  destruct Hx as [[[e ->] ->]|(u & Hus & Hout)]; [left; simpl; eauto|right].
  by exists u, r0.
Qed.
End LogOutcome.

Section LogAdapter.
Context {St S E J V : Type} `{StoreContract St E} (env : Env).
Context `{!ToJson J (Log.LogDocument V), !FromJson J (Log.LogDocument V)}.
Context `{!JsonRoundTrip (J := J) (D := Log.LogDocument V) id}.

(** C26: each log operation, run against any adapter that implements the store
    contract and holds the log.  [append] draws one UUID and, if no record carries
    it, writes exactly the old records with the new one inserted in identifier
    order and returns the identifier drawn; it writes entirely or not at all, and
    only a backend failure leaves it open which.  [get], [records] and
    [records_after] write nothing and return what a scan of the records gives. *)
Theorem log_operation_refines_model (m : Log.Log S) (o : log_op V) rs
    (w : world St) aw r w' :
  world_sim env w aw → log_holds (J := J) m (aw_store aw) rs →
  run (handle env) (log_run (J := J) m o) w = Some (r, w') →
  ∃ aw', world_sim env w' aw' ∧ log_outcome contract_spurious m o rs aw r aw'.
Proof.
  intros Hw Hh (aw' & Hx & Hw')%(run_handle_exec env _ _ aw); [|done].
  exists aw'. split; [done|]. by apply log_run_outcome.
Qed.
End LogAdapter.

Section LogLifecycle.
Context {S E J V : Type}.
Context `{!ToJson J (Log.LogDocument V), !FromJson J (Log.LogDocument V)}.
Context (spurious : bool).
Implicit Types (m : Log.Log S) (rs : list (Log.LogRecord V)) (w : aworld) (b : bytes).

Lemma log_read_only m : read_only spurious (Log.read (E := E) (J := J) (V := V) m).
Proof. by intros w r w' [-> _]%exec_log_read. Qed.

Lemma log_read_panic_free m : panic_free (Log.read (E := E) (J := J) (V := V) m).
Proof.
  destruct (log_read_reads (E := E) (J := J) (V := V) m) as (k & -> & Hk).
  intros r. by rewrite Hk.
Qed.

Lemma log_write_panic_free m v (d : Log.LogDocument V) :
  panic_free (Log.write (E := E) (J := J) m v d).
Proof.
  unfold Log.write. destruct (to_vec d) as [b|e]; [|done]. by intros [|].
Qed.

(** No log operation can panic: on every stored document and every reply of
    the store, the index [append] inserts at and the index [get] removes at are in
    range. *)
Lemma log_operations_panic_free m (o : log_op V) :
  panic_free (log_run (E := E) (J := J) m o).
Proof.
  assert (∀ {A} (f : _ → io E (result A (Error E J))),
            (∀ x, panic_free (f x)) → panic_free (try_bind f (Log.read (V := V) m))) as Hread.
  { intros A f Hf. by apply panic_free_try_bind; [apply log_read_panic_free|]. }
  destruct o as [value|i| |i]; cbn [log_run]; (apply panic_free_bind; [|done]);
    apply Hread; intros [v d].
  - apply panic_free_bind; [done|]. intros i. cbn zeta.
    apply panic_free_bind; [|intros rs].
    + apply panic_free_or_panic, vec_insert_is_Some. unfold binary_search_by_key.
      pose proof (binary_search_by_bound (λ x, Log.key x ?= Log.logid_uuid i)%N
                    (Log.records_ d)).
      case_match; lia.
    + apply panic_free_try_bind; [apply log_write_panic_free|done].
  - unfold binary_search_by_key.
    pose proof (binary_search_by_bound (λ x, Log.key x ?= Log.logid_uuid i)%N
                  (Log.records_ d)).
    case_match; [|done]. apply panic_free_bind; [|by intros []].
    by apply panic_free_or_panic, vec_remove_is_Some.
  - done.
  - done.
Qed.

Context `{!JsonRoundTrip (J := J) (D := Log.LogDocument V) id}.

Lemma log_holds_created m b w v w' :
  Log.empty_bytes (E := E) (J := J) (V := V) m = Ok b →
  wrote w (Log.location m) b v w' →
  log_holds (J := J) m (aw_store w') ([] : list (Log.LogRecord V)).
Proof.
  unfold Log.empty_bytes. rewrite !map_err_Ok. intros Hb%log_decodes_written [_ ->].
  split; [constructor|]. eexists. simpl. by rewrite lookup_insert_eq.
Qed.

(** [open_or_create] on a log never touches an existing object: on success
    the store holds a valid log, empty if there was no object; on failure the
    store is unchanged, or a backend failure left the empty log created. *)
Lemma log_open_or_create_safe builder m w (r : result (Log.Log S) (Error E J)) w' :
  Log.finish builder = Ok m →
  exec (world_step spurious) w (Log.open_or_create (V := V) builder) r w' →
  (is_Some (cur (aw_store w) !! Log.location m) → w' = w) ∧
  match r with
  | Ok m' =>
      m' = m ∧ ∃ rs : list (Log.LogRecord V), log_holds (J := J) m (aw_store w') rs ∧
        (cur (aw_store w) !! Log.location m = None → rs = [])
  | Err _ =>
      w' = w ∨ (cur (aw_store w) !! Log.location m = None ∧
                log_holds (J := J) m (aw_store w') ([] : list (Log.LogRecord V)))
  end.
Proof.
  intros Hfin. unfold Log.open_or_create. rewrite Hfin. cbn [map_err].
  rewrite try_bind_Ok, exec_try_bind.
  intros [(u & w1 & Hx & -> & ->)|(e & Hx & ->)];
    apply exec_open_or_create in Hx; try apply log_read_only.
  - destruct Hx as [(-> & x & [_ Hx]%exec_log_read)|(Hnone & b & v & Hb & Hw)].
    + split; [done|]. split; [done|]. destruct Hx as [Hx|[s ?]]; [|done].
      symmetry in Hx. exists (Log.records_ x.2). split; [by eapply log_observed_Ok|].
      intros Hnone. by rewrite Hnone in Hx.
    + split; [by rewrite Hnone; intros []|]. split; [done|]. exists [].
      eauto using log_holds_created.
  - destruct Hx as [->|(Hnone & b & v & s & Hb & Hw & ->)]; [by split; [|left]|].
    split; [by rewrite Hnone; intros []|]. right. eauto using log_holds_created.
Qed.
End LogLifecycle.
