(* ===== verification/Client.v ===== *)
(** * The client (objsds/src/client.rs)

    [Objsds] is the shared store and namespace, [ObjsdsBuilder] its
    configuration; [map] and [log] hand out the builders of the structures.
    [Arc::clone] shares the store, so a clone is the same value. *)

From S2P Require Import Prelude.
From S2P Require Import ObjectStore.
From S2P Require Import CoreTypes.
From S2P Require Import StructMap.
From S2P Require Import StructLog.
Import Core.

Module Client.

Record Objsds (S : Type) := MkObjsds { store : S; namespace : string }.
Arguments MkObjsds {S} store namespace.
Arguments store {S} o.
Arguments namespace {S} o.

Record ObjsdsBuilder (S : Type) := MkObjsdsBuilder {
  builder_store : option S;
  builder_namespace : option string;
}.
Arguments MkObjsdsBuilder {S} builder_store builder_namespace.
Arguments builder_store {S} o.
Arguments builder_namespace {S} o.

(** [ObjsdsBuilder::default] and [Objsds::builder]. *)
Definition default : ObjsdsBuilder unit := MkObjsdsBuilder None None.
Definition builder : ObjsdsBuilder unit := default.

Definition clone {S} (o : Objsds S) : Objsds S := MkObjsds (store o) (namespace o).

Definition map {S} (o : Objsds S) (name : string) : Map.MapBuilder S :=
  Map.builder_new (store o) (namespace o) name.

Definition log {S} (o : Objsds S) (name : string) : Log.LogBuilder S :=
  Log.builder_new (store o) (namespace o) name.

Definition with_store {S T} (b : ObjsdsBuilder S) (store : T) : ObjsdsBuilder T :=
  MkObjsdsBuilder (Some store) (builder_namespace b).

Definition with_namespace {S} (b : ObjsdsBuilder S) (namespace : string) :
    ObjsdsBuilder S :=
  MkObjsdsBuilder (builder_store b) (Some namespace).

Definition build {S} (b : ObjsdsBuilder S) : result (Objsds S) BuildError :=
  let* namespace := ok_or (builder_namespace b) MissingNamespace in
  if negb (is_path_segment namespace) then Err InvalidNamespace
  else
    let* store := ok_or (builder_store b) MissingStore in
    Ok (MkObjsds store namespace).

(** ** Facts *)

Section Facts.
Context {S : Type}.
Implicit Types (o : Objsds S) (name schema : string).

Lemma build_Ok (b : ObjsdsBuilder S) o :
  build b = Ok o ↔
  builder_namespace b = Some (namespace o) ∧ is_path_segment (namespace o) = true ∧
  builder_store b = Some (store o).
Proof.
  unfold build. destruct b as [[s|] [ns|]]; simpl.
  all: try destruct (is_path_segment ns) eqn:Hns; simpl.
  all: split; [intros; simplify_eq/=; eauto|].
  all: intros (? & Hseg & ?); simplify_eq/=; try congruence.
  by destruct o.
Qed.

(** The location a structure of a built client gets. *)
Lemma core_location_spec ns kind name :
  is_path_segment ns = true → is_path_segment kind = true →
  Core.location ns kind name =
  if is_path_segment name
  then Ok (MkLocation (ns +:+ "/" +:+ kind +:+ "/" +:+ name +:+ ".json"))
  else Err InvalidName.
Proof.
  intros Hns Hkind. unfold Core.location.
  destruct (is_path_segment name) eqn:Hname; simpl; [|done].
  unfold location_structure. simpl forallb. rewrite Hns, Hkind, Hname. simpl negb.
  by rewrite structure_path_valid.
Qed.

(** Configuring a structure of a successfully built client fails exactly
    when the schema is missing or empty ([MissingSchema], reported first) or the
    name is not a path segment ([InvalidName]); otherwise the handle has the
    client's store, the schema, and the location of its namespace, kind and
    name.  [InvalidNamespace] is never reported this late. *)
Lemma client_structures_configured (b : ObjsdsBuilder S) o name schema :
  build b = Ok o →
  let path kind := MkLocation
    (namespace o +:+ "/" +:+ kind +:+ "/" +:+ name +:+ ".json") in
  Map.finish (map o name) = Err MissingSchema ∧
  Log.finish (log o name) = Err MissingSchema ∧
  (Map.finish (Map.with_schema (map o name) schema) =
     if decide (schema = "") then Err MissingSchema
     else if is_path_segment name
          then Ok (Map.MkMap (store o) (path "maps") schema) else Err InvalidName) ∧
  Log.finish (Log.with_schema (log o name) schema) =
    if decide (schema = "") then Err MissingSchema
    else if is_path_segment name
         then Ok (Log.MkLog (store o) (path "logs") schema) else Err InvalidName.
Proof.
  intros (_ & Hns & _)%build_Ok. split; [done|]. split; [done|].
  unfold Map.finish, Log.finish, Map.with_schema, Log.with_schema, map, log,
    Map.builder_new, Log.builder_new.
  simpl. rewrite !core_location_spec by done.
  destruct (String.eqb_spec schema ""), (is_path_segment name); by case_decide.
Qed.

(** Handles of one client, or of clients with different namespaces, occupy
    different objects unless namespace, kind and name all agree. *)
Lemma client_structures_isolated (o o' : Objsds S) name name' m m' d d' :
  Map.finish (Map.with_schema (map o name) m) = Ok d →
  Map.finish (Map.with_schema (map o' name') m') = Ok d' →
  (Map.location d = Map.location d' → namespace o = namespace o' ∧ name = name') ∧
  (∀ name'' s l, Log.finish (Log.with_schema (log o' name'') s) = Ok l →
     Log.location l ≠ Map.location d).
Proof.
  assert (∀ (o : Objsds S) name m d,
            Map.finish (Map.with_schema (map o name) m) = Ok d →
            location_structure (namespace o) "maps" name = Ok (Map.location d)) as Hmap.
  { intros o0 n s d0. unfold Map.finish, Map.with_schema, map, Map.builder_new. simpl.
    destruct (String.eqb s ""); [done|].
    destruct (Core.location _ _ _) as [l|] eqn:Hl; [|done]. intros; simplify_eq/=.
    by apply Core.location_Ok. }
  intros Hd Hd'. apply Hmap in Hd, Hd'. split.
  - intros Heq. rewrite Heq in Hd.
    apply location_structure_Ok in Hd as (Hn & Hk & _ & Hl).
    apply location_structure_Ok in Hd' as (Hn' & Hk' & _ & Hl').
    rewrite Hl in Hl'. by apply structure_path_inj in Hl' as (? & _ & ?).
  - intros name'' s l. unfold Log.finish, Log.with_schema, log, Log.builder_new. simpl.
    destruct (String.eqb s ""); [done|].
    destruct (Core.location _ _ _) as [l0|] eqn:Hl0; [|done]. intros; simplify_eq/=.
    apply Core.location_Ok, location_structure_Ok in Hl0 as (Hn' & Hk' & _ & Hl').
    apply location_structure_Ok in Hd as (Hn & Hk & _ & Hl). intros Heq.
    rewrite Heq, Hl in Hl'. by apply structure_path_inj in Hl' as (_ & ? & _).
Qed.
End Facts.

End Client.
