(* ===== verification/WorkQueue.v ===== *)
(** * Work queue (crate objsds-queue)

    A brokerless queue held in one object: messages ordered by identifier, each
    with the number of times it was claimed and its current lease.  The clock is
    the [NowMillis] call; a queue is generic in its clock [C], which the handle
    only carries.  The crate has its own errors, builder and protocol and does not
    use the core crate's lifecycle. *)

From S2P Require Import Prelude.
From S2P Require Import Program.
From S2P Require Import ObjectStore.
From S2P Require Import Json.
From S2P Require Import CoreTypes.

(** [std::time::Duration]: [nanos] below one billion; [as_millis] is a [u128]. *)
Record Duration := MkDuration { as_secs : N; subsec_nanos : N }.

Definition as_millis (d : Duration) : N :=
  (as_secs d * 1000 + subsec_nanos d / 1000000)%N.

Module Queue.

Definition FORMAT_VERSION : N := 1.
Definition KIND : string := "queue".

(** The reading of the default clock, from the time since the epoch ([None] for a
    time before it). *)
Definition SystemClock_now_millis (since_epoch : option Duration) : N :=
  let millis := as_millis (default (MkDuration 0 0) since_epoch) in
  default u64_max (try_from_unsigned u64_max millis).

Record MessageId := MkMessageId { message_uuid : Uuid }.
Record LeaseToken := MkLeaseToken { token_uuid : Uuid }.

#[global] Instance MessageId_eq_dec : EqDecision MessageId.
Proof. solve_decision. Defined.
#[global] Instance LeaseToken_eq_dec : EqDecision LeaseToken.
Proof. solve_decision. Defined.

Record Claim (V : Type) := MkClaim {
  claim_id : MessageId;
  claim_value : V;
  lease_token : LeaseToken;
  attempt : N;
  lease_expires_at_millis : N;
}.
Arguments MkClaim {V}.
Arguments claim_id {V} c.
Arguments claim_value {V} c.
Arguments lease_token {V} c.
Arguments attempt {V} c.
Arguments lease_expires_at_millis {V} c.

Inductive Ack := Acknowledged | AckNotFound | LeaseMismatch | LeaseExpired.

#[global] Instance Ack_eq_dec : EqDecision Ack.
Proof. solve_decision. Defined.

Inductive BuildError := InvalidNamespace | InvalidName | MissingSchema.

#[global] Instance BuildError_eq_dec : EqDecision BuildError.
Proof. solve_decision. Defined.

#[global] Instance BuildError_display : Display BuildError := λ e,
  match e with
  | InvalidNamespace => "namespace must be one non-empty path segment"
  | InvalidName => "queue name must be one non-empty path segment"
  | MissingSchema => "missing schema identifier"
  end.

Inductive Error (E J : Type) :=
  | Configuration (e : BuildError)
  | Store (e : E)
  | Document (e : J)
  | Corrupt (reason : string)
  | NotFound
  | AlreadyExists (v : Version)
  | Conflict (expected : Version) (observed : option Version)
  | Incompatible (reason : string)
  | InvalidLeaseDuration
  | AttemptOverflow.
Arguments Configuration {E J} e.
Arguments Store {E J} e.
Arguments Document {E J} e.
Arguments Corrupt {E J} reason.
Arguments NotFound {E J}.
Arguments AlreadyExists {E J} v.
Arguments Conflict {E J} expected observed.
Arguments Incompatible {E J} reason.
Arguments InvalidLeaseDuration {E J}.
Arguments AttemptOverflow {E J}.

#[global] Instance Error_display {E J} `{!Display E, !Display J} :
    Display (Error E J) := λ e,
  match e with
  | Configuration error => "invalid configuration: " +:+ to_string error
  | Store error => "object store error: " +:+ to_string error
  | Document error => "could not process queue JSON: " +:+ to_string error
  | Corrupt reason => "persisted queue is corrupt: " +:+ reason
  | NotFound => "queue does not exist"
  | AlreadyExists _ => "queue already exists"
  | Conflict _ _ => "object version conflict"
  | Incompatible reason => "incompatible queue: " +:+ reason
  | InvalidLeaseDuration => "invalid lease duration"
  | AttemptOverflow => "message claim count overflowed"
  end.

(** The error an error wraps: configuration, backend or JSON. *)
Definition Error_source {E J} (e : Error E J) : option (BuildError + E + J) :=
  match e with
  | Configuration error => Some (inl (inl error))
  | Store error => Some (inl (inr error))
  | Document error => Some (inr error)
  | _ => None
  end.

Record Lease := MkLease { token : LeaseToken; expires_at_millis : N }.

Record Message (V : Type) := MkMessage {
  id : MessageId;
  value : V;
  attempts : N;
  lease : option Lease;
}.
Arguments MkMessage {V} id value attempts lease.
Arguments id {V} m.
Arguments value {V} m.
Arguments attempts {V} m.
Arguments lease {V} m.

#[global] Instance Lease_eq_dec : EqDecision Lease.
Proof. solve_decision. Defined.

#[global] Instance Message_eq_dec {V} `{EqDecision V} : EqDecision (Message V).
Proof. solve_decision. Defined.

(** The stored document. *)
Record QueueDocument (V : Type) := MkQueueDocument {
  format_version : N;
  kind : string;
  doc_schema : string;
  messages : list (Message V);
}.
Arguments MkQueueDocument {V}.
Arguments format_version {V} q.
Arguments kind {V} q.
Arguments doc_schema {V} q.
Arguments messages {V} q.

Definition set_messages {V} (d : QueueDocument V) (ms : list (Message V)) :
    QueueDocument V :=
  MkQueueDocument (format_version d) (kind d) (doc_schema d) ms.

(** The number messages are ordered by. *)
Definition key {V} (x : Message V) : N := message_uuid (id x).

Record Queue (S C : Type) := MkQueue {
  store : S; location : Location; schema : string; clock : C;
}.
Arguments MkQueue {S C} store location schema clock.
Arguments store {S C} q.
Arguments location {S C} q.
Arguments schema {S C} q.
Arguments clock {S C} q.

Definition map_create {E J} (error : CreateError E) : Error E J :=
  match error with
  | CreateAlreadyExists observed => AlreadyExists observed
  | CreateStore error => Store error
  end.

Section Operations.
Context {S C E J V : Type}.
Context `{!ToJson J (QueueDocument V), !FromJson J (QueueDocument V)}.
Implicit Types (m : Queue S C) (value : V).

Definition empty_bytes m : result bytes (Error E J) :=
  map_err Document
    (to_vec (MkQueueDocument FORMAT_VERSION KIND (schema m) ([] : list (Message V)))).

Definition read m : io E (result (Version * QueueDocument V) (Error E J)) :=
  let? object := prog_map_err Store (get (location m)) in
  let? object := Ret (ok_or object NotFound) in
  let? document := Ret (map_err Document (from_slice (object_bytes object))) in
  if negb (format_version document =? FORMAT_VERSION)%N then
    Ret (Err (Incompatible ("expected format version " +:+ to_string FORMAT_VERSION +:+
      ", observed " +:+ to_string (format_version document))))
  else if negb (String.eqb (kind document) KIND) then
    Ret (Err (Incompatible ("expected kind " +:+ KIND +:+ ", observed " +:+
      kind document)))
  else if negb (String.eqb (doc_schema document) (schema m)) then
    Ret (Err (Incompatible ("expected schema " +:+ schema m +:+ ", observed " +:+
      doc_schema document)))
  else if windows2_any (λ x y, (key y <=? key x)%N) (messages document) then
    Ret (Err (Corrupt "message IDs must be strictly increasing"))
  else Ret (Ok (object_version object, document)).

Definition write m (expected : Version) (document : QueueDocument V) :
    io E (result unit (Error E J)) :=
  let? b := Ret (map_err Document (to_vec document)) in
  let? _ := prog_map_err (λ error,
    match error with
    | ReplaceConflict observed => Conflict expected observed
    | ReplaceStore error => Store error
    end) (replace (location m) expected b) in
  Ret (Ok tt).

Definition publish m value : io E (result MessageId (Error E J)) :=
  let? ' (version, document) := read m in
  let! uuid := now_v7 in
  let id := MkMessageId uuid in
  let index := partition_point (λ message, (key message <? uuid)%N)
                 (messages document) in
  let! ms := or_panic (vec_insert index (MkMessage id value 0 None)
                         (messages document)) in
  let? _ := write m version (set_messages document ms) in
  Ret (Ok id).

Definition claim m (lease_duration : Duration) :
    io E (result (option (Claim V)) (Error E J)) :=
  let? lease_millis := Ret (ok_or
    (lease_millis ← try_from_unsigned u64_max (as_millis lease_duration);
     if (0 <? lease_millis)%N then Some lease_millis else None)
    InvalidLeaseDuration) in
  let! now := now_millis in
  let? deadline :=
    Ret (ok_or (checked_add u64_max now lease_millis) InvalidLeaseDuration) in
  let? ' (version, document) := read m in
  match position (λ message,
          match lease message with
          | None => true
          | Some lease => (expires_at_millis lease <=? now)%N
          end) (messages document) with
  | None => Ret (Ok None)
  | Some index =>
      let! uuid := now_v7 in
      let token := MkLeaseToken uuid in
      let! message := or_panic (messages document !! index) in
      let? count := Ret (ok_or (checked_add u32_max (attempts message) 1)
                              AttemptOverflow) in
      let message := MkMessage (id message) (value message) count
                       (Some (MkLease token deadline)) in
      let document := set_messages document (<[index := message]> (messages document)) in
      let? _ := write m version document in
      let! message := or_panic (messages document !! index) in
      Ret (Ok (Some (MkClaim (id message) (value message) token (attempts message)
                       deadline)))
  end.

Definition ack m (message : MessageId) (lease_token : LeaseToken) :
    io E (result Ack (Error E J)) :=
  let! now := now_millis in
  let? ' (version, document) := read m in
  match binary_search_by_key (message_uuid message) key (messages document) with
  | Err _ => Ret (Ok AckNotFound)
  | Ok index =>
      let! message := or_panic (messages document !! index) in
      match lease message with
      | None => Ret (Ok LeaseMismatch)
      | Some lease =>
          if negb (bool_decide (token lease = lease_token)) then Ret (Ok LeaseMismatch)
          else if (expires_at_millis lease <=? now)%N then Ret (Ok LeaseExpired)
          else
            let! ' (_, ms) := or_panic (vec_remove index (messages document)) in
            let? _ := write m version (set_messages document ms) in
            Ret (Ok Acknowledged)
      end
  end.

Definition len m : io E (result nat (Error E J)) :=
  let? ' (_, document) := read m in
  Ret (Ok (length (messages document))).

Definition is_empty m : io E (result bool (Error E J)) :=
  let? len := len m in
  Ret (Ok (len =? 0)).
End Operations.

(** ** Builder *)

Record QueueBuilder (S C : Type) := MkQueueBuilder {
  builder_store : S;
  builder_namespace : string;
  builder_name : string;
  builder_schema : option string;
  builder_clock : C;
}.
Arguments MkQueueBuilder {S C}.
Arguments builder_store {S C} q.
Arguments builder_namespace {S C} q.
Arguments builder_name {S C} q.
Arguments builder_schema {S C} q.
Arguments builder_clock {S C} q.

Inductive SystemClock := MkSystemClock.

Definition builder_new {S} (store : S) (namespace name : string) :
    QueueBuilder S SystemClock :=
  MkQueueBuilder store namespace name None MkSystemClock.

Definition with_schema {S C} (b : QueueBuilder S C) (schema : string) :
    QueueBuilder S C :=
  MkQueueBuilder (builder_store b) (builder_namespace b) (builder_name b) (Some schema)
    (builder_clock b).

Definition with_clock {S C D} (b : QueueBuilder S C) (clock : D) : QueueBuilder S D :=
  MkQueueBuilder (builder_store b) (builder_namespace b) (builder_name b)
    (builder_schema b) clock.

Definition finish {S C} (b : QueueBuilder S C) : result (Queue S C) BuildError :=
  if negb (is_path_segment (builder_namespace b)) then Err InvalidNamespace
  else if negb (is_path_segment (builder_name b)) then Err InvalidName
  else
    let* schema := ok_or (schema ← builder_schema b;
                          if String.eqb schema "" then None else Some schema)
                     MissingSchema in
    let* location := map_err (λ _, InvalidName)
      (location_structure (builder_namespace b) "queues" (builder_name b)) in
    Ok (MkQueue (builder_store b) location schema (builder_clock b)).

Section Builder.
Context {S C E J V : Type}.
Context `{!ToJson J (QueueDocument V), !FromJson J (QueueDocument V)}.
Implicit Types (b : QueueBuilder S C).

Definition create b : io E (result (Queue S C) (Error E J)) :=
  let? queue := Ret (map_err Configuration (finish b)) in
  let? doc := Ret (empty_bytes (V := V) queue) in
  let? _ := prog_map_err map_create (ObjectStore.create (location queue) doc) in
  Ret (Ok queue).

Definition open b : io E (result (Queue S C) (Error E J)) :=
  let? queue := Ret (map_err Configuration (finish b)) in
  let? _ := read (V := V) queue in
  Ret (Ok queue).

Definition open_or_create b : io E (result (Queue S C) (Error E J)) :=
  let? queue := Ret (map_err Configuration (finish b)) in
  let? object := prog_map_err Store (get (location queue)) in
  match object with
  | Some _ =>
      let? _ := read (V := V) queue in
      Ret (Ok queue)
  | None =>
      let? doc := Ret (empty_bytes (V := V) queue) in
      let! created := ObjectStore.create (location queue) doc in
      match created with
      | Ok _ => Ret (Ok queue)
      | Err (CreateAlreadyExists _) =>
          let? _ := read (V := V) queue in
          Ret (Ok queue)
      | Err (CreateStore error) => Ret (Err (Store error))
      end
  end.
End Builder.
End Queue.

(** ** Specification

    The operations as data, their outputs, and what each does to the list of
    messages, given the clock reading and the UUID it draws.  The reference
    definitions scan the list: they share no search with the source. *)

Inductive queue_op (V : Type) :=
  | QPublish (value : V)
  | QClaim (lease_duration : Duration)
  | QAck (id : Queue.MessageId) (token : Queue.LeaseToken)
  | QLen
  | QIsEmpty.
Arguments QPublish {V} value.
Arguments QClaim {V} lease_duration.
Arguments QAck {V} id token.
Arguments QLen {V}.
Arguments QIsEmpty {V}.

Inductive queue_output (V : Type) :=
  | OutPublished (id : Queue.MessageId)
  | OutClaim (c : option (Queue.Claim V))
  | OutAck (a : Queue.Ack)
  | OutLen (n : nat)
  | OutIsEmpty (b : bool).
Arguments OutPublished {V} id.
Arguments OutClaim {V} c.
Arguments OutAck {V} a.
Arguments OutLen {V} n.
Arguments OutIsEmpty {V} b.

(** Why an operation is refused without a write. *)
Inductive refusal := RefuseDuration | RefuseAttempts.

Inductive queue_effect (V : Type) :=
  | Refused (why : refusal)
  | Unchanged (out : queue_output V)
  | Updated (ms : list (Queue.Message V)) (out : queue_output V).
Arguments Refused {V} why.
Arguments Unchanged {V} out.
Arguments Updated {V} ms out.

(** No lease, or one whose exclusive deadline has passed. *)
Definition claimable {V} (now : N) (x : Queue.Message V) : bool :=
  match Queue.lease x with
  | None => true
  | Some l => (Queue.expires_at_millis l <=? now)%N
  end.

Definition claimed {V} (u : Uuid) (deadline : N) (x : Queue.Message V) : Queue.Message V :=
  Queue.MkMessage (Queue.id x) (Queue.value x) (Queue.attempts x + 1)
    (Some (Queue.MkLease (Queue.MkLeaseToken u) deadline)).

Fixpoint claim_messages {V} (now deadline : N) (u : Uuid) (ms : list (Queue.Message V)) :
    queue_effect V :=
  match ms with
  | [] => Unchanged (OutClaim None)
  | x :: ms =>
      if claimable now x then
        if (Queue.attempts x <? u32_max)%N then
          Updated (claimed u deadline x :: ms)
            (OutClaim (Some (Queue.MkClaim (Queue.id x) (Queue.value x)
                               (Queue.MkLeaseToken u) (Queue.attempts x + 1) deadline)))
        else Refused RefuseAttempts
      else
        match claim_messages now deadline u ms with
        | Updated ms' out => Updated (x :: ms') out
        | other => other
        end
  end.

(** The verdict on acknowledging a message with a token. *)
Definition ack_verdict {V} (now : N) (t : Queue.LeaseToken) (x : Queue.Message V) :
    Queue.Ack :=
  match Queue.lease x with
  | None => Queue.LeaseMismatch
  | Some l =>
      if decide (Queue.token l = t) then
        if (now <? Queue.expires_at_millis l)%N then Queue.Acknowledged
        else Queue.LeaseExpired
      else Queue.LeaseMismatch
  end.

Definition ack_messages {V} (now : N) (i : Queue.MessageId) (t : Queue.LeaseToken)
    (ms : list (Queue.Message V)) : queue_effect V :=
  match head (filter (λ x, Queue.id x = i) ms) with
  | None => Unchanged (OutAck Queue.AckNotFound)
  | Some x =>
      match ack_verdict now t x with
      | Queue.Acknowledged =>
          Updated (filter (λ x, Queue.id x ≠ i) ms) (OutAck Queue.Acknowledged)
      | verdict => Unchanged (OutAck verdict)
      end
  end.

Definition queue_model {V} (o : queue_op V) (now : N) (u : Uuid)
    (ms : list (Queue.Message V)) : queue_effect V :=
  match o with
  | QPublish value =>
      Updated (insert_sorted Queue.key
                 (Queue.MkMessage (Queue.MkMessageId u) value 0 None) ms)
        (OutPublished (Queue.MkMessageId u))
  | QClaim d =>
      if decide (0 < as_millis d ∧ now + as_millis d ≤ u64_max)%N then
        claim_messages now (now + as_millis d) u ms
      else Refused RefuseDuration
  | QAck i t => ack_messages now i t ms
  | QLen => Unchanged (OutLen (length ms))
  | QIsEmpty => Unchanged (OutIsEmpty (bool_decide (ms = [])))
  end.

Definition refusal_error {E J} (why : refusal) : Queue.Error E J :=
  match why with
  | RefuseDuration => Queue.InvalidLeaseDuration
  | RefuseAttempts => Queue.AttemptOverflow
  end.
