(* ===== verification/QueueRefinement.v ===== *)
(** * Work queue: refinement

    The source's searches compute the reference functions of [WorkQueue], every
    operation refines [queue_model], none panics, and opening a queue never damages
    it. *)

From S2P Require Import Prelude.
From S2P Require Import Program.
From S2P Require Import ObjectStore.
From S2P Require Import MemoryStore.
From S2P Require Import Json.
From S2P Require Import CoreTypes.
From S2P Require Import Lifecycle.
From S2P Require Import WorkQueue.

(** ** The contract of the operations *)

Section QueueSpec.
Context {S C E J V : Type}.
Context `{!ToJson J (Queue.QueueDocument V), !FromJson J (Queue.QueueDocument V)}.
Implicit Types (m : Queue.Queue S C) (ms : list (Queue.Message V)) (w : aworld)
  (b : bytes).

Definition queue_run m (o : queue_op V) :
    io E (result (queue_output V) (Queue.Error E J)) :=
  match o with
  | QPublish value => prog_map_ok OutPublished (Queue.publish m value)
  | QClaim d => prog_map_ok OutClaim (Queue.claim m d)
  | QAck i t => prog_map_ok OutAck (Queue.ack (V := V) m i t)
  | QLen => prog_map_ok OutLen (Queue.len (V := V) m)
  | QIsEmpty => prog_map_ok OutIsEmpty (Queue.is_empty (V := V) m)
  end.

Definition queue_decodes m b ms : Prop :=
  ∃ d : Queue.QueueDocument V, from_slice b = Ok d ∧
    Queue.format_version d = Queue.FORMAT_VERSION ∧ Queue.kind d = Queue.KIND ∧
    Queue.doc_schema d = Queue.schema m ∧ Queue.messages d = ms.

(** The store holds a valid queue [m] with these messages. *)
Definition queue_holds m (a : astore) ms : Prop :=
  sorted_by Queue.key ms ∧
  ∃ o, cur a !! Queue.location m = Some o ∧ queue_decodes m (object_bytes o) ms.

(** The outcome of one operation executed without interference, given what the
    model computes. *)
Definition queue_outcome spurious m (e : queue_effect V) w
    (r : result (queue_output V) (Queue.Error E J)) w' : Prop :=
  let applied ms := ∃ b v, issuable (aw_store w) (Queue.location m) b v ∧
    aw_store w' = put (Queue.location m) b v (aw_store w) ∧ queue_decodes m b ms in
  let untouched := aw_store w' = aw_store w in
  match e, r with
  | Refused why, Err (Queue.Store _) => untouched
  | Refused why, r => r = Err (refusal_error why) ∧ untouched
  | Unchanged out, Err (Queue.Store _) => untouched
  | Unchanged out, r => r = Ok out ∧ untouched
  | Updated ms out, Ok x => x = out ∧ applied ms
  | Updated ms out, Err (Queue.Store _) => untouched ∨ applied ms
  | Updated ms out, Err (Queue.Conflict _ _) => spurious = true ∧ untouched
  | Updated ms out, Err (Queue.Document e) =>
      untouched ∧
      to_vec (Queue.MkQueueDocument Queue.FORMAT_VERSION Queue.KIND (Queue.schema m) ms) =
        Err e
  | Updated ms out, Err _ => False
  end.
End QueueSpec.

(** ** Searches *)

Section Searches.
Context {V : Type}.
Implicit Types (ms : list (Queue.Message V)) (x : Queue.Message V) (now u : N).

(** The predicate the source gives to [position]. *)
Definition claim_search now x : bool :=
  match Queue.lease x with
  | None => true
  | Some lease => (Queue.expires_at_millis lease <=? now)%N
  end.

Lemma claim_messages_none now deadline u ms :
  position (claim_search now) ms = None →
  claim_messages now deadline u ms = Unchanged (OutClaim None).
Proof.
  rewrite position_None. induction 1 as [|x ms Hx _ IH]; simpl; [done|].
  unfold claimable. unfold claim_search in Hx. by rewrite Hx, IH.
Qed.

Lemma claim_messages_some now deadline u ms i x :
  position (claim_search now) ms = Some i → ms !! i = Some x →
  claim_messages now deadline u ms =
  if (Queue.attempts x <? u32_max)%N then
    Updated (<[i := claimed u deadline x]> ms)
      (OutClaim (Some (Queue.MkClaim (Queue.id x) (Queue.value x)
         (Queue.MkLeaseToken u) (Queue.attempts x + 1) deadline)))
  else Refused RefuseAttempts.
Proof.
  revert i. induction ms as [|y ms IH]; intros i; cbn [position claim_messages]; [done|].
  change (claimable now y) with (claim_search now y).
  destruct (claim_search now y) eqn:Hy; intros Hi Hx; simplify_eq/=; [done|].
  apply fmap_Some in Hi as (j & Hj & ->). rewrite (IH j Hj Hx).
  by destruct (Queue.attempts x <? u32_max)%N.
Qed.

Lemma id_key x i : Queue.id x = i ↔ Queue.key x = Queue.message_uuid i.
Proof. destruct x as [[] ???], i; unfold Queue.key; simpl. naive_solver. Qed.

Lemma filter_id_key ms i :
  filter (λ x, Queue.id x = i) ms =
  filter (λ x, Queue.key x = Queue.message_uuid i) ms.
Proof. apply list_filter_iff. intros x. apply id_key. Qed.

Lemma filter_not_id_key ms i :
  filter (λ x, Queue.id x ≠ i) ms =
  filter (λ x, Queue.key x ≠ Queue.message_uuid i) ms.
Proof. apply list_filter_iff. intros x. by rewrite id_key. Qed.

Lemma ack_messages_absent now i t ms j :
  sorted_by Queue.key ms →
  binary_search_by_key (Queue.message_uuid i) Queue.key ms = Err j →
  ack_messages now i t ms = Unchanged (OutAck Queue.AckNotFound).
Proof.
  intros Hs (_ & Hlt & Hgt)%binary_search_by_key_Err; [|done].
  unfold ack_messages. rewrite filter_id_key, find_absent; [done|].
  by eapply Forall_lt_absent.
Qed.

Lemma ack_messages_present now i t ms j x :
  sorted_by Queue.key ms → ms !! j = Some x → Queue.key x = Queue.message_uuid i →
  ack_messages now i t ms =
  match ack_verdict now t x with
  | Queue.Acknowledged =>
      Updated (take j ms ++ drop (S j) ms) (OutAck Queue.Acknowledged)
  | verdict => Unchanged (OutAck verdict)
  end.
Proof.
  intros Hs Hx Hk. unfold ack_messages.
  rewrite filter_id_key, filter_not_id_key, <-Hk, (sorted_by_find _ _ x) by
    eauto using list_elem_of_lookup_2.
  by rewrite (filter_ne_remove _ _ j x).
Qed.
End Searches.

(** ** Reading and writing *)

Section QueueFacts.
Context {S C E J V : Type}.
Context `{!ToJson J (Queue.QueueDocument V), !FromJson J (Queue.QueueDocument V)}.
Context (spurious : bool).
Implicit Types (m : Queue.Queue S C) (ms : list (Queue.Message V)) (w : aworld)
  (b : bytes).

(** What [read] makes of the object it found. *)
Definition queue_observed m (object : option Object) :
    result (Version * Queue.QueueDocument V) (Queue.Error E J) :=
  let* o := ok_or object Queue.NotFound in
  let* d := map_err Queue.Document (from_slice (object_bytes o)) in
  if negb (Queue.format_version d =? Queue.FORMAT_VERSION)%N then
    Err (Queue.Incompatible ("expected format version 1, observed " +:+
      to_string (Queue.format_version d)))
  else if negb (String.eqb (Queue.kind d) Queue.KIND) then
    Err (Queue.Incompatible ("expected kind queue, observed " +:+ Queue.kind d))
  else if negb (String.eqb (Queue.doc_schema d) (Queue.schema m)) then
    Err (Queue.Incompatible ("expected schema " +:+ Queue.schema m +:+ ", observed " +:+
      Queue.doc_schema d))
  else if windows2_any (λ x y, (Queue.key y <=? Queue.key x)%N) (Queue.messages d) then
    Err (Queue.Corrupt "message IDs must be strictly increasing")
  else Ok (object_version o, d).

Lemma queue_read_reads m :
  reads_object Queue.Store (Queue.location m) (queue_observed m) (Queue.read m).
Proof. solve_object_protocol queue_observed. Qed.

Lemma exec_queue_read m w (r : result _ (Queue.Error E J)) w' :
  exec (world_step spurious) w (Queue.read m) r w' ↔
  w' = w ∧ (r = queue_observed m (cur (aw_store w) !! Queue.location m) ∨
            ∃ e, r = Err (Queue.Store e)).
Proof. apply exec_reads_object, queue_read_reads. Qed.

Lemma queue_observed_holds m a ms :
  queue_holds m a ms →
  ∃ o d, cur a !! Queue.location m = Some o ∧ Queue.messages d = ms ∧
    queue_observed m (cur a !! Queue.location m) = Ok (object_version o, d) ∧
    Queue.format_version d = Queue.FORMAT_VERSION ∧ Queue.kind d = Queue.KIND ∧
    Queue.doc_schema d = Queue.schema m.
Proof.
  intros (Hsort & o & Ho & d & Hd & Hv & Hk & Hs & He). exists o, d.
  rewrite Ho. unfold queue_observed. simpl. rewrite Hd. simpl.
  rewrite Hv, Hk, Hs, N.eqb_refl, !String.eqb_refl. simpl.
  rewrite (proj2 (windows2_any_sorted_by Queue.key _)) by (by rewrite He). done.
Qed.

Lemma queue_observed_Ok m a x :
  queue_observed m (cur a !! Queue.location m) = Ok x →
  queue_holds (J := J) m a (Queue.messages x.2).
Proof.
  unfold queue_observed. destruct (cur a !! _) as [o|] eqn:Ho; simpl; [|done].
  destruct (from_slice _) as [d|e] eqn:Hd; simpl; [|done].
  destruct (N.eqb_spec (Queue.format_version d) Queue.FORMAT_VERSION); simpl; [|done].
  destruct (String.eqb_spec (Queue.kind d) Queue.KIND); simpl; [|done].
  destruct (String.eqb_spec (Queue.doc_schema d) (Queue.schema m)); simpl; [|done].
  destruct (windows2_any _ _) eqn:Hw; [done|]. intros; simplify_eq/=.
  split; [by apply windows2_any_sorted_by|]. exists o. split; [done|]. by exists d.
Qed.

(** An operation that reads and continues, executed where the queue holds [ms]. *)
Lemma exec_queue_read_bind {A} m w ms (f : _ → io E (result A (Queue.Error E J))) r w' :
  queue_holds m (aw_store w) ms →
  exec (world_step spurious) w (try_bind f (Queue.read m)) r w' →
  (∃ e, r = Err (Queue.Store e) ∧ w' = w) ∨
  ∃ o d, cur (aw_store w) !! Queue.location m = Some o ∧ Queue.messages d = ms ∧
    (∀ ms', to_vec (J := J) (Queue.set_messages d ms') =
       to_vec (Queue.MkQueueDocument Queue.FORMAT_VERSION Queue.KIND (Queue.schema m) ms')) ∧
    exec (world_step spurious) w (f (object_version o, d)) r w'.
Proof.
  intros Hh Hx.
  destruct (queue_observed_holds m _ ms Hh) as (o & d & Ho & He & Hobs & Hv & Hk & Hs).
  apply (exec_reads_object_bind _ _ _ _ _ _ _ _ _ (queue_read_reads m)) in Hx
    as [(e & -> & ->)|Hx]; [by eauto|].
  rewrite Hobs in Hx. right. exists o, d. split_and!; try done. intros ms'.
  unfold Queue.set_messages. by rewrite Hv, Hk, Hs.
Qed.

Context `{!JsonRoundTrip (J := J) (D := Queue.QueueDocument V) id}.

Lemma queue_decodes_written m ms b :
  to_vec (Queue.MkQueueDocument Queue.FORMAT_VERSION Queue.KIND (Queue.schema m) ms) = Ok b →
  queue_decodes (J := J) m b ms.
Proof. intros Hb%(json_round_trip (f := id)). by eexists. Qed.

(** A mutation that ends by writing [ms'] and returning [x], in any world whose
    store is the one read. *)
Lemma exec_queue_write {A} (inj : A → queue_output V) m w0 w o d ms' out
    (r : result A (Queue.Error E J)) w' :
  aw_store w = aw_store w0 →
  cur (aw_store w) !! Queue.location m = Some o →
  (∀ ms', to_vec (J := J) (Queue.set_messages d ms') =
     to_vec (Queue.MkQueueDocument Queue.FORMAT_VERSION Queue.KIND (Queue.schema m) ms')) →
  exec (world_step spurious) w
    (let? _ := Queue.write m (object_version o) (Queue.set_messages d ms') in
     Ret (Ok out)) r w' →
  queue_outcome spurious m (Updated ms' (inj out)) w0 (map_ok inj r) w' ∧
  aw_uuids w' = aw_uuids w ∧ aw_clock w' = aw_clock w.
Proof.
  intros Hw Ho Hd. unfold Queue.write. rewrite Hd, Hw in *.
  destruct (to_vec _) as [b|e] eqn:Hb; cbn [map_err];
    [|rewrite !try_bind_Err; by intros [-> ->]].
  apply queue_decodes_written in Hb. rewrite try_bind_Ok. intros Hx.
  apply exec_try_bind in Hx as [([] & w1 & Hx & [-> ->])|(e & Hx & ->)];
    apply exec_try_bind in Hx as [(v & w2 & Hx & Hx')|(e' & Hx & Hx')];
    apply exec_prog_map_err in Hx as (r0 & Hx & Hr);
    apply exec_replace in Hx as (a' & Hs & ->); rewrite Hw in Hs; simpl in *;
    destruct r0 as [v0|[obs|e0]]; simpl in *; simplify_eq/=;
    try (destruct Hx' as [Hx'1 Hx'2]; simplify_eq/=); try done.
  - destruct Hs as (_ & Hf & ->). split; [|done]. split; [done|]. by exists b, v0.
  - destruct Hs as [-> Hs]. split; [|done]. split; [|done].
    destruct spurious; [done|]. destruct Hs as [-> Hs]; [done|].
    rewrite Ho in Hs. done.
  - split; [|done]. destruct Hs as [->|(_ & v & Hf & ->)]; [by left|right].
    by exists b, v.
Qed.

(** The inputs of the model are those drawn, or it does not depend on them. *)
Definition drawn {A B} (xs : list A) (x : A) (f : A → B) : Prop :=
  xs = [x] ∨ (xs = [] ∧ ∀ y, f y = f x).

Definition queue_refines m (o : queue_op V) ms w
    (r : result (queue_output V) (Queue.Error E J)) w' : Prop :=
  ((∃ e, r = Err (Queue.Store e)) ∧ aw_store w' = aw_store w) ∨
  ∃ now u cs us,
    aw_clock w' = aw_clock w ++ cs ∧ drawn cs now (λ now, queue_model o now u ms) ∧
    aw_uuids w' = aw_uuids w ++ us ∧ drawn us u (λ u, queue_model o now u ms) ∧
    ((∀ v, o = QPublish v → u ∉ Queue.key <$> ms) →
     queue_outcome spurious m (queue_model o now u ms) w r w').

Lemma refines_untouched m o ms w (r : result (queue_output V) (Queue.Error E J)) w' :
  (∀ now u, queue_outcome spurious m (queue_model o 0 0 ms) w r w' ∧
            queue_model o now u ms = queue_model o 0 0 ms) →
  aw_clock w' = aw_clock w → aw_uuids w' = aw_uuids w →
  queue_refines m o ms w r w'.
Proof.
  intros Hm Hc Hu. right. exists 0%N, 0%N, [], [].
  rewrite !app_nil_r. split_and!; [done| |done| |].
  - right. split; [done|]. intros now. apply (Hm now 0%N).
  - right. split; [done|]. intros u. apply (Hm 0%N u).
  - intros _. apply (Hm 0%N 0%N).
Qed.

Lemma publish_refines m v ms w r0 w' :
  queue_holds m (aw_store w) ms →
  exec (world_step spurious) w (Queue.publish m v) r0 w' →
  queue_refines m (QPublish v) ms w (map_ok OutPublished r0) w'.
Proof.
  intros Hh Hx. pose proof Hh as [Hsort _].
  (eapply exec_queue_read_bind in Hx; [|done]).
  destruct Hx as [(e & -> & ->)|(o & d & Ho & <- & Hd & Hx)]; [left; by eauto|].
  apply exec_bind in Hx as (u & w1 & ->%exec_now_v7 & Hx). cbv zeta in Hx.
  right. exists 0%N, u, [], [u].
  destruct (decide (u ∈ Queue.key <$> Queue.messages d)) as [Hu|Hu].
  - apply exec_bind in Hx as (ms' & w2 & Hi & Hx).
    destruct (vec_insert _ _ _) as [ms''|]; [|done]. destruct Hi as [-> ->].
    eapply (exec_queue_write OutPublished m w) in Hx as (_ & Hus & Hcs); [|done..].
    rewrite Hus, Hcs. simpl. rewrite app_nil_r.
    split_and!; [done|by right|done|by left|]. intros Hf. by destruct (Hf v eq_refl).
  - rewrite (partition_point_insert Queue.key
      (Queue.MkMessage (Queue.MkMessageId u) v 0 None)) in Hx by done.
    cbn [or_panic prog_bind] in Hx.
    eapply (exec_queue_write OutPublished m w) in Hx as (Hout & Hus & Hcs); [|done..].
    rewrite Hus, Hcs. simpl. rewrite app_nil_r.
    split_and!; [done|by right|done|by left|]. intros _. done.
Qed.

Lemma lease_millis_spec d :
  (lease_millis ← try_from_unsigned u64_max (as_millis d);
   if (0 <? lease_millis)%N then Some lease_millis else None) =
  if decide (0 < as_millis d ∧ as_millis d ≤ u64_max)%N then Some (as_millis d) else None.
Proof.
  unfold try_from_unsigned. destruct (N.leb_spec (as_millis d) u64_max); simpl;
    [destruct (N.ltb_spec 0 (as_millis d))|]; case_decide; done || lia.
Qed.

Lemma claim_refines m dur ms w r0 w' :
  queue_holds m (aw_store w) ms →
  exec (world_step spurious) w (Queue.claim m dur) r0 w' →
  queue_refines m (QClaim dur) ms w (map_ok OutClaim r0) w'.
Proof.
  intros Hh Hx. unfold Queue.claim in Hx. rewrite lease_millis_spec in Hx.
  case_decide as Hdur; cbn [ok_or] in Hx.
  2: { rewrite try_bind_Err in Hx. destruct Hx as [-> ->].
    apply refines_untouched; [|done..]. intros now u. unfold queue_model.
    rewrite !decide_False by lia. done. }
  rewrite try_bind_Ok in Hx.
  apply exec_bind in Hx as (now & w1 & ->%exec_now_millis & Hx).
  destruct (checked_add u64_max now (as_millis dur)) as [dl|] eqn:Hdl;
    cbn [ok_or] in Hx.
  2: { apply checked_add_None in Hdl. rewrite try_bind_Err in Hx. destruct Hx as [-> ->].
    assert (∀ u, queue_model (QClaim dur) now u ms = Refused RefuseDuration) as Hm
      by (intros u; simpl; by rewrite decide_False by lia).
    right. exists now, 0%N, [now], []. simpl aw_clock. simpl aw_uuids.
    rewrite app_nil_r, Hm.
    split_and!; [done|by left|done| |done]. right. split; [done|]. intros u. by rewrite !Hm. }
  apply checked_add_Some in Hdl as [-> Hdl]. rewrite try_bind_Ok in Hx.
  (eapply exec_queue_read_bind in Hx; [|done]).
  destruct Hx as [(e & -> & ->)|(o & d & Ho & <- & Hd & Hx)]; [left; by eauto|].
  right. fold (claim_search (V := V) now) in Hx.
  assert (∀ u, queue_model (QClaim dur) now u (Queue.messages d) =
               claim_messages now (now + as_millis dur) u (Queue.messages d)) as Hm
    by (intros u; simpl; by rewrite decide_True by lia).
  destruct (position (claim_search now) (Queue.messages d)) as [i|] eqn:Hpos.
  2: { destruct Hx as [-> ->]. exists now, 0%N, [now], [].
    simpl aw_clock. simpl aw_uuids. rewrite app_nil_r.
    split_and!; [done|by left|done| |].
    - right. split; [done|]. intros u. by rewrite !Hm, !claim_messages_none.
    - intros _. by rewrite Hm, claim_messages_none. }
  apply exec_bind in Hx as (u & w2 & ->%exec_now_v7 & Hx). cbv zeta in Hx.
  destruct (proj1 (position_Some _ _ _) Hpos) as [(x & Hlook & _) _].
  rewrite Hlook in Hx. cbn [or_panic prog_bind] in Hx.
  exists now, u, [now], [u].
  rewrite Hm, (claim_messages_some now _ u _ i x) by done.
  unfold checked_add in Hx. destruct (N.leb_spec (Queue.attempts x + 1) u32_max) as [Ha|Ha];
    cbn [ok_or] in Hx.
  - rewrite try_bind_Ok in Hx. rewrite (proj2 (N.ltb_lt _ _)) by lia.
    cbn [Queue.messages Queue.set_messages] in Hx.
    rewrite list_lookup_insert_eq in Hx by (by eapply lookup_lt_Some).
    cbn [or_panic prog_bind] in Hx.
    eapply (exec_queue_write OutClaim m w) in Hx as (Hout & Hus & Hcs); [|done..].
    rewrite Hus, Hcs. split_and!; [done|by left|done|by left|]. intros _. exact Hout.
  - rewrite try_bind_Err in Hx. destruct Hx as [-> ->].
    rewrite (proj2 (N.ltb_ge _ _)) by lia.
    split_and!; [done|by left|done|by left|]. done.
Qed.

Lemma ack_refines m i t ms w r0 w' :
  queue_holds m (aw_store w) ms →
  exec (world_step spurious) w (Queue.ack (V := V) m i t) r0 w' →
  queue_refines m (QAck i t) ms w (map_ok OutAck r0) w'.
Proof.
  intros Hh Hx. pose proof Hh as [Hsort _].
  apply exec_bind in Hx as (now & w1 & ->%exec_now_millis & Hx).
  (eapply exec_queue_read_bind in Hx; [|done]).
  destruct Hx as [(e & -> & ->)|(o & d & Ho & <- & Hd & Hx)]; [left; by eauto|].
  right. exists now, 0%N, [now], []. unfold queue_model.
  destruct (binary_search_by_key _ _ _) as [j|j] eqn:Hj.
  2: { destruct Hx as [-> ->]. simpl. rewrite app_nil_r.
    rewrite (ack_messages_absent now i t _ j) by done.
    split_and!; [done|by left|done|by right|done]. }
  apply binary_search_by_key_Ok in Hj as (x & Hlook & Hk); [|done].
  rewrite (ack_messages_present now i t _ j x) by done.
  rewrite Hlook in Hx. cbn [or_panic prog_bind] in Hx. unfold ack_verdict.
  destruct (Queue.lease x) as [l|].
  2: { destruct Hx as [-> ->]. simpl. rewrite app_nil_r.
    split_and!; [done|by left|done|by right|done]. }
  destruct (decide (Queue.token l = t)) as [Ht|Ht].
  2: { rewrite bool_decide_eq_false_2 in Hx by done. destruct Hx as [-> ->].
    simpl. rewrite app_nil_r. split_and!; [done|by left|done|by right|done]. }
  rewrite bool_decide_eq_true_2 in Hx by done. cbn [negb] in Hx.
  rewrite N.leb_antisym in Hx.
  destruct (now <? Queue.expires_at_millis l)%N; cbn [negb] in Hx.
  2: { destruct Hx as [-> ->]. simpl. rewrite app_nil_r.
    split_and!; [done|by left|done|by right|done]. }
  assert (vec_remove j (Queue.messages d) =
          Some (x, take j (Queue.messages d) ++ drop (j + 1) (Queue.messages d))) as Hrem
    by (rewrite Nat.add_1_r; by apply vec_remove_Some).
  rewrite Hrem in Hx. cbn [or_panic prog_bind] in Hx.
  eapply (exec_queue_write OutAck m w) in Hx as (Hout & Hus & Hcs); [|done..].
  rewrite Hus, Hcs, app_nil_r. rewrite Nat.add_1_r in Hout.
  split_and!; [done|by left|done|by right|]. intros _. exact Hout.
Qed.

Lemma queue_run_refines m (o : queue_op V) ms w r w' :
  queue_holds m (aw_store w) ms →
  exec (world_step spurious) w (queue_run m o) r w' →
  queue_refines m o ms w r w'.
Proof.
  intros Hh Hx. destruct o as [v|dur|i t| |]; cbn [queue_run] in Hx;
    apply exec_prog_map_ok in Hx as (r0 & Hx & ->).
  - by apply publish_refines.
  - by apply claim_refines.
  - by apply ack_refines.
  - (eapply exec_queue_read_bind in Hx; [|done]).
    destruct Hx as [(e & -> & ->)|(o & d & Ho & <- & Hd & [-> ->])]; [left; by eauto|].
    by apply refines_untouched.
  - apply exec_try_bind in Hx as [(n & w1 & Hx & [-> ->])|(e & Hx & ->)];
      (eapply exec_queue_read_bind in Hx; [|done]);
      destruct Hx as [(e' & He & ->)|(o & d & Ho & <- & Hd & [? ->])]; simplify_eq/=.
    + apply refines_untouched; [|done..]. intros now u. split; [|done]. split; [|done].
      do 2 f_equal. by destruct (Queue.messages d).
    + left. eauto.
Qed.
End QueueFacts.

Section QueueAdapter.
Context {St S C E J V : Type} `{StoreContract St E} (env : Env).
Context `{!ToJson J (Queue.QueueDocument V), !FromJson J (Queue.QueueDocument V)}.
Context `{!JsonRoundTrip (J := J) (D := Queue.QueueDocument V) id}.

(** C23: each queue operation, run against any adapter that implements the store
    contract and holds the queue, refines [queue_model] at exactly the clock
    reading and the UUID it drew: a refusal and a read-only outcome leave the store
    alone, a mutation writes a document with exactly the model's messages under a
    new version and returns the model's output, and every error leaves the queue
    unchanged except a backend failure of the write, which applies all of the
    mutation or none.  A publication's identifier must be new to the queue. *)
Theorem queue_operation_refines_model (m : Queue.Queue S C) (o : queue_op V) ms
    (w : world St) aw r w' :
  world_sim env w aw → queue_holds (J := J) m (aw_store aw) ms →
  run (handle env) (queue_run (J := J) m o) w = Some (r, w') →
  ∃ aw', world_sim env w' aw' ∧ queue_refines contract_spurious m o ms aw r aw'.
Proof.
  intros Hw Hh (aw' & Hx & Hw')%(run_handle_exec env _ _ aw); [|done].
  exists aw'. split; [done|]. by apply queue_run_refines.
Qed.
End QueueAdapter.

(** ** Panics *)

Section QueuePanics.
Context {S C E J V : Type}.
Context `{!ToJson J (Queue.QueueDocument V), !FromJson J (Queue.QueueDocument V)}.
Implicit Types (m : Queue.Queue S C).

Lemma queue_read_panic_free m : panic_free (Queue.read (E := E) (J := J) (V := V) m).
Proof.
  destruct (queue_read_reads (E := E) (J := J) (V := V) m) as (k & -> & Hk).
  intros r. by rewrite Hk.
Qed.

Lemma queue_read_bind_panic_free {A} m (f : _ → io E (result A (Queue.Error E J))) :
  (∀ x, panic_free (f x)) → panic_free (try_bind f (Queue.read (V := V) m)).
Proof. intros Hf. apply panic_free_try_bind; [apply queue_read_panic_free|done]. Qed.

Lemma queue_write_bind_panic_free {A} m v (d : Queue.QueueDocument V)
    (f : _ → io E (result A (Queue.Error E J))) :
  (∀ x, panic_free (f x)) → panic_free (try_bind f (Queue.write m v d)).
Proof.
  intros Hf. apply panic_free_try_bind; [|done]. unfold Queue.write.
  destruct (to_vec d) as [b|e]; [|done]. by intros [?|[?|?]].
Qed.

Lemma publish_panic_free m (v : V) : panic_free (Queue.publish (E := E) (J := J) m v).
Proof.
  apply queue_read_bind_panic_free. intros [v0 d]. apply panic_free_bind; [done|].
  intros u. cbv zeta. apply panic_free_bind.
  - apply panic_free_or_panic, vec_insert_is_Some, partition_point_bound.
  - intros ms. by apply queue_write_bind_panic_free.
Qed.

Lemma claim_panic_free m d : panic_free (Queue.claim (E := E) (J := J) (V := V) m d).
Proof.
  unfold Queue.claim. rewrite lease_millis_spec.
  case_decide; cbn [ok_or]; [rewrite try_bind_Ok|done].
  apply panic_free_bind; [done|]. intros now.
  destruct (checked_add _ _ _) as [dl|]; cbn [ok_or]; [rewrite try_bind_Ok|done].
  apply queue_read_bind_panic_free. intros [v0 doc].
  fold (claim_search (V := V) now).
  destruct (position _ _) as [i|] eqn:Hpos; [|done].
  apply panic_free_bind; [done|]. intros u. cbv zeta.
  destruct (proj1 (position_Some _ _ _) Hpos) as [(x & Hx & _) _].
  rewrite Hx. cbn [or_panic prog_bind].
  destruct (checked_add _ _ _) as [k|]; cbn [ok_or]; [rewrite try_bind_Ok|done].
  apply queue_write_bind_panic_free. intros _.
  cbn [Queue.messages Queue.set_messages].
  by rewrite list_lookup_insert_eq by (by eapply lookup_lt_Some).
Qed.

Lemma ack_panic_free m i t : panic_free (Queue.ack (E := E) (J := J) (V := V) m i t).
Proof.
  apply panic_free_bind; [done|]. intros now.
  apply queue_read_bind_panic_free. intros [v0 d]. unfold binary_search_by_key.
  pose proof (binary_search_by_bound (λ x, Queue.key x ?= Queue.message_uuid i)%N
                (Queue.messages d)) as Hb.
  destruct (binary_search_by _ _) as [j|j]; [|done].
  destruct (lookup_lt_is_Some_2 _ _ Hb) as [x Hx]. rewrite Hx. cbn [or_panic prog_bind].
  destruct (Queue.lease x) as [l|]; [|done]. repeat case_match; try done.
  apply panic_free_bind; [by apply panic_free_or_panic, vec_remove_is_Some|].
  intros [x' ms]. by apply queue_write_bind_panic_free.
Qed.

(** No queue operation can panic, whatever the document, the clock, the UUIDs
    and the replies of the store: the lease arithmetic and the attempt counter are
    checked, and every index is in range. *)
Lemma queue_operations_panic_free m (o : queue_op V) :
  panic_free (queue_run (E := E) (J := J) m o).
Proof.
  destruct o as [v|d|i t| |]; cbn [queue_run]; (apply panic_free_bind; [|done]).
  - apply publish_panic_free.
  - apply claim_panic_free.
  - apply ack_panic_free.
  - apply queue_read_bind_panic_free. by intros [].
  - apply panic_free_try_bind; [|done]. apply queue_read_bind_panic_free. by intros [].
Qed.
End QueuePanics.

(** ** Opening a queue *)

Section QueueLifecycle.
Context {S C E J V : Type}.
Context `{!ToJson J (Queue.QueueDocument V), !FromJson J (Queue.QueueDocument V)}.
Context `{!JsonRoundTrip (J := J) (D := Queue.QueueDocument V) id}.
Context (spurious : bool).
Implicit Types (m : Queue.Queue S C) (ms : list (Queue.Message V)) (w : aworld).

Lemma queue_holds_created m b w v w' :
  Queue.empty_bytes (E := E) (J := J) (V := V) m = Ok b →
  wrote w (Queue.location m) b v w' →
  queue_holds (J := J) m (aw_store w') ([] : list (Queue.Message V)).
Proof.
  unfold Queue.empty_bytes. rewrite map_err_Ok. intros Hb%queue_decodes_written [_ ->].
  split; [constructor|]. eexists. simpl. by rewrite lookup_insert_eq.
Qed.

(** Reading and returning the handle. *)
Lemma exec_open_read m w (r : result (Queue.Queue S C) (Queue.Error E J)) w' :
  exec (world_step spurious) w (let? _ := Queue.read (V := V) m in Ret (Ok m)) r w' →
  w' = w ∧
  match r with
  | Ok m' => m' = m ∧ ∃ ms : list (Queue.Message V), queue_holds (J := J) m (aw_store w) ms ∧
               is_Some (cur (aw_store w) !! Queue.location m)
  | Err _ => True
  end.
Proof.
  intros [(x & w1 & Hx & -> & ->)|(e & Hx & ->)]%exec_try_bind;
    apply exec_queue_read in Hx as [-> Hx]; [|done].
  destruct Hx as [Hx|[s ?]]; [|done]. symmetry in Hx. split_and!; [done..|].
  exists (Queue.messages x.2). split; [by eapply queue_observed_Ok|].
  by destruct (cur (aw_store w) !! Queue.location m).
Qed.

(** [open_or_create] on a queue never touches an existing object: on success
    the store holds a valid queue, empty if there was no object; on failure the
    store is unchanged, or a backend failure left the empty queue created. *)
Lemma queue_open_or_create_safe b m w (r : result (Queue.Queue S C) (Queue.Error E J)) w' :
  Queue.finish b = Ok m →
  exec (world_step spurious) w (Queue.open_or_create (V := V) b) r w' →
  (is_Some (cur (aw_store w) !! Queue.location m) → w' = w) ∧
  match r with
  | Ok m' =>
      m' = m ∧ ∃ ms : list (Queue.Message V), queue_holds (J := J) m (aw_store w') ms ∧
        (cur (aw_store w) !! Queue.location m = None → ms = [])
  | Err _ =>
      w' = w ∨ (cur (aw_store w) !! Queue.location m = None ∧
                queue_holds (J := J) m (aw_store w') ([] : list (Queue.Message V)))
  end.
Proof.
  intros Hfin. unfold Queue.open_or_create. rewrite Hfin. cbn [map_err].
  rewrite try_bind_Ok, exec_try_bind.
  setoid_rewrite exec_prog_map_err. setoid_rewrite exec_get.
  intros [(o & w1 & (r0 & [-> Hr0] & Hr) & Hx)|(e & (r0 & [-> _] & _) & ->)];
    [|by split; [|left]].
  assert (∀ r w', exec (world_step spurious) w
            (let? _ := Queue.read (E := E) (J := J) (V := V) m in Ret (Ok m)) r w' →
            w' = w ∧ match r with
                     | Ok m' => m' = m ∧ ∃ ms : list (Queue.Message V),
                         queue_holds (J := J) m (aw_store w) ms ∧
                         (cur (aw_store w) !! Queue.location m = None → ms = [])
                     | Err _ => True end) as Hopen.
  { intros r1 w1 [-> Hr1]%exec_open_read. split; [done|]. destruct r1 as [m'|]; [|done].
    destruct Hr1 as (-> & ms & Hms & [o' Ho']). split; [done|]. exists ms.
    split; [done|]. by rewrite Ho'. }
  destruct o as [o|].
  { apply Hopen in Hx as [-> Hx]. split; [done|]. destruct r; [done|by left]. }
  destruct Hr0 as [->|[e ->]]; [|done]. simpl in Hr. simplify_eq.
  destruct (Queue.empty_bytes m) as [doc|e] eqn:Hdoc;
    [rewrite try_bind_Ok in Hx|rewrite try_bind_Err in Hx].
  2: { destruct Hx as [-> ->]. by split; [|left]. }
  rewrite <-Hr. split; [by intros []|].
  apply exec_bind in Hx as (r1 & w1 & (a' & Hs & ->)%exec_create & Hx).
  destruct r1 as [v|[ob|e]]; simpl in Hs.
  - destruct Hx as [-> ->], Hs as (_ & Hf & ->). split; [done|]. exists [].
    split; [|done]. by eapply (queue_holds_created m doc w v).
  - destruct Hs as [-> _]. rewrite set_store_id in Hx. apply Hopen in Hx as [-> Hx].
    rewrite <-Hr in Hx. destruct r; [done|by left].
  - destruct Hx as [-> ->]. destruct Hs as [->|(_ & v & Hf & ->)].
    + left. apply set_store_id.
    + right. split; [done|]. by eapply (queue_holds_created m doc w v).
Qed.
End QueueLifecycle.
