(* ===== verification/QueueHistory.v ===== *)
(** * Work queue: histories

    What the queue promises over time.  A history is a sequence of operations
    applied one after another to a queue created empty ([history], by rules), each
    with its clock reading, its UUID and its output; the clock need not be
    monotone.  [Concurrent] shows that the operations of concurrent workers take
    effect as such a sequence.  The only assumption is that an identifier generated
    for a publication was not published before. *)

From S2P Require Import Prelude.
From S2P Require Import ObjectStore.
From S2P Require Import WorkQueue.

(** ** One operation on the messages *)

Section Effects.
Context {V : Type}.
Implicit Types (ms : list (Queue.Message V)) (x y : Queue.Message V) (now u : N)
  (i : Queue.MessageId).

Definition effect_messages (e : queue_effect V) ms : list (Queue.Message V) :=
  match e with Updated ms' _ => ms' | _ => ms end.

Definition effect_output (e : queue_effect V) : option (queue_output V) :=
  match e with Updated _ out | Unchanged out => Some out | Refused _ => None end.

(** Where a claim that finds something finds it. *)
Lemma claim_messages_split now deadline u ms :
  (Forall (λ x, claimable now x = false) ms ∧
   claim_messages now deadline u ms = Unchanged (OutClaim None)) ∨
  ∃ pre x post, ms = pre ++ x :: post ∧
    Forall (λ y, claimable now y = false) pre ∧ claimable now x = true ∧
    claim_messages now deadline u ms =
    if (Queue.attempts x <? u32_max)%N then
      Updated (pre ++ claimed u deadline x :: post)
        (OutClaim (Some (Queue.MkClaim (Queue.id x) (Queue.value x)
           (Queue.MkLeaseToken u) (Queue.attempts x + 1) deadline)))
    else Refused RefuseAttempts.
Proof.
  induction ms as [|y ms IH]; simpl; [by left|].
  destruct (claimable now y) eqn:Hy; [right; by exists [], y, ms|].
  destruct IH as [[Hall ->]|(pre & x & post & -> & Hpre & Hx & ->)].
  - left. by split; [constructor|].
  - right. exists (y :: pre), x, post. split_and!; [done|by constructor|done|].
    by destruct (Queue.attempts x <? u32_max)%N.
Qed.

(** A claim where no message is available, and one of the first that is. *)
Lemma claim_messages_empty now deadline u ms :
  Forall (λ x, claimable now x = false) ms →
  claim_messages now deadline u ms = Unchanged (OutClaim None).
Proof. induction 1 as [|x ms Hx _ IH]; simpl; [done|]. by rewrite Hx, IH. Qed.

Lemma claim_messages_first now deadline u pre x post :
  Forall (λ y, claimable now y = false) pre → claimable now x = true →
  (Queue.attempts x < u32_max)%N →
  claim_messages now deadline u (pre ++ x :: post) =
  Updated (pre ++ claimed u deadline x :: post)
    (OutClaim (Some (Queue.MkClaim (Queue.id x) (Queue.value x)
       (Queue.MkLeaseToken u) (Queue.attempts x + 1) deadline))).
Proof.
  intros Hpre Hx Ha. induction Hpre as [|y pre Hy _ IH]; simpl.
  - by rewrite Hx, (proj2 (N.ltb_lt _ _)).
  - by rewrite Hy, IH.
Qed.

Lemma id_inj x y : Queue.key x = Queue.key y → Queue.id x = Queue.id y.
Proof. destruct x as [[] ???], y as [[] ???]. unfold Queue.key; simpl. congruence. Qed.

(** Successive claims at one clock reading, with the tokens [us]: what each of them
    gives and the messages left. *)
Fixpoint claim_repeatedly now dur (us : list Uuid) ms :
    list (option (queue_output V)) * list (Queue.Message V) :=
  match us with
  | [] => ([], ms)
  | u :: us =>
      let e := queue_model (QClaim dur) now u ms in
      let (outs, ms') := claim_repeatedly now dur us (effect_messages e ms) in
      (effect_output e :: outs, ms')
  end.

(** The claim of [x] with token [u]. *)
Definition handed_out deadline u x : queue_output V :=
  OutClaim (Some (Queue.MkClaim (Queue.id x) (Queue.value x) (Queue.MkLeaseToken u)
                    (Queue.attempts x + 1) deadline)).

(** The messages a claim could hand out. *)
Definition available now ms : list (Queue.Message V) :=
  filter (λ x, claimable now x = true) ms.

Lemma available_none now ms :
  available now ms = [] ↔ Forall (λ x, claimable now x = false) ms.
Proof.
  unfold available. induction ms as [|x ms IH]; [by split; constructor|].
  rewrite Forall_cons, filter_cons. destruct (claimable now x) eqn:Hx.
  - rewrite decide_True by done. split; [done|by intros [??]].
  - rewrite decide_False, IH by done. tauto.
Qed.

Lemma available_app now ms1 ms2 :
  available now (ms1 ++ ms2) = available now ms1 ++ available now ms2.
Proof. apply filter_app. Qed.

Lemma available_split now pre x post :
  Forall (λ y, claimable now y = false) pre →
  available now (pre ++ x :: post) =
  (if claimable now x then [x] else []) ++ available now post.
Proof.
  intros Hpre%available_none. rewrite available_app, Hpre. simpl.
  unfold available. rewrite filter_cons. by destruct (claimable now x).
Qed.

Lemma claimed_leased now dur u x :
  (0 < as_millis dur)%N → claimable now (claimed u (now + as_millis dur) x) = false.
Proof. intros. unfold claimable. simpl. apply N.leb_gt. lia. Qed.

(** No available message is passed over: as many successive claims as there are
    available messages hand out every one of them, oldest first and each once; they
    leave every message leased and none lost. *)
Lemma claim_progress now dur us ms :
  (0 < as_millis dur)%N → (now + as_millis dur ≤ u64_max)%N →
  Forall (λ x, (Queue.attempts x < u32_max)%N) (available now ms) →
  length us = length (available now ms) →
  ∃ ms', claim_repeatedly now dur us ms =
    (zip_with (λ u x, Some (handed_out (now + as_millis dur) u x)) us (available now ms), ms') ∧
    available now ms' = [] ∧ Queue.id <$> ms' = Queue.id <$> ms.
Proof.
  intros Hdur Hmax. revert ms. induction us as [|u us IH]; intros ms Hatt Hlen;
    cbn [claim_repeatedly].
  { exists ms. by rewrite (nil_length_inv _ (eq_sym Hlen)). }
  unfold queue_model. rewrite decide_True by done.
  destruct (claim_messages_split now (now + as_millis dur) u ms)
    as [[Hall _]|(pre & x & post & -> & Hpre & Hx & ->)].
  { apply available_none in Hall. by rewrite Hall in Hlen. }
  rewrite (available_split now pre x post) in Hatt, Hlen |- * by done.
  rewrite Hx in Hatt, Hlen |- *. apply Forall_cons in Hatt as [Hx'%N.ltb_lt Hatt].
  rewrite Hx'. cbn [effect_messages effect_output].
  assert (available now (pre ++ claimed u (now + as_millis dur) x :: post) =
          available now post) as Hnext.
  { by rewrite available_split, claimed_leased. }
  destruct (IH (pre ++ claimed u (now + as_millis dur) x :: post))
    as (ms' & -> & Hleft & Hids).
  { by rewrite Hnext. }
  { rewrite Hnext. by injection Hlen. }
  exists ms'. rewrite Hnext. split_and!; [done|done|].
  by rewrite Hids, !fmap_app.
Qed.
End Effects.

(** ** Histories *)

Record qevent (V : Type) := MkEvent { ev_op : queue_op V; ev_now : N; ev_uuid : Uuid }.
Arguments MkEvent {V}.
Arguments ev_op {V} q.
Arguments ev_now {V} q.
Arguments ev_uuid {V} q.

Section History.
Context {V : Type}.
Implicit Types (ms : list (Queue.Message V)) (x y : Queue.Message V) (i : Queue.MessageId)
  (e : qevent V).

(** An event with its output, [None] when the operation was refused. *)
#[local] Abbreviation step := (qevent V * option (queue_output V))%type.
Implicit Types (h : list step).

Definition event_effect e ms : queue_effect V :=
  queue_model (ev_op e) (ev_now e) (ev_uuid e) ms.

Definition published_id (s : step) : option Queue.MessageId :=
  match s.2 with Some (OutPublished i) => Some i | _ => None end.

Definition claim_of i (s : step) : option (Queue.Claim V) :=
  match s.2 with
  | Some (OutClaim (Some c)) => if decide (Queue.claim_id c = i) then Some c else None
  | _ => None
  end.

Definition published h : list Queue.MessageId := omap published_id h.
Definition claims i h : list (Queue.Claim V) := omap (claim_of i) h.

Definition acknowledged i h : Prop :=
  ∃ e t, (e, Some (OutAck Queue.Acknowledged)) ∈ h ∧ ev_op e = QAck i t.

Definition acknowledges i (s : step) : bool :=
  match ev_op s.1, s.2 with
  | QAck j _, Some (OutAck Queue.Acknowledged) => bool_decide (j = i)
  | _, _ => false
  end.

Lemma acknowledged_alt i h : acknowledged i h ↔ existsb (acknowledges i) h = true.
Proof.
  rewrite existsb_exists. split.
  - intros (e & t & Hin & Hop). exists (e, Some (OutAck Queue.Acknowledged)).
    split; [by apply list_elem_of_In|]. unfold acknowledges. simpl. rewrite Hop.
    by apply bool_decide_eq_true.
  - intros ([e out] & Hin%list_elem_of_In & Ha). unfold acknowledges in Ha. simpl in Ha.
    repeat case_match; try done. apply bool_decide_eq_true in Ha as ->.
    by exists e, token.
Qed.

#[global] Instance acknowledged_dec i h : Decision (acknowledged i h).
Proof.
  refine (cast_if (decide (existsb (acknowledges i) h = true)));
    by rewrite acknowledged_alt.
Defined.

Inductive history : list step → list (Queue.Message V) → Prop :=
  | history_create : history [] []
  | history_step h ms e :
      history h ms →
      (∀ v, ev_op e = QPublish v → Queue.MkMessageId (ev_uuid e) ∉ published h) →
      history (h ++ [(e, effect_output (event_effect e ms))])
        (effect_messages (event_effect e ms) ms).

(** Histories can be computed: [replay] applies events in order, as long as
    publications are fresh. *)
Definition fresh_publish e h : bool :=
  match ev_op e with
  | QPublish _ => bool_decide (Queue.MkMessageId (ev_uuid e) ∉ published h)
  | _ => true
  end.

Fixpoint replay (es : list (qevent V)) h ms : option (list step * list (Queue.Message V)) :=
  match es with
  | [] => Some (h, ms)
  | e :: es =>
      if fresh_publish e h then
        replay es (h ++ [(e, effect_output (event_effect e ms))])
          (effect_messages (event_effect e ms) ms)
      else None
  end.

Lemma replay_history es h ms h' ms' :
  history h ms → replay es h ms = Some (h', ms') → history h' ms'.
Proof.
  revert h ms. induction es as [|e es IH]; intros h ms Hh; simpl; [congruence|].
  destruct (fresh_publish e h) eqn:Hf; [|done]. apply IH. constructor; [done|].
  intros v Hv. unfold fresh_publish in Hf. rewrite Hv in Hf.
  by apply bool_decide_eq_true in Hf.
Qed.

(** What the history says of one message. *)
Definition published_as h x : Prop :=
  ∃ e, (e, Some (OutPublished (Queue.id x))) ∈ h ∧ ev_op e = QPublish (Queue.value x).

Definition accounted h x : Prop :=
  published_as h x ∧
  Queue.attempts x = N.of_nat (length (claims (Queue.id x) h)) ∧
  Queue.lease x =
    (λ c, Queue.MkLease (Queue.lease_token c) (Queue.lease_expires_at_millis c)) <$>
    last (claims (Queue.id x) h).

Record queue_inv h ms : Prop := MkQueueInv {
  inv_sorted : sorted_by Queue.key ms;
  inv_accounted : ∀ x, x ∈ ms → accounted h x;
  inv_claims : ∀ i c, c ∈ claims i h → i ∈ published h;
  inv_deadlines : ∀ i,
    StronglySorted N.lt (Queue.lease_expires_at_millis <$> claims i h);
  inv_acked : ∀ i, acknowledged i h → i ∈ published h;
  inv_present : ∀ i, i ∈ Queue.id <$> ms ↔ i ∈ published h ∧ ¬ acknowledged i h;
}.

(** ** Extending a history *)

Lemma published_snoc h s :
  published (h ++ [s]) = published h ++ (if published_id s is Some i then [i] else []).
Proof. unfold published. rewrite omap_app. simpl. by destruct (published_id s). Qed.

Lemma claims_snoc i h s :
  claims i (h ++ [s]) = claims i h ++ (if claim_of i s is Some c then [c] else []).
Proof. unfold claims. rewrite omap_app. simpl. by destruct (claim_of i s). Qed.

Lemma acknowledged_snoc i h e out :
  acknowledged i (h ++ [(e, out)]) ↔
  acknowledged i h ∨
  (out = Some (OutAck Queue.Acknowledged) ∧ ∃ t, ev_op e = QAck i t).
Proof.
  unfold acknowledged. setoid_rewrite elem_of_app.
  setoid_rewrite list_elem_of_singleton. naive_solver.
Qed.

Lemma published_as_published h x : published_as h x → Queue.id x ∈ published h.
Proof. intros (e & He & _). apply list_elem_of_omap. by eexists. Qed.

Lemma published_as_snoc h x y s :
  published_as h x → Queue.id y = Queue.id x → Queue.value y = Queue.value x →
  published_as (h ++ [s]) y.
Proof.
  intros (e & He & Hop) Hi Hv. exists e. rewrite Hi, Hv. split; [|done].
  apply elem_of_app. by left.
Qed.

(** A step that publishes, claims and acknowledges nothing. *)
Lemma inv_quiet h ms e out :
  queue_inv h ms →
  published_id (e, out) = None → (∀ i, claim_of i (e, out) = None) →
  out ≠ Some (OutAck Queue.Acknowledged) →
  queue_inv (h ++ [(e, out)]) ms.
Proof.
  intros [Hs Hacc Hcl Hdl Hack Hpr] Hp Hc Ho.
  assert (published (h ++ [(e, out)]) = published h) as Hpub
    by (by rewrite published_snoc, Hp, app_nil_r).
  assert (∀ i, claims i (h ++ [(e, out)]) = claims i h) as Hclm
    by (intros i; by rewrite claims_snoc, Hc, app_nil_r).
  assert (∀ i, acknowledged i (h ++ [(e, out)]) ↔ acknowledged i h) as Hak
    by (intros i; rewrite acknowledged_snoc; naive_solver).
  split; [done|..].
  - intros x Hx. unfold accounted. rewrite Hclm.
    destruct (Hacc x Hx) as (? & ? & ?). eauto using published_as_snoc.
  - intros i c. rewrite Hpub, Hclm. apply Hcl.
  - intros i. rewrite Hclm. apply Hdl.
  - intros i. rewrite Hak, Hpub. apply Hack.
  - intros i. rewrite Hak, Hpub. apply Hpr.
Qed.

Lemma history_published_fresh h ms i x :
  queue_inv h ms → i ∉ published h → x ∈ ms → Queue.id x ≠ i.
Proof.
  intros Hinv Hi Hx <-. apply Hi, published_as_published.
  by apply (inv_accounted _ _ Hinv).
Qed.

Lemma no_claims_unpublished h ms i :
  queue_inv h ms → i ∉ published h → claims i h = [].
Proof.
  intros Hinv Hi. destruct (claims i h) as [|c cs] eqn:Hc; [done|].
  destruct Hi. apply (inv_claims _ _ Hinv i c). rewrite Hc. set_solver.
Qed.

Lemma inv_publish h ms e v u :
  queue_inv h ms → Queue.MkMessageId u ∉ published h → ev_op e = QPublish v →
  queue_inv (h ++ [(e, Some (OutPublished (Queue.MkMessageId u)))])
    (insert_sorted Queue.key (Queue.MkMessage (Queue.MkMessageId u) v 0 None) ms).
Proof.
  intros Hinv Hu Hop. set (new := Queue.MkMessage _ _ _ _).
  assert (∀ i, claims i (h ++ [(e, Some (OutPublished (Queue.MkMessageId u)))]) = claims i h)
    as Hclm by (intros i; by rewrite claims_snoc, app_nil_r).
  assert (∀ i, acknowledged i (h ++ [(e, Some (OutPublished (Queue.MkMessageId u)))]) ↔
               acknowledged i h) as Hak
    by (intros i; rewrite acknowledged_snoc; naive_solver).
  split.
  - apply insert_sorted_sorted; [apply Hinv|].
    intros (x & Hk & Hx)%list_elem_of_fmap.
    eapply history_published_fresh; [done|done|exact Hx|]. symmetry.
    by apply (id_inj new x).
  - intros x [->|Hx]%elem_of_insert_sorted; unfold accounted;
      rewrite Hclm; simpl.
    + rewrite (no_claims_unpublished h ms) by done. split; [|done].
      exists e. split; [|done]. apply elem_of_app. right. by apply list_elem_of_singleton.
    + destruct (inv_accounted _ _ Hinv x Hx) as (? & ? & ?). eauto using published_as_snoc.
  - intros i c. rewrite Hclm, published_snoc. intros Hc%(inv_claims _ _ Hinv). set_solver.
  - intros i. rewrite Hclm. apply Hinv.
  - intros i. rewrite Hak, published_snoc. intros Ha%(inv_acked _ _ Hinv). set_solver.
  - intros i. rewrite Hak, published_snoc, insert_sorted_perm, fmap_cons, elem_of_cons,
      elem_of_app, (inv_present _ _ Hinv). simpl. rewrite list_elem_of_singleton.
    split; [|naive_solver]. intros [->|?]; [|naive_solver].
    split; [by right|]. intros Ha%(inv_acked _ _ Hinv). done.
Qed.

Lemma sorted_last_max (l : list N) (d y : N) :
  StronglySorted N.lt l → last l = Some d → y ∈ l → (y ≤ d)%N.
Proof.
  intros Hs (l' & ->)%last_Some. apply StronglySorted_app in Hs as (Hlt & _ & _).
  intros [Hy|Hy]%elem_of_app; [|set_solver by lia].
  apply N.lt_le_incl, Hlt; set_solver.
Qed.

Lemma deadlines_snoc i h c now :
  StronglySorted N.lt (Queue.lease_expires_at_millis <$> claims i h) →
  (∀ c', last (claims i h) = Some c' → (Queue.lease_expires_at_millis c' ≤ now)%N) →
  (now < Queue.lease_expires_at_millis c)%N →
  StronglySorted N.lt (Queue.lease_expires_at_millis <$> claims i h ++ [c]).
Proof.
  intros Hs Hlast Hc. rewrite fmap_app. apply StronglySorted_app. split_and!;
    [|done|repeat constructor].
  intros y z Hy Hz%list_elem_of_singleton. subst z.
  destruct (last (claims i h)) as [c'|] eqn:Hl.
  - eapply N.le_lt_trans; [|exact Hc]. etrans; [|by apply (Hlast c')].
    eapply sorted_last_max; [done| |done]. by rewrite fmap_last, Hl.
  - apply last_None in Hl. rewrite Hl in Hy. simpl in Hy. set_solver.
Qed.

Lemma inv_claim h e pre x post u now dur :
  queue_inv h (pre ++ x :: post) → claimable now x = true → (0 < dur)%N →
  let c := Queue.MkClaim (Queue.id x) (Queue.value x) (Queue.MkLeaseToken u)
             (Queue.attempts x + 1) (now + dur) in
  queue_inv (h ++ [(e, Some (OutClaim (Some c)))]) (pre ++ claimed u (now + dur) x :: post).
Proof.
  intros Hinv Hx Hd c. set (h' := h ++ _).
  assert (published h' = published h) as Hpub by (unfold h'; by rewrite published_snoc, app_nil_r).
  assert (claims (Queue.id x) h' = claims (Queue.id x) h ++ [c]) as Hclx
    by (unfold h'; rewrite claims_snoc; unfold claim_of; simpl; by rewrite decide_True).
  assert (∀ i, i ≠ Queue.id x → claims i h' = claims i h) as Hcln.
  { intros i Hi. unfold h'. rewrite claims_snoc. unfold claim_of. simpl.
    by rewrite decide_False, app_nil_r by done. }
  assert (∀ i, acknowledged i h' ↔ acknowledged i h) as Hak
    by (intros i; unfold h'; rewrite acknowledged_snoc; naive_solver).
  destruct (inv_accounted _ _ Hinv x ltac:(set_solver)) as (Hxp & Hxa & Hxl).
  split.
  - eapply (sorted_by_middle _ _ _ x); [apply Hinv|done].
  - intros y Hy. unfold accounted.
    assert (y = claimed u (now + dur) x ∨ y ∈ pre ++ post) as [->|Hy'] by set_solver.
    + simpl. rewrite Hclx, length_app, last_snoc, Hxa. simpl.
      split_and!; [by eapply published_as_snoc|lia|done].
    + assert (Queue.id y ≠ Queue.id x) as Hid.
      { pose proof (inv_sorted _ _ Hinv) as Hs.
        apply sorted_by_app in Hs as (Hlt & _ & [Hgt _]%sorted_by_cons).
        rewrite Forall_forall in Hgt. intros Heq.
        apply elem_of_app in Hy' as [Hy''|Hy''].
        - specialize (Hlt y x Hy'' ltac:(set_solver)). unfold Queue.key in Hlt.
          rewrite Heq in Hlt. lia.
        - specialize (Hgt y Hy''). unfold Queue.key in Hgt. rewrite Heq in Hgt. lia. }
      rewrite Hcln by done.
      destruct (inv_accounted _ _ Hinv y ltac:(set_solver)) as (? & ? & ?).
      split_and!; [by eapply published_as_snoc|done..].
  - intros i c'. rewrite Hpub. destruct (decide (i = Queue.id x)) as [->|Hi]; [|rewrite Hcln by done; apply Hinv].
    intros _. by apply published_as_published.
  - intros i. destruct (decide (i = Queue.id x)) as [->|Hi]; [|rewrite Hcln by done; apply Hinv].
    rewrite Hclx. apply (deadlines_snoc _ _ _ now); [apply Hinv| |simpl; lia].
    intros c' Hc'. rewrite Hc' in Hxl. unfold claimable in Hx. rewrite Hxl in Hx.
    simpl in Hx. by apply N.leb_le.
  - intros i. rewrite Hak, Hpub. apply Hinv.
  - intros i. rewrite Hak, Hpub, <-(inv_present _ _ Hinv). by rewrite !fmap_app.
Qed.

Lemma inv_ack h ms e i t :
  queue_inv h ms → ev_op e = QAck i t → i ∈ Queue.id <$> ms →
  queue_inv (h ++ [(e, Some (OutAck Queue.Acknowledged))])
    (filter (λ x, Queue.id x ≠ i) ms).
Proof.
  intros Hinv Hop Hi. set (h' := h ++ _).
  assert (published h' = published h) as Hpub by (unfold h'; by rewrite published_snoc, app_nil_r).
  assert (∀ j, claims j h' = claims j h) as Hcl
    by (intros j; unfold h'; by rewrite claims_snoc, app_nil_r).
  assert (∀ j, acknowledged j h' ↔ acknowledged j h ∨ j = i) as Hak.
  { intros j. unfold h'. rewrite acknowledged_snoc, Hop. naive_solver. }
  split.
  - apply sorted_by_filter, Hinv.
  - intros x [_ Hx]%list_elem_of_filter. unfold accounted. rewrite Hcl.
    destruct (inv_accounted _ _ Hinv x Hx) as (? & ? & ?). eauto using published_as_snoc.
  - intros j c. rewrite Hpub, Hcl. apply Hinv.
  - intros j. rewrite Hcl. apply Hinv.
  - intros j. rewrite Hak, Hpub. intros [Hj| ->]; [by apply Hinv|].
    by apply (inv_present _ _ Hinv) in Hi as [? _].
  - intros j. rewrite Hak, Hpub. pose proof (inv_present _ _ Hinv j) as Hj.
    rewrite list_elem_of_fmap in Hj |- *. setoid_rewrite list_elem_of_filter. naive_solver.
Qed.

Lemma history_inv h ms : history h ms → queue_inv h ms.
Proof.
  induction 1 as [|h ms e Hh Hinv Hfresh].
  { split.
    - constructor.
    - by intros x ?%elem_of_nil.
    - by intros i c ?%elem_of_nil.
    - constructor.
    - by intros i (e & t & ?%elem_of_nil & _).
    - intros i. simpl. split; [by intros ?%elem_of_nil|by intros [?%elem_of_nil _]]. }
  unfold event_effect. destruct e as [o now u]. simpl in *.
  destruct o as [v|d|i t| |]; simpl.
  - eapply inv_publish; eauto.
  - case_decide; [|by apply inv_quiet].
    destruct (claim_messages_split now (now + as_millis d) u ms)
      as [[_ ->]|(pre & x & post & -> & _ & Hx & ->)]; [by apply inv_quiet|].
    destruct (Queue.attempts x <? u32_max)%N; [|by apply inv_quiet].
    apply inv_claim; [done|done|lia].
  - unfold ack_messages.
    destruct (filter (λ x, Queue.id x = i) ms) as [|x l] eqn:Hf; simpl;
      [by apply inv_quiet|].
    destruct (ack_verdict now t x); simpl; try by apply inv_quiet.
    eapply inv_ack; [done|done|].
    assert (x ∈ filter (λ x, Queue.id x = i) ms) as [<- ?]%list_elem_of_filter
      by (rewrite Hf; set_solver).
    by apply list_elem_of_fmap_2.
  - by apply inv_quiet.
  - by apply inv_quiet.
Qed.

(** ** Taking a history apart *)

Lemma history_snoc h e out ms' :
  history (h ++ [(e, out)]) ms' →
  ∃ ms, history h ms ∧ queue_inv h ms ∧ out = effect_output (event_effect e ms).
Proof.
  intros Hh. inversion Hh as [Heq|h0 ms e0 Hh0 Hf Heq]; subst.
  - symmetry in Heq. by apply app_nil in Heq as [_ ?].
  - apply app_inj_tail in Heq as [-> Heq]. simplify_eq.
    exists ms. eauto using history_inv.
Qed.

Lemma history_prefix h1 h2 ms : history (h1 ++ h2) ms → ∃ ms1, history h1 ms1.
Proof.
  revert ms. induction h2 as [|[e out] h2 IH] using rev_ind; intros ms Hh.
  - rewrite app_nil_r in Hh. eauto.
  - rewrite app_assoc in Hh. apply history_snoc in Hh as (ms' & Hh & _). eauto.
Qed.

(** The state in which an event of a history happened. *)
Lemma history_at h k e out ms :
  history h ms → h !! k = Some (e, out) →
  ∃ ms1, history (take k h) ms1 ∧ queue_inv (take k h) ms1 ∧
    out = effect_output (event_effect e ms1).
Proof.
  intros Hh Hk. rewrite <-(take_drop_middle h k (e, out) Hk) in Hh.
  rewrite (cons_middle (e, out)), app_assoc in Hh.
  apply history_prefix in Hh as [ms1 (ms2 & ? & ? & ?)%history_snoc]. eauto.
Qed.

(** A claim was made of a claimable message of the queue. *)
Lemma event_claim e ms c :
  Some (OutClaim (Some c)) = effect_output (event_effect e ms) →
  (∃ d, ev_op e = QClaim d ∧ Queue.lease_token c = Queue.MkLeaseToken (ev_uuid e) ∧
        Queue.lease_expires_at_millis c = (ev_now e + as_millis d)%N) ∧
  ∃ x, x ∈ ms ∧ claimable (ev_now e) x = true ∧ Queue.claim_id c = Queue.id x ∧
    Queue.claim_value c = Queue.value x ∧ Queue.attempt c = (Queue.attempts x + 1)%N ∧
    (ev_now e < Queue.lease_expires_at_millis c ≤ u64_max)%N ∧
    (Queue.attempt c ≤ u32_max)%N.
Proof.
  unfold event_effect. destruct e as [[v|d|i t| |] now u]; simpl; try done.
  - case_decide as Hd; [|done].
    destruct (claim_messages_split now (now + as_millis d) u ms)
      as [[_ ->]|(pre & x & post & -> & _ & Hx & ->)]; [done|].
    destruct (N.ltb_spec (Queue.attempts x) u32_max); [|done]. simpl. intros; simplify_eq/=.
    split; [by exists d|]. exists x. split_and!; done || set_solver || lia.
  - unfold ack_messages. repeat case_match; done.
Qed.

(** Only an acknowledgement is answered as one. *)
Lemma event_ack e ms a :
  Some (OutAck a) = effect_output (event_effect e ms) → ∃ i t, ev_op e = QAck i t.
Proof.
  unfold event_effect. destruct e as [[v|d|i t| |] now u]; simpl; try done; [|by eauto].
  case_decide; [|done].
  destruct (claim_messages_split now (now + as_millis d) u ms)
    as [[_ ->]|(pre & x & post & _ & _ & _ & ->)]; [done|]. by destruct (_ <? _)%N.
Qed.

(** Leases are mutually exclusive: a message that was claimed is claimed again only
    at a clock reading at or after the deadline of every earlier claim of it, even
    if clocks run backwards between. *)
Lemma history_lease_exclusion h ms k1 k2 e1 e2 c1 c2 :
  history h ms → k1 < k2 →
  h !! k1 = Some (e1, Some (OutClaim (Some c1))) →
  h !! k2 = Some (e2, Some (OutClaim (Some c2))) →
  Queue.claim_id c1 = Queue.claim_id c2 →
  (Queue.lease_expires_at_millis c1 ≤ ev_now e2)%N.
Proof.
  intros Hh Hlt Hk1 Hk2 Hid.
  destruct (history_at _ _ _ _ _ Hh Hk2) as (ms1 & _ & Hinv & Hc).
  apply event_claim in Hc as (_ & x & Hx & Hfree & Hidx & _).
  assert (c1 ∈ claims (Queue.id x) (take k2 h)) as Hc1.
  { apply list_elem_of_omap. exists (e1, Some (OutClaim (Some c1))). split.
    - apply (list_elem_of_lookup_2 _ k1). by rewrite lookup_take_lt.
    - unfold claim_of. simpl. by rewrite decide_True by congruence. }
  destruct (inv_accounted _ _ Hinv x Hx) as (_ & _ & Hlease).
  destruct (last (claims (Queue.id x) (take k2 h))) as [cl|] eqn:Hl;
    [|apply last_None in Hl; rewrite Hl in Hc1; by apply elem_of_nil in Hc1].
  unfold claimable in Hfree. rewrite Hlease in Hfree. simpl in Hfree.
  apply N.leb_le in Hfree. etrans; [|exact Hfree].
  eapply sorted_last_max; [apply (inv_deadlines _ _ Hinv (Queue.id x))| |].
  - by rewrite fmap_last, Hl.
  - by apply list_elem_of_fmap_2.
Qed.

(** Nothing is lost, whatever leases expire, and nothing acknowledged comes back. *)
Lemma history_present h ms i :
  history h ms → i ∈ Queue.id <$> ms ↔ i ∈ published h ∧ ¬ acknowledged i h.
Proof. intros Hinv%history_inv. apply Hinv. Qed.

(** Each claim delivers the payload published under its identifier, and its attempt
    number is one more than the number of earlier claims of the message. *)
Lemma history_delivery h ms k e c :
  history h ms → h !! k = Some (e, Some (OutClaim (Some c))) →
  (∃ p, (p, Some (OutPublished (Queue.claim_id c))) ∈ h ∧
        ev_op p = QPublish (Queue.claim_value c)) ∧
  Queue.attempt c = (N.of_nat (length (claims (Queue.claim_id c) (take k h))) + 1)%N ∧
  (Queue.attempt c ≤ u32_max)%N ∧
  (ev_now e < Queue.lease_expires_at_millis c ≤ u64_max)%N.
Proof.
  intros Hh Hk. destruct (history_at _ _ _ _ _ Hh Hk) as (ms1 & _ & Hinv & Hc).
  apply event_claim in Hc as (_ & x & Hx & _ & Hid & Hval & Hatt & Hdl & Hmax).
  destruct (inv_accounted _ _ Hinv x Hx) as ((p & Hp & Hop) & Ha & _).
  rewrite Hid, Hval, Hatt, <-Ha. split_and!; [|done|lia|lia|lia].
  exists p. split; [|done]. rewrite <-(take_drop k h). set_solver.
Qed.

(** Later claims of a message carry larger attempt numbers. *)
Lemma history_attempts h ms k1 k2 e1 e2 c1 c2 :
  history h ms → k1 < k2 →
  h !! k1 = Some (e1, Some (OutClaim (Some c1))) →
  h !! k2 = Some (e2, Some (OutClaim (Some c2))) →
  Queue.claim_id c1 = Queue.claim_id c2 →
  (Queue.attempt c1 < Queue.attempt c2)%N.
Proof.
  intros Hh Hlt Hk1 Hk2 Hid.
  destruct (history_delivery _ _ _ _ _ Hh Hk1) as (_ & -> & _).
  destruct (history_delivery _ _ _ _ _ Hh Hk2) as (_ & -> & _). rewrite <-Hid.
  assert (take k2 h = take k1 h ++ (e1, Some (OutClaim (Some c1))) ::
            drop (S k1) (take k2 h)) as ->.
  { rewrite <-(take_drop_middle (take k2 h) k1 (e1, Some (OutClaim (Some c1)))) at 1.
    - by rewrite take_take, Nat.min_l by lia.
    - by rewrite lookup_take_lt. }
  unfold claims. rewrite omap_app, length_app. simpl. unfold claim_of at 3. simpl.
  rewrite decide_True by done. simpl. lia.
Qed.

(** An acknowledgement succeeds only with the token of the latest claim of the
    message, before that claim's deadline. *)
Lemma history_authorized h ms k e i t :
  history h ms → h !! k = Some (e, Some (OutAck Queue.Acknowledged)) →
  ev_op e = QAck i t →
  ∃ c, last (claims i (take k h)) = Some c ∧ Queue.lease_token c = t ∧
    (ev_now e < Queue.lease_expires_at_millis c)%N.
Proof.
  intros Hh Hk Hop. destruct (history_at _ _ _ _ _ Hh Hk) as (ms1 & _ & Hinv & Hout).
  unfold event_effect in Hout. rewrite Hop in Hout. simpl in Hout.
  unfold ack_messages in Hout.
  destruct (filter (λ x, Queue.id x = i) ms1) as [|x l] eqn:Hf; simpl in Hout; [done|].
  assert (x ∈ filter (λ x, Queue.id x = i) ms1) as [<- Hx]%list_elem_of_filter
    by (rewrite Hf; set_solver).
  destruct (inv_accounted _ _ Hinv x Hx) as (_ & _ & Hlease).
  unfold ack_verdict in Hout. rewrite Hlease in Hout.
  destruct (last (claims (Queue.id x) (take k h))) as [c|]; simpl in Hout; [|done].
  case_decide; [|done].
  destruct (N.ltb_spec (ev_now e) (Queue.lease_expires_at_millis c)); [|done]. eauto.
Qed.
End History.
