(* ===== verification/QueueRuns.v ===== *)
(** * The work queue on the in-memory adapter

    What a caller that is alone on an in-memory store gets.  Its programs return
    ([memory_run_total]): the adapter never fails, and panics only when the version
    counter is exhausted.  A queue operation returns exactly what the reference model
    computes, at the clock reading and the UUID it draws.

    On any adapter, [claim] hands out the first message that is available
    ([claim_first_available]). *)

From S2P Require Import Prelude.
From S2P Require Import Program.
From S2P Require Import ObjectStore.
From S2P Require Import MemoryStore.
From S2P Require Import Json.
From S2P Require Import Lifecycle.
From S2P Require Import WorkQueue.
From S2P Require Import QueueRefinement.
From S2P Require Import QueueHistory.

(** ** Programs on the in-memory adapter return *)

Definition writes (c : call) : bool :=
  match c with Create _ _ | Replace _ _ _ => true | _ => false end.

(** The program makes at most [n] conditional writes, whatever the replies. *)
Fixpoint writes_within {E A} (n : nat) (p : io E A) {struct p} : Prop :=
  match p with
  | Call c k =>
      if writes c then match n with O => False | S n => ∀ r, writes_within n (k r) end
      else ∀ r, writes_within n (k r)
  | _ => True
  end.

Section Total.
Context (env : Env).
Implicit Types (w : world Memory.State).

Lemma memory_write_total c w :
  (Memory.next_version (w_store w) < u64_max)%N →
  ∃ r w', handle (E := Empty_set) env c w = Some (r, w') ∧
    (Memory.next_version (w_store w') ≤
       Memory.next_version (w_store w) + if writes c then 1 else 0)%N.
Proof.
  destruct w as [[os n] nc nu]. intros Hn. simpl in Hn.
  assert (Memory.version true (Memory.MkState os n) =
    Some (Memory.token (n + 1), Memory.MkState os (n + 1))) as Hv.
  { unfold Memory.version. simpl. by destruct (N.leb_spec (n + 1) u64_max); [|lia]. }
  destruct c as [l|l b|l v b| |]; simpl; unfold Memory.create, Memory.replace;
    repeat (case_match || case_decide); rewrite ?Hv; do 2 eexists; (split; [reflexivity|]);
    simpl; lia.
Qed.

Lemma memory_step_total c w :
  (Memory.next_version (w_store w) + (if writes c then 1 else 0) ≤ u64_max)%N →
  ∃ r w', handle (E := Empty_set) env c w = Some (r, w') ∧
    (Memory.next_version (w_store w') ≤
       Memory.next_version (w_store w) + if writes c then 1 else 0)%N.
Proof.
  intros Hn. destruct (writes c) eqn:Hc.
  2: { destruct c; try done; do 2 eexists; (split; [reflexivity|]); simpl; lia. }
  pose proof (memory_write_total c w) as H. rewrite Hc in H. apply H. lia.
Qed.

(** A program that cannot panic returns, and draws versions only for its writes. *)
Lemma memory_run_total {A} n (p : io Empty_set A) w :
  writes_within n p → panic_free p →
  (Memory.next_version (w_store w) + N.of_nat n ≤ u64_max)%N →
  ∃ x w', run (handle env) p w = Some (x, w') ∧
    (Memory.next_version (w_store w') ≤ Memory.next_version (w_store w) + N.of_nat n)%N.
Proof.
  revert n w. induction p as [y| |c k IH]; intros n w Hw Hp Hn;
    [by exists y, w; simpl; eauto with lia|done|].
  cbn [run panic_free writes_within] in *.
  destruct (memory_step_total c w) as (r & w1 & -> & Hw1);
    [destruct (writes c), n; done || lia|].
  destruct (writes c).
  - destruct n as [|n]; [done|].
    destruct (IH r n w1) as (x & w' & Hx & Hle); [done..|lia|].
    exists x, w'. split; [done|lia].
  - destruct (IH r n w1) as (x & w' & Hx & Hle); [done..|lia|].
    exists x, w'. split; [done|lia].
Qed.
End Total.

(** ** What the model makes of a queue *)

Section Model.
Context {V : Type}.
Implicit Types (ms : list (Queue.Message V)) (o : queue_op V).

(** The result of an operation that nothing disturbs. *)
Definition effect_result {E J} (e : queue_effect V) :
    result (queue_output V) (Queue.Error E J) :=
  match e with
  | Refused why => Err (refusal_error why)
  | Unchanged out | Updated _ out => Ok out
  end.

Lemma queue_model_sorted o now u ms :
  sorted_by Queue.key ms → (∀ v, o = QPublish v → u ∉ Queue.key <$> ms) →
  sorted_by Queue.key (effect_messages (queue_model o now u ms) ms).
Proof.
  intros Hs Hu. destruct o as [v|d|i t| |]; simpl; try done.
  - apply insert_sorted_sorted; [done|]. by apply (Hu v).
  - case_decide; [|done].
    destruct (claim_messages_split now (now + as_millis d) u ms)
      as [[_ ->]|(pre & x & post & -> & _ & _ & ->)]; [done|].
    destruct (Queue.attempts x <? u32_max)%N; [|done]. simpl.
    by apply (sorted_by_middle _ _ _ x).
  - unfold ack_messages. destruct (head _) as [x|]; [|done].
    destruct (ack_verdict now t x); try done. by apply sorted_by_filter.
Qed.

(** An outcome that depends neither on the clock nor on the UUID alone depends on
    neither. *)
Lemma queue_model_drawless o ms now u :
  (∀ y, queue_model o y u ms = queue_model o now u ms) →
  (∀ v, queue_model o now v ms = queue_model o now u ms) →
  ∀ y v, queue_model o y v ms = queue_model o now u ms.
Proof.
  intros Hnow Hu y v. destruct o as [x|d|i t| |]; [apply Hu| |apply Hnow|done..].
  pose proof (Hnow (u64_max + 1)%N) as Hr. rewrite <-(Hnow y) in Hr |- *. simpl in Hr |- *.
  rewrite decide_False in Hr by lia. case_decide; [|done].
  destruct (claim_messages_split y (y + as_millis d) u ms)
    as [[_ Hm]|(pre & x & post & _ & _ & _ & Hm)]; rewrite Hm in Hr; [done|].
  by destruct (Queue.attempts x <? u32_max)%N.
Qed.
End Model.

(** ** Operations, exactly *)

Section Exact.
Context {S C J V : Type} (env : Env).
Context `{!ToJson J (Queue.QueueDocument V), !FromJson J (Queue.QueueDocument V)}.
Context `{!JsonRoundTrip (J := J) (D := Queue.QueueDocument V) id}.
Context `{!JsonTotal (J := J) (Queue.QueueDocument V)}.
Implicit Types (m : Queue.Queue S C) (ms : list (Queue.Message V)) (o : queue_op V)
  (w : world Memory.State).

(** The store behind the mutex holds a valid queue [m] with these messages. *)
Definition memory_holds m (s : Memory.State) ms : Prop :=
  ∃ a, Memory.sim s a ∧ queue_holds (J := J) m a ms.

Lemma queue_run_writes m o : writes_within 1 (queue_run (E := Empty_set) (J := J) m o).
Proof.
  destruct o; cbn [queue_run];
    unfold Queue.publish, Queue.claim, Queue.ack, Queue.is_empty, Queue.len, Queue.read,
      Queue.write; rewrite ?lease_millis_spec; follow_calls fail.
Qed.

(** Undisturbed, and when documents can be encoded, the outcome is the model's. *)
Lemma outcome_exact m e ms (aw : aworld) (r : result (queue_output V) (Queue.Error Empty_set J))
    aw' :
  queue_holds (J := J) m (aw_store aw) ms → sorted_by Queue.key (effect_messages e ms) →
  queue_outcome false m e aw r aw' →
  r = effect_result e ∧ queue_holds (J := J) m (aw_store aw') (effect_messages e ms) ∧
  ∀ l, l ≠ Queue.location m → cur (aw_store aw') !! l = cur (aw_store aw) !! l.
Proof.
  intros Hh Hs Hout. destruct e as [why|out|ms' out]; simpl in *.
  - by destruct r as [x|[]]; try done; destruct Hout as [-> ->].
  - by destruct r as [x|[]]; try done; destruct Hout as [-> ->].
  - destruct r as [x|[]]; try done; [|by destruct Hout as [_ Hout];
      edestruct (json_total (J := J)) as [b Hb]; rewrite Hout in Hb|by destruct Hout].
    destruct Hout as (-> & b & v & _ & -> & Hd). split_and!; [done| |].
    + split; [done|]. exists (MkObject b v). simpl. by rewrite lookup_insert_eq.
    + intros l Hl. simpl. by rewrite lookup_insert_ne.
Qed.

(** A draw is the next element of its source. *)
Lemma next_drawn (xs : nat → N) n n' ys :
  xs <$> seq 0 n' = (xs <$> seq 0 n) ++ ys → n' = n + length ys ∧ ys = xs <$> seq n (length ys).
Proof.
  intros Hxs. assert (n' = n + length ys) as ->
    by (apply (f_equal length) in Hxs; by rewrite length_app, !length_fmap, !length_seq in Hxs).
  split; [done|]. rewrite seq_app, fmap_app in Hxs. by apply app_inv_head in Hxs.
Qed.

(** Whatever was drawn, the outcome is that of the next reading and the next UUID. *)
Lemma drawn_effect o ms (clock uuids : nat → N) nc nc' nu nu' cs us now u :
  clock <$> seq 0 nc' = (clock <$> seq 0 nc) ++ cs →
  drawn cs now (λ now, queue_model o now u ms) →
  uuids <$> seq 0 nu' = (uuids <$> seq 0 nu) ++ us →
  drawn us u (λ u, queue_model o now u ms) →
  queue_model o now u ms = queue_model o (clock nc) (uuids nu) ms ∧
  (nu' = nu ∧ (∀ v, queue_model o (clock nc) v ms = queue_model o (clock nc) (uuids nu) ms) ∨
   nu' = Datatypes.S nu).
Proof.
  intros [_ Hcs]%next_drawn Hnow [Hnu Hus]%next_drawn Hu.
  destruct Hu as [->|[-> Hu]]; simpl in Hnu, Hus; [simplify_eq|].
  - split; [|right; lia]. destruct Hnow as [->|[-> Hnow]]; [by simplify_eq/=|done].
  - assert (∀ v, queue_model o (clock nc) v ms = queue_model o now u ms) as Hall.
    { destruct Hnow as [->|[-> Hnow]]; [by simplify_eq/=|].
      intros v. by apply queue_model_drawless. }
    rewrite Hall. split; [done|]. left. split; [lia|]. intros v. by rewrite Hall.
Qed.

Lemma memory_queue_exact_run m o ms w :
  memory_holds m (w_store w) ms → (Memory.next_version (w_store w) < u64_max)%N →
  (∀ v, o = QPublish v → env_uuid env (w_uuids w) ∉ Queue.key <$> ms) →
  let effect u := queue_model o (env_millis env (w_clock w)) u ms in
  let e := effect (env_uuid env (w_uuids w)) in
  ∃ w', run (handle env) (queue_run (J := J) m o) w = Some (effect_result e, w') ∧
    memory_holds m (w_store w') (effect_messages e ms) ∧
    (∀ l, l ≠ Queue.location m →
       Memory.objects (w_store w') !! l = Memory.objects (w_store w) !! l) ∧
    (Memory.next_version (w_store w') ≤ Memory.next_version (w_store w) + 1)%N ∧
    (w_uuids w' = w_uuids w ∧ (∀ u, effect u = e) ∨ w_uuids w' = Datatypes.S (w_uuids w)).
Proof.
  intros (a & Hsim & Hh) Hn Hu effect e.
  set (aw := MkAWorld a (env_uuid env <$> seq 0 (w_uuids w)) (env_millis env <$> seq 0 (w_clock w))).
  destruct (memory_run_total env 1 (queue_run (J := J) m o) w) as (r & w' & Hrun & Hle);
    [apply queue_run_writes|apply queue_operations_panic_free|lia|].
  destruct (run_handle_exec env _ w aw r w' ltac:(by split) Hrun)
    as (aw' & Hx & Hsim' & Hus & Hcs).
  exists w'. simpl in Hsim'.
  destruct (queue_run_refines false m o ms aw r aw') as [[[[] ->] _]|Hr]; [done..|].
  destruct Hr as (now & u & cs & us & Hcs' & Hnow & Hus' & Hu' & Hout).
  rewrite Hcs in Hcs'. rewrite Hus in Hus'.
  destruct (drawn_effect _ _ _ _ _ _ _ _ _ _ _ _ Hcs' Hnow Hus' Hu') as [He Hdraw].
  rewrite He in Hout.
  destruct (outcome_exact m e ms aw r aw') as (-> & Hh' & Hcur); [done| |apply Hout|].
  - by apply queue_model_sorted; [apply Hh|].
  - intros v ->. simpl in He. simplify_eq. by apply (Hu v).
  - split_and!; [done|by exists (aw_store aw')| |lia|done].
    intros l Hl. destruct Hsim as [-> _], Hsim' as [-> _]. by apply Hcur.
Qed.

(** C37: on the in-memory adapter every queue operation returns, and returns exactly
    what the model computes from the stored messages at the next clock reading and the
    next UUID, and the queue holds the messages the model computes; no other object
    changes, and at most one version and one UUID are drawn, none of the latter unless
    the outcome depends on it.  This supposes that a version is left and that the UUID
    given to a publication is not stored already. *)
Theorem memory_queue_exact m o ms w :
  memory_holds m (w_store w) ms → (Memory.next_version (w_store w) < u64_max)%N →
  (∀ v, o = QPublish v → env_uuid env (w_uuids w) ∉ Queue.key <$> ms) →
  let effect u := queue_model o (env_millis env (w_clock w)) u ms in
  let e := effect (env_uuid env (w_uuids w)) in
  ∃ w', run (handle env) (queue_run (J := J) m o) w = Some (effect_result e, w') ∧
    memory_holds m (w_store w') (effect_messages e ms) ∧
    (∀ l, l ≠ Queue.location m →
       Memory.objects (w_store w') !! l = Memory.objects (w_store w) !! l) ∧
    (Memory.next_version (w_store w') ≤ Memory.next_version (w_store w) + 1)%N ∧
    (w_uuids w' = w_uuids w ∧ (∀ u, effect u = e) ∨ w_uuids w' = Datatypes.S (w_uuids w)).
Proof. apply memory_queue_exact_run. Qed.
End Exact.

(** ** What a claim hands out *)

(** The lease of a message has not expired. *)
Definition under_lease {V} (now : N) (x : Queue.Message V) : Prop :=
  ∃ l, Queue.lease x = Some l ∧ (now < Queue.expires_at_millis l)%N.

Section Claims.
Context {S C E J V : Type}.
Context `{!ToJson J (Queue.QueueDocument V), !FromJson J (Queue.QueueDocument V)}.
Context `{!JsonRoundTrip (J := J) (D := Queue.QueueDocument V) id}.
Implicit Types (m : Queue.Queue S C) (ms pre post : list (Queue.Message V))
  (x y : Queue.Message V) (w : aworld).

Lemma claimable_leased now x :
  (claimable now x = false ↔ under_lease now x) ∧ (claimable now x = true ↔ ¬ under_lease now x).
Proof.
  unfold claimable, under_lease. destruct (Queue.lease x) as [l|]; [|naive_solver].
  rewrite N.leb_gt, N.leb_le. split; split.
  - intros ?. by exists l.
  - by intros (? & [= <-] & ?).
  - intros ? (? & [= <-] & ?). lia.
  - intros Hn. destruct (N.le_gt_cases (Queue.expires_at_millis l) now); [done|].
    destruct Hn. by exists l.
Qed.

(** A claim reads the clock, unless it refuses the duration. *)
Lemma claim_reads_clock spurious m dur w (r : result _ (Queue.Error E J)) w' :
  exec (world_step spurious) w (Queue.claim (V := V) m dur) r w' →
  r ≠ Err Queue.InvalidLeaseDuration → aw_clock w' ≠ aw_clock w.
Proof.
  unfold Queue.claim. intros Hx Hr.
  apply exec_try_bind in Hx as [(ms & w1 & Hx & Hrest)|(e & [He _] & ->)].
  2: { unfold ok_or in He. case_match; by simplify_eq. }
  assert (w1 = w) as -> by (by destruct Hx).
  apply exec_bind in Hrest as (now & w1 & ->%exec_now_millis & Hrest).
  apply exec_extends in Hrest as (_ & Hpre & _). simpl in Hpre. intros Heq.
  apply prefix_length in Hpre. rewrite Heq, length_app in Hpre. simpl in Hpre. lia.
Qed.

(** The first message that is not leased. *)
Definition first_available now ms pre x post : Prop :=
  ms = pre ++ x :: post ∧ Forall (under_lease now) pre ∧ ¬ under_lease now x ∧
  ∀ y, y ∈ ms → ¬ under_lease now y → (Queue.key x ≤ Queue.key y)%N.

(** What a claim may return and leave, in a world where the queue holds [ms]. *)
Definition claim_result m dur ms w
    (r : result (option (Queue.Claim V)) (Queue.Error E J)) w' : Prop :=
  let read now := aw_clock w' = aw_clock w ++ [now] in
  let untouched := aw_store w' = aw_store w in
  match r with
  | Ok None => ∃ now, read now ∧ Forall (under_lease now) ms ∧ untouched
  | Ok (Some c) => ∃ now u pre x post,
      let deadline := (now + as_millis dur)%N in
      read now ∧ aw_uuids w' = aw_uuids w ++ [u] ∧ first_available now ms pre x post ∧
      c = Queue.MkClaim (Queue.id x) (Queue.value x) (Queue.MkLeaseToken u)
            (Queue.attempts x + 1) deadline ∧
      (Queue.attempts x < u32_max)%N ∧ (deadline ≤ u64_max)%N ∧
      queue_holds (J := J) m (aw_store w')
        (pre ++ Queue.MkMessage (Queue.id x) (Queue.value x) (Queue.attempts x + 1)
                  (Some (Queue.MkLease (Queue.MkLeaseToken u) deadline)) :: post)
  | Err Queue.AttemptOverflow => untouched ∧ ∃ now pre x post, read now ∧
      first_available now ms pre x post ∧ (u32_max ≤ Queue.attempts x)%N
  | Err Queue.InvalidLeaseDuration => untouched ∧
      (as_millis dur = 0%N ∨ (u64_max < as_millis dur)%N ∨
       ∃ now, read now ∧ (u64_max < now + as_millis dur)%N)
  | Err (Queue.Store _) | Err (Queue.Document _) | Err (Queue.Conflict _ _) => True
  | Err _ => False
  end.

(** The messages around the first that is available. *)
Lemma first_available_split now ms pre x post :
  sorted_by Queue.key ms → ms = pre ++ x :: post →
  Forall (λ y, claimable now y = false) pre → claimable now x = true →
  first_available now ms pre x post.
Proof.
  intros Hs -> Hpre Hx. assert (Forall (under_lease now) pre) as Hpre'.
  { eapply Forall_impl; [exact Hpre|]. intros y. apply claimable_leased. }
  split_and!; [done..|by apply claimable_leased|].
  apply sorted_by_app in Hs as (_ & _ & [Hgt _]%sorted_by_cons).
  rewrite Forall_forall in Hgt, Hpre'.
  intros y [Hy|[->|Hy]%elem_of_cons]%elem_of_app Hn; [by destruct Hn; auto|done|].
  specialize (Hgt y Hy). simpl in Hgt. lia.
Qed.

(** A token that was handed out was drawn. *)
Lemma claim_drawn dur now u us ms pre x post :
  (now + as_millis dur ≤ u64_max)%N → (0 < as_millis dur)%N → ms = pre ++ x :: post →
  Forall (λ y, claimable now y = false) pre → claimable now x = true →
  (Queue.attempts x < u32_max)%N →
  drawn us u (λ u, queue_model (QClaim dur) now u ms) → us = [u].
Proof.
  intros Hmax Hpos -> Hpre Hx Ha [?|[_ Hf]]; [done|]. specialize (Hf (u + 1)%N).
  simpl in Hf. rewrite !decide_True, !claim_messages_first in Hf by done.
  apply (f_equal effect_output) in Hf. cbn in Hf. injection Hf. lia.
Qed.

Lemma claim_refused spurious m why w (r : result _ (Queue.Error E J)) w' :
  queue_outcome (V := V) spurious m (Refused why) w (map_ok OutClaim r) w' →
  ((∃ e, r = Err (Queue.Store e)) ∨ r = Err (refusal_error why)) ∧ aw_store w' = aw_store w.
Proof.
  destruct r as [o|e]; [by intros [[=] _]|].
  destruct e as [?|e| | | | | | | |]; try (by intros [[= ?] ?]; split; [right; f_equal|]).
  intros Hw. split; [left; by exists e|done].
Qed.

Lemma claim_obtains spurious m dur ms w (r : result _ (Queue.Error E J)) w' :
  queue_holds (J := J) m (aw_store w) ms →
  exec (world_step spurious) w (Queue.claim m dur) r w' → claim_result m dur ms w r w'.
Proof.
  intros Hh Hx. pose proof (claim_reads_clock _ _ _ _ _ _ Hx) as Hclock.
  destruct (claim_refines spurious m dur ms w r w' Hh Hx)
    as [[[e He] _]|(now & u & cs & us & Hcs & Hnow & Hus & Hu & Hout)].
  { destruct r as [?|e']; simplify_eq/=. done. }
  specialize (Hout ltac:(done)).
  assert (r ≠ Err Queue.InvalidLeaseDuration → aw_clock w' = aw_clock w ++ [now]) as Hread.
  { intros Hr. destruct Hnow as [->|[-> _]]; [done|]. rewrite app_nil_r in Hcs.
    by destruct (Hclock Hr). }
  clear Hclock. unfold queue_model in Hout. case_decide as Hd.
  2: { apply claim_refused in Hout as [Hr Hw]. destruct Hr as [[e ->]| ->]; [done|].
    split; [done|]. destruct Hnow as [->|[-> Hf]].
    - destruct (decide (as_millis dur = 0%N)); [by left|right; right]. exists now. split; [done|lia].
    - specialize (Hf 0%N). simpl in Hf. rewrite (decide_False (P := (_ ∧ now + _ ≤ _)%N)) in Hf by done.
      case_decide; [|lia]. destruct (claim_messages_split 0 (0 + as_millis dur) u ms)
        as [[_ Hm]|(? & x & ? & _ & _ & _ & Hm)]; rewrite Hm in Hf; [done|].
      by destruct (Queue.attempts x <? u32_max)%N. }
  destruct (claim_messages_split now (now + as_millis dur) u ms)
    as [[Hall Hm]|(pre & x & post & Hms & Hpre & Hx' & Hm)]; rewrite Hm in Hout.
  - destruct r as [o|e]; [|by destruct e; try destruct Hout]. destruct Hout as [[= ->] Hw].
    exists now. split_and!; [by apply Hread| |done].
    eapply Forall_impl; [exact Hall|]. intros y. apply claimable_leased.
  - pose proof (first_available_split _ _ _ _ _ (proj1 Hh) Hms Hpre Hx') as Hfirst.
    destruct (N.ltb_spec (Queue.attempts x) u32_max) as [Ha|Ha].
    + destruct r as [o|e]; [|by destruct e]. destruct Hout as ([= ->] & b & v & _ & Hw & Hdec).
      exists now, u, pre, x, post. cbv zeta.
      assert (us = [u]) as ->.
      { apply (claim_drawn dur now u us ms pre x post); [lia..|done|done|done|done|done]. }
      split_and!; [by apply Hread|done|done|done|done|lia|].
      split; [|exists (MkObject b v); by rewrite Hw; simpl; rewrite lookup_insert_eq].
      apply (sorted_by_middle _ _ _ x); [rewrite <- Hms; apply Hh|done].
    + apply claim_refused in Hout as [Hr Hw]. destruct Hr as [[e ->]| ->]; [done|].
      split; [done|]. exists now, pre, x, post. split_and!; [by apply Hread|done|done].
Qed.
End Claims.

Section ClaimAdapter.
Context {St S C E J V : Type} `{StoreContract St E} (env : Env).
Context `{!ToJson J (Queue.QueueDocument V), !FromJson J (Queue.QueueDocument V)}.
Context `{!JsonRoundTrip (J := J) (D := Queue.QueueDocument V) id}.

(** C40: [claim] hands out the first available message.  Run on any adapter that keeps
    the contract and holds the queue, it returns a claim only of the message with the
    smallest identifier among those that are under no unexpired lease at the clock reading
    it took, with a fresh token, the attempt count incremented and the deadline of its
    lease; it then leaves this message leased and every other as it was.  It returns [None]
    only if every message is under an unexpired lease, and refuses an attempt count or a
    duration only if the count of that message, or the deadline, is out of range; in these
    cases it changes nothing.  Any other error is of the backend, the encoding or a
    conflict. *)
Theorem claim_first_available (m : Queue.Queue S C) dur ms (w : world St) aw
    (r : result (option (Queue.Claim V)) (Queue.Error E J)) w' :
  world_sim env w aw → queue_holds (J := J) m (aw_store aw) ms →
  run (handle env) (Queue.claim m dur) w = Some (r, w') →
  ∃ aw', world_sim env w' aw' ∧ claim_result m dur ms aw r aw'.
Proof.
  intros Hw Hh (aw' & Hx & Hw')%(run_handle_exec env _ _ aw); [|done].
  exists aw'. split; [done|]. by eapply claim_obtains.
Qed.
End ClaimAdapter.
