(* ===== verification/UnitTests.v ===== *)
(** * The crates' unit tests

    The tests that the crates keep beside their code (the [tests] modules of
    objsds-queue/src/lib.rs, objsds/src/lifecycle.rs, objsds-store-memory/src/store.rs and
    objsds-store/src/location.rs; that of objsds-store-s3/src/builder.rs is in S3Store.v),
    as programs over their fixtures: an object store, here the in-memory adapter or a
    wrapper of it, the UUIDs of the process, and a clock the test can set.  A failed
    [assert!], [expect], [expect_err] or [unreachable!] is a panic, the result [None]. *)

From S2P Require Import Prelude.
From S2P Require Import Program.
From S2P Require Import ObjectStore.
From S2P Require Import MemoryStore.
From S2P Require Import ContractProgram.
From S2P Require Import Json.
From S2P Require Import CoreTypes.
From S2P Require Import Lifecycle.
From S2P Require Import WorkQueue.
From S2P Require Import QueueRefinement.
From S2P Require Import QueueHistory.
From S2P Require Import QueueRuns.

(** ** Fixtures *)

(** [AtomicBool::swap] and [AtomicU64::store] on a cell the test shares with what it
    tests: the old value, and the new state. *)
Definition swap {A} (new : A) (cell : A) : A * A := (cell, new).

Module FailReplaceOnce.

Record State := MkState { inner : Memory.State; fail_next : bool }.

(** The wrapped operation, on the state of the wrapper. *)
Definition on_inner {A} (s : State) (r : option (A * Memory.State)) : option (A * State) :=
  '(a, i) ← r; Some (a, MkState i (fail_next s)).

Definition get (s : State) (l : Location) :
    option (result (option Object) Empty_set * State) :=
  on_inner s (Memory.get (inner s) l).

Definition create (s : State) (l : Location) (b : bytes) :
    option (result Version (CreateError Empty_set) * State) :=
  on_inner s (Memory.create true (inner s) l b).

Definition replace (s : State) (l : Location) (expected : Version) (b : bytes) :
    option (result Version (ReplaceError Empty_set) * State) :=
  let (failing, next) := swap false (fail_next s) in
  let s := MkState (inner s) next in
  if failing then
    '(read, s) ← get s l;
    object ← ok read;
    Some (Err (ReplaceConflict (object_version <$> object)), s)
  else on_inner s (Memory.replace true (inner s) l expected b).

#[export] Instance store : ObjectStore State Empty_set := {|
  store_get := get;
  store_create := create;
  store_replace := replace;
|}.

End FailReplaceOnce.

Module ConflictingStore.

Record State := MkState { observed : Version }.

Definition get (s : State) (_ : Location) :
    option (result (option Object) Empty_set * State) :=
  Some (Ok None, s).

(** [unreachable!]. *)
Definition create (s : State) (_ : Location) (_ : bytes) :
    option (result Version (CreateError Empty_set) * State) :=
  None.

Definition replace (s : State) (_ : Location) (_ : Version) (_ : bytes) :
    option (result Version (ReplaceError Empty_set) * State) :=
  Some (Err (ReplaceConflict (Some (observed s))), s).

#[export] Instance store : ObjectStore State Empty_set := {|
  store_get := get;
  store_create := create;
  store_replace := replace;
|}.

End ConflictingStore.

Module CreateRaceStore.

Record State := MkState { inner : Memory.State; raced : bool }.

Definition on_inner {A} (s : State) (r : option (A * Memory.State)) : option (A * State) :=
  '(a, i) ← r; Some (a, MkState i (raced s)).

Definition create (s : State) (l : Location) (b : bytes) :
    option (result Version (CreateError Empty_set) * State) :=
  on_inner s (Memory.create true (inner s) l b).

(** The first read creates the winner behind the reader's back. *)
Definition get (s : State) (l : Location) :
    option (result (option Object) Empty_set * State) :=
  let (before, now) := swap true (raced s) in
  let s := MkState (inner s) now in
  if negb before then
    '(created, s) ← create s l (bytes_of_string "winner");
    _ ← ok created;
    Some (Ok None, s)
  else on_inner s (Memory.get (inner s) l).

Definition replace (s : State) (l : Location) (expected : Version) (b : bytes) :
    option (result Version (ReplaceError Empty_set) * State) :=
  on_inner s (Memory.replace true (inner s) l expected b).

#[export] Instance store : ObjectStore State Empty_set := {|
  store_get := get;
  store_create := create;
  store_replace := replace;
|}.

End CreateRaceStore.

(** ** Tests as programs *)

Module UnitTests.

#[local] Existing Instances FailReplaceOnce.store ConflictingStore.store
  CreateRaceStore.store.

(** What a test can reach: the store it created, shared by the handles that hold a clone
    of it; the UUIDs drawn so far; the cell of its [ManualClock], if it made one. *)
Record bench (St : Type) := MkBench {
  b_world : world St;
  b_clock : option N;
}.
Arguments MkBench {St} b_world b_clock.
Arguments b_world {St} b.
Arguments b_clock {St} b.

Definition test (St A : Type) : Type := bench St → option (A * bench St).

#[export] Instance test_ret St : MRet (test St) := λ A a b, Some (a, b).
#[export] Instance test_bind St : MBind (test St) := λ A B f t b,
  '(a, b) ← t b; f a b.

Section Bench.
Context {St : Type} `{ObjectStore St Empty_set} (env : Env).

(** [ManualClock::now_millis], or the clock of the system. *)
Definition bench_env (b : bench St) : Env := {|
  env_millis := match b_clock b with Some now => λ _, now | None => env_millis env end;
  env_uuid := env_uuid env;
|}.

(** A call of the library. *)
Definition calls {A} (p : io Empty_set A) : test St A := λ b,
  '(a, w) ← run (handle (bench_env b)) p (b_world b); Some (a, MkBench w (b_clock b)).

Inductive ManualClock := TheClock.

Definition ManualClock_new (now : N) : test St ManualClock := λ b,
  Some (TheClock, MkBench (b_world b) (Some now)).

Definition ManualClock_set (_ : ManualClock) (now : N) : test St unit := λ b,
  Some (tt, MkBench (b_world b) (Some now)).

Definition assert (condition : bool) : test St unit := λ b,
  if condition then Some (tt, b) else None.

Definition expect {A} (x : option A) : test St A := λ b, x ← x; Some (x, b).
End Bench.

(** [Result::expect] and [expect_err] are [expect] of these. *)
Definition err {A E} (r : result A E) : option E :=
  match r with Ok _ => None | Err e => Some e end.

(** The test passes: it ends without a panic. *)
Definition passes {St} (t : test St unit) (s : St) : Prop :=
  is_Some (t (MkBench (MkWorld s 0 0) None)).

(** ** Tests of the work queue *)

(** The constructors of [Duration] the tests use. *)
Definition from_millis (n : N) : Duration := MkDuration (n / 1000) (n mod 1000 * 1000000).
Definition from_secs (n : N) : Duration := MkDuration n 0.
Definition from_nanos (n : N) : Duration := MkDuration (n / 1000000000) (n mod 1000000000).
Definition duration_zero : Duration := MkDuration 0 0.

(** The nil UUID. *)
Definition nil_uuid : Uuid := 0.

Section QueueTests.
Context {J : Type}.
Context `{!ToJson J (Queue.QueueDocument string), !FromJson J (Queue.QueueDocument string)}.
Context (env : Env).
Abbreviation queue_result A := (result A (Queue.Error Empty_set J)).
Abbreviation queue_handle C := (Queue.Queue unit C).

(** A call of the library whose error is a panic. *)
Definition expects {St A} `{ObjectStore St Empty_set}
    (p : io Empty_set (queue_result A)) : test St A :=
  r ← calls env p; expect (ok r).

Definition builder (name schema : string) : Queue.QueueBuilder unit Queue.SystemClock :=
  Queue.with_schema (Queue.builder_new tt "tests" name) schema.

Definition create {St C} `{ObjectStore St Empty_set} (b : Queue.QueueBuilder unit C) :
    test St (queue_handle C) :=
  expects (Queue.create (V := string) b).

Definition queue (clock : ManualClock) : test Memory.State (queue_handle ManualClock) :=
  create (Queue.with_clock (builder "jobs" "job-v1") clock).

Definition publish_claim_and_ack_removes_message : test Memory.State unit :=
  clock ← ManualClock_new 1000;
  queue ← queue clock;
  id ← expects (Queue.publish queue "work");
  claimed ← expects (Queue.claim queue (from_millis 100));
  claim ← expect claimed;
  assert (bool_decide (Queue.claim_id claim = id));;
  assert (String.eqb (Queue.claim_value claim) "work");;
  assert (Queue.attempt claim =? 1)%N;;
  verdict ← expects (Queue.ack (V := string) queue id (Queue.lease_token claim));
  assert (bool_decide (verdict = Queue.Acknowledged));;
  empty ← expects (Queue.is_empty (V := string) queue);
  assert empty.

Definition lease_expiry_reclaims_with_new_token_and_attempt : test Memory.State unit :=
  clock ← ManualClock_new 1000;
  queue ← queue clock;
  id ← expects (Queue.publish queue "work");
  claimed ← expects (Queue.claim (V := string) queue (from_millis 100));
  first ← expect claimed;
  claimed ← expects (Queue.claim (V := string) queue (from_millis 100));
  assert (bool_decide (claimed = None));;
  ManualClock_set clock 1100;;
  verdict ← expects (Queue.ack (V := string) queue id (Queue.lease_token first));
  assert (bool_decide (verdict = Queue.LeaseExpired));;
  claimed ← expects (Queue.claim (V := string) queue (from_millis 100));
  second ← expect claimed;
  assert (bool_decide (Queue.claim_id second = id));;
  assert (Queue.attempt second =? 2)%N;;
  assert (negb (bool_decide (Queue.lease_token second = Queue.lease_token first)));;
  verdict ← expects (Queue.ack (V := string) queue id (Queue.lease_token first));
  assert (bool_decide (verdict = Queue.LeaseMismatch));;
  verdict ← expects (Queue.ack (V := string) queue id (Queue.lease_token second));
  assert (bool_decide (verdict = Queue.Acknowledged)).

Definition claims_available_messages_in_publish_order : test Memory.State unit :=
  clock ← ManualClock_new 1000;
  queue ← queue clock;
  first ← expects (Queue.publish queue "first");
  second ← expects (Queue.publish queue "second");
  claimed ← expects (Queue.claim (V := string) queue (from_secs 1));
  first_claim ← expect claimed;
  claimed ← expects (Queue.claim (V := string) queue (from_secs 1));
  second_claim ← expect claimed;
  assert (bool_decide
    ((Queue.claim_id first_claim, Queue.claim_id second_claim) = (first, second))).

(** The patterns of the tests' [matches!]. *)
Definition is_conflict {A} (r : queue_result A) : bool :=
  match r with Err (Queue.Conflict _ _) => true | _ => false end.
Definition is_incompatible {A} (r : queue_result A) : bool :=
  match r with Err (Queue.Incompatible _) => true | _ => false end.
Definition is_not_found {A} (r : queue_result A) : bool :=
  match r with Err Queue.NotFound => true | _ => false end.
Definition is_invalid_duration {A} (r : queue_result A) : bool :=
  match r with Err Queue.InvalidLeaseDuration => true | _ => false end.

(** [store.fail_next.store(true, ..)]. *)
Definition fail_next_store (b : bool) : test FailReplaceOnce.State unit := λ t,
  let w := b_world t in
  let (_, s) := swap b (FailReplaceOnce.fail_next (w_store w)) in
  Some (tt, MkBench (MkWorld (FailReplaceOnce.MkState (FailReplaceOnce.inner (w_store w)) s)
                       (w_clock w) (w_uuids w)) (b_clock t)).

Definition publish_conflict_leaves_queue_unchanged : test FailReplaceOnce.State unit :=
  queue ← create (builder "jobs" "job-v1");
  fail_next_store true;;
  published ← calls env (Queue.publish queue "work");
  assert (is_conflict published);;
  empty ← expects (Queue.is_empty (V := string) queue);
  assert empty.

Definition open_validates_existing_queue_and_schema : test Memory.State unit :=
  _ ← create (builder "jobs" "job-v1");
  _ ← expects (Queue.open (V := string) (builder "jobs" "job-v1"));
  opened ← calls env (Queue.open (V := string) (builder "jobs" "job-v2"));
  assert (is_incompatible opened);;
  opened ← calls env (Queue.open (V := string) (builder "missing" "job-v1"));
  assert (is_not_found opened).

Definition open_or_create_is_idempotent : test Memory.State unit :=
  created ← expects (Queue.open_or_create (V := string) (builder "jobs" "job-v1"));
  _ ← expects (Queue.publish created "work");
  opened ← expects (Queue.open_or_create (V := string) (builder "jobs" "job-v1"));
  n ← expects (Queue.len (V := string) opened);
  assert (n =? 1).

Definition rejects_zero_and_sub_millisecond_leases : test Memory.State unit :=
  clock ← ManualClock_new 1000;
  queue ← queue clock;
  claimed ← calls env (Queue.claim (V := string) queue duration_zero);
  assert (is_invalid_duration claimed);;
  claimed ← calls env (Queue.claim (V := string) queue (from_nanos 1));
  assert (is_invalid_duration claimed).

Definition ack_classifies_missing_and_unclaimed_messages : test Memory.State unit :=
  clock ← ManualClock_new 1000;
  queue ← queue clock;
  let token := Queue.MkLeaseToken nil_uuid in
  verdict ← expects (Queue.ack (V := string) queue (Queue.MkMessageId nil_uuid) token);
  assert (bool_decide (verdict = Queue.AckNotFound));;
  id ← expects (Queue.publish queue "work");
  verdict ← expects (Queue.ack (V := string) queue id token);
  assert (bool_decide (verdict = Queue.LeaseMismatch)).
End QueueTests.

(** ** Tests of the lifecycle and of the in-memory adapter *)

Section CoreTests.
Context {J : Type} (env : Env).
Import Core.

Abbreviation core_result A := (result A (Error Empty_set J)).

Definition users : option Location := ok (location_new "maps/users.json").

Definition conflicts_between (expected observed : Version) (e : Error Empty_set J) : bool :=
  match e with
  | Conflict (MkConflictError actual_expected (Some actual_observed)) =>
      bool_decide (actual_expected = expected) && bool_decide (actual_observed = observed)
  | _ => false
  end.

Definition observed_version : Version := version_new "observed".

(** The test's store reports [observed_version]. *)
Definition replacement_conflict_reports_expected_and_observed_versions :
    test ConflictingStore.State unit :=
  let expected := version_new "expected" in
  let observed := observed_version in
  location ← expect users;
  replaced ← calls env (Lifecycle.replace (J := J) location expected
                          (bytes_of_string "replacement"));
  error ← expect (err replaced);
  assert (conflicts_between expected observed error).

(** The reading closure of the test. *)
Definition read_winner (location : Location) : io Empty_set (core_result unit) :=
  let? object := prog_map_err (λ e, Store (MkStoreError e)) (get location) in
  let! object := or_panic object in
  let! _ := Tests.assert (bool_decide (object_bytes object = bytes_of_string "winner")) in
  Ret (Ok tt).

Definition open_or_create_opens_the_winner_of_a_create_race :
    test CreateRaceStore.State unit :=
  location ← expect users;
  opened ← calls env (Lifecycle.open_or_create_structure location
                        (Ok (bytes_of_string "loser")) (read_winner location));
  expect (ok opened).
End CoreTests.

Section MemoryTests.
Context (env : Env).

Definition rejects_a_stale_replacement : test Memory.State unit :=
  location ← expect users;
  created ← calls env (ObjectStore.create location (bytes_of_string "first"));
  first ← expect (ok created);
  replaced ← calls env (ObjectStore.replace location first (bytes_of_string "second"));
  second ← expect (ok replaced);
  replaced ← calls env (ObjectStore.replace location first (bytes_of_string "stale"));
  error ← expect (err replaced);
  assert match error with
         | ReplaceConflict (Some observed) => bool_decide (observed = second)
         | _ => false
         end.
End MemoryTests.

Section LocationTests.
Context {St : Type}.

Definition path_segments_reject_empty_dot_and_slash : test St unit :=
  assert (is_path_segment "jobs");;
  assert (negb (is_path_segment ""));;
  assert (negb (is_path_segment "."));;
  assert (negb (is_path_segment ".."));;
  assert (negb (is_path_segment "a/b")).

Definition structure_joins_validated_segments : test St unit :=
  location ← expect (ok (location_structure "prod" "queues" "jobs"));
  assert (String.eqb (as_str location) "prod/queues/jobs.json");;
  assert (negb (is_ok (location_structure "prod" "queues" "..")));;
  assert (negb (is_ok (location_structure "" "queues" "jobs"))).
End LocationTests.

(** ** The fixtures *)

(** While it is not told to fail, [FailReplaceOnce] is the in-memory adapter. *)
Lemma fail_replace_once_quiet env c (i : Memory.State) nc nu :
  handle (E := Empty_set) env c (MkWorld (FailReplaceOnce.MkState i false) nc nu) =
  '(r, w) ← handle (E := Empty_set) env c (MkWorld i nc nu);
  Some (r, MkWorld (FailReplaceOnce.MkState (w_store w) false) (w_clock w) (w_uuids w)).
Proof.
  destruct c as [l|l b|l v b| |]; try done; simpl; unfold with_store;
    unfold FailReplaceOnce.create, FailReplaceOnce.replace, FailReplaceOnce.on_inner; simpl.
  - by destruct (Memory.create _ _ _ _) as [[]|].
  - by destruct (Memory.replace _ _ _ _ _) as [[]|].
Qed.

(** [FailReplaceOnce] keeps the contract of a store: the conflict it makes up is one the
    contract allows, since it reports the version that is there. *)
#[local] Program Instance fail_replace_once_contract :
    StoreContract FailReplaceOnce.State Empty_set := {|
  contract_spurious := true;
  contract_sim := λ s, Memory.sim (FailReplaceOnce.inner s);
|}.
Next Obligation. by intros s a (_ & ? & _). Qed.
Next Obligation.
  intros [i f] a l r s' Hsim Hg. simpl in *.
  unfold FailReplaceOnce.get, FailReplaceOnce.on_inner, Memory.get in Hg. simplify_eq/=.
  exists a. split; [|done]. split; [done|left]. by destruct Hsim as [-> _].
Qed.
Next Obligation.
  intros [i f] a l b r s' Hsim Hc. simpl in *.
  unfold FailReplaceOnce.create, FailReplaceOnce.on_inner in Hc. simpl in Hc.
  destruct (Memory.create true i l b) as [[r0 i']|] eqn:Hc0; simplify_eq/=.
  destruct (Memory.create_sim i a l b r i' Hsim Hc0) as (a' & Hs & ? & _).
  exists a'. split; [|done]. destruct r as [v|[v|e]]; simpl in *; naive_solver.
Qed.
Next Obligation.
  intros [i f] a l v b r s' Hsim Hc. simpl in *.
  unfold FailReplaceOnce.replace, FailReplaceOnce.on_inner, FailReplaceOnce.get,
    FailReplaceOnce.on_inner in Hc. simpl in Hc.
  destruct f; simpl in Hc; [simplify_eq/=; by exists a|].
  destruct (Memory.replace true i l v b) as [[r0 i']|] eqn:Hc0; simplify_eq/=.
  destruct (Memory.replace_sim i a l v b r i' Hsim Hc0) as (a' & Hs & ? & _).
  exists a'. split; [|done]. destruct r as [v'|[v'|e]]; simpl in *; naive_solver.
Qed.

(** ** Running the tests *)

Section Steps.
Context {St A B : Type} `{ObjectStore St Empty_set}.

Lemma passes_step (t : test St A) (f : A → test St B) b a b' :
  t b = Some (a, b') → is_Some ((t ≫= f) b) ↔ is_Some (f a b').
Proof. unfold mbind, test_bind. by intros ->. Qed.

Lemma passes_assert (c : bool) (f : unit → test St B) b :
  is_Some ((assert c ≫= f) b) ↔ c = true ∧ is_Some (f tt b).
Proof. unfold mbind, test_bind, assert. destruct c; simpl; naive_solver. Qed.

Lemma passes_end (c : bool) (b : bench St) : is_Some (assert c b) ↔ c = true.
Proof. unfold assert. split; [by destruct c; [|intros [? [=]]]|intros ->; by eexists]. Qed.

Lemma calls_prog_map_ok {X F} env (f : X → A) (p : io Empty_set (result X F)) b r b' :
  calls env (prog_map_ok f p) b = Some (r, b') →
  ∃ r0, calls env p b = Some (r0, b') ∧ r = map_ok f r0.
Proof.
  unfold calls, prog_map_ok. rewrite run_bind.
  destruct (run _ p _) as [[r0 w]|]; intros; simplify_eq/=. eauto.
Qed.
End Steps.

(** A step of a test whose result is known: by computation, or from what [H] says of it. *)
Ltac test_step := apply (passes_step _ _ _ _ _ eq_refl); cbn beta.
Ltac test_call H := apply (passes_step _ _ _ _ _ H); clear H.
Ltac test_assert := apply passes_assert; split.
Ltac iff_step := etrans; [apply (passes_step _ _ _ _ _ eq_refl)|]; cbn beta.
Ltac iff_call H := etrans; [apply (passes_step _ _ _ _ _ H)|]; clear H.

Section QueueRuns.
Context {J : Type}.
Context `{!ToJson J (Queue.QueueDocument string), !FromJson J (Queue.QueueDocument string)}.
Context `{!JsonRoundTrip (J := J) (D := Queue.QueueDocument string) id}.
Context `{!JsonTotal (J := J) (Queue.QueueDocument string)}.
Context (env : Env) {C : Type}.
Implicit Types (m : Queue.Queue unit C) (ms : list (Queue.Message string))
  (b : bench Memory.State) (o : queue_op string).

(** The test's store holds the queue, at most [n] versions and exactly [k] UUIDs were
    drawn, and it has set its clock to
    [clock], if it made one. *)
Record queue_bench m ms (n : N) (k : nat) (clock : option N) b : Prop := MkQueueBench {
  qb_holds : memory_holds (J := J) m (w_store (b_world b)) ms;
  qb_versions : (Memory.next_version (w_store (b_world b)) ≤ n)%N;
  qb_uuids : w_uuids (b_world b) = k;
  qb_clock : b_clock b = clock;
}.

Lemma queue_bench_set m ms n k clock now b :
  queue_bench m ms n k clock b →
  queue_bench m ms n k (Some now) (MkBench (b_world b) (Some now)).
Proof. by intros [? ? ? _]. Qed.

(** The next reading of the clock. *)
Definition reading b : N := env_millis (bench_env env b) (w_clock (b_world b)).

Lemma queue_bench_reading m ms n k now b : queue_bench m ms n k (Some now) b → reading b = now.
Proof. intros [_ _ _ Hb]. unfold reading, bench_env. by rewrite Hb. Qed.

(** An operation that is not refused, in a test. *)
Lemma calls_queue_op m o ms n k clock b out :
  queue_bench m ms n k clock b → (n < u64_max)%N →
  (∀ v, o = QPublish v → env_uuid env k ∉ Queue.key <$> ms) →
  let effect u := queue_model o (reading b) u ms in
  effect_output (effect (env_uuid env k)) = Some out →
  ∃ b' k', calls env (queue_run (J := J) m o) b = Some (Ok out, b') ∧
    (k' = k ∧ (∀ u, effect_output (effect u) = Some out) ∨ k' = Datatypes.S k) ∧
    queue_bench m (effect_messages (effect (env_uuid env k)) ms) (n + 1) k' clock b'.
Proof.
  intros [Hh Hn <- <-] Hlt Hu effect Hout. destruct b as [w clock]. simpl in *.
  destruct (memory_queue_exact_run (bench_env env (MkBench w clock)) m o ms w)
    as (w' & Hrun & Hh' & _ & Hv & Hk); [done|lia|done|].
  exists (MkBench w' clock), (w_uuids w'). unfold calls. cbn [b_world b_clock].
  rewrite Hrun. simpl. split_and!.
  - unfold effect in Hout. by destruct (queue_model _ _ _ _); simplify_eq/=.
  - destruct Hk as [[-> Hk]| ->]; [left|by right]. split; [done|].
    intros u. unfold effect. by rewrite Hk.
  - split; simpl; [done|lia|done..].
Qed.

(** The same for the operations themselves, whose errors the tests do not expect. *)
Lemma expects_op {X} m o ms n k clock b (inj : X → queue_output string)
    (p : io Empty_set (result X (Queue.Error Empty_set J))) (x : X) :
  (∀ y z, inj y = inj z → y = z) → queue_run m o = prog_map_ok inj p →
  queue_bench m ms n k clock b → (n < u64_max)%N →
  (∀ v, o = QPublish v → env_uuid env k ∉ Queue.key <$> ms) →
  let effect u := queue_model o (reading b) u ms in
  effect_output (effect (env_uuid env k)) = Some (inj x) →
  ∃ b' k', expects env p b = Some (x, b') ∧
    (k' = k ∧ (∀ u, effect_output (effect u) = Some (inj x)) ∨ k' = Datatypes.S k) ∧
    queue_bench m (effect_messages (effect (env_uuid env k)) ms) (n + 1) k' clock b'.
Proof.
  intros Hinj Hp Hb Hn Hu effect Hout.
  destruct (calls_queue_op m o ms n k clock b _ Hb Hn Hu Hout) as (b' & k' & Hx & Hk & Hb').
  exists b', k'. split; [|done]. rewrite Hp in Hx.
  apply calls_prog_map_ok in Hx as ([y|e] & Hx & [= Hr]). apply Hinj in Hr as ->.
  unfold expects, mbind, test_bind. by rewrite Hx.
Qed.

Lemma expects_publish m v ms n k clock b :
  queue_bench m ms n k clock b → (n < u64_max)%N → env_uuid env k ∉ Queue.key <$> ms →
  let id := Queue.MkMessageId (env_uuid env k) in
  ∃ b', expects env (Queue.publish m v) b = Some (id, b') ∧
    queue_bench m (insert_sorted Queue.key (Queue.MkMessage id v 0 None) ms)
      (n + 1) (Datatypes.S k) clock b'.
Proof.
  intros Hb Hn Hu id.
  destruct (expects_op m (QPublish v) ms n k clock b OutPublished (Queue.publish m v) id)
    as (b' & k' & Hx & Hk & Hb'); [congruence|done..|].
  exists b'. split; [done|]. destruct Hk as [[-> Hk]| ->]; [|done].
  specialize (Hk (env_uuid env k + 1)%N). unfold id in Hk. simplify_eq/=. lia.
Qed.

(** A claim of the first message that is available. *)
Lemma expects_claim m d pre x post n k now b :
  queue_bench m (pre ++ x :: post) n k (Some now) b → (n < u64_max)%N →
  (0 < as_millis d ∧ now + as_millis d ≤ u64_max)%N →
  Forall (λ y, claimable now y = false) pre → claimable now x = true →
  (Queue.attempts x < u32_max)%N →
  let deadline := (now + as_millis d)%N in
  let token := Queue.MkLeaseToken (env_uuid env k) in
  ∃ b', expects env (Queue.claim m d) b = Some (Some (Queue.MkClaim (Queue.id x)
      (Queue.value x) token (Queue.attempts x + 1) deadline), b') ∧
    queue_bench m (pre ++ claimed (env_uuid env k) deadline x :: post)
      (n + 1) (Datatypes.S k) (Some now) b'.
Proof.
  intros Hb Hn Hd Hpre Hx Ha deadline token.
  pose proof (queue_bench_reading _ _ _ _ _ _ Hb) as Hnow.
  assert (∀ u, queue_model (QClaim d) now u (pre ++ x :: post) =
    Updated (pre ++ claimed u deadline x :: post) (OutClaim (Some (Queue.MkClaim (Queue.id x)
      (Queue.value x) (Queue.MkLeaseToken u) (Queue.attempts x + 1) deadline)))) as Hm.
  { intros u. simpl. rewrite decide_True by done. by apply claim_messages_first. }
  destruct (expects_op m (QClaim d) (pre ++ x :: post) n k (Some now) b OutClaim (Queue.claim m d)
    (Some (Queue.MkClaim (Queue.id x) (Queue.value x) token (Queue.attempts x + 1) deadline)))
    as (b' & k' & Hr & Hk & Hb'); [congruence|done..|by rewrite Hnow, Hm|].
  exists b'. split; [done|]. rewrite Hnow, Hm in Hb'. destruct Hk as [[-> Hk]| ->]; [|done].
  specialize (Hk (env_uuid env k + 1)%N). rewrite Hnow, Hm in Hk. unfold token in Hk.
  simplify_eq/=. lia.
Qed.

Lemma expects_claim_none m d ms n k now b :
  queue_bench m ms n k (Some now) b → (n < u64_max)%N →
  (0 < as_millis d ∧ now + as_millis d ≤ u64_max)%N →
  Forall (λ y, claimable now y = false) ms →
  ∃ b' k', expects env (Queue.claim m d) b = Some (None, b') ∧ k ≤ k' ∧
    queue_bench m ms (n + 1) k' (Some now) b'.
Proof.
  intros Hb Hn Hd Hms.
  pose proof (queue_bench_reading _ _ _ _ _ _ Hb) as Hnow.
  assert (∀ u, queue_model (QClaim d) now u ms = Unchanged (OutClaim None)) as Hm.
  { intros u. simpl. rewrite decide_True by done. by apply claim_messages_empty. }
  destruct (expects_op m (QClaim d) ms n k (Some now) b OutClaim (Queue.claim m d) None)
    as (b' & k' & Hr & Hk & Hb'); [congruence|done..|by rewrite Hnow, Hm|].
  rewrite Hnow, Hm in Hb'. exists b', k'. split_and!; [done| |done]. lia.
Qed.

(** An acknowledgement of a message that is stored. *)
Lemma expects_ack m t pre x post n k now b verdict :
  queue_bench m (pre ++ x :: post) n k (Some now) b → (n < u64_max)%N →
  ack_verdict now t x = verdict →
  ∃ b' k', expects env (Queue.ack (V := string) m (Queue.id x) t) b = Some (verdict, b') ∧
    k ≤ k' ∧ queue_bench m
      (if decide (verdict = Queue.Acknowledged) then pre ++ post else pre ++ x :: post)
      (n + 1) k' (Some now) b'.
Proof.
  intros Hb Hn Hverdict.
  pose proof (queue_bench_reading _ _ _ _ _ _ Hb) as Hnow.
  assert (queue_model (QAck (Queue.id x) t) now (env_uuid env k) (pre ++ x :: post) =
    if decide (verdict = Queue.Acknowledged)
    then Updated (pre ++ post) (OutAck Queue.Acknowledged) else Unchanged (OutAck verdict))
    as Hm.
  { destruct Hb as [(a & _ & Hs & _) _ _ _]. simpl.
    rewrite (ack_messages_present now _ t _ (length pre) x) by
      (done || by apply list_lookup_middle).
    rewrite Hverdict, take_app_length, (cons_middle x), app_assoc, drop_app_length' by (rewrite length_app; simpl; lia). by destruct verdict. }
  destruct (expects_op m (QAck (Queue.id x) t) (pre ++ x :: post) n k (Some now) b OutAck
    (Queue.ack m (Queue.id x) t) verdict) as (b' & k' & Hr & Hk & Hb');
    [congruence|done..|rewrite Hnow, Hm; by destruct verdict|].
  exists b', k'. split_and!; [done|lia|]. rewrite Hnow, Hm in Hb'. by destruct verdict.
Qed.

Lemma expects_is_empty m ms n k clock b :
  queue_bench m ms n k clock b → (n < u64_max)%N →
  ∃ b', expects env (Queue.is_empty (V := string) m) b = Some (bool_decide (ms = []), b').
Proof.
  intros Hb Hn.
  destruct (expects_op m QIsEmpty ms n k clock b OutIsEmpty (Queue.is_empty m)
    (bool_decide (ms = []))) as (b' & k' & Hr & _); [congruence|done..|]. eauto.
Qed.

(** The queue as a test has just created it. *)
Definition created_bench m (doc : bytes) (clock : option N) : bench Memory.State :=
  MkBench (MkWorld (Memory.MkState
    {[Queue.location m := MkObject doc (Memory.token 1)]} 1) 0 0) clock.

Lemma created_holds m doc clock :
  Queue.empty_bytes (E := Empty_set) (J := J) (V := string) m = Ok doc →
  memory_holds (J := J) m (w_store (b_world (created_bench m doc clock))) [].
Proof.
  intros Hdoc. exists (put (Queue.location m) doc (Memory.token 1) empty_astore). split.
  - apply (Memory.sim_put Memory.default _ _ _ (Memory.token 1) (Memory.MkState ∅ 1));
      [apply Memory.sim_default|done].
  - apply (queue_holds_created (E := Empty_set) m doc (MkAWorld empty_astore [] []) (Memory.token 1)
      (MkAWorld (put (Queue.location m) doc (Memory.token 1) empty_astore) [] [])); [done|].
    split; [|done]. by intros b Hb.
Qed.

Lemma expects_create qb m clock :
  Queue.finish qb = Ok m →
  ∃ doc, Queue.empty_bytes (E := Empty_set) (J := J) (V := string) m = Ok doc ∧
    create (J := J) env qb (MkBench (MkWorld Memory.default 0 0) clock) =
      Some (m, created_bench m doc clock).
Proof.
  intros Hqb.
  assert (∃ doc, Queue.empty_bytes (E := Empty_set) (J := J) (V := string) m = Ok doc)
    as [doc Hempty].
  { unfold Queue.empty_bytes. match goal with |- context [to_vec ?d] =>
      destruct (json_total (J := J) d) as [doc Hdoc]; destruct (to_vec d); [|done] end.
    by eexists. }
  exists doc. split; [done|].
  unfold create, expects, mbind, test_bind, calls, Queue.create. rewrite Hqb. cbn [map_err].
  rewrite try_bind_Ok, Hempty, try_bind_Ok. reflexivity.
Qed.
End QueueRuns.

(** ** The tests pass *)

Section QueueTestsPass.
Context {J : Type}.
Context `{!ToJson J (Queue.QueueDocument string), !FromJson J (Queue.QueueDocument string)}.
Context `{!JsonRoundTrip (J := J) (D := Queue.QueueDocument string) id}.
Context `{!JsonTotal (J := J) (Queue.QueueDocument string)}.
Context (env : Env).

(** The queue of the tests. *)
Definition jobs {C} (clock : C) : Queue.Queue unit C :=
  Queue.MkQueue tt (MkLocation "tests/queues/jobs.json") "job-v1" clock.

Lemma expects_queue :
  ∃ b, queue (J := J) env TheClock (MkBench (MkWorld Memory.default 0 0) (Some 1000%N)) =
    Some (jobs TheClock, b) ∧ queue_bench (J := J) (jobs TheClock) [] 1 0 (Some 1000%N) b.
Proof.
  destruct (expects_create env (Queue.with_clock (builder "jobs" "job-v1") TheClock)
    (jobs TheClock) (Some 1000%N)) as (doc & Hdoc & Hx); [reflexivity|].
  exists (created_bench (jobs TheClock) doc (Some 1000%N)). split; [exact Hx|].
  split; [by apply created_holds|done..].
Qed.

Lemma acked_test :
  passes (publish_claim_and_ack_removes_message (J := J) env) Memory.default.
Proof.
  unfold passes, publish_claim_and_ack_removes_message. test_step.
  destruct expects_queue as (b1 & Hx & H1). test_call Hx.
  destruct (expects_publish env _ "work" _ _ _ _ _ H1) as (b2 & Hx & H2); [done|set_solver|].
  test_call Hx.
  destruct (expects_claim env _ (from_millis 100) [] _ [] _ _ _ _ H2) as (b3 & Hx & H3);
    [done..|].
  test_call Hx. test_step.
  test_assert; [by apply bool_decide_eq_true|]. do 2 (test_assert; [done|]).
  destruct (expects_ack env _ (Queue.MkLeaseToken (env_uuid env 1)) [] _ [] _ _ _ _
    Queue.Acknowledged H3) as (b4 & k4 & Hx & _ & H4);
    [done|by unfold ack_verdict; simpl; rewrite decide_True|].
  test_call Hx. test_assert; [done|].
  destruct (expects_is_empty env _ _ _ _ _ _ H4) as (b5 & Hx); [done|].
  test_call Hx. by apply passes_end, bool_decide_eq_true.
Qed.

Lemma reclaimed_test :
  (∀ i j, env_uuid env i = env_uuid env j → i = j) →
  passes (lease_expiry_reclaims_with_new_token_and_attempt (J := J) env) Memory.default.
Proof.
  intros Hu. unfold passes, lease_expiry_reclaims_with_new_token_and_attempt. test_step.
  destruct expects_queue as (b1 & Hx & H1). test_call Hx.
  destruct (expects_publish env _ "work" _ _ _ _ _ H1) as (b2 & Hx & H2); [done|set_solver|].
  test_call Hx.
  destruct (expects_claim env _ (from_millis 100) [] _ [] _ _ _ _ H2) as (b3 & Hx & H3);
    [done..|].
  test_call Hx. test_step.
  destruct (expects_claim_none env _ (from_millis 100) _ _ _ _ _ H3)
    as (b4 & k4 & Hx & Hk4 & H4); [done..|by repeat constructor|].
  test_call Hx. test_assert; [done|]. test_step.
  apply (queue_bench_set _ _ _ _ _ 1100) in H4.
  destruct (expects_ack env _ (Queue.MkLeaseToken (env_uuid env 1)) [] _ [] _ _ _ _
    Queue.LeaseExpired H4) as (b5 & k5 & Hx & Hk5 & H5);
    [done|by unfold ack_verdict; simpl; rewrite decide_True|].
  test_call Hx. test_assert; [done|].
  destruct (expects_claim env _ (from_millis 100) [] _ [] _ _ _ _ H5) as (b6 & Hx & H6);
    [done..|].
  test_call Hx. test_step.
  test_assert; [by apply bool_decide_eq_true|]. test_assert; [done|].
  assert (env_uuid env k5 ≠ env_uuid env 1) as Hne by (intros ?%Hu; lia).
  test_assert; [by simpl; rewrite bool_decide_eq_false_2 by congruence|].
  destruct (expects_ack env _ (Queue.MkLeaseToken (env_uuid env 1)) [] _ [] _ _ _ _
    Queue.LeaseMismatch H6) as (b7 & k7 & Hx & _ & H7);
    [done|by unfold ack_verdict; simpl; rewrite decide_False by congruence|].
  test_call Hx. test_assert; [done|].
  destruct (expects_ack env _ (Queue.MkLeaseToken (env_uuid env k5)) [] _ [] _ _ _ _
    Queue.Acknowledged H7) as (b8 & k8 & Hx & _ & _);
    [done|by unfold ack_verdict; simpl; rewrite decide_True|].
  test_call Hx. by apply passes_end.
Qed.

(** The test of the order of claims depends on the UUIDs: identifiers are generated. *)
Lemma ordered_test :
  env_uuid env 0 ≠ env_uuid env 1 →
  passes (claims_available_messages_in_publish_order (J := J) env) Memory.default ↔
  (env_uuid env 0 < env_uuid env 1)%N.
Proof.
  intros Hu. unfold passes, claims_available_messages_in_publish_order. iff_step.
  destruct expects_queue as (b1 & Hx & H1). iff_call Hx.
  destruct (expects_publish env _ "first" _ _ _ _ _ H1) as (b2 & Hx & H2); [done|set_solver|].
  iff_call Hx.
  destruct (expects_publish env _ "second" _ _ _ _ _ H2) as (b3 & Hx & H3);
    [done|intros Heq%list_elem_of_singleton; by apply Hu|].
  iff_call Hx. simpl in H3. unfold Queue.key in H3. simpl in H3.
  destruct (N.ltb_spec (env_uuid env 1) (env_uuid env 0)) as [Hlt|Hge];
    (destruct (expects_claim env _ (from_secs 1) [] _ [_] _ _ _ _ H3) as (b4 & Hx & H4);
      [done..|]); iff_call Hx; iff_step;
    (destruct (expects_claim env _ (from_secs 1) [_] _ [] _ _ _ _ H4) as (b5 & Hx & _);
      [done|done|by repeat constructor|done..|]); iff_call Hx; iff_step;
    (etrans; [apply passes_end|]); rewrite bool_decide_eq_true; simpl;
    (split; [intros; simplify_eq|intros; f_equal]); lia.
Qed.

Lemma refused_test : passes (rejects_zero_and_sub_millisecond_leases (J := J) env) Memory.default.
Proof.
  unfold passes, rejects_zero_and_sub_millisecond_leases. test_step.
  destruct expects_queue as (b1 & Hx & H1). test_call Hx. test_step.
  test_assert; [done|]. test_step. by apply passes_end.
Qed.

Lemma classified_test :
  passes (ack_classifies_missing_and_unclaimed_messages (J := J) env) Memory.default.
Proof.
  unfold passes, ack_classifies_missing_and_unclaimed_messages. test_step.
  destruct expects_queue as (b1 & Hx & H1). test_call Hx. cbv zeta.
  destruct (expects_op env _ (QAck (Queue.MkMessageId nil_uuid) (Queue.MkLeaseToken nil_uuid))
    _ _ _ _ _ OutAck (Queue.ack (jobs TheClock) (Queue.MkMessageId nil_uuid)
      (Queue.MkLeaseToken nil_uuid)) Queue.AckNotFound ltac:(congruence) eq_refl H1)
    as (b2 & k2 & Hx & _ & H2); [done..|].
  test_call Hx. test_assert; [done|].
  destruct (expects_publish env _ "work" _ _ _ _ _ H2) as (b3 & Hx & H3); [done|set_solver|].
  test_call Hx.
  destruct (expects_ack env _ (Queue.MkLeaseToken nil_uuid) [] _ [] _ _ _ _
    Queue.LeaseMismatch H3) as (b4 & k4 & Hx & _ & _); [done..|].
  test_call Hx. by apply passes_end.
Qed.

(** Opening reads the queue once. *)
Lemma calls_open {C} (qb : Queue.QueueBuilder unit C) m (b : bench Memory.State) :
  Queue.finish qb = Ok m →
  calls env (Queue.open (E := Empty_set) (J := J) (V := string) qb) b =
  Some (map_ok (λ _, m) (queue_observed (E := Empty_set) (J := J) (V := string) m
          (Memory.objects (w_store (b_world b)) !! Queue.location m)), b).
Proof.
  intros Hqb. destruct b as [[s nc nu] clock]. unfold calls, Queue.open.
  rewrite Hqb. cbn [map_err]. rewrite try_bind_Ok.
  destruct (queue_read_reads (E := Empty_set) (J := J) (V := string) m) as (k & -> & Hk).
  unfold try_bind. rewrite run_bind. cbn. rewrite Hk. cbn.
  by destruct (queue_observed _ _).
Qed.

(** Reading the queue of the tests under the schema it was created with or another. *)
Lemma observed_jobs {C} (m : Queue.Queue unit C) doc v :
  Queue.empty_bytes (E := Empty_set) (J := J) (V := string) (jobs Queue.MkSystemClock) = Ok doc →
  let d := Queue.MkQueueDocument 1 "queue" "job-v1" ([] : list (Queue.Message string)) in
  queue_observed (E := Empty_set) (J := J) m (Some (MkObject doc v)) =
  if String.eqb "job-v1" (Queue.schema m) then Ok (v, d)
  else Err (Queue.Incompatible
    ("expected schema " +:+ Queue.schema m +:+ ", observed job-v1")).
Proof.
  unfold Queue.empty_bytes. rewrite map_err_Ok. intros Hdoc%(json_round_trip (f := id)).
  unfold queue_observed. cbn [ok_or and_then object_bytes object_version]. rewrite Hdoc.
  cbn [map_err and_then id Queue.format_version Queue.kind Queue.doc_schema Queue.messages].
  cbn [jobs Queue.schema]. by destruct (String.eqb "job-v1" (Queue.schema m)).
Qed.

Lemma validated_test :
  passes (open_validates_existing_queue_and_schema (J := J) env) Memory.default.
Proof.
  unfold passes, open_validates_existing_queue_and_schema.
  destruct (expects_create env (builder "jobs" "job-v1") (jobs Queue.MkSystemClock) None)
    as (doc & Hdoc & Hx); [reflexivity|]. test_call Hx.
  set (b := created_bench _ _ _).
  assert (∀ schema m, Queue.finish (builder "jobs" schema) = Ok m →
    Queue.location m = MkLocation "tests/queues/jobs.json" →
    calls env (Queue.open (E := Empty_set) (J := J) (V := string) (builder "jobs" schema)) b =
    Some (map_ok (λ _, m) (queue_observed m (Some (MkObject doc (Memory.token 1)))), b)) as Hopen.
  { intros schema m Hm Hl. rewrite (calls_open _ m) by done. by rewrite Hl. }
  assert (expects env (Queue.open (builder "jobs" "job-v1")) b =
    Some (jobs Queue.MkSystemClock, b)) as Hx.
  { unfold expects, mbind, test_bind.
    by rewrite (Hopen _ (jobs Queue.MkSystemClock)), observed_jobs. }
  test_call Hx. pose proof (Hopen "job-v2" _ eq_refl eq_refl) as Hx.
  rewrite observed_jobs in Hx by done. test_call Hx. test_assert; [done|].
  pose proof (calls_open (builder "missing" "job-v1") _ b eq_refl) as Hx.
  test_call Hx. by apply passes_end.
Qed.

(** Opening or creating a queue that exists leaves it as it is. *)
Lemma expects_reopen {C} (qb : Queue.QueueBuilder unit C) m
    (ms : list (Queue.Message string)) n k clock b :
  Queue.finish qb = Ok m → queue_bench (J := J) m ms n k clock b →
  expects env (Queue.open_or_create (E := Empty_set) (J := J) (V := string) qb) b = Some (m, b).
Proof.
  intros Hqb [(a & Hsim & Hh) _ _ _]. destruct b as [[s nc nu] cl]. simpl in *.
  destruct (queue_observed_holds (E := Empty_set) m a ms Hh) as (o & d & Ho & _ & Hobs & _).
  destruct Hsim as [Hs _]. rewrite Ho in Hobs.
  unfold expects, mbind, test_bind, calls, Queue.open_or_create. rewrite Hqb. cbn [map_err].
  rewrite try_bind_Ok.
  destruct (queue_read_reads (E := Empty_set) (J := J) (V := string) m) as (r & Hread & Hr).
  simpl. rewrite Hs, Ho, Hread. simpl. rewrite Hs, Ho. unfold try_bind. rewrite Hr. simpl.
  by rewrite Hobs.
Qed.

Lemma reopened_test : passes (open_or_create_is_idempotent (J := J) env) Memory.default.
Proof.
  unfold passes, open_or_create_is_idempotent.
  set (b0 := MkBench _ _).
  assert (∃ doc, Queue.empty_bytes (E := Empty_set) (J := J) (V := string)
      (jobs Queue.MkSystemClock) = Ok doc ∧
    expects env (Queue.open_or_create (E := Empty_set) (J := J) (V := string)
      (builder "jobs" "job-v1")) b0 =
    Some (jobs Queue.MkSystemClock, created_bench (jobs Queue.MkSystemClock) doc None))
    as (doc & Hdoc & Hx).
  { destruct (expects_create env (builder "jobs" "job-v1") (jobs Queue.MkSystemClock) None)
      as (doc & Hdoc & _); [reflexivity|]. exists doc. split; [done|].
    unfold expects, mbind, test_bind, calls, Queue.open_or_create.
    rewrite (eq_refl : Queue.finish (builder "jobs" "job-v1") = Ok (jobs Queue.MkSystemClock)).
    cbn [map_err]. rewrite try_bind_Ok. cbn -[Queue.empty_bytes]. by rewrite Hdoc. }
  test_call Hx.
  assert (queue_bench (J := J) (jobs Queue.MkSystemClock) [] 1 0 None
    (created_bench (jobs Queue.MkSystemClock) doc None)) as H1
    by (split; [by apply created_holds|done..]).
  destruct (expects_publish env _ "work" _ _ _ _ _ H1) as (b2 & Hx & H2); [done|set_solver|].
  test_call Hx.
  pose proof (expects_reopen (builder "jobs" "job-v1") _ _ _ _ _ _ eq_refl H2) as Hx.
  test_call Hx.
  destruct (expects_op env _ QLen _ _ _ _ _ OutLen
    (Queue.len (V := string) (jobs Queue.MkSystemClock)) 1 ltac:(congruence) eq_refl H2)
    as (b3 & k3 & Hx & _); [done..|].
  test_call Hx. by apply passes_end.
Qed.

(** The store of the conflict test, once the queue is created. *)
Definition conflict_bench (doc : bytes) (failing : bool) (nu : nat) :
    bench FailReplaceOnce.State :=
  MkBench (MkWorld (FailReplaceOnce.MkState (Memory.MkState
    {[MkLocation "tests/queues/jobs.json" := MkObject doc (Memory.token 1)]} 1) failing)
    0 nu) None.

Lemma conflict_read env' doc failing nu :
  Queue.empty_bytes (E := Empty_set) (J := J) (V := string) (jobs Queue.MkSystemClock) = Ok doc →
  run (handle env') (Queue.read (E := Empty_set) (J := J) (jobs Queue.MkSystemClock))
    (b_world (conflict_bench doc failing nu)) =
  Some (Ok (Memory.token 1, Queue.MkQueueDocument 1 "queue" "job-v1" []),
    b_world (conflict_bench doc failing nu)).
Proof.
  intros Hdoc.
  destruct (queue_read_reads (E := Empty_set) (J := J) (V := string) (jobs Queue.MkSystemClock))
    as (k & -> & Hk).
  cbn -[jobs queue_observed]. rewrite Hk.
  change (_ !! _) with (Some (MkObject doc (Memory.token 1))).
  by rewrite (observed_jobs (jobs Queue.MkSystemClock) doc (Memory.token 1)).
Qed.

Lemma conflict_test :
  passes (publish_conflict_leaves_queue_unchanged (J := J) env)
    (FailReplaceOnce.MkState Memory.default false).
Proof.
  unfold passes, publish_conflict_leaves_queue_unchanged.
  destruct (expects_create env (builder "jobs" "job-v1") (jobs Queue.MkSystemClock) None)
    as (doc & Hdoc & _); [reflexivity|].
  assert (create (J := J) env (builder "jobs" "job-v1")
    (MkBench (MkWorld (FailReplaceOnce.MkState Memory.default false) 0 0) None) =
    Some (jobs Queue.MkSystemClock, conflict_bench doc false 0)) as Hx.
  { unfold create, expects, mbind, test_bind, calls, Queue.create.
    rewrite (eq_refl : Queue.finish (builder "jobs" "job-v1") = Ok (jobs Queue.MkSystemClock)).
    cbn [map_err]. by rewrite try_bind_Ok, Hdoc. }
  test_call Hx. test_step.
  assert (∃ e, calls env (Queue.publish (E := Empty_set) (J := J) (jobs Queue.MkSystemClock) "work")
    (conflict_bench doc true 0) = Some (Err (Queue.Conflict (Memory.token 1) e),
      conflict_bench doc false 1)) as [e Hx].
  { unfold calls, Queue.publish, try_bind.
    rewrite run_bind, conflict_read by done. cbn -[to_vec].
    match goal with |- context [to_vec ?d] =>
      destruct (json_total (J := J) d) as [b Hb]; destruct (to_vec d); [|done] end.
    by eexists. }
  test_call Hx. test_assert; [done|].
  assert (expects env (Queue.is_empty (V := string) (jobs Queue.MkSystemClock))
    (conflict_bench doc false 1) = Some (true, conflict_bench doc false 1)) as Hx.
  { unfold expects, mbind, test_bind, calls, Queue.is_empty, Queue.len, try_bind.
    by rewrite !run_bind, conflict_read. }
  test_call Hx. by apply passes_end.
Qed.

(** C38: the crates' unit tests, other than that of the S3 builder (whose build is
    [rustfs_configuration_built]), pass, when the UUIDs the process generates differ, every
    document can be encoded and an encoded document decodes; with one proviso: the test of
    the order of claims passes exactly when the identifier generated first is the smaller,
    which the generator documents for the UUIDs of one process. *)
Theorem unit_tests_pass :
  (∀ i j, env_uuid env i = env_uuid env j → i = j) →
  Forall (λ t, passes t Memory.default)
    [publish_claim_and_ack_removes_message (J := J) env;
     lease_expiry_reclaims_with_new_token_and_attempt (J := J) env;
     open_validates_existing_queue_and_schema (J := J) env;
     open_or_create_is_idempotent (J := J) env;
     rejects_zero_and_sub_millisecond_leases (J := J) env;
     ack_classifies_missing_and_unclaimed_messages (J := J) env;
     rejects_a_stale_replacement env;
     path_segments_reject_empty_dot_and_slash; structure_joins_validated_segments] ∧
  passes (publish_conflict_leaves_queue_unchanged (J := J) env)
    (FailReplaceOnce.MkState Memory.default false) ∧
  passes (replacement_conflict_reports_expected_and_observed_versions (J := J) env)
    (ConflictingStore.MkState observed_version) ∧
  passes (open_or_create_opens_the_winner_of_a_create_race (J := J) env)
    (CreateRaceStore.MkState Memory.default false) ∧
  (passes (claims_available_messages_in_publish_order (J := J) env) Memory.default ↔
     (env_uuid env 0 < env_uuid env 1)%N).
Proof.
  intros Hu. split_and!.
  - repeat constructor; auto using acked_test, reclaimed_test, validated_test, reopened_test,
      refused_test, classified_test; by eexists.
  - apply conflict_test.
  - by eexists.
  - by eexists.
  - apply ordered_test. intros H%Hu. discriminate H.
Qed.
End QueueTestsPass.
End UnitTests.
