(* ===== verification/Concurrent.v ===== *)
(** * Concurrent clients

    Any number of clients run operations against one store, their calls
    interleaved arbitrarily.  [cstep] is the machine; [disciplined] says that a
    program makes at most one store read and then at most one conditional write
    that expects what it read.  Every operation of the data structures is
    disciplined, and for disciplined programs every concurrent execution is
    linearizable: the changes of the store are those of the operations executed
    atomically one after another, in the order of their writes, and an operation
    that did not write returns what it would return executed atomically at a moment
    between its invocation and its return.

    The atomic executions are taken in the contract that permits spurious
    conflicts: a client that lost a race sees a conflict and has no effect. *)

From S2P Require Import Prelude.
From S2P Require Import Program.
From S2P Require Import ObjectStore.

(** ** Disciplined programs *)

Section Discipline.
Context {E A : Type}.

Definition returned (p : io E A) : Prop := ∃ a, p = Ret a.

(** [K] is what the program has read: nothing yet, or a location with the object
    found there. *)
Fixpoint disciplined (K : option (Location * option Object)) (p : io E A) : Prop :=
  match p with
  | Ret _ => True
  | Panic => True
  | Call c k =>
      match c return (reply E c → io E A) → (reply E c → (option (Location * option Object) → Prop)) → Prop with
      | Get l => λ k rec,
          K = None ∧ (∀ o, rec (Ok o) (Some (l, o))) ∧ (∀ e, returned (k (Err e)))
      | Create l b => λ k _,
          (K = None ∨ K = Some (l, None)) ∧ ∀ r, returned (k r)
      | Replace l v b => λ k _,
          (∃ o, K = Some (l, Some o) ∧ object_version o = v) ∧ ∀ r, returned (k r)
      | NowMillis => λ k rec, ∀ t, rec t K
      | NowV7 => λ k rec, ∀ u, rec u K
      end k (λ r K, disciplined K (k r))
  end.
End Discipline.

Section DisciplineFacts.
Context {E : Type}.

(** Binding a pure continuation keeps the discipline. *)
Lemma disciplined_bind_pure {A B} K (p : io E A) (f : A → io E B) :
  disciplined K p → (∀ a, returned (f a)) → disciplined K (prog_bind f p).
Proof.
  intros Hp Hf. revert K Hp. induction p as [a| |c k IH]; intros K Hp; simpl.
  - by destruct (Hf a) as [b ->].
  - done.
  - assert (∀ r, returned (k r) → returned (prog_bind f (k r))) as Hret.
    { intros r [a ->]. apply Hf. }
    destruct c; simpl in *; naive_solver.
Qed.

(** Reading an object and continuing with what was found. *)
Lemma disciplined_reads_bind {F T B} (st : E → F) l (obs : option Object → result T F)
    (p : io E (result T F)) (f : T → io E (result B F)) :
  reads_object st l obs p →
  (∀ o x, obs o = Ok x → disciplined (Some (l, o)) (f x)) →
  disciplined None (try_bind f p).
Proof.
  intros (k & -> & Hk) Hf. simpl. split; [done|]. split.
  - intros o. rewrite Hk. destruct (obs o) as [x|e] eqn:Ho; simpl; [by apply Hf|done].
  - intros e. rewrite Hk. by eexists.
Qed.

Lemma disciplined_reads {F T} (st : E → F) l (obs : option Object → result T F)
    (p : io E (result T F)) :
  reads_object st l obs p → disciplined None p.
Proof.
  intros (k & -> & Hk). simpl. split; [done|]. split.
  - intros o. by rewrite Hk.
  - intros e. rewrite Hk. by eexists.
Qed.

Lemma disciplined_now_millis {B} K (f : N → io E B) :
  (∀ t, disciplined K (f t)) → disciplined K (prog_bind f now_millis).
Proof. intros Hf. exact Hf. Qed.

Lemma disciplined_now_v7 {B} K (f : Uuid → io E B) :
  (∀ u, disciplined K (f u)) → disciplined K (prog_bind f now_v7).
Proof. intros Hf. exact Hf. Qed.

(** Encoding and replacing the object read. *)
Lemma disciplined_replaces {F T} l o rb conv (p : io E (result T F)) :
  replaces_object l (object_version o) rb conv p →
  disciplined (Some (l, Some o)) p.
Proof.
  destruct rb as [b|e]; simpl; [|by intros ->].
  intros (k & -> & Hk). simpl. split; [by eexists|]. intros r. rewrite Hk. by eexists.
Qed.
End DisciplineFacts.

(** ** The machine *)

(** The UUID or clock reading a call draws. *)
Definition uuids_drawn {E} (c : call) : reply E c → list Uuid :=
  match c with NowV7 => λ u, [u] | _ => λ _, [] end.

Definition clock_drawn {E} (c : call) : reply E c → list N :=
  match c with NowMillis => λ t, [t] | _ => λ _, [] end.

#[export] Instance astore_eq_dec : EqDecision astore.
Proof. solve_decision. Defined.

Section Machine.
Context {E A : Type} (spurious : bool).

(** One invocation: the operation, how many store changes preceded it, what is
    left of it, and the UUIDs and clock readings it has drawn. *)
Record thread := MkThread {
  t_op : io E A;
  t_start : nat;
  t_cur : io E A;
  t_uuids : list Uuid;
  t_clock : list N;
}.

(** The store, the invocations, every UUID generated so far, and the history of
    the store's changes: who made each, and the store after it. *)
Record config := MkConfig {
  c_store : astore;
  c_threads : gmap nat thread;
  c_uuids : list Uuid;
  c_log : list (nat * astore);
}.

Definition log_change (t : nat) (a a' : astore) (log : list (nat * astore)) :
    list (nat * astore) :=
  if decide (a' = a) then log else log ++ [(t, a')].

Definition call_result (th : thread) (c : call) (r : reply E c) (p : io E A) : thread :=
  MkThread (t_op th) (t_start th) p (t_uuids th ++ uuids_drawn c r)
    (t_clock th ++ clock_drawn c r).

Inductive cstep : config → config → Prop :=
  | cstep_invoke a ths us log t p :
      ths !! t = None →
      cstep (MkConfig a ths us log)
            (MkConfig a (<[t := MkThread p (length log) p [] []]> ths) us log)
  | cstep_call a ths us log t th c (k : reply E c → io E A) r a' :
      ths !! t = Some th → t_cur th = Call (R := reply E) c k →
      store_step spurious a c r a' →
      cstep (MkConfig a ths us log)
            (MkConfig a' (<[t := call_result th c r (k r)]> ths) (us ++ uuids_drawn c r)
               (log_change t a a' log)).

(** Configurations reachable from a store nobody has changed yet. *)
Inductive creachable (a0 : astore) : config → Prop :=
  | creachable_init : creachable a0 (MkConfig a0 ∅ [] [])
  | creachable_step c c' : creachable a0 c → cstep c c' → creachable a0 c'.

(** The store after the first [n] changes. *)
Definition store_at (a0 : astore) (log : list (nat * astore)) (n : nat) : option astore :=
  (a0 :: log.*2) !! n.

(** [p] executed atomically from [a] returns [x] and leaves [a'], having drawn the
    UUIDs [us] and the clock readings [cs]. *)
Definition atomic (p : io E A) (a : astore) (x : A) (a' : astore) (us : list Uuid)
    (cs : list N) : Prop :=
  exec (world_step true) (MkAWorld a [] []) p x (MkAWorld a' us cs).
End Machine.
Arguments thread E A : clear implicits.
Arguments config E A : clear implicits.
Arguments MkThread {E A}.
Arguments MkConfig {E A}.
Arguments t_op {E A} t.
Arguments t_start {E A} t.
Arguments t_cur {E A} t.
Arguments t_uuids {E A} t.
Arguments t_clock {E A} t.
Arguments c_store {E A} c.
Arguments c_threads {E A} c.
Arguments c_uuids {E A} c.
Arguments c_log {E A} c.

(** ** Linearizability *)

Section StepFacts.
Context {E : Type}.

Lemma store_step_mono spurious a c (r : reply E c) a' :
  store_step spurious a c r a' → store_step true a c r a'.
Proof. destruct c; simpl; intros Hs; repeat case_match; naive_solver. Qed.

Lemma world_step_store spurious a us cs c (r : reply E c) a' :
  store_step spurious a c r a' →
  world_step spurious (MkAWorld a us cs) c r
    (MkAWorld a' (us ++ uuids_drawn c r) (cs ++ clock_drawn c r)).
Proof. destruct c; simpl; rewrite ?app_nil_r; intros Hs; subst; eauto. Qed.

Lemma put_ne l b v a : put l b v a ≠ a.
Proof. intros Heq. apply (f_equal puts) in Heq. simpl in Heq. lia. Qed.

(** A conditional write that changed nothing can happen in any state, since a
    conflict may be spurious. *)
Lemma create_unchanged spurious a l b (r : reply E (Create l b)) s :
  store_step spurious a (Create l b) r a → store_step true s (Create l b) r s.
Proof.
  destruct r as [v|[ob|e]]; simpl; [|done|by left].
  intros (_ & Hf & Heq). by destruct (put_ne l b v a).
Qed.

Lemma replace_unchanged spurious a l x b (r : reply E (Replace l x b)) s :
  store_step spurious a (Replace l x b) r a → store_step true s (Replace l x b) r s.
Proof.
  destruct r as [v|[ob|e]]; simpl; [|done|by left].
  intros (_ & Hf & Heq). by destruct (put_ne l b v a).
Qed.

Lemma create_changed spurious a l b (r : reply E (Create l b)) a' :
  store_step spurious a (Create l b) r a' → a' ≠ a → cur a !! l = None.
Proof. destruct r as [v|[ob|e]]; simpl; naive_solver. Qed.

Lemma replace_changed spurious a l x b (r : reply E (Replace l x b)) a' :
  store_step spurious a (Replace l x b) r a' → a' ≠ a →
  (object_version <$> cur a !! l) = Some x.
Proof. destruct r as [v|[ob|e]]; simpl; naive_solver. Qed.
End StepFacts.

Section Linearizable.
Context {E A : Type} (spurious : bool) (a0 : astore).
Implicit Types (th : thread E A) (c : config E A) (log : list (nat * astore))
  (K : option (Location * option Object)).

(** The store agrees with what a program has read. *)
Definition agrees K (s : astore) : Prop :=
  match K with Some (l, o) => cur s !! l = o | None => True end.

(** There was a moment since the invocation when it did, and the object read, if
    any, is the one its version identifies. *)
Definition was_read log a th K : Prop :=
  (∃ n s, t_start th ≤ n ∧ store_at a0 log n = Some s ∧ agrees K s) ∧
  ∀ l o, K = Some (l, Some o) → hist a !! (l, object_version o) = Some (object_bytes o).

(** Running: whatever the rest of the program does from a store agreeing with what
    it read, the whole operation does atomically from that store. *)
Definition resumes th K (p : io E A) : Prop :=
  ∀ s x s' us cs, agrees K s →
    exec (world_step true) (MkAWorld s (t_uuids th) (t_clock th)) p x
      (MkAWorld s' us cs) →
    atomic (t_op th) s x s' us cs.

Definition running log a t th : Prop :=
  (t ∉ log.*1) ∧ ∃ K, disciplined K (t_cur th) ∧ was_read log a th K ∧
    resumes th K (t_cur th).

(** Returned after its one change of the store, the [n]-th. *)
Definition changed log t th : Prop :=
  ∃ n s s' x, log !! n = Some (t, s') ∧ store_at a0 log n = Some s ∧ t_start th ≤ n ∧
    (∀ n' s'', log !! n' = Some (t, s'') → n' = n) ∧ s' ≠ s ∧
    t_cur th = Ret x ∧ atomic (t_op th) s x s' (t_uuids th) (t_clock th).

(** Returned without changing the store, with the result it has atomically at the
    store after the first [n] changes. *)
Definition observed log t th : Prop :=
  (t ∉ log.*1) ∧ ∃ n s x, t_start th ≤ n ∧ store_at a0 log n = Some s ∧
    t_cur th = Ret x ∧ atomic (t_op th) s x s (t_uuids th) (t_clock th).

Definition thread_ok log a t th : Prop :=
  running log a t th ∨ changed log t th ∨ observed log t th.

Record config_ok c : Prop := MkConfigOk {
  ok_coherent : coherent (c_store c);
  ok_current : store_at a0 (c_log c) (length (c_log c)) = Some (c_store c);
  ok_logged : ∀ t, t ∈ (c_log c).*1 → is_Some (c_threads c !! t);
  ok_threads : ∀ t th, c_threads c !! t = Some th →
    thread_ok (c_log c) (c_store c) t th;
  ok_starts : ∀ t th, c_threads c !! t = Some th → t_start th ≤ length (c_log c);
}.

(** *** Other clients' changes *)

Lemma store_at_app log ext n s :
  store_at a0 log n = Some s → store_at a0 (log ++ ext) n = Some s.
Proof.
  unfold store_at. intros Hs. rewrite fmap_app, app_comm_cons. by apply lookup_app_l_Some.
Qed.

Lemma store_at_snoc log t a' : store_at a0 (log ++ [(t, a')]) (length (log ++ [(t, a')])) = Some a'.
Proof.
  unfold store_at. rewrite length_app, fmap_app. simpl. rewrite Nat.add_1_r. simpl.
  rewrite lookup_app_r by (by rewrite length_fmap).
  by rewrite length_fmap, Nat.sub_diag.
Qed.

Lemma log_change_ext t a a' log :
  ∃ ext, log_change t a a' log = log ++ ext ∧ ∀ t', t' ∈ ext.*1 → t' = t.
Proof.
  unfold log_change. case_decide.
  - exists []. rewrite app_nil_r. split; [done|]. by intros t' ?%elem_of_nil.
  - exists [(t, a')]. split; [done|]. by intros t' ?%list_elem_of_singleton.
Qed.

Lemma thread_ok_ext log ext a a' t th :
  thread_ok log a t th → hist a ⊆ hist a' → t ∉ ext.*1 →
  thread_ok (log ++ ext) a' t th.
Proof.
  intros Hok Hsub Ht. assert (t ∉ log.*1 → t ∉ (log ++ ext).*1) as Hlog
    by (rewrite fmap_app; set_solver).
  destruct Hok as [(Hn & K & Hd & [(n & s & ? & ? & ?) Hh] & Himp)|[Hch|(Hn & n & s & x & ? & ? & ?)]].
  - left. split; [by apply Hlog|]. exists K. split; [done|]. split; [|done]. split.
    + exists n, s. eauto using store_at_app.
    + intros l o HK. eapply lookup_weaken; [by apply Hh|done].
  - destruct Hch as (n & s & s' & x & Hn & Hs & Hst & Huniq & ?).
    right. left. exists n, s, s', x. split_and!; try naive_solver.
    + by apply lookup_app_l_Some.
    + by apply store_at_app.
    + intros n' s''. rewrite lookup_app_Some. intros [?|[_ Hn']]; [by eauto|].
      destruct Ht. apply list_elem_of_fmap. exists (t, s''). split; [done|].
      by eapply list_elem_of_lookup_2.
  - right. right. split; [by apply Hlog|]. exists n, s, x. eauto using store_at_app.
Qed.

(** *** A client's own step *)

Lemma running_call cl r th k K s s' x us cs (s1 : astore) :
  resumes th K (Call (R := reply E) cl k) →
  agrees K s → store_step true s cl r s1 →
  exec (world_step true)
    (MkAWorld s1 (t_uuids th ++ uuids_drawn cl r) (t_clock th ++ clock_drawn cl r))
    (k r) x (MkAWorld s' us cs) →
  atomic (t_op th) s x s' us cs.
Proof.
  intros Himp Hs Hstep Hx. apply Himp; [done|]. cbn [exec].
  eexists r, _. split; [by apply world_step_store|done].
Qed.

Lemma resumes_call cl r th k K K' :
  resumes th K (Call (R := reply E) cl k) →
  (∀ s, agrees K' s → agrees K s ∧ store_step true s cl r s) →
  resumes (call_result th cl r (k r)) K' (k r).
Proof.
  intros Himp HK s x s' us cs Hag Hx. destruct (HK s Hag).
  by apply (running_call cl r th k K s s' x us cs s).
Qed.

(** The call of a running program that leaves the store alone and after which it
    returns. *)
Lemma observed_call log a t th cl r k K x :
  t ∉ log.*1 → was_read log a th K →
  resumes th K (Call (R := reply E) cl k) →
  (∀ s, store_step true s cl r s) → k r = Ret x →
  observed log t (call_result th cl r (k r)).
Proof.
  intros Ht [(n & s & Hn & Hs & Hag) _] Himp Hstep Hret. split; [done|].
  exists n, s, x. split_and!; [done..|].
  apply (running_call cl r th k K s s x _ _ s); [done|done|by apply Hstep|]. by rewrite Hret.
Qed.

Lemma changed_call log a t th cl r k K x a' :
  store_at a0 log (length log) = Some a → t_start th ≤ length log →
  t ∉ log.*1 → agrees K a → a' ≠ a →
  resumes th K (Call (R := reply E) cl k) →
  store_step spurious a cl r a' → k r = Ret x →
  changed (log ++ [(t, a')]) t (call_result th cl r (k r)).
Proof.
  intros Hcur Hst Ht Hag Hne Himp Hstep Hret.
  exists (length log), a, a', x. split_and!.
  - by rewrite lookup_app_r, Nat.sub_diag by done.
  - by apply store_at_app.
  - done.
  - intros n' s'' [Hn'|[Hn' Hs'']]%lookup_app_Some.
    + destruct Ht. apply list_elem_of_fmap. exists (t, s''). split; [done|].
      by eapply list_elem_of_lookup_2.
    + apply list_lookup_singleton_Some in Hs'' as [? _]. lia.
  - done.
  - done.
  - apply (running_call cl r th k K a a' x _ _ a');
      [done|done|by eapply store_step_mono|]. by rewrite Hret.
Qed.

Lemma own_step log a t th cl k r a' :
  coherent a → store_at a0 log (length log) = Some a → t_start th ≤ length log →
  thread_ok log a t th → t_cur th = Call (R := reply E) cl k →
  store_step spurious a cl r a' →
  thread_ok (log_change t a a' log) a' t (call_result th cl r (k r)).
Proof.
  intros Hcoh Hcur Hst Hok Hcall Hstep.
  destruct Hok as [(Ht & K & Hd & Hread & Himp)|
    [(? & ? & ? & ? & _ & _ & _ & _ & _ & ? & _)|(_ & ? & ? & ? & _ & _ & ? & _)]];
    [|congruence..].
  rewrite Hcall in Hd, Himp. unfold log_change.
  destruct cl as [l|l b|l v b| |]; simpl in Hd.
  - destruct Hd as (-> & Hok & Herr), Hstep as [-> Hr]. rewrite decide_True by done.
    destruct r as [o|e].
    + destruct Hr as [Hr|[e ?]]; [|done]. simplify_eq. left. split; [done|].
      exists (Some (l, cur a !! l)). split; [by apply Hok|]. split.
      * split; [by exists (length log), a|]. intros l' o' ?; simplify_eq.
        by apply Hcoh.
      * eapply resumes_call; [exact Himp|]. intros s Hag. split; [done|].
        split; [done|left]. simpl in Hag. by rewrite Hag.
    + destruct (Herr e) as [x Hx]. right. right.
      eapply observed_call; [done|exact Hread|exact Himp| |exact Hx].
      intros s. simpl. eauto.
  - destruct Hd as (HK & Hret). destruct (Hret r) as [x Hx]. case_decide as Ha'.
    + subst a'. right. right.
      eapply observed_call; [done|exact Hread|exact Himp| |exact Hx].
      intros s. by eapply create_unchanged.
    + right. left. eapply changed_call; try done.
      destruct HK as [->| ->]; simpl; [done|]. by eapply create_changed.
  - destruct Hd as ((o & -> & Hv) & Hret). destruct (Hret r) as [x Hx].
    case_decide as Ha'.
    + subst a'. right. right.
      eapply observed_call; [done|exact Hread|exact Himp| |exact Hx].
      intros s. by eapply replace_unchanged.
    + right. left. eapply changed_call; try done. simpl.
      pose proof (replace_changed _ _ _ _ _ _ _ Hstep Ha') as Hov.
      apply fmap_Some in Hov as (o' & Ho' & Hv'). rewrite Ho'. f_equal.
      eapply coherent_same_version; [done|by apply Hread|done|congruence].
  - simpl in Hstep. subst a'. rewrite decide_True by done. left. split; [done|].
    exists K. split; [apply Hd|]. split; [done|]. by eapply resumes_call.
  - simpl in Hstep. subst a'. rewrite decide_True by done. left. split; [done|].
    exists K. split; [apply Hd|]. split; [done|]. by eapply resumes_call.
Qed.

(** *** Reachable configurations *)

(** Every operation invoked is disciplined. *)
Definition all_disciplined c : Prop :=
  ∀ t th, c_threads c !! t = Some th → disciplined None (t_op th).

Lemma step_disciplined_back c c' :
  cstep spurious c c' → all_disciplined c' → all_disciplined c.
Proof.
  intros Hstep Hall t th Ht.
  destruct Hstep as [a ths us log t1 p Hn|a ths us log t1 th1 cl k r a1 Ht1 Hc Hs];
    simpl in *.
  - apply (Hall t th). simpl. rewrite lookup_insert_ne; [done|]. congruence.
  - destruct (decide (t1 = t)) as [<-|Hne].
    + simplify_eq. eapply (Hall t1 (call_result _ cl r (k r))). simpl.
      by rewrite lookup_insert_eq.
    + apply (Hall t th). simpl. by rewrite lookup_insert_ne.
Qed.

Lemma config_ok_step c c' :
  config_ok c → cstep spurious c c' → all_disciplined c' → config_ok c'.
Proof.
  intros [Hcoh Hcur Hlog Hths Hst] Hstep Hall.
  destruct Hstep as [a ths us log t p Hn|a ths us log t th cl k r a' Ht Hc Hs];
    simpl in *; split; simpl; try done.
  - intros t' Ht'. rewrite lookup_insert_is_Some. destruct (decide (t = t')); auto.
  - intros t' th' Ht'. destruct (decide (t = t')) as [<-|Hne].
    + rewrite lookup_insert_eq in Ht'. simplify_eq. left. split.
      * intros Hin%Hlog. rewrite Hn in Hin. by destruct Hin.
      * exists None. simpl. split; [|split].
        -- apply (Hall t (MkThread p (length log) p [] [])). simpl.
           by rewrite lookup_insert_eq.
        -- split; [|done]. by exists (length log), a.
        -- intros s x s' us0 cs _ Hx. exact Hx.
    + rewrite lookup_insert_ne in Ht' by done. by apply Hths.
  - intros t' th' Ht'. destruct (decide (t = t')) as [<-|Hne].
    + rewrite lookup_insert_eq in Ht'. by simplify_eq.
    + rewrite lookup_insert_ne in Ht' by done. by eapply Hst.
  - by eapply store_step_coherent.
  - unfold log_change. case_decide as Ha; [by subst|]. apply store_at_snoc.
  - intros t' Ht'. rewrite lookup_insert_is_Some.
    destruct (log_change_ext t a a' log) as (ext & Hext & Hin). rewrite Hext in Ht'.
    rewrite fmap_app, elem_of_app in Ht'. destruct (decide (t = t')) as [|Hne]; [by left|].
    right. split; [done|]. destruct Ht' as [?|Ht'%Hin]; [by apply Hlog|congruence].
  - intros t' th' Ht'. destruct (decide (t = t')) as [<-|Hne].
    + rewrite lookup_insert_eq in Ht'. simplify_eq. by eapply own_step; eauto.
    + rewrite lookup_insert_ne in Ht' by done.
      destruct (log_change_ext t a a' log) as (ext & -> & Hin).
      eapply thread_ok_ext; [by apply Hths|by eapply store_step_hist|].
      intros ?%Hin. congruence.
  - intros t' th' Ht'.
    destruct (log_change_ext t a a' log) as (ext & -> & _). rewrite length_app.
    destruct (decide (t = t')) as [<-|Hne].
    + rewrite lookup_insert_eq in Ht'. simplify_eq/=. pose proof (Hst _ _ Ht). lia.
    + rewrite lookup_insert_ne in Ht' by done. pose proof (Hst _ _ Ht'). lia.
Qed.

Lemma creachable_ok c :
  coherent a0 → creachable spurious a0 c → all_disciplined c → config_ok c.
Proof.
  intros Hcoh. induction 1 as [|c c' Hr IH Hstep]; intros Hall.
  - split; simpl; try done. by intros t ?%elem_of_nil.
  - eapply config_ok_step; [|done..]. eauto using step_disciplined_back.
Qed.

(** What holds of the invocations of a configuration with this history. *)
Record linearized c : Prop := MkLinearized {
  lin_final : store_at a0 (c_log c) (length (c_log c)) = Some (c_store c);
  lin_once : NoDup (c_log c).*1;
  lin_changes : ∀ n t s', c_log c !! n = Some (t, s') →
    ∃ th s x, c_threads c !! t = Some th ∧ store_at a0 (c_log c) n = Some s ∧
      t_start th ≤ n ∧ s' ≠ s ∧ t_cur th = Ret x ∧
      atomic (t_op th) s x s' (t_uuids th) (t_clock th);
  lin_others : ∀ t th x, c_threads c !! t = Some th → t_cur th = Ret x →
    t ∉ (c_log c).*1 →
    ∃ n s, t_start th ≤ n ∧ store_at a0 (c_log c) n = Some s ∧
      atomic (t_op th) s x s (t_uuids th) (t_clock th);
}.

Lemma changed_once c :
  config_ok c → ∀ n n' t s s',
    c_log c !! n = Some (t, s) → c_log c !! n' = Some (t, s') → n = n'.
Proof.
  intros Hok n n' t s s' Hn Hn'.
  destruct (ok_logged _ Hok t) as [th Hth].
  { apply list_elem_of_fmap. exists (t, s). split; [done|].
    by eapply list_elem_of_lookup_2. }
  assert (t ∈ (c_log c).*1) as Hin.
  { apply list_elem_of_fmap. exists (t, s). split; [done|].
    by eapply list_elem_of_lookup_2. }
  destruct (ok_threads _ Hok t th Hth) as [[? _]|[(m & ? & ? & ? & _ & _ & _ & Hu & _)|[? _]]];
    [done| |done].
  by rewrite (Hu _ _ Hn), (Hu _ _ Hn').
Qed.

Lemma config_ok_linearized c : config_ok c → linearized c.
Proof.
  intros Hok. split.
  - apply Hok.
  - apply NoDup_alt. intros n n' t Hn Hn'.
    rewrite list_lookup_fmap, fmap_Some in Hn, Hn'.
    destruct Hn as ([? s] & Hn & ->), Hn' as ([? s'] & Hn' & ?); simplify_eq/=.
    by eapply changed_once.
  - intros n t s' Hn.
    assert (t ∈ (c_log c).*1) as Hin.
    { apply list_elem_of_fmap. exists (t, s'). split; [done|].
      by eapply list_elem_of_lookup_2. }
    destruct (ok_logged _ Hok t Hin) as [th Hth].
    destruct (ok_threads _ Hok t th Hth) as
      [[? _]|[(m & s & s1 & x & Hm & Hs & Hst & Hu & Hne & Hx & Hat)|[? _]]]; [done| |done].
    assert (n = m) as -> by eauto. simplify_eq.
    by exists th, s, x.
  - intros t th x Hth Hx Ht.
    destruct (ok_threads _ Hok t th Hth) as
      [(_ & K & _ & [(n & s & Hn & Hs & Hag) _] & Himp)|
       [(m & s & s1 & ? & Hm & _)|(_ & n & s & x' & ? & ? & Hx' & ?)]].
    + exists n, s. split_and!; [done..|]. apply Himp; [done|]. by rewrite Hx.
    + destruct Ht. apply list_elem_of_fmap. exists (t, s1). split; [done|].
      by eapply list_elem_of_lookup_2.
    + exists n, s. split_and!; [done..|]. congruence.
Qed.

(** Linearizability.  However the calls of concurrent clients interleave, if
    their operations are disciplined, the successive states of the store are those
    obtained by executing operations atomically, one per change and each at most
    once, and an operation that returned without changing the store returned what
    it returns executed atomically at some state that was current since its
    invocation.  Operations take effect after they were invoked, so the order
    respects real time. *)
Lemma creachable_linearized c :
  coherent a0 → creachable spurious a0 c → all_disciplined c →
  linearized c ∧ coherent (c_store c).
Proof.
  intros Ha Hr Hd. pose proof (creachable_ok c Ha Hr Hd) as Hok.
  split; [by apply config_ok_linearized|apply Hok].
Qed.
End Linearizable.

(** ** Generated identifiers *)

Section Identifiers.
Context {E A : Type} (spurious : bool) (a0 : astore).
Implicit Types (c : config E A).

(** An invocation's UUIDs are among those generated, and when the generator never
    repeats itself no two invocations share one. *)
Definition uuids_ok c : Prop :=
  (∀ t th u, c_threads c !! t = Some th → u ∈ t_uuids th → u ∈ c_uuids c) ∧
  (NoDup (c_uuids c) →
   ∀ t t' th th' u, c_threads c !! t = Some th → c_threads c !! t' = Some th' →
     u ∈ t_uuids th → u ∈ t_uuids th' → t = t').

Lemma uuids_ok_step c c' : uuids_ok c → cstep spurious c c' → uuids_ok c'.
Proof.
  intros [Hin Huniq] Hstep. unfold uuids_ok.
  destruct Hstep as [a ths us log t p Hn|a ths us log t th cl k r a' Ht Hc Hs];
    simpl in *; split.
  - intros t1 th1 u [[<- <-]|[_ ?]]%lookup_insert_Some ?; [set_solver|eauto].
  - intros Hnd t1 t2 th1 th2 u [[<- <-]|[_ H1]]%lookup_insert_Some
      [[<- <-]|[_ H2]]%lookup_insert_Some; simpl.
    + done.
    + by intros ?%elem_of_nil.
    + by intros _ ?%elem_of_nil.
    + eauto.
  - simpl. intros t1 th1 u [[<- <-]|[_ ?]]%lookup_insert_Some; simpl;
      rewrite !elem_of_app; [|by eauto]. intros [?|?]; eauto.
  - simpl. intros (Hnd & Hdisj & _)%NoDup_app. specialize (Huniq Hnd).
    assert (∀ t1 th1 u, ths !! t1 = Some th1 → u ∈ t_uuids th1 →
              u ∈ uuids_drawn cl r → False) as Hnew
      by (intros t1 th1 u H1 H2 H3; by apply (Hdisj u); [eapply Hin|]).
    intros t1 t2 th1 th2 u [[<- <-]|[_ H1]]%lookup_insert_Some
      [[<- <-]|[_ H2]]%lookup_insert_Some; simpl; rewrite ?elem_of_app; [done|..].
    + intros [?|?] ?; [by eauto|exfalso; eauto].
    + intros ? [?|?]; [by eauto|exfalso; eauto].
    + eauto.
Qed.

Lemma creachable_uuids_ok c : creachable spurious a0 c → uuids_ok c.
Proof.
  induction 1 as [|c c' _ IH Hstep]; [|by eapply uuids_ok_step].
  unfold uuids_ok. split; simpl; [intros t th u Ht|intros _ t t' th th' u Ht]; by rewrite lookup_empty in Ht.
Qed.
End Identifiers.

(** ** Running the machine

    A deterministic scheduler: the store answers truthfully, the [n]-th action
    assigns version [n], and UUIDs and clock readings are given with the action. *)

Section Scheduler.
Context {E A : Type}.
Implicit Types (c : config E A).

Inductive action := Invoke (t : nat) (p : io E A) | Proceed (t : nat) (u : Uuid) (now : N).

Definition honest (a : astore) (v : Version) (u now : N) (cl : call) :
    reply E cl * astore :=
  match cl return reply E cl * astore with
  | Get l => (Ok (cur a !! l), a)
  | Create l b =>
      match cur a !! l with
      | Some o => (Err (CreateAlreadyExists (object_version o)), a)
      | None => (Ok v, put l b v a)
      end
  | Replace l expected b =>
      if decide ((object_version <$> cur a !! l) = Some expected)
      then (Ok v, put l b v a)
      else (Err (ReplaceConflict (object_version <$> cur a !! l)), a)
  | NowMillis => (now, a)
  | NowV7 => (u, a)
  end.

(** No location has issued the version. *)
Definition unissued (a : astore) (v : Version) : bool :=
  bool_decide (map_Forall (λ lv _, lv.2 ≠ v) (hist a)).

Lemma honest_step a v u now cl :
  unissued a v = true →
  store_step false a cl (honest a v u now cl).1 (honest a v u now cl).2.
Proof.
  intros Hv%bool_decide_eq_true.
  assert (∀ l b, issuable a l b v) as Hf.
  { intros l b b' Hl. by apply Hv in Hl. }
  destruct cl as [l|l b|l x b| |]; simpl; try done.
  - by split; [|left].
  - destruct (cur a !! l) as [o|] eqn:Ho; simpl; [|done]. split; [done|]. eauto.
  - case_decide; simpl; done.
Qed.

Definition act (n : nat) (x : action) c : option (config E A) :=
  match x with
  | Invoke t p =>
      match c_threads c !! t with
      | Some _ => None
      | None => Some (MkConfig (c_store c)
          (<[t := MkThread p (length (c_log c)) p [] []]> (c_threads c))
          (c_uuids c) (c_log c))
      end
  | Proceed t u now =>
      th ← c_threads c !! t;
      match t_cur th with
      | Call cl k =>
          let v := version_new (pretty n) in
          if unissued (c_store c) v then
            let '(r, a') := honest (c_store c) v u now cl in
            Some (MkConfig a' (<[t := call_result th cl r (k r)]> (c_threads c))
                    (c_uuids c ++ uuids_drawn cl r)
                    (log_change t (c_store c) a' (c_log c)))
          else None
      | _ => None
      end
  end.

Fixpoint schedule (n : nat) (xs : list action) c : option (config E A) :=
  match xs with
  | [] => Some c
  | x :: xs => c' ← act n x c; schedule (S n) xs c'
  end.

Lemma act_step n x c c' : act n x c = Some c' → cstep false c c'.
Proof.
  destruct c as [a ths us log], x as [t p|t u now]; simpl.
  - destruct (ths !! t) eqn:Ht; intros; simplify_eq. by constructor.
  - destruct (ths !! t) as [th|] eqn:Ht; simpl; [|done].
    destruct (t_cur th) as [| |cl k] eqn:Hc; try done.
    destruct (unissued a _) eqn:Hv; [|done].
    pose proof (honest_step a _ u now cl Hv) as Hs.
    destruct (honest _ _ _ _ _) as [r a']. intros; simplify_eq. by econstructor.
Qed.

Lemma schedule_reachable a0 n xs c c' :
  creachable false a0 c → schedule n xs c = Some c' → creachable false a0 c'.
Proof.
  revert n c. induction xs as [|x xs IH]; intros n c Hc; simpl; [congruence|].
  destruct (act n x c) as [c1|] eqn:Hx; simpl; [|done].
  apply IH. econstructor; [done|]. by eapply act_step.
Qed.

(** The operations of the invocations are those scheduled. *)
Lemma schedule_ops (op : nat → io E A) n xs c c' :
  (∀ t th, c_threads c !! t = Some th → t_op th = op t) →
  Forall (λ x, match x with Invoke t p => p = op t | _ => True end) xs →
  schedule n xs c = Some c' →
  ∀ t th, c_threads c' !! t = Some th → t_op th = op t.
Proof.
  intros Hc Hxs. revert n c Hc.
  induction Hxs as [|x xs Hx _ IH]; intros n c Hc; simpl; [by intros; simplify_eq; auto|].
  destruct (act n x c) as [c1|] eqn:Hact; simpl; [|done]. apply IH.
  destruct x as [t p|t u now]; simpl in Hact.
  - destruct (c_threads c !! t); simplify_eq/=.
    intros t' th' [[<- <-]|[_ ?]]%lookup_insert_Some; auto.
  - destruct (c_threads c !! t) as [th|] eqn:Ht; simpl in Hact; [|done].
    destruct (t_cur th) as [| |cl k]; try done.
    destruct (unissued _ _); [|done]. destruct (honest _ _ _ _ _) as [r a']. simplify_eq/=.
    intros t' th' [[<- <-]|[_ ?]]%lookup_insert_Some; simpl; auto.
Qed.
End Scheduler.
Arguments action E A : clear implicits.
