(* ===== verification/ConcurrentMap.v ===== *)
(** * Concurrent maps

    Every map operation is disciplined, so [Concurrent] linearizes the executions
    of concurrent map clients: the map's entries evolve by [map_model], one
    operation per change, and no update is lost. *)

From S2P Require Import Prelude.
From S2P Require Import Program.
From S2P Require Import ObjectStore.
From S2P Require Import Json.
From S2P Require Import CoreTypes.
From S2P Require Import Lifecycle.
From S2P Require Import StructMap.
From S2P Require Import Concurrent.
Import Core.

Section MapDiscipline.
Context {S E J V : Type}.
Context `{!ToJson J (Map.MapDocument V), !ToJson J (Map.OwnedMapDocument V),
          !FromJson J (Map.OwnedMapDocument V)}.
Implicit Types (m : Map.Map S).

Lemma map_observed_version m object x :
  map_observed (E := E) (J := J) (V := V) m object = Ok x →
  ∃ o, object = Some o ∧ x.1 = object_version o.
Proof.
  unfold map_observed. destruct object as [o|]; simpl; [|done].
  destruct (from_slice _) as [d|e]; simpl; [|done].
  destruct (validate _ _ _ _ _); simpl; [|done]. intros; simplify_eq. eauto.
Qed.

Lemma map_write_disciplined m o (d : Map.OwnedMapDocument V) :
  disciplined (Some (Map.location m, Some o))
    (Map.write (E := E) (J := J) m (object_version o) d).
Proof.
  unfold Map.write. destruct (to_vec d) as [b|e]; simpl; [|done].
  split; [by exists o|]. intros r. by eexists.
Qed.

Lemma map_run_disciplined m (o : map_op V) :
  disciplined None (map_run (E := E) (J := J) m o).
Proof.
  destruct o as [key| |key value|key value|key]; cbn [map_run];
    (apply disciplined_bind_pure; [|by eexists]);
    (eapply disciplined_reads_bind; [apply map_read_reads|]);
    intros object [v d] (ob & -> & Hv)%map_observed_version; simpl in Hv; subst v; try done.
  - apply map_write_disciplined.
  - destruct (Map.entries_ d !! key); [done|].
    apply disciplined_bind_pure; [apply map_write_disciplined|by eexists].
  - cbv zeta. destruct (Map.entries_ d !! key); [|done].
    apply disciplined_bind_pure; [apply map_write_disciplined|].
    intros [x|e]; by eexists.
Qed.
End MapDiscipline.

Section ConcurrentMap.
Context {S E J V : Type}.
Context `{!ToJson J (Map.MapDocument V), !ToJson J (Map.OwnedMapDocument V),
          !FromJson J (Map.OwnedMapDocument V)}.
Context `{!JsonRoundTrip (J := J) (D := Map.OwnedMapDocument V) id}.
Context (spurious : bool) (m : Map.Map S) (ops : nat → map_op V).
Implicit Types (es : gmap string V) (c : config E (result (map_output V) (Error E J))).

(** The entries after the invocations [ts] took effect in this order. *)
Definition map_after es (ts : list nat) : gmap string V :=
  foldl (λ es t, default es (map_model (ops t) es).1) es ts.

(** Every invocation is one of the operations [ops] on the map. *)
Definition map_clients c : Prop :=
  ∀ t th, c_threads c !! t = Some th → t_op th = map_run m (ops t).

(** An operation that changed the store made the model's change and returned the
    model's output, or an ambiguous backend failure. *)
Lemma map_changed es t s s' x us cs :
  map_holds (J := J) m s es → s' ≠ s →
  atomic (map_run (E := E) m (ops t)) s x s' us cs →
  ∃ es' v, (map_model (ops t) es).1 = Some es' ∧ map_holds (J := J) m s' es' ∧
    (x = Ok ((map_model (ops t) es).2 v) ∨ ∃ e, x = Err (Store e)).
Proof.
  intros Hh Hne Hat. unfold atomic in Hat.
  apply (map_run_outcome true m (ops t) es) in Hat; [|exact Hh]. unfold map_outcome in Hat.
  assert (∀ b v es', wrote (MkAWorld s [] []) (Map.location m) b v (MkAWorld s' us cs) →
            map_decodes (J := J) m b es' → map_holds m s' es') as Hholds.
  { intros b v es' [_ Heq] Hb. injection Heq as -> _ _. eexists. simpl.
    by rewrite lookup_insert_eq. }
  destruct (map_model (ops t) es) as [[es'|] out]; simpl.
  - exists es'. destruct x as [x|[]]; try done.
    + destruct Hat as (b & v & Hw & Hb & ->). exists v. eauto 10.
    + destruct Hat as [Hat|(b & v & Hw & Hb)]; [congruence|]. exists v. eauto 10.
    + case_match; [congruence|done..].
    + destruct Hat; congruence.
  - destruct x as [x|[]]; try done.
    + destruct Hat as [? _]; congruence.
    + congruence.
Qed.

(** An operation that left the store alone and succeeded was a reading one. *)
Lemma map_unchanged es t s x us cs :
  map_holds (J := J) m s es →
  atomic (map_run (E := E) m (ops t)) s (Ok x) s us cs →
  (map_model (ops t) es).1 = None ∧ ∀ v, x = (map_model (ops t) es).2 v.
Proof.
  intros Hh Hat. unfold atomic in Hat.
  apply (map_run_outcome true m (ops t) es) in Hat; [|exact Hh]. unfold map_outcome in Hat.
  destruct (map_model (ops t) es) as [[es'|] out]; simpl.
  - destruct Hat as (b & v & [Hf Heq] & _). injection Heq as Heq _ _.
    symmetry in Heq. by apply put_ne in Heq.
  - by destruct Hat as [_ ?].
Qed.

Lemma map_after_take es log n t (s : astore) :
  log !! n = Some (t, s) →
  map_after es (take (n + 1) log.*1) =
  default (map_after es (take n log.*1))
    (map_model (ops t) (map_after es (take n log.*1))).1.
Proof.
  intros Hn. unfold map_after. rewrite Nat.add_1_r.
  rewrite (take_S_r _ _ t) by (by rewrite list_lookup_fmap, Hn).
  by rewrite foldl_app.
Qed.

(** Every state of the store holds the entries the model gives. *)
Lemma map_history a0 es0 c n s :
  linearized a0 c → map_clients c → map_holds (J := J) m a0 es0 →
  store_at a0 (c_log c) n = Some s →
  map_holds (J := J) m s (map_after es0 (take n (c_log c).*1)).
Proof.
  intros Hlin Hcl Hh. revert s. induction n as [|n IH]; intros s Hs.
  { unfold store_at in Hs. simpl in Hs. by simplify_eq. }
  assert (∃ t, c_log c !! n = Some (t, s)) as [t Hn].
  { unfold store_at in Hs. simpl in Hs. rewrite list_lookup_fmap in Hs.
    apply fmap_Some in Hs as ([t s'] & Hn & ->). eauto. }
  destruct (lin_changes _ _ Hlin n t s Hn) as (th & s0 & x & Hth & Hs0 & _ & Hne & _ & Hat).
  rewrite (Hcl t th Hth) in Hat.
  eapply (map_changed _ _ _ _ _ _ _) in Hat as (es' & v & Hm & Hh' & _); [|by apply IH|done].
  rewrite <-Nat.add_1_r, (map_after_take _ _ _ _ _ Hn), Hm. done.
Qed.

(** No lost updates.  Whatever the interleaving of any number of clients'
    operations on one map, the map ends up with exactly the changes of the
    operations that changed the store, applied one after another in the order of
    their writes; every operation that returned successfully returned what the
    model gives at one moment since its invocation: a mutation at its own place in
    that order, a read-only result at a state of the map that was current.  An operation
    that changed the store and failed reports a failure of the backend. *)
Lemma concurrent_map_no_lost_update a0 es0 c :
  coherent a0 → map_holds (J := J) m a0 es0 →
  creachable spurious a0 c → map_clients c →
  let order := (c_log c).*1 in
  NoDup order ∧ map_holds (J := J) m (c_store c) (map_after es0 order) ∧
  (∀ t th x, c_threads c !! t = Some th → t_cur th = Ret (Ok x) →
    ∃ n v, t_start th ≤ n ∧
      let model := map_model (ops t) (map_after es0 (take n order)) in
      x = model.2 v ∧
      ((order !! n = Some t ∧ is_Some model.1) ∨ ((t ∉ order) ∧ model.1 = None))) ∧
  ∀ t, t ∈ order → ∃ th x, c_threads c !! t = Some th ∧ t_cur th = Ret x ∧
    (is_Some (ok x) ∨ ∃ e, x = Err (Store e)).
Proof.
  intros Hcoh Hh Hr Hcl order.
  destruct (creachable_linearized spurious a0 c Hcoh Hr) as [Hlin _].
  { intros t th Hth. rewrite (Hcl t th Hth). apply map_run_disciplined. }
  pose proof (λ n s, map_history a0 es0 c n s Hlin Hcl Hh) as Hhist.
  split; [apply Hlin|]. split.
  { pose proof (Hhist _ _ (lin_final _ _ Hlin)) as Hf.
    rewrite take_ge in Hf by (by rewrite length_fmap). done. }
  assert (∀ n t s', c_log c !! n = Some (t, s') → ∃ th x, c_threads c !! t = Some th ∧
    t_start th ≤ n ∧ t_cur th = Ret x ∧ ∃ es' v,
      (map_model (ops t) (map_after es0 (take n order))).1 = Some es' ∧
      (x = Ok ((map_model (ops t) (map_after es0 (take n order))).2 v) ∨
       ∃ e, x = Err (Store e))) as Hchange.
  { intros n t s' Hn.
    destruct (lin_changes _ _ Hlin n _ s' Hn) as (th & s & x & Hth & Hs & Hst & Hne & Hx & Hat).
    rewrite (Hcl _ _ Hth) in Hat.
    eapply (map_changed _ _ _ _ _ _ _) in Hat as (es' & v & Hm & _ & Hres); [|by apply Hhist|done].
    exists th, x. eauto 10. }
  split.
  - intros t th x Hth Hx. destruct (decide (t ∈ order)) as [Hin|Hin].
    + apply list_elem_of_fmap in Hin as ([t1 s'] & -> & [n Hn]%list_elem_of_lookup).
    destruct (Hchange n _ s' Hn) as (th' & x' & Hth' & Hst & Hx' & es' & v & Hm & Hres).
    simpl in *. simplify_eq. exists n, v. split; [done|].
    assert (x' = Ok x) as -> by congruence.
    destruct Hres as [?|[e ?]]; [|done]. simplify_eq. split; [done|left].
    split; [|by eexists]. unfold order. by rewrite list_lookup_fmap, Hn.
    + destruct (lin_others _ _ Hlin t th _ Hth Hx Hin) as (n & s & Hst & Hs & Hat).
    rewrite (Hcl _ _ Hth) in Hat.
    eapply (map_unchanged _ _ _ _ _ _) in Hat as [Hm Hout]; [|by apply Hhist].
    exists n, (version_new ""). split; [done|]. split; [apply Hout|by right].
  - intros t ([t1 s'] & -> & [n Hn]%list_elem_of_lookup)%list_elem_of_fmap.
    destruct (Hchange n _ s' Hn) as (th & x & Hth & _ & Hx & es' & v & _ & Hres).
    exists th, x. split; [done|]. split; [done|]. destruct Hres as [->|?]; [left; by eexists|by right].
Qed.
End ConcurrentMap.
