(* ===== verification/ConcurrentQueue.v ===== *)
(** * Concurrent queue workers

    Every queue operation is disciplined, so the changes that concurrent workers
    make to a queue form a history in the sense of [QueueHistory]: mutual exclusion
    of leases, at-least-once delivery and the authorization of acknowledgements hold
    of concurrent executions. *)

From S2P Require Import Prelude.
From S2P Require Import Program.
From S2P Require Import ObjectStore.
From S2P Require Import Json.
From S2P Require Import WorkQueue.
From S2P Require Import QueueRefinement.
From S2P Require Import QueueHistory.
From S2P Require Import Concurrent.

Section QueueDiscipline.
Context {S C E J V : Type}.
Context `{!ToJson J (Queue.QueueDocument V), !FromJson J (Queue.QueueDocument V)}.
Implicit Types (m : Queue.Queue S C).

Lemma queue_observed_version m object x :
  queue_observed (E := E) (J := J) (V := V) m object = Ok x →
  ∃ o, object = Some o ∧ x.1 = object_version o.
Proof.
  unfold queue_observed. destruct object as [o|]; simpl; [|done].
  destruct (from_slice _) as [d|e]; simpl; [|done].
  repeat (case_match; [done|]). intros; simplify_eq. eauto.
Qed.

Lemma queue_write_disciplined {B} m o (d : Queue.QueueDocument V)
    (f : unit → io E (result B (Queue.Error E J))) :
  (∀ x, returned (f x)) →
  disciplined (Some (Queue.location m, Some o))
    (try_bind f (Queue.write (E := E) (J := J) m (object_version o) d)).
Proof.
  intros Hf. apply disciplined_bind_pure; [|by intros [v|e]; [apply Hf|eexists]].
  unfold Queue.write. destruct (to_vec d) as [b|e]; simpl; [|done].
  split; [by exists o|]. intros [v|[ob|e]]; simpl; by eexists.
Qed.

Lemma queue_read_disciplined {B} m (f : _ → io E (result B (Queue.Error E J))) :
  (∀ o d, disciplined (Some (Queue.location m, Some o)) (f (object_version o, d))) →
  disciplined None (try_bind f (Queue.read (V := V) m)).
Proof.
  intros Hf. eapply disciplined_reads_bind; [apply queue_read_reads|].
  intros object [v d] (o & -> & Hv)%queue_observed_version. simpl in Hv. subst. apply Hf.
Qed.

Lemma claim_disciplined m d : disciplined None (Queue.claim (E := E) (J := J) (V := V) m d).
Proof.
  unfold Queue.claim. rewrite lease_millis_spec.
  case_decide; cbn [ok_or]; [rewrite try_bind_Ok|done].
  apply disciplined_now_millis. intros now.
  destruct (checked_add u64_max now (as_millis d)) as [dl|]; cbn [ok_or]; [|done].
  rewrite try_bind_Ok.
  apply queue_read_disciplined. intros o doc.
  destruct (position _ _) as [i|]; [|done]. apply disciplined_now_v7. intros u. cbv zeta.
  destruct (Queue.messages doc !! i) as [x|] eqn:Hx; [|done]. cbn [or_panic prog_bind].
  destruct (checked_add u32_max _ _) as [k|]; cbn [ok_or]; [|done].
  apply (queue_write_disciplined m o). intros _.
  cbn [Queue.messages Queue.set_messages].
  rewrite list_lookup_insert_eq by (by eapply lookup_lt_Some). by eexists.
Qed.

Lemma ack_disciplined m i t : disciplined None (Queue.ack (E := E) (J := J) (V := V) m i t).
Proof.
  apply disciplined_now_millis. intros now. apply queue_read_disciplined. intros o d.
  destruct (binary_search_by_key _ _ _) as [j|j]; [|done].
  destruct (Queue.messages d !! j) as [x|]; [|done]. cbn [or_panic prog_bind].
  destruct (Queue.lease x) as [l|]; [|done]. repeat case_match; try done.
  destruct (vec_remove _ _) as [[x' ms]|]; [|done]. cbn [or_panic prog_bind].
  apply (queue_write_disciplined m o). intros _. by eexists.
Qed.

Lemma queue_run_disciplined m (o : queue_op V) :
  disciplined None (queue_run (E := E) (J := J) m o).
Proof.
  destruct o as [v|d|i t| |]; cbn [queue_run];
    (apply disciplined_bind_pure; [|by eexists]).
  - apply queue_read_disciplined. intros o d. apply disciplined_now_v7. intros u. cbv zeta.
    destruct (vec_insert _ _ _) as [ms|]; [|done]. cbn [or_panic prog_bind].
    apply (queue_write_disciplined m o). intros _. by eexists.
  - apply claim_disciplined.
  - apply ack_disciplined.
  - by apply queue_read_disciplined.
  - apply disciplined_bind_pure; [|intros [n|e]; by eexists].
    by apply queue_read_disciplined.
Qed.
End QueueDiscipline.

Section ConcurrentQueue.
Context {S C E J V : Type}.
Context `{!ToJson J (Queue.QueueDocument V), !FromJson J (Queue.QueueDocument V)}.
Context `{!JsonRoundTrip (J := J) (D := Queue.QueueDocument V) id}.
Context (spurious : bool) (m : Queue.Queue S C) (ops : nat → queue_op V).
Implicit Types (ms : list (Queue.Message V))
  (c : config E (result (queue_output V) (Queue.Error E J))).

(** Every invocation is one of the operations [ops] on the queue. *)
Definition queue_clients c : Prop :=
  ∀ t th, c_threads c !! t = Some th → t_op th = queue_run m (ops t).

(** The clock readings and UUIDs an operation that changes the queue draws. *)
Definition draws_clock (o : queue_op V) : bool :=
  match o with QClaim _ | QAck _ _ => true | _ => false end.

Definition draws_uuid (o : queue_op V) : bool :=
  match o with QPublish _ | QClaim _ => true | _ => false end.

(** Event [e] with output [out] is what invocation [t] did: its operation, at the
    clock reading and the UUID it drew; it returned the output, unless the backend
    failed ambiguously. *)
Definition event_of c (t : nat) (e : qevent V) (out : option (queue_output V)) : Prop :=
  ∃ th x, c_threads c !! t = Some th ∧ ev_op e = ops t ∧ t_cur th = Ret x ∧
    (draws_clock (ops t) = true → t_clock th = [ev_now e]) ∧
    (draws_uuid (ops t) = true → t_uuids th = [ev_uuid e]) ∧
    (Ok <$> out = Some x ∨ ∃ e, x = Err (Queue.Store e)).

Lemma claim_updated d now u ms ms' out :
  queue_model (QClaim d) now u ms = Updated ms' out →
  (now + as_millis d ≤ u64_max)%N ∧
  ∃ cl : Queue.Claim V, out = OutClaim (Some cl) ∧
    Queue.lease_token cl = Queue.MkLeaseToken u ∧
    Queue.lease_expires_at_millis cl = (now + as_millis d)%N.
Proof.
  simpl. case_decide as Hd; [|done].
  destruct (claim_messages_split now (now + as_millis d) u ms)
    as [[_ ->]|(pre & x & post & -> & _ & _ & ->)]; [done|].
  destruct (_ <? _)%N; [|done]. intros; simplify_eq. split; [lia|eauto].
Qed.

(** A reading that matters was taken. *)
Lemma drawn_clock (o : queue_op V) now u ms ms' out cs :
  queue_model o now u ms = Updated ms' out → draws_clock o = true →
  drawn cs now (λ now, queue_model o now u ms) → cs = [now].
Proof.
  intros Hm Ho [?|[_ Hf]]; [done|]. destruct o as [v|d|i t| |]; try done.
  - destruct (claim_updated _ _ _ _ _ _ Hm) as [Hle _].
    specialize (Hf (u64_max + 1)%N). rewrite Hm in Hf. simpl in Hf.
    rewrite decide_False in Hf by lia. done.
  - simpl in Hm, Hf. unfold ack_messages in Hm, Hf.
    destruct (head _) as [x|]; [|done]. unfold ack_verdict in Hm, Hf.
    destruct (Queue.lease x) as [l|]; [|done].
    specialize (Hf (Queue.expires_at_millis l)). case_decide; [|done].
    rewrite N.ltb_irrefl in Hf. destruct (_ <? _)%N; done.
Qed.

Lemma drawn_uuid (o : queue_op V) now u ms ms' out us :
  queue_model o now u ms = Updated ms' out → draws_uuid o = true →
  drawn us u (λ u, queue_model o now u ms) → us = [u].
Proof.
  intros Hm Ho [?|[_ Hf]]; [done|]. specialize (Hf (u + 1)%N). rewrite Hm in Hf.
  destruct o as [v|d|i t| |]; try done.
  - simpl in Hf, Hm. simplify_eq. lia.
  - destruct (claim_updated _ _ _ _ _ _ Hm) as (_ & c & -> & Hc & _).
    destruct (claim_updated _ _ _ _ _ _ Hf) as (_ & c' & Heq & Hc' & _).
    simplify_eq. rewrite Hc in Hc'. simplify_eq. lia.
Qed.

(** One change, executed atomically where the queue holds [ms]. *)
Lemma queue_changed t ms s s' x us cs :
  queue_holds (J := J) m s ms → s' ≠ s →
  atomic (queue_run (E := E) m (ops t)) s x s' us cs →
  (∀ v u, ops t = QPublish v → us = [u] → u ∉ Queue.key <$> ms) →
  ∃ e out ms', ev_op e = ops t ∧
    (draws_clock (ops t) = true → cs = [ev_now e]) ∧
    (draws_uuid (ops t) = true → us = [ev_uuid e]) ∧
    event_effect e ms = Updated ms' out ∧
    (∃ b v, s' = put (Queue.location m) b v s ∧ queue_decodes (J := J) m b ms') ∧
    (x = Ok out ∨ ∃ e, x = Err (Queue.Store e)).
Proof.
  intros Hh Hne Hat Hfresh. unfold atomic in Hat.
  apply (queue_run_refines true m (ops t) ms) in Hat; [|exact Hh].
  destruct Hat as [[_ Heq]|(now & u & cs' & us' & Hcs & Hdc & Hus & Hdu & Hout)];
    simpl in *; [congruence|]. subst cs' us'.
  assert (∀ v, ops t = QPublish v → u ∉ Queue.key <$> ms) as Hf.
  { intros v Hv. apply (Hfresh v u Hv). rewrite Hv in Hdu.
    by eapply (drawn_uuid (QPublish v)). }
  specialize (Hout Hf).
  destruct (queue_model (ops t) now u ms) as [why|out|ms' out] eqn:Hm;
    [exfalso; destruct x as [x|[]]; simpl in Hout; naive_solver..|].
  exists (MkEvent (ops t) now u), out, ms'. unfold event_effect. simpl.
  split_and!; [done|by intros; eapply drawn_clock|by intros; eapply drawn_uuid|done|..];
    destruct x as [x|[]]; simpl in Hout; naive_solver congruence.
Qed.

(** The first [n] changes, as a history. *)
Definition changes_history (a0 : astore) c n h ms : Prop :=
  history h ms ∧ length h = n ∧
  (∀ s, store_at a0 (c_log c) n = Some s → queue_holds (J := J) m s ms) ∧
  ∀ k e out, h !! k = Some (e, out) →
    ∃ t s, c_log c !! k = Some (t, s) ∧ event_of c t e out.

Lemma event_published h ms i e out :
  history h ms → (e, out) ∈ h → published_id (e, out) = Some i →
  i = Queue.MkMessageId (ev_uuid e) ∧ ∃ v, ev_op e = QPublish v.
Proof.
  intros Hh [k Hk]%list_elem_of_lookup Hp.
  destruct (history_at _ _ _ _ _ Hh Hk) as (ms1 & _ & _ & ->). unfold published_id in Hp.
  unfold event_effect in Hp. destruct e as [[v|d|j t| |] now u]; simpl in Hp; try done.
  - simplify_eq. eauto.
  - case_decide; [|done].
    destruct (claim_messages_split now (now + as_millis d) u ms1)
      as [[_ Hc]|(pre & x & post & _ & _ & _ & Hc)]; rewrite Hc in Hp; [done|].
    by destruct (Queue.attempts x <? u32_max)%N.
  - unfold ack_messages in Hp. by repeat case_match.
Qed.

(** A UUID drawn by a publisher that has not changed the queue yet was not
    published before. *)
Lemma publish_fresh a0 c n h ms t th v u :
  uuids_ok c → NoDup (c_uuids c) → changes_history a0 c n h ms →
  (∀ k s, c_log c !! k = Some (t, s) → n ≤ k) → c_threads c !! t = Some th →
  ops t = QPublish v → t_uuids th = [u] → Queue.MkMessageId u ∉ published h.
Proof.
  intros [_ Huniq] Hnd (Hh & Hlen & _ & Hev) Hn Hth Hop Hu Hin.
  apply list_elem_of_omap in Hin as ([e out] & Hin & Hid).
  destruct (event_published _ _ _ _ _ Hh Hin Hid) as [Heq [v' Hv']].
  apply list_elem_of_lookup in Hin as [k Hk].
  destruct (Hev k e out Hk) as (t' & s' & Ht' & th' & x & Hth' & Hop' & _ & _ & Hpub & _).
  rewrite <-Hop', Hv' in Hpub. specialize (Hpub eq_refl). injection Heq as ->.
  assert (t = t') as <-.
  { eapply (Huniq Hnd); [exact Hth|exact Hth'| |].
    - rewrite Hu. apply list_elem_of_here.
    - rewrite Hpub. apply list_elem_of_here. }
  apply Hn in Ht'. apply lookup_lt_Some in Hk. lia.
Qed.

Lemma changes_history_exists a0 c n :
  linearized a0 c → uuids_ok c → NoDup (c_uuids c) → queue_clients c →
  queue_holds (J := J) m a0 ([] : list (Queue.Message V)) → n ≤ length (c_log c) →
  ∃ h ms, changes_history a0 c n h ms.
Proof.
  intros Hlin Hok Hnd Hcl Ha0. induction n as [|n IH]; intros Hn.
  { exists [], []. split; [constructor|]. split; [done|]. split.
    - intros s Hs. unfold store_at in Hs. by simplify_eq/=.
    - intros k e out Hk. by rewrite lookup_nil in Hk. }
  destruct IH as (h & ms & Hch); [lia|].
  destruct (lookup_lt_is_Some_2 (c_log c) n) as [[t s'] Ht]; [lia|].
  destruct (lin_changes _ _ Hlin n t s' Ht) as
    (th & s & x & Hth & Hs & _ & Hne & Hx & Hat).
  rewrite (Hcl t th Hth) in Hat. pose proof Hch as (Hh & Hlen & Hholds & Hev).
  assert (∀ v u, ops t = QPublish v → t_uuids th = [u] →
            Queue.MkMessageId u ∉ published h) as Hfresh.
  { intros v u Hv Hu. eapply (publish_fresh a0 c n h ms t th v); [done|done|done| |done|done|done].
    intros k s1 Hk. apply Nat.eq_le_incl. symmetry.
    eapply (NoDup_lookup _ _ _ t); [apply (lin_once _ _ Hlin)| |];
      by rewrite list_lookup_fmap, ?Hk, ?Ht. }
  destruct (queue_changed t ms s s' x _ _ (Hholds s Hs) Hne Hat) as
    (e & out & ms' & Hop & Hcs & Hus & Heff & (b & v & -> & Hb) & Hres).
  { intros v u Hv Hu (y & -> & Hy)%list_elem_of_fmap. apply (Hfresh v _ Hv Hu).
    destruct (inv_accounted _ _ (history_inv _ _ Hh) y Hy) as (Hp & _).
    apply published_as_published in Hp.
    by rewrite <-(proj2 (id_key y (Queue.MkMessageId (Queue.key y)))). }
  assert (history (h ++ [(e, Some out)]) ms') as Hh'.
  { assert (∀ v, ev_op e = QPublish v → Queue.MkMessageId (ev_uuid e) ∉ published h) as Hf.
    { intros v' Hv'. rewrite Hop in Hv'. apply (Hfresh v'); [done|].
      apply Hus. by rewrite Hv'. }
    pose proof (history_step h ms e Hh Hf) as Hh'. by rewrite Heff in Hh'. }
  exists (h ++ [(e, Some out)]), ms'. split; [done|].
  split; [rewrite length_app; simpl; lia|]. split.
  - intros s1 Hs1. assert (s1 = put (Queue.location m) b v s) as ->.
    { unfold store_at in Hs1. simpl in Hs1. rewrite list_lookup_fmap, Ht in Hs1.
      by simplify_eq/=. }
    split; [apply (history_inv _ _ Hh')|]. eexists. simpl. by rewrite lookup_insert_eq.
  - intros k e1 out1 [Hk|[Hk Hk1]]%lookup_app_Some; [by apply Hev|].
    apply list_lookup_singleton_Some in Hk1 as [Hk1 Heq]. simplify_eq.
    assert (k = length h) as -> by lia. exists t, (put (Queue.location m) b v s).
    split; [done|]. exists th, x. split_and!; try done.
    destruct Hres as [->|[e' ->]]; [by left|right; eauto].
Qed.

(** What an operation that did not change the queue can return. *)
Definition quiet (x : queue_output V) : Prop :=
  match x with
  | OutPublished _ | OutClaim (Some _) | OutAck Queue.Acknowledged => False
  | _ => True
  end.

Lemma unchanged_quiet (o : queue_op V) now u ms out :
  queue_model o now u ms = Unchanged out → quiet out.
Proof.
  destruct o as [v|d|i t| |]; simpl; try (intros; by simplify_eq).
  - case_decide; [|done].
    destruct (claim_messages_split now (now + as_millis d) u ms)
      as [[_ ->]|(pre & x & post & _ & _ & _ & ->)]; [intros; by simplify_eq|].
    by destruct (_ <? _)%N.
  - unfold ack_messages. destruct (head _) as [x|]; [|intros; by simplify_eq].
    destruct (ack_verdict now t x); intros; by simplify_eq.
Qed.

(** What the invocations of a configuration did, as a history. *)
Record worked c h ms : Prop := MkWorked {
  worked_history : history h ms;
  worked_holds : queue_holds (J := J) m (c_store c) ms;
  worked_events : ∀ k e out, h !! k = Some (e, out) →
    ∃ t s, c_log c !! k = Some (t, s) ∧ event_of c t e out;
  worked_results : ∀ t th x, c_threads c !! t = Some th → t_cur th = Ret (Ok x) →
    (∃ k e s, h !! k = Some (e, Some x) ∧ c_log c !! k = Some (t, s) ∧
              event_of c t e (Some x)) ∨
    ((t ∉ (c_log c).*1) ∧ quiet x);
}.

Lemma unlogged_quiet a0 c t th x :
  linearized a0 c → uuids_ok c → NoDup (c_uuids c) → queue_clients c →
  queue_holds (J := J) m a0 ([] : list (Queue.Message V)) →
  c_threads c !! t = Some th → t_cur th = Ret (Ok x) → t ∉ (c_log c).*1 → quiet x.
Proof.
  intros Hlin Hok Hnd Hcl Ha0 Hth Hx Ht.
  destruct (lin_others _ _ Hlin t th _ Hth Hx Ht) as (n & s & _ & Hs & Hat).
  rewrite (Hcl t th Hth) in Hat. unfold atomic in Hat.
  assert (n ≤ length (c_log c)) as Hn.
  { apply lookup_lt_Some in Hs. simpl in Hs. rewrite length_fmap in Hs. lia. }
  destruct (changes_history_exists a0 c n) as (h & ms & Hch); [done..|].
  pose proof Hch as (Hh & _ & Hholds & _).
  apply (queue_run_refines true m (ops t) ms) in Hat; [|by apply Hholds].
  destruct Hat as [[[e ?] _]|(now & u & cs' & us' & Hcs & Hdc & Hus & Hdu & Hout)];
    [done|]. simpl in Hcs, Hus. subst cs' us'.
  assert (∀ v, ops t = QPublish v → u ∉ Queue.key <$> ms) as Hf.
  { intros v Hv (y & -> & Hy)%list_elem_of_fmap. rewrite Hv in Hdu.
    eapply (publish_fresh a0 c n h ms t th v (Queue.key y)); [done|done|done| |done|done| |].
    - intros k s1 Hk. destruct Ht. apply list_elem_of_fmap. exists (t, s1).
      split; [done|]. by eapply list_elem_of_lookup_2.
    - by eapply (drawn_uuid (QPublish v)).
    - destruct (inv_accounted _ _ (history_inv _ _ Hh) y Hy) as (Hp & _).
      apply published_as_published in Hp.
      by rewrite <-(proj2 (id_key y (Queue.MkMessageId (Queue.key y)))). }
  specialize (Hout Hf).
  destruct (queue_model (ops t) now u ms) as [why|out|ms' out] eqn:Hm; simpl in Hout.
  - by destruct Hout.
  - destruct Hout as [? _]. simplify_eq. by eapply unchanged_quiet.
  - destruct Hout as (_ & b & v & Hfv & Heq & _). symmetry in Heq. by apply put_ne in Heq.
Qed.

Lemma worked_exists a0 c :
  coherent a0 → queue_holds (J := J) m a0 ([] : list (Queue.Message V)) →
  creachable spurious a0 c → queue_clients c → NoDup (c_uuids c) →
  ∃ h ms, worked c h ms ∧ length h = length (c_log c).
Proof.
  intros Hcoh Ha0 Hr Hcl Hnd.
  destruct (creachable_linearized spurious a0 c Hcoh Hr) as [Hlin _].
  { intros t th Hth. rewrite (Hcl t th Hth). apply queue_run_disciplined. }
  pose proof (creachable_uuids_ok _ _ _ Hr) as Hok.
  destruct (changes_history_exists a0 c (length (c_log c))) as (h & ms & Hh & Hlen & Hs & Hev);
    [done..|].
  exists h, ms. split; [|done]. split; [done|apply Hs, (lin_final _ _ Hlin)|done|].
  intros t th x Hth Hx. destruct (decide (t ∈ (c_log c).*1)) as [Hin|Hin].
  - left. apply list_elem_of_fmap in Hin as ([t1 s] & -> & [k Hk]%list_elem_of_lookup).
    destruct (lookup_lt_is_Some_2 h k) as [[e out] He].
    { rewrite Hlen. by eapply lookup_lt_Some. }
    destruct (Hev k e out He) as (t2 & s2 & Hk2 & Hev2). simpl. simplify_eq/=.
    pose proof Hev2 as (th2 & x2 & Hth2 & _ & Hx2 & _ & _ & Hres). simplify_eq.
    assert (x2 = Ok x) as -> by congruence.
    destruct Hres as [Hres|[e' ?]]; [|done]. destruct out as [out|]; simplify_eq/=.
    exists k, e; eexists; done.
  - right. split; [done|]. by eapply unlogged_quiet.
Qed.

(** Concurrent workers refine the sequential queue.  If UUIDs do not repeat, the
    changes that any interleaving of workers' operations makes to a queue created
    empty form a history of [queue_model]: one event per change, in the order of the
    writes, each with the operation, the clock reading and the UUID of the worker
    that made it and, unless the backend failed ambiguously, the output that worker
    got.  The queue holds the messages of that history, and a worker that succeeded
    without changing it was told so: it published, claimed and removed nothing. *)
Lemma concurrent_queue_history a0 c :
  coherent a0 → queue_holds (J := J) m a0 ([] : list (Queue.Message V)) →
  creachable spurious a0 c → queue_clients c → NoDup (c_uuids c) →
  ∃ h ms, worked c h ms ∧ length h = length (c_log c).
Proof. apply worked_exists. Qed.
End ConcurrentQueue.
