(* ===== verification/QueueWorkers.v ===== *)
(** * What concurrent workers can rely on

    The promises of the work queue, stated of the configurations the concurrent
    machine reaches when every invocation is one of the source's queue operations
    on one queue that was created empty, and the UUID generator does not repeat
    itself. *)

From S2P Require Import Prelude.
From S2P Require Import Program.
From S2P Require Import ObjectStore.
From S2P Require Import Json.
From S2P Require Import WorkQueue.
From S2P Require Import QueueRefinement.
From S2P Require Import QueueHistory.
From S2P Require Import Concurrent.
From S2P Require Import ConcurrentQueue.

Section Workers.
Context {S C E J V : Type}.
Context `{!ToJson J (Queue.QueueDocument V), !FromJson J (Queue.QueueDocument V)}.
Context `{!JsonRoundTrip (J := J) (D := Queue.QueueDocument V) id}.
Context (spurious : bool) (m : Queue.Queue S C) (ops : nat → queue_op V).
Context (a0 : astore) (c : config E (result (queue_output V) (Queue.Error E J))).
Implicit Types (ms : list (Queue.Message V)) (cl : Queue.Claim V) (h : list (qevent V * option (queue_output V))).

(** The workers run. *)
Record workers : Prop := MkWorkers {
  workers_coherent : coherent a0;
  workers_empty : queue_holds (J := J) m a0 ([] : list (Queue.Message V));
  workers_reachable : creachable spurious a0 c;
  workers_clients : queue_clients m ops c;
  workers_uuids : NoDup (c_uuids c);
}.

(** Invocation [t] returned [x] successfully, having drawn these clock readings and
    UUIDs. *)
Definition returned_ok (t : nat) (x : queue_output V) (clock : list N) (us : list Uuid) :
    Prop :=
  ∃ th, c_threads c !! t = Some th ∧ t_cur th = Ret (Ok x) ∧ t_clock th = clock ∧
    t_uuids th = us.

Lemma workers_worked : workers → ∃ h ms, worked m ops c h ms ∧ length h = length (c_log c).
Proof. intros [? ? ? ? ?]. by eapply worked_exists. Qed.

(** A successful mutation is an event of the history. *)
Lemma returned_event h ms t x clock us :
  worked m ops c h ms → returned_ok t x clock us → ¬ quiet x →
  ∃ k e s ms1, h !! k = Some (e, Some x) ∧ c_log c !! k = Some (t, s) ∧
    Some x = effect_output (event_effect e ms1) ∧ ev_op e = ops t ∧
    (draws_clock (ops t) = true → clock = [ev_now e]) ∧
    (draws_uuid (ops t) = true → us = [ev_uuid e]).
Proof.
  intros Hw (th & Hth & Hx & <- & <-) Hq.
  destruct (worked_results _ _ _ _ _ Hw t th x Hth Hx) as [(k & e & s & Hk & Hs & Hev)|[_ ?]];
    [|done].
  destruct (history_at _ _ _ _ _ (worked_history _ _ _ _ _ Hw) Hk) as (ms1 & _ & _ & Hout).
  destruct Hev as (th' & x' & Hth' & Hop & _ & Hc & Hu & _). simplify_eq.
  exists k, e, s, ms1. done.
Qed.

Lemma returned_claim h ms t cl clock us :
  worked m ops c h ms → returned_ok t (OutClaim (Some cl)) clock us →
  ∃ k e s d, h !! k = Some (e, Some (OutClaim (Some cl))) ∧ c_log c !! k = Some (t, s) ∧
    ops t = QClaim d ∧ clock = [ev_now e] ∧ us = [Queue.token_uuid (Queue.lease_token cl)] ∧
    Queue.lease_expires_at_millis cl = (ev_now e + as_millis d)%N.
Proof.
  intros Hw Hr. destruct (returned_event h ms t _ clock us Hw Hr) as
    (k & e & s & ms1 & Hk & Hs & Hout & Hop & Hc & Hu); [by intros []|].
  apply event_claim in Hout as ((d & Hd & Ht & Hdl) & _).
  rewrite <-Hop, Hd in Hc, Hu. exists k, e, s, d. rewrite Ht.
  split_and!; [done|done|congruence|by apply Hc|by apply Hu|done].
Qed.

Lemma log_position k k' t s s' :
  workers → c_log c !! k = Some (t, s) → c_log c !! k' = Some (t, s') → k = k'.
Proof.
  intros [Hcoh _ Hr Hcl _] Hk Hk'.
  destruct (creachable_linearized spurious a0 c Hcoh Hr) as [Hlin _].
  { intros t' th Hth. rewrite (Hcl t' th Hth). apply queue_run_disciplined. }
  eapply (NoDup_lookup _ _ _ t); [apply (lin_once _ _ Hlin)| |];
    by rewrite list_lookup_fmap, ?Hk, ?Hk'.
Qed.

(** Leases are mutually exclusive.  If two workers both claimed the same
    message, then one of them claimed it at a clock reading at or after the deadline
    of the other's lease, and their attempt numbers differ: at no clock reading do
    two workers hold an unexpired lease on one message, whatever the interleaving of
    their store calls and however their clocks disagree. *)
Lemma worker_leases_exclusive t1 t2 cl1 cl2 clock1 clock2 us1 us2 :
  workers → t1 ≠ t2 →
  returned_ok t1 (OutClaim (Some cl1)) clock1 us1 →
  returned_ok t2 (OutClaim (Some cl2)) clock2 us2 →
  Queue.claim_id cl1 = Queue.claim_id cl2 →
  ∃ now1 now2, clock1 = [now1] ∧ clock2 = [now2] ∧
    (now1 < Queue.lease_expires_at_millis cl1)%N ∧
    (now2 < Queue.lease_expires_at_millis cl2)%N ∧
    (Queue.lease_expires_at_millis cl1 ≤ now2 ∨ Queue.lease_expires_at_millis cl2 ≤ now1)%N ∧
    Queue.attempt cl1 ≠ Queue.attempt cl2.
Proof.
  intros Hws Hne H1 H2 Hid. destruct (workers_worked Hws) as (h & ms & Hw & _).
  pose proof (worked_history _ _ _ _ _ Hw) as Hh.
  destruct (returned_claim _ _ _ _ _ _ Hw H1) as (k1 & e1 & s1 & d1 & Hk1 & Hs1 & _ & Hc1 & _).
  destruct (returned_claim _ _ _ _ _ _ Hw H2) as (k2 & e2 & s2 & d2 & Hk2 & Hs2 & _ & Hc2 & _).
  destruct (history_delivery _ _ _ _ _ Hh Hk1) as (_ & _ & _ & Hd1 & _).
  destruct (history_delivery _ _ _ _ _ Hh Hk2) as (_ & _ & _ & Hd2 & _).
  exists (ev_now e1), (ev_now e2). split_and!; try done.
  - destruct (Nat.lt_total k1 k2) as [Hlt|[<-|Hlt]]; [left|congruence|right];
      eapply (history_lease_exclusion h ms); eauto.
  - destruct (Nat.lt_total k1 k2) as [Hlt|[<-|Hlt]]; [|congruence|].
    + pose proof (history_attempts _ _ _ _ _ _ _ _ Hh Hlt Hk1 Hk2 Hid). lia.
    + pose proof (history_attempts _ _ _ _ _ _ _ _ Hh Hlt Hk2 Hk1 (eq_sym Hid)). lia.
Qed.

(** At-least-once delivery.  The queue object is always a valid queue.  A message
    whose publication was reported successful is in the queue until a worker issued
    an acknowledgement of it that was reported [Acknowledged], or whose write failed
    ambiguously in the backend; once an acknowledgement was reported [Acknowledged]
    the message is gone. *)
Lemma worker_at_least_once :
  workers →
  ∃ ms, queue_holds (J := J) m (c_store c) ms ∧
    (∀ t i clock us, returned_ok t (OutPublished i) clock us →
       i ∈ Queue.id <$> ms ∨
       ∃ t' th tok, c_threads c !! t' = Some th ∧ ops t' = QAck i tok ∧
         (t_cur th = Ret (Ok (OutAck Queue.Acknowledged)) ∨
          ∃ e, t_cur th = Ret (Err (Queue.Store e)))) ∧
    (∀ t i tok clock us, ops t = QAck i tok →
       returned_ok t (OutAck Queue.Acknowledged) clock us → i ∉ Queue.id <$> ms).
Proof.
  intros Hws. destruct (workers_worked Hws) as (h & ms & Hw & _).
  pose proof (worked_history _ _ _ _ _ Hw) as Hh. exists ms.
  split; [apply Hw|]. split.
  - intros t i clock us Hr.
    destruct (returned_event h ms t _ clock us Hw Hr) as (k & e & s & ms1 & Hk & _); [by intros []|].
    assert (i ∈ published h) as Hp.
    { apply list_elem_of_omap. exists (e, Some (OutPublished i)).
      split; [by eapply list_elem_of_lookup_2|done]. }
    destruct (decide (i ∈ Queue.id <$> ms)) as [|Hn]; [by left|right].
    rewrite (history_present h ms i Hh) in Hn.
    destruct (decide (acknowledged i h)) as [(ea & tok & Hin & Hop)|]; [|naive_solver].
    apply list_elem_of_lookup in Hin as [ka Hka].
    destruct (worked_events _ _ _ _ _ Hw ka ea _ Hka) as
      (t' & s' & _ & th & x & Hth & Hop' & Hx & _ & _ & Hres).
    exists t', th, tok. split_and!; [done|congruence|].
    destruct Hres as [Hres|[e' ->]]; [left|right; eauto]. simpl in Hres. congruence.
  - intros t i tok clock us Hop Hr.
    destruct (returned_event h ms t _ clock us Hw Hr) as
      (k & e & s & ms1 & Hk & _ & _ & Hop' & _); [by intros []|].
    rewrite (history_present h ms i Hh). intros [_ []]. exists e, tok.
    split; [by eapply list_elem_of_lookup_2|congruence].
Qed.

(** Only a lease holder can remove a message.  An acknowledgement reported
    [Acknowledged] carried the token of a claim that another invocation made of that
    message, and its clock reading lies before the deadline of that claim's lease. *)
Lemma worker_ack_authorized t i tok clock us :
  workers → ops t = QAck i tok →
  returned_ok t (OutAck Queue.Acknowledged) clock us →
  ∃ now t' th d now' cl, clock = [now] ∧ c_threads c !! t' = Some th ∧
    ops t' = QClaim d ∧ t_clock th = [now'] ∧ t_uuids th = [Queue.token_uuid tok] ∧
    (t_cur th = Ret (Ok (OutClaim (Some cl))) ∨ ∃ e, t_cur th = Ret (Err (Queue.Store e))) ∧
    Queue.claim_id cl = i ∧ Queue.lease_token cl = tok ∧
    Queue.lease_expires_at_millis cl = (now' + as_millis d)%N ∧
    (now < now' + as_millis d)%N.
Proof.
  intros Hws Hop Hr. destruct (workers_worked Hws) as (h & ms & Hw & _).
  pose proof (worked_history _ _ _ _ _ Hw) as Hh.
  destruct (returned_event h ms t _ clock us Hw Hr) as
    (k & e & s & ms1 & Hk & _ & _ & Hop' & Hc & _); [by intros []|].
  rewrite Hop in Hop', Hc. specialize (Hc eq_refl).
  destruct (history_authorized h ms k e i tok Hh Hk Hop') as (cl & Hlast & Htok & Hlt).
  apply last_Some_elem_of, list_elem_of_omap in Hlast as ([e1 out1] & Hin & Hcl).
  unfold claim_of in Hcl. destruct out1 as [[|[cl1|]| | |]|]; simplify_eq/=.
  case_decide as Hid; simplify_eq.
  apply list_elem_of_lookup in Hin as [k1 Hk1].
  apply lookup_take_Some in Hk1 as [Hk1 _].
  destruct (history_at _ _ _ _ _ Hh Hk1) as (ms2 & _ & _ & Hout).
  apply event_claim in Hout as ((d & Hd & Ht & Hdl) & _).
  destruct (worked_events _ _ _ _ _ Hw k1 e1 _ Hk1) as
    (t' & s' & _ & th & x & Hth & Hop1 & Hx & Hc1 & Hu1 & Hres).
  rewrite <-Hop1, Hd in Hc1, Hu1. specialize (Hc1 eq_refl). specialize (Hu1 eq_refl).
  exists (ev_now e), t', th, d, (ev_now e1), cl.
  rewrite Ht, <-Hdl. split_and!; try done; [congruence|].
  destruct Hres as [Hres|[e' ->]]; [left|right; eauto]. simpl in Hres. congruence.
Qed.

(** A successful claim delivers the payload that some invocation published under
    the claimed identifier, a one-based attempt number, a token that is the UUID the
    claimant drew, and a deadline exactly the requested duration after its clock
    reading; attempt and deadline fit their machine widths. *)
Lemma worker_claim_delivers t cl clock us :
  workers → returned_ok t (OutClaim (Some cl)) clock us →
  ∃ now d, ops t = QClaim d ∧ clock = [now] ∧
    us = [Queue.token_uuid (Queue.lease_token cl)] ∧
    Queue.lease_expires_at_millis cl = (now + as_millis d)%N ∧
    (now < Queue.lease_expires_at_millis cl ≤ u64_max)%N ∧
    (1 ≤ Queue.attempt cl ≤ u32_max)%N ∧
    ∃ t' th, c_threads c !! t' = Some th ∧ ops t' = QPublish (Queue.claim_value cl) ∧
      t_uuids th = [Queue.message_uuid (Queue.claim_id cl)].
Proof.
  intros Hws Hr. destruct (workers_worked Hws) as (h & ms & Hw & _).
  pose proof (worked_history _ _ _ _ _ Hw) as Hh.
  destruct (returned_claim _ _ _ _ _ _ Hw Hr) as (k & e & s & d & Hk & _ & Hop & Hc & Hu & Hdl).
  destruct (history_delivery _ _ _ _ _ Hh Hk) as ((p & Hp & Hpop) & Hatt & Hmax & Hnow & Hle).
  exists (ev_now e), d. split_and!; try done; [lia|].
  destruct (event_published _ _ (Queue.claim_id cl) _ _ Hh Hp eq_refl) as [Hid _].
  apply list_elem_of_lookup in Hp as [kp Hkp].
  destruct (worked_events _ _ _ _ _ Hw kp p _ Hkp) as
    (t' & s' & _ & th & x & Hth & Hop1 & _ & _ & Hu1 & _).
  rewrite Hpop in Hop1. rewrite <-Hop1 in Hu1. specialize (Hu1 eq_refl).
  exists t', th. rewrite Hid. done.
Qed.
End Workers.
