(* ===== verification/ConcurrentLog.v ===== *)
(** * Concurrent logs

    Every log operation is disciplined.  The records of a log created empty are, at
    every moment, exactly those of the appends that have written, in identifier
    order: concurrent appends never overwrite one another and readers see complete
    states. *)

From S2P Require Import Prelude.
From S2P Require Import Program.
From S2P Require Import ObjectStore.
From S2P Require Import Json.
From S2P Require Import CoreTypes.
From S2P Require Import Lifecycle.
From S2P Require Import StructLog.
From S2P Require Import Concurrent.
Import Core.

Section LogDiscipline.
Context {S E J V : Type}.
Context `{!ToJson J (Log.LogDocument V), !FromJson J (Log.LogDocument V)}.
Implicit Types (m : Log.Log S).

Lemma log_observed_version m object x :
  log_observed (E := E) (J := J) (V := V) m object = Ok x →
  ∃ o, object = Some o ∧ x.1 = object_version o.
Proof.
  unfold log_observed. destruct object as [o|]; simpl; [|done].
  destruct (from_slice _) as [d|e]; simpl; [|done].
  destruct (validate _ _ _ _ _); simpl; [|done]. case_match; [done|].
  intros; simplify_eq. eauto.
Qed.

Lemma log_run_disciplined m (o : log_op V) :
  disciplined None (log_run (E := E) (J := J) m o).
Proof.
  destruct o as [value|i| |i]; cbn [log_run];
    (apply disciplined_bind_pure; [|by eexists]);
    (eapply disciplined_reads_bind; [apply log_read_reads|]);
    intros object [v d] (ob & -> & Hv)%log_observed_version; simpl in Hv; subst v; try done.
  - apply disciplined_now_v7. intros u. cbv zeta.
    destruct (vec_insert _ _ _) as [rs|]; [|done]. cbn [or_panic prog_bind].
    apply disciplined_bind_pure; [|intros [?|?]; by eexists].
    unfold Log.write. destruct (to_vec _) as [b|e]; simpl; [|done].
    split; [by exists ob|]. intros r. by eexists.
  - destruct (binary_search_by_key _ _ _); [|done].
    by destruct (vec_remove _ _) as [[]|].
Qed.
End LogDiscipline.

Section ConcurrentLog.
Context {S E J V : Type}.
Context `{!ToJson J (Log.LogDocument V), !FromJson J (Log.LogDocument V)}.
Context `{!JsonRoundTrip (J := J) (D := Log.LogDocument V) id}.
Context (spurious : bool) (m : Log.Log S) (ops : nat → log_op V).
Implicit Types (rs : list (Log.LogRecord V))
  (c : config E (result (log_output V) (Error E J))).

(** Every invocation is one of the operations [ops] on the log. *)
Definition log_clients c : Prop :=
  ∀ t th, c_threads c !! t = Some th → t_op th = log_run m (ops t).

(** The record an invocation appends, under the UUID it drew. *)
Definition appended c (t : nat) : option (Log.LogRecord V) :=
  match ops t, t_uuids <$> c_threads c !! t with
  | LogAppend value, Some [u] => Some (Log.MkRecord (Log.MkLogId u) value)
  | _, _ => None
  end.

(** The records of the log after the first [n] changes. *)
Definition records_at (a0 : astore) c (n : nat) rs : Prop :=
  (∀ s, store_at a0 (c_log c) n = Some s → log_holds (J := J) m s rs) ∧
  sorted_by Log.key rs ∧ rs ≡ₚ omap (appended c) (take n (c_log c).*1) ∧
  length rs = n.

Lemma log_changed t rs s s' x us cs :
  log_holds (J := J) m s rs → s' ≠ s →
  atomic (log_run (E := E) m (ops t)) s x s' us cs →
  (∀ u, us = [u] → u ∉ Log.key <$> rs) →
  ∃ value u, ops t = LogAppend value ∧ us = [u] ∧
    log_holds (J := J) m s' (insert_sorted Log.key (Log.MkRecord (Log.MkLogId u) value) rs) ∧
    (x = Ok (OutId (Log.MkLogId u)) ∨ ∃ e, x = Err (Store e)).
Proof.
  intros Hh Hne Hat Hfresh. unfold atomic in Hat.
  apply (log_run_outcome true m (ops t) rs) in Hat; [|exact Hh].
  destruct (ops t) as [value|i| |i]; simpl in Hat;
    [|destruct Hat as (? & _ & Heq & _); by injection Heq..].
  destruct Hat as [[_ Heq]|(u & r0 & Hus & -> & Hout)]; [by injection Heq|].
  simpl in Hus. subst us. specialize (Hfresh u eq_refl). specialize (Hout Hfresh).
  exists value, u. split; [done|]. split; [done|].
  assert (∀ b v, wrote (MkAWorld s [u] []) (Log.location m) b v (MkAWorld s' [u] cs) →
      log_decodes (J := J) m b
        (insert_sorted Log.key (Log.MkRecord (Log.MkLogId u) value) rs) →
      log_holds (J := J) m s'
        (insert_sorted Log.key (Log.MkRecord (Log.MkLogId u) value) rs)) as Hholds.
  { intros b v Hw Hb.
    eapply (log_holds_append m value rs u _ b v (MkAWorld s' [u] cs)); [|done..].
    by destruct Hh. }
  unfold append_outcome in Hout.
  destruct r0 as [i|[e|e|[]| |e|e|e]]; simpl in *; try done.
  - destruct Hout as (-> & b & v & Hw & Hb). split; [by eapply Hholds|by left].
  - destruct Hout as [Heq|(b & v & Hw & Hb)]; [by injection Heq|].
    split; [by eapply Hholds|right; eauto].
  - by injection Hout.
  - destruct Hout as [_ Heq]. by injection Heq.
Qed.

(** The UUID of an invocation that has not appended yet is not in the log. *)
Lemma append_fresh a0 c n rs t th u :
  uuids_ok c → NoDup (c_uuids c) → records_at a0 c n rs →
  (∀ k s, c_log c !! k = Some (t, s) → n ≤ k) → c_threads c !! t = Some th →
  t_uuids th = [u] → u ∉ Log.key <$> rs.
Proof.
  intros [_ Huniq] Hnd (_ & _ & Hp & _) Hn Hth Hu (r & -> & Hr)%list_elem_of_fmap.
  rewrite Hp in Hr. apply list_elem_of_omap in Hr as (t' & Ht' & Ha).
  unfold appended in Ha. destruct (ops t') as [value|i| |i]; try done.
  destruct (c_threads c !! t') as [th'|] eqn:Hth'; simpl in Ha; [|done].
  destruct (t_uuids th') as [|u' [|]] eqn:Hu'; simplify_eq/=.
  assert (t = t') as <-.
  { eapply (Huniq Hnd); [exact Hth|exact Hth'| |].
    - rewrite Hu. apply list_elem_of_here.
    - rewrite Hu'. apply list_elem_of_here. }
  apply list_elem_of_lookup in Ht' as [k Hk].
  apply lookup_take_Some in Hk as [Hk Hlt]. rewrite list_lookup_fmap in Hk.
  apply fmap_Some in Hk as ([t1 s] & Hk & ->). apply Hn in Hk. lia.
Qed.

Lemma records_at_exists a0 c n :
  linearized a0 c → uuids_ok c → NoDup (c_uuids c) → log_clients c →
  log_holds (J := J) m a0 ([] : list (Log.LogRecord V)) → n ≤ length (c_log c) →
  ∃ rs, records_at a0 c n rs.
Proof.
  intros Hlin Hok Hnd Hcl Ha0. induction n as [|n IH]; intros Hn.
  { exists []. split_and!; [|constructor|done|done].
    intros s Hs. unfold store_at in Hs. by simplify_eq/=. }
  destruct IH as (rs & Hrs); [lia|].
  destruct (lookup_lt_is_Some_2 (c_log c) n) as [[t s'] Ht]; [lia|].
  destruct (lin_changes _ _ Hlin n t s' Ht) as
    (th & s & x & Hth & Hs & _ & Hne & Hx & Hat).
  rewrite (Hcl t th Hth) in Hat. pose proof Hrs as (Hholds & Hsort & Hperm & Hlen).
  destruct (log_changed t rs s s' x _ _ (Hholds s Hs) Hne Hat) as
    (value & u & Hop & Hu & Hh' & _).
  { intros u Hu. eapply (append_fresh a0 c n rs t th); [done|done|done| |done|done].
    intros k s1 Hk. apply Nat.eq_le_incl. symmetry.
    eapply (NoDup_lookup _ _ _ t); [apply (lin_once _ _ Hlin)| |];
      by rewrite list_lookup_fmap, ?Hk, ?Ht. }
  eexists. split; [|split; [by destruct Hh'|split]].
  - intros s1 Hs1. assert (s1 = s') as ->; [|exact Hh'].
    unfold store_at in Hs1. simpl in Hs1. rewrite list_lookup_fmap, Ht in Hs1.
    by simplify_eq/=.
  - rewrite insert_sorted_perm, (take_S_r _ _ t) by (by rewrite list_lookup_fmap, Ht).
    rewrite omap_app. simpl. unfold appended at 2. rewrite Hop, Hth. simpl. rewrite Hu.
    rewrite Hperm. apply Permutation_cons_append.
  - rewrite insert_sorted_perm. simpl. by rewrite Hlen.
Qed.

(** A change of the log is an append, which returned the identifier of its record or
    a failure of the backend. *)
Lemma logged_append a0 c n t s' :
  linearized a0 c → uuids_ok c → NoDup (c_uuids c) → log_clients c →
  (∀ n s, store_at a0 (c_log c) n = Some s → ∃ rs, records_at a0 c n rs) →
  c_log c !! n = Some (t, s') →
  ∃ th u value, c_threads c !! t = Some th ∧ ops t = LogAppend value ∧ t_uuids th = [u] ∧
    appended c t = Some (Log.MkRecord (Log.MkLogId u) value) ∧
    (t_cur th = Ret (Ok (OutId (Log.MkLogId u))) ∨ ∃ e, t_cur th = Ret (Err (Store e))).
Proof.
  intros Hlin Hok Hnd Hcl Hrec Hn.
  destruct (lin_changes _ _ Hlin n _ s' Hn) as (th & s & x & Hth & Hs & _ & Hne & Hx & Hat).
  destruct (Hrec n s Hs) as (rs & Hrs). pose proof Hrs as (Hholds & _).
  rewrite (Hcl _ _ Hth) in Hat.
  destruct (log_changed t rs s s' x _ _ (Hholds s Hs) Hne Hat) as
    (value & u & Hop & Hu & _ & Hres).
  { intros u Hu. eapply (append_fresh a0 c n rs t th); [done|done|done| |done|done].
    intros k s1 Hk. apply Nat.eq_le_incl. symmetry.
    eapply (NoDup_lookup _ _ _ t); [apply (lin_once _ _ Hlin)| |];
      by rewrite list_lookup_fmap, ?Hk, ?Hn. }
  exists th, u, value. split_and!; [done..| |].
  - unfold appended. rewrite Hop, Hth. simpl. by rewrite Hu.
  - destruct Hres as [->|[e ->]]; eauto.
Qed.

(** A successful append wrote its record. *)
Lemma append_logged a0 c t th i value :
  linearized a0 c → uuids_ok c → NoDup (c_uuids c) → log_clients c →
  (∀ n s, store_at a0 (c_log c) n = Some s → ∃ rs, records_at a0 c n rs) →
  c_threads c !! t = Some th → ops t = LogAppend value →
  t_cur th = Ret (Ok (OutId i)) →
  t ∈ (c_log c).*1 ∧ appended c t = Some (Log.MkRecord i value).
Proof.
  intros Hlin Hok Hnd Hcl Hrec Hth Hop Hx.
  destruct (decide (t ∈ (c_log c).*1)) as [Hin|Hin].
  - split; [done|].
    apply list_elem_of_fmap in Hin as ([t1 s'] & -> & [n Hn]%list_elem_of_lookup).
    destruct (logged_append a0 c n t1 s') as (th' & u & value' & Hth' & Hop' & _ & Ha & Hcur);
      [done..|].
    simpl in *. simplify_eq. destruct Hcur as [Hcur|[e Hcur]]; [|congruence].
    assert (i = Log.MkLogId u) as -> by congruence.
    by assert (value' = value) as -> by congruence.
  - exfalso. destruct (lin_others _ _ Hlin t th _ Hth Hx Hin) as (n & s & _ & Hs & Hat).
    destruct (Hrec n s Hs) as (rs & Hrs). pose proof Hrs as (Hholds & _).
    rewrite (Hcl _ _ Hth) in Hat. unfold atomic in Hat.
    apply (log_run_outcome true m (ops t) rs) in Hat; [|by apply Hholds].
    rewrite Hop in Hat. simpl in Hat.
    destruct Hat as [[[e ?] _]|(u & r0 & Hus & Hr0 & Hout)]; [done|]. simpl in Hus.
    destruct r0 as [i'|e]; [|done]. destruct Hout as (_ & b & v & [Hf Heq] & _).
    { eapply (append_fresh a0 c n rs t th); [done|done|done| |done|done].
      intros k s1 Hk. destruct Hin. apply list_elem_of_fmap. exists (t, s1).
      split; [done|]. by eapply list_elem_of_lookup_2. }
    injection Heq as Heq _ _. symmetry in Heq. by apply put_ne in Heq.
Qed.

(** A successful read took a snapshot. *)
Lemma read_snapshot a0 c t th x :
  linearized a0 c → uuids_ok c → NoDup (c_uuids c) → log_clients c →
  (∀ n s, store_at a0 (c_log c) n = Some s → ∃ rs, records_at a0 c n rs) →
  c_threads c !! t = Some th → (∀ value, ops t ≠ LogAppend value) →
  t_cur th = Ret (Ok x) →
  ∃ n rs, t_start th ≤ n ∧ records_at a0 c n rs ∧ log_view (ops t) rs = Some x.
Proof.
  intros Hlin Hok Hnd Hcl Hrec Hth Hop Hx.
  assert (∀ rs s s', log_holds (J := J) m s rs →
      atomic (log_run (E := E) m (ops t)) s (Ok x) s' (t_uuids th) (t_clock th) →
      s' = s ∧ log_view (ops t) rs = Some x) as Hread.
  { intros rs s s' Hh Hat. unfold atomic in Hat.
    apply (log_run_outcome true m (ops t) rs) in Hat; [|exact Hh].
    destruct (ops t) as [value|i| |i]; [by destruct (Hop value)|..]; simpl in Hat;
      destruct Hat as (y & Hy & Heq & [?|[e ?]]); simplify_eq/=; auto. }
  destruct (decide (t ∈ (c_log c).*1)) as [Hin|Hin].
  - exfalso. apply list_elem_of_fmap in Hin as ([t1 s'] & -> & [n Hn]%list_elem_of_lookup).
    destruct (lin_changes _ _ Hlin n _ s' Hn) as
      (th' & s & x' & Hth' & Hs & _ & Hne & Hx' & Hat). simpl in *. simplify_eq.
    destruct (Hrec n s Hs) as (rs & Hholds & _).
    assert (x' = Ok x) as -> by congruence. rewrite (Hcl _ _ Hth) in Hat.
    by destruct (Hread rs s s' (Hholds s Hs) Hat).
  - destruct (lin_others _ _ Hlin t th _ Hth Hx Hin) as (n & s & Hst & Hs & Hat).
    destruct (Hrec n s Hs) as (rs & Hrs). rewrite (Hcl _ _ Hth) in Hat.
    pose proof Hrs as (Hholds & _).
    destruct (Hread rs s s (Hholds s Hs) Hat) as [_ Hv]. eauto.
Qed.

(** Appends are never lost.  However clients' operations on one log interleave,
    if UUIDs do not repeat, the log holds exactly one record per append that wrote,
    with its identifier and value, in strictly increasing identifier order; every
    append that succeeded is among them under the identifier it returned; and a
    successful read returned what a scan of the records of one past state of the log
    gives, a state that was current since the read was invoked. *)
Lemma concurrent_log_append_only a0 c :
  coherent a0 → log_holds (J := J) m a0 ([] : list (Log.LogRecord V)) →
  creachable spurious a0 c → log_clients c → NoDup (c_uuids c) →
  let order := (c_log c).*1 in
  (∃ rs, log_holds (J := J) m (c_store c) rs ∧ rs ≡ₚ omap (appended c) order ∧
    length rs = length order ∧
    ∀ t th i value, c_threads c !! t = Some th → ops t = LogAppend value →
      t_cur th = Ret (Ok (OutId i)) → Log.MkRecord i value ∈ rs) ∧
  (∀ t, t ∈ order →
    ∃ th u value, c_threads c !! t = Some th ∧ ops t = LogAppend value ∧ t_uuids th = [u] ∧
      appended c t = Some (Log.MkRecord (Log.MkLogId u) value) ∧
      (t_cur th = Ret (Ok (OutId (Log.MkLogId u))) ∨ ∃ e, t_cur th = Ret (Err (Store e)))) ∧
  ∀ t th x, c_threads c !! t = Some th → t_cur th = Ret (Ok x) →
    (∀ value, ops t ≠ LogAppend value) →
    ∃ n rs, t_start th ≤ n ∧ sorted_by Log.key rs ∧
      rs ≡ₚ omap (appended c) (take n order) ∧ log_view (ops t) rs = Some x.
Proof.
  intros Hcoh Ha0 Hr Hcl Hnd order.
  destruct (creachable_linearized spurious a0 c Hcoh Hr) as [Hlin _].
  { intros t th Hth. rewrite (Hcl t th Hth). apply log_run_disciplined. }
  pose proof (creachable_uuids_ok _ _ _ Hr) as Hok.
  assert (∀ n s, store_at a0 (c_log c) n = Some s → ∃ rs, records_at a0 c n rs) as Hat.
  { intros n s Hs%lookup_lt_Some. apply records_at_exists; try done.
    simpl in Hs. rewrite length_fmap in Hs. lia. }
  split; [|split].
  - destruct (Hat _ _ (lin_final _ _ Hlin)) as (rs & Hholds & Hsort & Hperm & Hlen).
    exists rs. rewrite take_ge in Hperm by (by rewrite length_fmap).
    split_and!; [by apply Hholds, (lin_final _ _ Hlin)|done|by rewrite Hlen; unfold order; rewrite length_fmap|].
    intros t th i value Hth Hop Hx. rewrite Hperm.
    destruct (append_logged a0 c t th i value) as [Hin Ha]; [done..|].
    apply list_elem_of_omap. by exists t.
  - intros t ([t1 s'] & -> & [n Hn]%list_elem_of_lookup)%list_elem_of_fmap.
    by eapply logged_append.
  - intros t th x Hth Hx Hop.
    destruct (read_snapshot a0 c t th x) as (n & rs & Hst & (_ & Hs & Hp & _) & Hv); [done..|].
    by exists n, rs.
Qed.
End ConcurrentLog.
