(* ===== verification/Scenarios.v ===== *)
(** * Scenarios

    The theorems about documents and adapters applied to concrete runs: structures
    of numbers on the in-memory store, encoded with the example codec, with a fixed
    clock and UUID sequence. *)

From S2P Require Import Prelude.
From S2P Require Import Program.
From S2P Require Import ObjectStore.
From S2P Require Import MemoryStore.
From S2P Require Import ContractProgram.
From S2P Require Import Json.
From S2P Require Import CoreTypes.
From S2P Require Import Lifecycle.
From S2P Require Import StructMap.
From S2P Require Import StructLog.
From S2P Require Import WorkQueue.
From S2P Require Import QueueRefinement.
From S2P Require Import QueueHistory.
From S2P Require Import QueueRuns.
From S2P Require Import UnitTests.
From S2P Require Import Concurrent.
From S2P Require Import ConcurrentMap.
From S2P Require Import ConcurrentQueue.
From S2P Require Import QueueWorkers.
From S2P Require Import ConcurrentLog.
Import Core.

(** ** Codecs *)

Section Codecs.
Context {V : Type} `{Countable V}.

#[global] Instance OwnedMapDocument_eq_dec : EqDecision (Map.OwnedMapDocument V).
Proof. solve_decision. Defined.

#[global] Instance OwnedMapDocument_countable : Countable (Map.OwnedMapDocument V).
Proof.
  refine (inj_countable'
    (λ d, (Map.format_version d, Map.kind d, Map.doc_schema d, Map.entries_ d))
    (λ '(v, k, s, e), Map.MkOwnedMapDocument v k s e) _).
  by intros [].
Defined.

#[global] Instance LogDocument_eq_dec : EqDecision (Log.LogDocument V).
Proof. solve_decision. Defined.

#[global] Instance LogDocument_countable : Countable (Log.LogDocument V).
Proof.
  refine (inj_countable'
    (λ d, (Log.format_version d, Log.kind d, Log.doc_schema d, Log.records_ d))
    (λ '(v, k, s, e), Log.MkLogDocument v k s e) _).
  by intros [].
Defined.

#[global] Instance Message_countable : Countable (Queue.Message V).
Proof.
  refine (inj_countable'
    (λ x, (Queue.message_uuid (Queue.id x), Queue.value x, Queue.attempts x,
           (λ l, (Queue.token_uuid (Queue.token l), Queue.expires_at_millis l))
             <$> Queue.lease x))
    (λ '(i, v, a, l), Queue.MkMessage (Queue.MkMessageId i) v a
       ((λ '(t, e), Queue.MkLease (Queue.MkLeaseToken t) e) <$> l)) _).
  by intros [[] ?? [[[]]|]].
Defined.

#[global] Instance QueueDocument_eq_dec : EqDecision (Queue.QueueDocument V).
Proof. solve_decision. Defined.

#[global] Instance QueueDocument_countable : Countable (Queue.QueueDocument V).
Proof.
  refine (inj_countable'
    (λ d, (Queue.format_version d, Queue.kind d, Queue.doc_schema d, Queue.messages d))
    (λ '(v, k, s, e), Queue.MkQueueDocument v k s e) _).
  by intros [].
Defined.

#[global] Instance map_to_json : ToJson unit (Map.MapDocument V) :=
  λ d, ExampleCodec.to_vec (Map.to_owned d).
#[global] Instance owned_map_to_json : ToJson unit (Map.OwnedMapDocument V) :=
  ExampleCodec.to_vec.
#[global] Instance owned_map_from_json : FromJson unit (Map.OwnedMapDocument V) :=
  ExampleCodec.from_slice.
#[global] Instance log_to_json : ToJson unit (Log.LogDocument V) := ExampleCodec.to_vec.
#[global] Instance log_from_json : FromJson unit (Log.LogDocument V) :=
  ExampleCodec.from_slice.
#[global] Instance queue_to_json : ToJson unit (Queue.QueueDocument V) :=
  ExampleCodec.to_vec.
#[global] Instance queue_from_json : FromJson unit (Queue.QueueDocument V) :=
  ExampleCodec.from_slice.

#[global] Instance owned_map_round_trip :
  JsonRoundTrip (J := unit) (D := Map.OwnedMapDocument V) id.
Proof. exact ExampleCodec.round_trip. Qed.
#[global] Instance map_round_trip :
  JsonRoundTrip (J := unit) (D := Map.MapDocument V) Map.to_owned.
Proof. intros d b Hb. by apply (ExampleCodec.round_trip (Map.to_owned d) b). Qed.
#[global] Instance log_round_trip :
  JsonRoundTrip (J := unit) (D := Log.LogDocument V) id.
Proof. exact ExampleCodec.round_trip. Qed.
#[global] Instance queue_round_trip :
  JsonRoundTrip (J := unit) (D := Queue.QueueDocument V) id.
Proof. exact ExampleCodec.round_trip. Qed.

#[global] Instance queue_total : JsonTotal (J := unit) (Queue.QueueDocument V).
Proof. intros d. by eexists. Qed.
End Codecs.

(** ** Stores that hold a structure *)

(** The n-th UUID is [n + 10], the n-th clock reading [100 * n]. *)
Definition env : Env :=
  {| env_millis := λ n, (100 * N.of_nat n)%N; env_uuid := λ n, (10 + N.of_nat n)%N |}.

Definition encoded {D} `{ToJson unit D} (d : D) : bytes := default [] (ok (to_vec d)).

(** A memory store with one object, as created by its first version. *)
Definition state_with (l : Location) (b : bytes) : Memory.State :=
  Memory.MkState {[l := MkObject b (Memory.token 1)]} 1.

Definition world_with (l : Location) (b : bytes) : world Memory.State :=
  MkWorld (state_with l b) 0 0.

Definition astore_with (l : Location) (b : bytes) : astore :=
  put l b (Memory.token 1) empty_astore.

Definition aworld_with (l : Location) (b : bytes) : aworld :=
  MkAWorld (astore_with l b) [] [].

Lemma world_with_sim l b : world_sim env (world_with l b) (aworld_with l b).
Proof.
  split; [|done].
  apply (Memory.sim_put Memory.default _ l b (Memory.token 1) (Memory.MkState ∅ 1));
    [apply Memory.sim_default|done].
Qed.

Lemma astore_with_coherent l b : coherent (astore_with l b).
Proof.
  apply put_coherent. intros l' o Ho. simpl in Ho. by rewrite lookup_empty in Ho.
Qed.

Definition map1 : Map.Map unit := Map.MkMap tt (MkLocation "n/maps/m.json") "v1".
Definition log1 : Log.Log unit := Log.MkLog tt (MkLocation "n/logs/l.json") "v1".
Definition queue1 : Queue.Queue unit unit :=
  Queue.MkQueue tt (MkLocation "n/queues/q.json") "v1" tt.

Definition map1_doc (es : gmap string N) : bytes :=
  encoded (Map.MkOwnedMapDocument 1 "map" "v1" es).
Definition log1_doc (rs : list (Log.LogRecord N)) : bytes :=
  encoded (Log.MkLogDocument 1 "log" "v1" rs).
Definition queue1_doc (ms : list (Queue.Message N)) : bytes :=
  encoded (Queue.MkQueueDocument 1 "queue" "v1" ms).

Lemma map1_holds es :
  map_holds (J := unit) map1 (astore_with (Map.location map1) (map1_doc es)) es.
Proof.
  eexists. simpl. split; [apply lookup_insert_eq|].
  by apply (map_decodes_written map1).
Qed.

Lemma log1_holds rs :
  sorted_by Log.key rs →
  log_holds (J := unit) log1 (astore_with (Log.location log1) (log1_doc rs)) rs.
Proof.
  intros Hs. split; [done|]. eexists. simpl. split; [apply lookup_insert_eq|].
  by apply (log_decodes_written log1).
Qed.

Lemma queue1_holds ms :
  sorted_by Queue.key ms →
  queue_holds (J := unit) queue1 (astore_with (Queue.location queue1) (queue1_doc ms)) ms.
Proof.
  intros Hs. split; [done|]. eexists. simpl. split; [apply lookup_insert_eq|].
  by apply (queue_decodes_written queue1).
Qed.

(** ** Maps *)

Definition two : gmap string N := {["a" := 1%N; "b" := 2%N]}.

Lemma map_operation_refines_model_witness :
  ∃ r w' aw',
    run (handle env) (map_run (J := unit) (E := Empty_set) map1 (OpRemove "a"))
      (world_with (Map.location map1) (map1_doc two)) = Some (r, w') ∧
    r = Ok (OutValue (Some 1%N)) ∧
    map_outcome false map1 (OpRemove "a") two
      (aworld_with (Map.location map1) (map1_doc two)) r aw'.
Proof.
  eexists _, _.
  edestruct (map_operation_refines_model env map1 (OpRemove "a") two
    (world_with (Map.location map1) (map1_doc two))
    (aworld_with (Map.location map1) (map1_doc two)))
    as (aw' & _ & Hout); [apply world_with_sim|apply map1_holds|vm_compute; reflexivity|].
  exists aw'. split; [vm_compute; reflexivity|]. split; [reflexivity|exact Hout].
Defined.

(** A world in which nothing was stored. *)
Definition empty_world : world Memory.State := MkWorld Memory.default 0 0.
Definition empty_aworld : aworld := MkAWorld empty_astore [] [].

Lemma empty_world_sim : world_sim env empty_world empty_aworld.
Proof. split; [apply Memory.sim_default|done]. Qed.

Lemma empty_coherent : coherent empty_astore.
Proof. intros l o Ho. simpl in Ho. by rewrite lookup_empty in Ho. Qed.

Definition map1_builder : Map.MapBuilder unit :=
  Map.with_schema (Map.builder_new tt "n" "m") "v1".

(** ** Logs *)

Definition record1 : Log.LogRecord N := Log.MkRecord (Log.MkLogId 20) 7%N.

Lemma log1_sorted : sorted_by Log.key [record1].
Proof. repeat constructor. Qed.

Lemma log_operation_refines_model_witness :
  ∃ r w' aw',
    run (handle env) (log_run (J := unit) (E := Empty_set) log1 (LogAppend 5%N))
      (world_with (Log.location log1) (log1_doc [record1])) = Some (r, w') ∧
    r = Ok (OutId (Log.MkLogId 10)) ∧
    log_outcome false log1 (LogAppend 5%N) [record1]
      (aworld_with (Log.location log1) (log1_doc [record1])) r aw'.
Proof.
  eexists _, _.
  edestruct (log_operation_refines_model env log1 (LogAppend 5%N) [record1]
    (world_with (Log.location log1) (log1_doc [record1]))
    (aworld_with (Log.location log1) (log1_doc [record1])))
    as (aw' & _ & Hout);
    [apply world_with_sim|apply log1_holds, log1_sorted|vm_compute; reflexivity|].
  exists aw'. split; [vm_compute; reflexivity|]. split; [reflexivity|exact Hout].
Defined.

(** ** Queues *)

Definition message1 : Queue.Message N := Queue.MkMessage (Queue.MkMessageId 20) 7%N 0 None.

Lemma queue1_sorted : sorted_by Queue.key [message1].
Proof. repeat constructor. Qed.

Definition ten_millis : Duration := MkDuration 0 10000000.

Lemma queue_operation_refines_model_witness :
  ∃ r w' aw',
    run (handle env) (queue_run (J := unit) (E := Empty_set) queue1 (QClaim ten_millis))
      (world_with (Queue.location queue1) (queue1_doc [message1])) = Some (r, w') ∧
    r = Ok (OutClaim (Some (Queue.MkClaim (Queue.MkMessageId 20) 7%N
              (Queue.MkLeaseToken 10) 1 10))) ∧
    queue_refines false queue1 (QClaim ten_millis) [message1]
      (aworld_with (Queue.location queue1) (queue1_doc [message1])) r aw'.
Proof.
  eexists _, _.
  edestruct (queue_operation_refines_model env queue1 (QClaim ten_millis) [message1]
    (world_with (Queue.location queue1) (queue1_doc [message1]))
    (aworld_with (Queue.location queue1) (queue1_doc [message1])))
    as (aw' & _ & Hout);
    [apply world_with_sim|apply queue1_holds, queue1_sorted|vm_compute; reflexivity|].
  exists aw'. split; [vm_compute; reflexivity|]. split; [reflexivity|exact Hout].
Defined.

(** A claim, and an acknowledgement of a message the queue does not hold. *)
Lemma memory_queue_exact_witness :
  let w := world_with (Queue.location queue1) (queue1_doc [message1]) in
  (∃ w', run (handle env) (queue_run (J := unit) queue1 (QClaim ten_millis)) w =
     Some (Ok (OutClaim (Some (Queue.MkClaim (Queue.MkMessageId 20) 7%N
             (Queue.MkLeaseToken 10) 1 10))), w') ∧ w_uuids w' = 1) ∧
  ∃ w', run (handle env) (queue_run (J := unit) (V := N) queue1
          (QAck (Queue.MkMessageId 5) (Queue.MkLeaseToken 10))) w =
        Some (Ok (OutAck Queue.AckNotFound), w').
Proof.
  intros w.
  assert (memory_holds (J := unit) queue1 (w_store w) [message1]) as Hh.
  { eexists. split; [apply (proj1 (world_with_sim _ _))|apply queue1_holds, queue1_sorted]. }
  split.
  - destruct (memory_queue_exact env queue1 (QClaim ten_millis) [message1] w Hh)
      as (w' & Hx & _ & _ & _ & Hu); [reflexivity|discriminate|].
    exists w'. split; [exact Hx|].
    destruct Hu as [[_ Hu]|Hu]; [discriminate (Hu 0%N)|exact Hu].
  - destruct (memory_queue_exact env queue1 (QAck (Queue.MkMessageId 5) (Queue.MkLeaseToken 10))
      [message1] w Hh) as (w' & Hx & _); [reflexivity|discriminate|].
    exists w'. exact Hx.
Defined.

(** The first message is leased: a claim hands out the second. *)
Definition queue3_messages : list (Queue.Message N) :=
  [Queue.MkMessage (Queue.MkMessageId 15) 6%N 1 (Some (Queue.MkLease (Queue.MkLeaseToken 1) 50));
   message1; Queue.MkMessage (Queue.MkMessageId 30) 8%N 0 None].

Lemma claim_first_available_witness :
  let w := world_with (Queue.location queue1) (queue1_doc queue3_messages) in
  let aw := aworld_with (Queue.location queue1) (queue1_doc queue3_messages) in
  ∃ w' aw', run (handle env) (Queue.claim (J := unit) (V := N) queue1 ten_millis) w =
      Some (Ok (Some (Queue.MkClaim (Queue.MkMessageId 20) 7%N (Queue.MkLeaseToken 10) 1 10)), w') ∧
    claim_result (E := Empty_set) (J := unit) queue1 ten_millis queue3_messages aw
      (Ok (Some (Queue.MkClaim (Queue.MkMessageId 20) 7%N (Queue.MkLeaseToken 10) 1 10))) aw'.
Proof.
  intros w aw. eexists.
  edestruct (claim_first_available env queue1 ten_millis queue3_messages w aw) as (aw' & _ & Hc);
    [apply world_with_sim|apply queue1_holds; repeat constructor|vm_compute; reflexivity|].
  exists aw'. split; [vm_compute; reflexivity|exact Hc].
Defined.

(** The unit tests with the example codec, and UUIDs that increase. *)
Lemma unit_tests_pass_witness :
  UnitTests.passes (UnitTests.publish_claim_and_ack_removes_message (J := unit) env)
    Memory.default ∧
  UnitTests.passes (UnitTests.publish_conflict_leaves_queue_unchanged (J := unit) env)
    (FailReplaceOnce.MkState Memory.default false) ∧
  UnitTests.passes (UnitTests.claims_available_messages_in_publish_order (J := unit) env)
    Memory.default.
Proof.
  destruct (UnitTests.unit_tests_pass (J := unit) env) as (Hall & Hc & _ & _ & Ho).
  { intros i j Hij. simpl in Hij. lia. }
  split; [exact (Forall_inv Hall)|]. split; [exact Hc|]. apply Ho. reflexivity.
Defined.

Definition queue1_builder : Queue.QueueBuilder unit unit :=
  Queue.with_clock (Queue.with_schema (Queue.builder_new tt "n" "q") "v1") tt.

(** ** The contract test, in memory *)

Definition tested : Location := MkLocation "contract/object.json".

Lemma healthy_in_memory w (c : call) (r : reply Empty_set c) w' :
  world_step false w c r w' → healthy_step w c r w'.
Proof. intros Hs. split; [exact Hs|]. destruct c; simpl; try (by intros [[] _]); by intros []. Qed.

Lemma contract_test_sound_witness :
  ∃ w first second, run (handle env) (Tests.assert_backend_contract (E := Empty_set) tested)
    empty_world = Some (tt, w) ∧ first ≠ second ∧
    Memory.objects (w_store w) !! tested = Some (MkObject Tests.two second).
Proof.
  assert (∃ w, run (handle env) (Tests.assert_backend_contract (E := Empty_set) tested)
    empty_world = Some (tt, w)) as [w Hrun] by (eexists; vm_compute; reflexivity).
  destruct (run_handle_exec env _ empty_world empty_aworld _ _ empty_world_sim Hrun)
    as (aw & Hx & (Hsim & _) & _).
  destruct (wp_exec _ _ _ _ _ _ (proj2 (contract_test_sound (E := Empty_set) tested empty_aworld)
    eq_refl) (exec_mono _ _ _ _ _ _ healthy_in_memory Hx)) as (_ & v1 & v2 & Hne & _ & Hcur).
  exists w, v1, v2. split; [exact Hrun|]. split; [exact Hne|]. rewrite Hsim. exact Hcur.
Defined.

(** ** Contention

    One message is published.  Two workers then claim it at the same time: one loses
    the race.  A third claims it again after the lease has expired and acknowledges
    it. *)
Definition contend_ops (t : nat) : queue_op N :=
  match t with
  | 0 => QPublish 7%N
  | 4 => QAck (Queue.MkMessageId 30) (Queue.MkLeaseToken 33)
  | _ => QClaim ten_millis
  end.

Definition contend_programs (t : nat) :
    io Empty_set (result (queue_output N) (Queue.Error Empty_set unit)) :=
  queue_run queue1 (contend_ops t).

Definition contend_actions :
    list (action Empty_set (result (queue_output N) (Queue.Error Empty_set unit))) :=
  [Invoke 0 (contend_programs 0); Proceed 0 0 0; Proceed 0 30 0; Proceed 0 0 0;
   Invoke 1 (contend_programs 1); Invoke 2 (contend_programs 2);
   Proceed 1 0 5; Proceed 2 0 5; Proceed 1 0 0; Proceed 2 0 0;
   Proceed 1 31 0; Proceed 2 32 0; Proceed 2 0 0; Proceed 1 0 0;
   Invoke 3 (contend_programs 3); Proceed 3 0 20; Proceed 3 0 0; Proceed 3 33 0;
   Proceed 3 0 0;
   Invoke 4 (contend_programs 4); Proceed 4 0 25; Proceed 4 0 0; Proceed 4 0 0].

Definition contend_store : astore := astore_with (Queue.location queue1) (queue1_doc []).
Definition contend_start : config Empty_set (result (queue_output N) (Queue.Error Empty_set unit)) :=
  MkConfig contend_store ∅ [] [].

(** What invocation [t] returned successfully, and what it drew. *)
Definition report {A F} (c : config Empty_set (result A F)) (t : nat) :
    option (option A * list N * list Uuid) :=
  (λ th, (match t_cur th with Ret (Ok x) => Some x | _ => None end, t_clock th, t_uuids th))
    <$> c_threads c !! t.

Lemma report_returned c t (x : queue_output N) clock us :
  report c t = Some (Some x, clock, us) → returned_ok (J := unit) c t x clock us.
Proof.
  unfold report. destruct (c_threads c !! t) as [th|] eqn:Hth; [|done]. simpl.
  destruct (t_cur th) as [[y|]| |] eqn:Hy; intros; simplify_eq. by exists th.
Qed.

Definition contend_claim (u attempt deadline : N) : Queue.Claim N :=
  Queue.MkClaim (Queue.MkMessageId 30) 7%N (Queue.MkLeaseToken u) attempt deadline.

Lemma contend_runs :
  ∃ c, schedule 10 contend_actions contend_start = Some c ∧
    workers (J := unit) false queue1 contend_ops contend_store c ∧
    (c_log c).*1 = [0; 2; 3; 4] ∧
    returned_ok c 2 (OutClaim (Some (contend_claim 32 1 15))) [5]%N [32]%N ∧
    returned_ok c 3 (OutClaim (Some (contend_claim 33 2 30))) [20]%N [33]%N ∧
    returned_ok c 4 (OutAck Queue.Acknowledged) [25]%N [].
Proof.
  assert (((λ c, (c_uuids c, (c_log c).*1, report c 2, report c 3, report c 4)) <$>
             schedule 10 contend_actions contend_start) =
          Some ([30; 31; 32; 33]%N, [0; 2; 3; 4],
                Some (Some (OutClaim (Some (contend_claim 32 1 15))), [5]%N, [32]%N),
                Some (Some (OutClaim (Some (contend_claim 33 2 30))), [20]%N, [33]%N),
                Some (Some (OutAck Queue.Acknowledged), [25]%N, []))) as Hlog
    by (vm_compute; reflexivity).
  destruct (schedule 10 contend_actions contend_start) as [c|] eqn:Hc; [|discriminate Hlog].
  injection Hlog as Hus Hord H2 H3 H4.
  exists c. split; [done|]. split; [|split_and!; [done|by apply report_returned..]].
  split.
  - apply astore_with_coherent.
  - apply queue1_holds, sorted_by_nil.
  - eapply schedule_reachable; [constructor|exact Hc].
  - exact (schedule_ops contend_programs 10 contend_actions contend_start c
      ltac:(intros t1 th1; simpl; by rewrite lookup_empty) ltac:(repeat constructor) Hc).
  - rewrite Hus. apply (bool_decide_eq_true_1 (NoDup [30; 31; 32; 33]%N)).
    vm_compute; reflexivity.
Qed.

