(* ===== verification/Linearization.v ===== *)
(** * Linearizing a backend

    Operations on a backend overlap and can fail.  [linearizes] is what a backend
    promises about an execution: each operation takes effect at one moment, between
    its invocation and its return, as one step of the abstract store.  A backend whose
    requests can outlive the client ([delayed]) may let a write that failed take
    effect later, or never.

    [log_ok] is the invariant by which an adapter's execution is explained, with a
    lemma for each event: an invocation, an effect, a return, a crash. *)

From S2P Require Import Prelude.
From S2P Require Import Program.
From S2P Require Import ObjectStore.

(** ** Operations and moments *)

Inductive moment := Invoked | Linearized | Returned.

#[export] Instance moment_eq_dec : EqDecision moment.
Proof. solve_decision. Defined.

(** An operation, and what it returned if it has. *)
Record operation (E : Type) := MkOperation {
  op_call : call;
  op_reply : option (reply E op_call);
}.
Arguments MkOperation {E} op_call op_reply.
Arguments op_call {E} o.
Arguments op_reply {E} o.

(** The operations that took effect, in order. *)
Definition effects (es : list (nat * moment)) : list nat :=
  omap (λ e, if decide (e.2 = Linearized) then Some e.1 else None) es.

Definition visible (es : list (nat * moment)) : list (nat * moment) :=
  filter (λ e, e.2 ≠ Linearized) es.

(** Each operation takes effect at one moment, between its invocation and its return,
    unless it may be [late]. *)
Inductive well_ordered (late : nat → Prop) : list (nat * moment) → Prop :=
  | ordered_nil : well_ordered late []
  | ordered_invoke es t :
      well_ordered late es → (∀ x, (t, x) ∉ es) → well_ordered late (es ++ [(t, Invoked)])
  | ordered_linearize es t :
      well_ordered late es → (t, Invoked) ∈ es → ((t, Linearized) ∉ es) →
      ((t, Returned) ∈ es → late t) → well_ordered late (es ++ [(t, Linearized)])
  | ordered_return es t :
      well_ordered late es → (t, Invoked) ∈ es → ((t, Linearized) ∈ es ∨ late t) →
      ((t, Returned) ∉ es) → well_ordered late (es ++ [(t, Returned)]).

Section Linearizes.
Context {E : Type} (spurious delayed : bool).
Implicit Types (a : astore) (t : nat) (o : operation E) (ops mops : gmap nat (operation E)).

(** The reply leaves open whether the write was applied. *)
Definition backend_failure (c : call) : reply E c → Prop :=
  match c with
  | Create _ _ => λ r, ∃ e, r = Err (CreateStore e)
  | Replace _ _ _ => λ r, ∃ e, r = Err (ReplaceStore e)
  | _ => λ _, False
  end.

Definition ambiguous o : Prop :=
  match op_reply o with Some r => backend_failure (op_call o) r | None => False end.

(** The operations that may take effect after they returned, if they do at all. *)
Definition late mops t : Prop :=
  delayed = true ∧ ∃ o, mops !! t = Some o ∧ ambiguous o.

(** The abstract store executes one operation, with its reply. *)
Definition lin_step ops t a a' : Prop :=
  ∃ c r, ops !! t = Some (MkOperation c (Some r)) ∧ store_step spurious a c r a'.

Inductive lin_run ops : astore → list nat → astore → Prop :=
  | lin_nil a : lin_run ops a [] a
  | lin_snoc a ts a' t a'' :
      lin_run ops a ts a' → lin_step ops t a' a'' → lin_run ops a (ts ++ [t]) a''.

(** [o'] is [o], with a reply if [o] never returned. *)
Definition completes o o' : Prop :=
  op_call o = op_call o' ∧ (is_Some (op_reply o) → o' = o).

(** The operations [mops], invoked and returned in the order [trace], took effect in
    [order] with the replies of [ops]; the abstract store has gone from [a0] to [a]. *)
Definition linearizes a0 mops (trace : list (nat * moment)) ops
    (order : list (nat * moment)) a : Prop :=
  well_ordered (late mops) order ∧ visible order = trace ∧
  (∀ t o, mops !! t = Some o → ∃ o', ops !! t = Some o' ∧ completes o o') ∧
  lin_run ops a0 (effects order) a.

(** ** Facts *)

Lemma well_ordered_mono (late1 late2 : nat → Prop) es :
  (∀ t, late1 t → late2 t) → well_ordered late1 es → well_ordered late2 es.
Proof. intros Hl. induction 1; constructor; naive_solver. Qed.

(** A failure is a reply the store may give without effect. *)
Lemma failure_without_effect (c : call) (r : reply E c) a :
  backend_failure c r → store_step spurious a c r a.
Proof. by destruct c as [l|l b|l v b| |]; simpl; try done; intros [e ->]; left. Qed.

Lemma ordered_linearized (P : nat → Prop) es t :
  well_ordered P es → (t, Linearized) ∈ es → (t, Invoked) ∈ es.
Proof.
  induction 1 as [|es t' _ IH Hn|es t' _ IH Hi Hl Hr|es t' _ IH Hi Hl Hr];
    rewrite ?elem_of_nil, ?elem_of_app, ?list_elem_of_singleton; naive_solver.
Qed.

Lemma ordered_returned (P : nat → Prop) es t :
  well_ordered P es → (t, Returned) ∈ es → (t, Linearized) ∈ es ∨ P t.
Proof.
  induction 1 as [|es t' _ IH Hn|es t' _ IH Hi Hl Hr|es t' _ IH Hi Hl Hr];
    rewrite ?elem_of_nil, ?elem_of_app, ?list_elem_of_singleton; naive_solver.
Qed.

Lemma elem_of_visible t x order :
  x ≠ Linearized → (t, x) ∈ visible order ↔ (t, x) ∈ order.
Proof. intros Hx. unfold visible. rewrite list_elem_of_filter. naive_solver. Qed.

Lemma visible_app es es' : visible (es ++ es') = visible es ++ visible es'.
Proof. apply filter_app. Qed.

(** What took effect has a reply. *)
Lemma lin_run_reply ops a ts a' t :
  lin_run ops a ts a' → t ∈ ts → ∃ c r, ops !! t = Some (MkOperation c (Some r)).
Proof.
  induction 1 as [|a ts a' t' a'' _ IH (c & r & Ht & _)]; [by intros ?%elem_of_nil|].
  rewrite elem_of_app, list_elem_of_singleton. intros [?| ->]; eauto.
Qed.

Lemma lin_run_snoc_inv ops a ts t a' :
  lin_run ops a (ts ++ [t]) a' → ∃ a1, lin_run ops a ts a1 ∧ lin_step ops t a1 a'.
Proof.
  remember (ts ++ [t]) as ts' eqn:Hts. destruct 1 as [a|a ts' a1 t' a' Hrun Hstep].
  - by destruct ts.
  - apply app_inj_2 in Hts as [-> [= ->]]; [eauto|done].
Qed.

Lemma elem_of_effects t order : t ∈ effects order ↔ (t, Linearized) ∈ order.
Proof.
  unfold effects. rewrite list_elem_of_omap. split.
  - intros ([t' x] & Hx & Ht). simpl in Ht. case_decide; simplify_eq/=. done.
  - intros Ht. exists (t, Linearized). by rewrite decide_True.
Qed.

Lemma effects_snoc order t x :
  effects (order ++ [(t, x)]) =
  effects order ++ (if decide (x = Linearized) then [t] else []).
Proof. unfold effects. rewrite omap_app. f_equal. simpl. by case_decide. Qed.

Lemma visible_snoc order t x :
  visible (order ++ [(t, x)]) =
  visible order ++ (if decide (x = Linearized) then [] else [(t, x)]).
Proof.
  unfold visible. rewrite filter_app. f_equal. rewrite filter_cons. simpl.
  by destruct x.
Qed.

Lemma lin_run_mono ops ops' a ts a' :
  (∀ t a1 a2, t ∈ ts → lin_step ops t a1 a2 → lin_step ops' t a1 a2) →
  lin_run ops a ts a' → lin_run ops' a ts a'.
Proof.
  intros Hstep Hrun. induction Hrun as [|a ts a' t a'' Hrun IH Ht]; [constructor|].
  econstructor; [apply IH; intros; apply Hstep; set_solver|apply Hstep; set_solver].
Qed.

Lemma lin_run_fresh ops a ts a' t o :
  t ∉ ts → lin_run ops a ts a' → lin_run (<[t := o]> ops) a ts a'.
Proof.
  intros Ht. apply lin_run_mono. intros t' a1 a2 Ht' (c & r & Hr & Hs).
  exists c, r. rewrite lookup_insert_ne by set_solver. done.
Qed.

(** The reply of an operation can be replaced by one it could have given. *)
Lemma lin_run_update ops a ts a' t c r r' :
  ops !! t = Some (MkOperation c (Some r')) →
  (∀ a1 a2, store_step spurious a1 c r' a2 → store_step spurious a1 c r a2) →
  lin_run ops a ts a' → lin_run (<[t := MkOperation c (Some r)]> ops) a ts a'.
Proof.
  intros Hop Hr. apply lin_run_mono. intros t' a1 a2 _ (c1 & r1 & Hr1 & Hs).
  destruct (decide (t = t')) as [<-|Hne].
  - rewrite Hop in Hr1. injection Hr1 as Hc Hr1. subst c1.
    apply (Eqdep_dec.inj_pair2_eq_dec _ (λ x y, decide (x = y))) in Hr1 as <-.
    exists c, r. rewrite lookup_insert_eq. auto.
  - exists c1, r1. by rewrite lookup_insert_ne.
Qed.

Lemma completes_refl o : completes o o.
Proof. done. Qed.

Lemma late_invoke mops t t' o : mops !! t = None → late mops t' → late (<[t := o]> mops) t'.
Proof.
  intros Ht (? & o' & Ho' & ?). split; [done|]. exists o'.
  rewrite lookup_insert_ne; [done|congruence].
Qed.

Lemma late_return mops t t' c o :
  mops !! t = Some (MkOperation c None) → late mops t' → late (<[t := o]> mops) t'.
Proof.
  intros Ht (? & o' & Ho' & Ha). split; [done|]. exists o'.
  rewrite lookup_insert_ne; [done|]. intros <-. by simplify_eq.
Qed.
End Linearizes.

(** ** The log *)

Section Log.
Context {E : Type} (spurious delayed : bool).
Implicit Types (a : astore) (t : nat) (o : operation E)
  (ops mops running : gmap nat (operation E)) (order trace : list (nat * moment)).

(** How an operation of the machine appears in the log. *)
Definition logged ops order t o : Prop :=
  ∃ o', ops !! t = Some o' ∧ completes o o' ∧
    (t, Invoked) ∈ order ∧ ((t, Linearized) ∈ order → is_Some (op_reply o')) ∧
    (is_Some (op_reply o') → (t, Linearized) ∈ order ∨ (delayed = true ∧ ambiguous o)) ∧
    ((t, Returned) ∈ order ↔ is_Some (op_reply o)).

Definition unlogged ops order t : Prop := ops !! t = None ∧ ∀ x, (t, x) ∉ order.

(** [running] are the operations that run, with the reply each is bound to, if any. *)
Record log_ok a0 mops trace running ops order a : Prop := MkLogOk {
  lg_order : well_ordered (late delayed mops) order;
  lg_trace : visible order = trace;
  lg_run : lin_run spurious ops a0 (effects order) a;
  lg_running t o : running !! t = Some o →
    ops !! t = Some o ∧ mops !! t = Some (MkOperation (op_call o) None);
  lg_ops t o : mops !! t = Some o → logged ops order t o;
  lg_none t : mops !! t = None → unlogged ops order t;
}.

Lemma log_linearizes a0 mops trace running ops order a :
  log_ok a0 mops trace running ops order a →
  linearizes spurious delayed a0 mops trace ops order a.
Proof.
  intros Hlog. split_and!; try apply Hlog.
  intros t o Ho. destruct (lg_ops _ _ _ _ _ _ _ Hlog t o Ho) as (o' & ? & ? & _). eauto.
Qed.

Lemma log_init a0 : log_ok a0 ∅ [] ∅ ∅ [] a0.
Proof.
  split; [constructor|done|constructor|by intros t o; rewrite lookup_empty..|].
  intros t _. split; [done|]. intros x. apply not_elem_of_nil.
Qed.

(** An entry for one operation changes nothing for the others. *)
Lemma logged_frame ops order t t' o o' x :
  t ≠ t' → logged ops order t' o → logged (<[t := o']> ops) (order ++ [(t, x)]) t' o.
Proof.
  intros Hne (o1 & Ho & Hc & Hi & Hl & Hl' & Hr). exists o1.
  rewrite lookup_insert_ne by done.
  assert (∀ y, (t', y) ∈ order ++ [(t, x)] ↔ (t', y) ∈ order) as Heq.
  { intros y. rewrite elem_of_app, list_elem_of_singleton. naive_solver. }
  by rewrite !Heq.
Qed.

Lemma unlogged_frame ops order t t' o x :
  t ≠ t' → unlogged ops order t' → unlogged (<[t := o]> ops) (order ++ [(t, x)]) t'.
Proof.
  intros Hne [Ho Hno]. split; [by rewrite lookup_insert_ne|].
  intros y. rewrite elem_of_app, list_elem_of_singleton. intros [?|[=]]; [by eapply Hno|done].
Qed.

Context {a0 : astore} {mops : gmap nat (operation E)} {trace : list (nat * moment)}.

(** A running operation has been invoked, has not returned, and took effect if it is
    bound to a reply. *)
Lemma log_pending running ops order a t o :
  log_ok a0 mops trace running ops order a → running !! t = Some o →
  (t, Invoked) ∈ order ∧ ((t, Linearized) ∈ order ↔ is_Some (op_reply o)) ∧
  ((t, Returned) ∉ order).
Proof.
  intros Hlog Hg. destruct (lg_running _ _ _ _ _ _ _ Hlog t o Hg) as [Ho Hm].
  destruct (lg_ops _ _ _ _ _ _ _ Hlog t _ Hm) as (o' & Ho' & _ & Hi & Hl & Hl' & Hr).
  rewrite Ho in Ho'. injection Ho' as <-. split_and!; [done| |].
  - split; [done|]. by intros [?|[_ []]]%Hl'.
  - rewrite Hr. by intros [? ?].
Qed.

(** An operation without a reply takes effect; it may have crashed. *)
Lemma log_linearize running ops order a a' t o c r :
  log_ok a0 mops trace running ops order a →
  mops !! t = Some o → ops !! t = Some (MkOperation c None) →
  store_step spurious a c r a' →
  log_ok a0 mops trace (alter (λ _, MkOperation c (Some r)) t running)
    (<[t := MkOperation c (Some r)]> ops) (order ++ [(t, Linearized)]) a'.
Proof.
  intros Hlog Hm Hop Hs.
  destruct (lg_ops _ _ _ _ _ _ _ Hlog t o Hm) as (o' & Ho' & [Hc Hc'] & Hi & Hl & _ & Hr).
  rewrite Hop in Ho'. injection Ho' as <-. simpl in *.
  assert (op_reply o = None) as Hno.
  { apply eq_None_not_Some. intros Hs'. pose proof (Hc' Hs') as <-. by destruct Hs'. }
  assert ((t, Linearized) ∉ order) as Hl' by (intros [? ?]%Hl; done).
  assert ((t, Returned) ∉ order) as Hr' by (rewrite Hr, Hno; by intros [? ?]).
  split.
  - apply ordered_linearize; [apply Hlog|done..].
  - rewrite visible_snoc, decide_True, app_nil_r by done. apply Hlog.
  - rewrite effects_snoc, decide_True by done. econstructor.
    + apply lin_run_fresh; [by rewrite elem_of_effects|apply Hlog].
    + exists c, r. by rewrite lookup_insert_eq.
  - intros t' o'. destruct (decide (t = t')) as [<-|Hne].
    + rewrite lookup_alter_eq, lookup_insert_eq.
      intros (o1 & Ho1 & ->)%fmap_Some. split; [done|]. simpl.
      destruct (lg_running _ _ _ _ _ _ _ Hlog t o1 Ho1) as [Ho Hm'].
      rewrite Hop in Ho. by injection Ho as <-.
    + rewrite lookup_alter_ne, lookup_insert_ne by done. apply Hlog.
  - intros t' o' Ho'. destruct (decide (t = t')) as [<-|Hne].
    + simplify_eq. eexists. rewrite lookup_insert_eq. split; [done|]. simpl.
      split_and!; [split; [done|by rewrite Hno; intros [? ?]]|set_solver|by eauto| |].
      * left. set_solver.
      * rewrite Hno. split; [|by intros [? ?]].
        rewrite elem_of_app, list_elem_of_singleton. by intros [?|[=]].
    + apply logged_frame; [done|]. by apply Hlog.
  - intros t' Ht'. destruct (decide (t = t')) as [<-|Hne]; [congruence|].
    apply unlogged_frame; [done|]. by apply Hlog.
Qed.

(** A failed write that has returned takes effect. *)
Lemma log_linearize_late running ops order a a' t c r :
  log_ok a0 mops trace running ops order a → delayed = true →
  mops !! t = Some (MkOperation c (Some r)) → backend_failure c r →
  (t, Linearized) ∉ order → store_step spurious a c r a' →
  log_ok a0 mops trace running ops (order ++ [(t, Linearized)]) a'.
Proof.
  intros Hlog Hd Hm Hf Hl Hs.
  destruct (lg_ops _ _ _ _ _ _ _ Hlog t _ Hm) as (o' & Ho' & [_ Hc] & Hi & _ & _ & Hr).
  rewrite Hc in Ho' by (by eexists).
  assert (late delayed mops t) as Hlate by (split; [done|by eexists]).
  split; [|..].
  - by apply ordered_linearize; [apply Hlog|..].
  - rewrite visible_snoc, decide_True, app_nil_r by done. apply Hlog.
  - rewrite effects_snoc, decide_True by done. econstructor; [apply Hlog|]. by exists c, r.
  - apply Hlog.
  - intros t' o1 Hm1. destruct (decide (t = t')) as [<-|Hne].
    + simplify_eq. eexists. split; [done|]. simpl.
      split_and!; [apply completes_refl|set_solver|by eauto|left; set_solver|].
      rewrite elem_of_app, list_elem_of_singleton, Hr. naive_solver.
    + rewrite <- (insert_id ops t _ Ho'). apply logged_frame; [done|]. by apply Hlog.
  - intros t' Ht'. rewrite <- (insert_id ops t _ Ho'). apply unlogged_frame; [congruence|].
    by apply Hlog.
Qed.

Lemma log_crash running ops order a t :
  log_ok a0 mops trace running ops order a →
  log_ok a0 mops trace (delete t running) ops order a.
Proof.
  intros Hlog. split; try apply Hlog.
  intros t' g [_ Hg]%lookup_delete_Some. by apply Hlog.
Qed.

Lemma log_invoke running ops order a t c :
  log_ok a0 mops trace running ops order a → mops !! t = None →
  log_ok a0 (<[t := MkOperation c None]> mops) (trace ++ [(t, Invoked)])
    (<[t := MkOperation c None]> running) (<[t := MkOperation c None]> ops)
    (order ++ [(t, Invoked)]) a.
Proof.
  intros Hlog Hm. destruct (lg_none _ _ _ _ _ _ _ Hlog t Hm) as [Ho Hno]. split.
  - apply ordered_invoke; [|done].
    eapply well_ordered_mono; [|apply Hlog]. intros t'. by apply late_invoke.
  - rewrite visible_snoc. simpl. f_equal. apply Hlog.
  - rewrite effects_snoc. simpl. rewrite app_nil_r.
    apply lin_run_fresh; [rewrite elem_of_effects; apply Hno|apply Hlog].
  - intros t' g' [[<- <-]|[Ht' Hg']]%lookup_insert_Some; [by rewrite !lookup_insert_eq|].
    rewrite !lookup_insert_ne by done. by apply Hlog.
  - intros t' o. destruct (decide (t = t')) as [<-|Hne].
    + unfold logged. rewrite !lookup_insert_eq. intros [= <-]. eexists. split; [done|].
      split_and!; [apply completes_refl|set_solver|..].
      all: rewrite elem_of_app, list_elem_of_singleton.
      * intros [?|[=]]. by destruct (Hno Linearized).
      * by intros [? ?].
      * split; [intros [?|[=]]; by destruct (Hno Returned)|by intros [? ?]].
    + rewrite lookup_insert_ne by done. intros Ho'.
      apply logged_frame; [done|]. by apply Hlog.
  - intros t' Hm'. destruct (decide (t = t')) as [<-|Hne]; [by rewrite lookup_insert_eq in Hm'|].
    rewrite lookup_insert_ne in Hm' by done.
    apply unlogged_frame; [done|]. by apply Hlog.
Qed.

(** A return with [r], after an effect with a reply that [r] can replace, or of a
    failed write that may still take effect. *)
Lemma log_return running ops order a t o r :
  log_ok a0 mops trace running ops order a → running !! t = Some o →
  match op_reply o with
  | Some r' => ∀ a1 a2, store_step spurious a1 (op_call o) r' a2 →
      store_step spurious a1 (op_call o) r a2
  | None => delayed = true ∧ backend_failure (op_call o) r
  end →
  log_ok a0 (<[t := MkOperation (op_call o) (Some r)]> mops) (trace ++ [(t, Returned)])
    (delete t running) (<[t := MkOperation (op_call o) (Some r)]> ops)
    (order ++ [(t, Returned)]) a.
Proof.
  intros Hlog Hg Hor.
  destruct (lg_running _ _ _ _ _ _ _ Hlog t o Hg) as [Ho Hm].
  destruct (log_pending _ _ _ _ _ _ Hlog Hg) as (Hi & Hl & Hret).
  set (mops' := <[t := MkOperation (op_call o) (Some r)]> mops).
  assert (∀ t', late delayed mops t' → late delayed mops' t') as Hlate
    by (intros t'; by eapply late_return).
  assert ((t, Linearized) ∈ order ∨
    (delayed = true ∧ ambiguous (MkOperation (op_call o) (Some r)))) as Hdone.
  { rewrite Hl. destruct (op_reply o); [left; by eexists|by right]. }
  split.
  - apply ordered_return; [|done| |done].
    + by eapply well_ordered_mono; [|apply Hlog].
    + destruct Hdone as [|[? ?]]; [by left|right]. split; [done|]. eexists.
      unfold mops'. by rewrite lookup_insert_eq.
  - rewrite visible_snoc. simpl. f_equal. apply Hlog.
  - rewrite effects_snoc. simpl. rewrite app_nil_r.
    destruct o as [c [r'|]]; simpl in *; [by eapply lin_run_update; [..|apply Hlog]|].
    apply lin_run_fresh; [|apply Hlog]. rewrite elem_of_effects, Hl. by intros [? ?].
  - intros t' g' [Ht' Hg']%lookup_delete_Some. unfold mops'. rewrite !lookup_insert_ne by done.
    by apply Hlog.
  - intros t' o'. unfold mops'. destruct (decide (t = t')) as [<-|Hne].
    + unfold logged. rewrite !lookup_insert_eq. intros [= <-]. eexists. split; [done|]. simpl.
      split_and!; [apply completes_refl|set_solver|by eauto| |].
      * intros _. rewrite elem_of_app. naive_solver.
      * rewrite elem_of_app, list_elem_of_singleton. split; [by eexists|by right].
    + rewrite lookup_insert_ne by done. intros Ho'.
      apply logged_frame; [done|]. by apply Hlog.
  - intros t' Hm'. unfold mops' in Hm'.
    destruct (decide (t = t')) as [<-|Hne]; [by rewrite lookup_insert_eq in Hm'|].
    rewrite lookup_insert_ne in Hm' by done.
    apply unlogged_frame; [done|]. by apply Hlog.
Qed.
End Log.
