(* ===== verification/FileSystem.v ===== *)
(** * The part of std::fs and std::path the filesystem adapter uses

    Unix paths split into components as [Path::components] splits them; a
    directory tree below the adapter's canonical root, with files, directories and
    symbolic links; the calls the adapter makes to it, advisory file locks and the
    UUID generator included.  [fs_normal] is what a call does when it succeeds or
    fails for a reason visible in the tree; [fs_effect] adds that any call may fail
    with an I/O error of the environment, having done part of its work.

    A path through a symbolic link is not resolved: a call on one fails.  The
    adapter checks its paths for links before it uses them. *)

From S2P Require Import Prelude.
From S2P Require Import Program.
From S2P Require Import ObjectStore.

(** ** Paths (std::path) *)

Inductive Component :=
  | RootDir
  | CurDir
  | ParentDir
  | Normal (name : string).

(** The pieces of a string between slashes; [acc] is the piece being read,
    reversed. *)
Fixpoint split_slash_from (acc s : string) : list string :=
  match s with
  | EmptyString => [String.rev acc]
  | String c s =>
      if decide (c = "/"%char) then String.rev acc :: split_slash_from "" s
      else split_slash_from (String c acc) s
  end.
Definition split_slash : string → list string := split_slash_from "".

(** [Path::components]: empty pieces and dots are skipped, except for the root and
    for a leading dot. *)
Definition component_of (piece : string) : option Component :=
  if String.eqb piece "" || String.eqb piece "." then None
  else if String.eqb piece ".." then Some ParentDir
  else Some (Normal piece).

Definition components (s : string) : list Component :=
  let pieces := split_slash s in
  (if str_starts_with "/" s then [RootDir]
   else match pieces with "." :: _ => [CurDir] | _ => [] end) ++
  omap component_of pieces.

(** A path below the root, as the names that lead to it. *)
Abbreviation path := (list string).

(** A path as written: one that ends in a slash or a dot can only name a
    directory. *)
Record PathBuf := MkPathBuf { below : path; dir_only : bool }.

#[export] Instance PathBuf_eq_dec : EqDecision PathBuf.
Proof. solve_decision. Defined.

(** [Path::parent] of a path below the root. *)
Definition parent (p : path) : option path :=
  match p with [] => None | _ => Some (removelast p) end.

(** ** Files *)

Inductive node :=
  | Dir
  | File (b : bytes)
  | Symlink.

#[export] Instance node_eq_dec : EqDecision node.
Proof. solve_decision. Defined.

(** The tree below the root, which exists. *)
Abbreviation nodes := (gmap path node).

Definition node_at (ns : nodes) (p : path) : option node :=
  match p with [] => Some Dir | _ => ns !! p end.

(** [std::io::Error]: its kind and its text. *)
Inductive ErrorKind :=
  NotFound | AlreadyExists | NotADirectory | IsADirectory | OtherKind (kind : string).

#[export] Instance ErrorKind_eq_dec : EqDecision ErrorKind.
Proof. solve_decision. Defined.

Record IoError := MkIoError { error_kind : ErrorKind; error_text : string }.

#[export] Instance IoError_eq_dec : EqDecision IoError.
Proof. solve_decision. Defined.

Definition io_error (k : ErrorKind) : IoError :=
  MkIoError k
    match k with
    | NotFound => "No such file or directory (os error 2)"
    | AlreadyExists => "File exists (os error 17)"
    | NotADirectory => "Not a directory (os error 20)"
    | IsADirectory => "Is a directory (os error 21)"
    | OtherKind s => s
    end.

(** A missing path is reported as such unless one of its ancestors is no
    directory. *)
Fixpoint absent_kind (ns : nodes) (cur p : path) : ErrorKind :=
  match p with
  | [] | [_] => NotFound
  | c :: p =>
      match ns !! (cur ++ [c]) with
      | Some Dir => absent_kind ns (cur ++ [c]) p
      | None => NotFound
      | Some (File _) => NotADirectory
      | Some Symlink => OtherKind "symbolic link"
      end
  end.

Definition absent (ns : nodes) (p : path) : IoError := io_error (absent_kind ns [] p).

Definition fs_read (ns : nodes) (p : PathBuf) : result bytes IoError :=
  match node_at ns (below p) with
  | Some (File b) => if dir_only p then Err (io_error NotADirectory) else Ok b
  | Some Dir => Err (io_error IsADirectory)
  | Some Symlink => Err (io_error (OtherKind "symbolic link"))
  | None => Err (absent ns (below p))
  end.

(** [create_dir_all], one name at a time; what was made stays made. *)
Fixpoint fs_mkdirs (ns : nodes) (cur p : path) : result unit IoError * nodes :=
  match p with
  | [] => (Ok tt, ns)
  | c :: p =>
      match ns !! (cur ++ [c]) with
      | None => fs_mkdirs (<[cur ++ [c] := Dir]> ns) (cur ++ [c]) p
      | Some Dir => fs_mkdirs ns (cur ++ [c]) p
      | Some _ => (Err (io_error NotADirectory), ns)
      end
  end.

(** The directory a new entry goes to. *)
Definition parent_is_dir (ns : nodes) (p : path) : bool :=
  match parent p with
  | Some d => bool_decide (node_at ns d = Some Dir)
  | None => false
  end.

(** [open] with [create(true)] and no truncation. *)
Definition fs_open_create (ns : nodes) (p : path) : result unit IoError * nodes :=
  match node_at ns p with
  | Some (File _) => (Ok tt, ns)
  | Some Dir => (Err (io_error IsADirectory), ns)
  | Some Symlink => (Err (io_error (OtherKind "symbolic link")), ns)
  | None =>
      if parent_is_dir ns p then (Ok tt, <[p := File []]> ns) else (Err (absent ns p), ns)
  end.

(** [open] with [create_new(true)]. *)
Definition fs_create_new (ns : nodes) (p : path) : result unit IoError * nodes :=
  match node_at ns p with
  | Some _ => (Err (io_error AlreadyExists), ns)
  | None =>
      if parent_is_dir ns p then (Ok tt, <[p := File []]> ns) else (Err (absent ns p), ns)
  end.

(** [write_all] to a file just created; an unlinked file takes the bytes with it. *)
Definition fs_append (ns : nodes) (p : path) (b : bytes) : nodes :=
  match ns !! p with
  | Some (File c) => <[p := File (c ++ b)]> ns
  | _ => ns
  end.

(** [rename] of a file: atomically replaces what the target names, which cannot be
    a directory. *)
Definition fs_rename (ns : nodes) (p : path) (q : PathBuf) : result unit IoError * nodes :=
  match ns !! p, node_at ns (below q) with
  | None, _ => (Err (absent ns p), ns)
  | Some _, Some Dir => (Err (io_error IsADirectory), ns)
  | Some (File b), other =>
      if dir_only q then (Err (io_error NotADirectory), ns)
      else if bool_decide (other = None) && negb (parent_is_dir ns (below q))
      then (Err (absent ns (below q)), ns)
      else (Ok tt, <[below q := File b]> (delete p ns))
  | Some _, _ => (Err (io_error (OtherKind "not a file")), ns)
  end.

Definition fs_remove_file (ns : nodes) (p : path) : result unit IoError * nodes :=
  match node_at ns p with
  | Some (File _) | Some Symlink => (Ok tt, delete p ns)
  | Some Dir => (Err (io_error IsADirectory), ns)
  | None => (Err (absent ns p), ns)
  end.

(** ** Calls *)

Inductive LockMode := Shared | Exclusive.

#[export] Instance LockMode_eq_dec : EqDecision LockMode.
Proof. solve_decision. Defined.

Inductive fs_call :=
  | SymlinkMetadata (p : path)
  | CreateDirAll (p : path)
  | ReadFile (p : PathBuf)
  | OpenCreate (p : path)
  | LockFile (p : path) (mode : LockMode)
  | CloseFile (p : path)
  | CreateNewFile (p : path)
  | WriteAll (p : path) (b : bytes)
  | SyncAll (p : path)
  | Rename (p : path) (q : PathBuf)
  | OpenDir (p : path)
  | RemoveFile (p : path)
  | FsNowV7.

Definition fs_reply (c : fs_call) : Type :=
  match c with
  | SymlinkMetadata _ => result node IoError
  | ReadFile _ => result bytes IoError
  | CloseFile _ => unit
  | FsNowV7 => Uuid
  | _ => result unit IoError
  end.

Abbreviation fs := (prog fs_reply).

Definition symlink_metadata p : fs (result node IoError) :=
  Call (R := fs_reply) (SymlinkMetadata p) Ret.
Definition create_dir_all p : fs (result unit IoError) :=
  Call (R := fs_reply) (CreateDirAll p) Ret.
Definition read_file p : fs (result bytes IoError) := Call (R := fs_reply) (ReadFile p) Ret.
Definition open_create p : fs (result unit IoError) :=
  Call (R := fs_reply) (OpenCreate p) Ret.
Definition lock_file p mode : fs (result unit IoError) :=
  Call (R := fs_reply) (LockFile p mode) Ret.
(** Dropping a file handle, which releases its lock. *)
Definition close_file p : fs unit := Call (R := fs_reply) (CloseFile p) Ret.
Definition create_new_file p : fs (result unit IoError) :=
  Call (R := fs_reply) (CreateNewFile p) Ret.
Definition write_all p b : fs (result unit IoError) :=
  Call (R := fs_reply) (WriteAll p b) Ret.
Definition sync_all p : fs (result unit IoError) := Call (R := fs_reply) (SyncAll p) Ret.
Definition rename p q : fs (result unit IoError) := Call (R := fs_reply) (Rename p q) Ret.
Definition open_dir p : fs (result unit IoError) := Call (R := fs_reply) (OpenDir p) Ret.
Definition remove_file p : fs (result unit IoError) :=
  Call (R := fs_reply) (RemoveFile p) Ret.
Definition fs_now_v7 : fs Uuid := Call (R := fs_reply) FsNowV7 Ret.

(** ** Effects

    The state the threads of every process share: the tree, the locks held (each by
    the thread that took it, since a lock belongs to one open file and an operation
    opens one lock file), and the UUIDs drawn so far. *)
Record fs_state := MkFsState {
  tree : nodes;
  held : gmap nat (path * LockMode);
  drawn : list Uuid;
}.

Definition set_tree (ns : nodes) (s : fs_state) : fs_state :=
  MkFsState ns (held s) (drawn s).

(** Whether thread [t] would not have to wait for the lock. *)
Definition lock_free (hs : gmap nat (path * LockMode)) (t : nat) (p : path)
    (mode : LockMode) : Prop :=
  ∀ t' mode', hs !! t' = Some (p, mode') → t' = t ∨ (mode = Shared ∧ mode' = Shared).

#[export] Instance lock_free_dec hs t p mode : Decision (lock_free hs t p mode).
Proof.
  refine (cast_if (decide (map_Forall (λ t' (x : path * LockMode),
    x.1 = p → t' = t ∨ (mode = Shared ∧ x.2 = Shared)) hs))); unfold lock_free.
  - intros t' mode' Hp. by apply (m t' (p, mode')).
  - intros Hf. apply n. intros t' [q mode'] Hp Hq. simpl in *. subst.
    by apply (Hf t' mode').
Defined.

(** A UUID has 128 bits. *)
Definition uuid_max : N := 340282366920938463463374607431768211455.

(** The effect of a call by thread [t] when the environment does not interfere;
    [None]: the thread waits.  [u] is the UUID drawn, if one is. *)
Definition fs_normal (t : nat) (u : Uuid) (s : fs_state) (c : fs_call) :
    option (fs_reply c * fs_state) :=
  match c return option (fs_reply c * fs_state) with
  | SymlinkMetadata p => Some
      (match node_at (tree s) p with Some n => Ok n | None => Err (absent (tree s) p) end, s)
  | CreateDirAll p =>
      let (r, ns) := fs_mkdirs (tree s) [] p in Some (r, set_tree ns s)
  | ReadFile p => Some (fs_read (tree s) p, s)
  | OpenCreate p => let (r, ns) := fs_open_create (tree s) p in Some (r, set_tree ns s)
  | LockFile p mode =>
      if decide (lock_free (held s) t p mode)
      then Some (Ok tt, MkFsState (tree s) (<[t := (p, mode)]> (held s)) (drawn s))
      else None
  | CloseFile _ => Some (tt, MkFsState (tree s) (delete t (held s)) (drawn s))
  | CreateNewFile p => let (r, ns) := fs_create_new (tree s) p in Some (r, set_tree ns s)
  | WriteAll p b => Some (Ok tt, set_tree (fs_append (tree s) p b) s)
  | SyncAll _ => Some (Ok tt, s)
  | Rename p q => let (r, ns) := fs_rename (tree s) p q in Some (r, set_tree ns s)
  | OpenDir p => Some
      (match node_at (tree s) p with
       | Some Dir => Ok tt
       | Some _ => Err (io_error NotADirectory)
       | None => Err (absent (tree s) p)
       end, s)
  | RemoveFile p => let (r, ns) := fs_remove_file (tree s) p in Some (r, set_tree ns s)
  | FsNowV7 => Some (u, MkFsState (tree s) (held s) (drawn s ++ [u]))
  end.

(** What a call leaves behind that fails for a reason outside the tree: some of the
    directories were made, some of the bytes written. *)
Definition fs_partial (ns : nodes) (c : fs_call) (ns' : nodes) : Prop :=
  match c with
  | CreateDirAll p => ∃ q, q `prefix_of` p ∧ ns' = (fs_mkdirs ns [] q).2
  | WriteAll p b => ∃ b', b' `prefix_of` b ∧ ns' = fs_append ns p b'
  | _ => ns' = ns
  end.

(** An injected error is never [NotFound], which tells the adapter that a path does
    not exist. *)
Definition injected {A} (r : result A IoError) : Prop :=
  ∃ e, r = Err e ∧ error_kind e ≠ NotFound.

Definition fs_faulty (s : fs_state) (c : fs_call) : fs_reply c → fs_state → Prop :=
  let fault {A} (r : result A IoError) s' :=
    injected r ∧ ∃ ns', fs_partial (tree s) c ns' ∧ s' = set_tree ns' s in
  match c return fs_reply c → fs_state → Prop with
  | CloseFile _ => λ _ _, False
  | FsNowV7 => λ _ _, False
  | SymlinkMetadata _ => fault
  | ReadFile _ => fault
  | CreateDirAll _ | OpenCreate _ | LockFile _ _ | CreateNewFile _ | WriteAll _ _
  | SyncAll _ | Rename _ _ | OpenDir _ | RemoveFile _ => fault
  end.

(** UUIDs are unique: the generator returns one that was not drawn before. *)
Definition fs_effect (t : nat) (s : fs_state) (c : fs_call) (r : fs_reply c)
    (s' : fs_state) : Prop :=
  (∃ u, (u ≤ uuid_max)%N ∧ (u ∉ drawn s) ∧
    fs_normal t u s c = Some (r, s')) ∨
  fs_faulty s c r s'.
