(* ===== verification/Envelope.v ===== *)
(** * The file envelope of the filesystem adapter (format.rs, error.rs)

    An object file is a magic number, a format version, the revision UUID, the
    length of the object as a big-endian [u64] and its bytes.  The uuid crate is a
    parameter, with the laws its documentation states. *)

From S2P Require Import Prelude.
From S2P Require Import ObjectStore.
From S2P Require Import FileSystem.

(** ** The uuid crate *)

Class UuidCrate := {
  uuid_to_string : Uuid → string;
  uuid_as_bytes : Uuid → bytes;
  uuid_from_slice : bytes → option Uuid;
}.

(** A UUID is its 16 bytes, and its hyphenated form determines it. *)
Class UuidLaws `{!UuidCrate} : Prop := {
  uuid_as_bytes_length u : length (uuid_as_bytes u) = 16;
  uuid_from_as_bytes u : (u ≤ uuid_max)%N → uuid_from_slice (uuid_as_bytes u) = Some u;
  uuid_as_from_slice b u :
    uuid_from_slice b = Some u → uuid_as_bytes u = b ∧ (u ≤ uuid_max)%N;
  uuid_from_slice_total b : length b = 16 → is_Some (uuid_from_slice b);
  uuid_to_string_inj u u' :
    (u ≤ uuid_max)%N → (u' ≤ uuid_max)%N → uuid_to_string u = uuid_to_string u' → u = u';
}.

(** ** Errors (error.rs) *)

Module FsError.

Inductive BuildError :=
  | MissingRoot
  | BuildIo (error : IoError).

Definition BuildError_display (e : BuildError) : string :=
  match e with
  | MissingRoot => "missing filesystem root"
  | BuildIo error => "could not prepare filesystem root: " +:+ error_text error
  end.

Definition BuildError_source (e : BuildError) : option IoError :=
  match e with
  | MissingRoot => None
  | BuildIo error => Some error
  end.

Inductive StoreError :=
  | InvalidLocation
  | Io (error : IoError)
  | InvalidObjectFormat
  | UnsupportedFormatVersion.

Definition StoreError_display (e : StoreError) : string :=
  match e with
  | InvalidLocation => "invalid filesystem object location"
  | Io error => "filesystem operation failed: " +:+ error_text error
  | InvalidObjectFormat => "invalid filesystem object format"
  | UnsupportedFormatVersion => "unsupported filesystem object format version"
  end.

Definition StoreError_source (e : StoreError) : option IoError :=
  match e with
  | Io error => Some error
  | _ => None
  end.

Definition StoreError_from (error : IoError) : StoreError := Io error.

End FsError.

#[export] Instance StoreError_eq_dec : EqDecision FsError.StoreError.
Proof. solve_decision. Defined.

(** ** Integers as bytes *)

Definition byte_of (n : N) : byte :=
  match Byte.of_N (n mod 256) with Some b => b | None => Byte.x00 end.

Fixpoint to_le_bytes (k : nat) (n : N) : bytes :=
  match k with
  | O => []
  | S k => byte_of n :: to_le_bytes k (n / 256)
  end.

Fixpoint from_le_bytes (b : bytes) : N :=
  match b with
  | [] => 0
  | c :: b => (Byte.to_N c + 256 * from_le_bytes b)%N
  end.

(** [u64::to_be_bytes] and [u64::from_be_bytes]. *)
Definition to_be_bytes (n : N) : bytes := reverse (to_le_bytes 8 n).
Definition from_be_bytes (b : bytes) : N := from_le_bytes (reverse b).

(** [&s[from..until]]: panics unless the bounds are in order and inside. *)
Definition slice (from until : nat) (b : bytes) : option bytes :=
  if (from <=? until) && (until <=? length b)
  then Some (take (until - from) (drop from b)) else None.

(** ** The format (format.rs) *)

Module Format.
Import FsError.

Definition MAGIC : bytes := bytes_of_string "OBJSDSFS".
Definition FORMAT_VERSION : byte := Byte.x01.
Definition HEADER_LEN : nat := 33.

Section Codec.
Context `{!UuidCrate}.

(** [encode] with the revision it draws. *)
Definition encode (revision : Uuid) (b : bytes) : Version * bytes :=
  let version := version_new (uuid_to_string revision) in
  (version,
   MAGIC ++ [FORMAT_VERSION] ++ uuid_as_bytes revision ++
   to_be_bytes (N.of_nat (length b) mod (u64_max + 1)) ++ b).

(** [None] is an out-of-bounds panic. *)
Definition decode (encoded : bytes) : option (result Object StoreError) :=
  let fail e := Some (Err e) in
  if length encoded <? HEADER_LEN then fail InvalidObjectFormat
  else
    magic ← slice 0 8 encoded;
    if negb (bool_decide (magic = MAGIC)) then fail InvalidObjectFormat
    else
      version ← encoded !! 8;
      if negb (bool_decide (version = FORMAT_VERSION)) then fail UnsupportedFormatVersion
      else
        revision ← slice 9 25 encoded;
        match uuid_from_slice revision with
        | None => fail InvalidObjectFormat
        | Some revision =>
            length_bytes ← slice 25 33 encoded;
            let length := from_be_bytes length_bytes in
            match slice HEADER_LEN (List.length encoded) encoded with
            | None => fail InvalidObjectFormat
            | Some b =>
                if negb (N.of_nat (List.length b) =? length)%N
                then fail InvalidObjectFormat
                else Some (Ok (MkObject b (version_new (uuid_to_string revision))))
            end
        end.
End Codec.
End Format.

(** ** Facts *)

Lemma byte_of_to_N n : Byte.to_N (byte_of n) = (n mod 256)%N.
Proof.
  unfold byte_of. destruct (Byte.of_N _) as [b|] eqn:Hb; [by apply Byte.to_of_N|].
  apply Byte.of_N_None_iff in Hb. pose proof (N.mod_lt n 256). lia.
Qed.

Lemma to_le_bytes_length k n : length (to_le_bytes k n) = k.
Proof. revert n. induction k as [|k IH]; intros n; simpl; by rewrite ?IH. Qed.

Lemma from_to_le_bytes k n :
  (n < 256 ^ N.of_nat k)%N → from_le_bytes (to_le_bytes k n) = n.
Proof.
  revert n. induction k as [|k IH]; intros n Hn; cbn [to_le_bytes from_le_bytes].
  { simpl in Hn. lia. }
  rewrite byte_of_to_N, IH.
  - pose proof (N.div_mod n 256). lia.
  - rewrite Nat2N.inj_succ, N.pow_succ_r' in Hn. apply N.Div0.div_lt_upper_bound. lia.
Qed.

Lemma to_N_lt c : (Byte.to_N c < 256)%N.
Proof. pose proof (Byte.to_N_bounded c). lia. Qed.

Lemma byte_of_id c : byte_of (Byte.to_N c) = c.
Proof.
  unfold byte_of. rewrite N.mod_small, Byte.of_to_N by apply to_N_lt. done.
Qed.

Lemma to_from_le_bytes b : to_le_bytes (length b) (from_le_bytes b) = b.
Proof.
  induction b as [|c b IH]; [done|]. cbn [length to_le_bytes from_le_bytes].
  assert (byte_of (Byte.to_N c + 256 * from_le_bytes b) = c) as ->.
  { unfold byte_of. rewrite N.mul_comm, N.Div0.mod_add, N.mod_small, Byte.of_to_N
      by apply to_N_lt. done. }
  f_equal. rewrite N.mul_comm, N.div_add, N.div_small by (apply to_N_lt || done). done.
Qed.

Lemma from_to_be_bytes n : (n ≤ u64_max)%N → from_be_bytes (to_be_bytes n) = n.
Proof.
  intros. unfold from_be_bytes, to_be_bytes. rewrite reverse_involutive.
  apply from_to_le_bytes. change (256 ^ N.of_nat 8)%N with (u64_max + 1)%N. lia.
Qed.

Lemma to_from_be_bytes b : length b = 8 → to_be_bytes (from_be_bytes b) = b.
Proof.
  intros Hb. unfold from_be_bytes, to_be_bytes.
  rewrite <- Hb, <- length_reverse, to_from_le_bytes. apply reverse_involutive.
Qed.

Lemma to_be_bytes_length n : length (to_be_bytes n) = 8.
Proof. unfold to_be_bytes. by rewrite length_reverse, to_le_bytes_length. Qed.

Lemma slice_app pre b post from until :
  from = length pre → until = from + length b →
  slice from until (pre ++ b ++ post) = Some b.
Proof.
  intros -> ->. unfold slice.
  rewrite (proj2 (Nat.leb_le _ _)), (proj2 (Nat.leb_le _ _)) by (rewrite ?length_app; lia).
  simpl. rewrite drop_app_length, take_app_length'; [done|lia].
Qed.

Section Envelopes.
Context `{UuidLaws}.
Import FsError Format.
Implicit Types (u : Uuid) (b e : bytes) (o : Object).

(** The version of a revision. *)
Definition version_of u : Version := (encode u []).1.

(** The file that holds the object [b] at revision [u]. *)
Definition envelope u b : bytes := (encode u b).2.

Lemma version_of_inj u u' :
  (u ≤ uuid_max)%N → (u' ≤ uuid_max)%N → version_of u = version_of u' → u = u'.
Proof. intros ?? Heq. apply uuid_to_string_inj; [done..|]. by injection Heq. Qed.

(** The checks of [decode] on a file cut into its fields. *)
Definition decode_fields (magic : bytes) (version : byte) (revision length_bytes b : bytes) :
    result Object StoreError :=
  if decide (magic = MAGIC) then
    if decide (version = FORMAT_VERSION) then
      match uuid_from_slice revision with
      | Some u =>
          if decide (N.of_nat (length b) = from_be_bytes length_bytes)
          then Ok (MkObject b (version_of u)) else Err InvalidObjectFormat
      | None => Err InvalidObjectFormat
      end
    else Err UnsupportedFormatVersion
  else Err InvalidObjectFormat.

Lemma decode_app m v r l b :
  length m = 8 → length r = 16 → length l = 8 →
  decode (m ++ [v] ++ r ++ l ++ b) = Some (decode_fields m v r l b).
Proof.
  intros Hm Hr Hl. unfold decode, decode_fields.
  assert (length (m ++ [v] ++ r ++ l ++ b) = 33 + length b) as Hlen.
  { rewrite !length_app, Hm, Hr, Hl. simpl. lia. }
  rewrite Hlen. change (33 + length b <? HEADER_LEN) with false. cbv iota.
  assert (slice 0 8 (m ++ [v] ++ r ++ l ++ b) = Some m) as ->
    by (by apply (slice_app [] m)).
  cbn [mbind option_bind].
  case_decide as HM; [rewrite bool_decide_eq_true_2 by done|
                      by rewrite bool_decide_eq_false_2].
  rewrite lookup_app_r, Hm by lia. cbn [negb app lookup list_lookup mbind option_bind Nat.sub].
  case_decide as HV; [rewrite bool_decide_eq_true_2 by done|
                      by rewrite bool_decide_eq_false_2].
  cbn [negb]. change (v :: ?x) with ([v] ++ x). rewrite (app_assoc m).
  rewrite (slice_app (m ++ [v]) r _ 9 25) by (rewrite ?length_app, ?Hm, ?Hr; simpl; lia).
  cbn [mbind option_bind]. destruct (uuid_from_slice r) as [u|]; [|done].
  rewrite (app_assoc (m ++ [v])).
  rewrite (slice_app ((m ++ [v]) ++ r) l _ 25 33) by (rewrite ?length_app, ?Hm, ?Hr, ?Hl; simpl; lia).
  cbn [mbind option_bind].
  assert (slice HEADER_LEN (33 + length b) (((m ++ [v]) ++ r) ++ l ++ b) = Some b) as ->.
  { rewrite (app_assoc _ l). rewrite <- (app_nil_r b) at 2.
    apply slice_app; [|unfold HEADER_LEN; lia].
    rewrite !length_app, Hm, Hr, Hl. done. }
  case_decide as HL; [by rewrite HL, N.eqb_refl|].
  by rewrite (proj2 (N.eqb_neq _ _) HL).
Qed.

Lemma decode_short e : length e < 33 → decode e = Some (Err InvalidObjectFormat).
Proof.
  intros. unfold decode. by rewrite (proj2 (Nat.ltb_lt (length e) HEADER_LEN)) by done.
Qed.

(** A file long enough for a header has its fields. *)
Lemma fields_of e :
  33 ≤ length e →
  ∃ m v r l b, e = m ++ [v] ++ r ++ l ++ b ∧
    length m = 8 ∧ length r = 16 ∧ length l = 8.
Proof.
  intros He. destruct (drop 8 e) as [|v e1] eqn:H8.
  { apply (f_equal length) in H8. rewrite length_drop in H8. simpl in H8. lia. }
  assert (length e1 = length e - 9) as He1.
  { apply (f_equal length) in H8. rewrite length_drop in H8. simpl in H8. lia. }
  exists (take 8 e), v, (take 16 e1), (take 8 (drop 16 e1)), (drop 8 (drop 16 e1)).
  rewrite !length_take, !length_drop. split_and!; [|lia..].
  rewrite (take_drop 8 (drop 16 e1)), (take_drop 16 e1). simpl.
  rewrite <- H8. symmetry. apply take_drop.
Qed.

Lemma envelope_app u b :
  envelope u b = MAGIC ++ [FORMAT_VERSION] ++ uuid_as_bytes u ++
    to_be_bytes (N.of_nat (length b) mod (u64_max + 1)) ++ b.
Proof. done. Qed.

Lemma decode_envelope u b :
  (u ≤ uuid_max)%N → (N.of_nat (length b) ≤ u64_max)%N →
  decode (envelope u b) = Some (Ok (MkObject b (version_of u))).
Proof.
  intros Hu Hb. rewrite envelope_app, decode_app;
    [|done|apply uuid_as_bytes_length|apply to_be_bytes_length].
  unfold decode_fields. rewrite !decide_True by done. rewrite uuid_from_as_bytes by done.
  rewrite N.mod_small, from_to_be_bytes by lia. by rewrite decide_True.
Qed.

Lemma decode_fields_Ok m v r l b o :
  length r = 16 → length l = 8 → (N.of_nat (length b) ≤ u64_max)%N →
  decode_fields m v r l b = Ok o ↔
  ∃ u, (u ≤ uuid_max)%N ∧ m ++ [v] ++ r ++ l ++ b = envelope u (object_bytes o) ∧
    length m = 8 ∧ object_version o = version_of u.
Proof.
  intros Hr Hl Hb. unfold decode_fields. split.
  - case_decide as HM; [|done]. case_decide as HV; [|done].
    destruct (uuid_from_slice r) as [u|] eqn:Hu; [|done].
    case_decide as HL; [|done]. intros ?; simplify_eq/=.
    apply uuid_as_from_slice in Hu as [<- ?]. exists u. split_and!; [done| |done..].
    rewrite envelope_app, HL, N.mod_small, to_from_be_bytes; [done..|]. lia.
  - intros (u & Hu & Heq & Hm & Hv). rewrite envelope_app in Heq.
    apply app_inj_1 in Heq as [-> Heq]; [|done].
    apply app_inj_1 in Heq as [[= ->] Heq]; [|done].
    apply app_inj_1 in Heq as [-> Heq]; [|by rewrite uuid_as_bytes_length].
    apply app_inj_1 in Heq as [-> ->]; [|by rewrite to_be_bytes_length].
    rewrite !decide_True by done. rewrite uuid_from_as_bytes by done.
    rewrite N.mod_small, from_to_be_bytes, decide_True by lia.
    destruct o; simpl in *. by rewrite Hv.
Qed.

(** [decode] accepts exactly the envelopes. *)
Lemma decode_Ok e o :
  (N.of_nat (length e) ≤ u64_max)%N →
  decode e = Some (Ok o) ↔
  ∃ u, (u ≤ uuid_max)%N ∧ e = envelope u (object_bytes o) ∧ object_version o = version_of u.
Proof.
  intros He. destruct (decide (length e < 33)) as [Hs|Hs].
  { rewrite decode_short by done. split; [done|]. intros (u & _ & -> & _).
    rewrite envelope_app, !length_app, uuid_as_bytes_length, to_be_bytes_length in Hs.
    simpl in Hs. lia. }
  destruct (fields_of e) as (m & v & r & l & b & -> & Hm & Hr & Hl); [lia|].
  rewrite decode_app by done. rewrite (inj_iff Some). rewrite !length_app in He.
  rewrite decode_fields_Ok by (done || lia). naive_solver.
Qed.

(** A file with an intact magic number and another format version. *)
Definition other_version e : Prop :=
  33 ≤ length e ∧ take 8 e = MAGIC ∧ e !! 8 ≠ Some FORMAT_VERSION.

Lemma decode_unsupported e :
  decode e = Some (Err UnsupportedFormatVersion) ↔ other_version e.
Proof.
  unfold other_version. destruct (decide (length e < 33)) as [Hs|Hs].
  { rewrite decode_short by done. split; [done|lia]. }
  destruct (fields_of e) as (m & v & r & l & b & -> & Hm & Hr & Hl); [lia|].
  rewrite decode_app, (inj_iff Some) by done. rewrite take_app_length' by done.
  rewrite lookup_app_r, Hm by lia. cbn [app lookup list_lookup Nat.sub].
  unfold decode_fields. case_decide; [|by split; [|intros (_ & ? & _)]].
  case_decide as HV; [|split; [|done]; intros _; split_and!; [by apply Nat.nlt_ge|done|congruence]].
  split; [by repeat case_match|]. intros (_ & _ & Hv). by rewrite HV in Hv.
Qed.

Lemma decode_total e : ∃ r, decode e = Some r ∧
  match r with
  | Err InvalidLocation | Err (Io _) => False
  | _ => True
  end.
Proof.
  destruct (decide (length e < 33)) as [Hs|Hs].
  { rewrite decode_short by done. by eexists. }
  destruct (fields_of e) as (m & v & r & l & b & -> & Hm & Hr & Hl); [lia|].
  rewrite decode_app by done. eexists. split; [done|].
  unfold decode_fields. by repeat case_match.
Qed.

(** C28: reading an object file never panics, and its outcome is decided by the
    bytes: the object and version of an envelope when the file is exactly an
    envelope, an unsupported version when only the version byte of an intact
    header differs, and an invalid format in every other case. *)
Theorem envelope_decode_spec e :
  (N.of_nat (length e) ≤ u64_max)%N →
  ∃ r, decode e = Some r ∧
  match r with
  | Ok o => ∃ u, (u ≤ uuid_max)%N ∧ e = envelope u (object_bytes o) ∧
              object_version o = version_of u
  | Err UnsupportedFormatVersion => other_version e
  | Err InvalidObjectFormat =>
      ¬ other_version e ∧ ∀ u b, (u ≤ uuid_max)%N → e ≠ envelope u b
  | Err _ => False
  end.
Proof.
  intros He. destruct (decode_total e) as (r & Hd & Hr). exists r. split; [done|].
  destruct r as [o|[| | |]]; try done.
  - by apply decode_Ok.
  - split; [rewrite <- decode_unsupported, Hd; done|].
    intros u b Hu ->.
    assert (decode (envelope u b) = Some (Ok (MkObject b (version_of u)))) as Hok
      by (apply decode_Ok; [done|by exists u]).
    congruence.
  - by apply decode_unsupported.
Qed.

(** C29: an object survives the file: whatever was written is read back with the
    version that was reported, and a file cut short by a torn write is recognised
    as invalid rather than read as an object. *)
Theorem envelope_roundtrip_torn u b e :
  (u ≤ uuid_max)%N → (N.of_nat (length b) ≤ u64_max)%N →
  e `prefix_of` envelope u b →
  decode e = Some (if decide (e = envelope u b)
                   then Ok (MkObject b (fst (encode u b))) else Err InvalidObjectFormat).
Proof.
  intros Hu Hb Hpre. case_decide as Heq; [subst; by apply decode_envelope|].
  destruct (decide (length e < 33)) as [Hs|Hs]; [by apply decode_short|].
  destruct (fields_of e) as (m & v & r & l & b' & -> & Hm & Hr & Hl); [lia|].
  destruct Hpre as [post Hpre]. rewrite envelope_app, <- !app_assoc in Hpre.
  apply app_inj_1 in Hpre as [<- Hpre]; [|done].
  apply app_inj_1 in Hpre as [[= <-] Hpre]; [|done].
  apply app_inj_1 in Hpre as [<- Hpre]; [|by rewrite uuid_as_bytes_length].
  apply app_inj_1 in Hpre as [<- Hpre]; [|by rewrite to_be_bytes_length].
  rewrite decode_app by done. unfold decode_fields. rewrite !decide_True by done.
  rewrite uuid_from_as_bytes by done. rewrite N.mod_small, from_to_be_bytes by lia.
  rewrite decide_False; [done|]. intros Hlen. apply Heq. subst b.
  rewrite length_app in Hlen. assert (post = []) as -> by (apply nil_length_inv; lia).
  by rewrite app_nil_r, envelope_app.
Qed.
End Envelopes.
