(* ===== verification/FilesystemStore.v ===== *)
(** * The filesystem adapter (path.rs, lock.rs, store.rs)

    Every operation is a program over the file-system calls of [FileSystem], as the
    code composes them: check the path, make the parent directories, take the lock
    of the location, read the object file, and, to write, fill a temporary file,
    sync it and rename it over the object.  Paths are those below the store's
    canonical root.  Leaving the scope of a lock closes its file, on every return. *)

From S2P Require Import Prelude.
From S2P Require Import Program.
From S2P Require Import ObjectStore.
From S2P Require Import FileSystem.
From S2P Require Import Envelope.

Module Filesystem.
Import FsError.

(** [?] on an I/O result, through [From<io::Error>]. *)
Definition io {A} (p : fs (result A IoError)) : fs (result A StoreError) :=
  prog_map_err StoreError_from p.

(** ** Paths (path.rs) *)

Definition is_normal (c : Component) : bool :=
  match c with Normal _ => true | _ => false end.

Definition normal_name (c : Component) : option string :=
  match c with Normal name => Some name | _ => None end.

(** Whether a written path can only name a directory. *)
Definition names_directory (s : string) : bool :=
  match last (split_slash s) with
  | Some piece => String.eqb piece "" || String.eqb piece "."
  | None => false
  end.

(** [root.join(relative)]. *)
Definition join_root (relative : string) : PathBuf :=
  MkPathBuf (omap normal_name (components relative)) (names_directory relative).

(** The loop of [reject_existing_symlinks] from [current], with the components
    still to push. *)
Fixpoint reject_symlinks_from (current rest : path) : fs (result unit StoreError) :=
  match rest with
  | [] => Ret (Ok tt)
  | component :: rest =>
      let current := current ++ [component] in
      let! metadata := symlink_metadata current in
      match metadata with
      | Ok Symlink => Ret (Err InvalidLocation)
      | Ok _ => reject_symlinks_from current rest
      | Err error =>
          if decide (error_kind error = NotFound) then Ret (Ok tt)
          else Ret (Err (StoreError_from error))
      end
  end.

Definition reject_existing_symlinks (p : PathBuf) : fs (result unit StoreError) :=
  reject_symlinks_from [] (below p).

Definition object_path (l : Location) : fs (result PathBuf StoreError) :=
  let relative := as_str l in
  if existsb (λ component, negb (is_normal component)) (components relative)
  then Ret (Err InvalidLocation)
  else
    let p := join_root relative in
    let? _ := reject_existing_symlinks p in
    Ret (Ok p).

Definition hex_digit (n : N) : Ascii.ascii :=
  match String.get (N.to_nat n) "0123456789abcdef" with
  | Some c => c
  | None => "?"%char
  end.

(** [format!("{byte:02x}")]. *)
Definition hex_byte (b : byte) : string :=
  let n := Byte.to_N b in
  String (hex_digit (n / 16)) (String (hex_digit (n mod 16)) "").

Definition hex (bs : bytes) : string := foldr (λ b s, hex_byte b +:+ s) "" bs.

Definition LOCKS : string := ".objsds-locks".

Definition lock_path (l : Location) : path :=
  let encoded := hex (String.list_byte_of_string (as_str l)) in
  [LOCKS; encoded +:+ ".lock"].

(** ** Locks (lock.rs) *)

(** An open lock file; dropping it releases the lock. *)
Record ObjectLock := MkObjectLock { lock_file_ : path }.

Definition acquire (p : path) (mode : LockMode) : fs (result ObjectLock StoreError) :=
  let? parent := Ret (ok_or (parent p) InvalidLocation) in
  let? _ := io (create_dir_all parent) in
  let? _ := io (open_create p) in
  let! locked := lock_file p mode in
  match locked with
  | Ok _ => Ret (Ok (MkObjectLock p))
  | Err error => let! _ := close_file p in Ret (Err (StoreError_from error))
  end.

(** The scope of a lock: the body runs, then the guard is dropped. *)
Definition scoped {A} (lock : ObjectLock) (body : fs A) : fs A :=
  let! r := body in
  let! _ := close_file (lock_file_ lock) in
  Ret r.

(** ** The store (store.rs) *)

Record FilesystemStore := MkFilesystemStore { root_ : string }.

(** [FilesystemStore::root]. *)
Definition root (s : FilesystemStore) : string := root_ s.

Section Operations.
Context `{!UuidCrate}.
Implicit Types (p : PathBuf) (l : Location) (b : bytes).

Definition read_path p : fs (result (option Object) StoreError) :=
  let! contents := read_file p in
  match contents with
  | Ok b => let! r := or_panic (Format.decode b) in Ret (map_ok Some r)
  | Err error =>
      if decide (error_kind error = NotFound) then Ret (Ok None)
      else Ret (Err (StoreError_from error))
  end.

Definition prepare_path l : fs (result PathBuf StoreError) :=
  let? p := object_path l in
  let? parent := Ret (ok_or (parent (below p)) InvalidLocation) in
  let? _ := io (create_dir_all parent) in
  let? _ := reject_existing_symlinks p in
  Ret (Ok p).

(** The name of a temporary file. *)
Definition temporary_name (u : Uuid) : string :=
  ".objsds-" +:+ uuid_to_string u +:+ ".tmp".

(** The closure of [publish]. *)
Definition publish_steps parent temporary p (encoded : bytes) :
    fs (result unit StoreError) :=
  let? _ := io (create_new_file temporary) in
  let? _ := io (write_all temporary encoded) in
  let? _ := io (sync_all temporary) in
  let? _ := io (rename temporary p) in
  let? _ := io (open_dir parent) in
  let? _ := io (sync_all parent) in
  Ret (Ok tt).

Definition publish p (encoded : bytes) : fs (result unit StoreError) :=
  let? parent := Ret (ok_or (parent (below p)) InvalidLocation) in
  let! u := fs_now_v7 in
  let temporary := parent ++ [temporary_name u] in
  let! result := publish_steps parent temporary p encoded in
  let! _ :=
    match result with
    | Err _ => let! _ := remove_file temporary in Ret tt
    | Ok _ => Ret tt
    end in
  Ret result.

(** [encode] draws the revision. *)
Definition encode b : fs (Version * bytes) :=
  let! revision := fs_now_v7 in
  Ret (Format.encode revision b).

Definition get l : fs (result (option Object) StoreError) :=
  let? p := object_path l in
  let? lock := acquire (lock_path l) Shared in
  scoped lock (read_path p).

Definition create l b : fs (result Version (CreateError StoreError)) :=
  let? p := prog_map_err CreateStore (prepare_path l) in
  let? lock := prog_map_err CreateStore (acquire (lock_path l) Exclusive) in
  scoped lock
    (let? current := prog_map_err CreateStore (read_path p) in
     match current with
     | Some object => Ret (Err (CreateAlreadyExists (object_version object)))
     | None =>
         let! ' (version, encoded) := encode b in
         let? _ := prog_map_err CreateStore (publish p encoded) in
         Ret (Ok version)
     end).

Definition replace l (expected : Version) b :
    fs (result Version (ReplaceError StoreError)) :=
  let? p := prog_map_err ReplaceStore (prepare_path l) in
  let? lock := prog_map_err ReplaceStore (acquire (lock_path l) Exclusive) in
  scoped lock
    (let? current := prog_map_err ReplaceStore (read_path p) in
     if decide (object_version <$> current = Some expected) then
       let! ' (version, encoded) := encode b in
       let? _ := prog_map_err ReplaceStore (publish p encoded) in
       Ret (Ok version)
     else Ret (Err (ReplaceConflict (object_version <$> current)))).
End Operations.

(** ** Building a store

    The calls act on the configured root, outside the tree. *)

Inductive root_call :=
  | RootCreateDirAll (p : string)
  | RootCanonicalize (p : string)
  | RootIsDir (p : string).

Definition root_reply (c : root_call) : Type :=
  match c with
  | RootCreateDirAll _ => result unit IoError
  | RootCanonicalize _ => result string IoError
  | RootIsDir _ => bool
  end.

(** [Path::join] of a relative name. *)
Definition path_join (p name : string) : string :=
  match last (split_slash p) with
  | Some "" => p +:+ name
  | _ => p +:+ "/" +:+ name
  end.

Record FilesystemStoreBuilder := MkFilesystemStoreBuilder { builder_root : option string }.

(** [FilesystemStore::builder()]. *)
Definition builder : FilesystemStoreBuilder := MkFilesystemStoreBuilder None.

Definition with_root (b : FilesystemStoreBuilder) (root : string) :
    FilesystemStoreBuilder := MkFilesystemStoreBuilder (Some root).

Definition build (b : FilesystemStoreBuilder) :
    prog root_reply (result FilesystemStore BuildError) :=
  let root_io {A} (p : prog root_reply (result A IoError)) := prog_map_err BuildIo p in
  let? root := Ret (ok_or (builder_root b) MissingRoot) in
  let? _ := root_io (Call (R := root_reply) (RootCreateDirAll root) Ret) in
  let? root := root_io (Call (R := root_reply) (RootCanonicalize root) Ret) in
  let! is_dir := Call (R := root_reply) (RootIsDir root) Ret in
  if negb is_dir
  then Ret (Err (BuildIo (io_error (OtherKind "filesystem root is not a directory"))))
  else
    let? _ := root_io
      (Call (R := root_reply) (RootCreateDirAll (path_join root LOCKS)) Ret) in
    Ret (Ok (MkFilesystemStore root)).

End Filesystem.
