(* ===== verification/FilesystemMachine.v ===== *)
(** * Concurrent use of one directory

    Any number of threads, of any number of processes, run operations of the
    filesystem adapter on one directory.  [mstep] interleaves their calls; a thread
    can also crash between any two calls, which releases its lock and leaves its
    temporary file behind.  [directory_linearizes] is what the adapter promises about
    such an execution. *)

From S2P Require Import Prelude.
From S2P Require Import Program.
From S2P Require Import ObjectStore.
From S2P Require Import Linearization.
From S2P Require Import FileSystem.
From S2P Require Import Envelope.
From S2P Require Import FilesystemStore.
Import Filesystem.

(** ** Managed locations *)

(** [str::ends_with]. *)
Fixpoint str_ends_with (suffix s : string) : bool :=
  String.eqb suffix s ||
  match s with
  | EmptyString => false
  | String _ s => str_ends_with suffix s
  end.

Definition plain_name (name : string) : bool :=
  negb (String.eqb name "") && negb (String.eqb name ".") && negb (String.eqb name "..").

Definition temporary_like (name : string) : bool :=
  str_starts_with ".objsds-" name && str_ends_with ".tmp" name.

(** The object file of a location that is a normalized path. *)
Definition object_file (l : Location) : path := split_slash (as_str l).

(** Normalized locations, other than the adapter's own lock files and temporary
    files. *)
Definition managed (l : Location) : bool :=
  let names := object_file l in
  forallb plain_name names &&
  negb (match last names with Some name => temporary_like name | None => true end) &&
  negb (match names with [dir; _] => String.eqb dir LOCKS | _ => false end).

(** The operations the theorems speak of: on managed locations, with objects whose
    length is a machine integer. *)
Definition call_ok (c : call) : Prop :=
  match c with
  | Get l => managed l = true
  | Create l b | Replace l _ b => managed l = true ∧ (N.of_nat (length b) ≤ u64_max)%N
  | NowMillis | NowV7 => False
  end.

(** ** The machine *)

Record thread := MkThread {
  th_call : call;
  th_prog : fs (reply FsError.StoreError th_call);
}.

Record machine := MkMachine {
  m_fs : fs_state;
  m_threads : gmap nat thread;
  m_ops : gmap nat (operation FsError.StoreError);
  m_trace : list (nat * moment);
}.

Section Machine.
Context `{!UuidCrate}.

Definition fs_op (c : call) : fs (reply FsError.StoreError c) :=
  match c with
  | Get l => Filesystem.get l
  | Create l b => Filesystem.create l b
  | Replace l v b => Filesystem.replace l v b
  | NowMillis | NowV7 => Panic
  end.

Definition release (t : nat) (s : fs_state) : fs_state :=
  MkFsState (tree s) (delete t (held s)) (drawn s).

(** [ok] is what the clients restrict themselves to. *)
Inductive mstep (ok : call → Prop) : machine → machine → Prop :=
  | step_invoke t c m :
      ok c → m_ops m !! t = None →
      mstep ok m (MkMachine (m_fs m) (<[t := MkThread c (fs_op c)]> (m_threads m))
                 (<[t := MkOperation c None]> (m_ops m)) (m_trace m ++ [(t, Invoked)]))
  | step_call t c fc k r s m :
      m_threads m !! t = Some (MkThread c (Call fc k)) →
      fs_effect t (m_fs m) fc r s →
      mstep ok m (MkMachine s (<[t := MkThread c (k r)]> (m_threads m)) (m_ops m) (m_trace m))
  | step_return t c r m :
      m_threads m !! t = Some (MkThread c (Ret r)) →
      mstep ok m (MkMachine (m_fs m) (delete t (m_threads m))
                 (<[t := MkOperation c (Some r)]> (m_ops m)) (m_trace m ++ [(t, Returned)]))
  | step_crash t th m :
      m_threads m !! t = Some th →
      mstep ok m (MkMachine (release t (m_fs m)) (delete t (m_threads m)) (m_ops m) (m_trace m)).

(** ** What the adapter promises *)

Definition file_at (ns : nodes) (p : path) : option bytes :=
  match ns !! p with Some (File b) => Some b | _ => None end.

(** The object in a file, if it holds one. *)
Definition decoded (e : bytes) : option Object :=
  match Format.decode e with Some (Ok o) => Some o | _ => None end.

(** The directory holds the objects of the abstract store. *)
Definition represents (ns : nodes) (a : astore) : Prop :=
  ∀ l, managed l = true → cur a !! l = file_at ns (object_file l) ≫= decoded.

(** The execution linearizes, and the directory holds the resulting store. *)
Definition directory_linearizes (a0 : astore) (m : machine)
    (ops : gmap nat (operation FsError.StoreError)) (order : list (nat * moment))
    (a : astore) : Prop :=
  linearizes false false a0 (m_ops m) (m_trace m) ops order a ∧
  represents (tree (m_fs m)) a.

(** The thread's next call would return, were there no I/O error. *)
Definition unblocked {A} (t : nat) (s : fs_state) (p : fs A) : Prop :=
  match p with
  | Ret _ => True
  | Panic => False
  | Call fc _ => ∀ u, is_Some (fs_normal t u s fc)
  end.

(** Before anything runs: no lock is held, and the revisions in use have been
    drawn. *)
Record initial (a : astore) (m : machine) : Prop := MkInitial {
  initial_threads : m_threads m = ∅;
  initial_ops : m_ops m = ∅;
  initial_trace : m_trace m = [];
  initial_held : held (m_fs m) = ∅;
  initial_represents : represents (tree (m_fs m)) a;
  initial_drawn l u :
    (u ≤ uuid_max)%N → is_Some (hist a !! (l, version_of u)) → u ∈ drawn (m_fs m);
}.

(** ** A deterministic scheduler

    No I/O error is injected, and the n-th UUID drawn is n.  It only takes steps of
    the machine ([fs_schedule_reachable]). *)

Inductive fs_action :=
  | Invoke (t : nat) (c : call)
  | Act (t : nat)
  | Crash (t : nat).

Definition fs_act (x : fs_action) (m : machine) : option machine :=
  match x with
  | Invoke t c =>
      if decide (m_ops m !! t = None) then
        Some (MkMachine (m_fs m) (<[t := MkThread c (fs_op c)]> (m_threads m))
                (<[t := MkOperation c None]> (m_ops m)) (m_trace m ++ [(t, Invoked)]))
      else None
  | Act t =>
      th ← m_threads m !! t;
      match th_prog th with
      | Ret r => Some (MkMachine (m_fs m) (delete t (m_threads m))
                   (<[t := MkOperation (th_call th) (Some r)]> (m_ops m))
                   (m_trace m ++ [(t, Returned)]))
      | Panic => None
      | Call fc k =>
          let u := N.of_nat (length (drawn (m_fs m))) in
          if decide ((u ≤ uuid_max)%N ∧ u ∉ drawn (m_fs m)) then
            '(r, s) ← fs_normal t u (m_fs m) fc;
            Some (MkMachine s (<[t := MkThread (th_call th) (k r)]> (m_threads m))
                    (m_ops m) (m_trace m))
          else None
      end
  | Crash t =>
      _ ← m_threads m !! t;
      Some (MkMachine (release t (m_fs m)) (delete t (m_threads m)) (m_ops m) (m_trace m))
  end.

Fixpoint fs_schedule (xs : list fs_action) (m : machine) : option machine :=
  match xs with
  | [] => Some m
  | x :: xs => m ← fs_act x m; fs_schedule xs m
  end.

Definition invoked (xs : list fs_action) : list call :=
  omap (λ x, match x with Invoke _ c => Some c | _ => None end) xs.

Lemma fs_act_step ok x m m' :
  (∀ t c, x = Invoke t c → ok c) → fs_act x m = Some m' → mstep ok m m'.
Proof.
  intros Hok. destruct x as [t c|t|t]; simpl.
  - case_decide; [|done]. intros [= <-]. constructor; [by eapply Hok|done].
  - destruct (m_threads m !! t) as [[c p]|] eqn:Ht; simpl; [|done].
    destruct p as [r| |fc k]; [intros [= <-]; by constructor|done|].
    case_decide as Hu; [|done]. destruct (fs_normal _ _ _ _) as [[r s]|] eqn:Hs; [|done].
    intros [= <-]. eapply step_call; [done|]. left. destruct Hu. eauto.
  - destruct (m_threads m !! t) as [th|] eqn:Ht; [|done]. intros [= <-]. by eapply step_crash.
Qed.

Lemma fs_schedule_reachable (ok : call → Prop) xs m m' :
  Forall ok (invoked xs) → fs_schedule xs m = Some m' → rtc (mstep ok) m m'.
Proof.
  revert m. induction xs as [|x xs IH]; intros m Hok Hs; simpl in *; [by simplify_eq|].
  destruct (fs_act x m) as [m1|] eqn:Hx; [|done]. simpl in Hs.
  apply rtc_l with m1.
  - eapply fs_act_step; [|done]. intros t c ->. by apply Forall_cons in Hok as [? _].
  - apply IH; [|done]. destruct x; [by apply Forall_cons in Hok as [_ ?]|done..].
Qed.
End Machine.
