(* ===== verification/FilesystemPaths.v ===== *)
(** * Paths and frames of the filesystem adapter

    Which files an operation can touch: the object file of a managed location, lock
    files and temporary files never coincide, locations and their object files
    correspond one to one, and a call changes no file it does not name. *)

From S2P Require Import Prelude.
From S2P Require Import Program.
From S2P Require Import ObjectStore.
From S2P Require Import FileSystem.
From S2P Require Import Envelope.
From S2P Require Import FilesystemStore.
From S2P Require Import FilesystemMachine.
Import Filesystem.

(** ** Strings *)

Lemma str_app_assoc (s t u : string) : (s +:+ t) +:+ u = s +:+ (t +:+ u).
Proof. induction s as [|c s IH]; [done|]. exact (f_equal (String c) IH). Qed.

Lemma str_app_nil_r (s : string) : s +:+ "" = s.
Proof. induction s as [|c s IH]; [done|]. exact (f_equal (String c) IH). Qed.

Lemma str_rev_app s t : String.rev_app s t = String.rev s +:+ t.
Proof.
  unfold String.rev. revert t. induction s as [|c s IH]; intros t; [done|].
  cbn [String.rev_app]. rewrite IH, (IH (String c "")), str_app_assoc. done.
Qed.

Lemma str_rev_cons c s t : String.rev (String c s) +:+ t = String.rev s +:+ String c t.
Proof.
  change (String.rev (String c s)) with (String.rev_app s (String c "")).
  rewrite str_rev_app, str_app_assoc. done.
Qed.

Lemma str_ends_with_app s suffix : str_ends_with suffix (s +:+ suffix) = true.
Proof.
  induction s as [|c s IH].
  - change ("" +:+ suffix) with suffix. destruct suffix; simpl; by rewrite ?String.eqb_refl, ?Ascii.eqb_refl.
  - change (String c s +:+ suffix) with (String c (s +:+ suffix)). simpl.
    by rewrite IH, orb_true_r.
Qed.

Lemma str_ends_with_split suffix s :
  str_ends_with suffix s = true → ∃ s', s = s' +:+ suffix.
Proof.
  induction s as [|c s IH]; simpl; rewrite ?orb_false_r, ?orb_true_iff.
  - intros ->%String.eqb_eq. by exists "".
  - intros [<-%String.eqb_eq|(s' & ->)%IH]; [by exists ""|by exists (String c s')].
Qed.

Lemma str_snoc_inj s t c d : s +:+ String c "" = t +:+ String d "" → c = d.
Proof.
  revert t. induction s as [|a s IH]; intros [|b t] Heq; simplify_eq/=.
  - done.
  - by destruct t.
  - by destruct s.
  - eauto.
Qed.

(** ** Splitting a path *)

Lemma split_slash_from_ne acc s : split_slash_from acc s ≠ [].
Proof. revert acc. induction s as [|c s IH]; intros acc; simpl; [done|]. by case_decide. Qed.

Lemma concat_split_slash_from acc s :
  String.concat "/" (split_slash_from acc s) = String.rev acc +:+ s.
Proof.
  revert acc. induction s as [|c s IH]; intros acc; cbn [split_slash_from].
  - simpl. by rewrite str_app_nil_r.
  - case_decide as Hc; [subst|by rewrite IH, str_rev_cons].
    specialize (IH ""). pose proof (split_slash_from_ne "" s) as Hne.
    destruct (split_slash_from "" s) as [|p ps]; [done|].
    change (String.concat "/" (String.rev acc :: p :: ps)) with
      (String.rev acc +:+ "/" +:+ String.concat "/" (p :: ps)).
    rewrite IH. done.
Qed.

Lemma object_file_inj l l' : object_file l = object_file l' → l = l'.
Proof.
  destruct l as [s], l' as [s']. unfold object_file, split_slash. simpl. intros Heq.
  pose proof (concat_split_slash_from "" s) as H1.
  pose proof (concat_split_slash_from "" s') as H2.
  rewrite Heq, H2 in H1. by f_equal.
Qed.

(** A string without slash is one piece. *)
Lemma split_slash_from_single acc s :
  str_contains "/" s = false → split_slash_from acc s = [String.rev acc +:+ s].
Proof.
  revert acc. induction s as [|c s IH]; intros acc Hs; cbn [split_slash_from].
  - by rewrite str_app_nil_r.
  - apply no_slash_cons in Hs as [Hc Hs].
    rewrite decide_False by done. rewrite IH by done. by rewrite str_rev_cons.
Qed.

Lemma split_slash_from_join acc s t :
  str_contains "/" s = false →
  split_slash_from acc (s +:+ "/" +:+ t) = (String.rev acc +:+ s) :: split_slash t.
Proof.
  revert acc. induction s as [|c s IH]; intros acc Hs.
  - change ("" +:+ "/" +:+ t) with (String "/" t). cbn [split_slash_from].
    rewrite decide_True by done. by rewrite str_app_nil_r.
  - apply no_slash_cons in Hs as [Hc Hs].
    change (String c s +:+ "/" +:+ t) with (String c (s +:+ "/" +:+ t)).
    cbn [split_slash_from]. rewrite decide_False, IH by done. by rewrite str_rev_cons.
Qed.

(** ** Managed locations *)

Lemma managed_spec l :
  managed l = true ↔
  Forall (λ name, plain_name name = true) (object_file l) ∧
  (∃ dir name, object_file l = dir ++ [name] ∧ temporary_like name = false) ∧
  (∀ name, object_file l ≠ [LOCKS; name]).
Proof.
  unfold managed. rewrite !andb_true_iff, !negb_true_iff, forallb_forall, <- List.Forall_forall.
  pose proof (split_slash_from_ne "" (as_str l)) as Hne. fold split_slash in Hne.
  change (split_slash (as_str l)) with (object_file l) in Hne.
  destruct (object_file l) as [|name dir _] using rev_ind; [done|].
  rewrite last_snoc. split.
  - intros [[Hp Ht] Hl]. split_and!; [done|by eexists _, _|].
    intros name' Heq. rewrite Heq in Hl. by rewrite String.eqb_refl in Hl.
  - intros (Hp & (dir' & name' & [<- [= <-]]%app_inj_tail & Ht) & Hl).
    split_and!; [done..|]. destruct (dir ++ [name]) as [|d [|n [|??]]] eqn:Heq; try done.
    apply String.eqb_neq. intros ->. by apply (Hl n).
Qed.

Lemma plain_component name : plain_name name = true → component_of name = Some (Normal name).
Proof.
  unfold plain_name, component_of. rewrite !andb_true_iff, !negb_true_iff.
  by intros [[-> ->] ->].
Qed.

Lemma managed_components l :
  managed l = true → components (as_str l) = Normal <$> object_file l.
Proof.
  intros (Hp & _ & _)%managed_spec. unfold components. unfold object_file in *.
  assert (str_starts_with "/" (as_str l) = false) as ->.
  { destruct (as_str l) as [|c s]; [done|]. unfold str_starts_with. rewrite prefix_slash.
    apply bool_decide_eq_false. intros ->.
    change (split_slash (String "/" s)) with ("" :: split_slash s) in Hp.
    by apply Forall_cons in Hp as [? _]. }
  assert (match split_slash (as_str l) with "." :: _ => [CurDir] | _ => [] end = []) as ->.
  { destruct (split_slash (as_str l)) as [|p ps]; [done|].
    apply Forall_cons in Hp as [Hp _]. repeat case_match; simplify_eq; done. }
  simpl. induction Hp as [|p ps Hp _ IH]; [done|].
  rewrite omap_cons, (plain_component p Hp), fmap_cons. by f_equal.
Qed.

Lemma managed_join_root l :
  managed l = true → join_root (as_str l) = MkPathBuf (object_file l) false.
Proof.
  intros Hm. unfold join_root. rewrite managed_components by done. f_equal.
  - induction (object_file l) as [|p ps IH]; [done|].
    rewrite fmap_cons, omap_cons. simpl. by f_equal.
  - apply managed_spec in Hm as (Hp & (dir & name & Heq & _) & _).
    unfold names_directory. unfold object_file in *. rewrite Heq in *. rewrite last_snoc.
    apply Forall_app in Hp as [_ [Hp _]%Forall_cons]. unfold plain_name in Hp.
    rewrite !andb_true_iff, !negb_true_iff in Hp. by destruct Hp as [[-> ->] _].
Qed.

Lemma managed_all_normal l :
  managed l = true →
  existsb (λ c, negb (is_normal c)) (components (as_str l)) = false.
Proof.
  intros Hm. rewrite managed_components by done.
  induction (object_file l) as [|p ps IH]; [done|]. done.
Qed.

(** Every location the data structures use is managed. *)
Lemma structure_managed namespace kind name l :
  location_structure namespace kind name = Ok l → managed l = true.
Proof.
  destruct l as [s]. intros (Hn & Hk & Hm & Hs)%location_structure_Ok. simpl in Hs. subst s.
  apply is_path_segment_true in Hn as (Hn1 & Hn2 & Hn3 & Hn), Hk as (Hk1 & Hk2 & Hk3 & Hk),
    Hm as (Hm1 & Hm2 & Hm3 & Hm).
  assert (∀ s, s ≠ "" → s ≠ "." → s ≠ ".." → plain_name s = true) as Hplain.
  { intros s ???. unfold plain_name. rewrite !andb_true_iff, !negb_true_iff.
    split_and!; by apply String.eqb_neq. }
  assert (object_file (MkLocation (namespace +:+ "/" +:+ kind +:+ "/" +:+ name +:+ ".json")) =
          [namespace; kind; name +:+ ".json"]) as Hobj.
  { unfold object_file, split_slash. simpl. rewrite split_slash_from_join by done.
    unfold split_slash. rewrite split_slash_from_join by done.
    unfold split_slash. rewrite split_slash_from_single by auto using no_slash_app, json_no_slash.
    done. }
  apply managed_spec. rewrite Hobj. split_and!.
  - repeat constructor; [by apply Hplain..|].
    apply Hplain; destruct name as [|c [|d [|e name]]]; intros Heq; (done || (cbv in Heq; discriminate Heq)).
  - exists [namespace; kind], (name +:+ ".json"). split; [done|].
    apply andb_false_intro2. apply not_true_is_false. intros [s Hs]%str_ends_with_split.
    change ".tmp" with (".tm" +:+ "p") in Hs. change ".json" with (".jso" +:+ "n") in Hs.
    rewrite <- !str_app_assoc in Hs. by apply str_snoc_inj in Hs.
  - done.
Qed.

(** ** The adapter's own files *)

(** The temporary file of an operation on [l] that drew [u] for it. *)
Definition temporary_file `{!UuidCrate} (l : Location) (u : Uuid) : path :=
  removelast (object_file l) ++ [temporary_name u].

Section OwnFiles.
Context `{UuidLaws}.
Implicit Types (l : Location) (u : Uuid).

Lemma temporary_name_like u : temporary_like (temporary_name u) = true.
Proof.
  unfold temporary_like, temporary_name. apply andb_true_intro. split; [apply prefix_append|].
  rewrite <- str_app_assoc. apply str_ends_with_app.
Qed.

Lemma temporary_name_inj u u' :
  (u ≤ uuid_max)%N → (u' ≤ uuid_max)%N → temporary_name u = temporary_name u' → u = u'.
Proof.
  intros Hu Hu' Heq. unfold temporary_name in Heq.
  apply (uuid_to_string_inj u u' Hu Hu'), (str_app_inj_r _ _ ".tmp").
  change (".objsds-" +:+ ?s) with
    (String "." (String "o" (String "b" (String "j" (String "s" (String "d" (String "s"
      (String "-" s)))))))) in Heq.
  by injection Heq.
Qed.

Lemma temporary_file_inj l l' u u' :
  (u ≤ uuid_max)%N → (u' ≤ uuid_max)%N →
  temporary_file l u = temporary_file l' u' → u = u'.
Proof. intros Hu Hu' [_ Heq]%app_inj_tail. by apply temporary_name_inj. Qed.

Lemma temporary_not_object l l' u :
  managed l' = true → temporary_file l u ≠ object_file l'.
Proof.
  intros (_ & (dir & name & -> & Hname) & _)%managed_spec [_ <-]%app_inj_tail.
  by rewrite temporary_name_like in Hname.
Qed.

Lemma lock_not_object l l' : managed l' = true → lock_path l ≠ object_file l'.
Proof. intros (_ & _ & Hlock)%managed_spec. by intros Heq%eq_sym%Hlock. Qed.

Lemma temporary_not_lock l l' u : temporary_file l u ≠ lock_path l'.
Proof.
  unfold temporary_file, lock_path, temporary_name.
  change [LOCKS; ?x] with ([LOCKS] ++ [x]). intros [_ Heq]%app_inj_tail.
  change ".tmp" with (".tm" +:+ "p") in Heq. change ".lock" with (".loc" +:+ "k") in Heq.
  rewrite <- !str_app_assoc in Heq. by apply str_snoc_inj in Heq.
Qed.
End OwnFiles.

Lemma hex_byte_inj b b' s s' : hex_byte b +:+ s = hex_byte b' +:+ s' → b = b' ∧ s = s'.
Proof.
  unfold hex_byte.
  change (String ?c (String ?d "") +:+ ?t) with (String c (String d t)).
  intros [= Hh Hl ->]. split; [|done].
  assert (∀ n m, (n < 16)%N → (m < 16)%N → hex_digit n = hex_digit m → n = m) as Hinj.
  { intros n m Hn Hm Heq.
    assert (∀ k, k < 16 → ∃ c, String.get k "0123456789abcdef" = Some c ∧
      String.index 0 (String c "") "0123456789abcdef" = Some k) as Hidx.
    { intros k Hk. do 16 (destruct k as [|k]; [by eexists|]). lia. }
    destruct (Hidx (N.to_nat n)) as (c & Hc & Hci); [lia|].
    destruct (Hidx (N.to_nat m)) as (d & Hd & Hdi); [lia|].
    unfold hex_digit in Heq. rewrite Hc, Hd in Heq. subst d.
    rewrite Hci in Hdi. injection Hdi. lia. }
  pose proof (to_N_lt b). pose proof (to_N_lt b').
  apply Hinj in Hh; [|apply N.Div0.div_lt_upper_bound; lia..].
  apply Hinj in Hl; [|by apply N.mod_lt..].
  rewrite <- (byte_of_id b), <- (byte_of_id b'). f_equal.
  rewrite (N.div_mod (Byte.to_N b) 16), (N.div_mod (Byte.to_N b') 16) by done.
  by rewrite Hh, Hl.
Qed.

Lemma hex_inj bs bs' : hex bs = hex bs' → bs = bs'.
Proof.
  revert bs'. induction bs as [|b bs IH]; intros [|b' bs']; cbn [hex foldr]; [done|done|done|].
  intros [-> Heq]%hex_byte_inj. f_equal. by apply IH.
Qed.

(** Different locations have different lock files. *)
Lemma lock_path_inj l l' : lock_path l = lock_path l' → l = l'.
Proof.
  unfold lock_path. intros [= Heq].
  apply str_app_inj_r, hex_inj in Heq. destruct l as [s], l' as [s']. simpl in Heq.
  apply (f_equal String.string_of_list_byte) in Heq.
  by rewrite !String.string_of_list_byte_of_string in Heq; subst.
Qed.

(** ** Frames *)

(** The files a call may change. *)
Definition touched (c : fs_call) : list path :=
  match c with
  | OpenCreate p | CreateNewFile p | WriteAll p _ | RemoveFile p => [p]
  | Rename p q => [p; below q]
  | _ => []
  end.

Section Frames.
Context `{!UuidCrate}.
Implicit Types (ns : nodes) (p q : path) (s : fs_state).

Lemma file_at_insert ns p n q : q ≠ p → file_at (<[p := n]> ns) q = file_at ns q.
Proof. intros. unfold file_at. by rewrite lookup_insert_ne. Qed.

Lemma file_at_delete ns p q : q ≠ p → file_at (delete p ns) q = file_at ns q.
Proof. intros. unfold file_at. by rewrite lookup_delete_ne. Qed.

Lemma file_at_insert_eq ns p b : file_at (<[p := File b]> ns) p = Some b.
Proof. unfold file_at. by rewrite lookup_insert_eq. Qed.

Lemma file_at_mkdirs ns cur p q : file_at (fs_mkdirs ns cur p).2 q = file_at ns q.
Proof.
  revert ns cur. induction p as [|c p IH]; intros ns cur; [done|]. cbn [fs_mkdirs].
  destruct (ns !! (cur ++ [c])) as [[]|] eqn:Hc; [apply IH|done|done|].
  rewrite IH. unfold file_at. destruct (decide (cur ++ [c] = q)) as [<-|Hq].
  - by rewrite lookup_insert_eq, Hc.
  - by rewrite lookup_insert_ne.
Qed.

Lemma file_at_append ns p b q : q ≠ p → file_at (fs_append ns p b) q = file_at ns q.
Proof. intros. unfold fs_append. repeat case_match; by rewrite ?file_at_insert. Qed.

(** A call changes no file it does not name. *)
Lemma fs_normal_frame t u s c r s' q :
  fs_normal t u s c = Some (r, s') → q ∉ touched c →
  file_at (tree s') q = file_at (tree s) q.
Proof.
  intros Hs Hq. destruct c; cbn [fs_normal touched] in *; simplify_eq/=; try done.
  - pose proof (file_at_mkdirs (tree s) [] p q) as Hm.
    by destruct (fs_mkdirs (tree s) [] p); simplify_eq/=.
  - destruct (fs_open_create (tree s) p) as [r' ns] eqn:Ho; simplify_eq/=.
    unfold fs_open_create in Ho. repeat case_match; simplify_eq; try done.
    apply file_at_insert. set_solver.
  - by case_decide; simplify_eq/=.
  - destruct (fs_create_new (tree s) p) as [r' ns] eqn:Ho; simplify_eq/=.
    unfold fs_create_new in Ho. repeat case_match; simplify_eq; try done.
    apply file_at_insert. set_solver.
  - apply file_at_append. set_solver.
  - destruct (fs_rename (tree s) p q0) as [r' ns] eqn:Ho; simplify_eq/=.
    unfold fs_rename in Ho. repeat case_match; simplify_eq; try done.
    all: rewrite file_at_insert, file_at_delete; [done|set_solver..].
  - destruct (fs_remove_file (tree s) p) as [r' ns] eqn:Ho; simplify_eq/=.
    unfold fs_remove_file in Ho. repeat case_match; simplify_eq; try done.
    all: apply file_at_delete; set_solver.
Qed.

Lemma fs_faulty_frame s c r s' q :
  fs_faulty s c r s' → q ∉ touched c → file_at (tree s') q = file_at (tree s) q.
Proof.
  intros Hs Hq. destruct c; cbn [fs_faulty touched fs_partial] in *; try done.
  all: destruct Hs as (_ & ns' & Hns & ->); simpl; try by subst.
  - destruct Hns as (p' & _ & ->). apply file_at_mkdirs.
  - destruct Hns as (b' & _ & ->). apply file_at_append. set_solver.
Qed.

Lemma fs_effect_frame t s c r s' q :
  fs_effect t s c r s' → q ∉ touched c → file_at (tree s') q = file_at (tree s) q.
Proof.
  intros [(u & _ & _ & Hs)|Hs]; eauto using fs_normal_frame, fs_faulty_frame.
Qed.
End Frames.

(** The files of different structures are separate: the location of every map, log
    and queue resolves below the root, to an object file no other structure has,
    guarded by a lock file no other structure has; and no lock file or temporary file
    of the adapter is an object file. *)
Lemma structure_files_separate `{UuidLaws} namespace kind name namespace' kind' name' l l' u :
  location_structure namespace kind name = Ok l →
  location_structure namespace' kind' name' = Ok l' → l ≠ l' →
  join_root (as_str l) = MkPathBuf (object_file l) false ∧
  object_file l ≠ object_file l' ∧ lock_path l ≠ lock_path l' ∧
  lock_path l ≠ object_file l' ∧ temporary_file l u ≠ object_file l' ∧
  temporary_file l u ≠ lock_path l'.
Proof.
  intros Hl%structure_managed Hl'%structure_managed Hne. split_and!.
  - by apply managed_join_root.
  - by intros ?%object_file_inj.
  - by intros ?%lock_path_inj.
  - by apply lock_not_object.
  - by apply temporary_not_object.
  - apply temporary_not_lock.
Qed.
