(* ===== verification/FilesystemRules.v ===== *)
(** * How an operation of the filesystem adapter may act

    [phase] is what a running operation knows and owns: its lock, what it read of
    its object file, the UUIDs it drew, its temporary file, and the reply it is
    bound to give once it took effect.  [proper] says that from a phase on a program
    only makes calls that are safe there; the operations of the adapter are
    [proper].  That proper programs linearize is shown in [FilesystemProofs]. *)

From S2P Require Import Prelude.
From S2P Require Import Program.
From S2P Require Import ObjectStore.
From S2P Require Import FileSystem.
From S2P Require Import Envelope.
From S2P Require Import FilesystemStore.
From S2P Require Import FilesystemMachine.
From S2P Require Import FilesystemPaths.
Import Filesystem FsError.

Section Rules.
Context `{!UuidCrate}.
(** The operation, and the location it is on. *)
Context (c : call) (l : Location).

Record phase := MkPhase {
  ph_lock : option LockMode;
  ph_seen : option (option bytes);
  ph_uuids : list Uuid;
  ph_file : option (path * bytes);
  ph_lin : option (reply StoreError c);
}.

Definition phase0 : phase := MkPhase None None [] None None.
Definition set_lock m ph := MkPhase m (ph_seen ph) (ph_uuids ph) (ph_file ph) (ph_lin ph).
Definition set_seen o ph :=
  MkPhase (ph_lock ph) (Some o) (ph_uuids ph) (ph_file ph) (ph_lin ph).
Definition add_uuid u ph :=
  MkPhase (ph_lock ph) (ph_seen ph) (u :: ph_uuids ph) (ph_file ph) (ph_lin ph).
Definition set_file f ph := MkPhase (ph_lock ph) (ph_seen ph) (ph_uuids ph) f (ph_lin ph).
(** After the lock is released nothing is known of the object file. *)
Definition unlocked lin ph := MkPhase None None (ph_uuids ph) (ph_file ph) lin.
(** After the rename. *)
Definition published e r ph :=
  MkPhase (ph_lock ph) (Some (Some e)) (ph_uuids ph) None (Some r).

(** The object of an abstract store in which the object file is [seen]. *)
Definition stands (seen : option bytes) (a : astore) : Prop :=
  cur a !! l = seen ≫= decoded.

(** With the object file [seen], the operation may take effect without a change and
    reply [r]; it may write [b] as version [v] and reply [r]. *)
Definition justified (seen : option bytes) (r : reply StoreError c) : Prop :=
  ∀ a, stands seen a → store_step false a c r a.
Definition writes (seen : option bytes) (b : bytes) (v : Version)
    (r : reply StoreError c) : Prop :=
  ∀ a, stands seen a → fresh a l v → store_step false a c r (put l b v a).

Definition own_temporary (ph : phase) (q : path) : Prop :=
  ∃ u, u ∈ ph_uuids ph ∧ q = temporary_file l u.

(** The call is safe in the phase, and whatever it replies, so is what follows. *)
Definition safe_call (fc : fs_call) (ph : phase) :
    (fs_reply fc → phase → Prop) → Prop :=
  match fc return (fs_reply fc → phase → Prop) → Prop with
  | SymlinkMetadata _ => λ next, ∀ r, next r ph
  | CreateDirAll _ => λ next, ∀ r, next r ph
  | SyncAll _ => λ next, ∀ r, next r ph
  | OpenDir _ => λ next, ∀ r, next r ph
  | OpenCreate q => λ next, q = lock_path l ∧ ∀ r, next r ph
  | LockFile q m => λ next,
      q = lock_path l ∧ ph_lock ph = None ∧
      next (Ok tt) (set_lock (Some m) ph) ∧ ∀ e, next (Err e) ph
  | CloseFile _ => λ next,
      ∃ lin, next tt (unlocked lin ph) ∧
        (lin = ph_lin ph ∨
         ∃ seen r, ph_lin ph = None ∧ ph_seen ph = Some seen ∧ justified seen r ∧
                   lin = Some r)
  | ReadFile q => λ next,
      q = MkPathBuf (object_file l) false ∧ ph_lock ph ≠ None ∧
      (∀ b, next (Ok b) (set_seen (Some b) ph)) ∧
      ∀ e, next (Err e)
             (if decide (error_kind e = NotFound) then set_seen None ph else ph)
  | FsNowV7 => λ next, ∀ u, (u ≤ uuid_max)%N → next u (add_uuid u ph)
  | CreateNewFile q => λ next,
      own_temporary ph q ∧ ph_file ph = None ∧
      next (Ok tt) (set_file (Some (q, [])) ph) ∧ ∀ e, next (Err e) ph
  | WriteAll q b => λ next,
      own_temporary ph q ∧ ph_file ph = Some (q, []) ∧
      next (Ok tt) (set_file (Some (q, b)) ph) ∧
      ∀ e b', next (Err e) (set_file (Some (q, b')) ph)
  | Rename q q' => λ next,
      ∃ seen u b r,
        own_temporary ph q ∧ q' = MkPathBuf (object_file l) false ∧
        ph_lock ph = Some Exclusive ∧ ph_seen ph = Some seen ∧ ph_lin ph = None ∧
        u ∈ ph_uuids ph ∧ (N.of_nat (length b) ≤ u64_max)%N ∧
        ph_file ph = Some (q, envelope u b) ∧ writes seen b (version_of u) r ∧
        next (Ok tt) (published (envelope u b) r ph) ∧ ∀ e, next (Err e) ph
  | RemoveFile q => λ next, own_temporary ph q ∧ ∀ r, next r (set_file None ph)
  end.

Fixpoint proper {A} (Q : phase → A → Prop) (ph : phase) (p : fs A) : Prop :=
  match p with
  | Ret x => Q ph x
  | Panic => False
  | Call fc k => safe_call fc ph (λ r ph, proper Q ph (k r))
  end.

(** A reply that the operation may give at the end: the one it is bound to, or one
    that the abstract store may give in its place. *)
Definition may_return (ph : phase) (r : reply StoreError c) : Prop :=
  ph_lock ph = None ∧
  match ph_lin ph with
  | Some r' => ∀ a a', store_step false a c r' a' → store_step false a c r a'
  | None => ∀ a, store_step false a c r a
  end.

(** ** Rules *)

Lemma safe_call_mono fc ph (n1 n2 : fs_reply fc → phase → Prop) :
  (∀ r ph, n1 r ph → n2 r ph) → safe_call fc ph n1 → safe_call fc ph n2.
Proof. intros Hn. destruct fc; simpl; intros Hs; naive_solver. Qed.

Lemma proper_bind {A B} (f : A → fs B) (p : fs A) Q ph :
  proper (λ ph x, proper Q ph (f x)) ph p → proper Q ph (prog_bind f p).
Proof.
  revert ph. induction p as [x| |fc k IH]; intros ph; simpl; [done..|].
  apply safe_call_mono. auto.
Qed.

Lemma proper_mono {A} (Q1 Q2 : phase → A → Prop) ph (p : fs A) :
  (∀ ph x, Q1 ph x → Q2 ph x) → proper Q1 ph p → proper Q2 ph p.
Proof.
  intros HQ. revert ph. induction p as [x| |fc k IH]; intros ph; simpl; [auto..|].
  apply safe_call_mono. auto.
Qed.

Lemma proper_try {A B E} (f : A → fs (result B E)) (p : fs (result A E)) Q ph :
  proper (λ ph r, match r with Ok x => proper Q ph (f x) | Err e => Q ph (Err e) end) ph p →
  proper Q ph (try_bind f p).
Proof.
  intros Hp. apply proper_bind. eapply proper_mono; [|exact Hp]. by intros ph' [x|e].
Qed.

Lemma proper_map_err {A E F} (g : E → F) (p : fs (result A E)) Q ph :
  proper (λ ph r, Q ph (map_err g r)) ph p → proper Q ph (prog_map_err g p).
Proof. intros Hp. unfold prog_map_err. apply proper_bind. exact Hp. Qed.
End Rules.

(** ** The operations *)

Section Operations.
Context `{!UuidCrate} (c : call) (l : Location).
Hypothesis Hl : managed l = true.
Implicit Types (ph : phase c).

(** Replies to neutral calls are only tested. *)
Lemma proper_reject cur rest Q ph :
  (∀ e, Q ph (Err e)) → Q ph (Ok tt) →
  proper c l Q ph (reject_symlinks_from cur rest).
Proof.
  intros HE HO. revert cur. induction rest as [|n rest IH]; intros cur; simpl; [done|].
  intros [[]|e]; simpl; auto. case_decide; simpl; auto.
Qed.

Lemma proper_object_path Q ph :
  (∀ e, Q ph (Err e)) → Q ph (Ok (MkPathBuf (object_file l) false)) →
  proper c l Q ph (object_path l).
Proof.
  intros HE HO. unfold object_path. rewrite managed_all_normal by done. cbv zeta.
  apply proper_try, proper_reject; [exact HE|]. simpl. by rewrite managed_join_root.
Qed.

Lemma managed_parent : parent (object_file l) = Some (removelast (object_file l)).
Proof. apply managed_spec in Hl as (_ & (dir & name & -> & _) & _). by destruct dir. Qed.

Lemma proper_prepare_path Q ph :
  (∀ e, Q ph (Err e)) → Q ph (Ok (MkPathBuf (object_file l) false)) →
  proper c l Q ph (prepare_path l).
Proof.
  intros HE HO. unfold prepare_path. apply proper_try, proper_object_path; [exact HE|].
  simpl. rewrite managed_parent. simpl. intros [[]|e]; simpl; [|done].
  by apply proper_bind, proper_reject.
Qed.

Lemma proper_acquire m Q ph :
  ph_lock c ph = None → (∀ e, Q (unlocked c (ph_lin c ph) ph) (Err e)) → (∀ e, Q ph (Err e)) →
  Q (set_lock c (Some m) ph) (Ok (MkObjectLock (lock_path l))) →
  proper c l Q ph (acquire (lock_path l) m).
Proof.
  intros Hlock HE1 HE HO. unfold acquire. simpl. intros [[]|e]; simpl; [|done].
  split; [done|]. intros [[]|e']; simpl; [|done].
  split_and!; [done..|]. intros e. exists (ph_lin c ph). auto.
Qed.

(** Reading the object file under the lock. *)
Lemma proper_read_path Q ph :
  ph_lock c ph ≠ None →
  (∀ b o, decoded b = Some o → Q (set_seen c (Some b) ph) (Ok (Some o))) →
  Q (set_seen c None ph) (Ok None) →
  (∀ e, Q ph (Err e)) → (∀ b e, Q (set_seen c (Some b) ph) (Err e)) →
  proper c l Q ph (read_path (MkPathBuf (object_file l) false)).
Proof.
  intros Hlock HO HN HE HE'. unfold read_path. simpl. split_and!; [done..| |].
  - intros b. destruct (decode_total b) as ([o|e] & Hd & _); rewrite Hd; simpl; [|done].
    apply HO. unfold decoded. by rewrite Hd.
  - intros e. case_decide; simpl; auto.
Qed.

(** The outcome of publishing with reply [r]: the operation is bound to [r] on
    success, and possibly on an error. *)
Definition publication (t : Uuid) (r : reply StoreError c) ph (x : result unit StoreError) :
    Prop :=
  ph_lock c ph = Some Exclusive ∧ t ∈ ph_uuids c ph ∧
  match x with
  | Ok _ => ph_lin c ph = Some r
  | Err _ => ph_lin c ph = None ∨ ph_lin c ph = Some r
  end.

Lemma proper_publish_steps t u b seen r ph :
  t ∈ ph_uuids c ph → u ∈ ph_uuids c ph →
  ph_lock c ph = Some Exclusive → ph_seen c ph = Some seen →
  ph_file c ph = None → ph_lin c ph = None → (N.of_nat (length b) ≤ u64_max)%N →
  writes c l seen b (version_of u) r →
  proper c l (publication t r) ph
    (publish_steps (removelast (object_file l)) (temporary_file l t)
       (MkPathBuf (object_file l) false) (envelope u b)).
Proof.
  intros Ht Hu Hlock Hseen Hfile Hlin Hb Hw. unfold publication.
  assert (own_temporary c l ph (temporary_file l t)) as Hown by by exists t.
  cbn. refine (conj Hown (conj Hfile (conj _ _))); [|by intros e; split_and!; auto].
  refine (conj Hown (conj eq_refl (conj _ _))); [|by intros e b'; split_and!; auto].
  intros [x1|e]; cbn; [|by split_and!; auto].
  exists seen, u, b, r. split_and!; [done..| |by intros e; split_and!; auto].
  intros [x2|e]; cbn; [|by split_and!; auto].
  intros [x3|e]; cbn; by split_and!; auto.
Qed.

Lemma proper_publish u b seen r Q ph :
  u ∈ ph_uuids c ph → ph_lock c ph = Some Exclusive → ph_seen c ph = Some seen →
  ph_file c ph = None → ph_lin c ph = None → (N.of_nat (length b) ≤ u64_max)%N →
  writes c l seen b (version_of u) r →
  (∀ e ph', ph_lock c ph' = Some Exclusive →
     ph_lin c ph' = None ∨ ph_lin c ph' = Some r → Q ph' (Err e)) →
  (∀ ph', ph_lock c ph' = Some Exclusive → ph_lin c ph' = Some r → Q ph' (Ok tt)) →
  proper c l Q ph (publish (MkPathBuf (object_file l) false) (envelope u b)).
Proof.
  intros Hu Hlock Hseen Hfile Hlin Hb Hw HE HO. unfold publish.
  cbn [below]. rewrite managed_parent. cbn [ok_or]. rewrite try_bind_Ok.
  cbn [prog_bind fs_now_v7 proper safe_call]. intros t Ht.
  change (removelast (object_file l) ++ [temporary_name t]) with (temporary_file l t).
  apply proper_bind. eapply proper_mono;
    [|by apply (proper_publish_steps t u b seen r); simpl; set_solver].
  intros ph' [[]|e] (Hlock' & Ht' & Hlin'); cbn; [by apply HO|].
  split; [by exists t|]. intros _. by apply HE.
Qed.

(** Releasing the lock at the end: a reply read off the object file is given, as
    long as the operation is not bound to another. *)
Lemma proper_scoped {A} (body : fs A) Q ph :
  proper c l (λ ph x, ∃ lin, Q (unlocked c lin ph) x ∧
    (lin = ph_lin c ph ∨ ∃ seen r, ph_lin c ph = None ∧ ph_seen c ph = Some seen ∧
       justified c l seen r ∧ lin = Some r)) ph body →
  proper c l Q ph (scoped (MkObjectLock (lock_path l)) body).
Proof. intros Hp. unfold scoped. apply proper_bind. exact Hp. Qed.
End Operations.

(** ** Every operation is proper *)

Section OperationsProper.
Context `{!UuidCrate} (l : Location).
Hypothesis Hl : managed l = true.

Lemma may_return_bound c (ph : phase c) r lin :
  lin = Some r → may_return c (unlocked c lin ph) r.
Proof. intros ->. split; [done|]. by intros a a'. Qed.

(** A reply the abstract store may always give, without a change. *)
Definition fails (c : call) (r : reply StoreError c) : Prop :=
  ∀ a, store_step false a c r a.

Lemma may_return_fails c (ph : phase c) r :
  ph_lock c ph = None → ph_lin c ph = None → fails c r → may_return c ph r.
Proof. intros Hlock Hlin Hr. split; [done|]. by rewrite Hlin. Qed.

Lemma get_proper : proper (Get l) l (may_return (Get l)) (phase0 (Get l)) (Filesystem.get l).
Proof.
  assert (∀ e, fails (Get l) (Err e)) as Hfail by (intros e a; by split; [|right; exists e]).
  unfold Filesystem.get.
  apply proper_try, proper_object_path; [done|by intros; apply may_return_fails|].
  apply proper_try, proper_acquire; [done|by intros; apply may_return_fails..|].
  apply proper_scoped, proper_read_path; [done|intros b o Ho| |intros e|intros b e].
  - exists (Some (Ok (Some o))). split; [by apply may_return_bound|right].
    eexists _, _. split_and!; [done..| |done].
    intros a Ha. split; [done|left]. unfold stands in Ha. rewrite Ha. simpl. by rewrite Ho.
  - exists (Some (Ok None)). split; [by apply may_return_bound|right].
    eexists _, _. split_and!; [done..| |done].
    intros a Ha. split; [done|left]. unfold stands in Ha. by rewrite Ha.
  - exists None. split; [by apply may_return_fails|by left].
  - exists None. split; [by apply may_return_fails|by left].
Qed.

Lemma create_proper b :
  (N.of_nat (length b) ≤ u64_max)%N →
  proper (Create l b) l (may_return (Create l b)) (phase0 (Create l b))
    (Filesystem.create l b).
Proof.
  intros Hb.
  assert (∀ e, fails (Create l b) (Err (CreateStore e))) as Hfail by (intros e a; by left).
  unfold Filesystem.create.
  apply proper_try, proper_map_err, proper_prepare_path; [done|by intros; apply may_return_fails|].
  apply proper_try, proper_map_err, proper_acquire; [done|by intros; apply may_return_fails..|].
  apply proper_scoped, proper_try, proper_map_err, proper_read_path;
    [done|intros b' o Ho| |intros e|intros b' e]; cbn [map_err proper].
  - exists (Some (Err (CreateAlreadyExists (object_version o)))).
    split; [by apply may_return_bound|right]. eexists _, _. split_and!; [done..| |done].
    intros a Ha. split; [done|]. intros _. exists o. unfold stands in Ha. rewrite Ha.
    simpl. by rewrite Ho.
  - cbn [encode fs_now_v7 prog_bind proper safe_call]. intros u Hu.
    apply proper_try, proper_map_err.
    apply (proper_publish (Create l b) l Hl u b None (Ok (version_of u)));
      [set_solver|done..| |intros e ph Hlock Hlin|intros ph Hlock Hlin]; cbn [map_err proper].
    + intros a Ha Hv. split_and!; [by rewrite Ha|by apply fresh_issuable|done].
    + exists (ph_lin _ ph). split; [|by left]. split; [done|].
      cbn [unlocked ph_lin]. destruct Hlin as [->| ->]; [apply Hfail|].
      intros a a' (Hcur & Hv & ->). right. eauto.
    + exists (Some (Ok (version_of u))). split; [by apply may_return_bound|by left].
  - exists None. split; [by apply may_return_fails|by left].
  - exists None. split; [by apply may_return_fails|by left].
Qed.

Lemma replace_proper v b :
  (N.of_nat (length b) ≤ u64_max)%N →
  proper (Replace l v b) l (may_return (Replace l v b)) (phase0 (Replace l v b))
    (Filesystem.replace l v b).
Proof.
  intros Hb.
  assert (∀ e, fails (Replace l v b) (Err (ReplaceStore e))) as Hfail by (intros e a; by left).
  assert (∀ seen ph, ph_lock _ ph = Some Exclusive → ph_seen _ ph = Some seen →
    ph_file _ ph = None → ph_lin _ ph = None →
    proper (Replace l v b) l (λ ph r, ∃ lin, may_return _ (unlocked _ lin ph) r ∧
      (lin = ph_lin _ ph ∨ ∃ seen r, ph_lin _ ph = None ∧ ph_seen _ ph = Some seen ∧
        justified _ l seen r ∧ lin = Some r)) ph
      (if decide (object_version <$> (seen ≫= decoded) = Some v) then
         let! ' (version, encoded) := encode b in
         let? _ := prog_map_err ReplaceStore
           (publish (MkPathBuf (object_file l) false) encoded) in
         Ret (Ok version)
       else Ret (Err (ReplaceConflict (object_version <$> (seen ≫= decoded)))))) as Hwrite.
  { intros seen ph Hlock Hseen Hfile Hlin. case_decide as Hv.
    - cbn [encode fs_now_v7 prog_bind proper safe_call]. intros u Hu.
      apply proper_try, proper_map_err.
      apply (proper_publish (Replace l v b) l Hl u b seen (Ok (version_of u)));
        [set_solver|done..| |intros e ph' Hlock' Hlin'|intros ph' Hlock' Hlin'];
        cbn [map_err proper].
      + intros a Ha Hf. split_and!; [by rewrite Ha|by apply fresh_issuable|done].
      + exists (ph_lin _ ph'). split; [|by left]. split; [done|].
        cbn [unlocked ph_lin]. destruct Hlin' as [->| ->]; [apply Hfail|].
        intros a a' (Hcur & Hf & ->). right. eauto.
      + exists (Some (Ok (version_of u))). split; [by apply may_return_bound|by left].
    - eexists (Some _). split; [by apply may_return_bound|right].
      exists seen; eexists. split_and!; [done..| |done].
      intros a Ha. unfold stands in Ha. split; [done|]. intros _. by rewrite Ha. }
  unfold Filesystem.replace.
  apply proper_try, proper_map_err, proper_prepare_path; [done|by intros; apply may_return_fails|].
  apply proper_try, proper_map_err, proper_acquire; [done|by intros; apply may_return_fails..|].
  apply proper_scoped, proper_try, proper_map_err, proper_read_path;
    [done|intros b' o Ho| |intros e|intros b' e]; cbn [map_err proper].
  - specialize (Hwrite (Some b')). simpl in Hwrite. rewrite Ho in Hwrite. by apply Hwrite.
  - by apply (Hwrite None).
  - exists None. split; [by apply may_return_fails|by left].
  - exists None. split; [by apply may_return_fails|by left].
Qed.
End OperationsProper.

(** The location of an operation. *)
Definition call_location (c : call) : Location :=
  match c with
  | Get l | Create l _ | Replace l _ _ => l
  | NowMillis | NowV7 => MkLocation ""
  end.

Lemma fs_op_proper `{!UuidCrate} c :
  call_ok c → proper c (call_location c) (may_return c) (phase0 c) (fs_op c).
Proof.
  destruct c as [l|l b|l v b| |]; simpl; [|intros [??]..|done|done];
    auto using get_proper, create_proper, replace_proper.
Qed.
