(* ===== verification/FilesystemProofs.v ===== *)
(** * Threads on one directory: the invariant

    What holds between any two calls of the machine: every running operation has a
    phase that is true of the directory ([shared_ok]) and of the log of effects
    ([log_ok]).  The two are preserved separately by each kind of call a [proper]
    program makes. *)

From S2P Require Import Prelude.
From S2P Require Import Program.
From S2P Require Import ObjectStore.
From S2P Require Import Linearization.
From S2P Require Import FileSystem.
From S2P Require Import Envelope.
From S2P Require Import FilesystemStore.
From S2P Require Import FilesystemMachine.
From S2P Require Import FilesystemPaths.
From S2P Require Import FilesystemRules.
Import Filesystem FsError.

(** A running operation with its phase. *)
Record gthread := MkGThread {
  g_call : call;
  g_prog : fs (reply StoreError g_call);
  g_phase : phase g_call;
}.

Definition g_loc (g : gthread) : Location := call_location (g_call g).
Definition g_lock (g : gthread) : option LockMode := ph_lock _ (g_phase g).
Definition g_uuids (g : gthread) : list Uuid := ph_uuids _ (g_phase g).
Definition g_seen (g : gthread) : option (option bytes) := ph_seen _ (g_phase g).
Definition g_file (g : gthread) : option (path * bytes) := ph_file _ (g_phase g).
Definition g_op (g : gthread) : operation StoreError := MkOperation (g_call g) (ph_lin _ (g_phase g)).

Section Invariant.
Context `{UuidLaws}.
Implicit Types (s : fs_state) (a : astore) (t : nat) (g : gthread) (gs : gmap nat gthread)
  (q : path) (u : Uuid) (l : Location) (ops : gmap nat (operation StoreError))
  (order : list (nat * moment)).

(** ** The directory *)

Record thread_ok s a t g : Prop := MkThreadOk {
  ok_managed : managed (g_loc g) = true;
  ok_lock : held s !! t = (λ m, (lock_path (g_loc g), m)) <$> g_lock g;
  ok_seen o : g_seen g = Some o →
    g_lock g ≠ None ∧ file_at (tree s) (object_file (g_loc g)) = o;
  ok_file q b : g_file g = Some (q, b) →
    (∃ u, u ∈ g_uuids g ∧ q = temporary_file (g_loc g) u) ∧ file_at (tree s) q = Some b;
  ok_uuids u : u ∈ g_uuids g → (u ≤ uuid_max)%N ∧ u ∈ drawn s;
  ok_fresh u l : op_reply (g_op g) = None → u ∈ g_uuids g → fresh a l (version_of u);
}.

(** [ns0] is the tree at the start: an object file changes only from one whole
    envelope to another. *)
Record shared_ok (ns0 : nodes) s a gs : Prop := MkSharedOk {
  sh_threads t g : gs !! t = Some g → thread_ok s a t g;
  sh_held t x : held s !! t = Some x → is_Some (gs !! t);
  sh_exclusive t t' q m : held s !! t = Some (q, Exclusive) → held s !! t' = Some (q, m) → t = t';
  sh_uuids t t' g g' u :
    gs !! t = Some g → gs !! t' = Some g' → u ∈ g_uuids g → u ∈ g_uuids g' → t = t';
  sh_represents : represents (tree s) a;
  sh_drawn l u : (u ≤ uuid_max)%N → is_Some (hist a !! (l, version_of u)) → u ∈ drawn s;
  sh_whole l : managed l = true →
    file_at (tree s) (object_file l) = file_at ns0 (object_file l) ∨
    ∃ u b, file_at (tree s) (object_file l) = Some (envelope u b);
}.

(** The files a running operation may change without taking effect. *)
Definition own_files g q : Prop :=
  q = lock_path (g_loc g) ∨ ∃ u, u ∈ g_uuids g ∧ q = temporary_file (g_loc g) u.

Lemma own_files_not_object g q l : managed l = true → own_files g q → q ≠ object_file l.
Proof.
  intros Hl [->|(u & _ & ->)]; [by apply lock_not_object|by apply temporary_not_object].
Qed.

(** Changes to the files of one operation, and to its object file under its exclusive
    lock, are invisible to the others. *)
Lemma thread_ok_frame s s' a a' t t' g g' ns0 gs :
  shared_ok ns0 s a gs → gs !! t = Some g → gs !! t' = Some g' → t' ≠ t →
  (∀ q, file_at (tree s') q ≠ file_at (tree s) q →
     own_files g q ∨ (q = object_file (g_loc g) ∧ g_lock g = Some Exclusive)) →
  held s' !! t' = held s !! t' → (∀ u, u ∈ drawn s → u ∈ drawn s') →
  (∀ u l, u ∈ g_uuids g' → fresh a l (version_of u) → fresh a' l (version_of u)) →
  thread_ok s' a' t' g'.
Proof.
  intros Hsh Hg Hg' Ht Hown Hheld Hdrawn Hfr.
  destruct (sh_threads _ _ _ _ Hsh t' g' Hg') as [Hman Hlock Hseen Hfile Huu Hfresh].
  destruct (sh_threads _ _ _ _ Hsh t g Hg) as [Hman0 Hlock0 _ _ Huu0 _].
  assert (∀ q, ¬ own_files g q → (q = object_file (g_loc g) → g_lock g ≠ Some Exclusive) →
    file_at (tree s') q = file_at (tree s) q) as Hsame.
  { intros q Hq Hq'. destruct (decide (file_at (tree s') q = file_at (tree s) q)); naive_solver. }
  split; [done|by rewrite Hheld| | |by naive_solver|by auto].
  - intros o [Hl <-]%Hseen. split; [done|]. apply Hsame.
    { intros Hq. by apply (own_files_not_object g _ (g_loc g')) in Hq. }
    intros Hloc%object_file_inj Hexcl. rewrite Hexcl in Hlock0.
    destruct (g_lock g') as [m|]; [|done]. apply Ht. symmetry.
    eapply (sh_exclusive _ _ _ _ Hsh); [exact Hlock0|]. rewrite Hlock, Hloc. done.
  - intros q b [(u & Hu & ->) <-]%Hfile. split; [by eauto|]. apply Hsame.
    + intros [Hq|(u' & Hu' & Hq)]; [by apply temporary_not_lock in Hq|].
      apply temporary_file_inj in Hq as ->; [|by apply Huu|by apply Huu0].
      apply Ht. by eapply (sh_uuids _ _ _ _ Hsh).
    + by intros Hq%temporary_not_object.
Qed.

Lemma represents_frame s s' a g :
  represents (tree s) a →
  (∀ q, file_at (tree s') q ≠ file_at (tree s) q → own_files g q) →
  represents (tree s') a ∧
  ∀ l, managed l = true →
    file_at (tree s') (object_file l) = file_at (tree s) (object_file l).
Proof.
  intros Hrep Hown.
  assert (∀ l, managed l = true →
    file_at (tree s') (object_file l) = file_at (tree s) (object_file l)) as Hsame.
  { intros l Hl. destruct (decide (file_at (tree s') (object_file l) =
      file_at (tree s) (object_file l))) as [|Hne]; [done|].
    by apply Hown, (own_files_not_object g _ l) in Hne. }
  split; [|done]. intros l Hl. by rewrite Hrep, Hsame.
Qed.

(** Two holders of one lock share it. *)
Lemma exclusive_pair ns0 s a gs t t' q m m' :
  shared_ok ns0 s a gs → t' ≠ t → held s !! t = Some (q, m) → held s !! t' = Some (q, m') →
  m = Shared ∧ m' = Shared.
Proof.
  intros Hsh Ht H1 H2. destruct m, m'; [done|..]; destruct Ht.
  - by eapply (sh_exclusive _ _ _ _ Hsh).
  - symmetry. by eapply (sh_exclusive _ _ _ _ Hsh).
  - by eapply (sh_exclusive _ _ _ _ Hsh).
Qed.

(** An operation acts on its own files, or its lock, or draws a UUID. *)
Lemma shared_act ns0 s s' a t g g' gs :
  shared_ok ns0 s a gs → gs !! t = Some g →
  (∀ q, file_at (tree s') q ≠ file_at (tree s) q → own_files g q) →
  (∀ t', t' ≠ t → held s' !! t' = held s !! t') →
  (∀ u, u ∈ drawn s → u ∈ drawn s') →
  (∀ u, u ∈ g_uuids g' → u ∈ g_uuids g ∨ u ∉ drawn s) →
  (∀ t' q m m', t' ≠ t → held s' !! t = Some (q, m) → held s !! t' = Some (q, m') →
     m = Shared ∧ m' = Shared) →
  thread_ok s' a t g' →
  shared_ok ns0 s' a (<[t := g']> gs).
Proof.
  intros Hsh Hg Hown Hheld Hdrawn Huu Hexcl Hok.
  destruct (represents_frame s s' a g (sh_represents _ _ _ _ Hsh) Hown) as [Hrep Hsame].
  assert (∀ t' g'' u, gs !! t' = Some g'' → t' ≠ t → u ∈ g_uuids g' → u ∉ g_uuids g'') as Hdis.
  { intros t' g'' u Hg'' Ht' [Hu|Hu]%Huu Hu''.
    - apply Ht'. by eapply (sh_uuids _ _ _ _ Hsh).
    - by apply Hu, (ok_uuids _ _ _ _ (sh_threads _ _ _ _ Hsh t' g'' Hg'')). }
  split.
  - intros t' g'' [[<- <-]|[Ht' Hg'']]%lookup_insert_Some; [done|].
    apply (thread_ok_frame s s' a a t t' g g'' ns0 gs); auto.
  - intros t' x Hx. destruct (decide (t' = t)) as [->|Ht'].
    { rewrite lookup_insert_eq. by eexists. }
    rewrite lookup_insert_ne, Hheld in * by done. by eapply (sh_held _ _ _ _ Hsh).
  - intros t1 t2 q m H1 H2.
    destruct (decide (t1 = t)) as [->|Ht1], (decide (t2 = t)) as [->|Ht2]; [done|..].
    + rewrite Hheld in H2 by done. by destruct (Hexcl _ _ _ _ Ht2 H1 H2).
    + rewrite Hheld in H1 by done. by destruct (Hexcl _ _ _ _ Ht1 H2 H1).
    + rewrite Hheld in H1, H2 by done. by eapply (sh_exclusive _ _ _ _ Hsh).
  - intros t1 t2 g1 g2 u [[<- <-]|[Ht1 Hg1]]%lookup_insert_Some
      [[<- <-]|[Ht2 Hg2]]%lookup_insert_Some H1 H2; [done|..].
    + by destruct (Hdis t2 g2 u).
    + by destruct (Hdis t1 g1 u).
    + by eapply (sh_uuids _ _ _ _ Hsh).
  - done.
  - intros. apply Hdrawn. by eapply (sh_drawn _ _ _ _ Hsh).
  - intros l Hl. rewrite Hsame by done. by apply (sh_whole _ _ _ _ Hsh).
Qed.

(** The rename: the operation takes effect. *)
Lemma shared_rename ns0 s s' a t g g' gs u b :
  shared_ok ns0 s a gs → gs !! t = Some g →
  g_lock g = Some Exclusive → u ∈ g_uuids g → op_reply (g_op g) = None →
  (N.of_nat (length b) ≤ u64_max)%N →
  (∀ q, file_at (tree s') q ≠ file_at (tree s) q →
     own_files g q ∨ q = object_file (g_loc g)) →
  file_at (tree s') (object_file (g_loc g)) = Some (envelope u b) →
  held s' = held s → drawn s' = drawn s →
  g_loc g' = g_loc g → g_lock g' = Some Exclusive → g_uuids g' = g_uuids g →
  g_seen g' = Some (Some (envelope u b)) → g_file g' = None → is_Some (op_reply (g_op g')) →
  shared_ok ns0 s' (put (g_loc g) b (version_of u) a) (<[t := g']> gs).
Proof.
  intros Hsh Hg Hlock Hu Hlin Hb Hown He Hheld Hdrawn Hloc Hlock' Huu' Hseen' Hfile' Hlin'.
  pose proof (sh_threads _ _ _ _ Hsh t g Hg) as Hok.
  pose proof (ok_managed _ _ _ _ Hok) as Hman.
  destruct (ok_uuids _ _ _ _ Hok u Hu) as [Humax Hud].
  assert (∀ l, managed l = true → l ≠ g_loc g →
    file_at (tree s') (object_file l) = file_at (tree s) (object_file l)) as Hsame.
  { intros l Hl Hne. destruct (decide (file_at (tree s') (object_file l) =
      file_at (tree s) (object_file l))) as [|[Hc|Hc%object_file_inj]%Hown]; [done| |done].
    by apply (own_files_not_object g _ l) in Hc. }
  split.
  - intros t' g'' [[<- <-]|[Ht' Hg'']]%lookup_insert_Some.
    + split; rewrite ?Hloc, ?Hlock', ?Huu', ?Hheld, ?Hdrawn, ?Hseen', ?Hfile'; try done.
      * rewrite (ok_lock _ _ _ _ Hok), Hlock. done.
      * intros o [= <-]. done.
      * apply Hok.
      * intros u' l Hn. destruct Hlin' as [r Hr]. by rewrite Hr in Hn.
    + apply (thread_ok_frame s s' a _ t t' g g'' ns0 gs); auto; [naive_solver|by rewrite Hheld|
        by rewrite Hdrawn|].
      intros u' l Hu' Hf. unfold fresh, put in *; simpl.
      rewrite lookup_insert_ne; [done|]. intros [= _ Hv].
      pose proof (sh_threads _ _ _ _ Hsh t' g'' Hg'') as Hok'.
      assert (u = u') as <- by (apply uuid_to_string_inj; [done|by apply Hok'|done]).
      apply Ht'. by eapply (sh_uuids _ _ _ _ Hsh).
  - intros t' x Hx. rewrite Hheld in Hx. apply (sh_held _ _ _ _ Hsh) in Hx.
    destruct (decide (t' = t)) as [->|]; [by rewrite lookup_insert_eq|].
    by rewrite lookup_insert_ne.
  - rewrite Hheld. apply (sh_exclusive _ _ _ _ Hsh).
  - assert (∀ t1 g1, <[t := g']> gs !! t1 = Some g1 →
      ∃ g2, gs !! t1 = Some g2 ∧ g_uuids g1 = g_uuids g2) as Hback.
    { intros t1 g1 [[<- <-]|[??]]%lookup_insert_Some; eauto. }
    intros t1 t2 g1 g2 u' (g1' & H1 & ->)%Hback (g2' & H2 & ->)%Hback.
    by apply (sh_uuids _ _ _ _ Hsh).
  - intros l Hl. simpl. destruct (decide (l = g_loc g)) as [->|Hne].
    + rewrite lookup_insert_eq, He. simpl. unfold decoded. by rewrite decode_envelope.
    + rewrite lookup_insert_ne, Hsame by done. by apply (sh_represents _ _ _ _ Hsh).
  - intros l u' Hu'. simpl. rewrite Hdrawn.
    destruct (decide ((g_loc g, version_of u) = (l, version_of u'))) as [[= _ Hv]|Hne].
    + intros _. by rewrite <- (uuid_to_string_inj u u' Humax Hu' Hv).
    + rewrite lookup_insert_ne by done. by apply (sh_drawn _ _ _ _ Hsh).
  - intros l Hl. destruct (decide (l = g_loc g)) as [->|Hne]; [right; by eauto|].
    rewrite Hsame by done. by apply (sh_whole _ _ _ _ Hsh).
Qed.

(** A new operation, and one that ends. *)
Lemma shared_invoke ns0 s a t c p gs :
  shared_ok ns0 s a gs → gs !! t = None → managed (call_location c) = true →
  shared_ok ns0 s a (<[t := MkGThread c p (phase0 c)]> gs).
Proof.
  intros Hsh Ht Hman.
  assert (held s !! t = None) as Hheld.
  { destruct (held s !! t) as [x|] eqn:Hx; [|done].
    destruct (sh_held _ _ _ _ Hsh t x Hx) as [g Hg]. congruence. }
  split; [| |apply Hsh| |apply Hsh..].
  - intros t' g [[<- <-]|[Ht' Hg]]%lookup_insert_Some; [|by apply Hsh].
    split; try done; unfold g_uuids; simpl; by intros ? ?%elem_of_nil || intros ? ? ? ?%elem_of_nil.
  - intros t' x Hx%(sh_held _ _ _ _ Hsh).
    destruct (decide (t' = t)) as [->|]; [by rewrite lookup_insert_eq|].
    by rewrite lookup_insert_ne.
  - intros t1 t2 g1 g2 u [[<- <-]|[Ht1 Hg1]]%lookup_insert_Some
      [[<- <-]|[Ht2 Hg2]]%lookup_insert_Some H1 H2; [done|..].
    + by apply elem_of_nil in H1.
    + by apply elem_of_nil in H2.
    + by eapply (sh_uuids _ _ _ _ Hsh).
Qed.

Lemma shared_end ns0 s a t gs :
  shared_ok ns0 s a gs → shared_ok ns0 (release t s) a (delete t gs).
Proof.
  intros Hsh. split; [| | | |apply Hsh..].
  - intros t' g [Ht' Hg]%lookup_delete_Some. destruct (sh_threads _ _ _ _ Hsh t' g Hg).
    split; auto. simpl. by rewrite lookup_delete_ne.
  - cbn [held release]. intros t' x [Ht' Hx]%lookup_delete_Some.
    rewrite lookup_delete_ne by done. by apply (sh_held _ _ _ _ Hsh t' x).
  - cbn [held release]. intros t1 t2 q m [_ H1]%lookup_delete_Some [_ H2]%lookup_delete_Some.
    by eapply (sh_exclusive _ _ _ _ Hsh).
  - intros t1 t2 g1 g2 u [_ H1]%lookup_delete_Some [_ H2]%lookup_delete_Some.
    by eapply (sh_uuids _ _ _ _ Hsh).
Qed.
End Invariant.
