(* ===== verification/FilesystemLinearizable.v ===== *)
(** * The filesystem adapter linearizes

    Every call of a running operation preserves the invariant of
    [FilesystemProofs]; so whatever the interleaving, the I/O errors and the
    crashes, the operations of the adapter take effect one at a time, as the
    contract of the object store says, and an object file always holds a whole
    object. *)

From S2P Require Import Prelude.
From S2P Require Import Program.
From S2P Require Import ObjectStore.
From S2P Require Import Linearization.
From S2P Require Import FileSystem.
From S2P Require Import Envelope.
From S2P Require Import FilesystemStore.
From S2P Require Import FilesystemMachine.
From S2P Require Import FilesystemPaths.
From S2P Require Import FilesystemRules.
From S2P Require Import FilesystemProofs.
Import Filesystem FsError.

(** ** Effects of single calls *)

Section Effects.
Implicit Types (s : fs_state) (t : nat) (q : path) (p : PathBuf).

(** Only locking, closing and drawing change more than the tree. *)
Definition tree_only (fc : fs_call) : bool :=
  match fc with LockFile _ _ | CloseFile _ | FsNowV7 => false | _ => true end.

Lemma fs_effect_tree_only t s fc r s' :
  tree_only fc = true → fs_effect t s fc r s' → held s' = held s ∧ drawn s' = drawn s.
Proof.
  intros Htree [(u & _ & _ & Hs)|Hs].
  - destruct fc; simpl in *; try done; repeat case_match; by simplify_eq/=.
  - destruct fc; simpl in *; try done; by destruct Hs as (_ & ns' & _ & ->).
Qed.

Lemma file_at_node ns q b : q ≠ [] → node_at ns q = Some (File b) → file_at ns q = Some b.
Proof. unfold node_at, file_at. by destruct q; [|intros _ ->]. Qed.

Lemma fs_effect_read_Ok t s q b s' :
  q ≠ [] → fs_effect t s (ReadFile (MkPathBuf q false)) (Ok b) s' →
  file_at (tree s') q = Some b.
Proof.
  intros Hq [(u & _ & _ & Hs)|Hs]; simpl in Hs.
  - injection Hs as Hr <-. unfold fs_read in Hr. simpl in Hr.
    repeat case_match; simplify_eq. by apply file_at_node.
  - by destruct Hs as ((e & ? & _) & _).
Qed.

Lemma fs_effect_read_NotFound t s q e s' :
  q ≠ [] → fs_effect t s (ReadFile (MkPathBuf q false)) (Err e) s' →
  error_kind e = NotFound → file_at (tree s') q = None.
Proof.
  intros Hq [(u & _ & _ & Hs)|Hs] He; simpl in Hs.
  - injection Hs as Hr <-. unfold fs_read in Hr. simpl in Hr.
    unfold file_at. destruct (node_at (tree s) q) as [[]|] eqn:Hn; simplify_eq/=.
    unfold node_at in Hn. destruct q; [done|]. by rewrite Hn.
  - destruct Hs as ((e' & [= <-] & ?) & _). done.
Qed.

Lemma fs_effect_create_new t s q s' :
  fs_effect t s (CreateNewFile q) (Ok tt) s' → file_at (tree s') q = Some [].
Proof.
  intros [(u & _ & _ & Hs)|Hs]; simpl in Hs; [|by destruct Hs as ((e & ? & _) & _)].
  destruct (fs_create_new (tree s) q) as [r ns] eqn:Hc. unfold fs_create_new in Hc.
  repeat case_match; simplify_eq/=. apply file_at_insert_eq.
Qed.

Lemma fs_append_empty ns q b :
  file_at ns q = Some [] → file_at (fs_append ns q b) q = Some b.
Proof.
  unfold file_at at 1, fs_append. intros Hq. repeat case_match; simplify_eq.
  by rewrite file_at_insert_eq.
Qed.

Lemma fs_effect_write t s q b r s' :
  file_at (tree s) q = Some [] → fs_effect t s (WriteAll q b) r s' →
  ∃ b', file_at (tree s') q = Some b' ∧ (r = Ok tt → b' = b).
Proof.
  intros Hq [(u & _ & _ & Hs)|Hs]; simpl in Hs.
  - injection Hs as <- <-. exists b. split; [by apply fs_append_empty|done].
  - destruct Hs as ((e & -> & _) & ns' & (b' & _ & ->) & ->). exists b'.
    split; [by apply fs_append_empty|done].
Qed.

Lemma fs_effect_rename_Ok t s q p b s' :
  file_at (tree s) q = Some b → fs_effect t s (Rename q p) (Ok tt) s' →
  file_at (tree s') (below p) = Some b.
Proof.
  intros Hq [(u & _ & _ & Hs)|Hs]; simpl in Hs; [|by destruct Hs as ((e & ? & _) & _)].
  destruct (fs_rename (tree s) q p) as [r ns] eqn:Hc. unfold fs_rename in Hc.
  unfold file_at in Hq. repeat case_match; simplify_eq/=; apply file_at_insert_eq.
Qed.

Lemma fs_effect_rename_Err t s q p e s' q' :
  fs_effect t s (Rename q p) (Err e) s' → file_at (tree s') q' = file_at (tree s) q'.
Proof.
  intros [(u & _ & _ & Hs)|Hs]; simpl in Hs.
  - destruct (fs_rename (tree s) q p) as [r ns] eqn:Hc. unfold fs_rename in Hc.
    repeat case_match; by simplify_eq/=.
  - by destruct Hs as (_ & ns' & -> & ->).
Qed.
End Effects.

(** ** One call *)

Section Calls.
Context `{UuidLaws}.
Implicit Types (s : fs_state) (a : astore) (t : nat) (gs : gmap nat gthread)
  (q : path) (u : Uuid) (l : Location).

Lemma object_file_ne l : object_file l ≠ [].
Proof. apply split_slash_from_ne. Qed.

(** A call that changes the tree in the operation's own files only, after which the
    operation knows [g'] of the tree. *)
Lemma shared_tree ns0 s s' a t g g' gs fc r :
  shared_ok ns0 s a gs → gs !! t = Some g → fs_effect t s fc r s' →
  tree_only fc = true → (∀ q, q ∈ touched fc → own_files g q) →
  g_call g' = g_call g → g_lock g' = g_lock g → g_uuids g' = g_uuids g → g_op g' = g_op g →
  (∀ o, g_seen g' = Some o →
     g_lock g ≠ None ∧ file_at (tree s') (object_file (g_loc g)) = o) →
  (∀ q b, g_file g' = Some (q, b) →
     (∃ u, u ∈ g_uuids g ∧ q = temporary_file (g_loc g) u) ∧ file_at (tree s') q = Some b) →
  shared_ok ns0 s' a (<[t := g']> gs).
Proof.
  intros Hsh Hg Hs Htree Hown Hcall Hlock Huu Hop Hseen Hfile.
  destruct (fs_effect_tree_only _ _ _ _ _ Htree Hs) as [Hheld Hdrawn].
  pose proof (sh_threads _ _ _ _ Hsh t g Hg) as Hok.
  assert (g_loc g' = g_loc g) as Hloc by (unfold g_loc; by rewrite Hcall).
  apply (shared_act ns0 s s' a t g g' gs Hsh Hg).
  - intros q Hq. apply Hown.
    destruct (decide (q ∈ touched fc)) as [|Hn]; [done|].
    by destruct Hq; apply (fs_effect_frame t s fc r s' q).
  - intros. by rewrite Hheld.
  - by rewrite Hdrawn.
  - rewrite Huu. auto.
  - intros t' q m m' Ht. rewrite Hheld. by apply (exclusive_pair ns0 s a gs).
  - split; rewrite ?Hloc, ?Hlock, ?Huu, ?Hheld, ?Hdrawn, ?Hop; try apply Hok; auto.
Qed.

(** What an operation knew stays true under a call that touches nothing it knows. *)
Lemma known_frame s s' a t g fc r :
  thread_ok s a t g → fs_effect t s fc r s' →
  (∀ q, q ∈ touched fc → q = lock_path (g_loc g)) →
  (∀ o, g_seen g = Some o →
     g_lock g ≠ None ∧ file_at (tree s') (object_file (g_loc g)) = o) ∧
  (∀ q b, g_file g = Some (q, b) →
     (∃ u, u ∈ g_uuids g ∧ q = temporary_file (g_loc g) u) ∧ file_at (tree s') q = Some b).
Proof.
  intros Hok Hs Htouch. split.
  - intros o [? <-]%(ok_seen _ _ _ _ Hok). split; [done|].
    apply (fs_effect_frame t s fc r). { exact Hs. }
    intros Hq%Htouch. symmetry in Hq. by apply lock_not_object in Hq; [|apply Hok].
  - intros q b [(u & Hu & ->) <-]%(ok_file _ _ _ _ Hok). split; [by eauto|].
    apply (fs_effect_frame t s fc r). { exact Hs. }
    intros Hq%Htouch. by apply temporary_not_lock in Hq.
Qed.

(** A neutral call: the operation knows what it knew. *)
Lemma shared_neutral ns0 s s' a t c p p' (ph : phase c) gs fc r :
  shared_ok ns0 s a gs → gs !! t = Some (MkGThread c p ph) → fs_effect t s fc r s' →
  tree_only fc = true → (∀ q, q ∈ touched fc → q = lock_path (call_location c)) →
  shared_ok ns0 s' a (<[t := MkGThread c p' ph]> gs).
Proof.
  intros Hsh Hg Hs Htree Htouch.
  destruct (known_frame s s' a t _ fc r (sh_threads _ _ _ _ Hsh t _ Hg) Hs Htouch).
  eapply (shared_tree ns0 s s' a t (MkGThread c p ph)); try done.
  intros q Hq. left. by apply Htouch.
Qed.

Lemma shared_read ns0 s s' a t c p p' (ph : phase c) gs r :
  shared_ok ns0 s a gs → gs !! t = Some (MkGThread c p ph) → ph_lock c ph ≠ None →
  fs_effect t s (ReadFile (MkPathBuf (object_file (call_location c)) false)) r s' →
  shared_ok ns0 s' a (<[t := MkGThread c p'
    match r with
    | Ok b => set_seen c (Some b) ph
    | Err e => if decide (error_kind e = NotFound) then set_seen c None ph else ph
    end]> gs).
Proof.
  intros Hsh Hg Hlock Hs.
  destruct (known_frame s s' a t _ _ r (sh_threads _ _ _ _ Hsh t _ Hg) Hs) as [Hseen Hfile];
    [by intros q ?%elem_of_nil|].
  destruct r as [b|e]; [|case_decide as He; [|by eapply (shared_neutral ns0 s); try done;
    intros q ?%elem_of_nil]].
  all: eapply (shared_tree ns0 s s' a t (MkGThread c p ph)); try done;
    [by intros q ?%elem_of_nil|].
  - intros o [= <-]. split; [done|]. eapply fs_effect_read_Ok; [apply object_file_ne|exact Hs].
  - intros o [= <-]. split; [done|].
    eapply fs_effect_read_NotFound; [apply object_file_ne|exact Hs|done].
Qed.

(** Calls on the temporary file: afterwards the operation knows [f] of it. *)
Lemma shared_temporary ns0 s s' a t c p p' (ph : phase c) gs fc r q f :
  shared_ok ns0 s a gs → gs !! t = Some (MkGThread c p ph) → fs_effect t s fc r s' →
  tree_only fc = true → touched fc = [q] → own_temporary c (call_location c) ph q →
  (∀ b, f = Some b → file_at (tree s') q = Some b) →
  shared_ok ns0 s' a (<[t := MkGThread c p' (set_file c ((λ b, (q, b)) <$> f) ph)]> gs).
Proof.
  intros Hsh Hg Hs Htree Htouch Hown Hf.
  pose proof (sh_threads _ _ _ _ Hsh t _ Hg) as Hok.
  eapply (shared_tree ns0 s s' a t (MkGThread c p ph)); try done.
  - rewrite Htouch. intros q' ->%list_elem_of_singleton. by right.
  - intros o [? <-]%(ok_seen _ _ _ _ Hok). split; [done|].
    apply (fs_effect_frame t s fc r). { exact Hs. }
    rewrite Htouch, list_elem_of_singleton. intros Hq. destruct Hown as (u & _ & ->).
    symmetry in Hq. by apply temporary_not_object in Hq; [|apply Hok].
  - intros q' b Hq'. destruct f as [b'|]; [|done]. injection Hq' as <- <-.
    split; [exact Hown|by apply Hf].
Qed.

Lemma shared_draw ns0 s s' a t c p p' (ph : phase c) gs u :
  shared_ok ns0 s a gs → gs !! t = Some (MkGThread c p ph) → fs_effect t s FsNowV7 u s' →
  (u ≤ uuid_max)%N ∧ shared_ok ns0 s' a (<[t := MkGThread c p' (add_uuid c u ph)]> gs).
Proof.
  intros Hsh Hg [(u' & Hu & Hnew & Hs)|[]]. simpl in Hs. injection Hs as <- <-.
  split; [done|]. pose proof (sh_threads _ _ _ _ Hsh t _ Hg) as Hok.
  apply (shared_act ns0 s _ a t (MkGThread c p ph)); simpl; try done.
  - set_solver.
  - unfold g_uuids; simpl. intros u [->|?]%elem_of_cons; auto.
  - intros t' q m m'. by apply (exclusive_pair ns0 s a gs).
  - destruct Hok as [Hman Hlock Hseen Hfile Huu Hfresh]. split; [done..| | |].
    + intros q b [(u & ? & ?) ?]%Hfile. split; [|done]. exists u. split; [by right|done].
    + unfold g_uuids; simpl. intros u [->|[? ?]%Huu]%elem_of_cons; set_solver.
    + unfold g_uuids; simpl. intros u l Hlin [->|Hin]%elem_of_cons; [|by apply Hfresh].
      unfold fresh. destruct (hist a !! _) eqn:Hh; [|done]. destruct Hnew.
      by apply (sh_drawn _ _ _ _ Hsh l u').
Qed.

Lemma shared_lock ns0 s s' a t c p p' (ph : phase c) gs m r :
  shared_ok ns0 s a gs → gs !! t = Some (MkGThread c p ph) → ph_lock c ph = None →
  fs_effect t s (LockFile (lock_path (call_location c)) m) r s' →
  shared_ok ns0 s' a (<[t := MkGThread c p'
    match r with Ok _ => set_lock c (Some m) ph | Err _ => ph end]> gs).
Proof.
  intros Hsh Hg Hlock Hs.
  pose proof (sh_threads _ _ _ _ Hsh t _ Hg) as Hok.
  assert (held s !! t = None) as Hheld.
  { rewrite (ok_lock _ _ _ _ Hok). unfold g_lock. simpl. by rewrite Hlock. }
  destruct Hs as [(u & _ & _ & Hs)|[(e & -> & _) (ns' & -> & ->)]].
  - simpl in Hs. case_decide as Hfree; [|done]. injection Hs as <- <-.
    apply (shared_act ns0 s _ a t (MkGThread c p ph)); simpl; try done.
    + intros t' Ht. by rewrite lookup_insert_ne.
    + auto.
    + intros t' q m1 m' Ht. rewrite lookup_insert_eq. intros [= <- <-] H2.
      destruct (Hfree t' m' H2) as [|[??]]; done.
    + destruct Hok as [Hman _ Hseen Hfile Huu Hfresh]. split; try done.
      * simpl. by rewrite lookup_insert_eq.
      * by intros o [??]%Hseen.
  - apply (shared_act ns0 s _ a t (MkGThread c p ph)); simpl; try done; [by auto| |].
    + intros t' q m1 m'. by apply (exclusive_pair ns0 s a gs).
    + by destruct Hok; split.
Qed.

Lemma shared_close ns0 s s' a t c p p' (ph : phase c) gs q lin :
  shared_ok ns0 s a gs → gs !! t = Some (MkGThread c p ph) →
  (ph_lin c ph = None ∨ lin = ph_lin c ph) →
  fs_effect t s (CloseFile q) tt s' →
  shared_ok ns0 s' a (<[t := MkGThread c p' (unlocked c lin ph)]> gs).
Proof.
  intros Hsh Hg Hlin [(u & _ & _ & Hs)|[]]. simpl in Hs. injection Hs as <-.
  pose proof (sh_threads _ _ _ _ Hsh t _ Hg) as Hok.
  apply (shared_act ns0 s _ a t (MkGThread c p ph)); simpl; try done.
  - intros t' Ht. by rewrite lookup_delete_ne.
  - auto.
  - intros t' q1 m1 m' Ht. by rewrite lookup_delete_eq.
  - destruct Hok as [Hman _ Hseen Hfile Huu Hfresh]. split; try done.
    + simpl. by rewrite lookup_delete_eq.
    + intros u' l Hn. apply Hfresh. destruct Hlin as [Hl|Hl]; [exact Hl|].
      simpl in *. by rewrite <- Hl.
Qed.

Lemma shared_unchanged ns0 s s' a t c p p' (ph : phase c) gs :
  shared_ok ns0 s a gs → gs !! t = Some (MkGThread c p ph) →
  (∀ q, file_at (tree s') q = file_at (tree s) q) → held s' = held s → drawn s' = drawn s →
  shared_ok ns0 s' a (<[t := MkGThread c p' ph]> gs).
Proof.
  intros Hsh Hg Htree Hheld Hdrawn.
  pose proof (sh_threads _ _ _ _ Hsh t _ Hg) as [Hman Hlock Hseen Hfile Huu Hfresh].
  apply (shared_act ns0 s _ a t (MkGThread c p ph)); rewrite ?Hheld, ?Hdrawn; try done; auto.
  - intros q Hq. by destruct Hq.
  - intros t' q m m'. by apply (exclusive_pair ns0 s a gs).
  - split; rewrite ?Hheld, ?Hdrawn; try done; setoid_rewrite Htree; done.
Qed.
End Calls.

(** ** The invariant is preserved *)

Section Preservation.
Context `{UuidLaws} (ns0 : nodes) (a0 : astore).
Implicit Types (s : fs_state) (a : astore) (t : nat) (gs : gmap nat gthread)
  (ops mops : gmap nat (operation StoreError)) (order trace : list (nat * moment)) (m : machine).

(** The log of the running operations. *)
Definition fs_log mops trace gs ops order a : Prop :=
  log_ok false false a0 mops trace (g_op <$> gs) ops order a.

Definition g_proper (g : gthread) : Prop :=
  proper (g_call g) (g_loc g) (may_return (g_call g)) (g_phase g) (g_prog g).

(** Thread [t] has moved on to [p], the log and the abstract store with it. *)
Definition advanced mops trace s gs t (c : call) (p : fs (reply StoreError c)) : Prop :=
  ∃ ph ops order a,
    proper c (call_location c) (may_return c) ph p ∧
    shared_ok ns0 s a (<[t := MkGThread c p ph]> gs) ∧
    fs_log mops trace (<[t := MkGThread c p ph]> gs) ops order a.

Lemma running_op gs t c p (ph : phase c) :
  gs !! t = Some (MkGThread c p ph) →
  (g_op <$> gs) !! t = Some (MkOperation c (ph_lin c ph)).
Proof. intros Hg. by rewrite lookup_fmap, Hg. Qed.

(** The log does not mind what an operation knows. *)
Lemma fs_log_same mops trace gs ops order a t c p p' (ph ph' : phase c) :
  fs_log mops trace gs ops order a → gs !! t = Some (MkGThread c p ph) →
  ph_lin c ph' = ph_lin c ph →
  fs_log mops trace (<[t := MkGThread c p' ph']> gs) ops order a.
Proof.
  intros Hlog Hg Hlin. unfold fs_log. rewrite fmap_insert, insert_id; [done|].
  unfold g_op at 2; simpl. rewrite Hlin. by eapply running_op.
Qed.

Lemma fs_log_linearize mops trace gs ops order a a' t c p p' (ph ph' : phase c) r :
  fs_log mops trace gs ops order a → gs !! t = Some (MkGThread c p ph) →
  ph_lin c ph = None → ph_lin c ph' = Some r → store_step false a c r a' →
  fs_log mops trace (<[t := MkGThread c p' ph']> gs)
    (<[t := MkOperation c (Some r)]> ops) (order ++ [(t, Linearized)]) a'.
Proof.
  intros Hlog Hg%running_op Hlin Hlin' Hs. rewrite Hlin in Hg.
  destruct (lg_running _ _ _ _ _ _ _ _ _ Hlog t _ Hg) as [Ho Hm].
  pose proof (log_linearize _ _ _ _ _ _ _ _ _ _ _ Hlog Hm Ho Hs) as Hlog'.
  unfold fs_log. rewrite fmap_insert. unfold g_op at 1; simpl. rewrite Hlin'.
  by rewrite (alter_const _ _ _ _ Hg) in Hlog'.
Qed.

(** A call with which the operation does not take effect. *)
Lemma advance_same mops trace s a gs ops order t c p p' (ph ph' : phase c) :
  fs_log mops trace gs ops order a → gs !! t = Some (MkGThread c p ph) →
  ph_lin c ph' = ph_lin c ph →
  proper c (call_location c) (may_return c) ph' p' →
  shared_ok ns0 s a (<[t := MkGThread c p' ph']> gs) →
  advanced mops trace s gs t c p'.
Proof.
  intros Hlog Hg Hlin Hp Hsh. exists ph', ops, order, a. split_and!; [done..|].
  by eapply fs_log_same.
Qed.

(** A call with which it takes effect. *)
Lemma advance_linearize mops trace s a a' gs ops order t c p p' (ph ph' : phase c) r :
  fs_log mops trace gs ops order a → gs !! t = Some (MkGThread c p ph) →
  ph_lin c ph = None → ph_lin c ph' = Some r → store_step false a c r a' →
  proper c (call_location c) (may_return c) ph' p' →
  shared_ok ns0 s a' (<[t := MkGThread c p' ph']> gs) →
  advanced mops trace s gs t c p'.
Proof.
  intros Hlog Hg Hlin Hlin' Hs Hp Hsh. eexists ph', _, _, a'. split_and!; [done..|].
  by eapply fs_log_linearize.
Qed.

Lemma stands_now s a gs t c p (ph : phase c) seen :
  shared_ok ns0 s a gs → gs !! t = Some (MkGThread c p ph) → ph_seen c ph = Some seen →
  stands (call_location c) seen a.
Proof.
  intros Hsh Hg Hseen. pose proof (sh_threads _ _ _ _ Hsh t _ Hg) as Hok.
  destruct (ok_seen _ _ _ _ Hok seen Hseen) as [_ <-].
  apply (sh_represents _ _ _ _ Hsh). apply Hok.
Qed.

Lemma advance_rename mops trace s s' a gs ops order t c p k (ph : phase c) q q' r :
  shared_ok ns0 s a gs → fs_log mops trace gs ops order a →
  gs !! t = Some (MkGThread c p ph) →
  safe_call c (call_location c) (Rename q q') ph
    (λ r ph, proper c (call_location c) (may_return c) ph (k r)) →
  fs_effect t s (Rename q q') r s' →
  advanced mops trace s' gs t c (k r).
Proof.
  intros Hsh Hlog Hg (seen & u & b & r0 & Hown & -> & Hlock & Hseen & Hlin & Hu & Hb & Hfile &
    Hw & HO & HE) Hs.
  pose proof (sh_threads _ _ _ _ Hsh t _ Hg) as Hok.
  destruct r as [[]|e].
  - apply (advance_linearize mops trace s' a (put (call_location c) b (version_of u) a)
      gs ops order t c p (k (Ok tt)) ph (published c (envelope u b) r0 ph) r0);
      [done|done|done|reflexivity| |exact HO|].
    { apply Hw; [by eapply stands_now|]. by apply (ok_fresh _ _ _ _ Hok); simpl; rewrite ?Hlin. }
    assert (held s' = held s ∧ drawn s' = drawn s) as [Hheld Hdrawn]
      by (by eapply fs_effect_tree_only; [|exact Hs]).
    apply (shared_rename ns0 s s' a t (MkGThread c p ph)
      (MkGThread c (k (Ok tt)) (published c (envelope u b) r0 ph)) gs u b Hsh Hg);
      simpl; try done; [|by eapply (fs_effect_rename_Ok t s q (MkPathBuf _ false)); [|exact Hs];
         apply (ok_file _ _ _ _ Hok q)].
    intros q' Hq'.
    destruct (decide (q' ∈ touched (Rename q (MkPathBuf (object_file (call_location c)) false))))
      as [[->|[->|?%elem_of_nil]%elem_of_cons]%elem_of_cons|Hn];
      [by left; right|by right|done|].
    by destruct Hq'; eapply fs_effect_frame.
  - eapply (advance_same _ _ _ _ _ _ _ _ _ _ _ ph); [done|done|reflexivity|by apply HE|].
    assert (held s' = held s ∧ drawn s' = drawn s) as [Hheld Hdrawn]
      by (by eapply fs_effect_tree_only; [|exact Hs]).
    apply (shared_unchanged ns0 s s' a t c p); [done|done| |done|done].
    intros q'. by eapply fs_effect_rename_Err.
Qed.

Lemma advance_close mops trace s s' a gs ops order t c p k (ph : phase c) q :
  shared_ok ns0 s a gs → fs_log mops trace gs ops order a →
  gs !! t = Some (MkGThread c p ph) →
  safe_call c (call_location c) (CloseFile q) ph
    (λ r ph, proper c (call_location c) (may_return c) ph (k r)) →
  fs_effect t s (CloseFile q) tt s' →
  advanced mops trace s' gs t c (k tt).
Proof.
  intros Hsh Hlog Hg (lin & Hp & Hlin) Hs.
  destruct Hlin as [->|(seen & r & Hl & Hseen & Hj & ->)].
  - eapply (advance_same _ _ _ _ _ _ _ _ _ _ _ ph); [done|done| |exact Hp|]; [done|].
    by eapply shared_close; [..|right|].
  - eapply (advance_linearize _ _ _ a a _ _ _ _ _ _ _ ph (unlocked c (Some r) ph));
      [done|done|done|reflexivity| |exact Hp|].
    { apply Hj. by eapply stands_now. }
    by eapply shared_close; [..|left|].
Qed.

Lemma call_advances mops trace s s' a gs ops order t c fc k (ph : phase c) r :
  shared_ok ns0 s a gs → fs_log mops trace gs ops order a →
  gs !! t = Some (MkGThread c (Call fc k) ph) →
  g_proper (MkGThread c (Call fc k) ph) → fs_effect t s fc r s' →
  advanced mops trace s' gs t c (k r).
Proof.
  intros Hsh Hlog Hg Hp Hs. unfold g_proper in Hp. cbn [g_call g_phase g_prog proper] in Hp.
  change (g_loc (MkGThread c (Call fc k) ph)) with (call_location c) in Hp.
  pose proof (λ ph' : phase c, advance_same mops trace s' a gs ops order t c _ (k r) ph ph'
    Hlog Hg) as Hsame.
  assert (tree_only fc = true → (∀ q, q ∈ touched fc → q = lock_path (call_location c)) →
    proper c (call_location c) (may_return c) ph (k r) →
    advanced mops trace s' gs t c (k r)) as Hneutral.
  { intros. apply (Hsame ph); [done..|]. by eapply (shared_neutral ns0 s). }
  destruct fc; cbn [fs_reply] in *.
  - apply Hneutral; [done|by intros ? ?%elem_of_nil|apply Hp].
  - apply Hneutral; [done|by intros ? ?%elem_of_nil|apply Hp].
  - destruct Hp as (-> & Hlock & HO & HE).
    pose proof (shared_read ns0 s s' a t c _ (k r) ph gs r Hsh Hg Hlock Hs) as Hread.
    eapply Hsame; [| |exact Hread]; destruct r as [b|e]; auto; by case_decide.
  - destruct Hp as (-> & Hp). apply Hneutral; [done| |apply Hp].
    by intros ? ->%list_elem_of_singleton.
  - destruct Hp as (-> & Hlock & HO & HE).
    pose proof (shared_lock ns0 s s' a t c _ (k r) ph gs mode r Hsh Hg Hlock Hs) as Hl.
    eapply Hsame; [| |exact Hl]; destruct r as [[]|e]; auto.
  - destruct r. by eapply advance_close.
  - destruct Hp as (Hown & Hf & HO & HE). destruct r as [[]|e].
    + eapply Hsame; [|exact HO|]; [done|].
      eapply (shared_temporary ns0 s s' a t c _ _ ph gs (CreateNewFile p) (Ok tt) p (Some [])); try done.
      intros b [= <-]. by eapply fs_effect_create_new.
    + eapply Hsame; [|exact (HE e)|]; [done|].
      replace ph with (set_file c ((λ b, (p, b)) <$> None) ph) by
        (destruct ph; simpl in *; by rewrite Hf).
      by eapply (shared_temporary ns0 s s' a t c _ _ ph gs (CreateNewFile p) (Err e) p None).
  - destruct Hp as (Hown & Hf & HO & HE).
    pose proof (ok_file _ _ _ _ (sh_threads _ _ _ _ Hsh t _ Hg) p [] Hf) as [_ Hempty].
    destruct (fs_effect_write t s p b r s' Hempty Hs) as (b' & Hb' & Hr).
    destruct r as [[]|e]; [rewrite (Hr eq_refl) in Hb'|].
    + eapply Hsame; [|exact HO|]; [done|].
      eapply (shared_temporary ns0 s s' a t c _ _ ph gs (WriteAll p b) (Ok tt) p (Some b)); try done.
      by intros ? [= <-].
    + eapply Hsame; [|exact (HE e b')|]; [done|].
      eapply (shared_temporary ns0 s s' a t c _ _ ph gs (WriteAll p b) (Err e) p (Some b')); try done.
      by intros ? [= <-].
  - apply Hneutral; [done|by intros ? ?%elem_of_nil|apply Hp].
  - by eapply advance_rename.
  - apply Hneutral; [done|by intros ? ?%elem_of_nil|apply Hp].
  - destruct Hp as (Hown & HO). eapply Hsame; [|exact (HO r)|]; [done|].
    by eapply (shared_temporary ns0 s s' a t c _ _ ph gs (RemoveFile p) r p None).
  - destruct (shared_draw ns0 s s' a t c _ (k r) ph gs r Hsh Hg Hs) as [Hu Hd].
    by eapply Hsame; [|apply Hp|exact Hd].
Qed.

Definition erase (g : gthread) : thread := MkThread (g_call g) (g_prog g).

(** The operations of the machine, with the ghost state that explains them. *)
Definition explained m gs ops order a : Prop :=
  m_threads m = erase <$> gs ∧ (∀ t g, gs !! t = Some g → g_proper g) ∧
  shared_ok ns0 (m_fs m) a gs ∧ fs_log (m_ops m) (m_trace m) gs ops order a.

Lemma erase_lookup gs t c p :
  (erase <$> gs) !! t = Some (MkThread c p) → ∃ ph, gs !! t = Some (MkGThread c p ph).
Proof.
  rewrite lookup_fmap. destruct (gs !! t) as [[c' p' ph]|]; simpl; [|done].
  intros [= -> Hp]. apply (Eqdep_dec.inj_pair2_eq_dec _ (λ x y, decide (x = y))) in Hp as ->.
  by exists ph.
Qed.

Lemma release_none t s : held s !! t = None → release t s = s.
Proof. intros Ht. unfold release. rewrite delete_id by done. by destruct s. Qed.

Lemma fs_log_return mops trace gs ops order a t c p (ph : phase c) r r' :
  fs_log mops trace gs ops order a → gs !! t = Some (MkGThread c p ph) →
  ph_lin c ph = Some r' →
  (∀ a1 a2, store_step false a1 c r' a2 → store_step false a1 c r a2) →
  ∃ ops' order', fs_log (<[t := MkOperation c (Some r)]> mops) (trace ++ [(t, Returned)])
    (delete t gs) ops' order' a.
Proof.
  intros Hlog Hg%running_op Hlin Hr. rewrite Hlin in Hg.
  eexists _, _. unfold fs_log. rewrite fmap_delete.
  by eapply (log_return false false _ _ _ _ t (MkOperation c (Some r')) r).
Qed.

(** The return of an operation; one that has not taken effect does so now. *)
Lemma log_returns mops trace gs ops order a t c p (ph : phase c) r :
  fs_log mops trace gs ops order a → gs !! t = Some (MkGThread c p ph) →
  may_return c ph r →
  ∃ ops' order', fs_log (<[t := MkOperation c (Some r)]> mops) (trace ++ [(t, Returned)])
    (delete t gs) ops' order' a.
Proof.
  intros Hlog Hg [_ Hr].
  destruct (ph_lin c ph) as [r'|] eqn:Hlin; [by eapply fs_log_return|].
  set (ph' := unlocked c (Some r) ph).
  assert (fs_log mops trace (<[t := MkGThread c p ph']> gs)
    (<[t := MkOperation c (Some r)]> ops) (order ++ [(t, Linearized)]) a) as Hlog'.
  { by eapply fs_log_linearize. }
  rewrite <- (delete_insert_eq gs t (MkGThread c p ph')).
  by eapply fs_log_return; [exact Hlog'|apply lookup_insert_eq|..].
Qed.

Lemma explained_step m m' gs ops order a :
  explained m gs ops order a → mstep call_ok m m' →
  ∃ gs' ops' order' a', explained m' gs' ops' order' a'.
Proof.
  intros (Hth & Hprop & Hsh & Hlog) Hstep.
  assert (∀ t g', g_proper g' → ∀ t' g, <[t := g']> gs !! t' = Some g → g_proper g) as Hinsert.
  { intros t g' Hg' t' g [[<- <-]|[??]]%lookup_insert_Some; [done|by eapply Hprop]. }
  assert (∀ t t' g, delete t gs !! t' = Some g → g_proper g) as Hdelete.
  { intros t t' g [_ ?]%lookup_delete_Some. by eapply Hprop. }
  destruct Hstep as [t c m Hc Ht|t c fc k r s' m Ht Hs|t c r m Ht|t th m Ht].
  - assert (gs !! t = None) as Hnone.
    { destruct (gs !! t) as [g|] eqn:Hg; [|done].
      destruct (lg_running _ _ _ _ _ _ _ _ _ Hlog t (g_op g)) as [_ Hm]; [by rewrite lookup_fmap, Hg|]. congruence. }
    eexists (<[t := MkGThread c (fs_op c) (phase0 c)]> gs), _, _, a. split_and!.
    + simpl. by rewrite fmap_insert, Hth.
    + apply Hinsert. by apply fs_op_proper.
    + apply shared_invoke; [done..|]. by destruct c as [| | | |]; simpl in *; try apply Hc.
    + unfold fs_log; simpl. rewrite fmap_insert. by apply log_invoke.
  - rewrite Hth in Ht. apply erase_lookup in Ht as [ph Hg].
    destruct (call_advances (m_ops m) (m_trace m) (m_fs m) s' a gs ops order t c fc k ph r)
      as (ph' & ops' & order' & a' & Hp' & Hsh' & Hlog'); [done|done|done| |done|].
    { by eapply Hprop. }
    eexists _, _, _, _. split_and!; [|by apply (Hinsert t (MkGThread c (k r) ph') Hp')|done|done].
    simpl. by rewrite fmap_insert, Hth.
  - rewrite Hth in Ht. apply erase_lookup in Ht as [ph Hg].
    pose proof (Hprop t _ Hg) as Hret.
    destruct (log_returns _ _ _ _ _ _ _ _ _ _ r Hlog Hg Hret) as (ops' & order' & Hlog').
    exists (delete t gs), ops', order', a. split_and!; [|by apply Hdelete| |done].
    + simpl. by rewrite fmap_delete, Hth.
    + simpl. rewrite <- (release_none t (m_fs m)); [by apply shared_end|].
      rewrite (ok_lock _ _ _ _ (sh_threads _ _ _ _ Hsh t _ Hg)).
      destruct Hret as [Hlock _]. simpl in Hlock. unfold g_lock; simpl. by rewrite Hlock.
  - exists (delete t gs), ops, order, a. split_and!; [|by apply Hdelete| |].
    + simpl. by rewrite fmap_delete, Hth.
    + by apply shared_end.
    + unfold fs_log; simpl. rewrite fmap_delete. by apply log_crash.
Qed.

Lemma explained_reachable m m' gs ops order a :
  explained m gs ops order a → rtc (mstep call_ok) m m' →
  ∃ gs' ops' order' a', explained m' gs' ops' order' a'.
Proof.
  intros Hm Hsteps. revert gs ops order a Hm.
  induction Hsteps as [m|m m1 m' Hstep _ IH]; intros gs ops order a Hm; [by eauto|].
  destruct (explained_step _ _ _ _ _ _ Hm Hstep) as (gs' & ops' & order' & a' & Hm').
  by eapply IH.
Qed.
End Preservation.

(** An execution by clients that use managed locations. *)
Definition execution `{!UuidCrate} (m0 m : machine) : Prop := rtc (mstep call_ok) m0 m.

Section Linearizable.
Context `{UuidLaws}.
Implicit Types (m : machine) (a : astore).

Lemma initial_explained a m :
  initial a m → explained (tree (m_fs m)) a m ∅ ∅ [] a.
Proof.
  assert (∀ (A : Type) (t : nat) (x : A), (∅ : gmap nat A) !! t = Some x → False) as Hempty.
  { intros A t x Hx. by rewrite lookup_empty in Hx. }
  intros [Hth Hops Htr Hheld Hrep Hdrawn]. split_and!; [by rewrite Hth, fmap_empty|..].
  - by intros t g ?%Hempty.
  - split; rewrite ?Hheld; [by intros t g ?%Hempty|by intros t x ?%Hempty|
      by intros t t' q m' ?%Hempty|by intros t t' g g' u ?%Hempty|done|done|by left].
  - rewrite Hops, Htr. unfold fs_log. rewrite fmap_empty. apply log_init.
Qed.

(** A running operation has not returned. *)
Lemma fs_running a0 m0 m t c p :
  initial a0 m0 → execution m0 m → m_threads m !! t = Some (MkThread c p) →
  m_ops m !! t = Some (MkOperation c None).
Proof.
  intros Hinit Hsteps Ht.
  destruct (explained_reachable _ _ _ _ _ _ _ _ (initial_explained a0 m0 Hinit) Hsteps)
    as (gs & ops & order & a & Hth & _ & _ & Hlog).
  rewrite Hth in Ht. apply erase_lookup in Ht as [ph Hg].
  by destruct (lg_running _ _ _ _ _ _ _ _ _ Hlog t _ (running_op _ _ _ _ _ Hg)).
Qed.

(** Every execution linearizes. *)
Lemma execution_linearizes a0 m0 m :
  initial a0 m0 → execution m0 m → ∃ ops order a, directory_linearizes a0 m ops order a.
Proof.
  intros Hinit Hsteps.
  destruct (explained_reachable _ _ _ _ _ _ _ _ (initial_explained a0 m0 Hinit) Hsteps)
    as (gs & ops & order & a & _ & _ & Hsh & Hlog).
  exists ops, order, a. split; [by eapply log_linearizes|apply Hsh].
Qed.

(** C2: the filesystem adapter implements the contract of the object store under
    concurrency, I/O errors and crashes: in every execution of its operations on managed
    locations (normalized paths other than its own lock and temporary files), by any
    number of threads and processes on one directory, every operation that returned (and
    possibly some that crashed or are still running) takes effect at one moment
    between its invocation and its return, the effects and replies in that order are
    those of the abstract store, and the directory holds the objects of the
    resulting store. *)
Theorem filesystem_linearizable a0 m0 m :
  initial a0 m0 → execution m0 m →
  ∃ ops order a, directory_linearizes a0 m ops order a.
Proof. apply execution_linearizes. Qed.

(** No torn object: at every moment of such an execution, the file of a managed
    location is what it was at the start or one whole envelope; in particular a crash
    at any point leaves the old object or the new one. *)
Lemma filesystem_objects_whole a0 m0 m l :
  initial a0 m0 → execution m0 m → managed l = true →
  file_at (tree (m_fs m)) (object_file l) = file_at (tree (m_fs m0)) (object_file l) ∨
  ∃ u b, file_at (tree (m_fs m)) (object_file l) = Some (envelope u b).
Proof.
  intros Hinit Hsteps Hl.
  destruct (explained_reachable _ _ _ _ _ _ _ _ (initial_explained a0 m0 Hinit) Hsteps)
    as (gs & ops & order & a & _ & _ & Hsh & _).
  by apply (sh_whole _ _ _ _ Hsh).
Qed.

Lemma fs_normal_total t u s fc :
  (∀ q mode, fc = LockFile q mode → lock_free (held s) t q mode) →
  is_Some (fs_normal t u s fc).
Proof.
  intros Hfree. destruct fc; simpl; try by eexists.
  all: try (match goal with |- context [let (_, _) := ?x in _] => destruct x end; by eexists).
  rewrite decide_True by by apply Hfree. by eexists.
Qed.

(** The lock a program is about to wait for. *)
Definition awaited {A} (p : fs A) : option (path * LockMode) :=
  match p with Call (LockFile q mode) _ => Some (q, mode) | _ => None end.

Lemma proper_unblocked {A} c l (Q : phase c → A → Prop) ph t s (p : fs A) :
  proper c l Q ph p →
  (∀ q mode, awaited p = Some (q, mode) → lock_free (held s) t q mode) → unblocked t s p.
Proof.
  destruct p as [x| |fc k]; [done..|]. intros _ Hfree u. apply fs_normal_total.
  intros q mode ->. by apply Hfree.
Qed.

(** An operation that waits for a lock holds none. *)
Lemma proper_awaited {A} c l (Q : phase c → A → Prop) ph (p : fs A) q mode :
  proper c l Q ph p → awaited p = Some (q, mode) → ph_lock c ph = None.
Proof. destruct p as [x| |[] k]; try done. by intros (_ & Hlock & _). Qed.

(** C30: the locks cannot deadlock, and a crashed client blocks nobody: in every
    reachable state some running operation can take its next step without waiting. *)
Theorem filesystem_no_deadlock a0 m0 m :
  initial a0 m0 → execution m0 m → m_threads m ≠ ∅ →
  ∃ t c p, m_threads m !! t = Some (MkThread c p) ∧ unblocked t (m_fs m) p.
Proof.
  intros Hinit Hsteps (t & th & Ht)%map_choose.
  destruct (explained_reachable _ _ _ _ _ _ _ _ (initial_explained a0 m0 Hinit) Hsteps)
    as (gs & ops & order & a & Hth & Hprop & Hsh & _).
  assert (∀ t g, gs !! t = Some g → m_threads m !! t = Some (erase g)) as Hrun.
  { intros t' g Hg. by rewrite Hth, lookup_fmap, Hg. }
  rewrite Hth, lookup_fmap, fmap_Some in Ht. destruct Ht as (g & Hg & ->).
  destruct (awaited (g_prog g)) as [[q mode]|] eqn:Hw;
    [destruct (decide (lock_free (held (m_fs m)) t q mode)) as [Hfree|Hfree]|].
  - exists t, (g_call g), (g_prog g). split; [by apply Hrun|].
    eapply proper_unblocked; [by apply (Hprop t)|]. intros q' mode' Hw'.
    rewrite Hw in Hw'. by simplify_eq.
  - assert (∃ t' x, held (m_fs m) !! t' = Some x) as (t' & x & Hx).
    { destruct (decide (held (m_fs m) = ∅)) as [He|(t' & x & Hx)%map_choose]; [|by eauto].
      destruct Hfree. intros t' mode'. by rewrite He, lookup_empty. }
    destruct (sh_held _ _ _ _ Hsh t' x Hx) as [g' Hg'].
    exists t', (g_call g'), (g_prog g'). split; [by apply Hrun|].
    eapply proper_unblocked; [by apply (Hprop t')|]. intros q' mode' Hw'.
    pose proof (proper_awaited _ _ _ _ _ _ _ (Hprop t' g' Hg') Hw') as Hnone.
    rewrite (ok_lock _ _ _ _ (sh_threads _ _ _ _ Hsh t' g' Hg')) in Hx.
    unfold g_lock in Hx. by rewrite Hnone in Hx.
  - exists t, (g_call g), (g_prog g). split; [by apply Hrun|].
    eapply proper_unblocked; [by apply (Hprop t)|]. intros q mode Hw'. by rewrite Hw in Hw'.
Qed.
End Linearizable.

(** ** Termination *)

Section Bounded.
Context `{!UuidCrate}.

(** The number of names a location is resolved through. *)
Definition depth (l : Location) : nat := length (below (join_root (as_str l))).

(** An upper bound on the calls of an operation. *)
Definition calls_bound (c : call) : nat :=
  match c with
  | Get l => depth l + 6
  | Create l _ | Replace l _ _ => 2 * depth l + 16
  | NowMillis | NowV7 => 0
  end.

Lemma reject_calls cur rest : calls_within (length rest) (reject_symlinks_from cur rest).
Proof.
  revert cur. induction rest as [|name rest IH]; intros cur; simpl; [done|].
  intros [[]|e]; simpl; try apply IH; [done|]. by case_decide.
Qed.

Lemma object_path_calls l : calls_within (depth l) (object_path l).
Proof.
  unfold object_path. case_match; [done|]. rewrite <- (Nat.add_0_r (depth l)).
  apply calls_within_try_bind; [apply reject_calls|done].
Qed.

Lemma acquire_calls p mode : calls_within 4 (acquire p mode).
Proof. unfold acquire. destruct (parent p); repeat first [done | intros [[]|e]]. Qed.

Lemma scoped_calls {A} n lock (body : fs A) :
  calls_within n body → calls_within (n + 1) (scoped lock body).
Proof. intros Hb. apply calls_within_bind; [done|]. done. Qed.

Lemma read_path_calls p : calls_within 1 (read_path p).
Proof.
  intros [b|e]; simpl; [by destruct (Format.decode b)|by case_decide].
Qed.

Lemma publish_calls p e : calls_within 8 (publish p e).
Proof.
  unfold publish. destruct (parent (below p)); [|done]. intros u.
  repeat first [done | intros [[]|?]].
Qed.

Lemma prepare_path_calls l : calls_within (2 * depth l + 1) (prepare_path l).
Proof.
  unfold prepare_path, object_path. case_match; [done|].
  replace (2 * depth l + 1) with (depth l + (1 + (depth l + 0))) by lia.
  apply (calls_within_try_bind_map _ _ (λ _, join_root (as_str l))); [apply reject_calls|].
  intros _. destruct (parent _); [|done]. cbn [ok_or]. rewrite try_bind_Ok.
  apply calls_within_try_bind; [by intros [[]|e]|]. intros _.
  apply calls_within_try_bind; [apply reject_calls|done].
Qed.

Lemma map_err_calls {A E F} (f : E → F) n (p : fs (result A E)) :
  calls_within n p → calls_within n (prog_map_err f p).
Proof.
  intros Hp. rewrite <- (Nat.add_0_r n). by apply calls_within_bind.
Qed.

(** Writing: two UUIDs, the temporary file, its rename. *)
Lemma write_calls {F} (st : StoreError → F) p b :
  calls_within 9
    (let! ' (version, encoded) := encode b in
     let? _ := prog_map_err st (publish p encoded) in Ret (Ok version)).
Proof.
  intros u. change 8 with (8 + 0).
  apply calls_within_try_bind; [apply map_err_calls, publish_calls|done].
Qed.

(** The common shape of [create] and [replace]. *)
Lemma conditional_calls {F} (st : StoreError → F) l
    (body : PathBuf → option Object → fs (result Version F)) :
  (∀ p o, calls_within 9 (body p o)) →
  calls_within (2 * depth l + 16)
    (let? p := prog_map_err st (prepare_path l) in
     let? lock := prog_map_err st (acquire (lock_path l) Exclusive) in
     scoped lock (let? current := prog_map_err st (read_path p) in body p current)).
Proof.
  intros Hbody. replace (2 * depth l + 16) with (2 * depth l + 1 + (4 + (1 + 9 + 1))) by lia.
  apply calls_within_try_bind; [apply map_err_calls, prepare_path_calls|]. intros p.
  apply calls_within_try_bind; [apply map_err_calls, acquire_calls|]. intros lock.
  apply scoped_calls, calls_within_try_bind; [apply map_err_calls, read_path_calls|auto].
Qed.

(** C31: every operation terminates: it makes a number of calls bounded by the depth of
    its location, whatever they reply; there is no retry loop. *)
Theorem filesystem_calls_bounded c : calls_within (calls_bound c) (fs_op c).
Proof.
  destruct c as [l|l b|l v b| |]; cbn [fs_op calls_bound]; [| | |done|done].
  - apply calls_within_try_bind; [apply object_path_calls|]. intros p.
    apply (calls_within_try_bind 4 2); [apply acquire_calls|]. intros lock.
    apply (scoped_calls 1), read_path_calls.
  - apply (conditional_calls CreateStore). intros p [o|]; [done|]. apply write_calls.
  - apply (conditional_calls ReplaceStore). intros p o. case_decide; [|done].
    apply write_calls.
Qed.
End Bounded.

(** ** Symbolic links *)

Section Symlinks.
Context `{!UuidCrate}.

(** Thread [t] runs alone, drawing [u] each time. *)
Definition alone (t : nat) (u : Uuid) : handler fs_reply fs_state :=
  λ c s, fs_normal t u s c.

(** Some name on the path, below existing ones, is a symbolic link. *)
Definition through_symlink (ns : nodes) (cur p : path) : Prop :=
  ∃ i, i < length p ∧ ns !! (cur ++ take (S i) p) = Some Symlink ∧
    ∀ j, j < i → is_Some (ns !! (cur ++ take (S j) p)).

(** The refusal of a location. *)
Definition invalid_location (c : call) : reply StoreError c :=
  match c with
  | Get _ => Err InvalidLocation
  | Create _ _ => Err (CreateStore InvalidLocation)
  | Replace _ _ _ => Err (ReplaceStore InvalidLocation)
  | NowMillis | NowV7 => 0%N
  end.

Lemma reject_run t u s cur p :
  through_symlink (tree s) cur p →
  run (alone t u) (reject_symlinks_from cur p) s = Some (Err InvalidLocation, s).
Proof.
  revert cur. induction p as [|name p IH]; intros cur (i & Hi & Hlink & Hpre); [simpl in *; lia|].
  cbn [reject_symlinks_from prog_bind symlink_metadata run alone fs_normal].
  assert (node_at (tree s) (cur ++ [name]) = tree s !! (cur ++ [name])) as -> by by destruct cur.
  destruct i as [|i].
  { change (take 1 (name :: p)) with [name] in Hlink. by rewrite Hlink. }
  assert (through_symlink (tree s) (cur ++ [name]) p) as Hrest.
  { exists i. split_and!; [simpl in Hi; lia| |].
    - rewrite <- app_assoc. exact Hlink.
    - intros j Hj. rewrite <- app_assoc. apply (Hpre (S j)). lia. }
  destruct (Hpre 0) as [n Hn]; [lia|].
  change (take 1 (name :: p)) with [name] in Hn. rewrite Hn.
  destruct n; [by apply IH|by apply IH|done].
Qed.

Lemma object_path_run t u s l :
  managed l = true → through_symlink (tree s) [] (object_file l) →
  run (alone t u) (object_path l) s = Some (Err InvalidLocation, s).
Proof.
  intros Hl Hlink. unfold object_path. rewrite managed_all_normal, managed_join_root by done.
  unfold try_bind. rewrite run_bind. unfold reject_existing_symlinks. cbn [below].
  by rewrite reject_run.
Qed.

(** The adapter does not leave its root: an operation on a location whose path
    goes through a symbolic link is refused, and changes nothing. *)
Lemma symlinked_location_refused t u s c :
  call_ok c → through_symlink (tree s) [] (object_file (call_location c)) →
  run (alone t u) (fs_op c) s = Some (invalid_location c, s).
Proof.
  intros Hc Hlink.
  destruct c as [l|l b|l v b| |]; simpl in Hc, Hlink; [| | |done|done];
    cbn [fs_op]; unfold Filesystem.get, Filesystem.create, Filesystem.replace, prepare_path,
      prog_map_err, try_bind; rewrite ?run_bind, object_path_run by (done || apply Hc); done.
Qed.
End Symlinks.
