(* ===== verification/PowerLoss.v ===== *)
(** * Power loss

    What a file system may leave of a directory tree when the power fails.  The system
    writes contents and directory entries to the disk when it likes; [sync_all] waits for
    them: on a file for its contents, on a directory for its entries.  Every path has a
    [trail]: what it names now, and what it named before its directory was last synced;
    after a power loss it may name any of these ([power_loss]).

    [dstep] is the machine of [FilesystemMachine] with its disk, and with the record of
    the files renamed into place.  The disk keeps up with the tree: at any moment a power
    failure may lose nothing ([nothing_lost]). *)

From S2P Require Import Prelude.
From S2P Require Import Program.
From S2P Require Import ObjectStore.
From S2P Require Import Linearization.
From S2P Require Import FileSystem.
From S2P Require Import Envelope.
From S2P Require Import FilesystemStore.
From S2P Require Import FilesystemMachine.
Import Filesystem.

(** ** Disks *)

(** What a path may name after a power loss.  The contents of a file that was not synced
    can be anything. *)
Inductive survivor :=
  | Missing
  | Folder
  | Link
  | Whole (b : bytes)
  | Torn.

#[export] Instance survivor_eq_dec : EqDecision survivor.
Proof. solve_decision. Defined.

Definition survivor_of (n : option node) : survivor :=
  match n with
  | None => Missing
  | Some Dir => Folder
  | Some Symlink => Link
  | Some (File b) => Whole b
  end.

Definition survives_as (x : survivor) (n : option node) : Prop :=
  match x with
  | Torn => ∃ b, n = Some (File b)
  | _ => survivor_of n = x
  end.

Record trail := MkTrail { now : survivor; earlier : list survivor }.

Abbreviation disk := (gmap path trail).

Definition trail_at (d : disk) (p : path) : trail := default (MkTrail Missing []) (d !! p).

Definition survivors (d : disk) (p : path) : list survivor :=
  now (trail_at d p) :: earlier (trail_at d p).

(** The path names something else from now on. *)
Definition set_entry (p : path) (x : survivor) (d : disk) : disk :=
  <[p := MkTrail x (survivors d p)]> d.

(** The file the path names has other contents. *)
Definition set_data (p : path) (x : survivor) (d : disk) : disk :=
  <[p := MkTrail x (earlier (trail_at d p))]> d.

(** The entries of a directory are written. *)
Definition sync_entries (dir : path) (d : disk) : disk :=
  map_imap (λ p x,
    Some (if decide (parent p = Some dir) then MkTrail (now x) [] else x)) d.

(** A directory tree that has been on the disk for long. *)
Definition settled_disk (ns : nodes) : disk := (λ n, MkTrail (survivor_of (Some n)) []) <$> ns.

(** The directories leading to [p], and [p]. *)
Definition prefixes (p : path) : list path := (λ n, take n p) <$> seq 1 (length p).

(** The effect of a call on the disk, between two states of the file system. *)
Definition disk_effect (ns ns' : nodes) (c : fs_call) : fs_reply c → disk → disk :=
  match c return fs_reply c → disk → disk with
  | CreateDirAll p => λ _ d,
      foldr (λ q d, if decide (ns !! q = None ∧ ns' !! q = Some Dir)
                    then set_entry q Folder d else d) d (prefixes p)
  | OpenCreate p => λ r d,
      if decide (is_ok r = true ∧ ns !! p = None) then set_entry p Torn d else d
  | CreateNewFile p => λ r d, if is_ok r then set_entry p Torn d else d
  | WriteAll p _ => λ _ d, if file_at ns p is Some _ then set_data p Torn d else d
  | SyncAll p => λ r d,
      if is_ok r then
        match node_at ns p with
        | Some (File b) => set_data p (Whole b) d
        | Some Dir => sync_entries p d
        | _ => d
        end
      else d
  | Rename p q => λ r d,
      if is_ok r then set_entry (below q) (now (trail_at d p)) (set_entry p Missing d) else d
  | RemoveFile p => λ r d, if is_ok r then set_entry p Missing d else d
  | SymlinkMetadata _ | ReadFile _ | LockFile _ _ | CloseFile _ | OpenDir _ | FsNowV7 =>
      λ _ d, d
  end.

(** A tree that may be found after a power loss: every path names something its trail
    allows, provided the directory it is in survived. *)
Record power_loss (d : disk) (ns : nodes) : Prop := MkPowerLoss {
  lost_with_parent p c : node_at ns p ≠ Some Dir → ns !! (p ++ [c]) = None;
  entry_survives p c : node_at ns p = Some Dir →
    ∃ x, x ∈ survivors d (p ++ [c]) ∧ survives_as x (ns !! (p ++ [c]));
}.

(** ** Nothing need be lost *)

(** Every entry is in a directory. *)
Definition rooted (ns : nodes) : Prop :=
  ∀ p c, is_Some (ns !! (p ++ [c])) → node_at ns p = Some Dir.

Lemma power_loss_rooted d ns : power_loss d ns → rooted ns.
Proof.
  intros Hloss p c [n Hn]. destruct (decide (node_at ns p = Some Dir)) as [|Hp]; [done|].
  by rewrite (lost_with_parent _ _ Hloss p c Hp) in Hn.
Qed.

(** The disk has caught up with the tree. *)
Definition mirrors (d : disk) (ns : nodes) : Prop :=
  rooted ns ∧ ∀ p, survives_as (now (trail_at d p)) (ns !! p).

Lemma survives_itself n : survives_as (survivor_of n) n.
Proof. by destruct n as [[]|]. Qed.

Lemma mirrors_power_loss d ns : mirrors d ns → power_loss d ns.
Proof.
  intros [Hroot Hm]. split.
  - intros p c Hp. destruct (ns !! (p ++ [c])) eqn:Hc; [|done].
    destruct Hp. apply (Hroot p c). by eexists.
  - intros p c _. eexists. split; [left|apply Hm].
Qed.

Section Mirrors.
Implicit Types (d : disk) (ns : nodes) (p q : path) (y : trail) (n : node).

Lemma trail_at_insert p q y d : q ≠ p → trail_at (<[p := y]> d) q = trail_at d q.
Proof. intros. unfold trail_at. by rewrite lookup_insert_ne. Qed.

Lemma trail_at_insert_eq p y d : trail_at (<[p := y]> d) p = y.
Proof. unfold trail_at. by rewrite lookup_insert_eq. Qed.

Lemma node_at_dir_insert ns p q n :
  node_at ns q = Some Dir → (ns !! p = Some Dir → n = Dir) →
  node_at (<[p := n]> ns) q = Some Dir.
Proof.
  destruct q as [|c q]; [done|]. simpl. intros Hq Hn.
  destruct (decide (p = c :: q)) as [->|Hne]; [rewrite lookup_insert_eq; naive_solver|].
  by rewrite lookup_insert_ne.
Qed.

Lemma rooted_insert ns p n :
  rooted ns → (∀ q c, p = q ++ [c] → node_at ns q = Some Dir) → (ns !! p = Some Dir → n = Dir) →
  rooted (<[p := n]> ns).
Proof.
  intros Hroot Hp Hn q c Hq. apply node_at_dir_insert; [|done].
  destruct (decide (p = q ++ [c])) as [->|Hne]; [by eapply Hp|].
  rewrite lookup_insert_ne in Hq by done. by eapply Hroot.
Qed.

Lemma rooted_delete ns p : rooted ns → ns !! p ≠ Some Dir → rooted (delete p ns).
Proof.
  intros Hroot Hp q c [n [Hne Hq]%lookup_delete_Some].
  assert (node_at ns q = Some Dir) as Hdir by (apply (Hroot q c); by eexists).
  destruct q as [|c' q]; [done|]. simpl in *. rewrite lookup_delete_ne; [done|congruence].
Qed.

Lemma mirrors_insert d ns p y n :
  mirrors d ns → (∀ q c, p = q ++ [c] → node_at ns q = Some Dir) →
  (ns !! p = Some Dir → n = Dir) → survives_as (now y) (Some n) →
  mirrors (<[p := y]> d) (<[p := n]> ns).
Proof.
  intros [Hroot Hm] Hp Hn Hy. split; [by apply rooted_insert|]. intros q.
  destruct (decide (p = q)) as [->|Hne].
  - by rewrite trail_at_insert_eq, lookup_insert_eq.
  - by rewrite trail_at_insert, lookup_insert_ne.
Qed.

Lemma mirrors_delete d ns p es :
  mirrors d ns → ns !! p ≠ Some Dir → mirrors (<[p := MkTrail Missing es]> d) (delete p ns).
Proof.
  intros [Hroot Hm] Hp. split; [by apply rooted_delete|]. intros q.
  destruct (decide (p = q)) as [->|Hne].
  - by rewrite trail_at_insert_eq, lookup_delete_eq.
  - by rewrite trail_at_insert, lookup_delete_ne.
Qed.

Lemma mirrors_set_data d ns p b y :
  mirrors d ns → ns !! p = Some (File b) → survives_as (now y) (Some (File b)) →
  mirrors (<[p := y]> d) ns.
Proof.
  intros Hm Hp Hy. rewrite <- (insert_id ns p (File b) Hp).
  apply mirrors_insert; [done| |congruence|done].
  intros q c ->. apply (proj1 Hm q c). by eexists.
Qed.

Lemma mirrors_sync d ns dir : mirrors d ns → mirrors (sync_entries dir d) ns.
Proof.
  intros [Hroot Hm]. split; [done|]. intros p. specialize (Hm p).
  unfold trail_at, sync_entries in *. rewrite map_lookup_imap.
  destruct (d !! p); simpl; by try case_decide.
Qed.

Lemma mirrors_append d ns p b :
  mirrors d ns →
  mirrors (if file_at ns p is Some _ then set_data p Torn d else d) (fs_append ns p b).
Proof.
  intros Hm. unfold file_at, fs_append. destruct (ns !! p) as [[|c|]|] eqn:Hp; try done.
  apply mirrors_insert; [done| |congruence|by eexists].
  intros q c' ->. apply (proj1 Hm q c'). by eexists.
Qed.

(** [create_dir_all] adds directories on the way to the path. *)
Lemma mkdirs_adds ns cur p q :
  (fs_mkdirs ns cur p).2 !! q = ns !! q ∨
  (ns !! q = None ∧ (fs_mkdirs ns cur p).2 !! q = Some Dir ∧
   ∃ n : nat, 0 < n ≤ length p ∧ q = cur ++ take n p).
Proof.
  revert ns cur. induction p as [|c p IH]; intros ns cur; [by left|]. cbn [fs_mkdirs].
  assert (∀ n : nat, (cur ++ [c]) ++ take n p = cur ++ take (S n) (c :: p)) as Htake.
  { intros n. by rewrite <- app_assoc. }
  destruct (ns !! (cur ++ [c])) as [[]|] eqn:Hc; [|by left..|].
  - destruct (IH ns (cur ++ [c])) as [?|(? & ? & n & Hn & ->)]; [by left|].
    right. split_and!; [done..|]. exists (S n). simpl. rewrite Htake. split; [lia|done].
  - destruct (decide (q = cur ++ [c])) as [->|Hq].
    + right. split_and!; [done| |exists 1; simpl; rewrite take_0; split; [lia|done]].
      destruct (IH (<[cur ++ [c] := Dir]> ns) (cur ++ [c])) as [->|(Hn & _)];
        by rewrite lookup_insert_eq in *.
    + destruct (IH (<[cur ++ [c] := Dir]> ns) (cur ++ [c])) as [->|(Hn & Hd & n & Hle & ->)];
        rewrite lookup_insert_ne in * by done; [by left|].
      right. split_and!; [done..|]. exists (S n). simpl. rewrite Htake. split; [lia|done].
Qed.

Lemma rooted_mkdirs ns cur p :
  rooted ns → node_at ns cur = Some Dir → rooted (fs_mkdirs ns cur p).2.
Proof.
  revert ns cur. induction p as [|c p IH]; intros ns cur Hroot Hcur; [done|]. cbn [fs_mkdirs].
  destruct (ns !! (cur ++ [c])) as [[]|] eqn:Hc; try done.
  - apply IH; [done|]. by destruct cur.
  - apply IH; [|unfold node_at; rewrite lookup_insert_eq; by destruct cur].
    apply rooted_insert; [done| |congruence]. by intros q c' [-> _]%app_inj_tail.
Qed.

Lemma mirrors_mkdirs d ns p q (r : fs_reply (CreateDirAll p)) :
  mirrors d ns → q `prefix_of` p →
  mirrors (disk_effect ns (fs_mkdirs ns [] q).2 (CreateDirAll p) r d) (fs_mkdirs ns [] q).2.
Proof.
  intros [Hroot Hm] [p' ->]. split; [by apply rooted_mkdirs|]. intros q0.
  set (ns' := (fs_mkdirs ns [] q).2). cbn [disk_effect].
  assert (∀ qs, let d' := foldr (λ q1 d, if decide (ns !! q1 = None ∧ ns' !! q1 = Some Dir)
      then set_entry q1 Folder d else d) d qs in
    (q0 ∈ qs ∧ ns !! q0 = None ∧ ns' !! q0 = Some Dir → now (trail_at d' q0) = Folder) ∧
    (now (trail_at d' q0) = Folder ∧ ns !! q0 = None ∧ ns' !! q0 = Some Dir ∨
     trail_at d' q0 = trail_at d q0)) as Hfold.
  { induction qs as [|q1 qs [IH1 IH2]]; cbn [foldr]; [by split; [intros [?%elem_of_nil _]|right]|].
    case_decide as Hnew; unfold set_entry.
    - destruct (decide (q0 = q1)) as [<-|Hne].
      + rewrite trail_at_insert_eq. split; [done|by left].
      + rewrite trail_at_insert by done. split; [|done].
        intros ([?|?]%elem_of_cons & ?); [done|by apply IH1].
    - split; [|done]. intros ([->|?]%elem_of_cons & ?); [done|by apply IH1]. }
  destruct (Hfold (prefixes (q ++ p'))) as [Hadd Hsame].
  destruct (mkdirs_adds ns [] q q0) as [Heq|(Hnone & Hdir & n & Hn & Hq0)].
  - destruct Hsame as [(-> & _ & ->)| ->]; [done|]. unfold ns'. rewrite Heq. apply Hm.
  - fold ns' in Hdir. rewrite Hadd, Hdir; [done|]. split_and!; [|done..]. unfold prefixes.
    apply list_elem_of_fmap. exists n. split; [|apply elem_of_seq; rewrite length_app; lia].
    rewrite take_app_le by lia. done.
Qed.

Lemma fs_rename_cases ns p (q : PathBuf) :
  (∃ e, fs_rename ns p q = (Err e, ns)) ∨
  ∃ b, ns !! p = Some (File b) ∧ node_at ns (below q) ≠ Some Dir ∧
    (node_at ns (below q) = None → parent_is_dir ns (below q) = true) ∧
    fs_rename ns p q = (Ok tt, <[below q := File b]> (delete p ns)).
Proof.
  unfold fs_rename. destruct (ns !! p) as [[|b|]|] eqn:Hp; [by repeat case_match; eauto| |
    by repeat case_match; eauto|eauto].
  destruct (node_at ns (below q)) as [n|] eqn:Hq.
  - destruct n; [by eauto|..]; (destruct (dir_only q); [by eauto|]);
      right; exists b; by rewrite bool_decide_eq_false_2 by done.
  - destruct (dir_only q); [by eauto|]. rewrite bool_decide_eq_true_2 by done.
    destruct (parent_is_dir ns (below q)) eqn:Hpar; simpl; [right; by exists b|eauto].
Qed.

Lemma parent_is_dir_snoc ns p q c : parent_is_dir ns p = true → p = q ++ [c] → node_at ns q = Some Dir.
Proof.
  intros Hp ->. unfold parent_is_dir, parent in Hp. destruct (q ++ [c]) eqn:Heq; [by destruct q|].
  rewrite <- Heq, removelast_last in Hp. by apply bool_decide_eq_true in Hp.
Qed.

Lemma mirrors_rename d ns p q b :
  mirrors d ns → ns !! p = Some (File b) → node_at ns q ≠ Some Dir →
  (node_at ns q = None → parent_is_dir ns q = true) →
  mirrors (set_entry q (now (trail_at d p)) (set_entry p Missing d)) (<[q := File b]> (delete p ns)).
Proof.
  intros Hm Hp Hq Hpar. assert (ns !! q ≠ Some Dir) as Hq' by (by destruct q).
  apply mirrors_insert; [apply mirrors_delete; [done|congruence]|..].
  - intros q' c Heq. assert (node_at ns q' = Some Dir) as Hdir.
    { destruct (node_at ns q) as [n|] eqn:Hn; [|by eapply parent_is_dir_snoc, Heq; apply Hpar].
      apply (proj1 Hm q' c). exists n. rewrite <- Heq. by subst q; destruct q'. }
    destruct q' as [|c' q']; [done|]. simpl in *. rewrite lookup_delete_ne; [done|congruence].
  - intros [_ Hd]%lookup_delete_Some. congruence.
  - cbn [now]. rewrite <- Hp. apply Hm.
Qed.

(** A call that succeeds, or fails for a reason in the tree. *)
Lemma mirrors_normal t u s fc r s' d :
  fs_normal t u s fc = Some (r, s') → mirrors d (tree s) →
  mirrors (disk_effect (tree s) (tree s') fc r d) (tree s').
Proof.
  intros Hs Hm. destruct fc as [p|p|p|p|p m|p|p|p b|p|p p'|p|p|]; cbn [fs_normal] in Hs;
    try (injection Hs as <- <-).
  - done.
  - destruct (fs_mkdirs (tree s) [] p) as [r' ns] eqn:Hmk. injection Hs as <- <-.
    pose proof (mirrors_mkdirs d (tree s) p p r' Hm ltac:(done)) as Hd.
    by rewrite Hmk in Hd.
  - done.
  - unfold fs_open_create in Hs. cbn [disk_effect].
    destruct (node_at (tree s) p) as [[|b|]|] eqn:Hp; [injection Hs as <- <-; cbn [is_ok tree set_tree]..|].
    + by rewrite decide_False by naive_solver.
    + rewrite decide_False; [done|]. intros [_ Hn]. destruct p; [done|]. simpl in Hp. congruence.
    + by rewrite decide_False by naive_solver.
    + assert (tree s !! p = None) as Hn by (by destruct p).
      destruct (parent_is_dir (tree s) p) eqn:Hpar; injection Hs as <- <-; cbn [is_ok tree set_tree].
      * rewrite decide_True by done. apply mirrors_insert; [done| |congruence|by eexists].
        intros q c. by apply parent_is_dir_snoc.
      * by rewrite decide_False by naive_solver.
  - case_decide; [|done]. by injection Hs as <- <-.
  - done.
  - unfold fs_create_new in Hs. cbn [disk_effect].
    destruct (node_at (tree s) p) as [n|] eqn:Hp; [by injection Hs as <- <-|].
    destruct (parent_is_dir (tree s) p) eqn:Hpar; injection Hs as <- <-; [|done]. cbn [is_ok tree set_tree].
    assert (tree s !! p = None) by (by destruct p).
    apply mirrors_insert; [done| |congruence|by eexists].
    intros q c. by apply parent_is_dir_snoc.
  - cbn [disk_effect tree set_tree]. by apply mirrors_append.
  - cbn [disk_effect is_ok]. destruct (node_at (tree s) p) as [[|b|]|] eqn:Hp; try done.
    + by apply mirrors_sync.
    + destruct p as [|c p]; [done|]. by eapply mirrors_set_data.
  - cbn [disk_effect].
    destruct (fs_rename_cases (tree s) p p') as [(e & He)|(b & Hp & Hnd & Hpar & He)];
      rewrite He in Hs; injection Hs as <- <-; [done|]. by apply mirrors_rename.
  - done.
  - unfold fs_remove_file in Hs. cbn [disk_effect].
    destruct (node_at (tree s) p) as [[|b|]|] eqn:Hp; injection Hs as <- <-; try done;
      (apply mirrors_delete; [done|]); by destruct p; simplify_eq/=; intros ?; simplify_eq.
  - done.
Qed.

Lemma mirrors_call t s fc r s' d :
  fs_effect t s fc r s' → mirrors d (tree s) →
  mirrors (disk_effect (tree s) (tree s') fc r d) (tree s').
Proof.
  intros [(u & _ & _ & Hs)|Hs] Hm; [by eapply mirrors_normal|].
  destruct fc as [p|p|p|p|p m|p|p|p b|p|p p'|p|p|]; cbn [fs_faulty fs_partial] in Hs;
    try done; destruct Hs as ((e & -> & _) & ns & Hns & ->); cbn [tree set_tree]; try by subst.
  - destruct Hns as (q & Hq & ->). by apply mirrors_mkdirs.
  - destruct Hns as (b' & _ & ->). by apply mirrors_append.
Qed.
End Mirrors.

(** ** The machine and its disk *)

Record durable := MkDurable {
  on : machine;
  on_disk : disk;
  renames : list (path * bytes);
}.

(** The file a call renames into place. *)
Definition renamed (ns : nodes) (c : fs_call) : fs_reply c → list (path * bytes) :=
  match c return fs_reply c → list (path * bytes) with
  | Rename p q => λ r,
      if is_ok r then match file_at ns p with Some b => [(below q, b)] | None => [] end else []
  | _ => λ _, []
  end.

Section Machine.
Context `{!UuidCrate}.

Inductive dstep (ok : call → Prop) : durable → durable → Prop :=
  | durable_invoke t c x :
      ok c → m_ops (on x) !! t = None →
      dstep ok x (MkDurable
        (MkMachine (m_fs (on x)) (<[t := MkThread c (fs_op c)]> (m_threads (on x)))
           (<[t := MkOperation c None]> (m_ops (on x))) (m_trace (on x) ++ [(t, Invoked)]))
        (on_disk x) (renames x))
  | durable_call t c fc k r s x :
      m_threads (on x) !! t = Some (MkThread c (Call fc k)) →
      fs_effect t (m_fs (on x)) fc r s →
      dstep ok x (MkDurable
        (MkMachine s (<[t := MkThread c (k r)]> (m_threads (on x))) (m_ops (on x))
           (m_trace (on x)))
        (disk_effect (tree (m_fs (on x))) (tree s) fc r (on_disk x))
        (renames x ++ renamed (tree (m_fs (on x))) fc r))
  | durable_return t c r x :
      m_threads (on x) !! t = Some (MkThread c (Ret r)) →
      dstep ok x (MkDurable
        (MkMachine (m_fs (on x)) (delete t (m_threads (on x)))
           (<[t := MkOperation c (Some r)]> (m_ops (on x))) (m_trace (on x) ++ [(t, Returned)]))
        (on_disk x) (renames x))
  | durable_crash t th x :
      m_threads (on x) !! t = Some th →
      dstep ok x (MkDurable
        (MkMachine (release t (m_fs (on x))) (delete t (m_threads (on x))) (m_ops (on x))
           (m_trace (on x)))
        (on_disk x) (renames x)).

(** It is the machine, and every step of the machine is one of it. *)
Lemma dstep_mstep ok x x' : dstep ok x x' → mstep ok (on x) (on x').
Proof. destruct 1; [by apply step_invoke|by eapply step_call|by eapply step_return|by eapply step_crash]. Qed.

Lemma mstep_dstep ok x m : mstep ok (on x) m → ∃ x', on x' = m ∧ dstep ok x x'.
Proof.
  intros Hstep. inversion Hstep; subst; eexists (MkDurable _ _ _);
    (split; [reflexivity|by econstructor]).
Qed.

(** At any moment the power failure may lose nothing. *)
Lemma nothing_lost ok x0 x :
  rtc (dstep ok) x0 x → rooted (tree (m_fs (on x0))) →
  on_disk x0 = settled_disk (tree (m_fs (on x0))) →
  power_loss (on_disk x) (tree (m_fs (on x))).
Proof.
  intros Hsteps Hroot Hdisk. apply mirrors_power_loss.
  assert (mirrors (on_disk x0) (tree (m_fs (on x0)))) as Hm.
  { split; [done|]. intros p. rewrite Hdisk. unfold trail_at, settled_disk. rewrite lookup_fmap.
    destruct (_ !! p) as [n|]; [apply (survives_itself (Some n))|done]. }
  clear Hroot Hdisk. induction Hsteps as [|x y z Hstep _ IH]; [done|]. apply IH.
  destruct Hstep; try done. by eapply mirrors_call.
Qed.

(** ** A deterministic scheduler, as for the machine without its disk *)

Definition d_act (a : fs_action) (x : durable) : option durable :=
  m ← fs_act a (on x);
  match a with
  | Act t =>
      th ← m_threads (on x) !! t;
      match th_prog th with
      | Call fc _ =>
          let u := N.of_nat (length (drawn (m_fs (on x)))) in
          '(r, _) ← fs_normal t u (m_fs (on x)) fc;
          Some (MkDurable m (disk_effect (tree (m_fs (on x))) (tree (m_fs m)) fc r (on_disk x))
                  (renames x ++ renamed (tree (m_fs (on x))) fc r))
      | _ => Some (MkDurable m (on_disk x) (renames x))
      end
  | _ => Some (MkDurable m (on_disk x) (renames x))
  end.

Fixpoint d_schedule (xs : list fs_action) (x : durable) : option durable :=
  match xs with
  | [] => Some x
  | a :: xs => x ← d_act a x; d_schedule xs x
  end.

Lemma d_act_step ok a x x' :
  (∀ t c, a = Invoke t c → ok c) → d_act a x = Some x' → dstep ok x x'.
Proof.
  destruct x as [m d l]. intros Hok. unfold d_act, fs_act. simpl. destruct a as [t c|t|t]; simpl.
  - case_decide; simpl; [|done]. intros [= <-].
    apply (durable_invoke ok t c (MkDurable m d l)); [by eapply Hok|done].
  - destruct (m_threads m !! t) as [[c p]|] eqn:Ht; simpl; [|done].
    destruct p as [r| |fc k]; simpl.
    + intros [= <-]. by apply (durable_return ok t c r (MkDurable m d l)).
    + done.
    + case_decide as Hu; simpl; [|done]. destruct (fs_normal _ _ _ _) as [[r s]|] eqn:Hs; [|done].
      simpl. intros [= <-]. apply (durable_call ok t c fc k r s (MkDurable m d l)); [done|].
      left. destruct Hu. eauto.
  - destruct (m_threads m !! t) as [th|] eqn:Ht; [|done]. cbn [is_ok tree set_tree]. intros [= <-].
    by apply (durable_crash ok t th (MkDurable m d l)).
Qed.

Lemma d_schedule_reachable (ok : call → Prop) xs x x' :
  Forall ok (invoked xs) → d_schedule xs x = Some x' → rtc (dstep ok) x x'.
Proof.
  revert x. induction xs as [|a xs IH]; intros x Hok; [intros [= ->]; constructor|].
  cbn [d_schedule]. destruct (d_act a x) as [x1|] eqn:Ha; [|done]. cbn [is_ok tree set_tree]. intros Hx.
  assert (∀ t c, a = Invoke t c → ok c) as Ha'.
  { intros t c ->. by apply Forall_inv in Hok. }
  eapply rtc_l; [by eapply d_act_step|]. apply IH; [|done].
  destruct a; simpl in Hok; [by apply Forall_inv_tail in Hok|done..].
Qed.
End Machine.
