(* ===== verification/CarefulWrites.v ===== *)
(** * Careful writes

    [careful] is how an operation orders its writes: it renames only a file whose contents
    it has synced, and reports success only after it has synced the directory of the
    rename.  The operations of the adapter are [careful] ([careful_op]). *)

From S2P Require Import Prelude.
From S2P Require Import Program.
From S2P Require Import ObjectStore.
From S2P Require Import Linearization.
From S2P Require Import FileSystem.
From S2P Require Import Envelope.
From S2P Require Import FilesystemStore.
From S2P Require Import FilesystemMachine.
From S2P Require Import FilesystemPaths.
From S2P Require Import FilesystemRules.
From S2P Require Import FilesystemLinearizable.
Import Filesystem FsError.

(** ** Careful programs *)

(** What has become of the temporary file of an operation: created, written, synced,
    renamed to the object, in a directory that is open, and synced. *)
Inductive stage :=
  | NoFile
  | Made (q : path)
  | Wrote (q : path) (e : bytes)
  | Ready (q : path) (e : bytes)
  | Placed (e : bytes)
  | Opened (e : bytes)
  | Settled (e : bytes).

Record care := MkCare { ca_uuids : list Uuid; ca_stage : stage }.

Definition at_stage (st : stage) (g : care) : care := MkCare (ca_uuids g) st.

(** An object of a revision in [us]. *)
Definition is_envelope `{!UuidCrate} (us : list Uuid) (e : bytes) : Prop :=
  ∃ u b, e = envelope u b ∧ u ∈ us ∧ (u ≤ uuid_max)%N ∧ (N.of_nat (length b) ≤ u64_max)%N.

Lemma is_envelope_mono `{!UuidCrate} us us' e :
  (∀ u, u ∈ us → u ∈ us') → is_envelope us e → is_envelope us' e.
Proof. intros Hus (u & b & -> & Hu & ?). exists u, b. auto. Qed.

Section Rules.
Context `{!UuidCrate} (l : Location).

Definition object_dir : path := removelast (object_file l).

Definition owns (g : care) (q : path) : Prop :=
  ∃ u, u ∈ ca_uuids g ∧ q = temporary_file l u.

(** A call that neither writes the operation's files nor waits for the disk. *)
Definition neutral (fc : fs_call) : Prop :=
  match fc with
  | SymlinkMetadata _ | CreateDirAll _ | ReadFile _ | LockFile _ _ | CloseFile _ => True
  | OpenCreate q => q = lock_path l
  | _ => False
  end.

Definition careful_call (fc : fs_call) (g : care) : (fs_reply fc → care → Prop) → Prop :=
  match fc return (fs_reply fc → care → Prop) → Prop with
  | FsNowV7 => λ next, ∀ u, (u ≤ uuid_max)%N → next u (MkCare (u :: ca_uuids g) (ca_stage g))
  | CreateNewFile q => λ next,
      owns g q ∧ next (Ok tt) (at_stage (Made q) g) ∧ ∀ e, next (Err e) (at_stage NoFile g)
  | WriteAll q b => λ next,
      ca_stage g = Made q ∧
      next (Ok tt) (at_stage (Wrote q b) g) ∧ ∀ e, next (Err e) (at_stage NoFile g)
  | SyncAll q => λ next,
      ∃ st, ((∃ b, ca_stage g = Wrote q b ∧ st = Ready q b) ∨
             (∃ b, ca_stage g = Opened b ∧ q = object_dir ∧ st = Settled b)) ∧
      next (Ok tt) (at_stage st g) ∧ ∀ e, next (Err e) (at_stage NoFile g)
  | Rename q q' => λ next,
      ∃ b, ca_stage g = Ready q b ∧ q' = MkPathBuf (object_file l) false ∧
      is_envelope (ca_uuids g) b ∧
      next (Ok tt) (at_stage (Placed b) g) ∧ ∀ e, next (Err e) (at_stage NoFile g)
  | OpenDir q => λ next,
      ∃ b, ca_stage g = Placed b ∧ q = object_dir ∧
      next (Ok tt) (at_stage (Opened b) g) ∧ ∀ e, next (Err e) (at_stage NoFile g)
  | RemoveFile q => λ next, owns g q ∧ ∀ r, next r (at_stage NoFile g)
  | fc => λ next, neutral fc ∧ ∀ r, next r g
  end.

Fixpoint careful {A} (Q : care → A → Prop) (g : care) (p : fs A) : Prop :=
  match p with
  | Ret x => Q g x
  | Panic => False
  | Call fc k => careful_call fc g (λ r g, careful Q g (k r))
  end.

Lemma careful_call_mono fc g (n1 n2 : fs_reply fc → care → Prop) :
  (∀ r g, n1 r g → n2 r g) → careful_call fc g n1 → careful_call fc g n2.
Proof. intros Hn. destruct fc; simpl; naive_solver. Qed.

Lemma careful_bind {A B} (f : A → fs B) (p : fs A) Q g :
  careful (λ g x, careful Q g (f x)) g p → careful Q g (prog_bind f p).
Proof.
  revert g. induction p as [x| |fc k IH]; intros g; simpl; [done..|].
  apply careful_call_mono. auto.
Qed.

Lemma careful_mono {A} (Q1 Q2 : care → A → Prop) g (p : fs A) :
  (∀ g x, Q1 g x → Q2 g x) → careful Q1 g p → careful Q2 g p.
Proof.
  intros HQ. revert g. induction p as [x| |fc k IH]; intros g; simpl; [auto..|].
  apply careful_call_mono. auto.
Qed.

Lemma careful_try {A B E} (f : A → fs (result B E)) (p : fs (result A E)) Q g :
  careful (λ g r, match r with Ok x => careful Q g (f x) | Err e => Q g (Err e) end) g p →
  careful Q g (try_bind f p).
Proof.
  intros Hp. apply careful_bind. eapply careful_mono; [|exact Hp]. by intros g' [x|e].
Qed.

Lemma careful_map_err {A E F} (h : E → F) (p : fs (result A E)) Q g :
  careful (λ g r, Q g (map_err h r)) g p → careful Q g (prog_map_err h p).
Proof. intros Hp. unfold prog_map_err. by apply careful_bind. Qed.

(** A program of neutral calls changes nothing; what it returns it returns for some
    replies. *)
Lemma careful_neutral {A} (Q : care → A → Prop) g (p : fs A) :
  calls_all neutral p → panic_free p → (∀ cs x, plays p cs x → Q g x) → careful Q g p.
Proof.
  induction p as [x| |fc k IH]; simpl; [|done|].
  - intros _ _ HQ. by apply (HQ []).
  - intros [Hfc Hk] Hp HQ.
    assert (∀ r, careful Q g (k r)) as Hnext.
    { intros r. apply IH; [done..|]. intros cs x Hx. eapply HQ. by eexists r, cs. }
    destruct fc; simpl in *; done.
Qed.
End Rules.

(** ** The operations are careful *)

Section Operations.
Context `{!UuidCrate} (l : Location).
Hypothesis Hl : managed l = true.
Implicit Types (g : care).

Lemma reject_symlinks_neutral cur rest :
  calls_all (neutral l) (reject_symlinks_from cur rest) ∧
  panic_free (reject_symlinks_from cur rest).
Proof.
  revert cur. induction rest as [|n rest IH]; intros cur; simpl; [done|].
  split; [split; [done|]|]; intros [[]|e]; try done; try apply IH; by case_decide.
Qed.

Lemma object_path_neutral :
  calls_all (neutral l) (object_path l) ∧ panic_free (object_path l).
Proof.
  unfold object_path. cbv zeta. destruct (existsb _ _); [done|].
  split; [apply calls_all_bind|apply panic_free_bind]; try apply reject_symlinks_neutral;
    by intros [].
Qed.

Lemma object_path_returns cs p :
  plays (object_path l) cs (Ok p) → p = MkPathBuf (object_file l) false.
Proof.
  unfold object_path. cbv zeta. rewrite managed_all_normal, managed_join_root by done.
  intros [(? & ? & ? & _ & _ & _ & [= ->])|(e & _ & [=])]%plays_try_bind. done.
Qed.

Lemma prepare_path_neutral :
  calls_all (neutral l) (prepare_path l) ∧ panic_free (prepare_path l).
Proof.
  unfold prepare_path. split.
  - apply calls_all_bind; [apply object_path_neutral|]. intros [p|e]; [|done].
    destruct (parent (below p)); [|done]. simpl. split; [done|]. intros [[]|e]; [|done].
    apply calls_all_bind; [apply reject_symlinks_neutral|]. by intros [].
  - apply panic_free_try_bind; [apply object_path_neutral|]. intros p.
    destruct (parent (below p)); [|done]. simpl. intros [[]|e]; [|done].
    apply panic_free_try_bind; [apply reject_symlinks_neutral|done].
Qed.

Lemma prepare_path_returns cs p :
  plays (prepare_path l) cs (Ok p) → p = MkPathBuf (object_file l) false.
Proof.
  unfold prepare_path.
  intros [(cs1 & cs2 & q & _ & ->%object_path_returns & Hp)|(e & _ & [=])]%plays_try_bind.
  apply plays_try_bind in Hp as [(? & ? & d & _ & _ & Hp)|(e & _ & [=])].
  apply plays_try_bind in Hp as [(? & ? & [] & _ & _ & Hp)|(e & _ & [=])].
  by apply plays_try_bind in Hp as [(? & ? & [] & _ & _ & _ & [= ->])|(e & _ & [=])].
Qed.

Lemma acquire_neutral mode :
  calls_all (neutral l) (acquire (lock_path l) mode) ∧ panic_free (acquire (lock_path l) mode).
Proof.
  unfold acquire, neutral. simpl.
  split; [split; [done|]|]; (intros [[]|e]; [|done]); simpl; [split; [done|]|];
    (intros [[]|e']; [|done]); simpl; [split; [done|]|]; intros [[]|e'']; done.
Qed.

Lemma read_path_neutral p :
  calls_all (neutral l) (read_path p) ∧ panic_free (read_path p).
Proof.
  unfold read_path. simpl. split; [split; [done|]|]; (intros [b|e]; [|by case_decide]);
    destruct (decode_total b) as (r & -> & _); done.
Qed.

(** What a publication leaves: on success the file is renamed and its directory synced. *)
Definition publication_settled (e : bytes) g (x : result unit StoreError) : Prop :=
  match x with Ok _ => ca_stage g = Settled e | Err _ => True end.

Lemma careful_publish_steps u e g :
  is_envelope (ca_uuids g) e → u ∈ ca_uuids g →
  careful l (λ g' x, u ∈ ca_uuids g' ∧ publication_settled e g' x) g
    (publish_steps (object_dir l) (temporary_file l u) (MkPathBuf (object_file l) false) e).
Proof.
  intros He Hu. cbn. refine (conj _ (conj _ _)); [by exists u| |by intros err].
  refine (conj eq_refl (conj _ _)); [|by intros err].
  exists (Ready (temporary_file l u) e).
  refine (conj _ (conj _ _)); [left; by exists e| |by intros err].
  exists e. refine (conj eq_refl (conj eq_refl (conj He (conj _ _)))); [|by intros err].
  exists e. refine (conj eq_refl (conj eq_refl (conj _ _))); [|by intros err].
  exists (Settled e). refine (conj _ (conj _ _)); [right; by exists e|done|by intros err].
Qed.

Lemma careful_publish e g :
  is_envelope (ca_uuids g) e →
  careful l (publication_settled e) g (publish (MkPathBuf (object_file l) false) e).
Proof.
  intros He. unfold publish. cbn [below]. rewrite managed_parent by done. cbn [ok_or].
  rewrite try_bind_Ok. cbn [fs_now_v7 prog_bind careful careful_call]. intros u _.
  change (removelast (object_file l) ++ [temporary_name u]) with (temporary_file l u).
  apply careful_bind. eapply careful_mono; [|apply careful_publish_steps; [|by left]].
  2: { eapply is_envelope_mono; [|exact He]. intros u'. by right. }
  intros g' [[]|err] [Hu Hx]; [done|]. simpl. split; [by exists u|done].
Qed.

(** The bytes a writing operation is given. *)
Definition written (c : call) : option bytes :=
  match c with Create _ b | Replace _ _ b => Some b | _ => None end.

(** The version a writing operation reports. *)
Definition reported (c : call) : reply StoreError c → option Version :=
  match c return reply StoreError c → option Version with
  | Create _ _ | Replace _ _ _ => ok
  | _ => λ _, None
  end.

(** What a writing operation reports it has settled. *)
Definition settled_report (c : call) (g : care) (r : reply StoreError c) : Prop :=
  ∀ v b, reported c r = Some v → written c = Some b →
    ∃ u, (u ≤ uuid_max)%N ∧ v = version_of u ∧ ca_stage g = Settled (envelope u b).

(** A conditional write: an object is encoded and published, or an error is returned. *)
Lemma careful_write {F} (st : StoreError → F) b
    (Q : care → result Version F → Prop) g :
  (N.of_nat (length b) ≤ u64_max)%N →
  (∀ g e, Q g (Err e)) →
  (∀ g u, (u ≤ uuid_max)%N → ca_stage g = Settled (envelope u b) → Q g (Ok (version_of u))) →
  careful l Q g
    (let! ' (version, encoded) := encode b in
     let? _ := prog_map_err st (publish (MkPathBuf (object_file l) false) encoded) in
     Ret (Ok version)).
Proof.
  intros Hb HE HO. cbn [encode fs_now_v7 prog_bind careful careful_call]. intros u Hu.
  apply careful_try, careful_map_err. eapply careful_mono;
    [|apply careful_publish; exists u, b; split_and!; [done|by left|done..]].
  intros g' [x|e] Hx; simpl; [by apply HO|done].
Qed.

(** An operation that prepares its path, takes the lock, reads and continues. *)
Lemma careful_locked {F} (st : StoreError → F) (body : PathBuf → option Object → fs (result Version F))
    (Q : care → result Version F → Prop) g :
  (∀ g e, Q g (Err e)) →
  (∀ g o, careful l Q g (body (MkPathBuf (object_file l) false) o)) →
  careful l Q g
    (let? p := prog_map_err st (prepare_path l) in
     let? lock := prog_map_err st (acquire (lock_path l) Exclusive) in
     scoped lock
       (let? current := prog_map_err st (read_path p) in body p current)).
Proof.
  intros HE HB. apply careful_try, careful_map_err, careful_neutral;
    [apply prepare_path_neutral..|]. intros cs [p|e] Hp; [|apply HE].
  apply prepare_path_returns in Hp as ->. cbn [map_err].
  apply careful_try, careful_map_err, careful_neutral; [apply acquire_neutral..|].
  intros cs' [lock|e] _; [|apply HE]. cbn [map_err]. unfold scoped. apply careful_bind.
  apply careful_try, careful_map_err, careful_neutral; [apply read_path_neutral..|].
  intros cs'' [o|e] _; cbn [map_err]; [|split; [done|intros r; apply HE]].
  eapply careful_mono; [|apply HB]. intros g' r Hr. by split.
Qed.

Lemma careful_op c g :
  call_ok c → call_location c = l →
  careful l (settled_report c) g (fs_op c).
Proof.
  destruct c as [l'|l' b|l' v b| |]; intros Hok Hloc; simpl in Hloc; subst; try done.
  - simpl. unfold Filesystem.get. apply careful_try, careful_neutral; [apply object_path_neutral..|].
    intros cs [p|e] _; [|by intros v b]. apply careful_try, careful_neutral; [apply acquire_neutral..|].
    intros cs' [lock|e] _; [|by intros v b]. unfold scoped. apply careful_bind.
    apply careful_neutral; [apply read_path_neutral..|]. intros cs'' r _. split; [done|].
    intros []. by intros v b.
  - apply careful_locked; [by intros g' e v b'|]. intros g' [o|]; [by intros v b'|].
    apply careful_write; [apply Hok|by intros g'' e v b'|].
    intros g'' u Hu Hst v b' [= <-] [= <-]. by exists u.
  - apply careful_locked; [by intros g' e v' b'|]. intros g' o. case_decide; [|by intros v' b'].
    apply careful_write; [apply Hok|by intros g'' e v' b'|].
    intros g'' u Hu Hst v' b' [= <-] [= <-]. by exists u.
Qed.
End Operations.
