(* ===== verification/Durability.v ===== *)
(** * What a power loss may leave, call by call

    [disk_ok] relates the disk, the record of renames and what every running operation
    knows about its files.  [careful_step]: every call of a [careful] operation keeps it,
    and what was [settled] stays so ([advance_settled]). *)

From S2P Require Import Prelude.
From S2P Require Import Program.
From S2P Require Import ObjectStore.
From S2P Require Import Linearization.
From S2P Require Import FileSystem.
From S2P Require Import Envelope.
From S2P Require Import FilesystemStore.
From S2P Require Import FilesystemMachine.
From S2P Require Import FilesystemPaths.
From S2P Require Import FilesystemRules.
From S2P Require Import FilesystemLinearizable.
From S2P Require Import PowerLoss.
From S2P Require Import CarefulWrites.
Import Filesystem FsError.

(** ** Frames of the disk *)

(** The paths whose entry or contents a call may change, besides making directories. *)
Definition changes (ns : nodes) (fc : fs_call) (q : path) : Prop :=
  q ∈ touched fc ∨ (fc = SyncAll q ∧ ∃ b, node_at ns q = Some (File b)).

Section Frames.
Context `{!UuidCrate}.
Implicit Types (d : disk) (ns : nodes) (p q : path) (x : survivor) (s : fs_state).

Lemma trail_at_sync dir d q :
  now (trail_at (sync_entries dir d) q) = now (trail_at d q) ∧
  earlier (trail_at (sync_entries dir d) q) =
    if decide (parent q = Some dir) then [] else earlier (trail_at d q).
Proof.
  unfold trail_at, sync_entries. rewrite map_lookup_imap.
  destruct (d !! q) as [x|]; simpl; by case_decide.
Qed.

Lemma file_at_Some ns q b : file_at ns q = Some b ↔ ns !! q = Some (File b).
Proof. unfold file_at. repeat case_match; naive_solver. Qed.

(** What a call leaves of the other paths. *)
Lemma disk_frame ns ns' fc (r : fs_reply fc) d q :
  ¬ changes ns fc q →
  (∀ x, x ∈ survivors (disk_effect ns ns' fc r d) q →
     x ∈ survivors d q ∨ (x = Folder ∧ file_at ns q = None)) ∧
  (is_Some (file_at ns q) →
     now (trail_at (disk_effect ns ns' fc r d) q) = now (trail_at d q)).
Proof.
  intros Hc. assert (q ∉ touched fc) as Hq by (intros Hin; by apply Hc; left).
  destruct fc as [p|p|p|p|p m|p|p|p b|p|p p'|p|p|]; cbn [disk_effect touched] in *;
    try by split; [intros x Hx; left|].
  - assert (∀ l, let d' := foldr (λ q d, if decide (ns !! q = None ∧ ns' !! q = Some Dir)
        then set_entry q Folder d else d) d l in
      (∀ x, x ∈ survivors d' q → x ∈ survivors d q ∨ (x = Folder ∧ file_at ns q = None)) ∧
      (is_Some (file_at ns q) → now (trail_at d' q) = now (trail_at d q))) as Hfold; [|apply Hfold].
    intros l d'. unfold d'. clear d'. induction l as [|p' l IH]; cbn [foldr]; [by split; [left|]|].
    case_decide as Hnew; [|exact IH]. unfold set_entry, survivors.
    destruct (decide (q = p')) as [->|Hne].
    + rewrite trail_at_insert_eq. cbn [now earlier]. split.
      * intros x [->|Hx]%elem_of_cons; [right; split; [done|]|by apply IH].
        unfold file_at. by rewrite (proj1 Hnew).
      * intros [b Hb%file_at_Some]. rewrite Hb in Hnew. by destruct Hnew.
    + rewrite trail_at_insert by done. exact IH.
  - case_decide; unfold set_entry, survivors; rewrite ?trail_at_insert by set_solver;
      by split; [left|].
  - destruct (is_ok r); unfold set_entry, survivors; rewrite ?trail_at_insert by set_solver;
      by split; [left|].
  - unfold set_data, survivors. case_match; rewrite ?trail_at_insert by set_solver;
      by split; [left|].
  - destruct (is_ok r); [|by split; [left|]].
    destruct (node_at ns p) as [[|b|]|] eqn:Hn; try by split; [left|].
    + destruct (trail_at_sync p d q) as [Hnow Hear]. unfold survivors. rewrite Hnow, Hear.
      split; [|done]. intros x Hx. left. case_decide; set_solver.
    + assert (q ≠ p) as Hne.
      { intros ->. apply Hc. right. eauto. }
      unfold set_data, survivors. rewrite trail_at_insert by done. by split; [left|].
  - destruct (is_ok r); unfold set_entry, survivors; rewrite ?trail_at_insert by set_solver;
      by split; [left|].
  - destruct (is_ok r); unfold set_entry, survivors; rewrite ?trail_at_insert by set_solver;
      by split; [left|].
Qed.

(** A directory stays one. *)
Lemma dir_stays t s fc r s' q :
  fs_effect t s fc r s' → node_at (tree s) q = Some Dir → node_at (tree s') q = Some Dir.
Proof.
  intros Hs Hq. destruct q as [|c q]; [done|]. simpl in *.
  assert (∀ p ns cur, ns !! (c :: q) = Some Dir → (fs_mkdirs ns cur p).2 !! (c :: q) = Some Dir)
    as Hmk.
  { induction p as [|n p IH]; intros ns cur Hn; [done|]. cbn [fs_mkdirs].
    destruct (ns !! (cur ++ [n])) as [[]|] eqn:Hc; try done; [by apply IH|].
    apply IH. rewrite lookup_insert_ne; [done|congruence]. }
  assert (∀ ns p b, ns !! (c :: q) = Some Dir → fs_append ns p b !! (c :: q) = Some Dir) as Happ.
  { intros ns p b Hn. unfold fs_append. repeat case_match; try done.
    rewrite lookup_insert_ne; [done|congruence]. }
  destruct Hs as [(u & _ & _ & Hs)|Hs].
  - destruct fc; cbn [fs_normal] in Hs; simplify_eq/=; try done.
    + specialize (Hmk p (tree s) [] Hq). by destruct (fs_mkdirs (tree s) [] p); simplify_eq/=.
    + destruct (fs_open_create (tree s) p) as [r' ns] eqn:Ho; simplify_eq/=.
      unfold fs_open_create in Ho. repeat case_match; simplify_eq; try done.
      rewrite lookup_insert_ne; [done|]. intros ->. simpl in *. congruence.
    + by case_decide; simplify_eq/=.
    + destruct (fs_create_new (tree s) p) as [r' ns] eqn:Ho; simplify_eq/=.
      unfold fs_create_new in Ho. repeat case_match; simplify_eq; try done.
      rewrite lookup_insert_ne; [done|]. intros ->. simpl in *. congruence.
    + by apply Happ.
    + destruct (fs_rename (tree s) p q0) as [r' ns] eqn:Ho; simplify_eq/=.
      unfold fs_rename in Ho. repeat case_match; simplify_eq; try done.
      all: rewrite lookup_insert_ne, lookup_delete_ne;
        [done|congruence|intros Heq; rewrite Heq in *; simpl in *; congruence].
    + destruct (fs_remove_file (tree s) p) as [r' ns] eqn:Ho; simplify_eq/=.
      unfold fs_remove_file in Ho. repeat case_match; simplify_eq; try done.
      all: rewrite lookup_delete_ne; [done|intros ->; simpl in *; congruence].
  - destruct fc; cbn [fs_faulty fs_partial] in Hs; try done;
      destruct Hs as (_ & ns' & Hns & ->); simpl; subst; try done.
    + destruct Hns as (p' & _ & ->). by apply Hmk.
    + destruct Hns as (b' & _ & ->). by apply Happ.
Qed.
End Frames.

(** ** The invariant *)

Record dthread := MkDThread {
  dt_call : call;
  dt_prog : fs (reply StoreError dt_call);
  dt_care : care;
}.

Definition dt_loc (h : dthread) : Location := call_location (dt_call h).

Section Invariant.
Context `{UuidLaws}.
Implicit Types (s : fs_state) (d : disk) (log ext : list (path * bytes)) (t : nat)
  (h : dthread) (hs : gmap nat dthread) (g : care) (l : Location) (q : path) (u : Uuid)
  (ns : nodes).

(** A power loss leaves the object [e], or one that was renamed into place after it. *)
Definition settled d log l (e : bytes) : Prop :=
  ∃ i, log !! i = Some (object_file l, e) ∧
    ∀ x, x ∈ survivors d (object_file l) →
      ∃ j e', i ≤ j ∧ log !! j = Some (object_file l, e') ∧ x = Whole e'.

Definition stage_ok ns d log l g : Prop :=
  match ca_stage g with
  | NoFile => True
  | Made q => owns l g q ∧ file_at ns q = Some []
  | Wrote q e => owns l g q ∧ file_at ns q = Some e
  | Ready q e => owns l g q ∧ file_at ns q = Some e ∧ now (trail_at d q) = Whole e
  | Placed e => ∃ i, log !! i = Some (object_file l, e)
  | Opened e => (∃ i, log !! i = Some (object_file l, e)) ∧ node_at ns (object_dir l) = Some Dir
  | Settled e => settled d log l e
  end.

Record care_ok s d log h : Prop := MkCareOk {
  co_managed : managed (dt_loc h) = true;
  co_careful : careful (dt_loc h) (settled_report (dt_call h)) (dt_care h) (dt_prog h);
  co_stage : stage_ok (tree s) d log (dt_loc h) (dt_care h);
  co_uuids u : u ∈ ca_uuids (dt_care h) → (u ≤ uuid_max)%N ∧ u ∈ drawn s;
}.

(** [ns0] is the tree at the start. *)
Record disk_ok (ns0 : nodes) s d log hs : Prop := MkDiskOk {
  dk_threads t h : hs !! t = Some h → care_ok s d log h;
  dk_uuids t t' h h' u :
    hs !! t = Some h → hs !! t' = Some h' →
    u ∈ ca_uuids (dt_care h) → u ∈ ca_uuids (dt_care h') → t = t';
  dk_log i q e : log !! i = Some (q, e) →
    (∃ l, managed l = true ∧ q = object_file l) ∧ is_envelope (drawn s) e ∧
    is_Some (file_at (tree s) q);
  dk_latest i q e : log !! i = Some (q, e) →
    ∃ j e', i ≤ j ∧ log !! j = Some (q, e') ∧ now (trail_at d q) = Whole e';
  dk_survivors l x : managed l = true → x ∈ survivors d (object_file l) →
    x ≠ Torn ∧ ∀ e, x = Whole e → file_at ns0 (object_file l) = Some e ∨
      is_envelope (drawn s) e;
  dk_present l : managed l = true → is_Some (file_at ns0 (object_file l)) →
    is_Some (file_at (tree s) (object_file l)) ∧
    ∀ x, x ∈ survivors d (object_file l) → ∃ e, x = Whole e;
}.

(** The path and its trail are as they were, a directory made there apart. *)
Definition quiet s s' d d' q : Prop :=
  file_at (tree s') q = file_at (tree s) q ∧
  (∀ x, x ∈ survivors d' q → x ∈ survivors d q ∨ (x = Folder ∧ file_at (tree s) q = None)) ∧
  (is_Some (file_at (tree s) q) → now (trail_at d' q) = now (trail_at d q)).

(** What a call of an operation on [l] does to the others: it changes its own files, and
    possibly renames one to its object, which is then in the record. *)
Record advance s s' d d' l g ext : Prop := MkAdvance {
  av_quiet q : q ≠ lock_path l → ¬ owns l g q → ext = [] ∨ q ≠ object_file l →
    quiet s s' d d' q;
  av_renamed : ext = [] ∨ ∃ e, ext = [(object_file l, e)] ∧ is_envelope (drawn s) e ∧
    file_at (tree s') (object_file l) = Some e ∧ now (trail_at d' (object_file l)) = Whole e ∧
    ∀ x, x ∈ survivors d' (object_file l) → x = Whole e ∨ x ∈ survivors d (object_file l);
  av_dirs q : node_at (tree s) q = Some Dir → node_at (tree s') q = Some Dir;
  av_drawn u : u ∈ drawn s → u ∈ drawn s';
}.

Lemma owns_not_object l l' g : managed l' = true → ¬ owns l g (object_file l').
Proof. intros Hl' (u & _ & Hq). symmetry in Hq. by apply temporary_not_object in Hq. Qed.

(** An object other than the one renamed to is left alone. *)
Lemma advance_object s s' d d' l g ext l' :
  advance s s' d d' l g ext → managed l' = true → ext = [] ∨ l' ≠ l →
  quiet s s' d d' (object_file l').
Proof.
  intros Hav Hl' Hext. apply (av_quiet _ _ _ _ _ _ _ Hav).
  - intros Hq. symmetry in Hq. by apply lock_not_object in Hq.
  - by apply owns_not_object.
  - destruct Hext as [->|Hne]; [by left|right]. by intros ?%object_file_inj.
Qed.

Lemma advance_settled ns0 s s' d d' l g ext log hs l' e :
  disk_ok ns0 s d log hs → advance s s' d d' l g ext → managed l' = true →
  settled d log l' e → settled d' (log ++ ext) l' e.
Proof.
  intros Hok Hav Hl' (i & Hi & Hx). exists i. split; [by apply lookup_app_l_Some|].
  intros x Hx'. destruct (dk_log _ _ _ _ _ Hok i _ _ Hi) as (_ & _ & b & Hb).
  assert (x ∈ survivors d (object_file l') → ∃ j e', i ≤ j ∧
    (log ++ ext) !! j = Some (object_file l', e') ∧ x = Whole e') as Hold.
  { intros (j & e' & ? & Hj & ->)%Hx. exists j, e'.
    split_and!; [done|by apply lookup_app_l_Some|done]. }
  destruct (av_renamed _ _ _ _ _ _ _ Hav) as [Hext|(e' & Hext & _ & _ & _ & Hnew)].
  - destruct (advance_object _ _ _ _ _ _ _ l' Hav Hl' (or_introl Hext)) as (_ & Hsur & _).
    destruct (Hsur x Hx') as [|[_ Hn]]; [by apply Hold|by rewrite Hb in Hn].
  - destruct (decide (l' = l)) as [->|Hne].
    + destruct (Hnew x Hx') as [->|]; [|by apply Hold].
      exists (length log), e'. subst ext. split_and!; [|by rewrite lookup_app_r, Nat.sub_diag|done].
      apply lookup_lt_Some in Hi. lia.
    + destruct (advance_object _ _ _ _ _ _ _ l' Hav Hl' (or_intror Hne)) as (_ & Hsur & _).
      destruct (Hsur x Hx') as [|[_ Hn]]; [by apply Hold|by rewrite Hb in Hn].
Qed.

(** What another operation knows stays true. *)
Lemma advance_own s s' d d' l g ext l' u :
  advance s s' d d' l g ext → managed l = true →
  (∀ u, u ∈ ca_uuids g → (u ≤ uuid_max)%N) → (u ≤ uuid_max)%N → u ∉ ca_uuids g →
  is_Some (file_at (tree s) (temporary_file l' u)) →
  file_at (tree s') (temporary_file l' u) = file_at (tree s) (temporary_file l' u) ∧
  now (trail_at d' (temporary_file l' u)) = now (trail_at d (temporary_file l' u)).
Proof.
  intros Hav Hl Hg Hu Hn Hfile.
  destruct (av_quiet _ _ _ _ _ _ _ Hav (temporary_file l' u)) as (? & _ & Hnow);
    [by apply temporary_not_lock| | |by split; [|apply Hnow]].
  - intros (u' & Hu' & Hq). apply temporary_file_inj in Hq as ->; [done..|by apply Hg].
  - right. by apply temporary_not_object.
Qed.

Lemma advance_stage ns0 s s' d d' l g ext log hs l' g' :
  disk_ok ns0 s d log hs → advance s s' d d' l g ext → managed l = true → managed l' = true →
  (∀ u, u ∈ ca_uuids g → (u ≤ uuid_max)%N) →
  (∀ u, u ∈ ca_uuids g' → (u ≤ uuid_max)%N ∧ u ∉ ca_uuids g) →
  stage_ok (tree s) d log l' g' → stage_ok (tree s') d' (log ++ ext) l' g'.
Proof.
  intros Hok Hav Hl Hl' Hg Hg' Hst.
  assert (∀ q b, owns l' g' q → file_at (tree s) q = Some b →
    file_at (tree s') q = Some b ∧ now (trail_at d' q) = now (trail_at d q)) as Hown.
  { intros q b (u & Hu & ->) Hb. rewrite <- Hb. destruct (Hg' u Hu). by eapply advance_own. }
  unfold stage_ok in *. destruct (ca_stage g') as [|q|q e|q e|e|e|e]; [done| | | | | |].
  - destruct Hst as [Ho Hf]. split; [done|]. by apply Hown.
  - destruct Hst as [Ho Hf]. split; [done|]. by apply Hown.
  - destruct Hst as (Ho & Hf & <-). split; [done|]. by apply Hown.
  - destruct Hst as [i Hi]. exists i. by apply lookup_app_l_Some.
  - destruct Hst as [[i Hi] Hd]. split; [exists i; by apply lookup_app_l_Some|].
    by apply (av_dirs _ _ _ _ _ _ _ Hav).
  - by eapply advance_settled.
Qed.

Lemma stage_more ns d log l g uuids :
  (∀ u, u ∈ ca_uuids g → u ∈ uuids) →
  stage_ok ns d log l g → stage_ok ns d log l (MkCare uuids (ca_stage g)).
Proof.
  intros Huu. assert (∀ q, owns l g q → owns l (MkCare uuids (ca_stage g)) q) as Hown.
  { intros q (u & Hu & ->). exists u. split; [by apply Huu|done]. }
  unfold stage_ok. simpl. destruct (ca_stage g); naive_solver.
Qed.

Lemma advance_envelope s s' d d' l g ext e :
  advance s s' d d' l g ext → is_envelope (drawn s) e → is_envelope (drawn s') e.
Proof. intros Hav. apply is_envelope_mono, (av_drawn _ _ _ _ _ _ _ Hav). Qed.

Lemma advance_log ns0 s s' d d' l g ext log hs i q e :
  disk_ok ns0 s d log hs → advance s s' d d' l g ext → managed l = true →
  (log ++ ext) !! i = Some (q, e) →
  (∃ l, managed l = true ∧ q = object_file l) ∧ is_envelope (drawn s') e ∧
    is_Some (file_at (tree s') q) ∧
  ∃ j e', i ≤ j ∧ (log ++ ext) !! j = Some (q, e') ∧ now (trail_at d' q) = Whole e'.
Proof.
  intros Hok Hav Hl Hi.
  assert (∀ i e, log !! i = Some (q, e) → ext = [] ∨ q ≠ object_file l →
    (∃ l, managed l = true ∧ q = object_file l) ∧ is_envelope (drawn s') e ∧
    is_Some (file_at (tree s') q) ∧
    ∃ j e', i ≤ j ∧ (log ++ ext) !! j = Some (q, e') ∧ now (trail_at d' q) = Whole e') as Hold.
  { clear i e Hi. intros i e Hi Hq.
    destruct (dk_log _ _ _ _ _ Hok i q e Hi) as ((l' & Hl' & ->) & He & Hf).
    destruct (advance_object _ _ _ _ _ _ _ l' Hav Hl') as (Hsame & _ & Hnow); [naive_solver|].
    split_and!; [by eauto|by eapply advance_envelope|by rewrite Hsame|]. rewrite Hnow by done.
    destruct (dk_latest _ _ _ _ _ Hok i _ e Hi) as (j & e' & Hij & Hj & Hn).
    exists j, e'. split_and!; [done|by apply lookup_app_l_Some|done]. }
  destruct (av_renamed _ _ _ _ _ _ _ Hav) as [->|(e' & -> & He' & Hf & Hn & _)].
  - rewrite app_nil_r in Hi. eapply Hold; eauto.
  - destruct (decide (q = object_file l)) as [->|Hq].
    + assert (is_envelope (drawn s) e) as He.
      { apply lookup_app_Some in Hi as [Hi|[_ Hi]];
          [by apply (dk_log _ _ _ _ _ Hok i _ e Hi)|].
        by apply list_lookup_singleton_Some in Hi as [_ [= <-]]. }
      split_and!; [by eauto|by eapply advance_envelope|by rewrite Hf|]. exists (length log), e'.
      apply lookup_lt_Some in Hi as Hlt. rewrite length_app in Hlt. simpl in Hlt.
      split_and!; [lia|by rewrite lookup_app_r, Nat.sub_diag|done].
    + apply lookup_app_Some in Hi as [Hi|[_ Hi]]; [eapply Hold; eauto|].
      apply list_lookup_singleton_Some in Hi as [_ [= <- _]]. done.
Qed.

Lemma advance_present ns0 s s' d d' l g ext log hs l' :
  disk_ok ns0 s d log hs → advance s s' d d' l g ext → managed l' = true →
  is_Some (file_at ns0 (object_file l')) →
  is_Some (file_at (tree s') (object_file l')) ∧
  ∀ x, x ∈ survivors d' (object_file l') → ∃ e, x = Whole e.
Proof.
  intros Hok Hav Hl' Hns0. destruct (dk_present _ _ _ _ _ Hok l' Hl' Hns0) as [Hf Hold].
  assert (ext = [] ∨ l' ≠ l → is_Some (file_at (tree s') (object_file l')) ∧
    ∀ x, x ∈ survivors d' (object_file l') → ∃ e, x = Whole e) as Hquiet.
  { intros Hext. destruct (advance_object _ _ _ _ _ _ _ l' Hav Hl' Hext) as (-> & Hsur & _).
    split; [done|]. intros x Hx. destruct (Hsur x Hx) as [|[_ Hn]]; [by apply Hold|].
    rewrite Hn in Hf. by destruct Hf. }
  destruct (av_renamed _ _ _ _ _ _ _ Hav) as [Hext|(e & _ & _ & He & _ & Hnew)]; [by auto|].
  destruct (decide (l' = l)) as [->|Hne]; [|by auto].
  rewrite He. split; [done|]. intros x [->|Hx]%Hnew; [by eexists|by apply Hold].
Qed.

Lemma advance_survivors ns0 s s' d d' l g ext log hs l' x :
  disk_ok ns0 s d log hs → advance s s' d d' l g ext →
  managed l' = true → x ∈ survivors d' (object_file l') →
  x ≠ Torn ∧ ∀ e, x = Whole e → file_at ns0 (object_file l') = Some e ∨
    is_envelope (drawn s') e.
Proof.
  intros Hok Hav Hl' Hx.
  assert (x ∈ survivors d (object_file l') → x ≠ Torn ∧ ∀ e, x = Whole e →
    file_at ns0 (object_file l') = Some e ∨ is_envelope (drawn s') e) as Hold.
  { intros Hx'. destruct (dk_survivors _ _ _ _ _ Hok l' x Hl' Hx') as [Ht Hw].
    split; [done|]. intros e [?|?]%Hw; [by left|right]. by eapply advance_envelope. }
  destruct (av_renamed _ _ _ _ _ _ _ Hav) as [Hext|(e & _ & He & _ & _ & Hnew)].
  - destruct (advance_object _ _ _ _ _ _ _ l' Hav Hl' (or_introl Hext)) as (_ & Hsur & _).
    destruct (Hsur x Hx) as [|[-> _]]; [by apply Hold|done].
  - destruct (decide (l' = l)) as [->|Hne].
    + destruct (Hnew x Hx) as [->|]; [|by apply Hold]. split; [done|]. intros e' [= <-]. right.
      by eapply advance_envelope.
    + destruct (advance_object _ _ _ _ _ _ _ l' Hav Hl' (or_intror Hne)) as (_ & Hsur & _).
      destruct (Hsur x Hx) as [|[-> _]]; [by apply Hold|done].
Qed.

Lemma advance_ok ns0 s s' d d' ext log hs t h h' :
  disk_ok ns0 s d log hs → hs !! t = Some h →
  advance s s' d d' (dt_loc h) (dt_care h) ext → care_ok s' d' (log ++ ext) h' →
  (∀ u, u ∈ ca_uuids (dt_care h') → u ∈ ca_uuids (dt_care h) ∨ u ∉ drawn s) →
  disk_ok ns0 s' d' (log ++ ext) (<[t := h']> hs).
Proof.
  intros Hok Hh Hav Hh' Huu.
  destruct (dk_threads _ _ _ _ _ Hok t h Hh) as [Hl _ _ Hg].
  assert (∀ t' h'' u, hs !! t' = Some h'' → t' ≠ t → u ∈ ca_uuids (dt_care h') →
    u ∉ ca_uuids (dt_care h'')) as Hdis.
  { intros t' h'' u Hh'' Ht' [Hu|Hu]%Huu Hu''.
    - apply Ht'. by eapply (dk_uuids _ _ _ _ _ Hok).
    - by apply Hu, (co_uuids _ _ _ _ (dk_threads _ _ _ _ _ Hok t' h'' Hh'')). }
  split.
  - intros t' h'' [[<- <-]|[Ht' Hh'']]%lookup_insert_Some; [done|].
    destruct (dk_threads _ _ _ _ _ Hok t' h'' Hh'') as [Hl' Hp Hst Hg'].
    split; [done..| |].
    + eapply advance_stage; [done..|by intros u Hu; apply Hg| |done]. intros u Hu.
      split; [by apply Hg'|]. intros Hu'. apply Ht'. by eapply (dk_uuids _ _ _ _ _ Hok).
    + intros u [??]%Hg'. split; [done|]. by apply (av_drawn _ _ _ _ _ _ _ Hav).
  - intros t1 t2 h1 h2 u [[<- <-]|[Ht1 H1]]%lookup_insert_Some
      [[<- <-]|[Ht2 H2]]%lookup_insert_Some Hu1 Hu2; [done|..].
    + by destruct (Hdis t2 h2 u).
    + by destruct (Hdis t1 h1 u).
    + by eapply (dk_uuids _ _ _ _ _ Hok).
  - intros i q e Hi. destruct (advance_log _ _ _ _ _ _ _ _ _ _ _ _ _ Hok Hav Hl Hi) as (? & ? & ? & _).
    done.
  - intros i q e Hi. by destruct (advance_log _ _ _ _ _ _ _ _ _ _ _ _ _ Hok Hav Hl Hi) as (_ & _ & _ & ?).
  - intros l' x. by eapply advance_survivors.
  - intros l'. by eapply advance_present.
Qed.

(** ** One call *)

Lemma fs_effect_sync t s q (r : fs_reply (SyncAll q)) s' :
  fs_effect t s (SyncAll q) r s' → tree s' = tree s.
Proof. intros [(u & _ & _ & [= _ <-])|(_ & ns & -> & ->)]; done. Qed.

Lemma fs_effect_open_dir t s q s' :
  fs_effect t s (OpenDir q) (Ok tt) s' → node_at (tree s') q = Some Dir.
Proof.
  intros [(u & _ & _ & Hs)|((e & [=] & _) & _)]. simpl in Hs. simplify_eq. repeat case_match; by simplify_eq.
Qed.

Lemma fs_effect_now t s u s' :
  fs_effect t s FsNowV7 u s' → (u ∉ drawn s) ∧ drawn s' = drawn s ++ [u] ∧ (u ≤ uuid_max)%N.
Proof. intros [(u' & ? & ? & [= <- <-])|[]]. done. Qed.

Lemma fs_effect_drawn t s fc r s' u : fs_effect t s fc r s' → u ∈ drawn s → u ∈ drawn s'.
Proof.
  intros Hs Hu. destruct (tree_only fc) eqn:Htree.
  - by destruct (fs_effect_tree_only _ _ _ _ _ Htree Hs) as [_ ->].
  - destruct fc; try done; [|by destruct Hs as [(u' & _ & _ & [= _ <-])|[]]|].
    + destruct Hs as [(u' & _ & _ & Hs)|(_ & ns & _ & ->)]; [|done]. simpl in Hs.
      case_decide; by simplify_eq/=.
    + apply fs_effect_now in Hs as (_ & -> & _). set_solver.
Qed.

(** A call that changes only the operation's own files. *)
Lemma advance_still t s fc r s' d l g :
  fs_effect t s fc r s' → renamed (tree s) fc r = [] →
  (∀ q, changes (tree s) fc q → q = lock_path l ∨ owns l g q) →
  advance s s' d (disk_effect (tree s) (tree s') fc r d) l g (renamed (tree s) fc r).
Proof.
  intros Hs -> Hch. split.
  - intros q Hlock Hown _. assert (¬ changes (tree s) fc q) as Hq by naive_solver.
    split; [|by apply disk_frame]. eapply fs_effect_frame; [done|]. intros Hin. apply Hq. by left.
  - by left.
  - intros q. by eapply dir_stays.
  - intros u. by eapply fs_effect_drawn.
Qed.

(** What the operation knows after a call, and what the call did to the others. *)
Record progress s s' d d' log ext l g g' : Prop := MkProgress {
  pg_advance : advance s s' d d' l g ext;
  pg_stage : stage_ok (tree s') d' (log ++ ext) l g';
  pg_uuids : (ca_uuids g' = ca_uuids g) ∨
    ∃ u, ca_uuids g' = u :: ca_uuids g ∧ (u ∉ drawn s) ∧ u ∈ drawn s' ∧ (u ≤ uuid_max)%N;
}.

Section Step.
Context (ns0 : nodes) (s s' : fs_state) (d : disk) (log : list (path * bytes))
  (hs : gmap nat dthread) (t : nat) (h : dthread).
Hypothesis Hok : disk_ok ns0 s d log hs.
Hypothesis Hh : hs !! t = Some h.
Implicit Types (fc : fs_call).

Abbreviation after fc r := (progress s s' d (disk_effect (tree s) (tree s') fc r d) log
  (renamed (tree s) fc r) (dt_loc h) (dt_care h)).

Lemma owned_managed : managed (dt_loc h) = true.
Proof. by apply (dk_threads _ _ _ _ _ Hok t h). Qed.

Lemma neutral_step fc r uuids :
  neutral (dt_loc h) fc ∨ fc = FsNowV7 → fs_effect t s fc r s' →
  (uuids = ca_uuids (dt_care h) ∨
    ∃ u, uuids = u :: ca_uuids (dt_care h) ∧ (u ∉ drawn s) ∧ u ∈ drawn s' ∧ (u ≤ uuid_max)%N) →
  after fc r (MkCare uuids (ca_stage (dt_care h))).
Proof.
  intros Hfc Hs Huu. destruct (dk_threads _ _ _ _ _ Hok t h Hh) as [Hl _ Hst Hg].
  assert (∀ g, advance s s' d (disk_effect (tree s) (tree s') fc r d) (dt_loc h) g
    (renamed (tree s) fc r)) as Hav.
  { intros g. apply (advance_still t); [done| |].
    - by destruct Hfc as [Hfc| ->]; [destruct fc|].
    - intros q [Hq|[-> _]]; [|by destruct Hfc]. left.
      destruct Hfc as [Hfc| ->]; [|by apply elem_of_nil in Hq].
      destruct fc; simpl in *; try done; try by apply elem_of_nil in Hq. set_solver. }
  split; [apply Hav| |done].
  apply stage_more; [destruct Huu as [->|(u & -> & _)]; set_solver|].
  apply (advance_stage ns0 s s' d _ _ (MkCare [] NoFile) _ log hs _ (dt_care h) Hok (Hav _));
    [done..|by intros ? ?%elem_of_nil| |done].
  intros u Hu. split; [by apply Hg|apply not_elem_of_nil].
Qed.

(** A call on the operation's temporary file. *)
Lemma temporary_step fc r q st :
  fs_effect t s fc r s' → renamed (tree s) fc r = [] →
  (∀ q', changes (tree s) fc q' → q' = q) → owns (dt_loc h) (dt_care h) q →
  stage_ok (tree s') (disk_effect (tree s) (tree s') fc r d) log (dt_loc h)
    (at_stage st (dt_care h)) →
  after fc r (at_stage st (dt_care h)).
Proof.
  intros Hs Hren Hch Hown Hst. split; [|by rewrite Hren, app_nil_r|by left].
  apply (advance_still t); [done..|]. intros q' ->%Hch. by right.
Qed.

Lemma create_new_step q r :
  owns (dt_loc h) (dt_care h) q → fs_effect t s (CreateNewFile q) r s' →
  after (CreateNewFile q) r (at_stage (if is_ok r then Made q else NoFile) (dt_care h)).
Proof.
  intros Hq Hs. apply (temporary_step _ _ q); [done..| |done|].
  - intros q' [Hin|[[=] _]]. set_solver.
  - destruct r as [[]|e]; [|done]. split; [done|]. by eapply fs_effect_create_new.
Qed.

Lemma write_step q b r :
  ca_stage (dt_care h) = Made q → fs_effect t s (WriteAll q b) r s' →
  after (WriteAll q b) r (at_stage (if is_ok r then Wrote q b else NoFile) (dt_care h)).
Proof.
  intros Hst Hs. pose proof (co_stage _ _ _ _ (dk_threads _ _ _ _ _ Hok t h Hh)) as Hq.
  unfold stage_ok in Hq. rewrite Hst in Hq. destruct Hq as [Hq Hempty].
  apply (temporary_step _ _ q); [done..| |done|].
  - intros q' [Hin|[[=] _]]. set_solver.
  - destruct (fs_effect_write _ _ _ _ _ _ Hempty Hs) as (b' & Hb' & Hr).
    destruct r as [[]|e]; [|done]. rewrite Hr in Hb' by done. done.
Qed.

Lemma remove_step q r :
  owns (dt_loc h) (dt_care h) q → fs_effect t s (RemoveFile q) r s' →
  after (RemoveFile q) r (at_stage NoFile (dt_care h)).
Proof.
  intros Hq Hs. apply (temporary_step _ _ q); [done..| |done|done].
  intros q' [Hin|[[=] _]]. set_solver.
Qed.

Lemma sync_file_step q b r :
  ca_stage (dt_care h) = Wrote q b → fs_effect t s (SyncAll q) r s' →
  after (SyncAll q) r (at_stage (if is_ok r then Ready q b else NoFile) (dt_care h)).
Proof.
  intros Hst Hs. pose proof (co_stage _ _ _ _ (dk_threads _ _ _ _ _ Hok t h Hh)) as Hq.
  unfold stage_ok in Hq. rewrite Hst in Hq. destruct Hq as [Hq Hb].
  apply (temporary_step _ _ q); [done..| |done|].
  - intros q' [Hin|[[= ->] _]]; [by apply elem_of_nil in Hin|done].
  - destruct r as [[]|e]; [|done].
    assert (node_at (tree s) q = Some (File b)) as Hn.
    { destruct Hq as (u & _ & ->). apply file_at_Some in Hb. unfold temporary_file in *.
      by destruct (removelast _). }
    cbn [disk_effect is_ok]. rewrite Hn, (fs_effect_sync _ _ _ _ _ Hs).
    split_and!; [done|done|]. unfold set_data. by rewrite trail_at_insert_eq.
Qed.

Lemma open_dir_step e r :
  ca_stage (dt_care h) = Placed e → fs_effect t s (OpenDir (object_dir (dt_loc h))) r s' →
  after (OpenDir (object_dir (dt_loc h))) r
    (at_stage (if is_ok r then Opened e else NoFile) (dt_care h)).
Proof.
  intros Hst Hs. pose proof (co_stage _ _ _ _ (dk_threads _ _ _ _ _ Hok t h Hh)) as Hq.
  unfold stage_ok in Hq. rewrite Hst in Hq. split; [| |by left].
  - apply (advance_still t); [done..|].
    intros q' [Hin|[[=] _]]. by apply elem_of_nil in Hin.
  - destruct r as [[]|e']; [|done]. cbn [renamed is_ok]. rewrite app_nil_r.
    split; [done|]. by eapply fs_effect_open_dir.
Qed.

(** The directory of the object is synced: what was renamed last into it stays. *)
Lemma sync_dir_step e r :
  ca_stage (dt_care h) = Opened e → fs_effect t s (SyncAll (object_dir (dt_loc h))) r s' →
  after (SyncAll (object_dir (dt_loc h))) r
    (at_stage (if is_ok r then Settled e else NoFile) (dt_care h)).
Proof.
  intros Hst Hs. pose proof (co_stage _ _ _ _ (dk_threads _ _ _ _ _ Hok t h Hh)) as Hq.
  unfold stage_ok in Hq. rewrite Hst in Hq. destruct Hq as [[i Hi] Hdir]. split; [| |by left].
  - apply (advance_still t); [done..|].
    intros q' [Hin|[[= <-] [b Hb]]]; [by apply elem_of_nil in Hin|congruence].
  - destruct r as [[]|e']; [|done]. cbn [renamed is_ok disk_effect]. rewrite app_nil_r, Hdir.
    exists i. split; [done|]. intros x Hx. unfold survivors in Hx.
    destruct (trail_at_sync (object_dir (dt_loc h)) d (object_file (dt_loc h))) as [Hn Hear].
    rewrite Hn, Hear in Hx. rewrite decide_True in Hx by (apply managed_parent, owned_managed).
    apply list_elem_of_singleton in Hx as ->. by eapply (dk_latest _ _ _ _ _ Hok).
Qed.

Lemma rename_step q b r :
  ca_stage (dt_care h) = Ready q b → is_envelope (ca_uuids (dt_care h)) b →
  fs_effect t s (Rename q (MkPathBuf (object_file (dt_loc h)) false)) r s' →
  after (Rename q (MkPathBuf (object_file (dt_loc h)) false)) r
    (at_stage (if is_ok r then Placed b else NoFile) (dt_care h)).
Proof.
  intros Hst Hb Hs. pose proof (co_stage _ _ _ _ (dk_threads _ _ _ _ _ Hok t h Hh)) as Hq.
  unfold stage_ok in Hq. rewrite Hst in Hq. destruct Hq as (Hq & Hfile & Hnow).
  pose proof (co_uuids _ _ _ _ (dk_threads _ _ _ _ _ Hok t h Hh)) as Huu.
  set (o := object_file (dt_loc h)) in *.
  assert (o ≠ q) as Hoq.
  { intros Heq. eapply owns_not_object; [apply owned_managed|]. fold o. by rewrite Heq. }
  destruct r as [[]|e]; cbn [is_ok renamed disk_effect below]; fold o.
  - rewrite Hfile, Hnow.
    assert (trail_at (set_entry o (Whole b) (set_entry q Missing d)) o =
      MkTrail (Whole b) (survivors d o)) as Htrail.
    { unfold set_entry. rewrite trail_at_insert_eq. unfold survivors.
      by rewrite !trail_at_insert. }
    split; [split| |by left]; try fold o.
    + intros q' Hlock Hown [Hnil|Ho]; [done|].
      assert (q' ≠ q) as Hne by (intros ->; done).
      split.
      { eapply fs_effect_frame; [done|]. simpl. set_solver. }
      unfold set_entry, survivors. rewrite !trail_at_insert by done. split; [by left|done].
    + right. exists b. split_and!; [done|eapply is_envelope_mono; [|exact Hb]; apply Huu| | |].
      * by eapply (fs_effect_rename_Ok t s q (MkPathBuf _ false)).
      * by rewrite Htrail.
      * intros x. unfold survivors. rewrite Htrail. cbn [now earlier]. fold o.
        intros [->|Hx]%elem_of_cons; [by left|by right].
    + intros q'. by eapply dir_stays.
    + intros u. by eapply fs_effect_drawn.
    + exists (length log). by rewrite lookup_app_r, Nat.sub_diag.
  - split; [split| |by left].
    + intros q' _ _ _. split; [|by split; [left|]]. by eapply fs_effect_rename_Err.
    + by left.
    + intros q'. by eapply dir_stays.
    + intros u. by eapply fs_effect_drawn.
    + done.
Qed.

Lemma careful_step fc r next :
  careful_call (dt_loc h) fc (dt_care h) next → fs_effect t s fc r s' →
  ∃ g', next r g' ∧ after fc r g'.
Proof.
  intros Hc Hs.
  assert (neutral (dt_loc h) fc → after fc r (dt_care h)) as Hneutral.
  { intros Hn. pose proof (neutral_step fc r _ (or_introl Hn) Hs (or_introl eq_refl)) as Hp.
    by destruct (dt_care h). }
  destruct fc as [p|p|p|p|p m|p|p|p b|p|p p'|p|p|]; cbn [careful_call] in Hc.
  1-6: destruct Hc as [Hn Hnext]; eexists; split; [apply Hnext|by apply Hneutral].
  - destruct Hc as (Hq & Hok1 & Herr). eexists. split; [|by apply create_new_step].
    destruct r as [[]|e]; simpl; auto.
  - destruct Hc as (Hst & Hok1 & Herr). eexists. split; [|by apply write_step].
    destruct r as [[]|e]; simpl; auto.
  - destruct Hc as (st & [(b & Hst & ->)|(b & Hst & -> & ->)] & Hok1 & Herr).
    + eexists. split; [|by eapply sync_file_step]. destruct r as [[]|e]; simpl; auto.
    + eexists. split; [|by eapply sync_dir_step]. destruct r as [[]|e]; simpl; auto.
  - destruct Hc as (b & Hst & -> & Hb & Hok1 & Herr).
    eexists. split; [|by eapply rename_step]. destruct r as [[]|e]; simpl; auto.
  - destruct Hc as (b & Hst & -> & Hok1 & Herr).
    eexists. split; [|by eapply open_dir_step]. destruct r as [[]|e]; simpl; auto.
  - destruct Hc as (Hq & Hnext). eexists. split; [apply Hnext|by apply remove_step].
  - destruct (fs_effect_now _ _ _ _ Hs) as (Hnew & Hd & Hmax).
    exists (MkCare (r :: ca_uuids (dt_care h)) (ca_stage (dt_care h))). split; [by apply Hc|].
    apply neutral_step; [by right|done|]. right. exists r. rewrite Hd. set_solver.
Qed.
End Step.
End Invariant.
