(* ===== verification/DurableWrites.v ===== *)
(** * Durable writes

    Any number of threads run operations of the adapter on one directory, as in
    [FilesystemMachine]; the power fails at any moment ([durable_run], [power_loss]).  No
    object is torn, and a write that was reported stays, when the directory it is in does:
    a directory that was there at the start does.  What is left is a start again
    ([restarted], [found]). *)

From S2P Require Import Prelude.
From S2P Require Import Program.
From S2P Require Import ObjectStore.
From S2P Require Import Linearization.
From S2P Require Import FileSystem.
From S2P Require Import Envelope.
From S2P Require Import FilesystemStore.
From S2P Require Import FilesystemMachine.
From S2P Require Import FilesystemPaths.
From S2P Require Import FilesystemRules.
From S2P Require Import PowerLoss.
From S2P Require Import CarefulWrites.
From S2P Require Import Durability.
Import Filesystem FsError.

(** Everything that is there at the start has been on the disk for long. *)
Record durable_start (x : durable) : Prop := MkDurableStart {
  ds_threads : m_threads (on x) = ∅;
  ds_ops : m_ops (on x) = ∅;
  ds_disk : on_disk x = settled_disk (tree (m_fs (on x)));
  ds_renames : renames x = [];
  ds_rooted : rooted (tree (m_fs (on x)));
}.

Section Runs.
Context `{UuidLaws}.
Implicit Types (x : durable) (hs : gmap nat dthread) (t : nat) (c : call) (l : Location)
  (d : disk) (s : fs_state) (ns : nodes) (p q : path).

(** A run from a start to [x]. *)
Definition durable_run (x0 x : durable) : Prop :=
  durable_start x0 ∧ rtc (dstep call_ok) x0 x.

Definition plain_thread (h : dthread) : thread := MkThread (dt_call h) (dt_prog h).

Lemma plain_lookup hs t c (p : fs (reply StoreError c)) :
  (plain_thread <$> hs) !! t = Some (MkThread c p) → ∃ g, hs !! t = Some (MkDThread c p g).
Proof.
  rewrite lookup_fmap_Some. intros ([c' p' g] & Heq & Ht). unfold plain_thread in Heq.
  simpl in Heq. injection Heq as -> Hp.
  apply (Eqdep_dec.inj_pair2_eq_dec _ (λ c c' : call, decide (c = c'))) in Hp as ->. eauto.
Qed.

Record run_ok ns0 x hs : Prop := MkRunOk {
  ro_disk : disk_ok ns0 (m_fs (on x)) (on_disk x) (renames x) hs;
  ro_threads : m_threads (on x) = plain_thread <$> hs;
  ro_reported t c r v b :
    m_ops (on x) !! t = Some (MkOperation c (Some r)) → reported c r = Some v →
    written c = Some b →
    managed (call_location c) = true ∧
    ∃ u, (u ≤ uuid_max)%N ∧ v = version_of u ∧
      settled (on_disk x) (renames x) (call_location c) (envelope u b);
}.

Ltac fields := cbn [on on_disk renames m_fs m_threads m_ops].

(** ** Operations that begin and end *)

Lemma disk_ok_invoke ns0 s d log hs t c :
  disk_ok ns0 s d log hs → call_ok c →
  disk_ok ns0 s d log (<[t := MkDThread c (fs_op c) (MkCare [] NoFile)]> hs).
Proof.
  intros Hok Hc. assert (managed (call_location c) = true) as Hl.
  { by destruct c; try apply Hc. }
  destruct Hok as [Hth Huu Hlog Hlat Hsur Hpr]. split; [| |done..].
  - intros t' h [[<- <-]|[Ht' Hh]]%lookup_insert_Some; [|by eapply Hth].
    split; [done|by apply careful_op|done|]. by intros u ?%elem_of_nil.
  - intros t1 t2 h1 h2 u [[<- <-]|[Ht1 H1]]%lookup_insert_Some
      [[<- <-]|[Ht2 H2]]%lookup_insert_Some Hu1 Hu2; [done|..].
    + by apply elem_of_nil in Hu1.
    + by apply elem_of_nil in Hu2.
    + by eapply Huu.
Qed.

Lemma disk_ok_end ns0 s s' d log hs t :
  disk_ok ns0 s d log hs → tree s' = tree s → drawn s' = drawn s →
  disk_ok ns0 s' d log (delete t hs).
Proof.
  intros [Hth Huu Hlog Hlat Hsur Hpr] Htree Hdrawn. split; rewrite ?Htree, ?Hdrawn; [| |done..].
  - intros t' h [_ Hh]%lookup_delete_Some. destruct (Hth t' h Hh) as [Hl Hp Hst Hg].
    split; [done..| |]; by rewrite ?Htree, ?Hdrawn.
  - intros t1 t2 h1 h2 u [_ H1]%lookup_delete_Some [_ H2]%lookup_delete_Some. by apply (Huu t1 t2 h1 h2).
Qed.

(** ** Steps *)

Lemma run_invoke ns0 x hs t c tr :
  run_ok ns0 x hs → call_ok c →
  run_ok ns0
    (MkDurable (MkMachine (m_fs (on x)) (<[t := MkThread c (fs_op c)]> (m_threads (on x)))
       (<[t := MkOperation c None]> (m_ops (on x))) tr) (on_disk x) (renames x))
    (<[t := MkDThread c (fs_op c) (MkCare [] NoFile)]> hs).
Proof.
  intros [Hok Hth Hrep] Hc. split; fields;
    [by apply disk_ok_invoke|by rewrite fmap_insert, <- Hth|].
  intros t' c' r v b [[_ [=]]|[_ Ht]]%lookup_insert_Some. by apply (Hrep t').
Qed.

Lemma run_call ns0 x hs t c fc k r s :
  run_ok ns0 x hs → m_threads (on x) !! t = Some (MkThread c (Call fc k)) →
  fs_effect t (m_fs (on x)) fc r s →
  ∃ g, run_ok ns0
    (MkDurable (MkMachine s (<[t := MkThread c (k r)]> (m_threads (on x))) (m_ops (on x))
       (m_trace (on x)))
     (disk_effect (tree (m_fs (on x))) (tree s) fc r (on_disk x))
     (renames x ++ renamed (tree (m_fs (on x))) fc r))
    (<[t := MkDThread c (k r) g]> hs).
Proof.
  intros [Hok Hth Hrep] Ht Hs. rewrite Hth in Ht. apply plain_lookup in Ht as [g Hh].
  destruct (dk_threads _ _ _ _ _ Hok t _ Hh) as [Hl Hp Hst Hg]. cbn [dt_call dt_prog dt_care] in *.
  destruct (careful_step _ _ _ _ _ _ _ _ Hok Hh fc r _ Hp Hs) as (g' & Hp' & [Hav Hst' Huu]).
  exists g'. split; fields.
  - eapply advance_ok; [exact Hok|exact Hh|exact Hav| |].
    + split; [done..|]. cbn [dt_care]. intros u Hu. destruct Huu as [Heq|(u' & Heq & _ & Hd & Hmax)].
      * rewrite Heq in Hu. split; [by apply Hg|]. by apply (av_drawn _ _ _ _ _ _ _ Hav), Hg.
      * rewrite Heq in Hu. apply elem_of_cons in Hu as [->|Hu]; [done|].
        split; [by apply Hg|]. by apply (av_drawn _ _ _ _ _ _ _ Hav), Hg.
    + cbn [dt_care]. intros u Hu. destruct Huu as [Heq|(u' & Heq & Hd & _)]; rewrite Heq in Hu;
        set_solver.
  - by rewrite fmap_insert, <- Hth.
  - intros t' c' r' v b Ht' Hr' Hb. destruct (Hrep t' c' r' v b Ht' Hr' Hb) as (Hl' & u & Hu & Hv & Hse).
    split; [done|]. exists u. split_and!; [done..|]. by eapply advance_settled.
Qed.

Lemma run_return ns0 x hs t c r tr :
  run_ok ns0 x hs → m_threads (on x) !! t = Some (MkThread c (Ret r)) →
  run_ok ns0
    (MkDurable (MkMachine (m_fs (on x)) (delete t (m_threads (on x)))
       (<[t := MkOperation c (Some r)]> (m_ops (on x))) tr) (on_disk x) (renames x))
    (delete t hs).
Proof.
  intros [Hok Hth Hrep] Ht. rewrite Hth in Ht. apply plain_lookup in Ht as [g Hh].
  destruct (dk_threads _ _ _ _ _ Hok t _ Hh) as [Hl Hp Hst _]. cbn [dt_call dt_prog dt_care] in *.
  split; fields.
  - by eapply disk_ok_end.
  - by rewrite fmap_delete, <- Hth.
  - intros t' c' r' v b [[<- Heq]|[_ Ht']]%lookup_insert_Some; [|by apply (Hrep t')].
    injection Heq as <- Hr'.
    apply (Eqdep_dec.inj_pair2_eq_dec _ (λ c c' : call, decide (c = c'))) in Hr' as [= <-].
    intros Hr Hb. split; [done|].
    destruct (Hp v b Hr Hb) as (u & Hu & -> & Hset). exists u. split_and!; [done..|].
    unfold stage_ok in Hst. cbn [dt_loc dt_call dt_care] in Hst. by rewrite Hset in Hst.
Qed.

Lemma run_crash ns0 x hs t :
  run_ok ns0 x hs →
  run_ok ns0
    (MkDurable (MkMachine (release t (m_fs (on x))) (delete t (m_threads (on x))) (m_ops (on x))
       (m_trace (on x))) (on_disk x) (renames x))
    (delete t hs).
Proof.
  intros [Hok Hth Hrep]. split; fields; [| |done].
  - by eapply disk_ok_end.
  - by rewrite fmap_delete, <- Hth.
Qed.

Lemma run_step ns0 x hs x' :
  run_ok ns0 x hs → dstep call_ok x x' → ∃ hs', run_ok ns0 x' hs'.
Proof.
  intros Hok Hstep. destruct Hstep.
  - eexists. by apply run_invoke.
  - edestruct run_call as [g Hg]; [done..|]. by eexists.
  - eexists. by apply run_return.
  - eexists. by apply run_crash.
Qed.

Lemma survivors_settled ns p : survivors (settled_disk ns) p = [survivor_of (ns !! p)].
Proof. unfold survivors, trail_at, settled_disk. rewrite lookup_fmap. by destruct (ns !! p). Qed.

Lemma run_start x : durable_start x → run_ok (tree (m_fs (on x))) x ∅.
Proof.
  intros [Hth Hops Hdisk Hren _]. split.
  - rewrite Hren, Hdisk. split; [done..| | |].
    + intros i q e Hi. by rewrite lookup_nil in Hi.
    + intros l y _ Hy. rewrite survivors_settled in Hy. apply list_elem_of_singleton in Hy as ->.
      destruct (tree (m_fs (on x)) !! object_file l) as [[|b|]|] eqn:Hn; simpl; try done.
      split; [done|]. intros e [= <-]. left. by apply file_at_Some.
    + intros l _ [e He]. split; [by eexists|]. intros y Hy. rewrite survivors_settled in Hy.
      apply file_at_Some in He. rewrite He in Hy. apply list_elem_of_singleton in Hy as ->. by exists e.
  - by rewrite Hth, fmap_empty.
  - intros t c r v b Ht. by rewrite Hops, lookup_empty in Ht.
Qed.

Lemma run_reachable x0 x :
  durable_run x0 x → ∃ hs, run_ok (tree (m_fs (on x0))) x hs.
Proof.
  intros [Hs Hsteps]. apply run_start in Hs. revert Hs.
  generalize (tree (m_fs (on x0))) as ns0. intros ns0. generalize (∅ : gmap nat dthread).
  induction Hsteps as [|x y z Hstep _ IH]; intros hs Hok; [by eexists|].
  destruct (run_step _ _ _ _ Hok Hstep) as [hs' Hok']. by eapply IH.
Qed.

(** ** Directories of the start *)

Lemma touched_dir t s fc r s' d p :
  fs_effect t s fc r s' → p ≠ [] → p ∈ touched fc → tree s !! p = Some Dir →
  disk_effect (tree s) (tree s') fc r d = d.
Proof.
  intros Hs Hne Hp Hdir.
  assert (node_at (tree s) p = Some Dir) as Hn by (by destruct p).
  destruct fc as [q|q|q|q|q m|q|q|q b|q|q q'|q|q|]; try by apply elem_of_nil in Hp.
  - apply list_elem_of_singleton in Hp as <-. cbn [disk_effect].
    rewrite decide_False; [done|]. rewrite Hdir. by intros [_ ?].
  - apply list_elem_of_singleton in Hp as <-.
    destruct Hs as [(u & _ & _ & Hs)|((e & -> & _) & _)]; [|done]. cbn [fs_normal] in Hs.
    unfold fs_create_new in Hs. rewrite Hn in Hs. by simplify_eq.
  - apply list_elem_of_singleton in Hp as <-. cbn [disk_effect]. unfold file_at. by rewrite Hdir.
  - destruct Hs as [(u & _ & _ & Hs)|((e & -> & _) & _)]; [|done]. cbn [fs_normal] in Hs.
    unfold fs_rename in Hs. cbn [touched] in Hp.
    apply elem_of_cons in Hp as [->|Hp%list_elem_of_singleton].
    + rewrite Hdir in Hs. by destruct (node_at (tree s) (below q')) as [[]|]; simplify_eq.
    + subst p. rewrite Hn in Hs. by destruct (tree s !! q) as [[]|]; simplify_eq.
  - apply list_elem_of_singleton in Hp as <-.
    destruct Hs as [(u & _ & _ & Hs)|((e & -> & _) & _)]; [|done]. cbn [fs_normal] in Hs.
    unfold fs_remove_file in Hs. rewrite Hn in Hs. by simplify_eq.
Qed.

(** A directory whose entry is on the disk. *)
Definition kept_dir s d p : Prop :=
  tree s !! p = Some Dir ∧ ∀ y, y ∈ survivors d p → y = Folder.

Lemma kept_dir_call t s fc r s' d p :
  fs_effect t s fc r s' → p ≠ [] → kept_dir s d p →
  kept_dir s' (disk_effect (tree s) (tree s') fc r d) p.
Proof.
  intros Hs Hp [Hdir Hsur]. assert (node_at (tree s) p = Some Dir) as Hn by (by destruct p).
  split; [apply (dir_stays _ _ _ _ _ p) in Hs; by destruct p|].
  intros x Hx. destruct (decide (p ∈ touched fc)) as [Hin|Hin].
  - rewrite (touched_dir _ _ _ _ _ _ _ Hs Hp Hin Hdir) in Hx. auto.
  - destruct (disk_frame (tree s) (tree s') fc r d p) as [Hframe _].
    + intros [?|[-> [b Hb]]]; [done|congruence].
    + by destruct (Hframe x Hx) as [|[? _]]; [auto|].
Qed.

Lemma kept_dir_run ok x0 x p :
  rtc (dstep ok) x0 x → p ≠ [] → kept_dir (m_fs (on x0)) (on_disk x0) p →
  kept_dir (m_fs (on x)) (on_disk x) p.
Proof.
  intros Hsteps Hp. induction Hsteps as [|x y z Hstep _ IH]; intros Hk; [done|]. apply IH.
  destruct Hstep; try done. by eapply kept_dir_call.
Qed.

Lemma start_dirs_survive x0 x ns p :
  durable_run x0 x → power_loss (on_disk x) ns →
  node_at (tree (m_fs (on x0))) p = Some Dir → node_at ns p = Some Dir.
Proof.
  intros [[_ _ Hdisk _ Hroot] Hsteps] Hloss.
  induction p as [|c p IH] using rev_ind; intros Hp; [done|].
  assert (tree (m_fs (on x0)) !! (p ++ [c]) = Some Dir) as Hc by (by destruct p).
  assert (node_at ns p = Some Dir) as Hdir by (apply IH, (Hroot p c); by eexists).
  assert (p ++ [c] ≠ []) as Hne by (by destruct p).
  destruct (kept_dir_run _ _ _ _ Hsteps Hne) as [_ Hsur].
  { split; [done|]. intros x' Hx'. rewrite Hdisk, survivors_settled, Hc in Hx'.
    by apply list_elem_of_singleton in Hx'. }
  destruct (entry_survives _ _ Hloss p c Hdir) as (y & ->%Hsur & Hy).
  assert (ns !! (p ++ [c]) = Some Dir) as Hns.
  { unfold survives_as, survivor_of in Hy. by repeat case_match. }
  by destruct p.
Qed.

(** ** After a power loss *)

Lemma object_path_split l :
  managed l = true → ∃ name, object_file l = object_dir l ++ [name].
Proof.
  intros (_ & (dir & name & Heq & _) & _)%managed_spec. exists name. unfold object_dir.
  by rewrite Heq, removelast_last.
Qed.

Lemma object_survivor d ns l :
  power_loss d ns → managed l = true → node_at ns (object_dir l) = Some Dir →
  ∃ y, y ∈ survivors d (object_file l) ∧ survives_as y (ns !! object_file l).
Proof.
  intros Hloss [name ->]%object_path_split Hdir. by apply Hloss.
Qed.

Lemma object_lost d ns l :
  power_loss d ns → managed l = true → node_at ns (object_dir l) ≠ Some Dir →
  ns !! object_file l = None.
Proof. intros Hloss [name ->]%object_path_split Hdir. by apply Hloss. Qed.

Lemma survives_whole e n : survives_as (Whole e) n → n = Some (File e).
Proof. unfold survives_as, survivor_of. intros. by repeat case_match; simplify_eq. Qed.

Lemma files_found x0 x hs ns l e :
  run_ok (tree (m_fs (on x0))) x hs → power_loss (on_disk x) ns → managed l = true →
  file_at ns (object_file l) = Some e →
  file_at (tree (m_fs (on x0))) (object_file l) = Some e ∨ is_envelope (drawn (m_fs (on x))) e.
Proof.
  intros [Hok _ _] Hloss Hl He%file_at_Some.
  destruct (decide (node_at ns (object_dir l) = Some Dir)) as [Hdir|Hdir];
    [|by rewrite (object_lost _ _ _ Hloss Hl Hdir) in He].
  destruct (object_survivor _ _ _ Hloss Hl Hdir) as (y & Hy & Hsurv).
  destruct (dk_survivors _ _ _ _ _ Hok l y Hl Hy) as [Hy' Hwhole]. apply Hwhole.
  rewrite He in Hsurv. by destruct y; simpl in Hsurv; simplify_eq.
Qed.

(** C5: a power failure at any moment of any number of concurrent operations leaves no
    torn object: the file of an object is whatever it was at the start, or a whole
    envelope; and an object that was there at the start is not lost. *)
Theorem power_loss_leaves_whole_objects x0 x ns l :
  durable_run x0 x → power_loss (on_disk x) ns → managed l = true →
  (∀ e, file_at ns (object_file l) = Some e →
     file_at (tree (m_fs (on x0))) (object_file l) = Some e ∨ ∃ u b, e = envelope u b) ∧
  (is_Some (file_at (tree (m_fs (on x0))) (object_file l)) →
     is_Some (file_at ns (object_file l))).
Proof.
  intros Hrun Hloss Hl. destruct (run_reachable _ _ Hrun) as [hs Hok]. split.
  - intros e He. destruct (files_found _ _ _ _ _ _ Hok Hloss Hl He) as [?|(u & b & ? & _)];
      [by left|right; by exists u, b].
  - destruct Hok as [Hok _ _]. intros Hthere. destruct (dk_present _ _ _ _ _ Hok l Hl Hthere) as [_ Hwhole].
    assert (node_at ns (object_dir l) = Some Dir) as Hdir.
    { apply (start_dirs_survive x0 x); [done..|]. destruct Hthere as [e He%file_at_Some].
      destruct (object_path_split l Hl) as [name Heq]. rewrite Heq in He.
      apply (ds_rooted _ (proj1 Hrun) _ name). by eexists. }
    destruct (object_survivor _ _ _ Hloss Hl Hdir) as (y & Hy & Hsurv).
    destruct (Hwhole y Hy) as [e ->]. exists e. by apply file_at_Some, survives_whole.
Qed.

(** C6: a write that was reported survives a power failure: if the directory of the
    object does, and it does if it was there at the start, then the object is there, as
    the write left it or as one that was renamed into place after it. *)
Theorem reported_writes_survive x0 x ns t c (r : reply StoreError c) v b :
  durable_run x0 x → power_loss (on_disk x) ns →
  m_ops (on x) !! t = Some (MkOperation c (Some r)) → reported c r = Some v →
  written c = Some b →
  node_at ns (object_dir (call_location c)) = Some Dir ∨
    node_at (tree (m_fs (on x0))) (object_dir (call_location c)) = Some Dir →
  let file := object_file (call_location c) in
  ∃ u i j e, v = version_of u ∧ renames x !! i = Some (file, envelope u b) ∧
    i ≤ j ∧ renames x !! j = Some (file, e) ∧ (∃ u b, e = envelope u b) ∧
    file_at ns file = Some e.
Proof.
  intros Hrun Hloss Ht Hr Hb Hdir. destruct (run_reachable _ _ Hrun) as [hs [Hok _ Hrep]].
  destruct (Hrep t c r v b Ht Hr Hb) as (Hl & u & _ & Hv & i & Hi & Hset).
  assert (node_at ns (object_dir (call_location c)) = Some Dir) as Hns.
  { destruct Hdir as [?|Hdir]; [done|]. by apply (start_dirs_survive x0 x). }
  destruct (object_survivor _ _ _ Hloss Hl Hns) as (y & Hy & Hsurv).
  destruct (Hset y Hy) as (j & e & Hij & Hj & ->). exists u, i, j, e.
  split_and!; [done..| |by apply file_at_Some, survives_whole].
  destruct (dk_log _ _ _ _ _ Hok j _ e Hj) as (_ & (u' & b' & He & _) & _). by exists u', b'.
Qed.

(** ** Starting again *)

(** The machine after a power failure that left the tree [ns]. *)
Definition restarted x ns : durable :=
  MkDurable (MkMachine (MkFsState ns ∅ (drawn (m_fs (on x)))) ∅ ∅ []) (settled_disk ns) [].

Definition location_of p : Location := MkLocation (String.concat "/" p).

Lemma location_of_file l : location_of (object_file l) = l.
Proof.
  destruct l as [s]. unfold location_of, object_file, split_slash. simpl.
  by rewrite concat_split_slash_from.
Qed.

Definition found_at (x : path * node) : option (Location * Object) :=
  let l := location_of x.1 in
  match x.2 with
  | File e => if decide (managed l = true ∧ object_file l = x.1) then pair l <$> decoded e else None
  | _ => None
  end.

Lemma found_at_Some p n l o :
  found_at (p, n) = Some (l, o) ↔
  managed l = true ∧ p = object_file l ∧ ∃ e, n = File e ∧ decoded e = Some o.
Proof.
  unfold found_at. simpl. split.
  - destruct n as [|e|]; [done| |done]. case_decide as Hl; [|done]. destruct Hl as [Hl Hp].
    destruct (decoded e) as [o'|] eqn:He; [|done]. intros [= <- <-]. split_and!; [done..|by exists e].
  - intros (Hl & -> & e & -> & He). rewrite location_of_file, decide_True by done. by rewrite He.
Qed.

(** The store of the objects found. *)
Definition found_cur ns : gmap Location Object := list_to_map (omap found_at (map_to_list ns)).

Definition found_hist ns : gmap (Location * Version) bytes :=
  list_to_map ((λ '(l, o), ((l, object_version o), object_bytes o)) <$> map_to_list (found_cur ns)).

Definition found ns : astore := MkAStore (found_cur ns) (found_hist ns) 0.

Lemma found_listed ns l o :
  (l, o) ∈ omap found_at (map_to_list ns) ↔
  managed l = true ∧ ∃ e, file_at ns (object_file l) = Some e ∧ decoded e = Some o.
Proof.
  rewrite list_elem_of_omap. setoid_rewrite file_at_Some. split.
  - intros ([p n] & Hn%elem_of_map_to_list & (Hl & -> & e & -> & He)%found_at_Some). by eauto.
  - intros (Hl & e & He & Ho). exists (object_file l, File e).
    rewrite elem_of_map_to_list. split; [done|]. apply found_at_Some. by eauto.
Qed.

Lemma found_lookup ns l o :
  found_cur ns !! l = Some o ↔
  managed l = true ∧ ∃ e, file_at ns (object_file l) = Some e ∧ decoded e = Some o.
Proof.
  rewrite <- found_listed. split; [apply elem_of_list_to_map_2|].
  intros Ho. apply elem_of_list_to_map_1'; [|done].
  intros o' Ho'. apply found_listed in Ho as (_ & e & He & Ho), Ho' as (_ & e' & He' & Ho').
  congruence.
Qed.

Lemma found_coherent ns : coherent (found ns).
Proof.
  intros l o Ho. simpl in *. apply elem_of_list_to_map_1'.
  - intros b ([l' o'] & [= -> Hv ->] & Ho'%elem_of_map_to_list)%list_elem_of_fmap. congruence.
  - apply list_elem_of_fmap. exists (l, o). split; [done|]. by apply elem_of_map_to_list.
Qed.

Lemma found_hist_Some ns l v b :
  found_hist ns !! (l, v) = Some b → ∃ o, found_cur ns !! l = Some o ∧ object_version o = v.
Proof.
  intros ([l' o] & [= -> -> _] & Ho%elem_of_map_to_list)%elem_of_list_to_map_2%list_elem_of_fmap.
  by exists o.
Qed.

Lemma drawn_run ok x0 x u :
  rtc (dstep ok) x0 x → u ∈ drawn (m_fs (on x0)) → u ∈ drawn (m_fs (on x)).
Proof.
  induction 1 as [|x y z Hstep _ IH]; [done|]. intros Hu. apply IH.
  destruct Hstep; try done. by eapply fs_effect_drawn.
Qed.

(** C7: after a power failure the adapter starts again without a repair: what it finds
    in the tree are the objects of a coherent store whose versions are never drawn
    again, so that what was proved of executions from a start holds of the ones that
    follow, until the next power failure. *)
Theorem power_loss_restarts x0 a0 x ns :
  durable_run x0 x → initial a0 (on x0) → coherent a0 → power_loss (on_disk x) ns →
  durable_start (restarted x ns) ∧ coherent (found ns) ∧ initial (found ns) (on (restarted x ns)) ∧
  ∀ l o, cur (found ns) !! l = Some o → cur a0 !! l = Some o ∨
    ∃ u, u ∈ drawn (m_fs (on x)) ∧ object_version o = version_of u.
Proof.
  intros Hrun Hinit Hcoh Hloss. destruct (run_reachable _ _ Hrun) as [hs Hok].
  assert (∀ l o, cur (found ns) !! l = Some o → cur a0 !! l = Some o ∨
    ∃ u, u ∈ drawn (m_fs (on x)) ∧ (u ≤ uuid_max)%N ∧ object_version o = version_of u) as Hfound.
  { intros l o (Hl & e & He & Ho)%found_lookup.
    destruct (files_found _ _ _ _ _ _ Hok Hloss Hl He) as [Hold|(u & b & -> & Hu & Hmax & Hb)].
    - left. by rewrite (initial_represents _ _ Hinit l Hl), Hold.
    - right. exists u. unfold decoded in Ho. rewrite decode_envelope in Ho by done.
      by simplify_eq. }
  split_and!; [|apply found_coherent| |].
  - split; try done. by eapply power_loss_rooted.
  - split; try done.
    + intros l Hl. apply option_eq. intros o. cbn [cur found]. rewrite found_lookup, bind_Some.
      naive_solver.
    + intros l u Hu [b (o & Ho & Hv)%found_hist_Some].
      destruct (Hfound l o Ho) as [Hold|(u' & Hu' & Hmax & Hv')].
      * apply (drawn_run _ _ _ _ (proj2 Hrun)), (initial_drawn _ _ Hinit l u Hu).
        exists (object_bytes o). rewrite <- Hv. by apply Hcoh.
      * rewrite Hv in Hv'. by apply version_of_inj in Hv' as ->.
  - intros l o [?|(u & ? & _ & ?)]%Hfound; [by left|right; by exists u].
Qed.
End Runs.
