(* ===== verification/FilesystemScenarios.v ===== *)
(** * Scenarios on the filesystem

    A concrete uuid crate, executions of the machine that apply its theorems, and the
    execution that shows why locations have to be normalized. *)

From S2P Require Import Prelude.
From S2P Require Import Program.
From S2P Require Import ObjectStore.
From S2P Require Import Linearization.
From S2P Require Import FileSystem.
From S2P Require Import Envelope.
From S2P Require Import FilesystemStore.
From S2P Require Import FilesystemMachine.
From S2P Require Import FilesystemPaths.
From S2P Require Import FilesystemRules.
From S2P Require Import FilesystemProofs.
From S2P Require Import FilesystemLinearizable.

(** ** A uuid crate *)

#[global] Instance example_uuid : UuidCrate := {|
  uuid_to_string := pretty;
  uuid_as_bytes u := reverse (to_le_bytes 16 u);
  uuid_from_slice b :=
    if decide (length b = 16) then Some (from_le_bytes (reverse b)) else None;
|}.

Lemma from_le_bytes_bound b : (from_le_bytes b < 256 ^ N.of_nat (length b))%N.
Proof.
  induction b as [|c b IH]; [done|]. cbn [from_le_bytes length].
  rewrite Nat2N.inj_succ, N.pow_succ_r'. pose proof (to_N_lt c). lia.
Qed.

#[global] Instance example_uuid_laws : UuidLaws.
Proof.
  split.
  - intros u. change (length (reverse (to_le_bytes 16 u)) = 16).
    by rewrite length_reverse, to_le_bytes_length.
  - intros u Hu.
    change (uuid_from_slice (uuid_as_bytes u)) with
      (if decide (length (reverse (to_le_bytes 16 u)) = 16)
       then Some (from_le_bytes (reverse (reverse (to_le_bytes 16 u)))) else None).
    rewrite decide_True by (by rewrite length_reverse, to_le_bytes_length).
    rewrite reverse_involutive, from_to_le_bytes; [done|].
    change (256 ^ N.of_nat 16)%N with (uuid_max + 1)%N. lia.
  - intros b u.
    change (uuid_as_bytes u) with (reverse (to_le_bytes 16 u)).
    change (uuid_from_slice b) with
      (if decide (length b = 16) then Some (from_le_bytes (reverse b)) else None).
    case_decide as Hb; [|done]. intros [= <-]. split.
    + rewrite <- Hb, <- (length_reverse b), to_from_le_bytes. apply reverse_involutive.
    + pose proof (from_le_bytes_bound (reverse b)) as Hlt. rewrite length_reverse, Hb in Hlt.
      change (256 ^ N.of_nat 16)%N with (uuid_max + 1)%N in Hlt. lia.
  - intros b Hb. simpl. rewrite decide_True by done. by eexists.
  - intros u u' _ _ Heq. by apply (inj pretty) in Heq.
Qed.

(** ** An empty store *)

Definition empty_machine : machine :=
  MkMachine (MkFsState {[[Filesystem.LOCKS] := Dir]} ∅ []) ∅ ∅ [].

Lemma empty_initial : initial empty_astore empty_machine.
Proof.
  split; try done.
  - intros l Hl. unfold file_at. simpl. rewrite lookup_empty.
    destruct (decide (object_file l = [Filesystem.LOCKS])) as [->|Hne].
    + by rewrite lookup_singleton_eq.
    + by rewrite lookup_singleton_ne.
  - intros l u _ [? Hh]. simpl in Hh. by rewrite lookup_empty in Hh.
Qed.

Definition acts (t n : nat) : list fs_action := repeat (Act t) n.

Definition map_location : Location := MkLocation "default/maps/settings.json".

(** Client 0 creates an object and is interrupted, about to write its temporary file,
    by client 1, which wants to create the object too and finds the lock taken; client
    0 crashes after its rename; client 1 finds the object; client 2 reads it. *)
Definition race : list fs_action :=
  [Invoke 0 (Create map_location (bytes_of_string "a"))] ++ acts 0 12 ++
  [Invoke 1 (Create map_location (bytes_of_string "b"))] ++ acts 1 9 ++ acts 0 3 ++
  [Crash 0] ++ acts 1 4 ++ [Invoke 2 (Get map_location)] ++ acts 2 9.

Definition after_race : machine := default empty_machine (fs_schedule race empty_machine).

Lemma race_reachable : rtc (mstep call_ok) empty_machine after_race.
Proof.
  apply (fs_schedule_reachable _ race); [|vm_compute; reflexivity].
  repeat constructor; vm_compute; reflexivity || discriminate.
Qed.

(** The replies clients 1 and 2 got. *)
Lemma race_replies :
  m_ops after_race !! 0 =
    Some (MkOperation (Create map_location (bytes_of_string "a")) None) ∧
  m_ops after_race !! 1 =
    Some (MkOperation (Create map_location (bytes_of_string "b"))
            (Some (Err (CreateAlreadyExists (version_of 0))))) ∧
  m_ops after_race !! 2 =
    Some (MkOperation (Get map_location)
            (Some (Ok (Some (MkObject (bytes_of_string "a") (version_of 0)))))).
Proof. split_and!; vm_compute; reflexivity. Qed.

Lemma filesystem_linearizable_witness :
  ∃ ops order a, directory_linearizes empty_astore after_race ops order a ∧
    cur a !! map_location = Some (MkObject (bytes_of_string "a") (version_of 0)).
Proof.
  destruct (filesystem_linearizable _ _ _ empty_initial race_reachable)
    as (ops & order & a & Hlin).
  exists ops, order, a. split; [exact Hlin|]. destruct Hlin as [_ Hrep].
  rewrite (Hrep map_location eq_refl). vm_compute. reflexivity.
Defined.

(** Client 1 waits for the lock of client 0, which is not waiting. *)
Definition blocked : machine :=
  default empty_machine (fs_schedule (take 24 race) empty_machine).

Lemma blocked_reachable : rtc (mstep call_ok) empty_machine blocked.
Proof.
  apply (fs_schedule_reachable _ (take 24 race)); [|vm_compute; reflexivity].
  repeat constructor; vm_compute; reflexivity || discriminate.
Qed.

Lemma filesystem_no_deadlock_witness :
  fs_act (Act 1) blocked = None ∧
  ∃ t c p, m_threads blocked !! t = Some (MkThread c p) ∧ unblocked t (m_fs blocked) p.
Proof.
  split; [vm_compute; reflexivity|].
  apply (filesystem_no_deadlock _ _ _ empty_initial blocked_reachable).
  intros He. assert (Hs : size (m_threads blocked) = 2) by (vm_compute; reflexivity).
  rewrite He in Hs. discriminate Hs.
Defined.

(** ** Locations that are not normalized

    [Location::new] accepts "a/./b": its components are those of "a/b", its lock file
    is not. *)

Definition plain : Location := MkLocation "a/b".
Definition dotted : Location := MkLocation "a/./b".

Definition aliasing : list fs_action :=
  [Invoke 0 (Create plain (bytes_of_string "x"))] ++ acts 0 8 ++
  [Invoke 1 (Create dotted (bytes_of_string "y"))] ++ acts 1 9 ++ acts 0 10 ++ acts 1 10 ++
  [Invoke 2 (Get plain)] ++ acts 2 8.

Definition after_aliasing : machine :=
  default empty_machine (fs_schedule aliasing empty_machine).

(** C34: managed locations are needed: two valid locations that differ only in a "."
    segment share their object file but not their lock, so two concurrent creations
    both succeed, one overwrites the other, and a client that created the first
    location reads the object of the second. *)
Theorem unnormalized_location_aliases :
  location_new "a/b" = Ok plain ∧ location_new "a/./b" = Ok dotted ∧
  Filesystem.join_root (as_str plain) = Filesystem.join_root (as_str dotted) ∧
  Filesystem.lock_path plain ≠ Filesystem.lock_path dotted ∧
  rtc (mstep (λ _, True)) empty_machine after_aliasing ∧
  m_ops after_aliasing !! 0 =
    Some (MkOperation (Create plain (bytes_of_string "x")) (Some (Ok (version_of 0)))) ∧
  m_ops after_aliasing !! 1 =
    Some (MkOperation (Create dotted (bytes_of_string "y")) (Some (Ok (version_of 2)))) ∧
  m_ops after_aliasing !! 2 =
    Some (MkOperation (Get plain)
            (Some (Ok (Some (MkObject (bytes_of_string "y") (version_of 2)))))).
Proof.
  split_and!; [reflexivity|reflexivity|reflexivity|by vm_compute| | | |].
  - apply (fs_schedule_reachable _ aliasing); [by repeat constructor|vm_compute; reflexivity].
  - vm_compute; reflexivity.
  - vm_compute; reflexivity.
  - vm_compute; reflexivity.
Qed.

(** ** Further instances *)

Definition linked_state : fs_state :=
  MkFsState (<[["default"] := Symlink]> (tree (m_fs empty_machine))) ∅ [].

Lemma envelope_decode_spec_witness :
  ∃ r, Format.decode (envelope 7 (bytes_of_string "x")) = Some r.
Proof.
  destruct (envelope_decode_spec (envelope 7 (bytes_of_string "x"))) as (r & Hr & _);
    [vm_compute; discriminate|]. by exists r.
Defined.

Lemma envelope_roundtrip_torn_witness :
  Format.decode (take 33 (envelope 7 (bytes_of_string "x"))) =
  Some (Err FsError.InvalidObjectFormat).
Proof.
  rewrite (envelope_roundtrip_torn 7 (bytes_of_string "x"));
    [reflexivity|vm_compute; discriminate|vm_compute; discriminate|].
  exists [Byte.x78]. reflexivity.
Defined.
