(* ===== verification/PowerLossScenarios.v ===== *)
(** * Power failures

    Power failures in concrete runs of the adapter: in the middle of a replacement, where
    the theorems of [DurableWrites] tell what is left; and after the first object of a
    namespace was created, which can be lost. *)

From S2P Require Import Prelude.
From S2P Require Import Program.
From S2P Require Import ObjectStore.
From S2P Require Import Linearization.
From S2P Require Import FileSystem.
From S2P Require Import Envelope.
From S2P Require Import FilesystemStore.
From S2P Require Import FilesystemMachine.
From S2P Require Import FilesystemScenarios.
From S2P Require Import PowerLoss.
From S2P Require Import CarefulWrites.
From S2P Require Import Durability.
From S2P Require Import DurableWrites.
Import Filesystem FsError.

(** ** Deciding whether a tree may be found *)

#[export] Instance survives_as_dec y n : Decision (survives_as y n).
Proof.
  destruct y; cbn [survives_as]; [apply _..|].
  destruct n as [[|b|]|]; [right; by intros [? ?]|left; by exists b|right; by intros [? ?]..].
Defined.

(** Every entry has a directory and is allowed; what is missing may be. *)
Definition may_be_found (d : disk) (ns : nodes) : bool :=
  bool_decide (map_Forall (λ p n,
    node_at ns (removelast p) = Some Dir ∧
    Exists (λ y, survives_as y (Some n)) (survivors d p)) ns) &&
  bool_decide (map_Forall (λ p _,
    ns !! p = None → node_at ns (removelast p) = Some Dir → Missing ∈ survivors d p) d).

Lemma may_be_found_sound d ns : may_be_found d ns = true → power_loss d ns.
Proof.
  unfold may_be_found. rewrite andb_true_iff, !bool_decide_eq_true. intros [Hns Hd]. split.
  - intros p c Hp. destruct (ns !! (p ++ [c])) as [n|] eqn:Hn; [|done].
    destruct (Hns _ _ Hn) as [Hdir _]. by rewrite removelast_last in Hdir.
  - intros p c Hp. destruct (ns !! (p ++ [c])) as [n|] eqn:Hn.
    + destruct (Hns _ _ Hn) as [_ Hy]. apply Exists_exists in Hy as (y & ? & ?). by exists y.
    + exists Missing. split; [|done]. destruct (d !! (p ++ [c])) as [y|] eqn:Hy.
      * apply (Hd _ _ Hy Hn). by rewrite removelast_last.
      * unfold survivors, trail_at. rewrite Hy. left.
Qed.

(** ** Runs *)

(** A machine at rest, its tree on the disk. *)
Definition at_rest (s : fs_state) : durable :=
  MkDurable (MkMachine s ∅ ∅ []) (settled_disk (tree s)) [].

Definition d_run (xs : list fs_action) (x : durable) : durable := default x (d_schedule xs x).

Lemma scheduled_run s xs :
  may_be_found (settled_disk (tree s)) (tree s) = true → Forall call_ok (invoked xs) →
  (if d_schedule xs (at_rest s) is Some _ then true else false) = true →
  durable_run (at_rest s) (d_run xs (at_rest s)).
Proof.
  intros Hs Hok Hx. destruct (d_schedule xs (at_rest s)) as [x|] eqn:Hrun; [|done]. split.
  - split; try done. by eapply power_loss_rooted, may_be_found_sound.
  - apply (d_schedule_reachable _ xs); [done|]. unfold d_run. by rewrite Hrun.
Qed.

(** The first object of a namespace is created. *)
Definition creation : list fs_action :=
  Invoke 0 (Create map_location (bytes_of_string "a")) :: acts 0 19.

Definition created : durable := d_run creation (at_rest (m_fs empty_machine)).

Lemma created_run : durable_run (at_rest (m_fs empty_machine)) created.
Proof.
  apply scheduled_run; [vm_compute; reflexivity|repeat constructor; vm_compute; done|].
  vm_compute. reflexivity.
Qed.

(** The directory is used again: a replacement by thread 0 returns, one by thread 1 has
    renamed its file and not yet synced the directory. *)
Definition replacements : list fs_action :=
  (Invoke 0 (Replace map_location (version_of 0) (bytes_of_string "b")) :: acts 0 21) ++
  (Invoke 1 (Replace map_location (version_of 2) (bytes_of_string "c")) :: acts 1 17).

Definition resumed : durable := at_rest (m_fs (on created)).

Definition interrupted : durable := d_run replacements resumed.

(** The tree as it was when thread 0 returned. *)
Definition rolled_back : nodes := tree (m_fs (on (d_run (take 22 replacements) resumed))).

Lemma interrupted_run : durable_run resumed interrupted.
Proof.
  apply scheduled_run; [vm_compute; reflexivity|repeat constructor; vm_compute; done|].
  vm_compute. reflexivity.
Qed.

Lemma rolled_back_possible : power_loss (on_disk interrupted) rolled_back.
Proof. apply may_be_found_sound. vm_compute. reflexivity. Qed.

Lemma power_loss_leaves_whole_objects_witness :
  (∃ u b, file_at rolled_back (object_file map_location) = Some (envelope u b)) ∧
  file_at (tree (m_fs (on interrupted))) (object_file map_location) ≠
    file_at rolled_back (object_file map_location).
Proof.
  split; [|vm_compute; discriminate].
  destruct (power_loss_leaves_whole_objects _ _ _ map_location interrupted_run
    rolled_back_possible eq_refl) as [Hwhole Hthere].
  destruct Hthere as [e He]; [eexists; vm_compute; reflexivity|].
  destruct (Hwhole e He) as [Hold|(u & b & ->)]; [|by exists u, b].
  rewrite <- Hold in He. vm_compute in He. discriminate He.
Defined.

Lemma reported_writes_survive_witness :
  ∃ u i j e, version_of 2 = version_of u ∧ i ≤ j ∧
    renames interrupted !! i = Some (object_file map_location, envelope u (bytes_of_string "b")) ∧
    renames interrupted !! j = Some (object_file map_location, e) ∧
    file_at rolled_back (object_file map_location) = Some e.
Proof.
  destruct (reported_writes_survive resumed interrupted rolled_back 0
    (Replace map_location (version_of 0) (bytes_of_string "b")) (Ok (version_of 2)) (version_of 2)
    (bytes_of_string "b") interrupted_run rolled_back_possible)
    as (u & i & j & e & Hv & Hi & Hij & Hj & _ & He);
    [vm_compute; reflexivity|reflexivity|reflexivity|left; vm_compute; reflexivity|].
  exists u, i, j, e. exact (conj Hv (conj Hij (conj Hi (conj Hj He)))).
Defined.

(** The power fails when the first object is on the disk. *)
Lemma power_loss_restarts_witness :
  let ns := tree (m_fs (on created)) in
  initial (found ns) (on (restarted created ns)) ∧
  cur (found ns) !! map_location = Some (MkObject (bytes_of_string "a") (version_of 0)).
Proof.
  assert (coherent empty_astore) as Hcoh by (intros l o; simpl; by rewrite lookup_empty).
  destruct (power_loss_restarts _ _ _ _ created_run empty_initial Hcoh
    (nothing_lost call_ok _ _ (proj2 created_run) (ds_rooted _ (proj1 created_run)) eq_refl))
    as (_ & _ & Hinit & _).
  split; [exact Hinit|]. vm_compute. reflexivity.
Defined.

(** C33: the directories that [create_dir_all] makes are not synced into their own
    directories: the first object of a namespace is created, the creation is reported,
    and a power failure may leave the tree without it, as it was before. *)
Theorem first_object_may_be_lost :
  durable_run (at_rest (m_fs empty_machine)) created ∧
  m_ops (on created) !! 0 =
    Some (MkOperation (Create map_location (bytes_of_string "a")) (Some (Ok (version_of 0)))) ∧
  file_at (tree (m_fs (on created))) (object_file map_location) =
    Some (envelope 0 (bytes_of_string "a")) ∧
  power_loss (on_disk created) (tree (m_fs empty_machine)) ∧
  file_at (tree (m_fs empty_machine)) (object_file map_location) = None.
Proof.
  split_and!.
  - apply created_run.
  - vm_compute. reflexivity.
  - vm_compute. reflexivity.
  - apply may_be_found_sound. vm_compute. reflexivity.
  - vm_compute. reflexivity.
Qed.
