(* ===== verification/S3Store.v ===== *)
(** * The S3 adapter (crate objsds-store-s3)

    The adapter calls the s3_client crate, which is not part of the source: its error
    type, the validation of header values, its credentials and its client builder
    are parameters ([S3Client]).  A request is a call of the adapter's programs; what
    a server and the client promise about it, S3's documented conditional requests,
    is [s3_effect] of S3Machine. *)

From S2P Require Import Prelude.
From S2P Require Import Program.
From S2P Require Import ObjectStore.

(** ** The s3_client crate *)

Inductive AddressingStyle := PathStyle | AutoStyle.

Class S3Client := {
  (** [s3_client::Error], the HTTP status it carries, if any, and its text. *)
  client_error : Type;
  client_status : client_error → option N;
  client_error_text : client_error → string;
  (** [if_match], [if_none_match] and [content_type] refuse invalid header values. *)
  header_value : string → result unit client_error;
  (** [Auth], [Credentials::new] and [Credentials::with_session_token]; [Auth::from_env]
      reads the process environment. *)
  client_auth : Type;
  client_credentials : Type;
  auth_from_env : result client_auth client_error;
  credentials_new : string → string → result client_credentials client_error;
  credentials_with_session_token :
    client_credentials → string → result client_credentials client_error;
  auth_static : client_credentials → client_auth;
  (** [BlockingClient::builder(endpoint)?.region(..).auth(..).addressing_style(..)
      .build()?]. *)
  client_builder : Type;
  client : Type;
  client_builder_new : string → result client_builder client_error;
  client_build : client_builder → string → client_auth → AddressingStyle →
    result client client_error;
}.

Module S3.

(** ** Errors (error.rs) *)

Section Errors.
Context `{!S3Client}.

Inductive BuildError :=
  | MissingBucket
  | MissingRegion
  | InvalidRegion
  | BuildTransport (error : client_error).

Definition BuildError_display (e : BuildError) : string :=
  match e with
  | MissingBucket => "missing S3 bucket"
  | MissingRegion => "missing S3 region"
  | InvalidRegion => "invalid S3 region"
  | BuildTransport error => "could not configure S3 transport: " +:+ client_error_text error
  end.

Definition BuildError_source (e : BuildError) : option client_error :=
  match e with
  | BuildTransport error => Some error
  | _ => None
  end.

Definition BuildError_from (error : client_error) : BuildError := BuildTransport error.

Inductive StoreError :=
  | Transport (error : client_error)
  | MissingEtag.

Definition StoreError_display (e : StoreError) : string :=
  match e with
  | Transport error => "S3 request failed: " +:+ client_error_text error
  | MissingEtag => "S3 response did not contain an ETag"
  end.

Definition StoreError_source (e : StoreError) : option client_error :=
  match e with
  | Transport error => Some error
  | MissingEtag => None
  end.

Definition StoreError_from (error : client_error) : StoreError := Transport error.
End Errors.

(** ** Credentials (credentials.rs) *)

Inductive Credentials :=
  | DefaultCredentials
  | StaticCredentials (access_key_id secret_access_key : string)
      (session_token : option string).

Definition Credentials_new (access_key_id secret_access_key : string) : Credentials :=
  StaticCredentials access_key_id secret_access_key None.

Definition with_session_token (c : Credentials) (token : string) : Credentials :=
  match c with
  | StaticCredentials access_key_id secret_access_key _ =>
      StaticCredentials access_key_id secret_access_key (Some token)
  | DefaultCredentials => DefaultCredentials
  end.

(** [{:?}] of a string is a parameter: the standard library escapes it. *)
Definition debug_option (debug_str : string → string) (o : option string) : string :=
  match o with
  | Some s => "Some(" +:+ debug_str s +:+ ")"
  | None => "None"
  end.

(** [Debug], which redacts secrets. *)
Definition Credentials_debug (debug_str : string → string) (c : Credentials) : string :=
  match c with
  | DefaultCredentials => "Default"
  | StaticCredentials access_key_id _ session_token =>
      "Static { access_key_id: " +:+ debug_str access_key_id +:+
      ", secret_access_key: " +:+ debug_str "[REDACTED]" +:+
      ", session_token: " +:+
      debug_option debug_str ((λ _, "[REDACTED]") <$> session_token) +:+ " }"
  end.

Definition to_auth `{!S3Client} (c : Credentials) : result client_auth BuildError :=
  match c with
  | DefaultCredentials => map_err BuildError_from auth_from_env
  | StaticCredentials access_key_id secret_access_key session_token =>
      let* credentials :=
        map_err BuildError_from (credentials_new access_key_id secret_access_key) in
      let* credentials :=
        match session_token with
        | Some token =>
            map_err BuildError_from (credentials_with_session_token credentials token)
        | None => Ok credentials
        end in
      Ok (auth_static credentials)
  end.

(** ** Configuration (config.rs, builder.rs) *)

Record S3Config := MkS3Config {
  bucket : string;
  region : string;
  endpoint : option string;
  credentials : Credentials;
  path_style : bool;
}.

Record S3Store `{!S3Client} := MkS3Store { config_ : S3Config; client_ : client }.
Arguments MkS3Store {_} config_ client_.
Arguments config_ {_} s.
Arguments client_ {_} s.

(** [S3Store::config]. *)
Definition config `{!S3Client} (s : S3Store) : S3Config := config_ s.

Record S3StoreBuilder := MkS3StoreBuilder {
  b_bucket : option string;
  b_region : option string;
  b_endpoint : option string;
  b_credentials : Credentials;
  b_path_style : bool;
}.

(** [S3Store::builder()]. *)
Definition builder : S3StoreBuilder :=
  MkS3StoreBuilder None None None DefaultCredentials false.

Definition with_bucket (b : S3StoreBuilder) (bucket : string) : S3StoreBuilder :=
  MkS3StoreBuilder (Some bucket) (b_region b) (b_endpoint b) (b_credentials b)
    (b_path_style b).
Definition with_region (b : S3StoreBuilder) (region : string) : S3StoreBuilder :=
  MkS3StoreBuilder (b_bucket b) (Some region) (b_endpoint b) (b_credentials b)
    (b_path_style b).
Definition with_endpoint (b : S3StoreBuilder) (endpoint : string) : S3StoreBuilder :=
  MkS3StoreBuilder (b_bucket b) (b_region b) (Some endpoint) (b_credentials b)
    (b_path_style b).
Definition with_credentials (b : S3StoreBuilder) (c : Credentials) : S3StoreBuilder :=
  MkS3StoreBuilder (b_bucket b) (b_region b) (b_endpoint b) c (b_path_style b).
Definition with_path_style (b : S3StoreBuilder) (path_style : bool) : S3StoreBuilder :=
  MkS3StoreBuilder (b_bucket b) (b_region b) (b_endpoint b) (b_credentials b) path_style.

Definition build `{!S3Client} (b : S3StoreBuilder) : result S3Store BuildError :=
  let* bucket := ok_or (b_bucket b) MissingBucket in
  let* region := ok_or (b_region b) MissingRegion in
  let config := MkS3Config bucket region (b_endpoint b) (b_credentials b) (b_path_style b) in
  let endpoint :=
    match endpoint config with
    | Some endpoint => endpoint
    | None => "https://s3." +:+ region +:+ ".amazonaws.com"
    end in
  let addressing := if path_style config then PathStyle else AutoStyle in
  let* b := map_err BuildError_from (client_builder_new endpoint) in
  let* auth := to_auth (credentials config) in
  let* client := map_err BuildError_from (client_build b region auth addressing) in
  Ok (MkS3Store config client).

(** [Debug], derived for the configuration; the client of the store is left out. *)
Definition S3Config_debug (debug_str : string → string) (c : S3Config) : string :=
  "S3Config { bucket: " +:+ debug_str (bucket c) +:+
  ", region: " +:+ debug_str (region c) +:+
  ", endpoint: " +:+ debug_option debug_str (endpoint c) +:+
  ", credentials: " +:+ Credentials_debug debug_str (credentials c) +:+
  ", path_style: " +:+ (if path_style c then "true" else "false") +:+ " }".

Definition S3Store_debug `{!S3Client} (debug_str : string → string) (s : S3Store) : string :=
  "S3Store { config: " +:+ S3Config_debug debug_str (config_ s) +:+ ", .. }".

(** [{:?}] of a string in which nothing needs an escape. *)
Definition quoted (s : string) : string :=
  let quote := String (Ascii.ascii_of_nat 34) "" in quote +:+ s +:+ quote.

(** The builder's unit test; [None] is a failed [expect]. *)
Definition builds_rustfs_configuration `{!S3Client} : option bool :=
  store ← ok (build (with_path_style (with_credentials (with_endpoint (with_region
    (with_bucket builder "data") "us-east-1") "http://localhost:9000")
    (Credentials_new "access" "secret")) true));
  Some (String.eqb (bucket (config store)) "data" && path_style (config store) &&
        negb (str_contains (quoted "secret") (S3Store_debug quoted store))).

(** ** Requests *)

Inductive condition :=
  | IfNoneMatch (value : string)
  | IfMatch (value : string).

Record put_request := MkPutRequest {
  put_bucket : string;
  put_key : string;
  put_condition : condition;
  put_content_type : string;
  put_body : bytes;
}.

(** A response carries the ETag, if the server sent one; reading the body can fail
    after the headers arrived. *)
Record get_response `{!S3Client} := MkGetResponse {
  get_etag : option string;
  get_body : result bytes client_error;
}.
Arguments MkGetResponse {_} get_etag get_body.
Arguments get_etag {_} g.
Arguments get_body {_} g.

Inductive s3_call :=
  | SendGet (bucket key : string)
  | SendPut (request : put_request).

Section Operations.
Context `{!S3Client}.

Definition s3_reply (c : s3_call) : Type :=
  match c with
  | SendGet _ _ => result get_response client_error
  | SendPut _ => result (option string) client_error
  end.

Abbreviation s3 := (prog s3_reply).

Definition send_get bucket key : s3 (result get_response client_error) :=
  Call (R := s3_reply) (SendGet bucket key) Ret.
Definition send_put request : s3 (result (option string) client_error) :=
  Call (R := s3_reply) (SendPut request) Ret.

(** ** The store (store.rs) *)

Definition version (etag : option string) : result Version StoreError :=
  ok_or (version_new <$> etag) MissingEtag.

Definition is_status (error : client_error) (expected : N) : bool :=
  match client_status error with
  | Some status => (status =? expected)%N
  | None => false
  end.

Implicit Types (store : S3Store) (l : Location) (b : bytes).

Definition get store l : s3 (result (option Object) StoreError) :=
  let! response := send_get (bucket (config_ store)) (as_str l) in
  match response with
  | Ok response =>
      let? version := Ret (version (get_etag response)) in
      let? b := Ret (map_err StoreError_from (get_body response)) in
      Ret (Ok (Some (MkObject b version)))
  | Err error =>
      if is_status error 404 then Ret (Ok None) else Ret (Err (StoreError_from error))
  end.

Definition observed store l : s3 (result (option Version) StoreError) :=
  prog_map_ok (λ object, object_version <$> object) (get store l).

(** A put request with its headers, as the chain of builder calls makes it. *)
Definition conditional_put store l (make : string → condition) (value : string) b :
    result put_request StoreError :=
  let* _ := map_err StoreError_from (header_value value) in
  let* _ := map_err StoreError_from (header_value "application/json") in
  Ok (MkPutRequest (bucket (config_ store)) (as_str l) (make value) "application/json" b).

Definition create store l b : s3 (result Version (CreateError StoreError)) :=
  let? request := Ret (map_err CreateStore (conditional_put store l IfNoneMatch "*" b)) in
  let! response := send_put request in
  match response with
  | Ok etag => Ret (map_err CreateStore (version etag))
  | Err error =>
      if is_status error 409 || is_status error 412 then
        let? seen := prog_map_err CreateStore (observed store l) in
        let? seen := Ret (ok_or seen (CreateStore (StoreError_from error))) in
        Ret (Err (CreateAlreadyExists seen))
      else Ret (Err (CreateStore (StoreError_from error)))
  end.

Definition replace store l (expected : Version) b :
    s3 (result Version (ReplaceError StoreError)) :=
  let? request :=
    Ret (map_err ReplaceStore (conditional_put store l IfMatch (version_as_str expected) b)) in
  let! response := send_put request in
  match response with
  | Ok etag => Ret (map_err ReplaceStore (version etag))
  | Err error =>
      if is_status error 404 || is_status error 409 || is_status error 412 then
        let? seen := prog_map_err ReplaceStore (observed store l) in
        Ret (Err (ReplaceConflict seen))
      else Ret (Err (ReplaceStore (StoreError_from error)))
  end.
End Operations.
End S3.

(** ** Configuration *)

Section Configuration.
Import S3.

(** C32: building a store reports a missing bucket, then a missing region, then what the
    client library refuses; a store that was built has exactly the configuration of
    its builder.  The region is never reported as invalid. *)
Theorem s3_build_outcome `{!S3Client} (b : S3StoreBuilder) :
  match build b with
  | Ok store =>
      b_bucket b = Some (bucket (config store)) ∧ b_region b = Some (region (config store)) ∧
      endpoint (config store) = b_endpoint b ∧ credentials (config store) = b_credentials b ∧
      path_style (config store) = b_path_style b
  | Err MissingBucket => b_bucket b = None
  | Err MissingRegion => is_Some (b_bucket b) ∧ b_region b = None
  | Err InvalidRegion => False
  | Err (BuildTransport _) => is_Some (b_bucket b) ∧ is_Some (b_region b)
  end.
Proof.
  assert (∀ c, match to_auth c with Err e => ∃ x, e = BuildTransport x | Ok _ => True end) as Hauth.
  { intros [|access secret token]; simpl.
    - destruct auth_from_env; simpl; [done|]. by eexists.
    - destruct (credentials_new access secret) as [c|e]; simpl; [|by eexists].
      destruct token as [token|]; [|done].
      destruct (credentials_with_session_token c token); simpl; [done|]. by eexists. }
  unfold build. destruct (b_bucket b) as [bucket|]; [|done].
  destruct (b_region b) as [region|]; [|by split]. simpl.
  destruct (client_builder_new _) as [cb|e]; simpl; [|by eauto].
  specialize (Hauth (b_credentials b)).
  destruct (to_auth (b_credentials b)) as [auth|e]; simpl; [|by destruct Hauth as [x ->]; eauto].
  destruct (client_build _ _ _ _); simpl; [|by eauto]. by split_and!.
Qed.

(** Debug output does not depend on the secret key or on the text of the session
    token. *)
Lemma credentials_redacted debug_str key secret secret' token token' :
  (is_Some token ↔ is_Some token') →
  Credentials_debug debug_str (StaticCredentials key secret token) =
  Credentials_debug debug_str (StaticCredentials key secret' token').
Proof.
  intros Htoken. destruct token, token'; simpl; [done| | |done].
  - by destruct (proj1 Htoken ltac:(by eexists)).
  - by destruct (proj2 Htoken ltac:(by eexists)).
Qed.

(** So does the debug text of a store. *)
Lemma store_debug_redacted `{!S3Client} debug_str b r e p key secret secret' token token' c c' :
  (is_Some token ↔ is_Some token') →
  S3Store_debug debug_str (MkS3Store (MkS3Config b r e (StaticCredentials key secret token) p) c) =
  S3Store_debug debug_str
    (MkS3Store (MkS3Config b r e (StaticCredentials key secret' token') p) c').
Proof.
  intros Htoken. unfold S3Store_debug, S3Config_debug. cbn [config_ credentials].
  by rewrite (credentials_redacted debug_str key secret secret' token token').
Qed.

(** The builder's test passes exactly when the client library accepts what it is given. *)
Lemma rustfs_configuration_built `{!S3Client} :
  builds_rustfs_configuration = Some true ↔
  ∃ credentials b client, credentials_new "access" "secret" = Ok credentials ∧
    client_builder_new "http://localhost:9000" = Ok b ∧
    client_build b "us-east-1" (auth_static credentials) PathStyle = Ok client.
Proof.
  unfold builds_rustfs_configuration, build. simpl.
  destruct (client_builder_new "http://localhost:9000") as [b|e]; simpl;
    [|by split; [|intros (? & ? & ? & _ & ? & _)]].
  destruct (credentials_new "access" "secret") as [cr|e]; simpl;
    [|by split; [|intros (? & ? & ? & ? & _)]].
  destruct (client_build b _ _ _) as [cl|e] eqn:Hcl; simpl.
  - split; [intros _|done]. by exists cr, b, cl.
  - split; [done|]. intros (? & ? & ? & [= <-] & [= <-] & Hx). by rewrite Hcl in Hx.
Qed.

End Configuration.
