(* ===== verification/S3Machine.v ===== *)
(** * Concurrent use of one bucket

    Any number of clients run operations of the S3 adapter against a server.
    [s3_effect] is what S3 documents about a request: reads and conditional writes are
    atomic and transfer whole objects, a response of status 404, 409 or 412 means
    that the write was not applied, and an ETag is never given to other contents of
    the same key.  After any other failure (a timeout, a lost connection, an error of
    the server) the write may still be on its way: it stays in flight, and the server
    may process it at any later moment, once, or never.

    The client sends a request once for each call of the adapter. *)

From S2P Require Import Prelude.
From S2P Require Import Program.
From S2P Require Import ObjectStore.
From S2P Require Import Linearization.
From S2P Require Import S3Store.
Import S3.

(** ** The server *)

(** The buckets, with the versions ever issued in each. *)
Abbreviation buckets := (gmap string astore).

Section Server.
Context `{!S3Client}.
Implicit Types (srv : buckets) (a : astore) (q : put_request).

Definition key_location (key : string) : Location := MkLocation key.

(** [If-None-Match] is documented for the value "*" only. *)
Definition condition_holds a (l : Location) (c : condition) : Prop :=
  match c with
  | IfNoneMatch value => value = "*" ∧ cur a !! l = None
  | IfMatch value => (object_version <$> cur a !! l) = Some (version_new value)
  end.

Definition put_applied srv q (v : Version) srv' : Prop :=
  let l := key_location (put_key q) in
  ∃ a, srv !! put_bucket q = Some a ∧ condition_holds a l (put_condition q) ∧
    issuable a l (put_body q) v ∧
    srv' = <[put_bucket q := put l (put_body q) v a]> srv.

(** The statuses of a write that was not applied. *)
Definition rejected (e : client_error) : bool :=
  is_status e 404 || is_status e 409 || is_status e 412.

(** The server names the version, if it names one. *)
Definition names (etag : option string) (v : Version) : Prop :=
  etag = None ∨ etag = Some (version_as_str v).

Definition get_answers srv bucket key (r : result get_response client_error) : Prop :=
  ∃ a, srv !! bucket = Some a ∧
  match r with
  | Ok response => ∃ o, cur a !! key_location key = Some o ∧
      names (get_etag response) (object_version o) ∧
      (get_body response = Ok (object_bytes o) ∨ ∃ e, get_body response = Err e)
  | Err e => is_status e 404 = true → cur a !! key_location key = None
  end.

(** One request of operation [t]; [flight] are the writes that may still arrive. *)
Definition s3_effect (t : nat) srv (flight : gmap nat put_request) (c : s3_call) :
    s3_reply c → buckets → gmap nat put_request → Prop :=
  match c with
  | SendGet bucket key => λ r srv' flight',
      get_answers srv bucket key r ∧ srv' = srv ∧ flight' = flight
  | SendPut q => λ r srv' flight',
      match r with
      | Ok etag => (∃ v, put_applied srv q v srv' ∧ names etag v) ∧ flight' = flight
      | Err e => srv' = srv ∧ flight' = if rejected e then flight else <[t := q]> flight
      end
  end.
End Server.

(** ** The machine *)

Record s3_thread `{!S3Client} := MkS3Thread {
  th_call : call;
  th_prog : prog s3_reply (reply StoreError th_call);
}.
Arguments MkS3Thread {_} th_call th_prog.
Arguments th_call {_} s.
Arguments th_prog {_} s.

Record s3_machine `{!S3Client} := MkS3Machine {
  m_server : buckets;
  m_flight : gmap nat put_request;
  m_threads : gmap nat s3_thread;
  m_ops : gmap nat (operation StoreError);
  m_trace : list (nat * moment);
}.
Arguments MkS3Machine {_} m_server m_flight m_threads m_ops m_trace.
Arguments m_server {_} s.
Arguments m_flight {_} s.
Arguments m_threads {_} s.
Arguments m_ops {_} s.
Arguments m_trace {_} s.

Section Machine.
Context `{!S3Client}.

Definition s3_op (store : S3Store) (c : call) : prog s3_reply (reply StoreError c) :=
  match c with
  | Get l => S3.get store l
  | Create l b => S3.create store l b
  | Replace l v b => S3.replace store l v b
  | NowMillis | NowV7 => Panic
  end.

(** Clients of one bucket.  A client can crash between any two requests. *)
Inductive s3_step (bkt : string) : s3_machine → s3_machine → Prop :=
  | s3_invoke t store c m :
      bucket (config_ store) = bkt → store_call c = true → m_ops m !! t = None →
      s3_step bkt m (MkS3Machine (m_server m) (m_flight m)
        (<[t := MkS3Thread c (s3_op store c)]> (m_threads m))
        (<[t := MkOperation c None]> (m_ops m)) (m_trace m ++ [(t, Invoked)]))
  | s3_request t c sc k r srv flight m :
      m_threads m !! t = Some (MkS3Thread c (Call sc k)) →
      s3_effect t (m_server m) (m_flight m) sc r srv flight →
      s3_step bkt m (MkS3Machine srv flight (<[t := MkS3Thread c (k r)]> (m_threads m))
        (m_ops m) (m_trace m))
  | s3_deliver t q v srv m :
      m_flight m !! t = Some q → put_applied (m_server m) q v srv →
      s3_step bkt m (MkS3Machine srv (delete t (m_flight m)) (m_threads m) (m_ops m) (m_trace m))
  | s3_lose t m :
      s3_step bkt m (MkS3Machine (m_server m) (delete t (m_flight m)) (m_threads m) (m_ops m)
        (m_trace m))
  | s3_return t c r m :
      m_threads m !! t = Some (MkS3Thread c (Ret r)) →
      s3_step bkt m (MkS3Machine (m_server m) (m_flight m) (delete t (m_threads m))
        (<[t := MkOperation c (Some r)]> (m_ops m)) (m_trace m ++ [(t, Returned)]))
  | s3_crash t m :
      s3_step bkt m (MkS3Machine (m_server m) (m_flight m) (delete t (m_threads m))
        (m_ops m) (m_trace m)).

Record s3_initial (bkt : string) (a : astore) (m : s3_machine) : Prop := MkS3Initial {
  initial_server : m_server m !! bkt = Some a;
  initial_flight : m_flight m = ∅;
  initial_threads : m_threads m = ∅;
  initial_ops : m_ops m = ∅;
  initial_trace : m_trace m = [];
}.

(** The execution linearizes, and the bucket holds the resulting store. *)
Definition bucket_linearizes (bkt : string) (a0 : astore) (m : s3_machine)
    (ops : gmap nat (operation StoreError)) (order : list (nat * moment)) (a : astore) : Prop :=
  linearizes true true a0 (m_ops m) (m_trace m) ops order a ∧ m_server m !! bkt = Some a.

(** No operation of the S3 adapter sends more than two requests, and reading sends
    one. *)
Lemma s3_requests_bounded store c :
  calls_within (match c with Get _ => 1 | _ => 2 end) (s3_op store c).
Proof.
  assert (∀ l, calls_within 1 (S3.get store l)) as Hget.
  { intros l [r|e]; simpl; [|by destruct (is_status e 404)].
    destruct (version (get_etag r)); prog_simpl; [|done].
    by destruct (get_body r); prog_simpl. }
  assert (∀ l, calls_within 1 (observed store l)) as Hobs.
  { intros l. apply (calls_within_bind 1 0); [apply Hget|done]. }
  destruct c as [l|l b|l v b| |]; [apply Hget| | |done..]; simpl.
  - unfold S3.create. apply (calls_within_try_bind 0 2); [done|]. intros q.
    apply (calls_within_bind 1 1); [by intros ?|]. intros [etag|e]; [done|].
    destruct (_ || _); [|done].
    apply (calls_within_try_bind 1 0); [by apply (calls_within_bind 1 0)|].
    intros o. by apply (calls_within_try_bind 0 0).
  - unfold S3.replace. apply (calls_within_try_bind 0 2); [done|]. intros q.
    apply (calls_within_bind 1 1); [by intros ?|]. intros [etag|e]; [done|].
    destruct (_ || _ || _); [|done].
    apply (calls_within_try_bind 1 0); [by apply (calls_within_bind 1 0)|done].
Qed.
End Machine.
