(* ===== verification/S3Linearizable.v ===== *)
(** * The S3 adapter linearizes

    An operation of the adapter sends one request that can have an effect, its first;
    after a rejected write it only reads.  So whatever the interleaving, the failures
    and the crashes, the operations on a bucket take effect one at a time, as the
    contract of the object store says, a failed write possibly after it was
    reported. *)

From S2P Require Import Prelude.
From S2P Require Import Program.
From S2P Require Import ObjectStore.
From S2P Require Import Linearization.
From S2P Require Import Concurrent.
From S2P Require Import S3Store.
From S2P Require Import S3Machine.
Import S3.

(** ** Backend failures *)

Section Failures.
Context {E : Type}.

(** A failed write and another of its failures are interchangeable. *)
Lemma failure_replaces (c : call) (r r' : reply E c) a a' :
  backend_failure c r → backend_failure c r' →
  store_step true a c r a' → store_step true a c r' a'.
Proof.
  by destruct c as [l|l b|l v b| |]; simpl; try done; intros [e ->] [e' ->].
Qed.
End Failures.

(** ** What an operation may do *)

Section Rules.
Context `{!S3Client} (bkt : string).
Implicit Types (a : astore) (l : Location) (b : bytes).

(** The operation has no effect any more: it only reads. *)
Fixpoint harmless (c : call) (p : prog s3_reply (reply StoreError c)) : Prop :=
  match p with
  | Ret x => ∀ a, store_step true a c x a
  | Panic => False
  | Call sc k =>
      match sc return (s3_reply sc → Prop) → Prop with
      | SendGet bucket _ => λ next, bucket = bkt ∧ ∀ r, next r
      | SendPut _ => λ _, False
      end (λ r, harmless c (k r))
  end.

(** The write that [c] sends. *)
Definition writes (c : call) (q : put_request) : Prop :=
  put_bucket q = bkt ∧
  match c with
  | Create l b =>
      put_key q = as_str l ∧ put_body q = b ∧ put_condition q = IfNoneMatch "*"
  | Replace l v b =>
      put_key q = as_str l ∧ put_body q = b ∧ put_condition q = IfMatch (version_as_str v)
  | _ => False
  end.

(** The operation is about to send its first request. *)
Definition first_request (c : call) (p : prog s3_reply (reply StoreError c)) : Prop :=
  match p with
  | Call sc k =>
      match sc return (s3_reply sc → prog s3_reply (reply StoreError c)) → Prop with
      | SendGet bucket key => λ k, bucket = bkt ∧
          ∀ srv a r, srv !! bkt = Some a → get_answers srv bkt key r →
            ∃ x, k r = Ret x ∧ store_step true a c x a
      | SendPut q => λ k, writes c q ∧
          (∀ srv a v etag srv', srv !! bkt = Some a → put_applied srv q v srv' →
             names etag v →
             ∃ x a', k (Ok etag) = Ret x ∧ store_step true a c x a' ∧ srv' !! bkt = Some a') ∧
          ∀ e, if rejected e then harmless c (k (Err e))
               else ∃ x, k (Err e) = Ret x ∧ backend_failure c x
      end k
  | _ => False
  end.

(** A write that arrives is the effect the contract allows a failed write. *)
Lemma applied_step (c : call) q srv a v srv' (x : reply StoreError c) :
  writes c q → srv !! bkt = Some a → put_applied srv q v srv' → backend_failure c x →
  ∃ a', store_step true a c x a' ∧ srv' !! bkt = Some a'.
Proof.
  intros [Hb Hw] Ha (a' & Ha' & Hc & Hi & ->) Hf. rewrite Hb, Ha in *. simplify_eq.
  eexists. rewrite lookup_insert_eq. split; [|done].
  unfold key_location in *. destruct c as [l|[l] b|[l] [w] b| |]; try done;
    destruct Hw as (Hk & <- & Hcond), Hf as [e ->]; rewrite Hk, Hcond in *; simpl in *; right.
  - destruct Hc. eauto.
  - eauto.
Qed.

(** *** The operations *)

Lemma names_version (etag : option string) (v v' : Version) :
  names etag v → version etag = Ok v' → v' = v.
Proof. intros [->| ->]; [done|]. intros [= <-]. by destruct v. Qed.

Lemma get_first store l :
  bucket (config_ store) = bkt → first_request (Get l) (S3.get store l).
Proof.
  intros Hb. split; [done|]. intros srv a r Ha (a' & Ha' & Hr). simplify_eq.
  change (key_location (as_str l)) with (MkLocation (as_str l)) in Hr.
  replace (MkLocation (as_str l)) with l in Hr by by destruct l.
  destruct r as [r|e]; simpl.
  - destruct Hr as (o & Ho & Hn & Hbody).
    destruct (version (get_etag r)) as [v|e] eqn:Hv; prog_simpl; [|by eauto 10].
    apply (names_version _ _ _ Hn) in Hv as ->.
    destruct Hbody as [->|[e ->]]; prog_simpl; [|by eauto 10].
    eexists. split; [done|]. split; [done|]. left. rewrite Ho. by destruct o.
  - destruct (is_status e 404); [|by eauto 10].
    eexists. split; [done|]. split; [done|]. left. by rewrite Hr.
Qed.

(** Looking for the version a conflict reports has no effect. *)
Lemma observed_harmless {F} (c : call) store l (g : StoreError → F)
    (f : result (option Version) F → prog s3_reply (reply StoreError c)) :
  bucket (config_ store) = bkt → (∀ o, harmless c (f o)) →
  harmless c (prog_bind f (prog_map_err g (observed store l))).
Proof.
  intros Hb Hf. split; [done|]. intros [r|e]; simpl.
  - destruct (version (get_etag r)); prog_simpl; [|apply Hf].
    destruct (get_body r); prog_simpl; apply Hf.
  - destruct (is_status e 404); apply Hf.
Qed.

(** The reply to a write that was applied: its version, or a failure if the response
    does not name it. *)
Lemma applied_reply (c : call) q srv a v srv' etag (ok : Version → reply StoreError c)
    (fail : StoreError → reply StoreError c) :
  srv !! bkt = Some a → put_applied srv q v srv' → names etag v → writes c q →
  (∀ e, backend_failure c (fail e)) →
  (∀ l, condition_holds a l (put_condition q) → issuable a l (put_body q) v →
     put_key q = as_str l → store_step true a c (ok v) (put l (put_body q) v a)) →
  ∃ a', store_step true a c
    (match version etag with Ok v => ok v | Err e => fail e end) a' ∧ srv' !! bkt = Some a'.
Proof.
  intros Ha Hp Hn Hw Hf Hok. destruct (version etag) as [v'|e] eqn:Hv.
  - apply (names_version _ _ _ Hn) in Hv as ->.
    destruct Hw as [Hb _], Hp as (a' & Ha' & Hc & Hi & ->). rewrite Hb, Ha in *. simplify_eq.
    eexists. rewrite lookup_insert_eq. split; [|done]. by apply Hok.
  - by eapply applied_step.
Qed.

Lemma create_first store l b :
  bucket (config_ store) = bkt →
  harmless (Create l b) (S3.create store l b) ∨
  first_request (Create l b) (S3.create store l b).
Proof.
  intros Hb. unfold S3.create, conditional_put.
  destruct (header_value "*") as [[]|?]; prog_simpl; [|by left; eauto].
  destruct (header_value "application/json") as [[]|?]; prog_simpl; [|by left; eauto].
  right. rewrite Hb. split; [done|]. split.
  - intros srv a v etag srv' Ha Hp Hn.
    destruct (applied_reply (Create l b) _ srv a v srv' etag Ok (λ e, Err (CreateStore e))
      Ha Hp Hn) as (a' & Hs & Ha'); [done|by eexists| |].
    { intros [l'] [_ ?] ? [= <-]. by destruct l. }
    exists (map_err CreateStore (version etag)), a'. split_and!; [done| |done].
    by destruct (version etag).
  - intros e. cbn [prog_bind]. unfold rejected.
    destruct (is_status e 409 || is_status e 412) eqn:Hst.
    + rewrite <- orb_assoc, Hst, orb_true_r.
      apply observed_harmless; [done|]. intros [[v|]|[v|e']]; simpl; auto; by split.
    + destruct (_ || _ || _); simpl; eauto.
Qed.

Lemma replace_first store l v0 b :
  bucket (config_ store) = bkt →
  harmless (Replace l v0 b) (S3.replace store l v0 b) ∨
  first_request (Replace l v0 b) (S3.replace store l v0 b).
Proof.
  intros Hb. unfold S3.replace, conditional_put.
  destruct (header_value _) as [[]|?]; prog_simpl; [|by left; eauto].
  destruct (header_value "application/json") as [[]|?]; prog_simpl; [|by left; eauto].
  right. rewrite Hb. split; [done|]. split.
  - intros srv a v etag srv' Ha Hp Hn.
    destruct (applied_reply (Replace l v0 b) _ srv a v srv' etag Ok (λ e, Err (ReplaceStore e))
      Ha Hp Hn) as (a' & Hs & Ha'); [done|by eexists| |].
    { intros [l'] Hc ? [= <-]. destruct l, v0. done. }
    exists (map_err ReplaceStore (version etag)), a'. split_and!; [done| |done].
    by destruct (version etag).
  - intros e. cbn [prog_bind]. unfold rejected.
    destruct (_ || _ || _); [|by eauto].
    apply observed_harmless; [done|]. intros [[v|]|[v|e']]; simpl; auto; by split.
Qed.

(** Every operation has at most one effect, that of its first request. *)
Lemma s3_op_first store (c : call) :
  bucket (config_ store) = bkt → store_call c = true →
  harmless c (s3_op store c) ∨ first_request c (s3_op store c).
Proof.
  intros Hb. destruct c; try done; intros _; [right; by apply get_first|..];
    [by apply create_first|by apply replace_first].
Qed.
End Rules.

(** ** The invariant *)

(** A running operation, with the reply it is bound to. *)
Record s3_gthread `{!S3Client} := MkS3GThread {
  g_call : call;
  g_prog : prog s3_reply (reply StoreError g_call);
  g_lin : option (reply StoreError g_call);
}.
Arguments MkS3GThread {_} g_call g_prog g_lin.
Arguments g_call {_} s.
Arguments g_prog {_} s.
Arguments g_lin {_} s.

Section Preservation.
Context `{!S3Client} (bkt : string) (a0 : astore).
Implicit Types (a : astore) (t : nat) (gs : gmap nat s3_gthread) (q : put_request)
  (ops mops : gmap nat (operation StoreError)) (order trace : list (nat * moment))
  (m : s3_machine) (flight : gmap nat put_request).

Definition g_op (g : s3_gthread) : operation StoreError := MkOperation (g_call g) (g_lin g).
Definition erase (g : s3_gthread) : s3_thread := MkS3Thread (g_call g) (g_prog g).

Definition g_ok (g : s3_gthread) : Prop :=
  match g_lin g with
  | None => harmless bkt (g_call g) (g_prog g) ∨ first_request bkt (g_call g) (g_prog g)
  | Some r => ∃ x, g_prog g = Ret x ∧
      ∀ a a', store_step true a (g_call g) r a' → store_step true a (g_call g) x a'
  end.

(** A write in flight is one whose operation failed, or crashed, or is about to fail,
    and has not taken effect. *)
Definition flight_ok mops gs order t q : Prop :=
  ((t, Linearized) ∉ order) ∧
  (∃ o, mops !! t = Some o ∧ writes bkt (op_call o) q ∧
    (is_Some (op_reply o) → ambiguous o)) ∧
  ∀ g, gs !! t = Some g → ∃ x, g_prog g = Ret x ∧ backend_failure (g_call g) x.

Definition explained m gs ops order a : Prop :=
  m_threads m = erase <$> gs ∧ (∀ t g, gs !! t = Some g → g_ok g) ∧
  m_server m !! bkt = Some a ∧
  (∀ t q, m_flight m !! t = Some q → flight_ok (m_ops m) gs order t q) ∧
  log_ok true true a0 (m_ops m) (m_trace m) (g_op <$> gs) ops order a.

Lemma s3_running_op gs t g : gs !! t = Some g → (g_op <$> gs) !! t = Some (g_op g).
Proof. intros Hg. by rewrite lookup_fmap, Hg. Qed.

Lemma s3_erase_lookup gs t c p :
  (erase <$> gs) !! t = Some (MkS3Thread c p) → ∃ lin, gs !! t = Some (MkS3GThread c p lin).
Proof.
  rewrite lookup_fmap. destruct (gs !! t) as [[c' p' lin]|]; simpl; [|done].
  intros [= -> Hp]. apply (Eqdep_dec.inj_pair2_eq_dec _ (λ x y, decide (x = y))) in Hp as ->.
  by exists lin.
Qed.

(** What happens to one operation concerns no write in flight of another. *)
Lemma flight_frame mops mops' gs gs' order order' t q t' :
  flight_ok mops gs order t q → t' ≠ t →
  mops' !! t = mops !! t → gs' !! t = gs !! t → (∀ x, (t, x) ∈ order' → (t, x) ∈ order) →
  flight_ok mops' gs' order' t q.
Proof. unfold flight_ok. intros (? & ? & ?) _ -> -> Ho. split_and!; auto. Qed.

Lemma order_frame order t t' x y :
  t' ≠ t → (t, x) ∈ order ++ [(t', y)] → (t, x) ∈ order.
Proof. rewrite elem_of_app, list_elem_of_singleton. naive_solver. Qed.

(** A running operation that is bound to no reply takes effect. *)
Lemma s3_log_linearize mops trace gs ops order a a' t (c : call) p p' r :
  log_ok true true a0 mops trace (g_op <$> gs) ops order a →
  gs !! t = Some (MkS3GThread c p None) → store_step true a c r a' →
  log_ok true true a0 mops trace (g_op <$> <[t := MkS3GThread c p' (Some r)]> gs)
    (<[t := MkOperation c (Some r)]> ops) (order ++ [(t, Linearized)]) a'.
Proof.
  intros Hlog Hg%s3_running_op Hs.
  destruct (lg_running _ _ _ _ _ _ _ _ _ Hlog t _ Hg) as [Ho Hm].
  pose proof (log_linearize _ _ _ _ _ _ _ _ _ _ _ Hlog Hm Ho Hs) as Hlog'.
  rewrite fmap_insert. unfold g_op at 1; simpl.
  by rewrite (alter_const _ _ _ _ Hg) in Hlog'.
Qed.

Lemma s3_log_same mops trace gs ops order a t (c : call) p p' lin :
  log_ok true true a0 mops trace (g_op <$> gs) ops order a →
  gs !! t = Some (MkS3GThread c p lin) →
  log_ok true true a0 mops trace (g_op <$> <[t := MkS3GThread c p' lin]> gs) ops order a.
Proof. intros Hlog Hg. rewrite fmap_insert, insert_id; [done|]. exact (s3_running_op _ _ _ Hg). Qed.

(** *** A request *)

Definition requested m gs (c : call) t (p : prog s3_reply (reply StoreError c)) srv flight :
    Prop :=
  ∃ gs' ops order a, explained
    (MkS3Machine srv flight (<[t := MkS3Thread c p]> (m_threads m)) (m_ops m) (m_trace m))
    gs' ops order a.

(** A request without effect, after which at most the write [q'] is in flight. *)
Lemma request_same m gs ops order a t (c : call) p p' flight :
  explained m gs ops order a → gs !! t = Some (MkS3GThread c p None) →
  harmless bkt c p' → (∀ t' q, flight !! t' = Some q →
    if decide (t' = t) then writes bkt c q ∧ ∃ x, p' = Ret x ∧ backend_failure c x
    else m_flight m !! t' = Some q) →
  requested m gs c t p' (m_server m) flight.
Proof.
  intros (Hth & Hok & Hsrv & Hfl & Hlog) Hg Hp Hflight.
  destruct (lg_running _ _ _ _ _ _ _ _ _ Hlog t _ (s3_running_op _ _ _ Hg)) as [_ Hm].
  destruct (log_pending _ _ _ _ _ _ _ _ Hlog (s3_running_op _ _ _ Hg)) as (_ & Hl & _).
  exists (<[t := MkS3GThread c p' None]> gs), ops, order, a. split_and!; simpl.
  - by rewrite fmap_insert, Hth.
  - intros t' g [[<- <-]|[_ ?]]%lookup_insert_Some; [by left|by eapply Hok].
  - done.
  - intros t' q Hq. specialize (Hflight t' q Hq). case_decide as Ht.
    + subst t'. destruct Hflight as [Hw Hx]. split; [rewrite Hl; by intros [? ?]|]. split.
      * eexists. split; [exact Hm|]. split; [done|]. by intros [? ?].
      * intros g. rewrite lookup_insert_eq. by intros [= <-].
    + eapply (flight_frame _ _ gs); [by apply Hfl|done|done|by rewrite lookup_insert_ne|done].
  - by eapply s3_log_same.
Qed.

(** A request with which the operation takes effect. *)
Lemma request_linearize m gs ops order a a' t (c : call) p x srv :
  explained m gs ops order a → gs !! t = Some (MkS3GThread c p None) →
  m_flight m !! t = None → store_step true a c x a' → srv !! bkt = Some a' →
  explained
    (MkS3Machine srv (m_flight m) (<[t := MkS3Thread c (Ret x)]> (m_threads m)) (m_ops m)
      (m_trace m))
    (<[t := MkS3GThread c (Ret x) (Some x)]> gs) (<[t := MkOperation c (Some x)]> ops)
    (order ++ [(t, Linearized)]) a'.
Proof.
  intros (Hth & Hok & Hsrv & Hfl & Hlog) Hg Hnone Hs Hsrv'. split_and!; simpl.
  - by rewrite fmap_insert, Hth.
  - intros t' g [[<- <-]|[_ ?]]%lookup_insert_Some; [by exists x|by eapply Hok].
  - done.
  - intros t' q Hq. assert (t ≠ t') by congruence.
    eapply (flight_frame _ _ gs); [by apply Hfl|done|done|by rewrite lookup_insert_ne|].
    intros y. by apply order_frame.
  - by eapply s3_log_linearize.
Qed.

Lemma request_explained m gs ops order a t (c : call) sc k lin r srv flight :
  explained m gs ops order a → gs !! t = Some (MkS3GThread c (Call sc k) lin) →
  s3_effect t (m_server m) (m_flight m) sc r srv flight →
  requested m gs c t (k r) srv flight.
Proof.
  intros Hex Hg Hs. destruct (Hex) as (_ & Hok & Hsrv & Hfl & _).
  assert (m_flight m !! t = None) as Hnone.
  { apply eq_None_not_Some. intros [q Hq]. destruct (Hfl t q Hq) as (_ & _ & Hx).
    by destruct (Hx _ Hg) as (x & ? & _). }
  assert (∀ t' q, m_flight m !! t' = Some q →
    if decide (t' = t) then writes bkt c q ∧ ∃ x, k r = Ret x ∧ backend_failure c x
    else m_flight m !! t' = Some q) as Hkeep.
  { intros t' q Hq. case_decide; [congruence|done]. }
  pose proof (Hok t _ Hg) as Hp. unfold g_ok in Hp; simpl in Hp.
  destruct lin as [r'|]; [by destruct Hp as (x & ? & _)|].
  destruct sc as [bucket key|q]; simpl in *.
  - destruct Hs as (Hget & -> & ->). destruct Hp as [[-> Hp]|[-> Hp]].
    + by eapply request_same.
    + destruct (Hp _ _ _ Hsrv Hget) as (x & -> & Hx). by eexists _, _, _, _; eapply request_linearize.
  - destruct Hp as [[]|(Hw & Hok' & Herr)]. destruct r as [etag|e].
    + destruct Hs as [(v & Hput & Hn) ->].
      destruct (Hok' _ _ _ _ _ Hsrv Hput Hn) as (x & a' & -> & ? & ?).
      by eexists _, _, _, _; eapply request_linearize.
    + destruct Hs as [-> ->]. specialize (Herr e). destruct (rejected e).
      * by eapply request_same.
      * destruct Herr as (x & Hx & Hf). rewrite Hx in *. eapply request_same; [done|done| |].
        { intros a1. by apply failure_without_effect. }
        intros t' q'. case_decide as Ht; [subst t'; rewrite lookup_insert_eq|].
        { intros [= <-]. split; [done|]. by exists x. }
        by rewrite lookup_insert_ne.
Qed.

(** *** A write that arrives late *)

Lemma writes_failure (c : call) q : writes bkt c q → ∃ x : reply StoreError c, backend_failure c x.
Proof.
  intros [_ Hw]. destruct c; try done.
  - exists (Err (CreateStore MissingEtag)). by eexists.
  - exists (Err (ReplaceStore MissingEtag)). by eexists.
Qed.

Lemma flight_delete mops gs gs' order order' flight t :
  (∀ t q, flight !! t = Some q → flight_ok mops gs order t q) →
  (∀ t', t' ≠ t → gs' !! t' = gs !! t') →
  (∀ t' x, t' ≠ t → (t', x) ∈ order' → (t', x) ∈ order) →
  ∀ t' q, delete t flight !! t' = Some q → flight_ok mops gs' order' t' q.
Proof.
  intros Hfl Hgs Ho t' q [Hne Hq]%lookup_delete_Some.
  eapply (flight_frame _ _ gs _ order _ _ _ t); auto.
Qed.

(** The operation that sent it did not return: it is about to, or it crashed. *)
Lemma deliver_unreturned m gs ops order a a' t (c : call) (x : reply StoreError c) srv :
  explained m gs ops order a → m_ops m !! t = Some (MkOperation c None) →
  ops !! t = Some (MkOperation c None) →
  (∀ g, gs !! t = Some g → ∃ x, g_prog g = Ret x ∧ backend_failure (g_call g) x) →
  backend_failure c x → store_step true a c x a' → srv !! bkt = Some a' →
  ∃ gs' ops' order', explained
    (MkS3Machine srv (delete t (m_flight m)) (m_threads m) (m_ops m) (m_trace m))
    gs' ops' order' a'.
Proof.
  intros (Hth & Hok & Hsrv & Hfl & Hlog) Ho Ho' Hrun Hx Hs Hsrv'.
  pose proof (log_linearize _ _ _ _ _ _ _ _ _ _ _ Hlog Ho Ho' Hs) as Hlog'.
  destruct (gs !! t) as [g|] eqn:Hg.
  - destruct (lg_running _ _ _ _ _ _ _ _ _ Hlog t _ (s3_running_op _ _ _ Hg)) as [Hog _].
    rewrite Ho' in Hog. destruct g as [c' p lin]. injection Hog as <- Hlin.
    apply (Eqdep_dec.inj_pair2_eq_dec _ (λ x y, decide (x = y))) in Hlin as <-.
    assert (∃ x', p = Ret x' ∧ backend_failure c x') as (x' & -> & Hx')
      by exact (Hrun _ eq_refl).
    exists (<[t := MkS3GThread c (Ret x') (Some x)]> gs), (<[t := MkOperation c (Some x)]> ops),
      (order ++ [(t, Linearized)]). split_and!; simpl; try done.
    + rewrite fmap_insert, insert_id; [done|]. by rewrite lookup_fmap, Hg.
    + intros t' g [[<- <-]|[_ ?]]%lookup_insert_Some; [|by eapply Hok].
      exists x'. split; [done|]. intros a1 a2. by apply failure_replaces.
    + eapply flight_delete; [done| |].
      * intros t' Hne. by rewrite lookup_insert_ne.
      * intros t' y Hne. by apply order_frame.
    + by eapply s3_log_linearize.
  - exists gs, (<[t := MkOperation c (Some x)]> ops), (order ++ [(t, Linearized)]).
    split_and!; simpl; try done.
    + eapply flight_delete; [done|done|]. intros t' y Hne. by apply order_frame.
    + rewrite alter_id in Hlog'; [done|]. intros o. by rewrite lookup_fmap, Hg.
Qed.

Lemma deliver_explained m gs ops order a t q v srv :
  explained m gs ops order a → m_flight m !! t = Some q → put_applied (m_server m) q v srv →
  ∃ gs' ops' order' a', explained
    (MkS3Machine srv (delete t (m_flight m)) (m_threads m) (m_ops m) (m_trace m))
    gs' ops' order' a'.
Proof.
  intros Hex Hq Hput. destruct (Hex) as (Hth & Hok & Hsrv & Hfl & Hlog).
  destruct (Hfl t q Hq) as (Hl & ([c [x|]] & Ho & Hw & Hamb) & Hrun); simpl in *.
  - specialize (Hamb ltac:(by eexists)).
    destruct (applied_step bkt c q _ _ _ _ x Hw Hsrv Hput Hamb) as (a' & Hs & Hsrv').
    exists gs, ops, (order ++ [(t, Linearized)]), a'. split_and!; simpl; try done.
    + eapply flight_delete; [done|done|]. intros t' y Hne. by apply order_frame.
    + by eapply log_linearize_late.
  - destruct (writes_failure c q Hw) as [x Hx].
    destruct (applied_step bkt c q _ _ _ _ x Hw Hsrv Hput Hx) as (a' & Hs & Hsrv').
    destruct (lg_ops _ _ _ _ _ _ _ _ _ Hlog t _ Ho) as (o' & Ho' & [Hc _] & _ & _ & Hno & _).
    assert (op_reply o' = None) as Hnone.
    { apply eq_None_not_Some. by intros [?|[_ []]]%Hno. }
    destruct o' as [c' r']; simpl in *. subst c' r'.
    destruct (deliver_unreturned m gs ops order a a' t c x srv) as (? & ? & ? & ?); eauto.
Qed.

(** *** A return *)

Lemma explained_return m gs ops order a t (c : call) r r' :
  explained m gs ops order a → gs !! t = Some (MkS3GThread c (Ret r) r') →
  m_flight m !! t = None ∨ backend_failure c r →
  match r' with
  | Some r' => ∀ a1 a2, store_step true a1 c r' a2 → store_step true a1 c r a2
  | None => backend_failure c r
  end →
  ∃ gs' ops' order', explained
    (MkS3Machine (m_server m) (m_flight m) (delete t (m_threads m))
      (<[t := MkOperation c (Some r)]> (m_ops m)) (m_trace m ++ [(t, Returned)]))
    gs' ops' order' a.
Proof.
  intros (Hth & Hok & Hsrv & Hfl & Hlog) Hg Hfr Hr.
  destruct (lg_running _ _ _ _ _ _ _ _ _ Hlog t _ (s3_running_op _ _ _ Hg)) as [_ Hm].
  exists (delete t gs), (<[t := MkOperation c (Some r)]> ops), (order ++ [(t, Returned)]).
  split_and!; simpl; try done.
  - by rewrite fmap_delete, Hth.
  - intros t' g [_ ?]%lookup_delete_Some. by eapply Hok.
  - intros t' q Hq. pose proof (Hfl t' q Hq) as Hf. destruct (decide (t' = t)) as [->|Hne].
    + destruct Hf as (Hl & (o & Ho & Hw & _) & _). rewrite Hm in Ho. injection Ho as <-.
      split; [|split].
      * rewrite elem_of_app, list_elem_of_singleton. naive_solver.
      * eexists. rewrite lookup_insert_eq. split; [done|]. split; [done|].
        intros _. destruct Hfr; [congruence|done].
      * intros g. by rewrite lookup_delete_eq.
    + eapply (flight_frame _ _ gs _ order _ _ _ t); try done;
        [by rewrite lookup_insert_ne|by rewrite lookup_delete_ne|].
      intros y. by apply order_frame.
  - rewrite fmap_delete.
    apply (log_return true true _ _ _ _ t (MkOperation c r') r Hlog); [exact (s3_running_op _ _ _ Hg)|].
    by destruct r'.
Qed.

Lemma return_explained m gs ops order a t (c : call) r r' :
  explained m gs ops order a → gs !! t = Some (MkS3GThread c (Ret r) r') →
  ∃ gs' ops' order', explained
    (MkS3Machine (m_server m) (m_flight m) (delete t (m_threads m))
      (<[t := MkOperation c (Some r)]> (m_ops m)) (m_trace m ++ [(t, Returned)]))
    gs' ops' order' a.
Proof.
  intros Hex Hg. destruct (Hex) as (Hth & Hok & Hsrv & Hfl & Hlog).
  pose proof (Hok t _ Hg) as Hp. unfold g_ok in Hp; simpl in Hp.
  destruct (m_flight m !! t) as [q|] eqn:Hq.
  - destruct (Hfl t q Hq) as (_ & _ & Hx). destruct (Hx _ Hg) as (x & [= <-] & Hf).
    eapply explained_return; [done|done|by right|].
    destruct r' as [r'|]; [|done]. by destruct Hp as (x & [= <-] & ?).
  - destruct r' as [r'|].
    { destruct Hp as (x & [= <-] & ?). eapply explained_return; [done|done|by left|done]. }
    destruct Hp as [Hp|[]]. simpl in Hp.
    assert (Hex' := request_linearize m gs ops order a a t c _ r (m_server m)
      Hex Hg Hq (Hp a) Hsrv).
    destruct (explained_return _ _ _ _ _ t c r (Some r) Hex') as (gs' & ops' & order' & Hret);
      [apply lookup_insert_eq|by left|done|].
    simpl in Hret. rewrite delete_insert_eq in Hret. by exists gs', ops', order'.
Qed.

Lemma s3_explained_step m m' gs ops order a :
  explained m gs ops order a → s3_step bkt m m' →
  ∃ gs' ops' order' a', explained m' gs' ops' order' a'.
Proof.
  intros Hex Hstep. destruct (Hex) as (Hth & Hok & Hsrv & Hfl & Hlog).
  destruct Hstep as [t store c m Hb Hc Ht|t c sc k r srv flight m Ht Hs|t q v srv m Hq Hput|
    t m|t c r m Ht|t m].
  - exists (<[t := MkS3GThread c (s3_op store c) None]> gs), (<[t := MkOperation c None]> ops),
      (order ++ [(t, Invoked)]), a. split_and!; simpl; try done.
    + by rewrite fmap_insert, Hth.
    + intros t' g [[<- <-]|[_ ?]]%lookup_insert_Some; [by apply s3_op_first|by eapply Hok].
    + intros t' q Hq. pose proof (Hfl t' q Hq) as Hf.
      assert (t' ≠ t) as Hne. { intros ->. destruct Hf as (_ & (o & Ho & _) & _). congruence. }
      eapply (flight_frame _ _ gs _ order _ _ _ t); [done..| | |];
        [by rewrite lookup_insert_ne..|]. intros y. by apply order_frame.
    + rewrite fmap_insert. by apply log_invoke.
  - rewrite Hth in Ht. apply s3_erase_lookup in Ht as [lin Hg]. by eapply request_explained.
  - by eapply deliver_explained.
  - exists gs, ops, order, a. split_and!; simpl; try done. by eapply flight_delete.
  - rewrite Hth in Ht. apply s3_erase_lookup in Ht as [lin Hg].
    destruct (return_explained m gs ops order a t c r lin Hex Hg) as (? & ? & ? & ?). eauto.
  - exists (delete t gs), ops, order, a. split_and!; simpl; try done.
    + by rewrite fmap_delete, Hth.
    + intros t' g [_ ?]%lookup_delete_Some. by eapply Hok.
    + intros t' q Hq. destruct (Hfl t' q Hq) as (? & ? & Hrun). split_and!; [done..|].
      intros g [_ ?]%lookup_delete_Some. by apply Hrun.
    + rewrite fmap_delete. by apply log_crash.
Qed.

Lemma s3_explained_reachable m m' gs ops order a :
  explained m gs ops order a → rtc (s3_step bkt) m m' →
  ∃ gs' ops' order' a', explained m' gs' ops' order' a'.
Proof.
  intros Hm Hsteps. revert gs ops order a Hm.
  induction Hsteps as [m|m m1 m' Hstep _ IH]; intros gs ops order a Hm; [by eauto|].
  destruct (s3_explained_step _ _ _ _ _ _ Hm Hstep) as (? & ? & ? & ? & ?). by eapply IH.
Qed.
End Preservation.

(** An execution by clients of one bucket. *)
Definition s3_execution `{!S3Client} (bkt : string) (m0 m : s3_machine) : Prop :=
  rtc (s3_step bkt) m0 m.

Section Linearizable.
Context `{!S3Client} (bkt : string).

Lemma s3_explained a0 m0 m :
  s3_initial bkt a0 m0 → s3_execution bkt m0 m →
  ∃ gs ops order a, explained bkt a0 m gs ops order a.
Proof.
  intros [Hsrv Hfl Hth Hops Htr] Hsteps.
  apply (s3_explained_reachable bkt a0 m0 m ∅ ∅ [] a0); [|done].
  split_and!; rewrite ?Hth, ?fmap_empty; try done.
  - by intros t q; rewrite Hfl, lookup_empty.
  - rewrite Hops, Htr. apply log_init.
Qed.

(** A running operation has not returned. *)
Lemma s3_running a0 m0 m t c p :
  s3_initial bkt a0 m0 → s3_execution bkt m0 m → m_threads m !! t = Some (MkS3Thread c p) →
  m_ops m !! t = Some (MkOperation c None).
Proof.
  intros Hinit Hsteps Ht.
  destruct (s3_explained a0 m0 m Hinit Hsteps) as (gs & ops & order & a & Hth & _ & _ & _ & Hlog).
  rewrite Hth in Ht. apply s3_erase_lookup in Ht as [lin Hg].
  by destruct (lg_running _ _ _ _ _ _ _ _ _ Hlog t _ (s3_running_op _ _ _ Hg)).
Qed.

(** Every execution linearizes. *)
Lemma s3_execution_linearizes a0 m0 m :
  s3_initial bkt a0 m0 → s3_execution bkt m0 m →
  ∃ ops order a, bucket_linearizes bkt a0 m ops order a.
Proof.
  intros Hinit Hsteps.
  destruct (s3_explained a0 m0 m Hinit Hsteps) as (gs & ops & order & a & _ & _ & ? & _ & Hlog).
  exists ops, order, a. split; [by eapply log_linearizes|done].
Qed.

(** C3: the S3 adapter implements the contract of the object store under concurrency,
    failures and crashes: in every execution by any number of clients of one bucket,
    every operation takes effect at one moment between its invocation and its return,
    except that a write that reported a backend failure may take effect later or
    never; the effects and replies in that order are those of the abstract store, and
    the bucket holds the objects of the resulting store. *)
Theorem s3_linearizable a0 m0 m :
  s3_initial bkt a0 m0 → s3_execution bkt m0 m →
  ∃ ops order a, bucket_linearizes bkt a0 m ops order a.
Proof. apply s3_execution_linearizes. Qed.
End Linearizable.
