(* ===== verification/S3Scenarios.v ===== *)
(** * Scenarios on S3

    A concrete client, and executions of the machine that apply its theorems: in
    [timeout_race] a write arrives after its failure was reported. *)

From S2P Require Import Prelude.
From S2P Require Import Program.
From S2P Require Import ObjectStore.
From S2P Require Import Linearization.
From S2P Require Import S3Store.
From S2P Require Import S3Machine.
From S2P Require Import S3Linearizable.
Import S3.

(** An error is its status, if any. *)
#[global] Instance example_s3 : S3Client := {|
  client_error := option N;
  client_status := id;
  client_error_text e := match e with Some n => "status " +:+ pretty n | None => "timeout" end;
  header_value s := if str_contains "!" s then Err None else Ok tt;
  client_auth := option (string * string * option string);
  client_credentials := string * string * option string;
  auth_from_env := Ok None;
  credentials_new access secret := Ok (access, secret, None);
  credentials_with_session_token c token := Ok (c.1, Some token);
  auth_static c := Some c;
  client_builder := string;
  client := string;
  client_builder_new endpoint := if String.eqb endpoint "" then Err None else Ok endpoint;
  client_build endpoint _ _ _ := Ok endpoint;
|}.

Definition data_store : S3Store :=
  MkS3Store (MkS3Config "data" "eu-west-1" None DefaultCredentials false) "endpoint".

Definition holds_now (a : astore) (l : Location) (c : condition) : bool :=
  match c with
  | IfNoneMatch value => bool_decide (value = "*" ∧ cur a !! l = None)
  | IfMatch value => bool_decide ((object_version <$> cur a !! l) = Some (version_new value))
  end.

(** The server processes a write, giving the next version to new contents. *)
Definition serve_put (q : put_request) (srv : buckets) : option (Version * buckets) :=
  a ← srv !! put_bucket q;
  let l := key_location (put_key q) in
  let v := version_new (pretty (puts a)) in
  if holds_now a l (put_condition q) && bool_decide (hist a !! (l, v) = None)
  then Some (v, <[put_bucket q := put l (put_body q) v a]> srv) else None.

Lemma serve_put_applied q srv v srv' :
  serve_put q srv = Some (v, srv') → put_applied srv q v srv'.
Proof.
  unfold serve_put. destruct (srv !! put_bucket q) as [a|] eqn:Ha; [|done]. simpl.
  destruct (holds_now _ _ _) eqn:Hh; [|done]. case_bool_decide as Hf; [|done]. simpl.
  intros [= <- <-]. exists a. split_and!; [done| | |done].
  - unfold holds_now in Hh. by destruct (put_condition q); apply bool_decide_eq_true in Hh.
  - by apply fresh_issuable.
Qed.

Definition serve (c : s3_call) (srv : buckets) : option (s3_reply c * buckets) :=
  match c return option (s3_reply c * buckets) with
  | SendGet bucket key =>
      a ← srv !! bucket;
      Some (match cur a !! key_location key with
            | Some o => Ok (MkGetResponse (Some (version_as_str (object_version o)))
                              (Ok (object_bytes o)))
            | None => Err (Some 404%N)
            end, srv)
  | SendPut q =>
      Some (match serve_put q srv with
            | Some (v, srv') => (Ok (Some (version_as_str v)), srv')
            | None => (Err (Some 412%N), srv)
            end)
  end.

Lemma serve_effect t c srv r srv' flight :
  serve c srv = Some (r, srv') → s3_effect t srv flight c r srv' flight.
Proof.
  destruct c as [bkt key|q]; simpl.
  - destruct (srv !! bkt) as [a|] eqn:Ha; [|done]. simpl. intros [= <- <-].
    split; [|done]. exists a. split; [done|].
    destruct (cur a !! key_location key) as [o|] eqn:Ho; [|done].
    exists o. split_and!; [done|by right|by left].
  - intros [= Hs]. destruct (serve_put q srv) as [[v srv1]|] eqn:Hp; simplify_eq; [|done].
    split; [|done]. exists v. split; [by apply serve_put_applied|by right].
Qed.

(** ** A scheduler *)

Inductive s3_action :=
  | S3Begin (t : nat) (c : call)
  | S3Act (t : nat)
  | S3TimeOut (t : nat)
  | S3Arrive (t : nat)
  | S3Crash (t : nat).

Definition s3_act (x : s3_action) (m : s3_machine) : option s3_machine :=
  match x with
  | S3Begin t c =>
      if decide (store_call c = true ∧ m_ops m !! t = None) then
        Some (MkS3Machine (m_server m) (m_flight m)
          (<[t := MkS3Thread c (s3_op data_store c)]> (m_threads m))
          (<[t := MkOperation c None]> (m_ops m)) (m_trace m ++ [(t, Invoked)]))
      else None
  | S3Act t =>
      th ← m_threads m !! t;
      match th_prog th with
      | Ret r => Some (MkS3Machine (m_server m) (m_flight m) (delete t (m_threads m))
          (<[t := MkOperation (th_call th) (Some r)]> (m_ops m)) (m_trace m ++ [(t, Returned)]))
      | Panic => None
      | Call sc k =>
          '(r, srv) ← serve sc (m_server m);
          Some (MkS3Machine srv (m_flight m) (<[t := MkS3Thread (th_call th) (k r)]> (m_threads m))
            (m_ops m) (m_trace m))
      end
  | S3TimeOut t =>
      th ← m_threads m !! t;
      match th_prog th with
      | Call (SendPut q) k =>
          Some (MkS3Machine (m_server m) (<[t := q]> (m_flight m))
            (<[t := MkS3Thread (th_call th) (k (Err None))]> (m_threads m)) (m_ops m) (m_trace m))
      | _ => None
      end
  | S3Arrive t =>
      q ← m_flight m !! t;
      '(_, srv) ← serve_put q (m_server m);
      Some (MkS3Machine srv (delete t (m_flight m)) (m_threads m) (m_ops m) (m_trace m))
  | S3Crash t =>
      Some (MkS3Machine (m_server m) (m_flight m) (delete t (m_threads m)) (m_ops m) (m_trace m))
  end.

Fixpoint s3_schedule (xs : list s3_action) (m : s3_machine) : option s3_machine :=
  match xs with
  | [] => Some m
  | x :: xs => m ← s3_act x m; s3_schedule xs m
  end.

Lemma s3_act_step x m m' : s3_act x m = Some m' → s3_step "data" m m'.
Proof.
  destruct x as [t c|t|t|t|t]; simpl.
  - case_decide as Hd; [|done]. destruct Hd. intros [= <-]. by constructor.
  - destruct (m_threads m !! t) as [[c p]|] eqn:Ht; simpl; [|done].
    destruct p as [r| |sc k]; [intros [= <-]; by constructor|done|].
    destruct (serve sc _) as [[r srv]|] eqn:Hs; simpl; [|done]. intros [= <-].
    by eapply s3_request; [|apply serve_effect].
  - destruct (m_threads m !! t) as [[c p]|] eqn:Ht; simpl; [|done].
    destruct p as [r| |[|q] k]; try done. intros [= <-].
    by eapply (s3_request _ t c (SendPut q) k (Err None)).
  - destruct (m_flight m !! t) as [q|] eqn:Hq; simpl; [|done].
    destruct (serve_put q _) as [[v srv]|] eqn:Hs; simpl; [|done]. intros [= <-].
    by eapply s3_deliver; [|apply serve_put_applied].
  - intros [= <-]. constructor.
Qed.

Lemma s3_schedule_reachable xs m m' :
  s3_schedule xs m = Some m' → s3_execution "data" m m'.
Proof.
  revert m. induction xs as [|x xs IH]; intros m Hs; simpl in *; [simplify_eq; apply rtc_refl|].
  destruct (s3_act x m) as [m1|] eqn:Hx; [|done]. simpl in Hs.
  apply rtc_l with m1; [by apply (s3_act_step x)|by apply IH].
Qed.

(** ** A write that arrives late *)

Definition empty_bucket : s3_machine :=
  MkS3Machine {["data" := empty_astore]} ∅ ∅ ∅ [].

Lemma empty_bucket_initial : s3_initial "data" empty_astore empty_bucket.
Proof. by split. Qed.

Definition map_key : Location := MkLocation "default/maps/settings.json".

(** Client 0 creates an object, its request times out and it reports the failure;
    client 1 finds no object; then the request arrives, and client 2, which wants to
    create the object too, finds it there. *)
Definition timeout_race : list s3_action :=
  [S3Begin 0 (Create map_key (bytes_of_string "a")); S3TimeOut 0; S3Act 0;
   S3Begin 1 (Get map_key); S3Act 1; S3Act 1; S3Arrive 0;
   S3Begin 2 (Create map_key (bytes_of_string "b")); S3Act 2; S3Act 2; S3Act 2].

Definition after_timeout : s3_machine :=
  default empty_bucket (s3_schedule timeout_race empty_bucket).

Lemma timeout_reachable : s3_execution "data" empty_bucket after_timeout.
Proof. apply (s3_schedule_reachable timeout_race). vm_compute. reflexivity. Qed.

Lemma s3_linearizable_witness :
  m_ops after_timeout !! 0 =
    Some (MkOperation (Create map_key (bytes_of_string "a"))
            (Some (Err (CreateStore (Transport None))))) ∧
  m_ops after_timeout !! 1 = Some (MkOperation (Get map_key) (Some (Ok None))) ∧
  m_ops after_timeout !! 2 =
    Some (MkOperation (Create map_key (bytes_of_string "b"))
            (Some (Err (CreateAlreadyExists (version_new "0"))))) ∧
  ∃ ops order a, bucket_linearizes "data" empty_astore after_timeout ops order a ∧
    cur a !! map_key = Some (MkObject (bytes_of_string "a") (version_new "0")).
Proof.
  split_and!; [vm_compute; reflexivity..|].
  destruct (s3_linearizable "data" _ _ _ empty_bucket_initial timeout_reachable)
    as (ops & order & a & Hlin).
  exists ops, order, a. split; [exact Hlin|]. destruct Hlin as [_ Hsrv].
  assert (m_server after_timeout !! "data" =
    Some (put map_key (bytes_of_string "a") (version_new "0") empty_astore)) as Heq
    by (vm_compute; reflexivity).
  rewrite Heq in Hsrv. injection Hsrv as <-. reflexivity.
Defined.
