(* ===== verification/Composition.v ===== *)
(** * Data structures on a backend

    The concurrent machine of [Concurrent] takes the calls of a data structure as
    atomic steps of the abstract store.  Here the clients run on a backend whose
    operations overlap, block, fail and crash: [sys_step] interleaves their own steps
    with those of any [Backend].  When the backend linearizes, every execution of the
    system is explained by an execution of the concurrent machine in which each client
    that returned returned the same, so that what was proved of the data structures
    there holds of their implementation on the backend. *)

From S2P Require Import Prelude.
From S2P Require Import Program.
From S2P Require Import ObjectStore.
From S2P Require Import Linearization.
From S2P Require Import Concurrent.

(** ** The interface of a backend *)

(** The steps of a backend, the operations invoked on it, and the order of their
    invocations and returns. *)
Class Backend (E M : Type) := {
  bk_step : M → M → Prop;
  bk_ops : M → gmap nat (operation E);
  bk_trace : M → list (nat * moment);
}.

Inductive bk_event `{Backend E M} (m m' : M) : Prop :=
  | event_silent : bk_ops m' = bk_ops m → bk_trace m' = bk_trace m → bk_event m m'
  | event_invoke i c :
      bk_ops m !! i = None → bk_ops m' = <[i := MkOperation c None]> (bk_ops m) →
      bk_trace m' = bk_trace m ++ [(i, Invoked)] → bk_event m m'
  | event_return i c r :
      bk_ops m !! i = Some (MkOperation c None) →
      bk_ops m' = <[i := MkOperation c (Some r)]> (bk_ops m) →
      bk_trace m' = bk_trace m ++ [(i, Returned)] → bk_event m m'.

(** What a backend promises: from [m0], whose objects are those of [a0], every
    execution linearizes. *)
Class BackendLinearizes (E M : Type) `{!Backend E M} (spurious delayed : bool) (a0 : astore)
    (m0 : M) (holds : M → astore → Prop) : Prop := {
  bl_ops : bk_ops m0 = ∅;
  bl_trace : bk_trace m0 = [];
  bl_event m m' : rtc bk_step m0 m → bk_step m m' → bk_event m m';
  bl_linearizes m : rtc bk_step m0 m →
    ∃ ops order a, linearizes spurious delayed a0 (bk_ops m) (bk_trace m) ops order a ∧
      holds m a;
}.

(** ** The system *)

(** A client: its operation and what is left of it, the backend operations it made
    and the one it waits for, and the UUIDs and clock readings it has drawn. *)
Record client (E A : Type) := MkClient {
  cl_op : io E A;
  cl_cur : io E A;
  cl_calls : list nat;
  cl_wait : option nat;
  cl_uuids : list Uuid;
  cl_clock : list N;
}.
Arguments MkClient {E A}.
Arguments cl_op {E A} c.
Arguments cl_cur {E A} c.
Arguments cl_calls {E A} c.
Arguments cl_wait {E A} c.
Arguments cl_uuids {E A} c.
Arguments cl_clock {E A} c.

Record system (E A M : Type) := MkSystem {
  sy_backend : M;
  sy_clients : gmap nat (client E A);
  sy_uuids : list Uuid;
}.
Arguments MkSystem {E A M}.
Arguments sy_backend {E A M} s.
Arguments sy_clients {E A M} s.
Arguments sy_uuids {E A M} s.

Section System.
Context {E A M : Type} `{!Backend E M}.
Implicit Types (m : M) (cl : client E A) (cls : gmap nat (client E A)).

(** A client that stops for ever needs no step; how a crash acts on the operation it
    waits for is a step of the backend. *)
Inductive sys_step : system E A M → system E A M → Prop :=
  | sys_begin m cls us t p :
      cls !! t = None →
      sys_step (MkSystem m cls us) (MkSystem m (<[t := MkClient p p [] None [] []]> cls) us)
  | sys_draw m cls us t cl c k r :
      cls !! t = Some cl → cl_cur cl = Call (R := reply E) c k → store_call c = false →
      sys_step (MkSystem m cls us)
        (MkSystem m (<[t := MkClient (cl_op cl) (k r) (cl_calls cl) (cl_wait cl)
            (cl_uuids cl ++ uuids_drawn c r) (cl_clock cl ++ clock_drawn c r)]> cls)
          (us ++ uuids_drawn c r))
  | sys_call m m' cls us t cl c k i :
      cls !! t = Some cl → cl_cur cl = Call (R := reply E) c k → store_call c = true →
      cl_wait cl = None → bk_step m m' → bk_ops m !! i = None →
      bk_ops m' = <[i := MkOperation c None]> (bk_ops m) →
      sys_step (MkSystem m cls us)
        (MkSystem m' (<[t := MkClient (cl_op cl) (cl_cur cl) (cl_calls cl ++ [i]) (Some i)
            (cl_uuids cl) (cl_clock cl)]> cls) us)
  | sys_reply m cls us t cl c k i r :
      cls !! t = Some cl → cl_cur cl = Call (R := reply E) c k → cl_wait cl = Some i →
      bk_ops m !! i = Some (MkOperation c (Some r)) →
      sys_step (MkSystem m cls us)
        (MkSystem m (<[t := MkClient (cl_op cl) (k r) (cl_calls cl) None
            (cl_uuids cl) (cl_clock cl)]> cls) us)
  | sys_backend m m' cls us :
      bk_step m m' → (∀ i, bk_ops m !! i = None → bk_ops m' !! i = None) →
      sys_step (MkSystem m cls us) (MkSystem m' cls us).

Definition sys_start (m0 : M) : system E A M := MkSystem m0 ∅ [].
End System.

(** ** Calls with replies *)

Section Unfolds.
Context {E A : Type}.
Implicit Types (p q : io E A) (ops : gmap nat (operation E)).

(** [p] with the replies of the operations [ids] and the draws [us] and [cs] comes to
    [q]. *)
Inductive unfolds ops : io E A → list nat → list Uuid → list N → io E A → Prop :=
  | unfolds_nil p : unfolds ops p [] [] [] p
  | unfolds_draw c k r ids us cs q :
      store_call c = false → unfolds ops (k r) ids us cs q →
      unfolds ops (Call (R := reply E) c k) ids (uuids_drawn c r ++ us) (clock_drawn c r ++ cs) q
  | unfolds_call c k r i ids us cs q :
      store_call c = true → ops !! i = Some (MkOperation c (Some r)) →
      unfolds ops (k r) ids us cs q →
      unfolds ops (Call (R := reply E) c k) (i :: ids) us cs q.

Lemma unfolds_trans ops p ids us cs p' ids' us' cs' q :
  unfolds ops p ids us cs p' → unfolds ops p' ids' us' cs' q →
  unfolds ops p (ids ++ ids') (us ++ us') (cs ++ cs') q.
Proof.
  intros H1 H2. induction H1 as [p|c k r ids us cs p1 Hc _ IH|c k r i ids us cs p1 Hc Hi _ IH].
  - done.
  - rewrite <- !app_assoc. apply unfolds_draw; auto.
  - simpl. eapply unfolds_call; eauto.
Qed.

Lemma unfolds_mono ops ops' p ids us cs q :
  (∀ i c r, ops !! i = Some (MkOperation c (Some r)) → ops' !! i = Some (MkOperation c (Some r))) →
  unfolds ops p ids us cs q → unfolds ops' p ids us cs q.
Proof.
  intros Hops. induction 1; [constructor|by apply unfolds_draw|eapply unfolds_call; eauto].
Qed.
End Unfolds.

(** ** Invariants of the system *)

(** [x] comes before [y], if [y] comes at all. *)
Definition before (trace : list (nat * moment)) (x y : nat * moment) : Prop :=
  ∃ h1 h2, trace = h1 ++ h2 ∧ x ∈ h1 ∧ (y ∉ h1).

Section Invariants.
Context {E A M : Type} `{!Backend E M}.
Implicit Types (m : M) (cl : client E A) (cls : gmap nat (client E A)) (s : system E A M)
  (mops : gmap nat (operation E)) (trace : list (nat * moment)).

Lemma before_app trace ext x y : before trace x y → before (trace ++ ext) x y.
Proof. intros (h1 & h2 & -> & ? & ?). exists h1, (h2 ++ ext). by rewrite app_assoc. Qed.

(** The calls of a client follow one another. *)
Definition in_turn trace (calls : list nat) : Prop :=
  ∀ l1 i l2 j l3, calls = l1 ++ i :: l2 ++ j :: l3 → before trace (i, Returned) (j, Invoked).

Record client_ok mops trace cl : Prop := MkClientOk {
  co_calls : ∃ ids, cl_calls cl = ids ++ option_list (cl_wait cl) ∧
    unfolds mops (cl_op cl) ids (cl_uuids cl) (cl_clock cl) (cl_cur cl) ∧
    ∀ i, i ∈ ids → (i, Returned) ∈ trace;
  co_wait i : cl_wait cl = Some i →
    ∃ c k o, store_call c = true ∧ cl_cur cl = Call (R := reply E) c k ∧
      mops !! i = Some o ∧ op_call o = c;
  co_nodup : NoDup (cl_calls cl);
  co_turn : in_turn trace (cl_calls cl);
}.

(** The trace tells which operations were invoked and have returned. *)
Definition trace_ok m : Prop :=
  (∀ i, (i, Invoked) ∈ bk_trace m ↔ is_Some (bk_ops m !! i)) ∧
  (∀ i, (i, Returned) ∈ bk_trace m ↔ ∃ c r, bk_ops m !! i = Some (MkOperation c (Some r))).

(** Each operation belongs to one client. *)
Record sys_ok s : Prop := MkSysOk {
  so_trace : trace_ok (sy_backend s);
  so_owner i : is_Some (bk_ops (sy_backend s) !! i) ↔
    ∃ t cl, sy_clients s !! t = Some cl ∧ i ∈ cl_calls cl;
  so_disjoint t t' cl cl' i : sy_clients s !! t = Some cl → sy_clients s !! t' = Some cl' →
    i ∈ cl_calls cl → i ∈ cl_calls cl' → t = t';
  so_clients t cl : sy_clients s !! t = Some cl →
    client_ok (bk_ops (sy_backend s)) (bk_trace (sy_backend s)) cl;
}.

(** The UUIDs clients draw are among those generated. *)
Record uuids_drawn_ok s : Prop := MkUuidsDrawnOk {
  ud_drawn t cl u : sy_clients s !! t = Some cl → u ∈ cl_uuids cl → u ∈ sy_uuids s;
  ud_distinct : NoDup (sy_uuids s) →
    ∀ t t' cl cl' u, sy_clients s !! t = Some cl → sy_clients s !! t' = Some cl' →
      u ∈ cl_uuids cl → u ∈ cl_uuids cl' → t = t';
  ud_unique : NoDup (sy_uuids s) → ∀ t cl, sy_clients s !! t = Some cl → NoDup (cl_uuids cl);
}.

(** *** Events of the backend *)

Definition extends mops mops' : Prop :=
  ∀ i o, mops !! i = Some o → ∃ o', mops' !! i = Some o' ∧ completes o o'.

Lemma extends_reply mops mops' i c r :
  extends mops mops' → mops !! i = Some (MkOperation c (Some r)) →
  mops' !! i = Some (MkOperation c (Some r)).
Proof. intros Hext (o & -> & _ & Ho)%Hext. by rewrite Ho by (by eexists). Qed.

Lemma event_extends m m' : bk_event m m' →
  extends (bk_ops m) (bk_ops m') ∧ ∃ ext, bk_trace m' = bk_trace m ++ ext.
Proof.
  intros [-> ->|i c Hi -> ->|i c r Hi -> ->].
  - split; [|by exists []; rewrite app_nil_r]. intros i o Ho. by exists o.
  - split; [|by eexists]. intros i' o Ho. exists o.
    rewrite lookup_insert_ne by congruence. done.
  - split; [|by eexists]. intros i' o Ho. destruct (decide (i = i')) as [<-|Hne].
    + rewrite lookup_insert_eq. simplify_eq. eexists. split; [done|]. split; [done|].
      by intros [? ?].
    + rewrite lookup_insert_ne by done. by exists o.
Qed.

Lemma trace_ok_event m m' : trace_ok m → bk_event m m' → trace_ok m'.
Proof.
  intros [Hi Hr] [Ho Ht|i c Hnew Ho Ht|i c r Hold Ho Ht]; unfold trace_ok; rewrite Ho, Ht.
  - done.
  - split; intros j; rewrite elem_of_app, list_elem_of_singleton, ?Hi, ?Hr.
    + rewrite lookup_insert_is_Some'. naive_solver.
    + destruct (decide (i = j)) as [<-|Hne].
      * rewrite lookup_insert_eq, Hnew. naive_solver.
      * rewrite lookup_insert_ne by done. naive_solver.
  - split; intros j; rewrite elem_of_app, list_elem_of_singleton, ?Hi, ?Hr.
    + rewrite lookup_insert_is_Some'. naive_solver.
    + destruct (decide (i = j)) as [<-|Hne].
      * rewrite lookup_insert_eq. naive_solver.
      * rewrite lookup_insert_ne by done. naive_solver.
Qed.

Lemma client_ok_event m m' cl :
  bk_event m m' → client_ok (bk_ops m) (bk_trace m) cl → client_ok (bk_ops m') (bk_trace m') cl.
Proof.
  intros [Hops [ext ->]]%event_extends [(ids & Hids & Hun & Hret) Hw Hnd Ht]. split; [| |done|].
  - exists ids. split; [done|]. split.
    + eapply unfolds_mono; [|done]. intros i c r. by apply extends_reply.
    + intros i Hi. apply elem_of_app. left. by apply Hret.
  - intros i Hi. destruct (Hw i Hi) as (c & k & o & Hc & Hcur & Ho & Hoc).
    destruct (Hops i o Ho) as (o' & Ho' & Hcall & _). exists c, k, o'. split_and!; congruence.
  - intros l1 i l2 j l3 Heq. eapply before_app, Ht, Heq.
Qed.

(** *** Steps of the system *)

(** A client that made no call. *)
Lemma sys_ok_update m cls us us' t cl cl' :
  sys_ok (MkSystem m cls us) → cls !! t = Some cl → cl_calls cl' = cl_calls cl →
  client_ok (bk_ops m) (bk_trace m) cl' →
  sys_ok (MkSystem m (<[t := cl']> cls) us').
Proof.
  intros [Htr Hown Hdis Hcl] Ht Hcalls Hok. simpl in *.
  assert (∀ t1 cl1, <[t := cl']> cls !! t1 = Some cl1 →
    ∃ cl2, cls !! t1 = Some cl2 ∧ cl_calls cl1 = cl_calls cl2) as Hback.
  { intros t1 cl1 [[<- <-]|[_ ?]]%lookup_insert_Some; eauto. }
  split; simpl; [done| | |].
  - intros i. rewrite Hown. split.
    + intros (t1 & cl1 & H1 & Hi). destruct (decide (t = t1)) as [<-|Hne].
      * exists t, cl'. rewrite lookup_insert_eq. simplify_eq. by rewrite Hcalls.
      * exists t1, cl1. by rewrite lookup_insert_ne.
    + intros (t1 & cl1 & (cl2 & H2 & ->)%Hback & Hi). eauto.
  - intros t1 t2 cl1 cl2 i (cl1' & H1 & ->)%Hback (cl2' & H2 & ->)%Hback. by eapply Hdis.
  - intros t1 cl1 [[<- <-]|[_ ?]]%lookup_insert_Some; [done|by eapply Hcl].
Qed.

Lemma sys_ok_begin m cls us t p :
  sys_ok (MkSystem m cls us) → cls !! t = None →
  sys_ok (MkSystem m (<[t := MkClient p p [] None [] []]> cls) us).
Proof.
  intros [Htr Hown Hdis Hcl] Ht. simpl in *. split; simpl; [done| | |].
  - intros i. rewrite Hown. split.
    + intros (t1 & cl1 & H1 & Hi). exists t1, cl1. rewrite lookup_insert_ne; [done|congruence].
    + intros (t1 & cl1 & [[<- <-]|[_ ?]]%lookup_insert_Some & Hi); [by apply elem_of_nil in Hi|eauto].
  - intros t1 t2 cl1 cl2 i [[<- <-]|[_ ?]]%lookup_insert_Some
      [[<- <-]|[_ ?]]%lookup_insert_Some Hi1 Hi2; [done|..]; simpl in *.
    + by apply elem_of_nil in Hi1.
    + by apply elem_of_nil in Hi2.
    + by eapply Hdis.
  - intros t1 cl1 [[<- <-]|[_ ?]]%lookup_insert_Some; [|by eapply Hcl].
    split; simpl; [|done|constructor|by intros [|] ?].
    exists []. split; [done|]. split; [constructor|]. by intros i ?%elem_of_nil.
Qed.

Lemma sys_ok_backend m m' cls us :
  sys_ok (MkSystem m cls us) → bk_event m m' →
  (∀ i, bk_ops m !! i = None → bk_ops m' !! i = None) → sys_ok (MkSystem m' cls us).
Proof.
  intros [Htr Hown Hdis Hcl] Hev Hdom. simpl in *. split; simpl.
  - by eapply trace_ok_event.
  - intros i. rewrite <- Hown. apply event_extends in Hev as [Hext _]. split.
    + destruct (bk_ops m !! i) eqn:Hi; [by eexists|]. rewrite Hdom by done. by intros [? ?].
    + by intros [o (o' & -> & _)%Hext].
  - done.
  - intros t cl Ht. by eapply client_ok_event, Hcl.
Qed.

Lemma event_invokes m m' i c :
  bk_event m m' → bk_ops m !! i = None → bk_ops m' = <[i := MkOperation c None]> (bk_ops m) →
  bk_trace m' = bk_trace m ++ [(i, Invoked)].
Proof.
  intros [Ho Ht|i' c' Hi' Ho Ht|i' c' r Hi' Ho Ht] Hi Heq; rewrite Ho in Heq;
    pose proof (f_equal (lookup i) Heq) as Hl; rewrite lookup_insert_eq in Hl.
  - congruence.
  - destruct (decide (i' = i)) as [->|Hne]; [done|]. rewrite lookup_insert_ne in Hl by done.
    congruence.
  - destruct (decide (i' = i)) as [->|Hne]; [congruence|]. rewrite lookup_insert_ne in Hl by done.
    congruence.
Qed.

Lemma sys_ok_call m m' cls us t cl c k i :
  sys_ok (MkSystem m cls us) → bk_event m m' →
  cls !! t = Some cl → cl_cur cl = Call (R := reply E) c k → store_call c = true →
  cl_wait cl = None → bk_ops m !! i = None →
  bk_ops m' = <[i := MkOperation c None]> (bk_ops m) →
  sys_ok (MkSystem m' (<[t := MkClient (cl_op cl) (cl_cur cl) (cl_calls cl ++ [i]) (Some i)
            (cl_uuids cl) (cl_clock cl)]> cls) us).
Proof.
  intros [Htr Hown Hdis Hcl] Hev Ht Hcur Hc Hw Hi Hops. simpl in *.
  pose proof (event_invokes _ _ _ _ Hev Hi Hops) as Htrace.
  assert (∀ t1 cl1, cls !! t1 = Some cl1 → i ∉ cl_calls cl1) as Hnew.
  { intros t1 cl1 H1 Hin. destruct (proj2 (Hown i)) as [o Ho]; [by eauto|congruence]. }
  split; simpl; [by eapply trace_ok_event| | |].
  - intros j. rewrite Hops, lookup_insert_is_Some', Hown. split.
    + intros [<-|(t1 & cl1 & H1 & Hj)].
      * eexists t, _. rewrite lookup_insert_eq. split; [done|]. simpl. set_solver.
      * destruct (decide (t = t1)) as [<-|Hne].
        { eexists t, _. rewrite lookup_insert_eq. split; [done|]. simplify_eq/=. set_solver. }
        exists t1, cl1. by rewrite lookup_insert_ne.
    + intros (t1 & cl1 & [[<- <-]|[_ ?]]%lookup_insert_Some & Hj); [|by eauto].
      simpl in Hj. apply elem_of_app in Hj as [Hj| ->%list_elem_of_singleton]; eauto.
  - intros t1 t2 cl1 cl2 j [[<- <-]|[_ H1]]%lookup_insert_Some
      [[<- <-]|[_ H2]]%lookup_insert_Some; simpl;
      rewrite ?elem_of_app, ?list_elem_of_singleton; [done|..].
    + intros [Hj| ->] Hj'; [by eapply Hdis|by apply Hnew in H2].
    + intros Hj' [Hj| ->]; [by eapply Hdis|by apply Hnew in H1].
    + by eapply Hdis.
  - intros t1 cl1 [[<- <-]|[_ H1]]%lookup_insert_Some; [|by eapply client_ok_event, Hcl].
    destruct (client_ok_event _ _ cl Hev (Hcl t cl Ht)) as [(ids & Hids & Hun & Hret) _ Hnd Hturn].
    rewrite Hw in Hids. simpl in Hids. rewrite app_nil_r in Hids.
    split; simpl.
    + exists ids. rewrite Hids. done.
    + intros j [= <-]. eexists c, k, _. split_and!; [done|done|by rewrite Hops, lookup_insert_eq|done].
    + apply NoDup_app. split; [done|]. split; [|apply NoDup_singleton].
      intros j Hj ->%list_elem_of_singleton. by apply Hnew in Ht.
    + intros l1 j l2 j' l3 Heq. destruct l3 as [|x l3 _] using rev_ind.
      * rewrite app_comm_cons, app_assoc in Heq. apply app_inj_2 in Heq as [Heq [= ->]]; [|done].
        exists (bk_trace m), [(j', Invoked)]. split; [done|]. split.
        { apply (proj2 Htr). destruct (Hcl t cl Ht) as [(ids' & Hids' & _ & Hret') _ _ _].
          rewrite Hw in Hids'. simpl in Hids'. rewrite app_nil_r in Hids'.
          apply (proj2 Htr), Hret'. rewrite <- Hids', Heq. set_solver. }
        rewrite (proj1 Htr), Hi. by intros [? ?].
      * rewrite !app_comm_cons, !app_assoc in Heq. apply app_inj_2 in Heq as [Heq _]; [|done].
        apply (Hturn l1 j l2 j' l3). by rewrite Heq, <- !app_assoc.
Qed.

Lemma sys_ok_reply m cls us t cl c k i r :
  sys_ok (MkSystem m cls us) →
  cls !! t = Some cl → cl_cur cl = Call (R := reply E) c k → cl_wait cl = Some i →
  bk_ops m !! i = Some (MkOperation c (Some r)) →
  sys_ok (MkSystem m (<[t := MkClient (cl_op cl) (k r) (cl_calls cl) None
            (cl_uuids cl) (cl_clock cl)]> cls) us).
Proof.
  intros Hok Ht Hcur Hw Hi. apply (sys_ok_update m cls us us t cl); [done|done|done|].
  destruct Hok as [[_ Hret'] _ _ Hcl]. simpl in *.
  destruct (Hcl t cl Ht) as [(ids & Hids & Hun & Hret) Hwait Hnd Hturn].
  destruct (Hwait i Hw) as (c' & k' & o & Hc & Hcur' & Ho & Hoc).
  assert (c' = c) as -> by (rewrite Hi in Ho; by simplify_eq/=).
  rewrite Hw in Hids. simpl in Hids. split; simpl; [|done|done|done].
  exists (ids ++ [i]). rewrite app_nil_r. split; [done|]. split.
  - rewrite <- (app_nil_r (cl_uuids cl)), <- (app_nil_r (cl_clock cl)).
    eapply unfolds_trans; [exact Hun|]. rewrite Hcur.
    eapply unfolds_call; [done|done|constructor].
  - intros j. rewrite elem_of_app, list_elem_of_singleton. intros [?| ->]; [by apply Hret|].
    apply Hret'. eauto.
Qed.

Lemma sys_ok_draw m cls us t cl c k r :
  sys_ok (MkSystem m cls us) →
  cls !! t = Some cl → cl_cur cl = Call (R := reply E) c k → store_call c = false →
  sys_ok (MkSystem m (<[t := MkClient (cl_op cl) (k r) (cl_calls cl) (cl_wait cl)
            (cl_uuids cl ++ uuids_drawn c r) (cl_clock cl ++ clock_drawn c r)]> cls)
          (us ++ uuids_drawn c r)).
Proof.
  intros Hok Ht Hcur Hc. apply (sys_ok_update m cls us _ t cl); [done|done|done|].
  destruct Hok as [_ _ _ Hcl]. simpl in *.
  destruct (Hcl t cl Ht) as [(ids & Hids & Hun & Hret) Hwait Hnd Hturn].
  split; simpl; [| |done|done].
  - exists ids. split; [done|]. split; [|done].
    rewrite <- (app_nil_r ids). eapply unfolds_trans; [exact Hun|]. rewrite Hcur.
    rewrite <- (app_nil_r (uuids_drawn c r)), <- (app_nil_r (clock_drawn c r)).
    apply unfolds_draw; [done|constructor].
  - intros i Hi. destruct (Hwait i Hi) as (c' & k' & o & Hc' & Hcur' & _). congruence.
Qed.

Lemma uuids_ok_update m m' cls us ext t cl cl' :
  uuids_drawn_ok (MkSystem m cls us) → cls !! t = Some cl → cl_uuids cl' = cl_uuids cl ++ ext →
  uuids_drawn_ok (MkSystem m' (<[t := cl']> cls) (us ++ ext)).
Proof.
  intros [Hin Hdis Hnd] Ht Hu. simpl in *. split; simpl.
  - intros t1 cl1 u [[<- <-]|[_ H1]]%lookup_insert_Some; rewrite ?Hu, !elem_of_app;
      [intros [?|?]; eauto|eauto].
  - intros (Hus & Hnew & _)%NoDup_app. specialize (Hdis Hus).
    assert (∀ t1 cl1 u, cls !! t1 = Some cl1 → u ∈ cl_uuids cl1 → u ∉ ext) as Hfresh.
    { intros t1 cl1 u H1 Hu1. apply Hnew. by eapply Hin. }
    intros t1 t2 cl1 cl2 u [[<- <-]|[_ H1]]%lookup_insert_Some
      [[<- <-]|[_ H2]]%lookup_insert_Some; rewrite ?Hu, ?elem_of_app; [done|..].
    + intros [?|?] ?; [by eauto|exfalso; by eapply Hfresh].
    + intros ? [?|?]; [by eauto|exfalso; by eapply Hfresh].
    + by eauto.
  - intros (Hus & Hnew & Hext)%NoDup_app t1 cl1 [[<- <-]|[_ H1]]%lookup_insert_Some; [|by eauto].
    rewrite Hu. apply NoDup_app. split; [by eauto|]. split; [|done]. intros u ?. apply Hnew. by eapply Hin.
Qed.

Lemma uuids_drawn_ok_step s s' : uuids_drawn_ok s → sys_step s s' → uuids_drawn_ok s'.
Proof.
  intros Hok Hstep. revert Hok.
  destruct Hstep as [m cls us t p Ht|m cls us t cl c k r Ht Hcur Hc|m m' cls us t cl c k i Ht|
    m cls us t cl c k i r Ht|m m' cls us Hs]; intros Hok.
  - destruct Hok as [Hin Hdis Hnd]. simpl in *. split; simpl.
    + intros t1 cl1 u [[<- <-]|[_ H1]]%lookup_insert_Some; [by intros ?%elem_of_nil|by eapply Hin].
    + intros Hus t1 t2 cl1 cl2 u [[<- <-]|[_ H1]]%lookup_insert_Some
        [[<- <-]|[_ H2]]%lookup_insert_Some; [done| | |by eapply Hdis]; simpl.
      * by intros ?%elem_of_nil.
      * by intros _ ?%elem_of_nil.
    + intros Hus t1 cl1 [[<- <-]|[_ H1]]%lookup_insert_Some; [constructor|by eapply Hnd].
  - by eapply uuids_ok_update.
  - rewrite <- (app_nil_r us). eapply uuids_ok_update; [done|done|]. by rewrite app_nil_r.
  - rewrite <- (app_nil_r us). eapply uuids_ok_update; [done|done|]. by rewrite app_nil_r.
  - destruct Hok. by split.
Qed.

(** *** Reachable systems *)

Context {spurious delayed : bool} {a0 : astore} {m0 : M} {holds : M → astore → Prop}.
Context `{!BackendLinearizes E M spurious delayed a0 m0 holds}.

Lemma sys_reachable s :
  rtc sys_step (sys_start m0) s →
  rtc bk_step m0 (sy_backend s) ∧ sys_ok s ∧ uuids_drawn_ok s.
Proof.
  intros Hsteps.
  assert (rtc bk_step m0 (sy_backend (sys_start (E := E) (A := A) m0)) ∧ sys_ok (sys_start m0) ∧
    uuids_drawn_ok (sys_start m0)) as Hinit.
  { split; [apply rtc_refl|]. split.
    - split; simpl.
      + unfold trace_ok. rewrite bl_ops, bl_trace. split; intros i.
        * split; [by intros ?%elem_of_nil|rewrite lookup_empty; by intros [? ?]].
        * split; [by intros ?%elem_of_nil|rewrite lookup_empty; by intros (? & ? & ?)].
      + intros i. rewrite bl_ops, lookup_empty. split; [by intros [? ?]|].
        intros (t & cl & Ht & _). by rewrite lookup_empty in Ht.
      + intros t t' cl cl' i Ht. by rewrite lookup_empty in Ht.
      + intros t cl Ht. by rewrite lookup_empty in Ht.
    - split; simpl.
      + intros t cl u Ht. by rewrite lookup_empty in Ht.
      + intros _ t t' cl cl' u Ht. by rewrite lookup_empty in Ht.
      + intros _ t cl Ht. by rewrite lookup_empty in Ht. }
  revert Hinit. induction Hsteps as [s|s0 s1 s Hstep _ IH]; [done|].
  intros (Hbk & Hok & Huu). apply IH.
  assert (rtc bk_step m0 (sy_backend s1)) as Hbk'.
  { destruct Hstep; simpl in *; [done|done| |done|]; by eapply rtc_r. }
  split; [done|]. split; [|by eapply uuids_drawn_ok_step].
  destruct Hstep as [m cls us t p Ht|m cls us t cl c k r Ht Hcur Hc|
    m m' cls us t cl c k i Ht Hcur Hc Hw Hs Hi Hops|m cls us t cl c k i r Ht Hcur Hw Hi|
    m m' cls us Hs Hdom]; simpl in *.
  - by apply sys_ok_begin.
  - by eapply sys_ok_draw.
  - eapply sys_ok_call; try done. by eapply bl_event.
  - by eapply sys_ok_reply.
  - eapply sys_ok_backend; try done. by eapply bl_event.
Qed.
End Invariants.
