(* ===== verification/SystemLinearizable.v ===== *)
(** * Executions of a system, explained

    The order in which the operations of a linearizing backend took effect turns an
    execution of the system of [Composition] into one of the concurrent machine of
    [Concurrent]: the calls of the clients are replayed, one atomic step each, in that
    order. *)

From S2P Require Import Prelude.
From S2P Require Import Program.
From S2P Require Import ObjectStore.
From S2P Require Import Linearization.
From S2P Require Import Concurrent.
From S2P Require Import Composition.

(** ** Failures *)

Section Failures.
Context {E A : Type}.
Implicit Types (p q : io E A).

(** The program makes no further call. *)
Definition stopped p : Prop := ∀ c k, p ≠ Call c k.

(** A program that makes no call after a write that failed: such a write may still take
    effect when the backend delays it. *)
Fixpoint failures_final p : Prop :=
  match p with
  | Call c k => ∀ r, failures_final (k r) ∧ (backend_failure c r → stopped (k r))
  | _ => True
  end.

Lemma returned_stopped p : returned p → stopped p.
Proof. by intros [x ->] c k. Qed.

Lemma disciplined_final K p : disciplined K p → failures_final p.
Proof.
  revert K. induction p as [x| |c k IH]; intros K; [done..|].
  assert (∀ r, returned (k r) → failures_final (k r) ∧ stopped (k r)) as Hret.
  { intros r Hr. split; [by destruct Hr as [x ->]|by apply returned_stopped]. }
  destruct c as [l|l b|l v b| |]; simpl.
  - intros (_ & Hok & Herr) [o|e]; (split; [|done]); [by eapply IH|by apply Hret].
  - intros [_ Hr] r. destruct (Hret r (Hr r)). auto.
  - intros [_ Hr] r. destruct (Hret r (Hr r)). auto.
  - intros Hd t. split; [by eapply IH|done].
  - intros Hd u. split; [by eapply IH|done].
Qed.

Lemma unfolds_stopped ops p ids us cs q :
  stopped p → unfolds ops p ids us cs q → ids = [] ∧ us = [] ∧ cs = [] ∧ q = p.
Proof. intros Hp. destruct 1; [done|exfalso; by eapply Hp..]. Qed.

Lemma stopped_dec p : stopped p ∨ ¬ stopped p.
Proof.
  destruct p as [x| |c k]; [left; by intros ??..|right]. intros Hs. by apply (Hs c k).
Qed.
End Failures.

(** ** The simulation *)

Section Simulation.
Context {E A M : Type} `{!Backend E M} (spurious delayed : bool) (a0 : astore).
Context (s : system E A M) (ops : gmap nat (operation E)) (order : list (nat * moment))
  (afinal : astore).
Context (Hok : sys_ok s) (Huuids : uuids_drawn_ok s).
Context (Hlin : linearizes spurious delayed a0 (bk_ops (sy_backend s))
  (bk_trace (sy_backend s)) ops order afinal).
Context (Hfinal : ∀ t cl, sy_clients s !! t = Some cl → delayed = true → failures_final (cl_op cl)).
Implicit Types (c : config E A) (th : thread E A) (cl : client E A) (es : list (nat * moment)).

(** Where the client's run comes to: what is left of its operation, or the step after,
    when the call it waits for took effect. *)
Definition comes_to cl (q : io E A) : Prop :=
  q = cl_cur cl ∨ (is_Some (cl_wait cl) ∧ ¬ stopped (cl_cur cl)).

(** What remains of the client's run, after the effects [es], for its thread: the
    calls [todo]. *)
Definition tracks es cl th : Prop :=
  t_op th = cl_op cl ∧ ∃ done todo us cs q,
    (delayed = true → failures_final (t_cur th)) ∧ unfolds ops (t_cur th) todo us cs q ∧
    t_uuids th ++ us = cl_uuids cl ∧ t_clock th ++ cs = cl_clock cl ∧
    comes_to cl q ∧
    (done ++ todo) `prefix_of` cl_calls cl ∧
    (∀ i, i ∈ cl_calls cl → (i, Linearized) ∈ order → ((i, Linearized) ∉ es) → i ∈ todo) ∧
    (∀ i, i ∈ todo → (i, Linearized) ∉ es).

(** The thread of a client that has made no call that took effect. *)
Definition not_started cl : thread E A := MkThread (cl_op cl) 0 (cl_op cl) [] [].

Definition thread_of c t cl : thread E A := default (not_started cl) (c_threads c !! t).

Record sim es c : Prop := MkSim {
  sim_reach : creachable spurious a0 c;
  sim_clients t th : c_threads c !! t = Some th → is_Some (sy_clients s !! t);
  sim_tracks t cl : sy_clients s !! t = Some cl → tracks es cl (thread_of c t cl);
  sim_uuids : NoDup (sy_uuids s) → NoDup (c_uuids c) ∧
    ∀ u, u ∈ c_uuids c → ∃ t th, c_threads c !! t = Some th ∧ u ∈ t_uuids th;
}.

Lemma linearized_reply i :
  (i, Linearized) ∈ order → ∃ (c : call) r, ops !! i = Some (MkOperation c (Some r)).
Proof.
  destruct Hlin as (_ & _ & _ & Hrun). rewrite <- elem_of_effects. by eapply lin_run_reply.
Qed.

(** The run of a client, to the last call that took effect or returned. *)
Lemma tracks_start t cl : sy_clients s !! t = Some cl → tracks [] cl (not_started cl).
Proof.
  intros Ht. destruct Hlin as (_ & _ & Hops & _).
  destruct (so_clients _ Hok t cl Ht) as [(ids & Hids & Hun & Hret) Hwait _ _].
  assert (unfolds ops (cl_op cl) ids (cl_uuids cl) (cl_clock cl) (cl_cur cl)) as Hun'.
  { eapply unfolds_mono; [|exact Hun]. intros i c r. by apply extends_reply. }
  assert (∀ todo q, unfolds ops (cl_op cl) todo (cl_uuids cl) (cl_clock cl) q →
    comes_to cl q → todo `prefix_of` cl_calls cl →
    (∀ i, i ∈ cl_calls cl → (i, Linearized) ∈ order → i ∈ todo) →
    tracks [] cl (not_started cl)) as Htracks.
  { intros todo q Hq Hx Hpre Htodo. split; [done|].
    exists [], todo, (cl_uuids cl), (cl_clock cl), q. split_and!; try done; [by eapply Hfinal|auto|].
    intros i _. apply not_elem_of_nil. }
  destruct (cl_wait cl) as [i|] eqn:Hw; simpl in Hids;
    [|by eapply Htracks; [exact Hun'|by left|rewrite Hids, app_nil_r|rewrite Hids, app_nil_r]].
  destruct (Hwait i eq_refl) as (c & k & o & Hc & Hcur & Ho & Hoc).
  destruct (Hops i o Ho) as ([c' [r|]] & Ho' & Hcall & _); simpl in Hcall.
  - assert (c' = c) as -> by congruence.
    eapply (Htracks (ids ++ [i]) (k r)); [| |by rewrite Hids|by rewrite Hids].
    2: { right. split; [by eexists|]. rewrite Hcur. intros Hs. by eapply Hs. }
    rewrite <- (app_nil_r (cl_uuids cl)), <- (app_nil_r (cl_clock cl)).
    eapply unfolds_trans; [exact Hun'|]. rewrite Hcur. eapply unfolds_call; [done|done|constructor].
  - apply (Htracks ids (cl_cur cl)); [done|by left|rewrite Hids; by apply prefix_app_r|].
    intros j. rewrite Hids, elem_of_app, list_elem_of_singleton. intros [?| ->]; [done|].
    intros (c1 & r1 & Hr)%linearized_reply. rewrite Ho' in Hr.
    injection Hr as _ Hr. by inversion Hr.
Qed.

Lemma sim_init : sim [] (MkConfig a0 ∅ [] []).
Proof.
  split; simpl; [constructor| | |].
  - intros t th. by rewrite lookup_empty.
  - intros t cl Ht. unfold thread_of. simpl. rewrite lookup_empty. by eapply tracks_start.
  - intros _. split; [constructor|]. by intros u ?%elem_of_nil.
Qed.

(** *** Single threads *)

(** Another configuration, in which only thread [t] has moved. *)
Lemma sim_update es es' c t cl th us1 a' log' :
  sim es c → sy_clients s !! t = Some cl → thread_of c t cl = th →
  ∀ th', creachable spurious a0
    (MkConfig a' (<[t := th']> (c_threads c)) (c_uuids c ++ us1) log') →
  t_uuids th' = t_uuids th ++ us1 → tracks es' cl th' →
  (∀ t' cl' th'', t' ≠ t → sy_clients s !! t' = Some cl' → tracks es cl' th'' →
     tracks es' cl' th'') →
  sim es' (MkConfig a' (<[t := th']> (c_threads c)) (c_uuids c ++ us1) log').
Proof.
  intros Hsim Ht Hth th' Hreach Hus Htr Hother. split; simpl; [done| | |].
  - intros t1 th1 [[<- <-]|[_ H1]]%lookup_insert_Some; [by eexists|]. by eapply sim_clients.
  - intros t1 cl1 H1. unfold thread_of; simpl. destruct (decide (t = t1)) as [<-|Hne].
    + rewrite lookup_insert_eq. by simplify_eq/=.
    + rewrite lookup_insert_ne by done. eapply Hother; [done|done|]. by apply (sim_tracks es c).
  - intros Hnd. destruct (sim_uuids es c Hsim Hnd) as [Hnd' Hin].
    destruct (Htr) as (_ & ? & ? & us & ? & ? & _ & _ & Hcl & _).
    assert (NoDup (cl_uuids cl)) as Hcl' by by eapply ud_unique.
    rewrite <- Hcl, Hus in Hcl'. apply NoDup_app in Hcl' as (Hcl' & _ & _).
    apply NoDup_app in Hcl' as (_ & Hdis & Hus1).
    assert (∀ u, u ∈ t_uuids th ++ us1 → u ∈ cl_uuids cl) as Hsub.
    { intros u Hu. rewrite <- Hcl, Hus. apply elem_of_app. by left. }
    split.
    + apply NoDup_app. split; [done|]. split; [|done].
      intros u Hu Hu1. destruct (Hin u Hu) as (t2 & th2 & H2 & Hu2).
      destruct (decide (t2 = t)) as [->|Hne].
      { unfold thread_of in Hth. rewrite H2 in Hth. simpl in Hth. subst th2. by eapply Hdis. }
      destruct (sim_clients es c Hsim t2 th2 H2) as [cl2 Hcl2].
      pose proof (sim_tracks es c Hsim t2 cl2 Hcl2) as (_ & ? & ? & us2 & ? & ? & _ & _ & Hu2' & _).
      unfold thread_of in Hu2'. rewrite H2 in Hu2'. simpl in Hu2'.
      apply Hne. eapply (ud_distinct _ Huuids Hnd t2 t cl2 cl u); [done|done| |].
      * rewrite <- Hu2'. apply elem_of_app. by left.
      * apply Hsub, elem_of_app. by right.
    + intros u. rewrite elem_of_app. intros [Hu|Hu].
      * destruct (Hin u Hu) as (t2 & th2 & H2 & Hu2). destruct (decide (t = t2)) as [<-|Hne].
        { exists t, th'. rewrite lookup_insert_eq. split; [done|].
          unfold thread_of in Hth. rewrite H2 in Hth. simpl in Hth. subst th2.
          rewrite Hus. apply elem_of_app. by left. }
        exists t2, th2. by rewrite lookup_insert_ne.
      * exists t, th'. rewrite lookup_insert_eq. split; [done|].
        rewrite Hus. apply elem_of_app. by right.
Qed.

Lemma sim_started es c t cl :
  sim es c → sy_clients s !! t = Some cl →
  ∃ c' th, sim es c' ∧ c_store c' = c_store c ∧ c_threads c' !! t = Some th ∧
    ∀ t', t' ≠ t → c_threads c' !! t' = c_threads c !! t'.
Proof.
  intros Hsim Ht. destruct (c_threads c !! t) as [th|] eqn:Hth; [by exists c, th|].
  pose proof (sim_tracks es c Hsim t cl Ht) as Htr. unfold thread_of in Htr.
  rewrite Hth in Htr. simpl in Htr.
  set (th := MkThread (cl_op cl) (length (c_log c)) (cl_op cl) [] []).
  exists (MkConfig (c_store c) (<[t := th]> (c_threads c)) (c_uuids c ++ []) (c_log c)), th.
  split; [|simpl; split_and!; [done|by rewrite lookup_insert_eq|];
    intros t' Hne; by rewrite lookup_insert_ne].
  eapply (sim_update es es c t cl (not_started cl) []); try done.
  - unfold thread_of. by rewrite Hth.
  - rewrite app_nil_r. econstructor; [apply (sim_reach es c Hsim)|].
    destruct c. by apply cstep_invoke.
Qed.

(** A thread takes its draws up to its next call of the store. *)
Lemma draw_ahead c t th ids us cs q :
  creachable spurious a0 c → c_threads c !! t = Some th →
  (delayed = true → failures_final (t_cur th)) →
  unfolds ops (t_cur th) ids us cs q →
  ∃ us1 us2 cs1 cs2 p, us = us1 ++ us2 ∧ cs = cs1 ++ cs2 ∧
    creachable spurious a0 (MkConfig (c_store c)
      (<[t := MkThread (t_op th) (t_start th) p (t_uuids th ++ us1) (t_clock th ++ cs1)]>
         (c_threads c)) (c_uuids c ++ us1) (c_log c)) ∧
    (delayed = true → failures_final p) ∧ unfolds ops p ids us2 cs2 q ∧
    match ids with
    | [] => us2 = [] ∧ cs2 = [] ∧ p = q
    | i :: ids => ∃ (cl : call) (k : reply E cl → io E A) r,
        store_call cl = true ∧ p = Call cl k ∧
        ops !! i = Some (MkOperation cl (Some r)) ∧ unfolds ops (k r) ids us2 cs2 q
    end.
Proof.
  intros Hreach Hth Hd Hun. remember (t_cur th) as p0 eqn:Hp. revert c th Hreach Hth Hp Hd.
  induction Hun as [p|cl k r ids us cs q Hc Hun IH|cl k r i ids us cs q Hc Hi Hun IH];
    intros c th Hreach Hth Hp Hd.
  - exists [], [], [], [], p. rewrite !app_nil_r, insert_id.
    + split_and!; try done; [by destruct c|constructor].
    + by rewrite Hp; destruct th.
  - assert (delayed = true → failures_final (k r)) as Hd' by (intros Hdel; by apply Hd).
    destruct (IH (MkConfig (c_store c) (<[t := call_result th cl r (k r)]> (c_threads c))
      (c_uuids c ++ uuids_drawn cl r) (c_log c)) (call_result th cl r (k r)))
      as (us1 & us2 & cs1 & cs2 & p & -> & -> & Hreach' & Hp' & Hun' & Hids).
    + econstructor; [exact Hreach|]. destruct c as [a ths us0 log]; simpl in *.
      replace log with (log_change t a a log) at 2
        by (unfold log_change; by rewrite decide_True).
      eapply cstep_call; [done|by symmetry|]. by destruct cl.
    + simpl; by rewrite lookup_insert_eq.
    + done.
    + done.
    + simpl in Hreach'. rewrite insert_insert_eq in Hreach'.
      exists (uuids_drawn cl r ++ us1), us2, (clock_drawn cl r ++ cs1), cs2, p.
      rewrite !app_assoc. split_and!; done.
  - exists [], us, [], cs, (Call cl k). rewrite !app_nil_r, insert_id.
    + split_and!; try done; [by destruct c|by eapply unfolds_call|by exists cl, k, r].
    + by rewrite Hp; destruct th.
Qed.

(** *** Effects *)

Lemma before_prefix es rest x y :
  order = es ++ rest → x.2 ≠ Linearized → y.2 ≠ Linearized →
  before (bk_trace (sy_backend s)) x y → y ∈ es → x ∈ es.
Proof.
  destruct x as [i x], y as [j y]. simpl.
  intros Horder Hx Hy (h1 & h2 & Hh & Hx1 & Hy1) Hyes.
  destruct Hlin as (_ & Hvis & _). rewrite <- Hvis, Horder, visible_app in Hh.
  rewrite <- elem_of_visible in Hyes by done. rewrite <- elem_of_visible by done.
  apply app_eq_app in Hh as (k & [[-> _]|[-> _]]); set_solver.
Qed.

Lemma late_failure i (cl : call) r :
  late delayed (bk_ops (sy_backend s)) i → ops !! i = Some (MkOperation cl (Some r)) →
  backend_failure cl r.
Proof.
  intros (_ & o & Ho & Ha) Hi. destruct Hlin as (_ & _ & Hops & _).
  destruct (Hops i o Ho) as (o' & Ho' & _ & Hc).
  assert (o' = o) as -> by (apply Hc; unfold ambiguous in Ha; by destruct (op_reply o)).
  rewrite Hi in Ho'. injection Ho' as <-. exact Ha.
Qed.

Lemma effect_owner i :
  (i, Invoked) ∈ order → ∃ t cl, sy_clients s !! t = Some cl ∧ i ∈ cl_calls cl.
Proof.
  intros Hi. apply (so_owner _ Hok), (so_trace _ Hok). destruct Hlin as (_ & <- & _).
  by apply elem_of_visible.
Qed.

(** The next call of a thread is the one that takes effect: an earlier call that did
    not would be a failed write, after which there is no call. *)
Lemma effect_next es rest t cl done j todo i (c : call) (k : reply E c → io E A) r us cs q :
  order = es ++ rest → well_ordered (late delayed (bk_ops (sy_backend s))) es →
  (i, Invoked) ∈ es → sy_clients s !! t = Some cl →
  (done ++ j :: todo) `prefix_of` cl_calls cl → ((j, Linearized) ∉ es) → i ∈ j :: todo →
  (delayed = true → failures_final (Call (R := reply E) c k)) →
  ops !! j = Some (MkOperation c (Some r)) → unfolds ops (k r) todo us cs q → i = j.
Proof.
  intros Horder Hwell Hinv Ht [ext Hpre] Hj [->|Hin]%elem_of_cons Hd Hjr Hun; [done|].
  exfalso. apply list_elem_of_split in Hin as (l1 & l2 & ->).
  destruct (so_clients _ Hok t cl Ht) as [_ _ _ Hturn].
  specialize (Hturn done j l1 i (l2 ++ ext)). rewrite Hpre, <- !app_assoc in Hturn. simpl in Hturn.
  rewrite <- app_assoc in Hturn. specialize (Hturn eq_refl).
  apply (before_prefix es rest) in Hturn; [|done..].
  destruct (ordered_returned _ _ _ Hwell Hturn) as [|Hlate]; [done|].
  destruct (Hd (proj1 Hlate) r) as [_ Hs]. specialize (Hs (late_failure _ _ _ Hlate Hjr)).
  apply (unfolds_stopped _ _ _ _ _ _ Hs) in Hun as [Hn _]. by destruct l1.
Qed.

Lemma store_call_draws (c : call) (r : reply E c) :
  store_call c = true → uuids_drawn c r = [] ∧ clock_drawn c r = [].
Proof. by destruct c. Qed.

(** The effects of other clients. *)
Lemma tracks_other es i cl th :
  i ∉ cl_calls cl → tracks es cl th → tracks (es ++ [(i, Linearized)]) cl th.
Proof.
  intros Hi (Hop & done & todo & us & cs & q & Hd & Hun & Hus & Hcs & Hx & Hpre & Hall & Hno).
  split; [done|]. exists done, todo, us, cs, q. split_and!; try done.
  - intros j Hj Ho He. apply Hall; [done|done|]. set_solver.
  - intros j Hj. rewrite elem_of_app, list_elem_of_singleton. intros [?|[= ->]].
    + by eapply Hno.
    + apply Hi. destruct Hpre as [ext ->]. set_solver.
Qed.

(** The thread whose call took effect. *)
Lemma tracks_next t cl es i th dn todo us cs q :
  sy_clients s !! t = Some cl → t_op th = cl_op cl →
  (delayed = true → failures_final (t_cur th)) →
  unfolds ops (t_cur th) todo us cs q → t_uuids th ++ us = cl_uuids cl →
  t_clock th ++ cs = cl_clock cl → comes_to cl q →
  (dn ++ i :: todo) `prefix_of` cl_calls cl →
  (∀ j, j ∈ cl_calls cl → (j, Linearized) ∈ order → ((j, Linearized) ∉ es) → j ∈ i :: todo) →
  (∀ j, j ∈ i :: todo → (j, Linearized) ∉ es) →
  tracks (es ++ [(i, Linearized)]) cl th.
Proof.
  intros Ht Hop Hd Hun Hus Hcs Hx Hpre Hall Hno. split; [done|].
  exists (dn ++ [i]), todo, us, cs, q. rewrite <- app_assoc. split_and!; try done.
  - intros j Hj Ho He. rewrite elem_of_app, list_elem_of_singleton in He.
    assert (j ∈ i :: todo) as [->|]%elem_of_cons by (apply Hall; naive_solver); naive_solver.
  - intros j Hj. rewrite elem_of_app, list_elem_of_singleton. intros [?|[= ->]].
    + by eapply (Hno j); [by right|].
    + destruct (so_clients _ Hok t cl Ht) as [_ _ Hnd _]. destruct Hpre as [ext Hpre].
      rewrite Hpre, <- app_assoc in Hnd. apply NoDup_app in Hnd as (_ & _ & Hnd).
      simpl in Hnd. apply NoDup_cons in Hnd as [Hn _]. set_solver.
Qed.

Lemma call_reach a ths us log t op n (c : call) (k : reply E c → io E A) u cs r a' :
  creachable spurious a0 (MkConfig a (<[t := MkThread op n (Call c k) u cs]> ths) us log) →
  store_call c = true → store_step spurious a c r a' →
  creachable spurious a0
    (MkConfig a' (<[t := MkThread op n (k r) u cs]> ths) us (log_change t a a' log)).
Proof.
  intros Hreach Hc Hs. destruct (store_call_draws c r Hc) as [Hd1 Hd2].
  econstructor; [exact Hreach|].
  pose proof (cstep_call spurious a (<[t := MkThread op n (Call c k) u cs]> ths) us log t _ c k r a'
    (lookup_insert_eq _ _ _) eq_refl Hs) as Hstep.
  unfold call_result in Hstep. simpl in Hstep.
  by rewrite Hd1, Hd2, !app_nil_r, insert_insert_eq in Hstep.
Qed.

Lemma sim_effect es rest i c a' :
  sim es c → order = es ++ (i, Linearized) :: rest →
  well_ordered (late delayed (bk_ops (sy_backend s))) es →
  (i, Invoked) ∈ es → ((i, Linearized) ∉ es) → lin_step spurious ops i (c_store c) a' →
  ∃ c', sim (es ++ [(i, Linearized)]) c' ∧ c_store c' = a'.
Proof.
  intros Hsim Horder Hwell Hinv Hnew (cl0 & r0 & Hi & Hs).
  destruct (effect_owner i) as (t & cl & Ht & Hcall); [rewrite Horder; set_solver|].
  destruct (sim_started es c t cl Hsim Ht) as (c1 & th & Hsim1 & Hst & Hth & _).
  rewrite <- Hst in Hs. clear c Hsim Hst. rename c1 into c, Hsim1 into Hsim.
  pose proof (sim_tracks es c Hsim t cl Ht) as Htr. unfold thread_of in Htr.
  rewrite Hth in Htr. simpl in Htr.
  destruct Htr as (Hop & dn & todo & us & cs & q & Hd & Hun & Hus & Hcs & Hx & Hpre & Hall & Hno).
  assert (i ∈ todo) as Hin by (apply Hall; [done|rewrite Horder; set_solver|done]).
  destruct (draw_ahead c t th todo us cs q (sim_reach es c Hsim) Hth Hd Hun)
    as (us1 & us2 & cs1 & cs2 & p & -> & -> & Hreach & Hp & _ & Htodo).
  destruct todo as [|j todo]; [by apply elem_of_nil in Hin|].
  destruct Htodo as (c1 & k & r & Hc & -> & Hj & Hun').
  assert (i = j) as <-.
  { eapply (effect_next es _ t cl dn j todo i); eauto. apply Hno. by left. }
  rewrite Hi in Hj. injection Hj as <- Hr.
  apply (Eqdep_dec.inj_pair2_eq_dec _ (λ x y, decide (x = y))) in Hr as <-.
  pose proof (call_reach _ _ _ _ _ _ _ _ _ _ _ _ _ Hreach Hc Hs) as Hreach'.
  match type of Hreach' with creachable _ _ ?c' => exists c' end. split; [|reflexivity].
  eapply (sim_update es _ c t cl th us1 a' _ Hsim Ht);
    [by unfold thread_of; rewrite Hth|exact Hreach'|reflexivity| |].
  - eapply (tracks_next t cl es i _ dn todo us2 cs2 q); try done; simpl;
      [intros Hdel; by apply Hp|by rewrite <- app_assoc..].
  - intros t' cl' th' Hne Ht'. apply tracks_other. intros Hi'. apply Hne.
    by eapply (so_disjoint _ Hok).
Qed.

(** *** Clients that stopped *)

Definition finished c cl t : Prop :=
  ∃ th, c_threads c !! t = Some th ∧ t_op th = cl_op cl ∧ t_cur th = cl_cur cl ∧
    t_uuids th = cl_uuids cl ∧ t_clock th = cl_clock cl.

(** A call that never takes effect is a failed write. *)
Lemma stopped_late t cl i :
  sy_clients s !! t = Some cl → stopped (cl_cur cl) → i ∈ cl_calls cl →
  ((i, Linearized) ∉ order) → late delayed (bk_ops (sy_backend s)) i.
Proof.
  intros Ht Hx Hi Hnot. destruct (so_clients _ Hok t cl Ht) as [(ids & Hids & _ & Hret) Hwait _ _].
  assert (cl_wait cl = None) as Hw.
  { destruct (cl_wait cl) as [j|]; [|done].
    destruct (Hwait j eq_refl) as (? & ? & ? & _ & Hc & _). by apply Hx in Hc. }
  rewrite Hw in Hids. simpl in Hids. rewrite app_nil_r in Hids. rewrite Hids in Hi.
  destruct Hlin as (Hwell & Hvis & _).
  destruct (ordered_returned _ _ i Hwell) as [|]; [|done|done].
  apply elem_of_visible; [done|]. rewrite Hvis. by apply Hret.
Qed.

Lemma tracks_done cl th :
  stopped (cl_cur cl) → t_op th = cl_op cl → t_cur th = cl_cur cl → t_uuids th = cl_uuids cl →
  t_clock th = cl_clock cl → tracks order cl th.
Proof.
  intros Hx Hop Hcur Hus Hcs. split; [done|].
  exists [], [], [], [], (cl_cur cl). rewrite !app_nil_r, Hcur.
  split_and!; try done; [|constructor|by left|apply prefix_nil|].
  - intros _. destruct (cl_cur cl) as [| |c k]; [done..|]. by destruct (Hx c k).
  - intros i ?%elem_of_nil. done.
Qed.

Lemma finish_thread c t cl th us1 cs1 log' :
  sim order c → sy_clients s !! t = Some cl → stopped (cl_cur cl) →
  c_threads c !! t = Some th → t_op th = cl_op cl →
  t_uuids th ++ us1 = cl_uuids cl → t_clock th ++ cs1 = cl_clock cl →
  creachable spurious a0 (MkConfig (c_store c)
    (<[t := MkThread (t_op th) (t_start th) (cl_cur cl) (t_uuids th ++ us1) (t_clock th ++ cs1)]>
       (c_threads c)) (c_uuids c ++ us1) log') →
  ∃ c', sim order c' ∧ c_store c' = c_store c ∧ finished c' cl t ∧
    ∀ t', t' ≠ t → c_threads c' !! t' = c_threads c !! t'.
Proof.
  intros Hsim Ht Hx Hth Hop Hus Hcs Hreach.
  match type of Hreach with creachable _ _ ?c' => exists c' end. split_and!; [|done| |].
  - eapply (sim_update order order c t cl th us1); try done;
      [by unfold thread_of; rewrite Hth|]. by apply tracks_done.
  - eexists. simpl. rewrite lookup_insert_eq. split; [done|]. by split_and!.
  - intros t' Hne. simpl. by rewrite lookup_insert_ne.
Qed.

Lemma sim_finish c t cl :
  sim order c → sy_clients s !! t = Some cl → stopped (cl_cur cl) →
  ∃ c', sim order c' ∧ c_store c' = c_store c ∧ finished c' cl t ∧
    ∀ t', t' ≠ t → c_threads c' !! t' = c_threads c !! t'.
Proof.
  intros Hsim Ht Hret.
  destruct (sim_started order c t cl Hsim Ht) as (c1 & th & Hsim1 & Hst & Hth & Hsame).
  assert (∃ c', sim order c' ∧ c_store c' = c_store c1 ∧ finished c' cl t ∧
    ∀ t', t' ≠ t → c_threads c' !! t' = c_threads c1 !! t') as (c' & ? & ? & ? & Hsame').
  { clear c Hsim Hst Hsame. rename c1 into c, Hsim1 into Hsim.
    pose proof (sim_tracks order c Hsim t cl Ht) as Htr. unfold thread_of in Htr.
    rewrite Hth in Htr. simpl in Htr.
    destruct Htr as (Hop & dn & todo & us & cs & q & Hd & Hun & Hus & Hcs & Hx & Hpre & _ & Hno).
    destruct Hx as [->|[_ []]]; [|done].
    destruct (draw_ahead c t th todo us cs (cl_cur cl) (sim_reach order c Hsim) Hth Hd Hun)
      as (us1 & us2 & cs1 & cs2 & p & -> & -> & Hreach & Hp & _ & Htodo).
    destruct todo as [|j todo].
    - destruct Htodo as (-> & -> & ->). rewrite app_nil_r in Hus, Hcs. by eapply finish_thread.
    - destruct Htodo as (c1 & k & r & Hc & -> & Hj & Hun').
      assert (late delayed (bk_ops (sy_backend s)) j) as Hlate.
      { eapply (stopped_late t cl); [done|done| |by apply Hno; left].
        destruct Hpre as [ext ->]. set_solver. }
      pose proof (late_failure _ _ _ Hlate Hj) as Hf.
      destruct (Hp (proj1 Hlate) r) as [_ Hk]. specialize (Hk Hf).
      pose proof (call_reach _ _ _ _ _ _ _ _ _ _ _ r _ Hreach Hc
        (failure_without_effect _ _ _ _ Hf)) as Hreach'.
      apply (unfolds_stopped _ _ _ _ _ _ Hk) in Hun' as (_ & -> & -> & Hq).
      rewrite <- Hq in Hreach'. rewrite app_nil_r in Hus, Hcs. by eapply finish_thread. }
  exists c'. split_and!; [done|congruence|done|].
  intros t' Hne. rewrite Hsame' by done. by apply Hsame.
Qed.

Lemma sim_finish_all c (ts : list nat) :
  sim order c →
  ∃ c', sim order c' ∧ c_store c' = c_store c ∧
    ∀ t cl, t ∈ ts → sy_clients s !! t = Some cl → stopped (cl_cur cl) → finished c' cl t.
Proof.
  intros Hsim. induction ts as [|t ts IH].
  - exists c. split_and!; [done..|]. by intros t cl ?%elem_of_nil.
  - destruct IH as (c1 & Hsim1 & <- & Hfin).
    destruct (sy_clients s !! t) as [cl|] eqn:Ht;
      [destruct (stopped_dec (cl_cur cl)) as [Hx|Hx]|].
    2-3: exists c1; split_and!; [done..|]; intros t' cl' [->|Hin]%elem_of_cons H1 H2;
      [by simplify_eq|by apply Hfin].
    destruct (sim_finish c1 t cl Hsim1 Ht Hx) as (c2 & Hsim2 & Hst & Hf & Hsame).
    exists c2. split_and!; [done..|]. intros t' cl' Hin H1 H2.
    destruct (decide (t' = t)) as [->|Hne]; [by assert (cl' = cl) as -> by congruence|].
    apply elem_of_cons in Hin as [|Hin]; [done|].
    destruct (Hfin t' cl' Hin H1 H2) as (th & Hth & ?). exists th. by rewrite Hsame.
Qed.

(** *** The whole order *)

Lemma sim_order es :
  well_ordered (late delayed (bk_ops (sy_backend s))) es → ∀ rest a, order = es ++ rest →
  lin_run spurious ops a0 (effects es) a → ∃ c, sim es c ∧ c_store c = a.
Proof.
  assert (∀ es t x c, x ≠ Linearized → sim es c → sim (es ++ [(t, x)]) c) as Hvisible.
  { intros es' t x c Hx Hsim. assert (∀ i, (i, Linearized) ∈ es' ++ [(t, x)] ↔ (i, Linearized) ∈ es')
      as Heq by (intros i; rewrite elem_of_app, list_elem_of_singleton; naive_solver).
    destruct Hsim as [H1 H2 H3 H4]. split; [done|done| |done]. intros t' cl Ht'.
    destruct (H3 t' cl Ht') as (Hop & dn & todo & us & cs & q & Hd & Hun & Hus & Hcs & Hx' &
      Hpre & Hall & Hno).
    split; [done|]. exists dn, todo, us, cs, q. split_and!; try done.
    - intros i Hi Ho. rewrite Heq. by apply Hall.
    - intros i Hi. rewrite Heq. by apply Hno. }
  induction 1 as [|es t Hwell IH Hn|es t Hwell IH Hi Hl Hr|es t Hwell IH Hi Hl Hr];
    intros rest a Horder Hrun.
  - inversion Hrun as [|? ts]; subst; [|by destruct ts].
    eexists. split; [apply sim_init|done].
  - rewrite effects_snoc, app_nil_r in Hrun. rewrite <- app_assoc in Horder.
    destruct (IH _ _ Horder Hrun) as (c & ? & ?). eauto.
  - rewrite effects_snoc, decide_True in Hrun by done. rewrite <- app_assoc in Horder.
    apply lin_run_snoc_inv in Hrun as (a1 & Hrun & Hs).
    destruct (IH _ _ Horder Hrun) as (c & Hsim & <-). by eapply sim_effect.
  - rewrite effects_snoc, app_nil_r in Hrun. rewrite <- app_assoc in Horder.
    destruct (IH _ _ Horder Hrun) as (c & ? & ?). eauto.
Qed.
End Simulation.

(** ** The theorem *)

(** The configuration explains the system: its threads run operations of the clients,
    and every client that returned, or panicked, did what its thread did; a thread that
    returned is that of a client that did, or that waits for its last call. *)
Record explains {E A M} `{!Backend E M} (s : system E A M) (c : config E A) : Prop := MkExplains {
  ex_clients t th : c_threads c !! t = Some th →
    ∃ cl, sy_clients s !! t = Some cl ∧ t_op th = cl_op cl ∧
      t_uuids th `prefix_of` cl_uuids cl ∧ t_clock th `prefix_of` cl_clock cl;
  ex_threads t th x : c_threads c !! t = Some th → t_cur th = Ret x →
    ∃ cl, sy_clients s !! t = Some cl ∧ cl_uuids cl = t_uuids th ∧ cl_clock cl = t_clock th ∧
      (cl_cur cl = Ret x ∨ (is_Some (cl_wait cl) ∧ ¬ stopped (cl_cur cl)));
  ex_stopped t cl : sy_clients s !! t = Some cl → stopped (cl_cur cl) → finished c cl t;
  ex_uuids : NoDup (sy_uuids s) → NoDup (c_uuids c);
  ex_drawn : NoDup (sy_uuids s) → c_uuids c ⊆ sy_uuids s;
}.

Lemma ex_returned {E A M} `{!Backend E M} (s : system E A M) (c : config E A) :
  explains s c → ∀ t cl x, sy_clients s !! t = Some cl → cl_cur cl = Ret x →
  ∃ th, c_threads c !! t = Some th ∧ t_op th = cl_op cl ∧ t_cur th = Ret x ∧
    t_uuids th = cl_uuids cl ∧ t_clock th = cl_clock cl.
Proof.
  intros Hex t cl x Ht Hx. rewrite <- Hx. apply (ex_stopped _ _ Hex t cl Ht).
  apply returned_stopped. by exists x.
Qed.

Section Composed.
Context {E A M : Type} `{!Backend E M} {spurious delayed : bool} {a0 : astore} {m0 : M}
  {holds : M → astore → Prop}.
Context `{!BackendLinearizes E M spurious delayed a0 m0 holds}.

(** Every execution of any clients is explained, provided that they make no call after a
    write that failed when the backend delays such writes. *)
Lemma system_replayed (s : system E A M) :
  rtc sys_step (sys_start m0) s →
  (∀ t cl, sy_clients s !! t = Some cl → delayed = true → failures_final (cl_op cl)) →
  ∃ c, creachable spurious a0 c ∧ holds (sy_backend s) (c_store c) ∧ explains s c.
Proof.
  intros Hsteps Hfinal.
  destruct (sys_reachable s Hsteps) as (Hbk & Hok & Huu).
  destruct (bl_linearizes _ Hbk) as (ops & order & a & Hlin & Hholds).
  destruct (sim_order spurious delayed a0 s ops order a Hok Huu Hlin Hfinal order
    (proj1 Hlin) [] a) as (c0 & Hsim0 & <-); [by rewrite app_nil_r|apply Hlin|].
  destruct (sim_finish_all spurious delayed a0 s ops order (c_store c0) Hok Huu Hlin Hfinal c0
    (map_to_list (sy_clients s)).*1 Hsim0) as (c & Hsim & Hst & Hfin).
  exists c. split; [apply (sim_reach _ _ _ _ _ _ _ _ Hsim)|]. split; [by rewrite Hst|].
  assert (∀ t th, c_threads c !! t = Some th → ∃ cl, sy_clients s !! t = Some cl ∧
    t_op th = cl_op cl ∧ t_uuids th `prefix_of` cl_uuids cl ∧
    t_clock th `prefix_of` cl_clock cl) as Hclients.
  { intros t th Hth. destruct (sim_clients _ _ _ _ _ _ _ _ Hsim t th Hth) as [cl Ht].
    pose proof (sim_tracks _ _ _ _ _ _ _ _ Hsim t cl Ht) as (Hop & ? & ? & us & cs & ? & _ & _ & Hus & Hcs & _).
    unfold thread_of in *. rewrite Hth in *. simpl in *.
    exists cl. split_and!; [done|done|by exists us|by exists cs]. }
  split; [exact Hclients| | | |].
  - intros t th x Hth Hx. destruct (sim_clients _ _ _ _ _ _ _ _ Hsim t th Hth) as [cl Ht].
    pose proof (sim_tracks _ _ _ _ _ _ _ _ Hsim t cl Ht)
      as (_ & ? & ? & us & cs & q & _ & Hun & Hus & Hcs & Hq & _).
    unfold thread_of in *. rewrite Hth in *. simpl in *. rewrite Hx in Hun.
    apply unfolds_stopped in Hun as (_ & -> & -> & ->); [|done]. rewrite app_nil_r in Hus, Hcs.
    exists cl. split_and!; [done..|]. destruct Hq as [Hq|Hq]; [by left|by right].
  - intros t cl Ht Hx. apply (Hfin t cl); [|done|done].
    apply list_elem_of_fmap. exists (t, cl). split; [done|]. by apply elem_of_map_to_list.
  - intros Hnd. by apply (sim_uuids _ _ _ _ _ _ _ _ Hsim).
  - intros Hnd u (t & th & Hth & Hu)%(proj2 (sim_uuids _ _ _ _ _ _ _ _ Hsim Hnd)).
    destruct (Hclients t th Hth) as (cl & Ht & _ & [ext Hpre] & _).
    eapply (ud_drawn s Huu t cl); [exact Ht|]. rewrite Hpre. apply elem_of_app. by left.
Qed.

Lemma system_explained (s : system E A M) :
  rtc sys_step (sys_start m0) s →
  (∀ t cl, sy_clients s !! t = Some cl → disciplined None (cl_op cl)) →
  ∃ c, creachable spurious a0 c ∧ holds (sy_backend s) (c_store c) ∧ explains s c.
Proof.
  intros Hsteps Hdisc. apply system_replayed; [done|]. intros t cl Ht _.
  eapply disciplined_final. by apply (Hdisc t).
Qed.

(** C8: composition.  When clients run operations that read at most once and then write
    at most once conditionally on what they read, over any backend that linearizes, the
    objects the backend holds are those of atomic executions of the operations, in the
    order of their writes and each at most once; every client that returned got what
    its operation returns executed atomically, at its write or, if it wrote nothing, at
    some state of the store. *)
Theorem system_linearizable (s : system E A M) :
  coherent a0 → rtc sys_step (sys_start m0) s →
  (∀ t cl, sy_clients s !! t = Some cl → disciplined None (cl_op cl)) →
  ∃ c, linearized a0 c ∧ holds (sy_backend s) (c_store c) ∧ explains s c.
Proof.
  intros Hcoh Hsteps Hdisc.
  destruct (system_explained s Hsteps Hdisc) as (c & Hreach & Hholds & Hex).
  exists c. split; [|done]. apply (creachable_linearized spurious a0 c Hcoh Hreach).
  intros t th Hth. destruct (ex_clients _ _ Hex t th Hth) as (cl & Ht & -> & _). by eapply Hdisc.
Qed.
End Composed.
