(* ===== verification/Isolation.v ===== *)
(** * Structures do not interfere

    Clients of many structures share one store.  The execution of the machine of
    [Concurrent] projects to one location: leaving out the clients that do not change the
    object there, and every change elsewhere, is an execution in which the remaining
    clients do what they did ([project]).  So what is proved of the clients of one
    structure holds among any others: clients of structures at other locations, and
    clients that open this one. *)

From S2P Require Import Prelude.
From S2P Require Import Program.
From S2P Require Import ObjectStore.
From S2P Require Import Concurrent.

(** ** Where a program acts *)

Section Places.
Context {E : Type} (l : Location).

(** Every call of the object store is at location [l]. *)
Definition call_at (c : call) : Prop :=
  match c with Get l' | Create l' _ | Replace l' _ _ => l' = l | _ => True end.

Definition only_at {A} (p : io E A) : Prop := calls_all call_at p.

(** No object at [l] is replaced.  Creations there fail while there is one. *)
Definition replaces_elsewhere (c : call) : Prop :=
  match c with Replace l' _ _ => l' ≠ l | _ => True end.

Definition harmless {A} (p : io E A) : Prop := calls_all replaces_elsewhere p.

(** ** Stores that agree at a location *)

Definition same_at (a a' : astore) : Prop :=
  cur a !! l = cur a' !! l ∧ ∀ v, hist a !! (l, v) = hist a' !! (l, v).

#[export] Instance same_at_refl : Reflexive same_at.
Proof. done. Qed.

Lemma put_same_at b v a a' : same_at a a' → same_at (put l b v a) (put l b v a').
Proof.
  intros [Hc Hh]. split; simpl; [by rewrite !lookup_insert_eq|]. intros v'.
  destruct (decide (v = v')) as [<-|Hne].
  - by rewrite !lookup_insert_eq.
  - rewrite !lookup_insert_ne by congruence. apply Hh.
Qed.

Lemma put_elsewhere l' b v a : l' ≠ l → same_at a (put l' b v a).
Proof.
  intros Hne. split; simpl; [by rewrite lookup_insert_ne|]. intros v'.
  by rewrite lookup_insert_ne by congruence.
Qed.

Lemma same_at_trans a a1 a2 : same_at a a1 → same_at a1 a2 → same_at a a2.
Proof. intros [Hc1 Hh1] [Hc2 Hh2]. split; [congruence|]. intros v. by rewrite Hh1. Qed.

(** A call at the location does the same on both. *)
Lemma step_same_at spurious a a' c (r : reply E c) a1 :
  same_at a a' → call_at c → store_step spurious a c r a1 →
  ∃ a1', store_step spurious a' c r a1' ∧ same_at a1 a1'.
Proof.
  intros Ha Hc. pose proof Ha as [Hcur Hh].
  assert (∀ b v, issuable a l b v → issuable a' l b v) as Hi
    by (intros b v Hi b' Hb'; apply Hi; by rewrite Hh).
  assert (∀ b v, same_at (put l b v a) (put l b v a')) as Hput by (intros; by apply put_same_at).
  destruct c as [l'|l' b|l' v b| |]; simpl in Hc; subst; simpl.
  - intros [-> Hr]. exists a'. rewrite <- Hcur. auto.
  - destruct r as [v|[v|e]].
    + intros (? & ? & ->). eexists. rewrite <- Hcur. eauto.
    + intros [-> ?]. exists a'. rewrite <- Hcur. auto.
    + intros [->|(? & v & ? & ->)]; [exists a'; auto|]. eexists. rewrite <- Hcur. eauto 10.
  - destruct r as [v'|[v'|e]].
    + intros (? & ? & ->). eexists. rewrite <- Hcur. eauto.
    + intros [-> ?]. exists a'. rewrite <- Hcur. auto.
    + intros [->|(? & v' & ? & ->)]; [exists a'; auto|]. eexists. rewrite <- Hcur. eauto 10.
  - intros ->. by exists a'.
  - intros ->. by exists a'.
Qed.

(** A call of a harmless program leaves an object at the location alone. *)
Lemma step_harmless spurious a c (r : reply E c) a1 :
  is_Some (cur a !! l) → replaces_elsewhere c → store_step spurious a c r a1 → same_at a a1.
Proof.
  intros [o Ho] Hc Hs. destruct c as [l'|l' b|l' v b| |]; simpl in Hc, Hs.
  - by destruct Hs as [-> _].
  - assert (a1 = a ∨ (cur a !! l' = None ∧ ∃ v, a1 = put l' b v a)) as [->|(Hn & v & ->)]; [|done|].
    { destruct r as [v|[v|e]]; naive_solver. }
    apply put_elsewhere. congruence.
  - assert (a1 = a ∨ ∃ v, a1 = put l' b v a) as [->|(v' & ->)]; [|done|by apply put_elsewhere].
    destruct r as [v'|[v'|e]]; naive_solver.
  - by subst.
  - by subst.
Qed.

Lemma step_stays spurious a c (r : reply E c) a1 :
  store_step spurious a c r a1 → is_Some (cur a !! l) → is_Some (cur a1 !! l).
Proof.
  intros [->|(l' & b & v & _ & ->)]%store_step_put; [done|]. intros Ho. simpl.
  apply lookup_insert_is_Some. destruct (decide (l' = l)); auto.
Qed.
End Places.

Lemma only_at_harmless {E A} l l' (p : io E A) : only_at l' p → l' ≠ l → harmless l p.
Proof.
  intros Hp Hne. eapply calls_all_weaken; [|exact Hp]. intros [] ?; simpl in *; try done; congruence.
Qed.

(** ** What is made of a result *)

Section Follows.
Context {E A B : Type} (f : B → io E A).

(** [p] makes the calls of [q], and then continues with [f]. *)
Fixpoint follows (p : io E A) (q : io E B) {struct q} : Prop :=
  match q with
  | Ret x => p = f x
  | Panic => p = Panic
  | Call c k => ∃ k', p = Call (R := reply E) c k' ∧ ∀ r, follows (k' r) (k r)
  end.

Lemma follows_bind (q : io E B) : follows (prog_bind f q) q.
Proof. induction q as [x| |c k IH]; simpl; [done..|]. eexists. split; [done|]. apply IH. Qed.

Lemma follows_call c (k : reply E c → io E A) q :
  (∀ x c k, f x ≠ Call (R := reply E) c k) → follows (Call c k) q →
  ∃ k', q = Call c k' ∧ ∀ r, follows (k r) (k' r).
Proof.
  intros Hf. destruct q as [x| |c' k']; simpl; [|done|].
  - intros Heq. by destruct (Hf x c k).
  - intros (k1 & [= <- Hk] & Hr).
    apply (Eqdep_dec.inj_pair2_eq_dec _ (λ x y, decide (x = y))) in Hk as <-. by exists k'.
Qed.

Lemma follows_calls_all P p q :
  (∀ x, calls_all P (f x)) → follows p q → calls_all P q → calls_all P p.
Proof.
  intros Hf. revert p. induction q as [x| |c k IH]; simpl; intros p.
  - by intros ->.
  - by intros ->.
  - intros (k' & -> & Hr) [? Hk]. split; [done|]. intros r. by eapply IH.
Qed.

(** A program that has returned was made of a result. *)
Lemma follows_Ret x q : follows (Ret x) q → ∃ y, q = Ret y ∧ f y = Ret x.
Proof. destruct q as [y| |c k]; simpl; [by eauto|done|]. by intros (k' & ? & _). Qed.
End Follows.

(** ** The projection *)

Section Project.
Context {E A B : Type} (spurious : bool) (l : Location).

(** The operations at the location, of the clients that have one there, and what those
    clients make of the results, without a call. *)
Context (part : nat → option (io E B)) (f : nat → B → io E A).
Context (f_stops : ∀ t x c k, f t x ≠ Call (R := reply E) c k).

(** What a client may run. *)
Definition fits (t : nat) (p : io E A) : Prop :=
  match part t with
  | Some q => follows (f t) p q ∧ only_at l q
  | None => harmless l p
  end.

Record projects (c : config E A) (c' : config E B) : Prop := MkProjects {
  pr_store : same_at l (c_store c) (c_store c');
  pr_thread t th : c_threads c !! t = Some th →
    match part t with
    | Some q => ∃ th', c_threads c' !! t = Some th' ∧ t_op th' = q ∧
        follows (f t) (t_cur th) (t_cur th') ∧ only_at l (t_cur th') ∧
        t_uuids th = t_uuids th' ∧ t_clock th = t_clock th'
    | None => harmless l (t_cur th)
    end;
  pr_back t th' : c_threads c' !! t = Some th' →
    is_Some (c_threads c !! t) ∧ part t = Some (t_op th');
  pr_uuids : c_uuids c' `sublist_of` c_uuids c;
}.

Lemma projects_invoke a ths us log t p c' :
  ths !! t = None → fits t p → projects (MkConfig a ths us log) c' →
  ∃ c1, (cstep spurious c' c1 ∨ c1 = c') ∧
    projects (MkConfig a (<[t := MkThread p (length log) p [] []]> ths) us log) c1.
Proof.
  intros Ht Hp [Hst Hth Hback Hus]. unfold fits in Hp. simpl in *.
  destruct (part t) as [q|] eqn:Hq.
  - destruct Hp as [Hp Hq']. destruct c' as [a' ths' us' log']. simpl in *.
    assert (ths' !! t = None) as Ht'.
    { destruct (ths' !! t) as [th'|] eqn:Ht'; [|done]. destruct (Hback t th' Ht') as [[? ?] _]. congruence. }
    eexists. split; [left; by eapply (cstep_invoke spurious a' ths' us' log' t q)|].
    split; simpl; [done| | |done].
    + intros t1 th [[<- <-]|[Hne Ht1]]%lookup_insert_Some.
      * rewrite Hq. eexists. rewrite lookup_insert_eq. split; [done|]. simpl. by split_and!.
      * specialize (Hth t1 th Ht1). destruct (part t1); [|done].
        destruct Hth as (th' & ? & ?). exists th'. by rewrite lookup_insert_ne.
    + intros t1 th [[<- <-]|[Hne Ht1]]%lookup_insert_Some.
      * rewrite lookup_insert_eq. split; [by eexists|done].
      * rewrite lookup_insert_ne by done. by apply Hback.
  - exists c'. split; [by right|]. split; simpl; [done| | |done].
    + intros t1 th [[<- <-]|[Hne Ht1]]%lookup_insert_Some; [by rewrite Hq|by apply Hth].
    + intros t1 th Ht1. destruct (Hback t1 th Ht1) as [? ?]. split; [|done].
      apply lookup_insert_is_Some'. by right.
Qed.

(** A call of a client that does not act on the object. *)
Lemma projects_other a a1 ths us log t th cl (k : reply E cl → io E A) r c' :
  is_Some (cur a !! l) → ths !! t = Some th → t_cur th = Call (R := reply E) cl k →
  store_step spurious a cl r a1 → part t = None → projects (MkConfig a ths us log) c' →
  projects (MkConfig a1 (<[t := call_result th cl r (k r)]> ths) (us ++ uuids_drawn cl r)
    (log_change t a a1 log)) c'.
Proof.
  intros Ho Ht Hcur Hs Hpart [Hst Hth Hback Hus]. simpl in *.
  pose proof (Hth t th Ht) as Hh. rewrite Hpart, Hcur in Hh. destruct Hh as [Hcl Hk].
  split; simpl.
  - eapply same_at_trans; [|exact Hst].
    destruct (step_harmless l spurious a cl r a1 Ho Hcl Hs) as [Hc Hv]. split; [done|].
    intros v. by rewrite Hv.
  - intros t1 th1 [[<- <-]|[Hne Ht1]]%lookup_insert_Some; [|by apply Hth].
    rewrite Hpart. apply Hk.
  - intros t1 th1 Ht1. destruct (Hback t1 th1 Ht1) as [? ?]. split; [|done].
    apply lookup_insert_is_Some'. by right.
  - by apply sublist_inserts_r.
Qed.

(** A call of a client of the location. *)
Lemma projects_part a a1 ths us log t th cl (k : reply E cl → io E A) r c' q :
  ths !! t = Some th → t_cur th = Call (R := reply E) cl k →
  store_step spurious a cl r a1 → part t = Some q → projects (MkConfig a ths us log) c' →
  ∃ c1, cstep spurious c' c1 ∧
    projects (MkConfig a1 (<[t := call_result th cl r (k r)]> ths) (us ++ uuids_drawn cl r)
      (log_change t a a1 log)) c1.
Proof.
  intros Ht Hcur Hs Hq [Hst Hth Hback Hus]. simpl in *.
  pose proof (Hth t th Ht) as Hh. rewrite Hq in Hh.
  destruct Hh as (th' & Ht' & Hop & Hcur' & Hat & Hdrawn & Hclock).
  rewrite Hcur in Hcur'. apply follows_call in Hcur' as (k' & Hk' & Hk); [|done].
  rewrite Hk' in Hat. destruct Hat as [Hcl Hat].
  destruct c' as [a' ths' us' log']. simpl in *.
  destruct (step_same_at l spurious a a' cl r a1 Hst Hcl Hs) as (a1' & Hs' & Hst').
  eexists. split; [by eapply (cstep_call spurious a' ths' us' log' t th' cl k' r a1')|].
  split; simpl; [done| | |].
  - intros t1 th1 [[<- <-]|[Hne Ht1]]%lookup_insert_Some.
    + rewrite Hq. eexists. rewrite lookup_insert_eq. split; [done|]. simpl.
      rewrite Hdrawn, Hclock. split_and!; solve [done|apply Hat].
    + specialize (Hth t1 th1 Ht1). destruct (part t1); [|done].
      destruct Hth as (th2 & ? & ?). exists th2. by rewrite lookup_insert_ne.
  - intros t1 th1 [[<- <-]|[Hne Ht1]]%lookup_insert_Some.
    + rewrite lookup_insert_eq. split; [by eexists|]. simpl. by rewrite Hq, Hop.
    + rewrite lookup_insert_ne by done. by apply Hback.
  - by apply sublist_app.
Qed.

Lemma fits_step c c1 :
  cstep spurious c c1 →
  (∀ t th, c_threads c1 !! t = Some th → fits t (t_op th)) →
  ∀ t th, c_threads c !! t = Some th → fits t (t_op th).
Proof.
  intros Hstep Hfits t th Ht.
  destruct Hstep as [a ths us log t1 p Ht1|a ths us log t1 th1 cl k r a' Ht1 Hcur Hs]; simpl in *.
  - apply (Hfits t). rewrite lookup_insert_ne; [done|congruence].
  - destruct (decide (t1 = t)) as [<-|Hne].
    + simplify_eq. apply (Hfits t1 (call_result th1 cl r (k r))). by rewrite lookup_insert_eq.
    + apply (Hfits t). by rewrite lookup_insert_ne.
Qed.

(** Every execution projects to the location of an object that is there from the start,
    provided that each client has an operation at the location only, or never replaces
    the object there. *)
Lemma project a0 c :
  is_Some (cur a0 !! l) → creachable spurious a0 c →
  (∀ t th, c_threads c !! t = Some th → fits t (t_op th)) →
  is_Some (cur (c_store c) !! l) ∧ ∃ c', creachable spurious a0 c' ∧ projects c c'.
Proof.
  intros Ho Hreach. induction Hreach as [|c c1 Hreach IH Hstep]; intros Hfits.
  { split; [done|]. exists (MkConfig a0 ∅ [] []). split; [constructor|].
    split; simpl; [done|intros t th; by rewrite lookup_empty..|constructor]. }
  destruct IH as (Hcur & c' & Hreach' & Hpr); [by eapply fits_step|].
  destruct Hstep as [a ths us log t p Ht|a ths us log t th cl k r a' Ht Hc Hs]; simpl in *.
  - split; [done|].
    destruct (projects_invoke a ths us log t p c' Ht) as (c2 & [Hs| ->] & Hpr2); [|done|..].
    + apply (Hfits t (MkThread p (length log) p [] [])). by rewrite lookup_insert_eq.
    + exists c2. split; [by eapply creachable_step|done].
    + by exists c'.
  - split; [by eapply step_stays|]. destruct (part t) as [q|] eqn:Hq.
    + edestruct projects_part as (c2 & Hs2 & Hpr2); [done..|].
      exists c2. split; [by eapply creachable_step|done].
    + exists c'. split; [done|]. by eapply projects_other.
Qed.
End Project.

(** ** What a program may return *)

Fixpoint results_all {E A} (P : A → Prop) (p : io E A) : Prop :=
  match p with Ret x => P x | Panic => True | Call _ k => ∀ r, results_all P (k r) end.

Lemma results_all_bind {E A B} (P : B → Prop) (f : A → io E B) (p : io E A) :
  (∀ x, results_all P (f x)) → results_all P (prog_bind f p).
Proof. intros Hf. induction p as [x| |c k IH]; simpl; [apply Hf|done|apply IH]. Qed.

Lemma creachable_results {E A} spurious a0 (c : config E A) t th (P : A → Prop) :
  creachable spurious a0 c → c_threads c !! t = Some th → results_all P (t_op th) →
  results_all P (t_cur th).
Proof.
  intros Hreach. revert t th. induction Hreach as [|c c1 _ IH Hstep]; intros t th.
  { simpl. by rewrite lookup_empty. }
  destruct Hstep as [a ths us log t1 p Ht|a ths us log t1 th1 i k r a' Ht Hc Hs]; simpl in *.
  - intros [[<- <-]|[_ Hth]]%lookup_insert_Some; [done|by eapply IH].
  - intros [[<- <-]|[_ Hth]]%lookup_insert_Some; [|by eapply IH].
    intros Hop%(IH _ _ Ht). rewrite Hc in Hop. apply Hop.
Qed.
