(* ===== verification/StructSystem.v ===== *)
(** * Maps and logs on a backend

    What clients of one map, or of one log, can rely on when they run on any backend that
    linearizes. *)

From S2P Require Import Prelude.
From S2P Require Import Program.
From S2P Require Import ObjectStore.
From S2P Require Import Json.
From S2P Require Import CoreTypes.
From S2P Require Import StructMap.
From S2P Require Import StructLog.
From S2P Require Import Linearization.
From S2P Require Import Concurrent.
From S2P Require Import ConcurrentMap.
From S2P Require Import ConcurrentLog.
From S2P Require Import Composition.
From S2P Require Import SystemLinearizable.
Import Core.

(** What a client may have been told by a call that took effect: the reply, a failure
    of the backend, or nothing yet. *)
Definition may_have_got {E J A} (cl : client E (result A (Error E J))) (x : A) : Prop :=
  cl_cur cl = Ret (Ok x) ∨ (∃ e, cl_cur cl = Ret (Err (Store e))) ∨
  (is_Some (cl_wait cl) ∧ ¬ stopped (cl_cur cl)).

Section MapSystem.
Context {S E J V M : Type}.
Context `{!ToJson J (Map.MapDocument V), !ToJson J (Map.OwnedMapDocument V),
          !FromJson J (Map.OwnedMapDocument V)}.
Context `{!JsonRoundTrip (J := J) (D := Map.OwnedMapDocument V) id}.
Context `{!Backend E M} {spurious delayed : bool} {a0 : astore} {m0 : M}
  {holds : M → astore → Prop}.
Context `{!BackendLinearizes E M spurious delayed a0 m0 holds}.
Context (m : Map.Map S) (ops : nat → map_op V) (es0 : gmap string V).
Context (s : system E (result (map_output V) (Error E J)) M).

(** Clients have run operations of the map, which held [es0] at first. *)
Record map_system : Prop := MkMapSystem {
  ms_coherent : coherent a0;
  ms_holds : map_holds (J := J) m a0 es0;
  ms_reachable : rtc sys_step (sys_start m0) s;
  ms_clients t cl : sy_clients s !! t = Some cl → cl_op cl = map_run m (ops t);
}.

(** C14: no lost updates, on every backend that linearizes.  There is an order of some of
    the operations, each at most once, such that the backend holds the map their changes
    give one after another; every operation that succeeded returned what the model gives
    at its own place in the order if it changed the map, and at some moment of it if it
    did not; and an operation in the order succeeded, was told that the backend failed,
    or still waits for its reply: in particular one that was told of a conflict changed
    nothing. *)
Theorem map_system_no_lost_update :
  map_system →
  ∃ order a, NoDup order ∧ holds (sy_backend s) a ∧
    map_holds (J := J) m a (map_after ops es0 order) ∧
    (∀ t cl x, sy_clients s !! t = Some cl → cl_cur cl = Ret (Ok x) →
       ∃ n v, let model := map_model (ops t) (map_after ops es0 (take n order)) in
         x = model.2 v ∧
         ((order !! n = Some t ∧ is_Some model.1) ∨ ((t ∉ order) ∧ model.1 = None))) ∧
    (∀ t, t ∈ order → ∃ cl x, sy_clients s !! t = Some cl ∧ may_have_got cl x).
Proof.
  intros [Hcoh Hh Hsteps Hcl].
  destruct (system_explained s Hsteps) as (c & Hreach & Hholds & Hex).
  { intros t cl Ht. rewrite (Hcl t cl Ht). apply map_run_disciplined. }
  destruct (concurrent_map_no_lost_update spurious m ops a0 es0 c Hcoh Hh Hreach)
    as (Hnd & Hm & Hok & Hin).
  { intros t th Hth. destruct (ex_clients _ _ Hex t th Hth) as (cl & Ht & -> & _). by apply Hcl. }
  exists (c_log c).*1, (c_store c). split; [done|]. split; [done|]. split; [done|]. split.
  - intros t cl x Ht Hx.
    destruct (ex_returned _ _ Hex t cl _ Ht Hx) as (th & Hth & _ & Hcur & _).
    destruct (Hok t th x Hth Hcur) as (n & v & _ & Hres). by exists n, v.
  - intros t (th & x & Hth & Hcur & Hres)%Hin.
    destruct (ex_threads _ _ Hex t th x Hth Hcur) as (cl & Ht & _ & _ & Hx).
    destruct Hres as [[y Hy]|[e ->]].
    + destruct x as [x|]; [|done]. exists cl, x. split; [done|].
      destruct Hx as [?|?]; [by left|by right; right].
    + exists cl, (OutValue None). split; [done|]. right.
      destruct Hx as [?|?]; [left; by eexists|by right].
Qed.
End MapSystem.

Section LogSystem.
Context {S E J V M : Type}.
Context `{!ToJson J (Log.LogDocument V), !FromJson J (Log.LogDocument V)}.
Context `{!JsonRoundTrip (J := J) (D := Log.LogDocument V) id}.
Context `{!Backend E M} {spurious delayed : bool} {a0 : astore} {m0 : M}
  {holds : M → astore → Prop}.
Context `{!BackendLinearizes E M spurious delayed a0 m0 holds}.
Context (m : Log.Log S) (ops : nat → log_op V).
Context (s : system E (result (log_output V) (Error E J)) M).

(** Clients have run operations of the log, which was empty at first, and the UUID
    generator did not repeat itself. *)
Record log_system : Prop := MkLogSystem {
  ls_coherent : coherent a0;
  ls_empty : log_holds (J := J) m a0 ([] : list (Log.LogRecord V));
  ls_reachable : rtc sys_step (sys_start m0) s;
  ls_clients t cl : sy_clients s !! t = Some cl → cl_op cl = log_run m (ops t);
  ls_uuids : NoDup (sy_uuids s);
}.

(** C15: logs are append-only, on every backend that linearizes.  The backend holds a
    valid log; it contains the record of every append that succeeded, under the identifier
    it returned, and only records of appends that succeeded, were told that the backend
    failed, or still wait for their reply; and a successful read returned what a scan of
    some of these records, in identifier order, gives. *)
Theorem log_system_append_only :
  log_system →
  ∃ a rs, holds (sy_backend s) a ∧ log_holds (J := J) m a rs ∧
    (∀ t cl i value, sy_clients s !! t = Some cl → ops t = LogAppend value →
       cl_cur cl = Ret (Ok (OutId i)) → Log.MkRecord i value ∈ rs) ∧
    (∀ r, r ∈ rs → ∃ t cl, sy_clients s !! t = Some cl ∧ ops t = LogAppend (Log.value r) ∧
       may_have_got cl (OutId (Log.id r))) ∧
    (∀ t cl x, sy_clients s !! t = Some cl → cl_cur cl = Ret (Ok x) →
       (∀ value, ops t ≠ LogAppend value) →
       ∃ rs', sorted_by Log.key rs' ∧ rs' ⊆ rs ∧ log_view (ops t) rs' = Some x).
Proof.
  intros [Hcoh He Hsteps Hcl Hus].
  destruct (system_explained s Hsteps) as (c & Hreach & Hholds & Hex).
  { intros t cl Ht. rewrite (Hcl t cl Ht). apply log_run_disciplined. }
  destruct (concurrent_log_append_only spurious m ops a0 c Hcoh He Hreach)
    as ((rs & Hrs & Hperm & _ & Happ) & Hin & Hread).
  { intros t th Hth. destruct (ex_clients _ _ Hex t th Hth) as (cl & Ht & -> & _). by apply Hcl. }
  { by apply (ex_uuids _ _ Hex). }
  exists (c_store c), rs. split; [done|]. split; [done|]. split_and!.
  - intros t cl i value Ht Hop Hx.
    destruct (ex_returned _ _ Hex t cl _ Ht Hx) as (th & Hth & _ & Hcur & _). by eapply Happ.
  - intros r Hr. rewrite Hperm in Hr. apply list_elem_of_omap in Hr as (t & Ht & Ha).
    destruct (Hin t Ht) as (th & u & value & Hth & Hop & _ & Ha' & Hcur).
    rewrite Ha in Ha'. injection Ha' as ->.
    assert (∃ x, t_cur th = Ret x) as [x Hx] by (destruct Hcur as [?|[e ?]]; by eexists).
    destruct (ex_threads _ _ Hex t th x Hth Hx) as (cl & Hc & _ & _ & Hgot).
    exists t, cl. split; [done|]. split; [done|]. unfold may_have_got.
    rewrite Hx in Hcur. destruct Hgot as [->|]; [|by auto]. destruct Hcur as [?|[e ?]]; eauto.
  - intros t cl x Ht Hx Hop.
    destruct (ex_returned _ _ Hex t cl _ Ht Hx) as (th & Hth & _ & Hcur & _).
    destruct (Hread t th x Hth Hcur Hop) as (n & rs' & _ & Hs & Hp & Hv).
    exists rs'. split; [done|]. split; [|done]. intros r. rewrite Hp, Hperm, !list_elem_of_omap.
    intros (t' & [k Hk]%list_elem_of_lookup & Hr). apply lookup_take_Some in Hk as [Hk _].
    exists t'. split; [|done]. by eapply list_elem_of_lookup_2.
Qed.
End LogSystem.
