(* ===== verification/RelyGuarantee.v ===== *)
(** * Rely and guarantee

    The theorems of [Concurrent] are about programs that read once and then write once.
    Others, such as the protocol that opens a structure or creates it, and a loop that
    retries after a conflict, are verified one client at a time: [guarded] says what each
    call of a program keeps ([Inv], and the [rely] of the other clients) and what the
    program knows in between, which the other clients must not disturb ([stable]). *)

From S2P Require Import Prelude.
From S2P Require Import Program.
From S2P Require Import ObjectStore.
From S2P Require Import Concurrent.

(** The store, its changes so far, and the UUIDs generated so far. *)
Record hist_state := MkHist {
  h_store : astore;
  h_log : list (nat * astore);
  h_uuids : list Uuid;
}.

Definition hist_of {E A} (c : config E A) : hist_state :=
  MkHist (c_store c) (c_log c) (c_uuids c).

(** Client [t] makes a call that leaves the store in [a]. *)
Definition hist_step {E} (t : nat) (c : call) (r : reply E c) (a : astore) (h : hist_state) :
    hist_state :=
  MkHist a (log_change t (h_store h) a (h_log h)) (h_uuids h ++ uuids_drawn c r).

Section Guarded.
Context {E A : Type} (spurious : bool).
Context (Inv : hist_state → Prop) (rely : nat → hist_state → hist_state → Prop).
Implicit Types (h : hist_state) (K : hist_state → Prop) (Q : option A → hist_state → Prop)
  (p : io E A) (t : nat).

Definition stable t K : Prop :=
  ∀ h h', Inv h → Inv h' → rely t h h' → K h → K h'.

(** One call, made when [K] holds, after which [K'] does. *)
Definition call_guarded t K (c : call) (r : reply E c) K' : Prop :=
  ∀ h a, Inv h → K h → NoDup (h_uuids h ++ uuids_drawn c r) →
    store_step spurious (h_store h) c r a →
    let h' := hist_step t c r a h in
    Inv h' ∧ (∀ t', t' ≠ t → rely t' h h') ∧ K' h'.

(** [p], run by client [t] when [K] holds, keeps the invariant and what the others rely
    on, and ends in [Q]; [None] stands for a panic. *)
Fixpoint guarded t Q K p : Prop :=
  match p with
  | Ret x => ∀ h, Inv h → K h → Q (Some x) h
  | Panic => ∀ h, Inv h → K h → Q None h
  | Call c k => ∀ r, ∃ K', stable t K' ∧ call_guarded t K c r K' ∧ guarded t Q K' (k r)
  end.

Lemma guarded_weaken t Q Q' K K' p :
  (∀ x h, Inv h → Q x h → Q' x h) → (∀ h, Inv h → K' h → K h) →
  guarded t Q K p → guarded t Q' K' p.
Proof.
  intros HQ. revert K K'. induction p as [x| |c k IH]; intros K K' HK; simpl; [by auto..|].
  intros Hp r. destruct (Hp r) as (K1 & Hst & Hc & Hk). exists K1. split; [done|]. split.
  - intros h a Hi Hh. apply Hc; [done|]. by apply HK.
  - by apply (IH r K1).
Qed.

Lemma guarded_post t Q Q' K p :
  guarded t Q K p → (∀ x h, Inv h → Q x h → Q' x h) → guarded t Q' K p.
Proof. intros Hp HQ. by eapply guarded_weaken; [exact HQ| |exact Hp]. Qed.

(** It is enough to know, of each state in which [p] may run, something from which it is
    guarded. *)
Lemma guarded_cases t Q K p :
  (∀ h, Inv h → K h → ∃ K', K' h ∧ guarded t Q K' p) → guarded t Q K p.
Proof.
  revert K. induction p as [x| |c k IH]; intros K HK; simpl.
  - intros h Hi Hh. destruct (HK h Hi Hh) as (K' & ? & Hq). by apply Hq.
  - intros h Hi Hh. destruct (HK h Hi Hh) as (K' & ? & Hq). by apply Hq.
  - intros r. exists (λ h, ∃ K', K' h ∧ stable t K' ∧ guarded t Q K' (k r)). split; [|split].
    + intros h h' Hi Hi' Hr (K' & Hh & Hst & Hg). exists K'. split; [by apply (Hst h h')|by split].
    + intros h a Hi Hh Hnd Hs. destruct (HK h Hi Hh) as (K' & Hh' & Hq).
      destruct (Hq r) as (K1 & Hst & Hc & Hg).
      destruct (Hc h a Hi Hh' Hnd Hs) as (? & ? & ?). split; [done|]. split; [done|].
      by exists K1.
    + apply IH. intros h Hi (K' & ? & _ & ?). by exists K'.
Qed.
End Guarded.

Section Bind.
Context {E : Type} (spurious : bool).
Context (Inv : hist_state → Prop) (rely : nat → hist_state → hist_state → Prop).
Abbreviation guarded := (guarded spurious Inv rely).

Lemma guarded_bind {A B} t Q K (f : A → io E B) (p : io E A) :
  guarded t (λ x h, match x with
    | Some x => ∃ K', K' h ∧ guarded t Q K' (f x)
    | None => Q None h
    end) K p →
  guarded t Q K (prog_bind f p).
Proof.
  revert K. induction p as [x| |c k IH]; intros K; simpl.
  - intros Hp. apply guarded_cases. intros h Hi Hh. by apply Hp.
  - done.
  - intros Hp r. destruct (Hp r) as (K' & Hst & Hc & Hk). exists K'. auto.
Qed.

Lemma guarded_try_bind {A B F} t Q K K' (f : A → io E (result B F)) (p : io E (result A F)) :
  guarded t (λ x h, match x with
    | Some (Ok x) => K' x h
    | Some (Err e) => Q (Some (Err e)) h
    | None => Q None h
    end) K p →
  (∀ x, guarded t Q (K' x) (f x)) →
  guarded t Q K (try_bind f p).
Proof.
  intros Hp Hf. apply guarded_bind. eapply guarded_weaken; [| |exact Hp]; [|done].
  intros [[x|e]|] h Hi Hx; simpl; [by eauto| |done].
  exists (λ h', Q (Some (Err e)) h'). split; [done|]. by intros h' _ ?.
Qed.

Lemma guarded_map_err {A F G} t Q K (f : F → G) (p : io E (result A F)) :
  guarded t (λ x, Q (map_err f <$> x)) K p → guarded t Q K (prog_map_err f p).
Proof.
  intros Hp. apply guarded_bind. eapply guarded_weaken; [| |exact Hp]; [|done].
  intros [x|] h Hi Hx; simpl in *; [|done]. exists (Q (Some (map_err f x))).
  split; [done|]. by intros h' _ ?.
Qed.

Lemma guarded_map_ok {A B F} t Q K (f : A → B) (p : io E (result A F)) :
  guarded t (λ x, Q (map_ok f <$> x)) K p → guarded t Q K (prog_map_ok f p).
Proof.
  intros Hp. apply guarded_bind. eapply guarded_weaken; [| |exact Hp]; [|done].
  intros [x|] h Hi Hx; simpl in *; [|done]. exists (Q (Some (map_ok f x))).
  split; [done|]. by intros h' _ ?.
Qed.
End Bind.

(** ** Soundness *)

Section Sound.
Context {E A : Type} (spurious : bool).
Context (Inv : hist_state → Prop) (rely : nat → hist_state → hist_state → Prop).
(** What client [t] knows when it is invoked after [n] changes, and how it must end. *)
Context (pre : nat → nat → hist_state → Prop) (post : nat → nat → option A → hist_state → Prop).
Context (pre_init : ∀ t h, Inv h → (t ∉ (h_log h).*1) → pre t (length (h_log h)) h).
Context (pre_stable : ∀ t n, stable Inv rely t (pre t n)).
Implicit Types (c : config E A) (th : thread E A).

Definition thread_guarded c t th : Prop :=
  ∃ K, stable Inv rely t K ∧ K (hist_of c) ∧
    guarded spurious Inv rely t (post t (t_start th)) K (t_cur th).

(** Every operation is guarded from its invocation. *)
Definition all_guarded c : Prop :=
  ∀ t th, c_threads c !! t = Some th →
    guarded spurious Inv rely t (post t (t_start th)) (pre t (t_start th)) (t_op th).

Lemma all_guarded_back c c' : cstep spurious c c' → all_guarded c' → all_guarded c.
Proof.
  intros Hstep Hall t th Ht.
  destruct Hstep as [a ths us log t1 p Hn|a ths us log t1 th1 cl k r a1 Ht1 Hc Hs]; simpl in *.
  - apply (Hall t th). simpl. rewrite lookup_insert_ne; [done|congruence].
  - destruct (decide (t1 = t)) as [<-|Hne].
    + simplify_eq. apply (Hall t1 (call_result _ cl r (k r))). simpl. by rewrite lookup_insert_eq.
    + apply (Hall t th). simpl. by rewrite lookup_insert_ne.
Qed.

(** Only clients that were invoked change the store. *)
Lemma changes_invoked a0 c :
  creachable spurious a0 c → ∀ t, t ∈ (c_log c).*1 → is_Some (c_threads c !! t).
Proof.
  induction 1 as [|c c' Hr IH Hstep]; [by intros t ?%elem_of_nil|].
  destruct Hstep as [a ths us log t p Hn|a ths us log t th cl k r a' Ht Hc Hs]; simpl in *;
    intros t1 H1; apply lookup_insert_is_Some.
  - destruct (decide (t = t1)); auto.
  - destruct (decide (t = t1)) as [|Hne]; [by left|right]. split; [done|]. apply IH.
    unfold log_change in H1. case_decide; [done|].
    rewrite fmap_app in H1. apply elem_of_app in H1 as [?|Heq%list_elem_of_singleton]; [done|].
    simpl in Heq. congruence.
Qed.

Lemma guarded_reachable a0 c :
  Inv (MkHist a0 [] []) → creachable spurious a0 c → NoDup (c_uuids c) → all_guarded c →
  Inv (hist_of c) ∧ ∀ t th, c_threads c !! t = Some th → thread_guarded c t th.
Proof.
  intros Hinit. induction 1 as [|c c' Hr IH Hstep]; intros Hnd Hall.
  { split; [done|]. intros t th Ht. simpl in Ht. by rewrite lookup_empty in Ht. }
  pose proof (all_guarded_back _ _ Hstep Hall) as Hall'.
  destruct Hstep as [a ths us log t p Hn|a ths us log t th cl k r a' Ht Hc Hs]; simpl in *.
  - destruct (IH Hnd Hall') as [Hinv Hths]. split; [done|].
    intros t1 th1 [[<- <-]|[_ H1]]%lookup_insert_Some; [|by apply Hths].
    exists (pre t (length log)). split; [apply pre_stable|].
    split.
    { apply (pre_init t (MkHist a log us)); [done|]. simpl.
      intros Hin%(changes_invoked a0 _ Hr). simpl in Hin. rewrite Hn in Hin. by destruct Hin. }
    apply (Hall t (MkThread p (length log) p [] [])). simpl. by rewrite lookup_insert_eq.
  - assert (NoDup us) as Hnd' by (by apply NoDup_app in Hnd as [? _]).
    destruct (IH Hnd' Hall') as [Hinv Hths]. unfold hist_of in Hinv. simpl in Hinv.
    destruct (Hths t th Ht) as (K & Hst & HK & Hg). rewrite Hc in Hg.
    destruct (Hg r) as (K' & Hst' & Hcall & Hg').
    destruct (Hcall _ _ Hinv HK Hnd Hs) as (Hinv' & Hrely & HK').
    unfold hist_step in *. simpl in *. split; [done|].
    intros t1 th1 [[<- <-]|[Hne H1]]%lookup_insert_Some; [by exists K'|].
    destruct (Hths t1 th1 H1) as (K1 & Hst1 & HK1 & Hg1).
    exists K1. split; [done|]. split; [|done].
    apply (Hst1 (MkHist a log us)); [done|done| |done]. by apply Hrely.
Qed.

(** What has been proved of the programs holds of concurrent executions. *)
Lemma guarded_sound a0 c :
  Inv (MkHist a0 [] []) → creachable spurious a0 c → NoDup (c_uuids c) → all_guarded c →
  Inv (hist_of c) ∧ ∀ t th, c_threads c !! t = Some th →
    match t_cur th with
    | Ret x => post t (t_start th) (Some x) (hist_of c)
    | Panic => post t (t_start th) None (hist_of c)
    | Call _ _ => True
    end.
Proof.
  intros Hinit Hr Hnd Hall. destruct (guarded_reachable a0 c Hinit Hr Hnd Hall) as [Hinv Hths].
  split; [done|]. intros t th Ht. destruct (Hths t th Ht) as (K & _ & HK & Hg).
  destruct (t_cur th); [by apply Hg..|done].
Qed.
End Sound.
