(* ===== verification/Sharing.v ===== *)
(** * Sharing a structure

    Processes that open one structure, or create it, and then operate on it, all at the
    same time.  A structure promises ([Shared]) that its opening protocol and its
    operations keep the object at its location valid whatever valid writes others make;
    every session of [open_or_create] followed by operations then finds the structure
    there and readable ([sessions_share]).

    The contract is the one without spurious conflicts. *)

From S2P Require Import Prelude.
From S2P Require Import Program.
From S2P Require Import ObjectStore.
From S2P Require Import Concurrent.
From S2P Require Import Composition.
From S2P Require Import SystemLinearizable.
From S2P Require Import RelyGuarantee.

(** ** Sessions *)

Section Sessions.
Context {E F H Op Out : Type}.

(** Operations one after another, up to the first error. *)
Fixpoint run_all (operate : Op → io E (result Out F)) (ops : list Op) :
    io E (result (list Out) F) :=
  match ops with
  | [] => Ret (Ok [])
  | o :: ops =>
      let? x := operate o in
      let? xs := run_all operate ops in
      Ret (Ok (x :: xs))
  end.

(** A process: it opens the structure and operates on the handle. *)
Definition session (opening : io E (result H F)) (operate : H → Op → io E (result Out F))
    (ops : list Op) : io E (result (list Out) F) :=
  let? h := opening in
  run_all (operate h) ops.
End Sessions.

(** ** What the processes keep and rely on *)

Section Validity.
(** The structure's location, and the objects that are valid there once the given UUIDs
    have been generated. *)
Context (l : Location) (valid : list Uuid → bytes → Prop).
Context (valid_mono : ∀ us us' b, us ⊆ us' → valid us b → valid us' b).
Implicit Types (h : hist_state).

Definition present h : Prop := is_Some (cur (h_store h) !! l).

Definition keeps_valid h : Prop :=
  ∀ o, cur (h_store h) !! l = Some o → valid (h_uuids h) (object_bytes o).

(** Objects are never deleted. *)
Definition shares (t : nat) h h' : Prop :=
  (present h → present h') ∧ h_uuids h ⊆ h_uuids h'.

Lemma stable_present t : stable keeps_valid shares t present.
Proof. intros h h' _ _ [Hp _]. exact Hp. Qed.

Lemma stable_true t : stable keeps_valid shares t (λ _, True).
Proof. done. Qed.

Lemma step_present {E} a (c : call) (r : reply E c) a' :
  store_step false a c r a' → is_Some (cur a !! l) → is_Some (cur a' !! l).
Proof.
  intros [->|(l' & b & v & _ & ->)]%store_step_put; [done|]. simpl.
  intros Ho. apply lookup_insert_is_Some. destruct (decide (l' = l)); auto.
Qed.

(** The call writes nothing invalid to the location. *)
Definition writes_valid h (c : call) : Prop :=
  match c with
  | Create l' b | Replace l' _ b => l' = l → valid (h_uuids h) b
  | _ => True
  end.

Lemma step_bytes {E} a (c : call) (r : reply E c) a' :
  store_step false a c r a' → a' = a ∨
  ∃ l' b v, a' = put l' b v a ∧ match c with
    | Create l1 b1 | Replace l1 _ b1 => l1 = l' ∧ b1 = b
    | _ => False
    end.
Proof.
  destruct c as [l1|l1 b1|l1 v1 b1| |]; simpl; intros Hs; try naive_solver;
    repeat case_match; naive_solver.
Qed.

Lemma sharing_call {E} t K (c : call) (r : reply E c) K' :
  (∀ h, keeps_valid h → K h → writes_valid h c) →
  (∀ h a, keeps_valid h → K h → NoDup (h_uuids h ++ uuids_drawn c r) →
     store_step false (h_store h) c r a → keeps_valid (hist_step t c r a h) →
     K' (hist_step t c r a h)) →
  call_guarded false keeps_valid shares t K c r K'.
Proof.
  intros Hw HK h a Hi Hh Hnd Hs.
  assert (h_uuids h ⊆ h_uuids (hist_step t c r a h)) as Hus by (simpl; set_solver).
  assert (keeps_valid (hist_step t c r a h)) as Hi'.
  { specialize (Hw h Hi Hh). intros o Ho. simpl in Ho.
    destruct (step_bytes _ _ _ _ Hs) as [->|(l' & b & v & -> & Hc)].
    - eapply valid_mono; [exact Hus|]. by apply Hi.
    - simpl in Ho. apply lookup_insert_Some in Ho as [[<- <-]|[_ Ho]].
      + eapply valid_mono; [exact Hus|]. simpl.
        destruct c; try done; destruct Hc as [<- <-]; by apply Hw.
      + eapply valid_mono; [exact Hus|]. by apply Hi. }
  split; [done|]. split; [|by apply HK].
  intros t' _. split; [by eapply step_present|done].
Qed.
End Validity.

(** ** Programs *)

Section Programs.
Context {E : Type} (l : Location) (valid : list Uuid → bytes → Prop).
Context (valid_mono : ∀ us us' b, us ⊆ us' → valid us b → valid us' b).
Implicit Types (h : hist_state) (t : nat).
Abbreviation guarded := (guarded (E := E) false (keeps_valid l valid) (shares l)).
Abbreviation present := (present l).

(** The structure is there, and the object [o] was once found in it. *)
Definition was_read (o : Object) h : Prop :=
  present h ∧ valid (h_uuids h) (object_bytes o).

Lemma stable_was_read t o : stable (keeps_valid l valid) (shares l) t (was_read o).
Proof.
  intros h h' _ _ [Hp Hus] [? ?]. split; [by apply Hp|]. by eapply valid_mono.
Qed.

Lemma shares_unchanged t (c : call) (r : reply E c) h :
  shares l t h (hist_step t c r (h_store h) h).
Proof. split; [done|]. simpl. set_solver. Qed.

Lemma guarded_absurd {A} t Q (p : io E A) : guarded t Q (λ _, False) p.
Proof. by apply guarded_cases. Qed.

Lemma guarded_get {A} t Q K K0 (k : result (option Object) E → io E A) :
  stable (keeps_valid l valid) (shares l) t K → stable (keeps_valid l valid) (shares l) t K0 →
  (∀ h, K h → cur (h_store h) !! l = None → K0 h) →
  (∀ o, guarded t Q (was_read o) (k (Ok (Some o)))) →
  guarded t Q K0 (k (Ok None)) →
  (∀ e, guarded t Q K (k (Err e))) →
  guarded t Q K (Call (R := reply E) (Get l) k).
Proof.
  intros HK HK0 Habs Hsome Hnone Herr. cbn [guarded RelyGuarantee.guarded].
  intros [[o|]|e].
  - exists (was_read o). split; [apply stable_was_read|]. split; [|apply Hsome].
    apply sharing_call; [done|done|]. intros h a Hi _ _ [-> [[= Ho]|[e ?]]] _; [|done].
    unfold was_read, Sharing.present. simpl. rewrite app_nil_r, <- Ho. split; [by eexists|].
    by apply Hi.
  - exists K0. split; [done|]. split; [|done].
    apply sharing_call; [done|done|]. intros h a Hi Hh _ [-> [[= Ho]|[e ?]]] Hi'; [|done].
    apply (HK0 h); [done|done|apply shares_unchanged|]. by apply Habs.
  - exists K. split; [done|]. split; [|done].
    apply sharing_call; [done|done|]. intros h a Hi Hh _ [-> _] Hi'.
    apply (HK h); [done|done|apply shares_unchanged|done].
Qed.

(** Creating the object, or finding that another process has. *)
Lemma guarded_create {A} t Q K b (k : result Version (CreateError E) → io E A) :
  stable (keeps_valid l valid) (shares l) t K → valid [] b →
  (∀ v, guarded t Q present (k (Ok v))) →
  (∀ v, guarded t Q present (k (Err (CreateAlreadyExists v)))) →
  (∀ e, guarded t Q (λ _, True) (k (Err (CreateStore e)))) →
  guarded t Q K (Call (R := reply E) (Create l b) k).
Proof.
  intros HK Hb Hok Hexists Herr. cbn [guarded RelyGuarantee.guarded].
  assert (∀ r K', (∀ h a, store_step false (h_store h) (Create l b) r a → K' (hist_step t (Create l b) r a h)) →
    call_guarded (E := E) false (keeps_valid l valid) (shares l) t K (Create l b) r K') as Hcall.
  { intros r K' HK'. apply sharing_call; [done| |by auto].
    intros h _ _ _. by eapply valid_mono; [apply list_subseteq_nil|]. }
  intros [v|[v|e]].
  - exists present. split; [apply stable_present|]. split; [|done].
    apply Hcall. intros h a (_ & _ & ->). unfold Sharing.present. simpl.
    rewrite lookup_insert_eq. by eexists.
  - exists present. split; [apply stable_present|]. split; [|done].
    apply Hcall. intros h a [-> Ho]. destruct (Ho eq_refl) as (o & Ho' & _). by exists o.
  - exists (λ _, True). split; [apply stable_true|]. split; [|done]. by apply Hcall.
Qed.

(** Replacing the object by valid bytes; what is known ([K]) implies that the structure is
    there. *)
Lemma guarded_replace {A} t Q K v b (k : result Version (ReplaceError E) → io E A) :
  (∀ h, K h → present h ∧ valid (h_uuids h) b) →
  (∀ r, guarded t Q present (k r)) →
  guarded t Q K (Call (R := reply E) (Replace l v b) k).
Proof.
  intros HK Hk. cbn [guarded RelyGuarantee.guarded]. intros r.
  exists present. split; [apply stable_present|]. split; [|done].
  apply sharing_call; [done|intros h _ Hh _; by apply HK|].
  intros h a _ Hh _ Hs _. eapply (step_present l); [exact Hs|]. by apply HK.
Qed.

(** A new UUID is none of those generated before. *)
Lemma guarded_uuid {A} t Q K (f : Uuid → io E A) :
  stable (keeps_valid l valid) (shares l) t K →
  (∀ u, guarded t Q (λ h, ∃ h0, keeps_valid l valid h0 ∧ K h0 ∧ shares l t h0 h ∧
     (u ∉ h_uuids h0) ∧ u ∈ h_uuids h) (f u)) →
  guarded t Q K (prog_bind f now_v7).
Proof.
  intros HK Hf. cbn [guarded RelyGuarantee.guarded now_v7 prog_bind]. intros u.
  eexists. split; [|split; [|apply Hf]].
  - intros h h' _ _ [Hp Hus] (h0 & ? & ? & [? ?] & ? & ?). exists h0.
    split; [done|]. split; [done|]. split; [split; [by auto|by etrans]|]. auto.
  - apply sharing_call; [done|done|]. intros h a Hi Hh Hnd Hs _.
    simpl in Hs. subst a. exists h.
    split; [done|]. split; [done|]. split; [by apply (shares_unchanged t NowV7 u)|]. simpl in *.
    apply NoDup_app in Hnd as (_ & Hnd & _). split; [|set_solver].
    intros Hu. apply (Hnd u Hu). set_solver.
Qed.

Lemma guarded_millis {A} t Q K (f : N → io E A) :
  stable (keeps_valid l valid) (shares l) t K →
  (∀ now, guarded t Q K (f now)) → guarded t Q K (prog_bind f now_millis).
Proof.
  intros HK Hf. cbn [guarded RelyGuarantee.guarded now_millis prog_bind]. intros now.
  exists K. split; [done|]. split; [|apply Hf].
  apply sharing_call; [done|done|]. intros h a Hi Hh _ Hs Hi'.
  simpl in Hs. subst a. apply (HK h); [done|done|apply shares_unchanged|done].
Qed.

(** Every structure reads its object with one call, and accepts any valid object. *)
Context {F : Type} (st : E → F).

Lemma guarded_reads_bind {X B} t Q (obs : option Object → result X F) p
    (f : X → io E (result B F)) :
  reads_object st l obs p →
  (∀ us o, valid us (object_bytes o) → ∃ x, obs (Some o) = Ok x) →
  (∀ e h, present h → Q (Some (Err (st e))) h) →
  (∀ o x, obs (Some o) = Ok x → guarded t Q (was_read o) (f x)) →
  guarded t Q present (try_bind f p).
Proof.
  intros (k & -> & Hk) Hobs Herr Hf. cbn [try_bind prog_bind].
  apply (guarded_get _ _ _ (λ _, False)).
  - apply stable_present.
  - by intros h h' _ _ _ [].
  - by intros h [o Ho] Hnone; simplify_eq.
  - intros o. rewrite Hk. apply guarded_cases. intros h _ [Hp Hv].
    destruct (Hobs _ _ Hv) as [x Hx]. exists (was_read o). split; [by split|].
    rewrite Hx. by apply Hf.
  - apply guarded_absurd.
  - intros e. rewrite Hk. intros h _ Hp. by apply Herr.
Qed.
End Programs.

(** ** The interface of a structure *)

(** How a session may end: not by a panic, and only by an acceptable error. *)
Definition ended {F X} (acceptable : F → Prop) (ok : X → hist_state → Prop)
    (x : option (result X F)) (h : hist_state) : Prop :=
  match x with
  | Some (Ok v) => ok v h
  | Some (Err e) => acceptable e
  | None => False
  end.

(** What a structure promises: whatever valid writes the other processes make, opening
    ends with the handle [hd] and the structure there, and operations on it end. *)
Class Shared {E F H Op Out : Type} (l : Location) (valid : list Uuid → bytes → Prop)
    (acceptable : F → Prop) (hd : H) (opening : io E (result H F))
    (operate : H → Op → io E (result Out F)) : Prop := {
  shared_mono us us' b : us ⊆ us' → valid us b → valid us' b;
  shared_opening t : guarded false (keeps_valid l valid) (shares l) t
    (ended acceptable (λ h1 h, h1 = hd ∧ present l h)) (λ _, True) opening;
  shared_operate t op : guarded false (keeps_valid l valid) (shares l) t
    (ended acceptable (λ _ h, present l h)) (present l) (operate hd op);
}.

Section SessionsShare.
Context {E F H Op Out : Type} {l : Location} {valid : list Uuid → bytes → Prop}
  {acceptable : F → Prop} {hd : H} {opening : io E (result H F)}
  {operate : H → Op → io E (result Out F)}.
Context `{!Shared l valid acceptable hd opening operate}.

Lemma run_all_guarded t ops :
  guarded false (keeps_valid l valid) (shares l) t (ended acceptable (λ _ h, present l h))
    (present l) (run_all (operate hd) ops).
Proof.
  induction ops as [|op ops IH]; cbn [run_all]; [by intros h _ Hp|].
  apply (guarded_try_bind _ _ _ _ _ _ (λ _, present l)).
  - eapply guarded_post; [apply (shared_operate t op)|by intros [[]|]].
  - intros x. apply (guarded_try_bind _ _ _ _ _ _ (λ _, present l)).
    + eapply guarded_post; [exact IH|by intros [[]|]].
    + by intros xs h _ Hp.
Qed.

Lemma session_guarded t ops :
  guarded false (keeps_valid l valid) (shares l) t (ended acceptable (λ _ h, present l h))
    (λ _, True) (session opening operate ops).
Proof.
  apply (guarded_try_bind _ _ _ _ _ _ (λ h1 h, h1 = hd ∧ present l h)).
  - eapply guarded_post; [apply shared_opening|by intros [[]|]].
  - intros h1. apply guarded_cases. intros h _ [-> Hp]. exists (present l).
    split; [done|]. apply run_all_guarded.
Qed.

Context {M : Type} `{!Backend E M} {a0 : astore} {m0 : M} {holds : M → astore → Prop}.
Context `{!BackendLinearizes E M false false a0 m0 holds}.

(** Sessions of any number of processes, started at any time, on a backend that
    linearizes: the object stays valid, no session panics, those that completed left
    the structure there, and those that failed did so with an acceptable error. *)
Lemma sessions_share (ops : nat → list Op) (s : system E (result (list Out) F) M) :
  (∀ o, cur a0 !! l = Some o → valid [] (object_bytes o)) →
  rtc sys_step (sys_start m0) s →
  (∀ t cl, sy_clients s !! t = Some cl → cl_op cl = session opening operate (ops t)) →
  NoDup (sy_uuids s) →
  ∃ a us, holds (sy_backend s) a ∧ us ⊆ sy_uuids s ∧
    (∀ o, cur a !! l = Some o → valid us (object_bytes o)) ∧
    ∀ t cl, sy_clients s !! t = Some cl →
      match cl_cur cl with
      | Ret (Ok _) => is_Some (cur a !! l)
      | Ret (Err e) => acceptable e
      | Panic => False
      | Call _ _ => True
      end.
Proof.
  intros Hinit Hsteps Hcl Hus.
  destruct (system_replayed s Hsteps) as (c & Hreach & Hholds & Hex); [done|].
  destruct (guarded_sound false (keeps_valid l valid) (shares l) (λ _ _ _, True)
    (λ _ _, ended acceptable (λ _ h, present l h))
    ltac:(done) ltac:(done) a0 c Hinit Hreach (ex_uuids _ _ Hex Hus)) as [Hinv Hths].
  { intros t th Hth. destruct (ex_clients _ _ Hex t th Hth) as (cl & Ht & -> & _).
    rewrite (Hcl t cl Ht). apply session_guarded. }
  exists (c_store c), (c_uuids c). split; [done|].
  split; [by apply (ex_drawn _ _ Hex)|]. split; [exact Hinv|].
  intros t cl Ht. destruct (stopped_dec (cl_cur cl)) as [Hst|Hst].
  - destruct (ex_stopped _ _ Hex t cl Ht Hst) as (th & Hth & _ & Hcur & _).
    specialize (Hths t th Hth). rewrite Hcur in Hths. by destruct (cl_cur cl) as [[x|e]| |].
  - destruct (cl_cur cl) as [x| |]; [|exfalso; by apply Hst|done].
    exfalso. apply Hst. by intros.
Qed.
End SessionsShare.
