(* ===== verification/SharedStructures.v ===== *)
(** * Maps, logs and queues shared by processes

    Each structure keeps the promises of [Sharing.Shared]: any number of processes can
    call [open_or_create] on it and operate on the handle, concurrently. *)

From S2P Require Import Prelude.
From S2P Require Import Program.
From S2P Require Import ObjectStore.
From S2P Require Import Json.
From S2P Require Import CoreTypes.
From S2P Require Import Lifecycle.
From S2P Require Import StructMap.
From S2P Require Import StructLog.
From S2P Require Import WorkQueue.
From S2P Require Import QueueRefinement.
From S2P Require Import Concurrent.
From S2P Require Import Composition.
From S2P Require Import RelyGuarantee.
From S2P Require Import Sharing.
Import Core.

(** ** Opening (lifecycle.rs) *)

Section Lifecycle.
Context {E J : Type} (l : Location) (valid : list Uuid → bytes → Prop).
Context (valid_mono : ∀ us us' b, us ⊆ us' → valid us b → valid us' b).
Abbreviation guarded := (guarded (E := E) false (keeps_valid l valid) (shares l)).

(** The errors of the core crate that processes sharing a structure can get: never that it
    does not exist, exists already, or cannot be read. *)
Definition acceptable (e : Error E J) : Prop :=
  match e with
  | Store _ | Conflict _ | Document (Serialize _) => True
  | _ => False
  end.

Lemma guarded_open_or_create {X} t empty obs (read : io E (result X (Error E J))) :
  reads_object (λ e, Store (MkStoreError e)) l obs read →
  (∀ us o, valid us (object_bytes o) → ∃ x, obs (Some o) = Ok x) →
  (∀ b, empty = Ok b → valid [] b) → (∀ e, empty = Err e → acceptable e) →
  guarded t (ended acceptable (λ _ h, present l h)) (λ _, True)
    (Lifecycle.open_or_create_structure l empty read).
Proof.
  intros Hread Hobs Hempty Herr.
  assert (∀ K, (∀ h, K h → present l h) →
    guarded t (ended acceptable (λ _ h, present l h)) K (Lifecycle.open_structure read)) as Hopen.
  { intros K HK. eapply guarded_weaken; [done|intros h _; apply HK|].
    eapply (guarded_reads_bind l valid); [done|exact Hread|exact Hobs|done|].
    by intros o x _ h _ [? _]. }
  apply (guarded_get l valid valid_mono _ _ _ (λ _, True)); [done..| | |].
  - intros o. apply Hopen. by intros h [? _].
  - cbn [map_err try_bind prog_bind]. destruct empty as [b|e]; [|by intros h _ _; apply Herr].
    cbn [try_bind prog_bind Lifecycle.create prog_map_err ObjectStore.create].
    apply (guarded_create l valid valid_mono); [done|by apply Hempty|..].
    + by intros v h _ Hp.
    + intros v. by apply Hopen.
    + by intros e h _ _.
  - by intros e h _ _.
Qed.

(** Writing a document back. *)
Lemma guarded_write t (K : hist_state → Prop) v (enc : result bytes J) :
  (∀ b h, enc = Ok b → K h → present l h ∧ valid (h_uuids h) b) →
  guarded t (ended acceptable (λ _ h, present l h)) K
    (let? b := Ret (map_err Document (map_err Serialize enc)) in Lifecycle.replace l v b).
Proof.
  intros HK. destruct enc as [b|j]; [|by intros h _ _].
  cbn [map_err try_bind prog_bind Lifecycle.replace prog_map_err ObjectStore.replace].
  apply (guarded_replace l valid valid_mono); [by intros h; apply HK|].
  intros [x|[x|x]] h _ Hp; done.
Qed.
End Lifecycle.

(** ** Maps *)

Section SharedMap.
Context {S E J V : Type}.
Context `{!ToJson J (Map.MapDocument V), !ToJson J (Map.OwnedMapDocument V),
          !FromJson J (Map.OwnedMapDocument V)}.
Context `{!JsonRoundTrip (J := J) (D := Map.OwnedMapDocument V) id,
          !JsonRoundTrip (J := J) (D := Map.MapDocument V) Map.to_owned}.
Implicit Types (m : Map.Map S).

Definition valid_map m (_ : list Uuid) (b : bytes) : Prop :=
  ∃ es : gmap string V, map_decodes (J := J) m b es.

Lemma valid_map_mono m us us' b : us ⊆ us' → valid_map m us b → valid_map m us' b.
Proof. done. Qed.

Lemma map_observed_valid m us o :
  valid_map m us (object_bytes o) →
  ∃ x, map_observed (E := E) (J := J) (V := V) m (Some o) = Ok x.
Proof.
  intros (es & d & Hd & Hv & Hk & Hs & _). unfold map_observed. simpl. rewrite Hd. simpl.
  rewrite Hv, Hk, Hs, validate_refl. by eexists.
Qed.

Lemma map_observed_metadata m o v d :
  map_observed (E := E) (J := J) (V := V) m (Some o) = Ok (v, d) →
  ∀ es b, to_vec (J := J) (Map.set_entries d es) = Ok b → map_decodes (J := J) m b es.
Proof.
  unfold map_observed. simpl. destruct (from_slice _) as [d'|e]; simpl; [|done].
  destruct (validate _ _ _ _ _) as [u|e] eqn:Hv; simpl; [|done].
  intros [= _ <-] es b. apply validate_Ok in Hv as (Hv & Hk & Hs).
  unfold Map.set_entries. rewrite Hv, Hk, Hs. apply map_decodes_written.
Qed.

Lemma map_write_guarded t m o v d es :
  map_observed (E := E) (J := J) (V := V) m (Some o) = Ok (v, d) →
  guarded (E := E) false (keeps_valid (Map.location m) (valid_map m)) (shares (Map.location m)) t
    (ended acceptable (λ _ h, present (Map.location m) h))
    (was_read (Map.location m) (valid_map m) o)
    (Map.write m v (Map.set_entries d es)).
Proof.
  intros Hobs. apply guarded_write; [apply valid_map_mono|].
  intros b h Hb [Hp _]. split; [done|]. exists es. by eapply map_observed_metadata.
Qed.

#[export] Instance map_shared m builder :
  Map.finish builder = Ok m →
  Shared (Map.location m) (valid_map m) acceptable m
    (Map.open_or_create (E := E) (J := J) (V := V) builder) map_run.
Proof.
  intros Hfin. split; [apply valid_map_mono| |].
  - intros t. unfold Map.open_or_create. rewrite Hfin. cbn [map_err]. rewrite try_bind_Ok.
    apply (guarded_try_bind _ _ _ _ _ _ (λ _, present (Map.location m)));
      [|by intros u h _ Hp].
    eapply guarded_post; [eapply guarded_open_or_create; [done|..]|by intros [[]|]].
    + apply map_read_reads.
    + apply map_observed_valid.
    + intros b Hb. exists ∅. by apply (map_decodes_empty (E := E)).
    + intros e. unfold Map.empty_bytes. destruct (to_vec _); simpl; [done|]. by intros [= <-].
  - intros t op. destruct op as [key| |key value|key value|key]; cbn [map_run];
      apply guarded_map_ok;
      (eapply guarded_reads_bind; [apply valid_map_mono|apply map_read_reads|
         apply map_observed_valid|done|]); intros o [v d] Hobs.
    + by intros h _ [? _].
    + by intros h _ [? _].
    + eapply guarded_post; [by apply map_write_guarded|by intros [[]|]].
    + destruct (Map.entries_ d !! key); [by intros h _ [? _]|]. apply guarded_map_ok.
      eapply guarded_post; [by apply map_write_guarded|by intros [[]|]].
    + cbv zeta. destruct (Map.entries_ d !! key); [|by intros h _ [? _]].
      apply (guarded_try_bind _ _ _ _ _ _ (λ _, present (Map.location m)));
        [|by intros ? h _ ?].
      eapply guarded_post; [by apply map_write_guarded|by intros [[]|]].
Qed.
End SharedMap.

(** ** Logs *)

Section SharedLog.
Context {S E J V : Type}.
Context `{!ToJson J (Log.LogDocument V), !FromJson J (Log.LogDocument V)}.
Context `{!JsonRoundTrip (J := J) (D := Log.LogDocument V) id}.
Implicit Types (m : Log.Log S).

(** The records are in order, under identifiers that have been generated. *)
Definition valid_log m (us : list Uuid) (b : bytes) : Prop :=
  ∃ rs : list (Log.LogRecord V), log_decodes (J := J) m b rs ∧ sorted_by Log.key rs ∧
    Log.key <$> rs ⊆ us.

Lemma valid_log_mono m us us' b : us ⊆ us' → valid_log m us b → valid_log m us' b.
Proof. intros Hus (rs & ? & ? & ?). exists rs. split; [done|]. split; [done|]. by etrans. Qed.

Lemma log_observed_valid m us o :
  valid_log m us (object_bytes o) →
  ∃ x, log_observed (E := E) (J := J) (V := V) m (Some o) = Ok x.
Proof.
  intros (rs & (d & Hd & Hv & Hk & Hs & He) & Hsort & _). unfold log_observed. simpl.
  rewrite Hd. simpl. rewrite Hv, Hk, Hs, validate_refl. simpl.
  rewrite (proj2 (windows2_any_sorted_by Log.key _)) by (by rewrite He). by eexists.
Qed.

Lemma log_observed_document m o v d :
  log_observed (E := E) (J := J) (V := V) m (Some o) = Ok (v, d) →
  (∀ us, valid_log m us (object_bytes o) →
     sorted_by Log.key (Log.records_ d) ∧ Log.key <$> Log.records_ d ⊆ us) ∧
  (∀ rs b, to_vec (J := J) (Log.set_records d rs) = Ok b → log_decodes (J := J) m b rs).
Proof.
  unfold log_observed. simpl. destruct (from_slice _) as [d'|e] eqn:Hd; simpl; [|done].
  destruct (validate _ _ _ _ _) as [u|e] eqn:Hv; simpl; [|done]. case_match; [done|].
  intros [= _ <-]. split.
  - intros us (rs & (d1 & Hd1 & _ & _ & _ & <-) & ? & ?).
    rewrite Hd in Hd1. by injection Hd1 as <-.
  - apply validate_Ok in Hv as (Hv & Hk & Hs). intros rs b.
    unfold Log.set_records. rewrite Hv, Hk, Hs. apply log_decodes_written.
Qed.

Lemma log_write_guarded t K m o v d rs :
  log_observed (E := E) (J := J) (V := V) m (Some o) = Ok (v, d) →
  (∀ h, K h → present (Log.location m) h ∧ sorted_by Log.key rs ∧ Log.key <$> rs ⊆ h_uuids h) →
  guarded (E := E) false (keeps_valid (Log.location m) (valid_log m)) (shares (Log.location m)) t
    (ended acceptable (λ _ h, present (Log.location m) h)) K
    (Log.write m v (Log.set_records d rs)).
Proof.
  intros [_ Hd]%log_observed_document HK. apply guarded_write; [apply valid_log_mono|].
  intros b h Hb Hh. destruct (HK h Hh) as (? & ? & ?). split; [done|]. exists rs. auto.
Qed.

Lemma append_guarded t m (value : V) :
  guarded false (keeps_valid (Log.location m) (valid_log m)) (shares (Log.location m)) t
    (ended acceptable (λ _ h, present (Log.location m) h)) (present (Log.location m))
    (Log.append (E := E) (J := J) m value).
Proof.
  eapply guarded_reads_bind; [apply valid_log_mono|apply log_read_reads|
    apply log_observed_valid|done|]. intros o [v d] Hobs.
  apply (guarded_uuid (Log.location m) (valid_log m) (valid_log_mono m)); [apply stable_was_read, valid_log_mono|].
  intros u. cbv zeta. cbn [prog_bind Log.logid_uuid]. apply guarded_cases.
  intros h _ (h0 & _ & [Hp Hv] & [Hpres Hsub] & Hnew & Hu).
  destruct (proj1 (log_observed_document _ _ _ _ Hobs) _ Hv) as [Hsort Hkeys].
  assert (u ∉ Log.key <$> Log.records_ d) as Hfresh by (intros ?; by apply Hnew, Hkeys).
  rewrite (binary_search_insert Log.key (Log.MkRecord (Log.MkLogId u) value)) by done.
  cbn [or_panic prog_bind].
  set (rs := insert_sorted _ _ _).
  exists (λ h, present (Log.location m) h ∧ sorted_by Log.key rs ∧ Log.key <$> rs ⊆ h_uuids h).
  split.
  - split; [by apply Hpres|]. split; [by apply insert_sorted_sorted|].
    intros k. rewrite list_elem_of_fmap. intros (r & -> & [->|Hr]%elem_of_insert_sorted); [done|].
    apply Hsub, Hkeys. by apply list_elem_of_fmap_2.
  - apply (guarded_try_bind _ _ _ _ _ _ (λ _, present (Log.location m))); [|by intros ? h1 _ ?].
    eapply guarded_post; [by eapply log_write_guarded|by intros [[]|]].
Qed.

#[export] Instance log_shared m builder :
  Log.finish builder = Ok m →
  Shared (Log.location m) (valid_log m) acceptable m
    (Log.open_or_create (E := E) (J := J) (V := V) builder) log_run.
Proof.
  intros Hfin. split; [apply valid_log_mono| |].
  - intros t. unfold Log.open_or_create. rewrite Hfin. cbn [map_err]. rewrite try_bind_Ok.
    apply (guarded_try_bind _ _ _ _ _ _ (λ _, present (Log.location m)));
      [|by intros u h _ Hp].
    eapply guarded_post; [eapply guarded_open_or_create; [apply valid_log_mono|..]|by intros [[]|]].
    + apply log_read_reads.
    + apply log_observed_valid.
    + intros b. unfold Log.empty_bytes. rewrite !map_err_Ok. intros Hb. exists [].
      split; [by apply log_decodes_written|]. split; [apply sorted_by_nil|done].
    + intros e. unfold Log.empty_bytes. destruct (to_vec _); simpl; [done|]. by intros [= <-].
  - intros t op. destruct op as [value|i| |i]; cbn [log_run]; apply guarded_map_ok.
    + eapply guarded_post; [apply append_guarded|by intros [[]|]].
    + eapply guarded_reads_bind; [apply valid_log_mono|apply log_read_reads|
        apply log_observed_valid|done|]. intros o [v d] Hobs.
      destruct (binary_search_by_key _ _ _) as [j|j] eqn:Hj; [|by intros h _ [? _]].
      apply guarded_cases. intros h _ [Hp Hv].
      destruct (proj1 (log_observed_document _ _ _ _ Hobs) _ Hv) as [Hsort _].
      apply binary_search_by_key_Ok in Hj as (r & Hj & _); [|done].
      exists (present (Log.location m)). split; [done|].
      unfold vec_remove. rewrite Hj. by intros h1 _ ?.
    + eapply guarded_reads_bind; [apply valid_log_mono|apply log_read_reads|
        apply log_observed_valid|done|]. by intros o [v d] _ h _ [? _].
    + eapply guarded_reads_bind; [apply valid_log_mono|apply log_read_reads|
        apply log_observed_valid|done|]. by intros o [v d] _ h _ [? _].
Qed.
End SharedLog.

(** ** Queues *)

Section SharedQueue.
Context {S C E J V : Type}.
Context `{!ToJson J (Queue.QueueDocument V), !FromJson J (Queue.QueueDocument V)}.
Context `{!JsonRoundTrip (J := J) (D := Queue.QueueDocument V) id}.
Implicit Types (m : Queue.Queue S C) (ms : list (Queue.Message V)).

(** A message as the types of its fields allow: its attempts fit a [u32] and the deadline
    of its lease a [u64]; its identifier and its token have been generated; and it has been
    claimed exactly when it has a lease. *)
Definition message_typed (us : list Uuid) (x : Queue.Message V) : Prop :=
  Queue.key x ∈ us ∧ (Queue.attempts x ≤ u32_max)%N ∧
  match Queue.lease x with
  | Some l => (1 ≤ Queue.attempts x)%N ∧ Queue.token_uuid (Queue.token l) ∈ us ∧
              (Queue.expires_at_millis l ≤ u64_max)%N
  | None => Queue.attempts x = 0%N
  end.

(** The messages are in order, and each is typed. *)
Definition valid_queue m (us : list Uuid) (b : bytes) : Prop :=
  ∃ ms : list (Queue.Message V), queue_decodes (J := J) m b ms ∧ sorted_by Queue.key ms ∧
    Forall (message_typed us) ms.

Lemma message_typed_mono us us' x : us ⊆ us' → message_typed us x → message_typed us' x.
Proof.
  intros Hus (Hk & Ha & Hl). split; [by apply Hus|]. split; [done|].
  destruct (Queue.lease x) as [l|]; [|done]. destruct Hl as (? & ? & ?). auto.
Qed.

Lemma messages_typed_mono us us' ms :
  us ⊆ us' → Forall (message_typed us) ms → Forall (message_typed us') ms.
Proof. intros Hus Hms. eapply Forall_impl; [exact Hms|]. intros x. by apply message_typed_mono. Qed.

Lemma messages_typed_keys us ms : Forall (message_typed us) ms → Queue.key <$> ms ⊆ us.
Proof.
  intros Hms k. rewrite list_elem_of_fmap. intros (x & -> & Hx).
  rewrite Forall_forall in Hms. by apply Hms.
Qed.

(** The errors that processes sharing a queue can get: never that it does not exist,
    exists already, or cannot be read. *)
Definition queue_acceptable (e : Queue.Error E J) : Prop :=
  match e with
  | Queue.Store _ | Queue.Conflict _ _ | Queue.InvalidLeaseDuration | Queue.AttemptOverflow => True
  | Queue.Document j => ∃ d : Queue.QueueDocument V, to_vec d = Err j
  | _ => False
  end.

Lemma valid_queue_mono m us us' b : us ⊆ us' → valid_queue m us b → valid_queue m us' b.
Proof.
  intros Hus (ms & ? & ? & ?). exists ms. split; [done|]. split; [done|].
  by eapply messages_typed_mono.
Qed.

Lemma queue_observed_valid m us o :
  valid_queue m us (object_bytes o) →
  ∃ x, queue_observed (E := E) (J := J) (V := V) m (Some o) = Ok x.
Proof.
  intros (ms & (d & Hd & Hv & Hk & Hs & He) & Hsort & _). unfold queue_observed. simpl.
  rewrite Hd. simpl. rewrite Hv, Hk, Hs, N.eqb_refl, !String.eqb_refl. simpl.
  rewrite (proj2 (windows2_any_sorted_by Queue.key _)) by (by rewrite He). by eexists.
Qed.

Lemma queue_observed_document m o v d :
  queue_observed (E := E) (J := J) (V := V) m (Some o) = Ok (v, d) →
  (∀ us, valid_queue m us (object_bytes o) →
     sorted_by Queue.key (Queue.messages d) ∧ Forall (message_typed us) (Queue.messages d)) ∧
  (∀ ms b, to_vec (J := J) (Queue.set_messages d ms) = Ok b → queue_decodes (J := J) m b ms).
Proof.
  unfold queue_observed. simpl. destruct (from_slice _) as [d'|e] eqn:Hd; simpl; [|done].
  destruct (N.eqb_spec (Queue.format_version d') Queue.FORMAT_VERSION) as [Hv|]; simpl; [|done].
  destruct (String.eqb_spec (Queue.kind d') Queue.KIND) as [Hk|]; simpl; [|done].
  destruct (String.eqb_spec (Queue.doc_schema d') (Queue.schema m)) as [Hs|]; simpl; [|done].
  case_match; [done|]. intros [= _ <-]. split.
  - intros us (ms & (d1 & Hd1 & _ & _ & _ & <-) & ? & ?).
    rewrite Hd in Hd1. by injection Hd1 as <-.
  - intros ms b. unfold Queue.set_messages. rewrite Hv, Hk, Hs. apply queue_decodes_written.
Qed.

Abbreviation queue_guarded m :=
  (guarded (E := E) false (keeps_valid (Queue.location m) (valid_queue m)) (shares (Queue.location m))).
Abbreviation ends m := (ended queue_acceptable (λ _ h, present (Queue.location m) h)).

(** A mutation that ends by writing [ms]. *)
Lemma queue_write_guarded {A} t K m o v d ms (f : unit → io E (result A (Queue.Error E J))) :
  queue_observed (E := E) (J := J) (V := V) m (Some o) = Ok (v, d) →
  (∀ h, K h → present (Queue.location m) h ∧ sorted_by Queue.key ms ∧
     Forall (message_typed (h_uuids h)) ms) →
  (∃ x, f tt = Ret (Ok x)) →
  queue_guarded m t (ends m) K (try_bind f (Queue.write m v (Queue.set_messages d ms))).
Proof.
  intros [_ Hd]%queue_observed_document HK [x Hf]. unfold Queue.write.
  destruct (to_vec _) as [b|j] eqn:Hb; cbn [map_err try_bind prog_bind].
  - cbn [prog_map_err ObjectStore.replace prog_bind].
    apply (guarded_replace _ _ (valid_queue_mono m)).
    + intros h Hh. destruct (HK h Hh) as (? & ? & ?). split; [done|]. exists ms. auto.
    + intros [w|[w|w]]; cbn [map_err prog_bind]; rewrite ?Hf; by intros h _ Hp.
  - intros h _ _. by eexists.
Qed.

Lemma publish_guarded t m (value : V) :
  queue_guarded m t (ends m) (present (Queue.location m)) (Queue.publish m value).
Proof.
  eapply guarded_reads_bind; [apply valid_queue_mono|apply queue_read_reads|
    apply queue_observed_valid|done|]. intros o [v d] Hobs.
  apply (guarded_uuid _ _ (valid_queue_mono m)); [apply stable_was_read, valid_queue_mono|].
  intros u. cbv zeta. apply guarded_cases.
  intros h _ (h0 & _ & [Hp Hv] & [Hpres Hsub] & Hnew & Hu).
  destruct (proj1 (queue_observed_document _ _ _ _ Hobs) _ Hv) as [Hsort Htyped].
  assert (u ∉ Queue.key <$> Queue.messages d) as Hfresh
    by (intros ?; by apply Hnew, (messages_typed_keys _ _ Htyped)).
  rewrite (partition_point_insert Queue.key
    (Queue.MkMessage (Queue.MkMessageId u) value 0 None)) by done.
  cbn [or_panic prog_bind]. set (ms := insert_sorted _ _ _).
  exists (λ h, present (Queue.location m) h ∧ sorted_by Queue.key ms ∧
    Forall (message_typed (h_uuids h)) ms).
  split.
  - split; [by apply Hpres|]. split; [by apply insert_sorted_sorted|].
    rewrite Forall_forall. intros x [->|Hx]%elem_of_insert_sorted.
    + split; [done|]. by split.
    + rewrite Forall_forall in Htyped. by eapply message_typed_mono, Htyped.
  - eapply queue_write_guarded; [done|done|by eexists].
Qed.

Lemma claim_guarded t m dur :
  queue_guarded m t (ends m) (present (Queue.location m)) (Queue.claim (V := V) m dur).
Proof.
  unfold Queue.claim. destruct (ok_or _ _) as [millis|e] eqn:He;
    [rewrite try_bind_Ok|destruct (lease_millis ← _; _); [done|injection He as <-]; by intros h _ _].
  apply (guarded_millis _ _ (valid_queue_mono m)); [apply stable_present|]. intros now.
  destruct (checked_add _ now _) as [deadline|] eqn:Hdl; cbn [ok_or]; [rewrite try_bind_Ok|by intros h _ _].
  apply checked_add_Some in Hdl as [-> Hdl].
  eapply guarded_reads_bind; [apply valid_queue_mono|apply queue_read_reads|
    apply queue_observed_valid|done|]. intros o [v d] Hobs.
  destruct (position _ _) as [i|] eqn:Hpos; [|by intros h _ [? _]].
  apply (guarded_uuid _ _ (valid_queue_mono m)); [apply stable_was_read, valid_queue_mono|].
  intros u. cbv zeta.
  destruct (proj1 (position_Some _ _ _) Hpos) as [(x & Hx & _) _]. rewrite Hx.
  cbn [or_panic prog_bind].
  destruct (checked_add _ _ _) as [count|] eqn:Hcount; cbn [ok_or];
    [rewrite try_bind_Ok|by intros h _ _].
  apply checked_add_Some in Hcount as [-> Hcount].
  eapply queue_write_guarded; [exact Hobs| |].
  - intros h (h0 & _ & [Hp Hv] & [Hpres Hsub] & _ & Hu). split; [by apply Hpres|].
    destruct (proj1 (queue_observed_document _ _ _ _ Hobs) _ Hv) as [Hsort Htyped].
    split; [by eapply sorted_by_update|].
    apply (messages_typed_mono _ (h_uuids h)) in Htyped; [|done].
    apply Forall_insert; [done|]. rewrite Forall_lookup in Htyped.
    destruct (Htyped i x Hx) as (? & ? & _). split; [done|]. simpl. split_and!; [lia..|exact Hu|lia].
  - cbn [Queue.messages Queue.set_messages].
    rewrite list_lookup_insert_eq by (by eapply lookup_lt_Some). by eexists.
Qed.

Lemma ack_guarded t m i token :
  queue_guarded m t (ends m) (present (Queue.location m)) (Queue.ack (V := V) m i token).
Proof.
  apply (guarded_millis _ _ (valid_queue_mono m)); [apply stable_present|]. intros now.
  eapply guarded_reads_bind; [apply valid_queue_mono|apply queue_read_reads|
    apply queue_observed_valid|done|]. intros o [v d] Hobs.
  destruct (binary_search_by_key _ _ _) as [j|j] eqn:Hj; [|by intros h _ [? _]].
  apply guarded_cases. intros h _ [Hp Hv].
  destruct (proj1 (queue_observed_document _ _ _ _ Hobs) _ Hv) as [Hsort Hkeys].
  apply binary_search_by_key_Ok in Hj as (x & Hj & _); [|done]. rewrite Hj.
  cbn [or_panic prog_bind].
  exists (was_read (Queue.location m) (valid_queue m) o). split; [by split|].
  destruct (Queue.lease x) as [lease|]; [|by intros h1 _ [? _]].
  destruct (negb _); [by intros h1 _ [? _]|]. destruct (_ <=? _)%N; [by intros h1 _ [? _]|].
  unfold vec_remove. rewrite Hj. cbn [or_panic prog_bind].
  eapply queue_write_guarded; [exact Hobs| |by eexists].
  intros h1 [Hp1 Hv1]. split; [done|].
  destruct (proj1 (queue_observed_document _ _ _ _ Hobs) _ Hv1) as [_ Htyped].
  split; [by apply sorted_by_remove|].
  apply Forall_app. split; [by apply Forall_take|by apply Forall_drop].
Qed.

(** A program that reads the queue and looks at it. *)
Lemma queue_read_guarded {A} t m K (f : _ → io E (result A (Queue.Error E J))) :
  (∀ h, K h → present (Queue.location m) h) → (∀ x, ∃ y, f x = Ret (Ok y)) →
  queue_guarded m t (ends m) K (try_bind f (Queue.read (V := V) m)).
Proof.
  intros HK Hf. eapply guarded_weaken; [done|intros h _; apply HK|].
  eapply guarded_reads_bind; [apply valid_queue_mono|apply queue_read_reads|
    apply queue_observed_valid|done|]. intros o x _. destruct (Hf x) as [y ->].
  by intros h _ [? _].
Qed.

Lemma queue_opening_guarded t m builder :
  Queue.finish builder = Ok m →
  queue_guarded m t (ended queue_acceptable (λ m' h, m' = m ∧ present (Queue.location m) h))
    (λ _, True) (Queue.open_or_create (V := V) builder).
Proof.
  intros Hfin. unfold Queue.open_or_create. rewrite Hfin. cbn [map_err]. rewrite try_bind_Ok.
  assert (∀ K, (∀ h, K h → present (Queue.location m) h) →
    queue_guarded m t (ended queue_acceptable (λ m' h, m' = m ∧ present (Queue.location m) h)) K
      (let? _ := Queue.read (V := V) m in Ret (Ok m))) as Hopen.
  { intros K HK. eapply guarded_weaken; [done|intros h _; apply HK|].
    eapply guarded_reads_bind; [apply valid_queue_mono|apply queue_read_reads|
      apply queue_observed_valid|done|]. by intros o x _ h _ [? _]. }
  apply (guarded_get _ _ (valid_queue_mono m) _ _ _ (λ _, True)); [done..| | |].
  - intros o. apply Hopen. by intros h [? _].
  - cbn [map_err try_bind prog_bind]. unfold Queue.empty_bytes.
    destruct (to_vec _) as [b|j] eqn:Hb; cbn [map_err try_bind prog_bind];
      [|intros h _ _; by eexists].
    cbn [ObjectStore.create prog_bind]. apply (guarded_create _ _ (valid_queue_mono m)); [done|..].
    + exists []. split; [by apply queue_decodes_written|]. split; [apply sorted_by_nil|constructor].
    + by intros v h _ Hp.
    + intros v. by apply Hopen.
    + by intros e h _ _.
  - by intros e h _ _.
Qed.

#[export] Instance queue_shared m builder :
  Queue.finish builder = Ok m →
  Shared (Queue.location m) (valid_queue m) queue_acceptable m
    (Queue.open_or_create (E := E) (J := J) (V := V) builder) queue_run.
Proof.
  intros Hfin. split; [apply valid_queue_mono| |].
  - intros t. by apply queue_opening_guarded.
  - intros t op. destruct op as [value|dur|i token| |]; cbn [queue_run]; apply guarded_map_ok.
    + eapply guarded_post; [apply publish_guarded|by intros [[]|]].
    + eapply guarded_post; [apply claim_guarded|by intros [[]|]].
    + eapply guarded_post; [apply ack_guarded|by intros [[]|]].
    + eapply guarded_post; [apply queue_read_guarded; [done|by intros []; eexists]|by intros [[]|]].
    + apply (guarded_try_bind _ _ _ _ _ _ (λ _, present (Queue.location m))); [|by intros n h _ Hp].
      eapply guarded_post; [apply queue_read_guarded; [done|by intros []; eexists]|by intros [[]|]].
Qed.
End SharedQueue.

(** ** Sessions on a backend *)

(** How the session of a client stands: it completed, and the structure is there; it got an
    acceptable error; or it is under way. *)
Definition session_stands {E A F} (acceptable : F → Prop) (a : astore) (l : Location)
    (p : io E (result A F)) : Prop :=
  match p with
  | Ret (Ok _) => is_Some (cur a !! l)
  | Ret (Err e) => acceptable e
  | Panic => False
  | Call _ _ => True
  end.

Section MapSessions.
Context {S E J V M : Type}.
Context `{!ToJson J (Map.MapDocument V), !ToJson J (Map.OwnedMapDocument V),
          !FromJson J (Map.OwnedMapDocument V)}.
Context `{!JsonRoundTrip (J := J) (D := Map.OwnedMapDocument V) id,
          !JsonRoundTrip (J := J) (D := Map.MapDocument V) Map.to_owned}.
Context `{!Backend E M} {a0 : astore} {m0 : M} {holds : M → astore → Prop}.
Context `{!BackendLinearizes E M false false a0 m0 holds}.
Context (builder : Map.MapBuilder S) (m : Map.Map S) (ops : nat → list (map_op V)).
Context (s : system E (result (list (map_output V)) (Error E J)) M).

(** Clients have opened the map, or created it, and then operated on it; at first it was
    absent or valid. *)
Record map_sessions : Prop := MkMapSessions {
  mss_built : Map.finish builder = Ok m;
  mss_before o : cur a0 !! Map.location m = Some o →
    ∃ es : gmap string V, map_decodes (J := J) m (object_bytes o) es;
  mss_reachable : rtc sys_step (sys_start m0) s;
  mss_clients t cl : sy_clients s !! t = Some cl →
    cl_op cl = session (Map.open_or_create (V := V) builder) map_run (ops t);
  mss_uuids : NoDup (sy_uuids s);
}.

(** Processes that share a map never break it or find it broken.  Whatever the
    interleaving of their [open_or_create] and operations, on a backend that linearizes
    without spurious conflicts, its object is absent or a valid map; a process that
    completed left the map there; and a process fails only when the backend does, when a
    value cannot be encoded, or with a conflict: none is told that the map does not exist,
    exists already, or cannot be read, and none panics. *)
Lemma map_opened_concurrently :
  map_sessions →
  ∃ a, holds (sy_backend s) a ∧
    (cur a !! Map.location m = None ∨ ∃ es : gmap string V, map_holds (J := J) m a es) ∧
    ∀ t cl, sy_clients s !! t = Some cl →
      session_stands acceptable a (Map.location m) (cl_cur cl).
Proof.
  intros [Hfin Hinit Hsteps Hcl Hus].
  destruct (sessions_share (hd := m) (Shared0 := map_shared m builder Hfin) ops s)
    as (a & us & Hholds & _ & Hvalid & Hres); [done..|].
  exists a. split; [done|]. split; [|exact Hres].
  destruct (cur a !! Map.location m) as [o|] eqn:Ho; [right|by left].
  destruct (Hvalid o eq_refl) as [es Hes]. by exists es, o.
Qed.
End MapSessions.

Section LogSessions.
Context {S E J V M : Type}.
Context `{!ToJson J (Log.LogDocument V), !FromJson J (Log.LogDocument V)}.
Context `{!JsonRoundTrip (J := J) (D := Log.LogDocument V) id}.
Context `{!Backend E M} {a0 : astore} {m0 : M} {holds : M → astore → Prop}.
Context `{!BackendLinearizes E M false false a0 m0 holds}.

(** The same of a log that did not exist before. *)
Lemma log_opened_concurrently (builder : Log.LogBuilder S) (m : Log.Log S)
    (ops : nat → list (log_op V)) (s : system E (result (list (log_output V)) (Error E J)) M) :
  Log.finish builder = Ok m → cur a0 !! Log.location m = None →
  rtc sys_step (sys_start m0) s →
  (∀ t cl, sy_clients s !! t = Some cl →
     cl_op cl = session (Log.open_or_create (V := V) builder) log_run (ops t)) →
  NoDup (sy_uuids s) →
  ∃ a, holds (sy_backend s) a ∧
    (cur a !! Log.location m = None ∨ ∃ rs : list (Log.LogRecord V), log_holds (J := J) m a rs) ∧
    ∀ t cl, sy_clients s !! t = Some cl →
      session_stands acceptable a (Log.location m) (cl_cur cl).
Proof.
  intros Hfin Hinit Hsteps Hcl Hus.
  destruct (sessions_share (hd := m) (Shared0 := log_shared m builder Hfin) ops s)
    as (a & us & Hholds & _ & Hvalid & Hres); [congruence|done..|].
  exists a. split; [done|]. split; [|exact Hres].
  destruct (cur a !! Log.location m) as [o|] eqn:Ho; [right|by left].
  destruct (Hvalid o eq_refl) as (rs & Hrs & Hs & _). exists rs. split; [done|]. by exists o.
Qed.
End LogSessions.

Section QueueSessions.
Context {S C E J V M : Type}.
Context `{!ToJson J (Queue.QueueDocument V), !FromJson J (Queue.QueueDocument V)}.
Context `{!JsonRoundTrip (J := J) (D := Queue.QueueDocument V) id}.
Context `{!Backend E M} {a0 : astore} {m0 : M} {holds : M → astore → Prop}.
Context `{!BackendLinearizes E M false false a0 m0 holds}.
Context (builder : Queue.QueueBuilder S C) (m : Queue.Queue S C) (ops : nat → list (queue_op V)).
Context (s : system E (result (list (queue_output V)) (Queue.Error E J)) M).

(** Workers have opened the queue, or created it, and then operated on it; at first it was
    absent. *)
Record queue_sessions : Prop := MkQueueSessions {
  qss_built : Queue.finish builder = Ok m;
  qss_before : cur a0 !! Queue.location m = None;
  qss_reachable : rtc sys_step (sys_start m0) s;
  qss_clients t cl : sy_clients s !! t = Some cl →
    cl_op cl = session (Queue.open_or_create (V := V) builder) queue_run (ops t);
  qss_uuids : NoDup (sy_uuids s);
}.

(** C16: workers that share a queue never break it or find it broken.  Whatever the
    interleaving of their [open_or_create], publications, claims and acknowledgements, on
    a backend that linearizes without spurious conflicts and without delayed writes (the
    in-memory and the filesystem adapter, not S3), its object is absent or a valid
    queue; a worker that completed left the queue there; and a worker fails only when the
    backend does, when a payload cannot be encoded, with a conflict, or because a lease
    duration or an attempt count is out of range: none is told that the queue does not
    exist, exists already, or cannot be read, and none panics. *)
Theorem queue_opened_concurrently :
  queue_sessions →
  ∃ a, holds (sy_backend s) a ∧
    (cur a !! Queue.location m = None ∨
     ∃ ms : list (Queue.Message V), queue_holds (J := J) m a ms) ∧
    ∀ t cl, sy_clients s !! t = Some cl →
      session_stands (queue_acceptable (V := V)) a (Queue.location m) (cl_cur cl).
Proof.
  intros [Hfin Hinit Hsteps Hcl Hus].
  destruct (sessions_share (hd := m) (Shared0 := queue_shared m builder Hfin) ops s)
    as (a & us & Hholds & _ & Hvalid & Hres); [congruence|done..|].
  exists a. split; [done|]. split; [|exact Hres].
  destruct (cur a !! Queue.location m) as [o|] eqn:Ho; [right|by left].
  destruct (Hvalid o eq_refl) as (ms & Hms & Hs & _). exists ms. split; [done|]. by exists o.
Qed.

(** C20: stored messages stay within their types.  In such an execution, on such
    a backend, the queue's object, whenever there is one, is a document of
    messages whose attempt counts fit a [u32] and whose deadlines fit a [u64], each identified by a UUID that some worker generated; a
    message that has been claimed has a count of at least one and a lease whose token was
    generated too, and one that has not been claimed has a count of zero. *)
Theorem queue_documents_typed :
  queue_sessions →
  ∃ a, holds (sy_backend s) a ∧ ∀ o, cur a !! Queue.location m = Some o →
    ∃ ms : list (Queue.Message V), queue_decodes (J := J) m (object_bytes o) ms ∧
      sorted_by Queue.key ms ∧ Forall (message_typed (sy_uuids s)) ms.
Proof.
  intros [Hfin Hinit Hsteps Hcl Hus].
  destruct (sessions_share (hd := m) (Shared0 := queue_shared m builder Hfin) ops s)
    as (a & us & Hholds & Hdrawn & Hvalid & _); [congruence|done..|].
  exists a. split; [done|]. intros o Ho. destruct (Hvalid o Ho) as (ms & Hms & Hs & Hty).
  exists ms. split; [done|]. split; [done|]. by eapply messages_typed_mono.
Qed.
End QueueSessions.
