(* ===== verification/Portable.v ===== *)
(** * Backends are interchangeable

    A process that is alone on a backend sees of it only what the in-memory adapter would
    have shown it: unless the backend fails, a session of operations on a structure
    returns the same results on both, up to the versions in them, and leaves objects with
    the same bytes.  This is what makes the in-memory adapter a substitute for the others.

    [twins] relates two runs of one program on two backends, in lockstep: they make the
    same calls, except that each names the versions it was told of; [twins_agree] is its
    soundness.  Each structure shows that its programs are twins of themselves. *)

From S2P Require Import Prelude.
From S2P Require Import Program.
From S2P Require Import ObjectStore.
From S2P Require Import MemoryStore.
From S2P Require Import Json.
From S2P Require Import CoreTypes.
From S2P Require Import Lifecycle.
From S2P Require Import StructMap.
From S2P Require Import StructLog.
From S2P Require Import WorkQueue.
From S2P Require Import QueueRefinement.
From S2P Require Import Concurrent.
From S2P Require Import Composition.
From S2P Require Import SystemLinearizable.
From S2P Require Import Sharing.
Import Core.

(** ** Programs in lockstep *)

Section Twins.
Context {E1 E2 : Type}.

(** The location both runs have just read, and the version each found there. *)
Abbreviation seen := (option (Location * Version * Version)).

(** The program ends here with an acceptable result. *)
Definition gives_up {A} (B : A → Prop) (p : io E1 A) : Prop := ∃ x, p = Ret x ∧ B x.

(** The calls are the same, and the runs go on after the same replies; [rec] is what
    holds after them.  A reply that the first backend failed ends the first run; a
    replacement expects the version just read, so it is no conflict. *)
Definition twin_call {A1 A2} (B : A1 → Prop) (K : seen) (c1 c2 : call) :
    (reply E1 c1 → io E1 A1) → (reply E2 c2 → io E2 A2) →
    (reply E1 c1 → reply E2 c2 → seen → Prop) → Prop :=
  match c1, c2 with
  | Get l1, Get l2 => λ k1 k2 rec,
      l1 = l2 ∧ rec (Ok None) (Ok None) None ∧ (∀ e, gives_up B (k1 (Err e))) ∧
      ∀ b v1 v2, rec (Ok (Some (MkObject b v1))) (Ok (Some (MkObject b v2))) (Some (l1, v1, v2))
  | Create l1 b1, Create l2 b2 => λ k1 k2 rec,
      l1 = l2 ∧ b1 = b2 ∧ (∀ e, gives_up B (k1 (Err (CreateStore e)))) ∧
      ∀ v1 v2, rec (Ok v1) (Ok v2) None ∧
               rec (Err (CreateAlreadyExists v1)) (Err (CreateAlreadyExists v2)) None
  | Replace l1 x1 b1, Replace l2 x2 b2 => λ k1 k2 rec,
      l1 = l2 ∧ b1 = b2 ∧ K = Some (l1, x1, x2) ∧
      (∀ e, gives_up B (k1 (Err (ReplaceStore e)))) ∧ ∀ v1 v2, rec (Ok v1) (Ok v2) None
  | NowMillis, NowMillis => λ _ _ rec, ∀ t, rec t t K
  | NowV7, NowV7 => λ _ _ rec, ∀ u, rec u u K
  | _, _ => λ _ _ _, False
  end.

(** The runs end with results related by [Q]; [B] are the results of a first run that
    met a failure. *)
Fixpoint twins {A1 A2} (Q : A1 → A2 → Prop) (B : A1 → Prop) (K : seen)
    (p1 : io E1 A1) (p2 : io E2 A2) {struct p1} : Prop :=
  match p1, p2 with
  | Ret x1, Ret x2 => Q x1 x2
  | Panic, Panic => True
  | Call c1 k1, Call c2 k2 =>
      twin_call B K c1 c2 k1 k2 (λ r1 r2 K, twins Q B K (k1 r1) (k2 r2))
  | _, _ => False
  end.

Lemma twins_forget {A1 A2} (Q : A1 → A2 → Prop) B K p1 p2 :
  twins Q B None p1 p2 → twins Q B K p1 p2.
Proof.
  revert p2. induction p1 as [x1| |c1 k1 IH]; intros [x2| |c2 k2]; try done.
  destruct c1, c2; cbn [twins twin_call]; try done; [naive_solver|auto..].
Qed.

Lemma twins_bind {A1 A2 A1' A2'} (Q' : A1' → A2' → Prop) B' (Q : A1 → A2 → Prop) B K p1 p2 f1 f2 :
  twins Q' B' K p1 p2 → (∀ x1 x2, Q' x1 x2 → twins Q B None (f1 x1) (f2 x2)) →
  (∀ x1, B' x1 → gives_up B (f1 x1)) →
  twins Q B K (prog_bind f1 p1) (prog_bind f2 p2).
Proof.
  intros Hp HQ HB. assert (∀ p, gives_up B' p → gives_up B (prog_bind f1 p)) as Hup.
  { intros p (x & -> & Hx). by apply HB. }
  revert K p2 Hp. induction p1 as [x1| |c1 k1 IH]; intros K [x2| |c2 k2] Hp; try done.
  { by apply twins_forget, HQ. }
  destruct c1, c2; cbn [prog_bind twins twin_call] in *; try done; naive_solver.
Qed.
End Twins.

(** ** A run, and the same run in memory *)

Section Agreement.
Context {E : Type} (env : Env).
Implicit Types (a : astore) (s : Memory.State) (w : aworld) (mw : world Memory.State).
#[local] Existing Instance Memory.checked_store.

(** The same bytes at every location, under versions of their own. *)
Definition objects_alike a s : Prop :=
  ∀ l, object_bytes <$> cur a !! l = object_bytes <$> Memory.objects s !! l.

Definition seen_alike (K : option (Location * Version * Version)) a s : Prop :=
  match K with
  | Some (l, v1, v2) =>
      object_version <$> cur a !! l = Some v1 ∧
      object_version <$> Memory.objects s !! l = Some v2
  | None => True
  end.

(** The UUIDs and clock readings a run drew are the first that [env] gives. *)
Definition draws_from (us : list Uuid) (cs : list N) : Prop :=
  (∀ n u, us !! n = Some u → env_uuid env n = u) ∧
  (∀ n t, cs !! n = Some t → env_millis env n = t).

Lemma exec_puts {A} n w (p : io E A) x w' :
  calls_within n p → exec (world_step false) w p x w' →
  puts (aw_store w') ≤ puts (aw_store w) + n.
Proof.
  revert n w. induction p as [y| |c k IH]; intros n w Hn; simpl; [intros [_ ->]; lia|done|].
  destruct n as [|n]; [by destruct Hn|]. intros (r & w1 & Hs & Hx%(IH r n)); [|apply Hn].
  assert (puts (aw_store w1) ≤ puts (aw_store w) + 1); [|lia].
  destruct (store_call c) eqn:Hc.
  - assert (∃ a', store_step false (aw_store w) c r a' ∧
      w1 = MkAWorld a' (aw_uuids w) (aw_clock w)) as (a' & Ha & ->) by (by destruct c).
    apply store_step_put in Ha as [->|(? & ? & ? & _ & ->)]; simpl; lia.
  - destruct c; try done; simpl in Hs; subst w1; simpl; lia.
Qed.

(** A version that is issued, when few enough were before. *)
Lemma version_issues s :
  (Memory.next_version s < u64_max)%N →
  Memory.version true s = Some (Memory.token (Memory.next_version s + 1),
    Memory.MkState (Memory.objects s) (Memory.next_version s + 1)).
Proof. intros Hs. unfold Memory.version. by destruct (N.leb_spec (Memory.next_version s + 1) u64_max); [|lia]. Qed.

Lemma objects_alike_put a s l b v v' n :
  objects_alike a s →
  objects_alike (put l b v a) (Memory.MkState (<[l := MkObject b v']> (Memory.objects s)) n).
Proof.
  intros Ha l'. simpl. destruct (decide (l = l')) as [<-|Hne].
  - by rewrite !lookup_insert_eq.
  - rewrite !lookup_insert_ne by done. apply Ha.
Qed.
Record mirrors w mw : Prop := MkMirrors {
  mi_objects : objects_alike (aw_store w) (w_store mw);
  mi_uuids : w_uuids mw = length (aw_uuids w);
  mi_clock : w_clock mw = length (aw_clock w);
}.

Section Agrees.
Context {A1 A2 : Type} (Q : A1 → A2 → Prop) (B : A1 → Prop).

(** The run of [p1] that ended with [x1] in [w'] failed, or [p2] in memory from [mw] ends
    with the like. *)
Definition agrees (p2 : io Empty_set A2) mw (x1 : A1) w' : Prop :=
  B x1 ∨ ∃ x2 mw', run (handle env) p2 mw = Some (x2, mw') ∧ Q x1 x2 ∧ mirrors w' mw'.

Lemma gives_up_agrees (p1 : io E A1) p2 mw w x1 w' :
  gives_up B p1 → exec (world_step false) w p1 x1 w' → agrees p2 mw x1 w'.
Proof. intros (x & -> & Hx) [-> _]. by left. Qed.

Lemma agrees_step c (r : reply Empty_set c) k2 mw mw1 x1 w' :
  handle env c mw = Some (r, mw1) → agrees (k2 r) mw1 x1 w' → agrees (Call c k2) mw x1 w'.
Proof. unfold agrees. cbn [run]. by intros ->. Qed.

Lemma twins_agree (p1 : io E A1) (p2 : io Empty_set A2) K w mw x1 w' :
  twins Q B K p1 p2 → mirrors w mw → seen_alike K (aw_store w) (w_store mw) →
  exec (world_step false) w p1 x1 w' →
  draws_from (aw_uuids w') (aw_clock w') →
  (Memory.next_version (w_store mw) + N.of_nat (puts (aw_store w')) ≤
     u64_max + N.of_nat (puts (aw_store w)))%N →
  agrees p2 mw x1 w'.
Proof.
  intros Ht Hm HK Hx [Hus Hcs] Hn. revert K p2 w mw Ht Hm HK Hx Hn.
  induction p1 as [y| |c1 k1 IH]; intros K [x2| |c2 k2] w mw Ht Hm HK Hx Hn; try done.
  { destruct Hx as [-> ->]. right. by exists x2, mw. }
  destruct w as [a us cs], mw as [s nc nu]. destruct Hx as (r & w1 & Hs & Hx).
  pose proof (exec_extends _ _ _ _ _ Hx) as (Hpu & Hpc & Hpp).
  destruct Hm as [Ho Hmu Hmc]. cbn in Ho, Hmu, Hmc, HK, Hn.
  destruct c1 as [l|l b|l v b| |], c2 as [l2|l2 b2|l2 v2 b2| |]; try done;
    cbn [world_step aw_store aw_uuids aw_clock] in Hs.
  - destruct Hs as (a' & [-> Hr] & ->). destruct Ht as (<- & Hnone & Herr & Hsome).
    destruct Hr as [->|[e ->]]; [|eapply gives_up_agrees; [apply Herr|exact Hx]].
    specialize (Ho l) as Hl. eapply agrees_step; [done|]. cbn in Hl |- *.
    destruct (cur a !! l) as [[b v1]|] eqn:Hc1,
      (Memory.objects s !! l) as [[b' v2]|] eqn:Hc2; try done.
    + injection Hl as <-. refine (IH _ _ _ _ _ (Hsome _ _ _) _ _ Hx _); [by split| |exact Hn].
      simpl. by rewrite Hc1, Hc2.
    + refine (IH _ _ _ _ _ Hnone _ I Hx _); [by split|exact Hn].
  - destruct Hs as (a' & Hs & ->). destruct Ht as (<- & <- & Herr & Hok).
    specialize (Ho l) as Hl. destruct r as [v|[v|e]].
    + destruct Hs as (Hc1 & _ & ->). rewrite Hc1 in Hl. cbn in Hl, Hpp, Hn.
      destruct (Memory.objects s !! l) as [|] eqn:Hc2; [done|].
      eapply agrees_step; [cbn; unfold Memory.create; rewrite Hc2, version_issues by lia; reflexivity|].
      refine (IH _ _ _ _ _ (proj1 (Hok _ _)) _ I Hx _); [|cbn; lia].
      split; [by apply objects_alike_put|done..].
    + destruct Hs as (-> & Hs). destruct (Hs eq_refl) as (o & Hc1 & ->). rewrite Hc1 in Hl.
      destruct (Memory.objects s !! l) as [o2|] eqn:Hc2; [|done].
      eapply agrees_step; [cbn; unfold Memory.create; rewrite Hc2; reflexivity|].
      refine (IH _ _ _ _ _ (proj2 (Hok _ _)) _ I Hx _); [by split|exact Hn].
    + eapply gives_up_agrees; [apply Herr|exact Hx].
  - destruct Hs as (a' & Hs & ->). destruct Ht as (<- & <- & -> & Herr & Hok).
    destruct HK as [HK1 HK2]. destruct r as [v1|[v1|e]].
    + destruct Hs as (_ & _ & ->). cbn in Hpp, Hn.
      destruct (Memory.objects s !! l) as [o2|] eqn:Hc2; [|done]. injection HK2 as HK2.
      eapply agrees_step;
        [cbn; unfold Memory.replace; rewrite Hc2, decide_True, version_issues by (done || lia);
         reflexivity|].
      refine (IH _ _ _ _ _ (Hok _ _) _ I Hx _); [|cbn; lia].
      split; [by apply objects_alike_put|done..].
    + destruct Hs as (_ & Hs). destruct (Hs eq_refl) as [-> Hne]. by rewrite HK1 in Hne.
    + eapply gives_up_agrees; [apply Herr|exact Hx].
  - simpl in Hs. subst w1. eapply agrees_step; [done|].
    cbn [w_store w_clock w_uuids]. cbn in Hpc.
    assert (env_millis env nc = r) as ->.
    { apply Hcs. rewrite Hmc. eapply prefix_lookup_Some; [|exact Hpc].
      by rewrite lookup_app_r, Nat.sub_diag. }
    refine (IH _ _ _ _ _ (Ht _) _ _ Hx _); [|exact HK|exact Hn].
    split; [done..|]. cbn. rewrite length_app. simpl. lia.
  - simpl in Hs. subst w1. eapply agrees_step; [done|].
    cbn [w_store w_clock w_uuids]. cbn in Hpu.
    assert (env_uuid env nu = r) as ->.
    { apply Hus. rewrite Hmu. eapply prefix_lookup_Some; [|exact Hpu].
      by rewrite lookup_app_r, Nat.sub_diag. }
    refine (IH _ _ _ _ _ (Ht _) _ _ Hx _); [|exact HK|exact Hn].
    split; [done| |done]. cbn. rewrite length_app. simpl. lia.
Qed.
End Agrees.
End Agreement.

(** ** Results, up to versions *)

Section Results.
Context {E1 E2 : Type}.

Definition alike {A1 A2 F1 F2} (same : A1 → A2 → Prop) (same_error : F1 → F2 → Prop)
    (r1 : result A1 F1) (r2 : result A2 F2) : Prop :=
  match r1, r2 with
  | Ok x1, Ok x2 => same x1 x2
  | Err e1, Err e2 => same_error e1 e2
  | _, _ => False
  end.

(** The first run failed with a [bad] error. *)
Definition fails {A F} (bad : F → Prop) (r : result A F) : Prop :=
  match r with Ok _ => False | Err e => bad e end.

(** A [?] between programs that are twins. *)
Lemma twins_try_bind {A1 A2 B1 B2 F1 F2} (same' : A1 → A2 → Prop) (same : B1 → B2 → Prop)
    (same_error : F1 → F2 → Prop) bad K (p1 : io E1 _) (p2 : io E2 _) f1 f2 :
  twins (alike same' same_error) (fails bad) K p1 p2 →
  (∀ x1 x2, same' x1 x2 → twins (alike same same_error) (fails bad) None (f1 x1) (f2 x2)) →
  twins (alike same same_error) (fails bad) K (try_bind f1 p1) (try_bind f2 p2).
Proof.
  intros Hp Hf. eapply twins_bind; [exact Hp| |].
  - intros [x1|e1] [x2|e2] Hx; try done. by apply Hf.
  - intros [x1|e1] Hx; [done|]. by exists (Err e1).
Qed.

(** An error of the core crate that is no failure of the backend; a process that is alone
    meets no conflict. *)
Definition same_error {J} (e1 : Error E1 J) (e2 : Error E2 J) : Prop :=
  match e1, e2 with
  | Configuration c1, Configuration c2 => c1 = c2
  | Document d1, Document d2 => d1 = d2
  | NotFound, NotFound => True
  | Incompatible c1, Incompatible c2 => c1 = c2
  | _, _ => False
  end.

Definition backend_error {E J} (e : Error E J) : Prop :=
  match e with Store _ => True | _ => False end.

Definition same_queue_error {J} (e1 : Queue.Error E1 J) (e2 : Queue.Error E2 J) : Prop :=
  match e1, e2 with
  | Queue.Configuration c1, Queue.Configuration c2 => c1 = c2
  | Queue.Document d1, Queue.Document d2 => d1 = d2
  | Queue.Corrupt t1, Queue.Corrupt t2 => t1 = t2
  | Queue.NotFound, Queue.NotFound => True
  | Queue.Incompatible t1, Queue.Incompatible t2 => t1 = t2
  | Queue.InvalidLeaseDuration, Queue.InvalidLeaseDuration => True
  | Queue.AttemptOverflow, Queue.AttemptOverflow => True
  | _, _ => False
  end.

Definition queue_backend_error {E J} (e : Queue.Error E J) : Prop :=
  match e with Queue.Store _ => True | _ => False end.

(** The version a write was assigned depends on the backend. *)
Definition same_map_output {V} (x1 x2 : map_output V) : Prop :=
  match x1, x2 with
  | OutVersion _, OutVersion _ => True
  | OutInsert (Map.Inserted _), OutInsert (Map.Inserted _) => True
  | _, _ => x1 = x2
  end.
End Results.

(** Proves that a program is a twin of itself: what the pure code tests is the same in both
    runs. *)
Ltac solve_twins :=
  follow_calls ltac:(idtac; match goal with
    |- gives_up _ _ => eexists; split; [reflexivity|exact I] end).

(** The same for a bound on the calls of one run. *)
Ltac solve_calls := follow_calls fail.

Section StructureTwins.
Context {S C E1 E2 J V : Type}.
Abbreviation core_twins same :=
  (twins (E1 := E1) (E2 := E2) (alike same (same_error (J := J))) (fails backend_error) None).
Abbreviation queue_twins same :=
  (twins (E1 := E1) (E2 := E2) (alike same (same_queue_error (J := J)))
     (fails queue_backend_error) None).

Section Maps.
Context `{!ToJson J (Map.MapDocument V), !ToJson J (Map.OwnedMapDocument V),
          !FromJson J (Map.OwnedMapDocument V)}.

Lemma map_run_twins (m : Map.Map S) (o : map_op V) :
  core_twins same_map_output (map_run m o) (map_run m o).
Proof.
  destruct o; cbn [map_run];
    unfold Map.get, Map.entries, Map.insert, Map.insert_if_absent, Map.remove,
      Map.read, Map.write, validate; solve_twins.
Qed.

Lemma map_run_calls (m : Map.Map S) (o : map_op V) :
  calls_within 4 (map_run (E := E1) (J := J) m o).
Proof.
  destruct o; cbn [map_run];
    unfold Map.get, Map.entries, Map.insert, Map.insert_if_absent, Map.remove,
      Map.read, Map.write, validate; solve_calls.
Qed.

Lemma map_opening_twins (b : Map.MapBuilder S) :
  core_twins eq (Map.open_or_create (V := V) b) (Map.open_or_create (V := V) b).
Proof.
  unfold Map.open_or_create, Lifecycle.open_or_create_structure, Lifecycle.open_structure,
    Lifecycle.create, Map.empty_bytes, Map.config_error, Map.read, validate; solve_twins.
Qed.

Lemma map_opening_calls (b : Map.MapBuilder S) :
  calls_within 3 (Map.open_or_create (E := E1) (J := J) (V := V) b).
Proof.
  unfold Map.open_or_create, Lifecycle.open_or_create_structure, Lifecycle.open_structure,
    Lifecycle.create, Map.empty_bytes, Map.config_error, Map.read, validate; solve_calls.
Qed.
End Maps.

Section Logs.
Context `{!ToJson J (Log.LogDocument V), !FromJson J (Log.LogDocument V)}.

Lemma log_run_twins (m : Log.Log S) (o : log_op V) :
  core_twins eq (log_run m o) (log_run m o).
Proof.
  destruct o; cbn [log_run];
    unfold Log.append, Log.get, Log.records, Log.records_after, Log.read, Log.write, validate;
    solve_twins.
Qed.

Lemma log_run_calls (m : Log.Log S) (o : log_op V) :
  calls_within 4 (log_run (E := E1) (J := J) m o).
Proof.
  destruct o; cbn [log_run];
    unfold Log.append, Log.get, Log.records, Log.records_after, Log.read, Log.write, validate;
    solve_calls.
Qed.

Lemma log_opening_twins (b : Log.LogBuilder S) :
  core_twins eq (Log.open_or_create (V := V) b) (Log.open_or_create (V := V) b).
Proof.
  unfold Log.open_or_create, Lifecycle.open_or_create_structure, Lifecycle.open_structure,
    Lifecycle.create, Log.empty_bytes, Log.config_error, Log.read, validate; solve_twins.
Qed.

Lemma log_opening_calls (b : Log.LogBuilder S) :
  calls_within 3 (Log.open_or_create (E := E1) (J := J) (V := V) b).
Proof.
  unfold Log.open_or_create, Lifecycle.open_or_create_structure, Lifecycle.open_structure,
    Lifecycle.create, Log.empty_bytes, Log.config_error, Log.read, validate; solve_calls.
Qed.
End Logs.

Section Queues.
Context `{!ToJson J (Queue.QueueDocument V), !FromJson J (Queue.QueueDocument V)}.

Lemma queue_run_twins (m : Queue.Queue S C) (o : queue_op V) :
  queue_twins eq (queue_run m o) (queue_run m o).
Proof.
  destruct o; cbn [queue_run];
    unfold Queue.publish, Queue.claim, Queue.ack, Queue.is_empty, Queue.len, Queue.read,
      Queue.write; rewrite ?lease_millis_spec; solve_twins.
Qed.

Lemma queue_run_calls (m : Queue.Queue S C) (o : queue_op V) :
  calls_within 4 (queue_run (E := E1) (J := J) m o).
Proof.
  destruct o; cbn [queue_run];
    unfold Queue.publish, Queue.claim, Queue.ack, Queue.is_empty, Queue.len, Queue.read,
      Queue.write; rewrite ?lease_millis_spec; solve_calls.
Qed.

Lemma queue_opening_twins (b : Queue.QueueBuilder S C) :
  queue_twins eq (Queue.open_or_create (V := V) b) (Queue.open_or_create (V := V) b).
Proof. unfold Queue.open_or_create, Queue.empty_bytes, Queue.read; solve_twins. Qed.

Lemma queue_opening_calls (b : Queue.QueueBuilder S C) :
  calls_within 3 (Queue.open_or_create (E := E1) (J := J) (V := V) b).
Proof. unfold Queue.open_or_create, Queue.empty_bytes, Queue.read; solve_calls. Qed.
End Queues.
End StructureTwins.

(** Sessions of twins are twins. *)
Section SessionTwins.
Context {E1 E2 F1 F2 H Op Out : Type} (same : Out → Out → Prop).
Context (same_err : F1 → F2 → Prop) (bad : F1 → Prop).
Context (opening1 : io E1 (result H F1)) (opening2 : io E2 (result H F2)).
Context (operate1 : H → Op → io E1 (result Out F1)) (operate2 : H → Op → io E2 (result Out F2)).
Context (Hopening : twins (alike eq same_err) (fails bad) None opening1 opening2).
Context (Hoperate : ∀ h o,
  twins (alike same same_err) (fails bad) None (operate1 h o) (operate2 h o)).

Lemma run_all_twins h ops :
  twins (alike (Forall2 same) same_err) (fails bad) None
    (run_all (operate1 h) ops) (run_all (operate2 h) ops).
Proof.
  induction ops as [|o ops IH]; simpl; [constructor|].
  eapply twins_try_bind; [apply Hoperate|]. intros x1 x2 Hx.
  eapply twins_try_bind; [exact IH|]. intros xs1 xs2 Hxs. by constructor.
Qed.

Lemma session_twins ops :
  twins (alike (Forall2 same) same_err) (fails bad) None
    (session opening1 operate1 ops) (session opening2 operate2 ops).
Proof.
  eapply twins_try_bind; [exact Hopening|]. intros h ? <-. apply run_all_twins.
Qed.

Lemma session_calls ops :
  calls_within 3 opening1 → (∀ h o, calls_within 4 (operate1 h o)) →
  calls_within (3 + 4 * length ops) (session opening1 operate1 ops).
Proof.
  intros Hop Hall. apply calls_within_try_bind; [done|]. intros h.
  induction ops as [|o ops IH]; simpl; [exact I|].
  apply (calls_within_mono (4 + (4 * length ops + 0))); [lia|].
  apply calls_within_try_bind; [apply Hall|]. intros x.
  by apply calls_within_try_bind.
Qed.
End SessionTwins.

(** ** A process that is alone *)

Section Alone.
Context {E A : Type} (a0 : astore).

(** The one invocation of a machine, from where it is: whatever is left of it does from
    the present store, the operation did from the first. *)
Lemma alone_executes (c : config E A) t :
  creachable false a0 c → (∀ t', is_Some (c_threads c !! t') → t' = t) →
  match c_threads c !! t with
  | Some th => ∀ x w',
      exec (world_step false) (MkAWorld (c_store c) (t_uuids th) (t_clock th)) (t_cur th) x w' →
      exec (world_step false) (MkAWorld a0 [] []) (t_op th) x w'
  | None => c_store c = a0
  end.
Proof.
  intros Hreach. induction Hreach as [|c c' Hreach IH Hstep]; intros Hone; simpl.
  { by rewrite lookup_empty. }
  destruct Hstep as [a ths us log t1 p Ht1|a ths us log t1 th cl k r a' Ht1 Hcur Hs]; simpl in *.
  - assert (t1 = t) as -> by (apply Hone; by rewrite lookup_insert_eq).
    rewrite lookup_insert_eq. rewrite Ht1 in IH. simpl. rewrite IH; [done|].
    intros t' Ht'. apply Hone, lookup_insert_is_Some'. by right.
  - assert (t1 = t) as -> by (apply Hone; by rewrite lookup_insert_eq).
    rewrite lookup_insert_eq. rewrite Ht1 in IH. simpl. intros x w' Hx. apply IH.
    + intros t' Ht'. apply Hone, lookup_insert_is_Some'. by right.
    + rewrite Hcur. exists r. eexists. split; [by apply world_step_store|exact Hx].
Qed.
End Alone.

Section AloneOnBackend.
Context {E A1 A2 M : Type} `{!Backend E M} {a0 : astore} {m0 : M} {holds : M → astore → Prop}.
Context `{!BackendLinearizes E M false false a0 m0 holds}.
Context (env : Env) (s0 : Memory.State) (s : system E A1 M).
#[local] Existing Instance Memory.checked_store.

(** One client has run on the backend, drawing from [env]; at first the backend held the
    objects of the in-memory state [s0], which has versions left for all its calls. *)
Record alone (calls : nat) (t : nat) (cl : client E A1) : Prop := MkAlone {
  al_objects : objects_alike a0 s0;
  al_reachable : rtc sys_step (sys_start m0) s;
  al_client : sy_clients s = {[t := cl]};
  al_draws : draws_from env (cl_uuids cl) (cl_clock cl);
  al_room : (Memory.next_version s0 + N.of_nat calls ≤ u64_max)%N;
}.

Lemma alone_agrees n t cl x1 (Q : A1 → A2 → Prop) B (p2 : io Empty_set A2) :
  alone n t cl → calls_within n (cl_op cl) → cl_cur cl = Ret x1 → twins Q B None (cl_op cl) p2 →
  B x1 ∨ ∃ a x2 mw, holds (sy_backend s) a ∧
    run (handle env) p2 (MkWorld s0 0 0) = Some (x2, mw) ∧ Q x1 x2 ∧
    objects_alike a (w_store mw).
Proof.
  intros [Ho Hsteps Hone Hdraws Hroom] Hn Hx Ht.
  assert (sy_clients s !! t = Some cl) as Hcl by (by rewrite Hone, lookup_singleton_eq).
  destruct (system_replayed s Hsteps) as (c & Hreach & Hholds & Hex); [done|].
  destruct (ex_returned s c Hex t cl x1 Hcl Hx) as (th & Hth & Hop & Hret & Hus & Hcs).
  pose proof (alone_executes a0 c t Hreach) as Hexec. rewrite Hth, Hop, Hret in Hexec.
  specialize (Hexec) with (x := x1) (w' := MkAWorld (c_store c) (t_uuids th) (t_clock th)).
  assert (exec (world_step false) (MkAWorld a0 [] []) (cl_op cl) x1
    (MkAWorld (c_store c) (t_uuids th) (t_clock th))) as Hrun1.
  { apply Hexec; [|done]. intros t' [th' Hth'].
    destruct (ex_clients _ _ Hex t' th' Hth') as (cl' & Hcl' & _).
    rewrite Hone in Hcl'. by apply lookup_singleton_Some in Hcl' as [<- _]. }
  destruct (twins_agree env Q B (cl_op cl) p2 None (MkAWorld a0 [] []) (MkWorld s0 0 0) x1
    (MkAWorld (c_store c) (t_uuids th) (t_clock th))) as [HB|(x2 & mw & Hrun & HQ & [Hm _ _])].
  - exact Ht.
  - by split.
  - exact I.
  - exact Hrun1.
  - by rewrite Hus, Hcs.
  - apply (exec_puts n) in Hrun1; [|done]. simpl in *. lia.
  - by left.
  - right. by exists (c_store c), x2, mw.
Qed.
End AloneOnBackend.

(** ** The structures *)

Section Portable.
Context {S C E J V M : Type} `{!Backend E M} {a0 : astore} {m0 : M} {holds : M → astore → Prop}.
Context `{!BackendLinearizes E M false false a0 m0 holds}.
Context (env : Env) (s0 : Memory.State).
#[local] Existing Instance Memory.checked_store.

(** The run of [p] that ended with [x1] on the backend, now in [m], failed with a [bad]
    error; or the in-memory adapter, from [s0], returns the like and holds objects with the
    same bytes. *)
Definition as_in_memory {Out F1 F2} (same : Out → Out → Prop) (same_err : F1 → F2 → Prop)
    (bad : F1 → Prop) (m : M) (p : io Empty_set (result (list Out) F2))
    (x1 : result (list Out) F1) : Prop :=
  fails bad x1 ∨ ∃ a x2 mw, holds m a ∧
    run (handle env) p (MkWorld s0 0 0) = Some (x2, mw) ∧ alike (Forall2 same) same_err x1 x2 ∧
    objects_alike a (w_store mw).

(** C18: backends are interchangeable, for queues.  A worker that opens or creates a queue
    and operates on it, alone on a backend that linearizes without spurious conflicts and
    without delayed writes (the in-memory and the filesystem adapter, not S3) and holds
    what the in-memory adapter holds, either reports that the backend failed, or
    returns exactly the results that it returns on the in-memory adapter when it draws the
    same UUIDs and clock readings, errors included; and both then hold objects with the
    same bytes. *)
Theorem queue_session_portable
    `{!ToJson J (Queue.QueueDocument V), !FromJson J (Queue.QueueDocument V)}
    (builder : Queue.QueueBuilder S C) (ops : list (queue_op V))
    (s : system E (result (list (queue_output V)) (Queue.Error E J)) M) t cl x :
  alone (a0 := a0) (m0 := m0) env s0 s (3 + 4 * length ops) t cl →
  cl_op cl = session (Queue.open_or_create (V := V) builder) queue_run ops →
  cl_cur cl = Ret x →
  as_in_memory eq same_queue_error queue_backend_error (sy_backend s)
    (session (Queue.open_or_create (J := J) (V := V) builder) queue_run ops) x.
Proof.
  intros Halone Hop Hx. unfold as_in_memory.
  eapply (alone_agrees env s0 s); [exact Halone| |exact Hx|]; rewrite Hop.
  - apply session_calls; [apply queue_opening_calls|apply queue_run_calls].
  - apply session_twins; [apply queue_opening_twins|apply queue_run_twins].
Qed.

(** C19: backends are interchangeable, for maps.  A process that opens or creates a map and
    operates on it, alone on a backend that linearizes without spurious conflicts and
    without delayed writes (the in-memory and the filesystem adapter, not S3) and holds
    what the in-memory adapter holds, either reports that the backend failed, or returns
    the results that it returns on the in-memory adapter, errors included, up to the
    versions its insertions were assigned; and both then hold objects with the same
    bytes. *)
Theorem map_session_portable
    `{!ToJson J (Map.MapDocument V), !ToJson J (Map.OwnedMapDocument V),
      !FromJson J (Map.OwnedMapDocument V)}
    (builder : Map.MapBuilder S) (ops : list (map_op V))
    (s : system E (result (list (map_output V)) (Error E J)) M) t cl x :
  alone (a0 := a0) (m0 := m0) env s0 s (3 + 4 * length ops) t cl →
  cl_op cl = session (Map.open_or_create (V := V) builder) map_run ops →
  cl_cur cl = Ret x →
  as_in_memory same_map_output same_error backend_error (sy_backend s)
    (session (Map.open_or_create (J := J) (V := V) builder) map_run ops) x.
Proof.
  intros Halone Hop Hx. unfold as_in_memory.
  eapply (alone_agrees env s0 s); [exact Halone| |exact Hx|]; rewrite Hop.
  - apply session_calls; [apply map_opening_calls|apply map_run_calls].
  - apply session_twins; [apply map_opening_twins|apply map_run_twins].
Qed.

(** The same of logs. *)
Lemma log_session_portable
    `{!ToJson J (Log.LogDocument V), !FromJson J (Log.LogDocument V)}
    (builder : Log.LogBuilder S) (ops : list (log_op V))
    (s : system E (result (list (log_output V)) (Error E J)) M) t cl x :
  alone (a0 := a0) (m0 := m0) env s0 s (3 + 4 * length ops) t cl →
  cl_op cl = session (Log.open_or_create (V := V) builder) log_run ops →
  cl_cur cl = Ret x →
  as_in_memory eq same_error backend_error (sy_backend s)
    (session (Log.open_or_create (J := J) (V := V) builder) log_run ops) x.
Proof.
  intros Halone Hop Hx. unfold as_in_memory.
  eapply (alone_agrees env s0 s); [exact Halone| |exact Hx|]; rewrite Hop.
  - apply session_calls; [apply log_opening_calls|apply log_run_calls].
  - apply session_twins; [apply log_opening_twins|apply log_run_twins].
Qed.
End Portable.
