(* ===== verification/Retry.v ===== *)
(** * Retrying after a conflict

    The bounded retry loop that the documentation of the core crate gives for a map
    ([insert_with_limit], objsds/src/lib.rs): it reruns the whole insertion after a
    conflict.  A conflict is always somebody else's progress, so as many attempts as there
    are clients are enough. *)

From S2P Require Import Prelude.
From S2P Require Import Program.
From S2P Require Import ObjectStore.
From S2P Require Import Json.
From S2P Require Import CoreTypes.
From S2P Require Import Lifecycle.
From S2P Require Import StructMap.
From S2P Require Import Concurrent.
From S2P Require Import Composition.
From S2P Require Import SystemLinearizable.
From S2P Require Import RelyGuarantee.
From S2P Require Import Sharing.
From S2P Require Import SharedStructures.
Import Core.

Section InsertWithLimit.
Context {S E J V : Type}.
Context `{!ToJson J (Map.MapDocument V), !ToJson J (Map.OwnedMapDocument V),
          !FromJson J (Map.OwnedMapDocument V)}.
Implicit Types (m : Map.Map S) (key : string) (value : V).

(** The iterations left, and the last conflict. *)
Fixpoint attempts m key value (n : nat) (last_conflict : option ConflictError) :
    io E (result Version (Error E J)) :=
  match n with
  | O => let! e := or_panic last_conflict in Ret (Err (Conflict e))
  | Datatypes.S n =>
      let! r := Map.insert m key value in
      match r with
      | Ok version => Ret (Ok version)
      | Err (Conflict conflict) => attempts m key value n (Some conflict)
      | Err error => Ret (Err error)
      end
  end.

Definition insert_with_limit m key value (max_attempts : nat) :
    io E (result Version (Error E J)) :=
  if bool_decide (0 < max_attempts) then attempts m key value max_attempts None else Panic.

(** Each attempt makes at most two calls. *)
Lemma insert_calls m key value : calls_within 2 (Map.insert (E := E) (J := J) m key value).
Proof.
  destruct (map_read_reads (E := E) (J := J) (V := V) m) as (k & Hread & Hk).
  unfold Map.insert. rewrite Hread. cbn [try_bind prog_bind calls_within].
  intros r. rewrite Hk. cbn [prog_bind]. destruct r as [o|e]; [|exact I].
  destruct (map_observed m o) as [[v d]|e]; [|exact I]. unfold Map.write.
  destruct (to_vec _) as [b|e]; [|exact I]. by intros [v1|[v1|e]].
Qed.

Lemma attempts_calls m key value n last :
  calls_within (2 * n) (attempts m key value n last).
Proof.
  revert last. induction n as [|n IH]; intros last; cbn [attempts].
  { by destruct last. }
  apply (calls_within_mono (2 + 2 * n)); [lia|].
  apply calls_within_bind; [apply insert_calls|].
  by intros [v|[]].
Qed.

Context `{!JsonRoundTrip (J := J) (D := Map.OwnedMapDocument V) id}.
Context (m : Map.Map S).
Implicit Types (h : hist_state).

(** ** What the clients keep *)

(** The object is a valid map, and no client has changed it twice. *)
Definition retry_inv h : Prop :=
  (∃ es : gmap string V, map_holds (J := J) m (h_store h) es) ∧ NoDup (h_log h).*1.

(** The other clients add changes of their own. *)
Definition retry_rely (t : nat) h h' : Prop :=
  ∃ ext, h_log h' = h_log h ++ ext ∧ (t ∉ ext.*1) ∧ (ext = [] → h_store h' = h_store h).

Abbreviation guarded := (guarded (E := E) false retry_inv retry_rely).

(** Client [t] has changed nothing, and the others made at least [i] changes. *)
Definition waited (t i : nat) h : Prop := (t ∉ (h_log h).*1) ∧ i ≤ length (h_log h).

(** It has read [o], which is current unless there has been another change. *)
Definition has_read (t i : nat) (o : Object) h : Prop :=
  waited t i h ∧ (i < length (h_log h) ∨ cur (h_store h) !! Map.location m = Some o).

Lemma stable_waited t i : stable retry_inv retry_rely t (waited t i).
Proof.
  intros h h' _ _ (ext & Hlog & Ht & _) [Hn Hi]. unfold waited.
  rewrite Hlog, fmap_app, length_app, elem_of_app. split; [by intros [?|?]|lia].
Qed.

Lemma stable_has_read t i o : stable retry_inv retry_rely t (has_read t i o).
Proof.
  intros h h' Hh Hh' Hr [Hw Ho]. split; [by apply (stable_waited t i h h')|].
  destruct Hr as (ext & Hlog & _ & Hsame). rewrite Hlog, length_app.
  destruct ext as [|e ext]; [|simpl; left; destruct Hw; lia].
  rewrite Hsame, Nat.add_0_r by done. exact Ho.
Qed.

Lemma log_change_cases t (a a' : astore) log :
  (a' = a ∧ log_change t a a' log = log) ∨ log_change t a a' log = log ++ [(t, a')].
Proof. unfold log_change. case_decide; auto. Qed.

Lemma retry_rely_step t t' (c : call) (r : reply E c) a h :
  t' ≠ t → retry_rely t' h (hist_step t c r a h).
Proof.
  intros Hne. unfold hist_step, retry_rely. simpl.
  destruct (log_change_cases t (h_store h) a (h_log h)) as [[-> ->]| ->].
  - exists []. rewrite app_nil_r. split; [done|]. split; [apply not_elem_of_nil|done].
  - exists [(t, a)]. split; [done|]. split; [|done]. simpl. set_solver.
Qed.

(** A call that changes nothing. *)
Lemma unchanged_step t (c : call) (r : reply E c) h :
  h_store (hist_step t c r (h_store h) h) = h_store h ∧
  h_log (hist_step t c r (h_store h) h) = h_log h.
Proof. unfold hist_step, log_change. simpl. by rewrite decide_True. Qed.

Lemma unchanged_guarded t K (c : call) (r : reply E c) K' :
  (∀ h a, retry_inv h → K h → store_step false (h_store h) c r a →
     a = h_store h ∧ ∀ h', h_store h' = h_store h → h_log h' = h_log h → K' h') →
  call_guarded false retry_inv retry_rely t K c r K'.
Proof.
  intros HK h a Hi Hh _ Hs. destruct (HK h a Hi Hh Hs) as [-> HK'].
  destruct (unchanged_step t c r h) as [Hst Hlog]. split; [|split].
  - unfold retry_inv. by rewrite Hst, Hlog.
  - intros t' Hne. by apply retry_rely_step.
  - by apply HK'.
Qed.

(** How the loop may end: with a conflict only after as many changes by others. *)
Definition retried (t max : nat) (x : option (result Version (Error E J))) h : Prop :=
  match x with
  | Some (Ok _) => True
  | Some (Err (Store _)) | Some (Err (Document (Serialize _))) => True
  | Some (Err (Conflict _)) => waited t max h
  | _ => False
  end.

Lemma retried_ends t max last i :
  is_Some last → max ≤ i →
  guarded t (retried t max) (waited t i) (let! e := or_panic last in Ret (Err (Conflict e))).
Proof. intros [e ->] Hle h _ [? ?]. split; [done|]. by etrans. Qed.

(** A write of the map by a client that has made no change. *)
Lemma write_guarded t (K K' : hist_state → Prop) v b es (r : reply E (Replace (Map.location m) v b)) :
  map_decodes (J := J) m b (es : gmap string V) → (∀ h, K h → t ∉ (h_log h).*1) →
  (∀ h a, K h → store_step false (h_store h) (Replace (Map.location m) v b) r a →
     K' (hist_step t (Replace (Map.location m) v b) r a h)) →
  call_guarded false retry_inv retry_rely t K (Replace (Map.location m) v b) r K'.
Proof.
  intros Hes Hnew HK h a [(es0 & o & Ho & Hes0) Hnd] Hh _ Hs. split; [split|split].
  - destruct (step_bytes _ _ _ _ Hs) as [->|(l' & b' & v' & -> & <- & <-)].
    + by exists es0, o.
    + exists es. eexists. simpl. by rewrite lookup_insert_eq.
  - simpl. destruct (log_change_cases t (h_store h) a (h_log h)) as [[_ ->]| ->]; [done|].
    rewrite fmap_app. apply NoDup_app. split; [done|]. split; [|apply NoDup_singleton].
    intros t' Ht' ->%list_elem_of_singleton. by apply (Hnew h).
  - intros t' Hne. by apply retry_rely_step.
  - by apply HK.
Qed.

(** One insertion: it ends, or other clients have made one more change. *)
Lemma insert_guarded t i key (value : V) (k : _ → io E (result Version (Error E J))) max :
  (∀ c, guarded t (retried t max) (waited t (i + 1)) (k (Err (Conflict c)))) →
  (∀ v, k (Ok v) = Ret (Ok v)) → (∀ e, k (Err (Store e)) = Ret (Err (Store e))) →
  (∀ j, k (Err (Document (Serialize j))) = Ret (Err (Document (Serialize j)))) →
  guarded t (retried t max) (waited t i) (prog_bind k (Map.insert m key value)).
Proof.
  intros Hagain Hok Hstore Hser.
  destruct (map_read_reads (E := E) (J := J) (V := V) m) as (kr & Hread & Hkr).
  unfold Map.insert. rewrite Hread. cbn [try_bind prog_bind guarded].
  intros [o|e]; rewrite Hkr; cbn [prog_bind].
  2: { exists (λ _, True). split; [done|]. split; [|rewrite Hstore; by intros h _ _].
    apply unchanged_guarded. intros h a _ _ [-> _]. done. }
  (* The object read is the map's. *)
  exists (λ h, ∃ o' es, o = Some o' ∧ map_decodes (J := J) m (object_bytes o') es ∧
    has_read t i o' h).
  split; [|split].
  { intros h h' Hh Hh' Hr (o' & es & -> & Hes & Hrd). exists o', es.
    split; [done|]. split; [done|]. by apply (stable_has_read t i o' h h'). }
  { apply unchanged_guarded. intros h a [(es & o' & Ho & Hes) _] Hw [-> [[= ->]|[e ?]]]; [|done].
    split; [done|]. intros h' Hst Hlog. exists o', es. split; [done|]. split; [done|].
    unfold has_read, waited. rewrite Hst, Hlog. auto. }
  apply guarded_cases. intros h _ (o' & es & -> & Hes & Hrd).
  exists (has_read t i o'). split; [done|].
  destruct (map_observed_valid (E := E) m [] o' (ex_intro _ es Hes)) as [[v d] Hobs]. rewrite Hobs.
  pose proof (map_observed_metadata m o' v d Hobs (<[key := value]> (Map.entries_ d))) as Hwritten.
  assert (v = object_version o') as ->.
  { unfold map_observed in Hobs. simpl in Hobs. destruct (from_slice _); simpl in Hobs; [|done].
    destruct (validate _ _ _ _ _); simpl in Hobs; [|done]. by simplify_eq. }
  unfold Map.write. destruct (to_vec _) as [b|j]; cbn [map_err try_bind prog_bind];
    [|rewrite Hser; by intros h1 _ _].
  specialize (Hwritten b eq_refl).
  cbn [Lifecycle.replace prog_map_err ObjectStore.replace prog_bind guarded].
  assert (∀ h1, has_read t i o' h1 → t ∉ (h_log h1).*1) as Hnew by (by intros h1 [[? _] _]).
  intros [v|[observed|e]]; cbn [map_err prog_bind].
  - exists (λ _, True). split; [done|]. split; [by eapply write_guarded|]. rewrite Hok. by intros h1 _ _.
  - exists (waited t (i + 1)). split; [apply stable_waited|]. split; [|apply Hagain].
    eapply write_guarded; [done|done|]. intros h1 a [[Hn Hi] Hor] [-> Hc]. destruct (Hc eq_refl) as [Hc1 Hc2].
    unfold waited. rewrite (proj2 (unchanged_step _ _ _ _)). split; [done|].
    destruct Hor as [Hlt|Ho]; [lia|]. rewrite Ho in Hc1. simpl in Hc1. congruence.
  - exists (λ _, True). split; [done|]. split; [by eapply write_guarded|]. rewrite Hstore. by intros h1 _ _.
Qed.

Lemma attempts_guarded t key (value : V) n i last max :
  max ≤ n + i → (n = 0 → is_Some last) →
  guarded t (retried t max) (waited t i) (attempts m key value n last).
Proof.
  revert i last. induction n as [|n IH]; intros i last Hmax Hlast; cbn [attempts].
  - apply retried_ends; [by apply Hlast|lia].
  - apply insert_guarded; [|done..]. intros c. apply IH; [lia|by eexists].
Qed.

Lemma insert_with_limit_guarded t key (value : V) max :
  0 < max →
  guarded t (retried t max) (waited t 0) (insert_with_limit m key value max).
Proof.
  intros Hmax. unfold insert_with_limit. rewrite bool_decide_eq_true_2 by done.
  apply attempts_guarded; lia.
Qed.
End InsertWithLimit.

(** ** On a backend *)

Section RetrySystem.
Context {S E J V M : Type}.
Context `{!ToJson J (Map.MapDocument V), !ToJson J (Map.OwnedMapDocument V),
          !FromJson J (Map.OwnedMapDocument V)}.
Context `{!JsonRoundTrip (J := J) (D := Map.OwnedMapDocument V) id}.
Context `{!Backend E M} {a0 : astore} {m0 : M} {holds : M → astore → Prop}.
Context `{!BackendLinearizes E M false false a0 m0 holds}.
Context (m : Map.Map S) (es0 : gmap string V) (insertion : nat → string * V) (max_attempts : nat).
Context (s : system E (result Version (Error E J)) M).

(** Clients insert into the map, each retrying at most [max_attempts] times. *)
Record retry_system : Prop := MkRetrySystem {
  rs_holds : map_holds (J := J) m a0 es0;
  rs_reachable : rtc sys_step (sys_start m0) s;
  rs_clients t cl : sy_clients s !! t = Some cl →
    cl_op cl = insert_with_limit m (insertion t).1 (insertion t).2 max_attempts;
  rs_uuids : NoDup (sy_uuids s);
}.

(** [n] distinct changes, none by client [t]. *)
Lemma changes_bound (cls : gmap nat (client E (result Version (Error E J)))) (ts : list nat) t cl :
  NoDup ts → t ∉ ts → (∀ t', t' ∈ ts → is_Some (cls !! t')) → cls !! t = Some cl →
  length ts < size cls.
Proof.
  intros Hnd Hn Hin Ht. rewrite <- size_dom.
  apply Nat.lt_le_trans with (size (list_to_set (C := gset nat) (t :: ts))).
  - rewrite size_list_to_set by by constructor. simpl. lia.
  - apply subseteq_size. intros t'. rewrite elem_of_list_to_set, elem_of_dom.
    intros [->|Ht']%elem_of_cons; [by eexists|by apply Hin].
Qed.

(** C17: retrying is lock-free.  On a backend that linearizes without spurious conflicts and
    without delayed writes (the in-memory and the filesystem adapter, not S3), if no
    more clients insert into the map than each makes attempts, no insertion ends with a
    conflict: every client that finished inserted its value, or reports a failure of the
    backend or of the encoding; and each makes at most two calls per attempt. *)
Theorem insert_with_limit_succeeds :
  retry_system → size (sy_clients s) ≤ max_attempts →
  ∀ t cl, sy_clients s !! t = Some cl →
    calls_within (2 * max_attempts) (cl_op cl) ∧
    match cl_cur cl with
    | Ret (Ok _) | Ret (Err (Store _)) | Ret (Err (Document (Serialize _))) => True
    | Call _ _ => True
    | Ret (Err _) | Panic => False
    end.
Proof.
  intros [Hmap Hsteps Hcl Hus] Hmax t cl Ht. split.
  { rewrite (Hcl t cl Ht). unfold insert_with_limit. case_bool_decide; [|done].
    apply attempts_calls. }
  assert (0 < max_attempts) as Hpos.
  { assert (size (sy_clients s) ≠ 0); [|lia]. rewrite map_size_non_empty_iff.
    intros He. by rewrite He, lookup_empty in Ht. }
  destruct (system_replayed s Hsteps) as (c & Hreach & _ & Hex); [done|].
  destruct (guarded_sound false (retry_inv (J := J) (V := V) m) retry_rely
    (λ t _, waited t 0) (λ t _, retried t max_attempts)
    ltac:(intros; by split; [|lia]) ltac:(intros; apply stable_waited)
    a0 c (conj (ex_intro _ es0 Hmap) (NoDup_nil_2)) Hreach (ex_uuids _ _ Hex Hus)) as [[_ Hnd] Hths].
  { intros t1 th Hth. destruct (ex_clients _ _ Hex t1 th Hth) as (cl1 & H1 & -> & _).
    rewrite (Hcl t1 cl1 H1). by apply insert_with_limit_guarded. }
  destruct (stopped_dec (cl_cur cl)) as [Hst|Hst].
  2: { destruct (cl_cur cl) as [x| |]; [|exfalso; by apply Hst|done]. exfalso. apply Hst. by intros. }
  destruct (ex_stopped _ _ Hex t cl Ht Hst) as (th & Hth & _ & Hcur & _).
  specialize (Hths t th Hth). rewrite Hcur in Hths.
  destruct (cl_cur cl) as [[v|[]]| |]; try done.
  destruct Hths as [Hn Hlen]. unfold hist_of in *. simpl in *.
  assert (length (c_log c).*1 < size (sy_clients s)) as Hlt; [|rewrite length_fmap in Hlt; lia].
  eapply changes_bound; [exact Hnd|exact Hn| |exact Ht].
  intros t' [th' Hth']%(changes_invoked false a0 c Hreach).
  destruct (ex_clients _ _ Hex t' th' Hth') as (cl' & ? & _). by eexists.
Qed.
End RetrySystem.
