(* ===== verification/QueueSystem.v ===== *)
(** * The work queue on a backend

    The promises of [QueueWorkers], for workers that run on any backend that
    linearizes, and stated of what the workers themselves saw. *)

From S2P Require Import Prelude.
From S2P Require Import Program.
From S2P Require Import ObjectStore.
From S2P Require Import Json.
From S2P Require Import WorkQueue.
From S2P Require Import QueueRefinement.
From S2P Require Import QueueHistory.
From S2P Require Import Linearization.
From S2P Require Import Concurrent.
From S2P Require Import ConcurrentQueue.
From S2P Require Import QueueWorkers.
From S2P Require Import Composition.
From S2P Require Import SystemLinearizable.

Section QueueSystem.
Context {S C E J V M : Type}.
Context `{!ToJson J (Queue.QueueDocument V), !FromJson J (Queue.QueueDocument V)}.
Context `{!JsonRoundTrip (J := J) (D := Queue.QueueDocument V) id}.
Context `{!Backend E M} {spurious delayed : bool} {a0 : astore} {m0 : M}
  {holds : M → astore → Prop}.
Context `{!BackendLinearizes E M spurious delayed a0 m0 holds}.
Context (m : Queue.Queue S C) (ops : nat → queue_op V).
Context (s : system E (result (queue_output V) (Queue.Error E J)) M).

(** Workers have run operations of the queue, which was empty at first, and the UUID
    generator did not repeat itself. *)
Record queue_system : Prop := MkQueueSystem {
  qs_coherent : coherent a0;
  qs_empty : queue_holds (J := J) m a0 ([] : list (Queue.Message V));
  qs_reachable : rtc sys_step (sys_start m0) s;
  qs_clients t cl : sy_clients s !! t = Some cl → cl_op cl = queue_run m (ops t);
  qs_uuids : NoDup (sy_uuids s);
}.

(** Worker [t] got the result [x], and drew these clock readings and UUIDs. *)
Definition worker_got (t : nat) (x : queue_output V) (clock : list N) (us : list Uuid) : Prop :=
  ∃ cl, sy_clients s !! t = Some cl ∧ cl_cur cl = Ret (Ok x) ∧ cl_clock cl = clock ∧
    cl_uuids cl = us.

(** Worker [t] drew these clock readings and UUIDs, and got the result [x] or an error
    of the backend, or waits for the reply to its last call, for ever if it crashed. *)
Definition worker_may_get (t : nat) (x : queue_output V) (clock : list N) (us : list Uuid) : Prop :=
  ∃ cl, sy_clients s !! t = Some cl ∧ cl_clock cl = clock ∧ cl_uuids cl = us ∧
    (cl_cur cl = Ret (Ok x) ∨ (∃ e, cl_cur cl = Ret (Err (Queue.Store e))) ∨
     (is_Some (cl_wait cl) ∧ ¬ stopped (cl_cur cl))).

Lemma queue_system_explained :
  queue_system → ∃ c, workers spurious m ops a0 c ∧ holds (sy_backend s) (c_store c) ∧
    explains s c.
Proof.
  intros [Hcoh Hempty Hsteps Hcl Hus].
  destruct (system_explained s Hsteps) as (c & Hreach & Hholds & Hex).
  { intros t cl Ht. rewrite (Hcl t cl Ht). apply queue_run_disciplined. }
  exists c. split; [|done]. split; try done.
  - intros t th Hth. destruct (ex_clients _ _ Hex t th Hth) as (cl & Ht & -> & _). by apply Hcl.
  - by apply (ex_uuids _ _ Hex).
Qed.

Lemma worker_returned c t x clock us :
  explains s c → worker_got t x clock us → returned_ok c t x clock us.
Proof.
  intros Hex (cl & Ht & Hx & <- & <-).
  destruct (ex_returned _ _ Hex t cl _ Ht Hx) as (th & ? & ? & ? & ? & ?). by exists th.
Qed.

Lemma worker_thread c t th x :
  explains s c → c_threads c !! t = Some th →
  t_cur th = Ret (Ok x) ∨ (∃ e, t_cur th = Ret (Err (Queue.Store e))) →
  worker_may_get t x (t_clock th) (t_uuids th).
Proof.
  intros Hex Hth Hx.
  assert (∃ r, t_cur th = Ret r) as [r Hr] by (destruct Hx as [?|[e ?]]; by eexists).
  destruct (ex_threads _ _ Hex t th r Hth Hr) as (cl & Ht & Hus & Hcs & Hcur).
  exists cl. split_and!; [done..|]. rewrite Hr in Hx.
  destruct Hcur as [->|]; [|by auto]. destruct Hx as [?|[e ?]]; eauto.
Qed.

(** C1: leases are mutually exclusive, on every backend that linearizes.  If two
    workers both claimed the same message, then one of them claimed it at a clock
    reading at or after the deadline of the other's lease, and their attempt numbers
    differ: at no clock reading do two workers hold an unexpired lease on one message,
    whatever the interleaving, the failures and the crashes, and however their clocks
    disagree. *)
Theorem queue_leases_exclusive t1 t2 cl1 cl2 clock1 clock2 us1 us2 :
  queue_system → t1 ≠ t2 →
  worker_got t1 (OutClaim (Some cl1)) clock1 us1 →
  worker_got t2 (OutClaim (Some cl2)) clock2 us2 →
  Queue.claim_id cl1 = Queue.claim_id cl2 →
  ∃ now1 now2, clock1 = [now1] ∧ clock2 = [now2] ∧
    (now1 < Queue.lease_expires_at_millis cl1)%N ∧
    (now2 < Queue.lease_expires_at_millis cl2)%N ∧
    (Queue.lease_expires_at_millis cl1 ≤ now2 ∨ Queue.lease_expires_at_millis cl2 ≤ now1)%N ∧
    Queue.attempt cl1 ≠ Queue.attempt cl2.
Proof.
  intros (c & Hw & _ & Hex)%queue_system_explained Hne H1 H2.
  apply (worker_returned c) in H1; [|done]. apply (worker_returned c) in H2; [|done].
  by eapply worker_leases_exclusive.
Qed.

(** C4: at-least-once delivery, on every backend that linearizes.  The backend always
    holds a valid queue.  A message whose publication was reported successful is in
    it until some worker acknowledged it, and was told that it did, or that the
    backend failed, or still waits for a reply, perhaps because it crashed; once an acknowledgement
    was reported [Acknowledged] the message is gone. *)
Theorem queue_at_least_once :
  queue_system →
  ∃ a ms, holds (sy_backend s) a ∧ queue_holds (J := J) m a ms ∧
    (∀ t i clock us, worker_got t (OutPublished i) clock us →
       i ∈ Queue.id <$> ms ∨
       ∃ t' tok clock us, ops t' = QAck i tok ∧
         worker_may_get t' (OutAck Queue.Acknowledged) clock us) ∧
    (∀ t i tok clock us, ops t = QAck i tok →
       worker_got t (OutAck Queue.Acknowledged) clock us → i ∉ Queue.id <$> ms).
Proof.
  intros (c & Hw & Hh & Hex)%queue_system_explained.
  destruct (worker_at_least_once _ _ _ _ _ Hw) as (ms & Hms & Hpub & Hack).
  exists (c_store c), ms. split_and!; [done..| |].
  - intros t i clock us Hgot. apply (worker_returned c) in Hgot; [|done].
    destruct (Hpub _ _ _ _ Hgot) as [|(t' & th & tok & Hth & Hop & Hx)]; [by left|right].
    eexists t', tok, _, _. split; [done|]. by eapply worker_thread.
  - intros t i tok clock us Hop Hgot. apply (worker_returned c) in Hgot; [|done].
    by eapply Hack.
Qed.

(** C12: only a lease holder can remove a message, on every backend that linearizes.
    An acknowledgement reported [Acknowledged] carried the token that another worker
    drew to claim that message, and its clock reading lies before the deadline of that
    claim's lease. *)
Theorem queue_ack_authorized t i tok clock us :
  queue_system → ops t = QAck i tok →
  worker_got t (OutAck Queue.Acknowledged) clock us →
  ∃ now t' d now' cl, clock = [now] ∧ ops t' = QClaim d ∧
    worker_may_get t' (OutClaim (Some cl)) [now'] [Queue.token_uuid tok] ∧
    Queue.claim_id cl = i ∧ Queue.lease_token cl = tok ∧
    Queue.lease_expires_at_millis cl = (now' + as_millis d)%N ∧
    (now < now' + as_millis d)%N.
Proof.
  intros (c & Hw & _ & Hex)%queue_system_explained Hop Hgot.
  apply (worker_returned c) in Hgot; [|done].
  destruct (worker_ack_authorized _ _ _ _ _ _ _ _ _ _ Hw Hop Hgot)
    as (now & t' & th & d & now' & cl & -> & Hth & Hop' & Hcs & Hus & Hx & Hrest).
  exists now, t', d, now', cl. do 2 (split; [done|]). split; [|done].
  rewrite <- Hcs, <- Hus. by eapply worker_thread.
Qed.

(** C13: a successful claim delivers, on every backend that linearizes, the payload that
    some worker published under the claimed identifier, a one-based attempt number, a
    token that is the UUID the claimant drew, and a deadline exactly the requested
    duration after its clock reading; attempt and deadline fit their machine widths. *)
Theorem queue_claim_delivers t cl clock us :
  queue_system → worker_got t (OutClaim (Some cl)) clock us →
  ∃ now d, ops t = QClaim d ∧ clock = [now] ∧
    us = [Queue.token_uuid (Queue.lease_token cl)] ∧
    Queue.lease_expires_at_millis cl = (now + as_millis d)%N ∧
    (now < Queue.lease_expires_at_millis cl ≤ u64_max)%N ∧
    (1 ≤ Queue.attempt cl ≤ u32_max)%N ∧
    ∃ t' cl', sy_clients s !! t' = Some cl' ∧ ops t' = QPublish (Queue.claim_value cl) ∧
      [Queue.message_uuid (Queue.claim_id cl)] `prefix_of` cl_uuids cl'.
Proof.
  intros (c & Hw & _ & Hex)%queue_system_explained Hgot.
  apply (worker_returned c) in Hgot; [|done].
  destruct (worker_claim_delivers _ _ _ _ _ _ _ _ _ Hw Hgot)
    as (now & d & Hop & Hcs & Hus & Hdl & Hnow & Hatt & t' & th & Hth & Hop' & Hus').
  exists now, d. do 6 (split; [done|]).
  destruct (ex_clients _ _ Hex t' th Hth) as (cl' & Ht & _ & Hpre & _).
  exists t', cl'. split_and!; [done..|]. by rewrite <- Hus'.
Qed.
End QueueSystem.
