(* ===== verification/Backends.v ===== *)
(** * The adapters as backends

    The three adapters of the repository implement the interface [Backend]: the
    in-memory adapter, whose operations are atomic under its mutex (like any adapter
    with a [StoreContract] whose clients take turns), the filesystem adapter and the S3
    adapter. *)

From S2P Require Import Prelude.
From S2P Require Import Program.
From S2P Require Import ObjectStore.
From S2P Require Import Linearization.
From S2P Require Import FileSystem.
From S2P Require Import Envelope.
From S2P Require Import FilesystemStore.
From S2P Require Import FilesystemMachine.
From S2P Require Import FilesystemLinearizable.
From S2P Require Import S3Store.
From S2P Require Import S3Machine.
From S2P Require Import S3Linearizable.
From S2P Require Import Composition.

(** ** A store behind a mutex *)

(** [sh_running]: the operations invoked, and those of them that have been executed, with
    their replies. *)
Record shared (S E : Type) := MkShared {
  sh_state : S;
  sh_running : gmap nat (operation E);
  sh_ops : gmap nat (operation E);
  sh_trace : list (nat * moment);
}.
Arguments MkShared {S E}.
Arguments sh_state {S E} s.
Arguments sh_running {S E} s.
Arguments sh_ops {S E} s.
Arguments sh_trace {S E} s.

Section Shared.
Context {S E : Type} `{!ObjectStore S E}.

Definition execute_call (c : call) (s : S) : option (reply E c * S) :=
  match c with
  | Get l => store_get s l
  | Create l b => store_create s l b
  | Replace l v b => store_replace s l v b
  | NowMillis | NowV7 => None
  end.

Inductive shared_step : shared S E → shared S E → Prop :=
  | shared_invoke t c m :
      sh_ops m !! t = None →
      shared_step m (MkShared (sh_state m) (<[t := MkOperation c None]> (sh_running m))
        (<[t := MkOperation c None]> (sh_ops m)) (sh_trace m ++ [(t, Invoked)]))
  | shared_execute t c r s m :
      sh_running m !! t = Some (MkOperation c None) →
      execute_call c (sh_state m) = Some (r, s) →
      shared_step m (MkShared s (<[t := MkOperation c (Some r)]> (sh_running m)) (sh_ops m)
        (sh_trace m))
  | shared_return t c r m :
      sh_running m !! t = Some (MkOperation c (Some r)) →
      shared_step m (MkShared (sh_state m) (delete t (sh_running m))
        (<[t := MkOperation c (Some r)]> (sh_ops m)) (sh_trace m ++ [(t, Returned)])).

Definition shared_start (s : S) : shared S E := MkShared s ∅ ∅ [].

#[export] Instance shared_backend : Backend E (shared S E) := {|
  bk_step := shared_step;
  bk_ops := sh_ops;
  bk_trace := sh_trace;
|}.

Context `{!StoreContract S E}.

Lemma execute_call_step c s a r s' :
  contract_sim s a → execute_call c s = Some (r, s') →
  ∃ a', store_step contract_spurious a c r a' ∧ contract_sim s' a'.
Proof.
  destruct c; simpl; try done.
  - apply contract_get.
  - apply contract_create.
  - apply contract_replace.
Qed.

Definition shared_ok (a0 : astore) (m : shared S E) : Prop :=
  ∃ ops order a, contract_sim (sh_state m) a ∧
    log_ok contract_spurious false a0 (sh_ops m) (sh_trace m) (sh_running m) ops order a.

Lemma shared_reachable s0 a0 m :
  contract_sim s0 a0 → rtc shared_step (shared_start s0) m → shared_ok a0 m.
Proof.
  intros Hs0 Hsteps.
  assert (shared_ok a0 (shared_start s0)) as Hinit.
  { exists ∅, [], a0. split; [done|apply log_init]. }
  revert Hinit. induction Hsteps as [m|m m1 m' Hstep _ IH]; [done|].
  intros (ops & order & a & Hsim & Hlog). apply IH. clear IH Hs0.
  destruct Hstep as [t c m Ht|t c r s m Ht Hs|t c r m Ht].
  - exists (<[t := MkOperation c None]> ops), (order ++ [(t, Invoked)]), a.
    split; [done|]. by apply log_invoke.
  - destruct (execute_call_step _ _ _ _ _ Hsim Hs) as (a' & Hstep & Hsim').
    destruct (lg_running _ _ _ _ _ _ _ _ _ Hlog t _ Ht) as [Ho Hm].
    pose proof (log_linearize _ _ _ _ _ _ _ _ _ _ _ Hlog Hm Ho Hstep) as Hlog'.
    eexists _, _, a'. split; [done|]. simpl.
    by rewrite (alter_const _ _ _ _ Ht) in Hlog'.
  - eexists _, _, a. split; [done|].
    exact (log_return contract_spurious false _ _ _ _ t (MkOperation c (Some r)) r Hlog Ht
      (λ _ _ Hr, Hr)).
Qed.

#[export] Instance shared_linearizes s0 a0 (Hs0 : contract_sim s0 a0) :
  BackendLinearizes E (shared S E) contract_spurious false a0 (shared_start s0)
    (λ m a, contract_sim (sh_state m) a).
Proof.
  split; [done|done| |].
  - intros m m' Hr Hstep. destruct (shared_reachable _ _ _ Hs0 Hr) as (ops & order & a & _ & Hlog).
    destruct Hstep as [t c m Ht|t c r s m Ht Hs|t c r m Ht].
    + by eapply event_invoke.
    + by apply event_silent.
    + destruct (lg_running _ _ _ _ _ _ _ _ _ Hlog t _ Ht) as [_ Hm]. by eapply event_return.
  - intros m Hr. destruct (shared_reachable _ _ _ Hs0 Hr) as (ops & order & a & Hsim & Hlog).
    exists ops, order, a. split; [by eapply log_linearizes|done].
Qed.
End Shared.

(** ** The filesystem adapter *)

Section Filesystem.
Context `{UuidLaws}.

#[export] Instance filesystem_backend : Backend FsError.StoreError machine := {|
  bk_step := mstep call_ok;
  bk_ops := FilesystemMachine.m_ops;
  bk_trace := FilesystemMachine.m_trace;
|}.

#[export] Instance filesystem_linearizes a0 m0 (Hm0 : initial a0 m0) :
  BackendLinearizes FsError.StoreError machine false false a0 m0
    (λ m a, represents (tree (m_fs m)) a).
Proof.
  split; [by destruct Hm0|by destruct Hm0| |].
  - intros m m' Hr Hstep. pose proof (fs_running a0 m0 m) as Hrun.
    destruct Hstep as [t c m Hc Ht|t c fc k r s' m Ht Hs|t c r m Ht|t th m Ht].
    + by eapply event_invoke.
    + by apply event_silent.
    + eapply event_return; [by eapply Hrun|done|done].
    + by apply event_silent.
  - intros m Hr. destruct (execution_linearizes a0 m0 m Hm0 Hr) as (ops & order & a & ? & ?).
    by exists ops, order, a.
Qed.
End Filesystem.

(** ** The S3 adapter *)

Section S3.
Context `{!S3Client} (bkt : string).

#[export] Instance s3_backend : Backend S3.StoreError s3_machine := {|
  bk_step := s3_step bkt;
  bk_ops := S3Machine.m_ops;
  bk_trace := S3Machine.m_trace;
|}.

#[export] Instance s3_linearizes a0 m0 (Hm0 : s3_initial bkt a0 m0) :
  BackendLinearizes S3.StoreError s3_machine true true a0 m0
    (λ m a, m_server m !! bkt = Some a).
Proof.
  split; [by destruct Hm0|by destruct Hm0| |].
  - intros m m' Hr Hstep. pose proof (s3_running bkt a0 m0 m) as Hrun.
    destruct Hstep as [t store c m Hb Hc Ht|t c sc k r srv flight m Ht Hs|t q v srv m Hq Hput|
      t m|t c r m Ht|t m].
    + by eapply event_invoke.
    + by apply event_silent.
    + by apply event_silent.
    + by apply event_silent.
    + eapply event_return; [by eapply Hrun|done|done].
    + by apply event_silent.
  - intros m Hr. destruct (s3_execution_linearizes bkt a0 m0 m Hm0 Hr) as (ops & order & a & ? & ?).
    by exists ops, order, a.
Qed.
End S3.
