(* ===== verification/SystemScheduler.v ===== *)
(** * A scheduler for systems

    Concrete executions of a system, on any backend with a deterministic scheduler of
    its own. *)

From S2P Require Import Prelude.
From S2P Require Import Program.
From S2P Require Import ObjectStore.
From S2P Require Import Linearization.
From S2P Require Import Concurrent.
From S2P Require Import Composition.

(** ** A scheduler *)

Section Scheduler.
Context {E A M X : Type} `{!Backend E M}.
Context (bact : X → M → option M) (binvoke : nat → call → M → option M) (proceed : nat → X).
Context (bact_ok : ∀ x m m', bact x m = Some m' →
  bk_step m m' ∧ ∀ i, bk_ops m !! i = None → bk_ops m' !! i = None).
Context (binvoke_ok : ∀ i c m m', binvoke i c m = Some m' →
  bk_step m m' ∧ bk_ops m !! i = None ∧ bk_ops m' = <[i := MkOperation c None]> (bk_ops m)).
Implicit Types (s : system E A M).

Inductive sys_action :=
  | Start (t : nat) (p : io E A)
  | Draw (t : nat) (u now : N)
  | MakeCall (t i : nat)
  | TakeReply (t : nat)
  | OnBackend (x : X).

Definition drawn_reply (u now : N) (c : call) : option (reply E c) :=
  match c with NowMillis => Some now | NowV7 => Some u | _ => None end.

(** The type of a reply depends only on the kind of call. *)
Definition cast_reply (c' c : call) : reply E c' → option (reply E c) :=
  match c', c return reply E c' → option (reply E c) with
  | Get _, Get _ => λ r, Some r
  | Create _ _, Create _ _ => λ r, Some r
  | Replace _ _ _, Replace _ _ _ => λ r, Some r
  | _, _ => λ _, None
  end.

Definition returned_reply (i : nat) (c : call) (m : M) : option (reply E c) :=
  match bk_ops m !! i with
  | Some (MkOperation c' (Some r)) => if bool_decide (c' = c) then cast_reply c' c r else None
  | _ => None
  end.

Definition sys_act (x : sys_action) s : option (system E A M) :=
  let m := sy_backend s in
  let cls := sy_clients s in
  match x with
  | Start t p =>
      match cls !! t with
      | Some _ => None
      | None => Some (MkSystem m (<[t := MkClient p p [] None [] []]> cls) (sy_uuids s))
      end
  | Draw t u now =>
      cl ← cls !! t;
      match cl_cur cl with
      | Call c k =>
          if store_call c then None else
          r ← drawn_reply u now c;
          Some (MkSystem m (<[t := MkClient (cl_op cl) (k r) (cl_calls cl) (cl_wait cl)
            (cl_uuids cl ++ uuids_drawn c r) (cl_clock cl ++ clock_drawn c r)]> cls)
            (sy_uuids s ++ uuids_drawn c r))
      | _ => None
      end
  | MakeCall t i =>
      cl ← cls !! t;
      match cl_cur cl, cl_wait cl with
      | Call c k, None =>
          if store_call c then
            m' ← binvoke i c m;
            Some (MkSystem m' (<[t := MkClient (cl_op cl) (cl_cur cl) (cl_calls cl ++ [i]) (Some i)
              (cl_uuids cl) (cl_clock cl)]> cls) (sy_uuids s))
          else None
      | _, _ => None
      end
  | TakeReply t =>
      cl ← cls !! t;
      match cl_cur cl, cl_wait cl with
      | Call c k, Some i =>
          r ← returned_reply i c m;
          Some (MkSystem m (<[t := MkClient (cl_op cl) (k r) (cl_calls cl) None
            (cl_uuids cl) (cl_clock cl)]> cls) (sy_uuids s))
      | _, _ => None
      end
  | OnBackend x => m' ← bact x m; Some (MkSystem m' cls (sy_uuids s))
  end.

Lemma returned_reply_Some i c m r :
  returned_reply i c m = Some r → bk_ops m !! i = Some (MkOperation c (Some r)).
Proof.
  unfold returned_reply. destruct (bk_ops m !! i) as [[c' [r'|]]|]; try done.
  case_bool_decide as Hc; [|done]. subst c'. by destruct c; simpl; intros [= <-].
Qed.

Lemma sys_act_step x s s' : sys_act x s = Some s' → sys_step s s'.
Proof.
  destruct s as [m cls us], x as [t p|t u now|t i|t|x]; simpl.
  - destruct (cls !! t) eqn:Ht; [done|]. intros [= <-]. by constructor.
  - destruct (cls !! t) as [cl|] eqn:Ht; simpl; [|done].
    destruct (cl_cur cl) as [| |c k] eqn:Hcur; try done.
    destruct (store_call c) eqn:Hc; [done|].
    destruct (drawn_reply u now c) as [r|]; [|done]. intros [= <-]. by eapply sys_draw.
  - destruct (cls !! t) as [cl|] eqn:Ht; simpl; [|done].
    destruct (cl_cur cl) as [| |c k] eqn:Hcur; try done.
    destruct (cl_wait cl) eqn:Hw; [done|]. destruct (store_call c) eqn:Hc; [|done].
    destruct (binvoke i c m) as [m'|] eqn:Hb; simpl; [|done]. intros [= <-].
    destruct (binvoke_ok _ _ _ _ Hb) as (? & ? & ?). rewrite <- Hcur. by eapply sys_call.
  - destruct (cls !! t) as [cl|] eqn:Ht; simpl; [|done].
    destruct (cl_cur cl) as [| |c k] eqn:Hcur; try done.
    destruct (cl_wait cl) as [i|] eqn:Hw; [|done].
    destruct (returned_reply i c m) as [r|] eqn:Hr; simpl; [|done]. intros [= <-].
    eapply sys_reply; [done..|]. by apply returned_reply_Some.
  - destruct (bact x m) as [m'|] eqn:Hb; simpl; [|done]. intros [= <-].
    destruct (bact_ok _ _ _ Hb). by apply sys_backend.
Qed.

(** What client [t] does next: the operations it makes are numbered from [100 * t], and
    it draws the UUID [u] and the reading [now]. *)
Definition next_action (t : nat) (u now : N) s : option sys_action :=
  cl ← sy_clients s !! t;
  match cl_cur cl with
  | Call c k =>
      Some (if store_call c then
        match cl_wait cl with
        | None => MakeCall t (100 * t + length (cl_calls cl))
        | Some i =>
            match returned_reply i c (sy_backend s) with
            | Some _ => TakeReply t
            | None => OnBackend (proceed i)
            end
        end
      else Draw t u now)
  | _ => None
  end.

(** At most [n] steps of client [t], and of the operations it waits for. *)
Fixpoint drive (n t : nat) (u now : N) s : option (system E A M) :=
  match n with
  | O => Some s
  | Datatypes.S n =>
      match next_action t u now s with
      | Some x => s' ← sys_act x s; drive n t u now s'
      | None => Some s
      end
  end.

Lemma drive_reachable n t u now s s' : drive n t u now s = Some s' → rtc sys_step s s'.
Proof.
  revert s. induction n as [|n IH]; intros s; simpl; [by intros [= <-]|].
  destruct (next_action t u now s) as [x|]; [|by intros [= <-]].
  destruct (sys_act x s) as [s1|] eqn:Hx; simpl; [|done].
  intros Hs. apply rtc_l with s1; [by apply (sys_act_step x)|by apply IH].
Qed.

Inductive turn := Begin (t : nat) (p : io E A) | Drive (n t : nat) (u now : N) | Do (x : X).

Fixpoint play (ts : list turn) s : option (system E A M) :=
  match ts with
  | [] => Some s
  | Begin t p :: ts => s' ← sys_act (Start t p) s; play ts s'
  | Drive n t u now :: ts => s' ← drive n t u now s; play ts s'
  | Do x :: ts => s' ← sys_act (OnBackend x) s; play ts s'
  end.

Lemma play_reachable ts s s' : play ts s = Some s' → rtc sys_step s s'.
Proof.
  revert s. induction ts as [|x ts IH]; intros s; [by intros [= <-]|]. cbn [play].
  destruct x as [t p|n t u now|x]; cbn [play].
  - destruct (sys_act (Start t p) s) as [s1|] eqn:Hx; [|done].
    intros Hs. apply rtc_l with s1; [by apply (sys_act_step (Start t p))|by apply IH].
  - destruct (drive n t u now s) as [s1|] eqn:Hx; [|done].
    intros Hs. trans s1; [by eapply drive_reachable|by apply IH].
  - destruct (sys_act (OnBackend x) s) as [s1|] eqn:Hx; [|done].
    intros Hs. apply rtc_l with s1; [by apply (sys_act_step (OnBackend x))|by apply IH].
Qed.

(** The operations of the clients are those begun. *)
Definition clients_run (op : nat → io E A) s : Prop :=
  ∀ t cl, sy_clients s !! t = Some cl → cl_op cl = op t.

Lemma sys_act_ops op x s s' :
  match x with Start t p => p = op t | _ => True end →
  clients_run op s → sys_act x s = Some s' → clients_run op s'.
Proof.
  unfold clients_run. destruct s as [m cls us]. intros Hx Hops Hact.
  assert (∀ t cl cl', cls !! t = Some cl → cl_op cl' = cl_op cl →
    ∀ t1 cl1, <[t := cl']> cls !! t1 = Some cl1 → cl_op cl1 = op t1) as Hinsert.
  { intros t cl cl' Ht Hop t1 cl1 [[<- <-]|[_ ?]]%lookup_insert_Some; [|by apply Hops].
    rewrite Hop. by apply Hops. }
  destruct x as [t p|t u now|t i|t|x]; simpl in *.
  - destruct (cls !! t); [done|]. injection Hact as <-. simpl.
    intros t1 cl1 [[<- <-]|[_ ?]]%lookup_insert_Some; [done|by apply Hops].
  - destruct (cls !! t) as [cl|] eqn:Ht; simpl in Hact; [|done].
    destruct (cl_cur cl) as [| |c k]; try done. destruct (store_call c); [done|].
    destruct (drawn_reply u now c); [|done]. injection Hact as <-. by eapply Hinsert.
  - destruct (cls !! t) as [cl|] eqn:Ht; simpl in Hact; [|done].
    destruct (cl_cur cl) as [| |c k], (cl_wait cl); try done.
    destruct (store_call c); [|done].
    destruct (binvoke i c m); simpl in Hact; [|done]. injection Hact as <-. by eapply Hinsert.
  - destruct (cls !! t) as [cl|] eqn:Ht; simpl in Hact; [|done].
    destruct (cl_cur cl) as [| |c k], (cl_wait cl) as [i|]; try done.
    destruct (returned_reply i c m); simpl in Hact; [|done]. injection Hact as <-.
    by eapply Hinsert.
  - destruct (bact x m); simpl in Hact; [|done]. by injection Hact as <-.
Qed.

Lemma drive_ops op n t u now s s' :
  clients_run op s → drive n t u now s = Some s' → clients_run op s'.
Proof.
  revert s. induction n as [|n IH]; intros s Hops; simpl; [by intros [= <-]|].
  destruct (next_action t u now s) as [x|] eqn:Hn; [|by intros [= <-]].
  destruct (sys_act x s) as [s1|] eqn:Hx; simpl; [|done]. apply IH.
  eapply sys_act_ops; [|done|done]. unfold next_action in Hn.
  destruct (sy_clients s !! t) as [cl|]; simpl in Hn; [|done].
  destruct (cl_cur cl) as [| |c k]; try done.
  repeat case_match; by simplify_eq.
Qed.

Lemma play_ops op ts s s' :
  Forall (λ x, match x with Begin t p => p = op t | _ => True end) ts →
  clients_run op s → play ts s = Some s' → clients_run op s'.
Proof.
  intros Hts. revert s. induction Hts as [|x ts Hx _ IH]; intros s Hops; [by intros [= <-]|].
  destruct x as [t p|n t u now|x]; cbn [play].
  - destruct (sys_act (Start t p) s) as [s1|] eqn:Ha; [|done]. apply IH.
    by eapply (sys_act_ops op (Start t p)).
  - destruct (drive n t u now s) as [s1|] eqn:Ha; [|done]. apply IH. by eapply drive_ops.
  - destruct (sys_act (OnBackend x) s) as [s1|] eqn:Ha; [|done]. apply IH.
    by eapply (sys_act_ops op (OnBackend x)).
Qed.
End Scheduler.

(** What a client got and drew. *)
Definition got {E A M} (s : system E A M) (t : nat) : option (option A * list N * list Uuid) :=
  (λ cl, (match cl_cur cl with Ret x => Some x | _ => None end, cl_clock cl, cl_uuids cl))
    <$> sy_clients s !! t.

Lemma got_returned {E A M} (s : system E A M) t x clock us :
  got s t = Some (Some x, clock, us) →
  ∃ cl, sy_clients s !! t = Some cl ∧ cl_cur cl = Ret x ∧ cl_clock cl = clock ∧ cl_uuids cl = us.
Proof.
  unfold got. destruct (sy_clients s !! t) as [cl|]; [|done]. simpl.
  destruct (cl_cur cl) as [y| |] eqn:Hy; [|done..]. intros [= <- <- <-]. by exists cl.
Qed.
