(* ===== verification/StructWorkers.v ===== *)
(** * Clients of one map, and of one log, in memory

    Executions on the in-memory adapter, shared behind its mutex, that apply the theorems
    of [StructSystem], [SharedStructures] and [Retry]. *)

From S2P Require Import Prelude.
From S2P Require Import Program.
From S2P Require Import ObjectStore.
From S2P Require Import MemoryStore.
From S2P Require Import Json.
From S2P Require Import CoreTypes.
From S2P Require Import StructMap.
From S2P Require Import StructLog.
From S2P Require Import Linearization.
From S2P Require Import Concurrent.
From S2P Require Import ConcurrentMap.
From S2P Require Import ConcurrentLog.
From S2P Require Import Scenarios.
From S2P Require Import Composition.
From S2P Require Import SystemLinearizable.
From S2P Require Import StructSystem.
From S2P Require Import Sharing.
From S2P Require Import SharedStructures.
From S2P Require Import Retry.
From S2P Require Import Backends.
From S2P Require Import SystemScheduler.
Import Core.

(** ** The adapter, step by step *)

Abbreviation memory := (shared Memory.State Empty_set).

Definition mem_invoke (i : nat) (c : call) (m : memory) : option memory :=
  match sh_ops m !! i with
  | Some _ => None
  | None =>
      Some (MkShared (sh_state m) (<[i := MkOperation c None]> (sh_running m))
        (<[i := MkOperation c None]> (sh_ops m)) (sh_trace m ++ [(i, Invoked)]))
  end.

(** Operation [i] takes the mutex and runs, or returns. *)
Definition mem_proceed (i : nat) (m : memory) : option memory :=
  _ ← sh_ops m !! i;
  match sh_running m !! i with
  | Some (MkOperation c None) =>
      '(r, s) ← execute_call c (sh_state m);
      Some (MkShared s (<[i := MkOperation c (Some r)]> (sh_running m)) (sh_ops m) (sh_trace m))
  | Some (MkOperation c (Some r)) =>
      Some (MkShared (sh_state m) (delete i (sh_running m))
        (<[i := MkOperation c (Some r)]> (sh_ops m)) (sh_trace m ++ [(i, Returned)]))
  | None => None
  end.

Lemma mem_invoke_ok i c m m' :
  mem_invoke i c m = Some m' →
  bk_step m m' ∧ bk_ops m !! i = None ∧ bk_ops m' = <[i := MkOperation c None]> (bk_ops m).
Proof.
  unfold mem_invoke. destruct (sh_ops m !! i) eqn:Hi; [done|]. intros [= <-].
  split; [by apply shared_invoke|done].
Qed.

Lemma mem_proceed_ok i m m' :
  mem_proceed i m = Some m' →
  bk_step m m' ∧ ∀ j, bk_ops m !! j = None → bk_ops m' !! j = None.
Proof.
  unfold mem_proceed. destruct (sh_ops m !! i) eqn:Hi; simpl; [|done].
  destruct (sh_running m !! i) as [[c [r|]]|] eqn:Hr; [..|done].
  - intros [= <-]. split; [by apply shared_return|]. intros j Hj. simpl.
    rewrite lookup_insert_ne; [done|]. intros ->. by rewrite Hj in Hi.
  - destruct (execute_call c (sh_state m)) as [[r s]|] eqn:Hs; simpl; [|done].
    intros [= <-]. split; [by eapply shared_execute|done].
Qed.

(** The adapter holding one object, at its first version. *)
Definition memory_with (l : Location) (b : bytes) : memory := shared_start (state_with l b).

Lemma memory_with_sim l b : Memory.sim (state_with l b) (astore_with l b).
Proof. by destruct (world_with_sim l b) as [? _]. Qed.

#[global] Instance memory_with_linearizes l b :
  BackendLinearizes Empty_set memory false false (astore_with l b) (memory_with l b)
    (λ m a, Memory.sim (sh_state m) a) := shared_linearizes _ _ (memory_with_sim l b).

(** ** A map

    Clients 0 and 1 both read the map before either writes: one of them is told of a
    conflict, and tries again as client 2. *)

Abbreviation map_result := (result (map_output N) (Error Empty_set unit)).

Definition race_ops (t : nat) : map_op N :=
  match t with 0 => OpInsert "c" 3%N | 3 => OpGet "d" | _ => OpInsert "d" 4%N end.

Definition race_client (t : nat) : io Empty_set map_result := map_run map1 (race_ops t).

Definition race : list (turn (E := Empty_set) (A := map_result) (X := nat)) :=
  [Begin 0 (race_client 0); Begin 1 (race_client 1); Drive 4 0 0 0; Drive 4 1 0 0;
   Drive 20 0 0 0; Drive 20 1 0 0; Begin 2 (race_client 2); Drive 20 2 0 0;
   Begin 3 (race_client 3); Drive 20 3 0 0].

Definition race_start : system Empty_set map_result memory :=
  sys_start (memory_with (Map.location map1) (map1_doc two)).

Definition after_race := play mem_proceed mem_invoke id race race_start.

Lemma race_runs :
  ∃ s, after_race = Some s ∧
    map_system (J := unit) (a0 := astore_with (Map.location map1) (map1_doc two))
      (m0 := memory_with (Map.location map1) (map1_doc two)) map1 race_ops two s ∧
    (∃ cl, sy_clients s !! 1 = Some cl ∧
       cl_cur cl = Ret (Err (Conflict (MkConflictError (Memory.token 1) (Some (Memory.token 2)))))) ∧
    ∃ cl, sy_clients s !! 3 = Some cl ∧ cl_cur cl = Ret (Ok (OutValue (Some 4%N))).
Proof.
  assert ((λ s, (got s 1, got s 3)) <$> after_race =
    Some (Some (Some (Err (Conflict (MkConflictError (Memory.token 1) (Some (Memory.token 2))))), [], []),
          Some (Some (Ok (OutValue (Some 4%N))), [], []))) as Hlog by (vm_compute; reflexivity).
  destruct after_race as [s|] eqn:Hs; [|discriminate Hlog].
  injection Hlog as H1 H3. exists s. split; [done|].
  apply got_returned in H1 as (cl1 & H1 & Hc1 & _), H3 as (cl3 & H3 & Hc3 & _).
  split; [|exact (conj (ex_intro _ cl1 (conj H1 Hc1)) (ex_intro _ cl3 (conj H3 Hc3)))].
  split.
  - apply astore_with_coherent.
  - apply map1_holds.
  - eapply (play_reachable mem_proceed mem_invoke id mem_proceed_ok mem_invoke_ok); exact Hs.
  - apply (play_ops mem_proceed mem_invoke id race_client race race_start s); [|done|exact Hs].
    repeat constructor.
Qed.

(** The insertion that was told of a conflict changed nothing. *)
Lemma map_system_no_lost_update_witness :
  ∃ s order a, after_race = Some s ∧ NoDup order ∧ (1 ∉ order) ∧
    map_holds (J := unit) map1 a (map_after race_ops two order) ∧
    ∃ n, Some 4%N = map_after race_ops two (take n order) !! "d".
Proof.
  destruct race_runs as (s & Hrun & Hs & (cl1 & H1 & Hc1) & cl3 & H3 & Hc3).
  destruct (map_system_no_lost_update map1 race_ops two s Hs)
    as (order & a & Hnd & _ & Hm & Hok & Hin).
  exists s, order, a. split; [exact Hrun|]. split; [exact Hnd|]. split.
  - intros (cl & x & Hcl & Hgot)%Hin. rewrite H1 in Hcl. injection Hcl as <-.
    unfold may_have_got in Hgot. rewrite Hc1 in Hgot.
    destruct Hgot as [Hx|[[e Hx]|[_ Hr]]]; [discriminate Hx..|]. apply Hr. intros c k Hk. discriminate Hk.
  - split; [exact Hm|]. destruct (Hok 3 cl3 _ H3 Hc3) as (n & v & Hx & _).
    exists n. simpl in Hx. by injection Hx.
Defined.

(** ** A log

    Clients 0 and 1 append; client 1, which drew the smaller identifier, writes second and
    is told of a conflict.  Client 2 appends the same value again, and client 3 reads. *)

Abbreviation log_result := (result (log_output N) (Error Empty_set unit)).

Definition append_ops (t : nat) : log_op N :=
  match t with 0 => LogAppend 1%N | 3 => LogRecords | _ => LogAppend 2%N end.

Definition append_client (t : nat) : io Empty_set log_result := log_run log1 (append_ops t).

Definition appends : list (turn (E := Empty_set) (A := log_result) (X := nat)) :=
  [Begin 0 (append_client 0); Begin 1 (append_client 1); Drive 5 0 31 0; Drive 5 1 30 0;
   Drive 20 0 0 0; Drive 20 1 0 0; Begin 2 (append_client 2); Drive 20 2 29 0;
   Begin 3 (append_client 3); Drive 20 3 0 0].

Definition appends_start : system Empty_set log_result memory :=
  sys_start (memory_with (Log.location log1) (log1_doc [])).

Definition after_appends := play mem_proceed mem_invoke id appends appends_start.

Lemma appends_run :
  ∃ s, after_appends = Some s ∧
    log_system (J := unit) (a0 := astore_with (Log.location log1) (log1_doc []))
      (m0 := memory_with (Log.location log1) (log1_doc [])) log1 append_ops s ∧
    (∃ cl, sy_clients s !! 0 = Some cl ∧ cl_cur cl = Ret (Ok (OutId (Log.MkLogId 31)))) ∧
    ∃ cl, sy_clients s !! 3 = Some cl ∧ cl_cur cl = Ret (Ok (OutRecords
      [Log.MkRecord (Log.MkLogId 29) 2%N; Log.MkRecord (Log.MkLogId 31) 1%N])).
Proof.
  assert ((λ s, (sy_uuids s, got s 0, got s 3)) <$> after_appends =
    Some ([31; 30; 29]%N, Some (Some (Ok (OutId (Log.MkLogId 31))), [], [31%N]),
      Some (Some (Ok (OutRecords
        [Log.MkRecord (Log.MkLogId 29) 2%N; Log.MkRecord (Log.MkLogId 31) 1%N])), [], [])))
    as Hlog by (vm_compute; reflexivity).
  destruct after_appends as [s|] eqn:Hs; [|discriminate Hlog].
  injection Hlog as Hus H0 H3. exists s. split; [done|].
  apply got_returned in H0 as (cl0 & H0 & Hc0 & _), H3 as (cl3 & H3 & Hc3 & _).
  split; [|exact (conj (ex_intro _ cl0 (conj H0 Hc0)) (ex_intro _ cl3 (conj H3 Hc3)))].
  split.
  - apply astore_with_coherent.
  - apply log1_holds, sorted_by_nil.
  - eapply (play_reachable mem_proceed mem_invoke id mem_proceed_ok mem_invoke_ok); exact Hs.
  - apply (play_ops mem_proceed mem_invoke id append_client appends appends_start s);
      [|done|exact Hs]. repeat constructor.
  - rewrite Hus. apply (bool_decide_eq_true_1 (NoDup [31; 30; 29]%N)).
    vm_compute; reflexivity.
Qed.

Lemma log_system_append_only_witness :
  ∃ s a (rs rs' : list (Log.LogRecord N)), after_appends = Some s ∧
    log_holds (J := unit) log1 a rs ∧ Log.MkRecord (Log.MkLogId 31) 1%N ∈ rs ∧
    rs' ⊆ rs ∧
    Some (OutRecords rs') = Some (OutRecords
      [Log.MkRecord (Log.MkLogId 29) 2%N; Log.MkRecord (Log.MkLogId 31) 1%N]).
Proof.
  destruct appends_run as (s & Hrun & Hs & (cl0 & H0 & Hc0) & cl3 & H3 & Hc3).
  destruct (log_system_append_only log1 append_ops s Hs) as (a & rs & _ & Hrs & Happ & _ & Hread).
  destruct (Hread 3 cl3 _ H3 Hc3) as (rs' & _ & Hsub & Hv); [intros v Hv; discriminate Hv|].
  exists s, a, rs, rs'. split; [exact Hrun|]. split; [exact Hrs|].
  split; [exact (Happ 0 cl0 _ _ H0 eq_refl Hc0)|]. split; [exact Hsub|exact Hv].
Defined.

(** ** Sessions

    Two processes open or create the map at the same time; the one that loses the race to
    create it opens what the other created, and inserts into it. *)

Abbreviation session_result := (result (list (map_output N)) (Error Empty_set unit)).

Definition session_ops (t : nat) : list (map_op N) :=
  match t with 0 => [OpInsert "a" 1%N] | _ => [OpInsert "b" 2%N; OpEntries] end.

Definition map_session (t : nat) : io Empty_set session_result :=
  session (Map.open_or_create (J := unit) (V := N) map1_builder) map_run (session_ops t).

Definition openings : list (turn (E := Empty_set) (A := session_result) (X := nat)) :=
  [Begin 0 (map_session 0); Begin 1 (map_session 1); Drive 4 0 0 0; Drive 4 1 0 0;
   Drive 40 0 0 0; Drive 40 1 0 0].

Definition openings_start : system Empty_set session_result memory :=
  sys_start (shared_start Memory.default).

Definition after_openings := play mem_proceed mem_invoke id openings openings_start.

#[global] Instance memory_empty_linearizes :
  BackendLinearizes Empty_set memory false false empty_astore (shared_start Memory.default)
    (λ m a, Memory.sim (sh_state m) a) := shared_linearizes _ _ Memory.sim_default.

Lemma openings_run :
  ∃ s, after_openings = Some s ∧
    map_sessions (J := unit) (a0 := empty_astore) (m0 := shared_start Memory.default)
      map1_builder map1 session_ops s ∧
    ∃ cl, sy_clients s !! 1 = Some cl ∧ cl_cur cl = Ret (Ok
      [OutVersion (Memory.token 3); OutEntries [("a", 1%N); ("b", 2%N)]]).
Proof.
  assert ((λ s, (sy_uuids s, got s 1)) <$> after_openings =
    Some ([], Some (Some (Ok [OutVersion (Memory.token 3);
      OutEntries [("a", 1%N); ("b", 2%N)]]), [], []))) as Hlog by (vm_compute; reflexivity).
  destruct after_openings as [s|] eqn:Hs; [|discriminate Hlog].
  injection Hlog as Hus H1. exists s. split; [done|].
  apply got_returned in H1 as (cl & H1 & Hc & _).
  split; [|exact (ex_intro _ cl (conj H1 Hc))]. split.
  - reflexivity.
  - intros o Ho. simpl in Ho. by rewrite lookup_empty in Ho.
  - eapply (play_reachable mem_proceed mem_invoke id mem_proceed_ok mem_invoke_ok); exact Hs.
  - apply (play_ops mem_proceed mem_invoke id map_session openings openings_start s);
      [|done|exact Hs]. repeat constructor.
  - rewrite Hus. constructor.
Qed.

(** ** Retrying

    Clients 0 and 1 both read the map before either writes; client 1 is told of a conflict
    and inserts at its second attempt. *)

Abbreviation retry_result := (result Version (Error Empty_set unit)).

Definition insertion (t : nat) : string * N :=
  match t with 0 => ("c", 3%N) | _ => ("d", 4%N) end.

Definition inserting (t : nat) : io Empty_set retry_result :=
  insert_with_limit (J := unit) map1 (insertion t).1 (insertion t).2 2.

Definition retries : list (turn (E := Empty_set) (A := retry_result) (X := nat)) :=
  [Begin 0 (inserting 0); Begin 1 (inserting 1); Drive 4 0 0 0; Drive 4 1 0 0;
   Drive 40 0 0 0; Drive 40 1 0 0].

Definition retries_start : system Empty_set retry_result memory :=
  sys_start (memory_with (Map.location map1) (map1_doc two)).

Definition after_retries := play mem_proceed mem_invoke id retries retries_start.

Lemma retries_run :
  ∃ s, after_retries = Some s ∧
    retry_system (J := unit) (a0 := astore_with (Map.location map1) (map1_doc two))
      (m0 := memory_with (Map.location map1) (map1_doc two)) map1 two insertion 2 s ∧
    size (sy_clients s) = 2 ∧
    ∃ cl, sy_clients s !! 1 = Some cl ∧ cl_cur cl = Ret (Ok (Memory.token 3)) ∧
      cl_calls cl = [100; 101; 102; 103].
Proof.
  assert ((λ s, (sy_uuids s, size (sy_clients s), got s 1, cl_calls <$> sy_clients s !! 1)) <$>
    after_retries = Some ([], 2, Some (Some (Ok (Memory.token 3)), [], []),
      Some [100; 101; 102; 103])) as Hlog by (vm_compute; reflexivity).
  destruct after_retries as [s|] eqn:Hs; [|discriminate Hlog].
  injection Hlog as Hus Hsize H1 Hcalls. exists s. split; [done|].
  apply got_returned in H1 as (cl & H1 & Hc & _). rewrite H1 in Hcalls. injection Hcalls as Hcalls.
  split; [|exact (conj Hsize (ex_intro _ cl (conj H1 (conj Hc Hcalls))))]. split.
  - apply map1_holds.
  - eapply (play_reachable mem_proceed mem_invoke id mem_proceed_ok mem_invoke_ok); exact Hs.
  - apply (play_ops mem_proceed mem_invoke id inserting retries retries_start s);
      [|done|exact Hs]. repeat constructor.
  - rewrite Hus. constructor.
Qed.

Lemma insert_with_limit_succeeds_witness :
  ∃ s cl, after_retries = Some s ∧ sy_clients s !! 1 = Some cl ∧
    length (cl_calls cl) = 4 ∧ calls_within 4 (cl_op cl).
Proof.
  destruct retries_run as (s & Hrun & Hs & Hsize & cl & H1 & _ & Hcalls).
  exists s, cl. split; [exact Hrun|]. split; [exact H1|]. split; [by rewrite Hcalls|].
  exact (proj1 (insert_with_limit_succeeds map1 two insertion 2 s Hs
    ltac:(rewrite Hsize; exact (le_n 2)) 1 cl H1)).
Defined.
