(* ===== verification/FilesystemWorkers.v ===== *)
(** * Workers on a directory

    Executions on the filesystem adapter that apply the theorems of [QueueSystem],
    [SharedStructures] and [Portable]: workers of a queue, and processes that are alone. *)

From S2P Require Import Prelude.
From S2P Require Import Program.
From S2P Require Import ObjectStore.
From S2P Require Import Json.
From S2P Require Import WorkQueue.
From S2P Require Import QueueRefinement.
From S2P Require Import QueueHistory.
From S2P Require Import Linearization.
From S2P Require Import Concurrent.
From S2P Require Import ConcurrentQueue.
From S2P Require Import Scenarios.
From S2P Require Import FileSystem.
From S2P Require Import Envelope.
From S2P Require Import FilesystemStore.
From S2P Require Import FilesystemMachine.
From S2P Require Import FilesystemPaths.
From S2P Require Import FilesystemScenarios.
From S2P Require Import Composition.
From S2P Require Import SystemLinearizable.
From S2P Require Import QueueSystem.
From S2P Require Import Sharing.
From S2P Require Import SharedStructures.
From S2P Require Import MemoryStore.
From S2P Require Import StructMap.
From S2P Require Import CoreTypes.
From S2P Require Import Portable.
From S2P Require Import Backends.
From S2P Require Import SystemScheduler.

(** ** Workers on a directory *)

Definition call_okb (c : call) : bool :=
  match c with
  | Get l => managed l
  | Create l b | Replace l _ b => managed l && bool_decide (N.of_nat (length b) ≤ u64_max)%N
  | NowMillis | NowV7 => false
  end.

Lemma call_okb_ok c : call_okb c = true → call_ok c.
Proof.
  destruct c; simpl; try done; intros [? ?%bool_decide_eq_true]%andb_true_iff; by split.
Qed.

Definition fs_invoke (i : nat) (c : call) (m : machine) : option machine :=
  if call_okb c then fs_act (Invoke i c) m else None.

Definition fs_proceed (x : fs_action) (m : machine) : option machine :=
  match x with
  | Invoke _ _ => None
  | Act i | Crash i => if decide (is_Some (m_ops m !! i)) then fs_act x m else None
  end.

Lemma fs_invoke_ok i c m m' :
  fs_invoke i c m = Some m' →
  bk_step m m' ∧ bk_ops m !! i = None ∧ bk_ops m' = <[i := MkOperation c None]> (bk_ops m).
Proof.
  unfold fs_invoke. destruct (call_okb c) eqn:Hc; [|done]. intros Hx. split.
  - eapply (fs_act_step call_ok (Invoke i c)); [|exact Hx]. intros t c' [= -> ->].
    by apply call_okb_ok.
  - simpl in Hx. case_decide; [|done]. by injection Hx as <-.
Qed.

Lemma fs_proceed_ok x m m' :
  fs_proceed x m = Some m' →
  bk_step m m' ∧ ∀ i, bk_ops m !! i = None → bk_ops m' !! i = None.
Proof.
  assert (∀ x, (∀ i c, x ≠ Invoke i c) → fs_act x m = Some m' → bk_step m m') as Hstep.
  { intros y Hy Hx. eapply (fs_act_step call_ok y); [|exact Hx].
    intros i c ->. by destruct (Hy i c). }
  destruct x as [i c|i|i]; [done|..]; unfold fs_proceed; (case_decide as Hi; [|done]);
    intros Hx; (split; [by eapply Hstep; [|exact Hx]|]); simpl in *.
  - destruct (m_threads m !! i) as [[c p]|] eqn:Hp; simpl in Hx; [|done].
    intros j Hj. destruct p as [r| |fc k]; [|done|].
    + injection Hx as <-. simpl. rewrite lookup_insert_ne; [done|]. intros ->.
      rewrite Hj in Hi. by destruct Hi.
    + case_decide; [|done]. destruct (fs_normal _ _ _ _) as [[r s]|]; [|done]. by injection Hx as <-.
  - destruct (m_threads m !! i); simpl in Hx; [|done]. by injection Hx as <-.
Qed.

Definition queue_path : path := ["n"; "queues"; "q.json"].

(** The directory after an empty queue was created. *)
Definition queue_machine : machine :=
  MkMachine (MkFsState {[ [Filesystem.LOCKS] := Dir; ["n"] := Dir; ["n"; "queues"] := Dir;
    queue_path := File (envelope 0 (queue1_doc [])) ]} ∅ [0%N]) ∅ ∅ [].

Definition queue_store : astore :=
  put (Queue.location queue1) (queue1_doc []) (version_of 0) empty_astore.

Lemma queue_initial : initial queue_store queue_machine.
Proof.
  split; try done.
  - intros l Hl. simpl. destruct (decide (l = Queue.location queue1)) as [->|Hne].
    + rewrite lookup_insert_eq. vm_compute. reflexivity.
    + rewrite lookup_insert_ne, lookup_empty by done. unfold file_at.
      destruct (_ !! object_file l) as [[]|] eqn:Hf; try done. exfalso. apply Hne.
      repeat (apply lookup_insert_Some in Hf as [[Heq [=]]|[_ Hf]]).
      apply lookup_singleton_Some in Hf as [Heq _]. by apply object_file_inj.
  - intros l u Hu [b Hb]. simpl in Hb. apply lookup_insert_Some in Hb as [[[= _ Hv] _]|[_ Hb]].
    + apply list_elem_of_singleton. symmetry. by apply uuid_to_string_inj.
    + by rewrite lookup_empty in Hb.
Qed.

Abbreviation queue_result := (result (queue_output N) (Queue.Error FsError.StoreError unit)).

Definition worker_ops (t : nat) : queue_op N :=
  match t with
  | 0 => QPublish 7%N
  | 4 => QAck (Queue.MkMessageId 30) (Queue.MkLeaseToken 33)
  | _ => QClaim ten_millis
  end.

Definition worker (t : nat) : io FsError.StoreError queue_result := queue_run queue1 (worker_ops t).

(** Worker 0 publishes a message.  Workers 1 and 2 both find it available; worker 2 takes
    it, and worker 1, which was about to, sees a conflict.  After the deadline worker 3
    takes it over, and acknowledges it as worker 4; worker 5 claims once more and
    crashes while it holds the lock. *)
Definition roster : list (turn (E := FsError.StoreError) (A := queue_result) (X := fs_action)) :=
  [Begin 0 (worker 0); Drive 100 0 30 0; Begin 1 (worker 1); Begin 2 (worker 2);
   Drive 16 1 31 5; Drive 100 2 32 5; Drive 100 1 31 5; Begin 3 (worker 3); Drive 100 3 33 20;
   Begin 5 (worker 5); Drive 8 5 35 22; Do (Crash 500);
   Begin 4 (worker 4); Drive 100 4 34 25].

Definition roster_start : system FsError.StoreError queue_result machine := sys_start queue_machine.

Definition after_roster := play fs_proceed fs_invoke Act roster roster_start.

Definition roster_claim (u attempt deadline : N) : Queue.Claim N :=
  Queue.MkClaim (Queue.MkMessageId 30) 7%N (Queue.MkLeaseToken u) attempt deadline.

#[global] Instance queue_machine_linearizes :
  BackendLinearizes FsError.StoreError machine false false queue_store queue_machine
    (λ m a, represents (tree (m_fs m)) a) := filesystem_linearizes _ _ queue_initial.

Lemma roster_runs :
  ∃ s, after_roster = Some s ∧
    queue_system (a0 := queue_store) (m0 := queue_machine) (J := unit) queue1 worker_ops s ∧
    worker_got s 2 (OutClaim (Some (roster_claim 32 1 15))) [5]%N [32]%N ∧
    worker_got s 3 (OutClaim (Some (roster_claim 33 2 30))) [20]%N [33]%N ∧
    worker_got s 4 (OutAck Queue.Acknowledged) [25]%N [].
Proof.
  assert ((λ s, (sy_uuids s, got s 2, got s 3, got s 4)) <$> after_roster =
    Some ([30; 31; 32; 33]%N,
      Some (Some (Ok (OutClaim (Some (roster_claim 32 1 15)))), [5]%N, [32]%N),
      Some (Some (Ok (OutClaim (Some (roster_claim 33 2 30)))), [20]%N, [33]%N),
      Some (Some (Ok (OutAck Queue.Acknowledged)), [25]%N, []))) as Hlog
    by (vm_compute; reflexivity).
  destruct after_roster as [s|] eqn:Hs; [|discriminate Hlog].
  injection Hlog as Hus H2 H3 H4. exists s. split; [done|].
  split; [|split_and!; by apply got_returned]. split.
  - apply put_coherent, empty_coherent.
  - split; [apply sorted_by_nil|]. eexists. split; [apply lookup_insert_eq|].
    by apply (queue_decodes_written queue1).
  - eapply (play_reachable fs_proceed fs_invoke Act fs_proceed_ok fs_invoke_ok); exact Hs.
  - apply (play_ops fs_proceed fs_invoke Act worker roster roster_start s); [|done|exact Hs].
    repeat constructor.
  - rewrite Hus. apply (bool_decide_eq_true_1 (NoDup [30; 31; 32; 33]%N)).
    vm_compute; reflexivity.
Qed.

Lemma queue_leases_exclusive_witness : (15 ≤ 20)%N ∨ (30 ≤ 5)%N.
Proof.
  destruct roster_runs as (s & _ & Hs & H2 & H3 & _).
  destruct (queue_leases_exclusive queue1 worker_ops s 2 3
    _ _ _ _ _ _ Hs ltac:(done) H2 H3 eq_refl) as (n1 & n2 & Hn1 & Hn2 & _ & _ & Hor & _).
  injection Hn1 as <-. injection Hn2 as <-. exact Hor.
Defined.

Lemma queue_ack_authorized_witness :
  ∃ now t d now', now = 25%N ∧ worker_ops t = QClaim d ∧ (now < now' + as_millis d)%N.
Proof.
  destruct roster_runs as (s & _ & Hs & _ & _ & H4).
  destruct (queue_ack_authorized queue1 worker_ops s 4 _ _ _ _ Hs eq_refl H4)
    as (now & t & d & now' & cl & Hnow & Hop & _ & _ & _ & _ & Hlt).
  injection Hnow as <-. by exists 25%N, t, d, now'.
Defined.

Lemma queue_claim_delivers_witness :
  ∃ t, worker_ops t = QPublish 7%N ∧ (20 < 30 ≤ u64_max)%N.
Proof.
  destruct roster_runs as (s & _ & Hs & _ & H3 & _).
  destruct (queue_claim_delivers queue1 worker_ops s 3 _ _ _ Hs H3)
    as (now & d & _ & Hnow & _ & _ & Hmax & _ & t & cl & _ & Hop & _).
  injection Hnow as <-. exists t. split; [exact Hop|exact Hmax].
Defined.

(** In the execution above worker 2 changed the queue, atomically. *)
Lemma system_linearizable_witness :
  ∃ s (c : config FsError.StoreError queue_result), after_roster = Some s ∧ linearized queue_store c ∧
    represents (tree (m_fs (sy_backend s))) (c_store c) ∧
    ∃ th, c_threads c !! 2 = Some th ∧
      t_cur th = Ret (Ok (OutClaim (Some (roster_claim 32 1 15))) : queue_result).
Proof.
  destruct roster_runs as (s & Hrun & [Hcoh _ Hsteps Hcl _] & (cl & Ht & Hcur & _) & _).
  destruct (system_linearizable s Hcoh Hsteps) as (c & Hlin & Hholds & Hex).
  { intros t cl' Ht'. rewrite (Hcl t cl' Ht'). apply queue_run_disciplined. }
  exists s, c. split; [exact Hrun|]. split; [exact Hlin|]. split; [exact Hholds|].
  destruct (ex_returned _ _ Hex 2 cl _ Ht Hcur) as (th & Hth & _ & Hx & _). exists th. exact (conj Hth Hx).
Defined.

(** ** Sessions

    Two workers open or create the queue at the same time in an empty directory: both find
    nothing there, one creates it, and the other opens what was created.  The first
    publishes a message, and the second claims it. *)

Abbreviation queue_session_result :=
  (result (list (queue_output N)) (Queue.Error FsError.StoreError unit)).

Definition queue_session_ops (t : nat) : list (queue_op N) :=
  match t with 0 => [QPublish 7%N] | _ => [QClaim ten_millis; QLen] end.

Definition queue_session (t : nat) : io FsError.StoreError queue_session_result :=
  session (Queue.open_or_create (J := unit) (V := N) queue1_builder) queue_run
    (queue_session_ops t).

Definition arrivals :
    list (turn (E := FsError.StoreError) (A := queue_session_result) (X := fs_action)) :=
  [Begin 0 (queue_session 0); Begin 1 (queue_session 1); Drive 9 0 40 0; Drive 9 1 41 0;
   Drive 300 0 40 0; Drive 300 1 41 5].

Definition arrivals_start : system FsError.StoreError queue_session_result machine :=
  sys_start empty_machine.

Definition after_arrivals := play fs_proceed fs_invoke Act arrivals arrivals_start.

#[global] Instance empty_machine_linearizes :
  BackendLinearizes FsError.StoreError machine false false empty_astore empty_machine
    (λ m a, represents (tree (m_fs m)) a) := filesystem_linearizes _ _ empty_initial.

Lemma arrivals_run :
  ∃ s, after_arrivals = Some s ∧
    queue_sessions (J := unit) (a0 := empty_astore) (m0 := empty_machine)
      queue1_builder queue1 queue_session_ops s ∧
    ∃ cl, sy_clients s !! 1 = Some cl ∧
      cl_cur cl = Ret (Ok [OutClaim (Some (Queue.MkClaim (Queue.MkMessageId 40) 7%N
        (Queue.MkLeaseToken 41) 1 15)); OutLen 1]).
Proof.
  assert ((λ s, (sy_uuids s, got s 1)) <$> after_arrivals =
    Some ([40; 41]%N, Some (Some (Ok [OutClaim (Some (Queue.MkClaim (Queue.MkMessageId 40) 7%N
      (Queue.MkLeaseToken 41) 1 15)); OutLen 1]), [5]%N, [41]%N))) as Hlog
    by (vm_compute; reflexivity).
  destruct after_arrivals as [s|] eqn:Hs; [|discriminate Hlog].
  injection Hlog as Hus H1. exists s. split; [done|].
  apply got_returned in H1 as (cl & H1 & Hc & _).
  split; [|exact (ex_intro _ cl (conj H1 Hc))]. split.
  - reflexivity.
  - apply lookup_empty.
  - eapply (play_reachable fs_proceed fs_invoke Act fs_proceed_ok fs_invoke_ok); exact Hs.
  - apply (play_ops fs_proceed fs_invoke Act queue_session arrivals arrivals_start s);
      [|done|exact Hs]. repeat constructor.
  - rewrite Hus. apply (bool_decide_eq_true_1 (NoDup [40; 41]%N)). vm_compute; reflexivity.
Qed.

Lemma queue_opened_concurrently_witness :
  ∃ s a (ms : list (Queue.Message N)), after_arrivals = Some s ∧
    represents (tree (m_fs (sy_backend s))) a ∧ queue_holds (J := unit) queue1 a ms.
Proof.
  destruct arrivals_run as (s & Hrun & Hs & cl & H1 & Hc).
  destruct (queue_opened_concurrently queue1_builder queue1 queue_session_ops s Hs)
    as (a & Hrep & Hq & Hres).
  specialize (Hres 1 cl H1). rewrite Hc in Hres. cbn [session_stands] in Hres.
  destruct Hq as [Hn|[ms Hms]].
  - exfalso. rewrite Hn in Hres. destruct Hres as [o Ho]. discriminate Ho.
  - exists s, a, ms. exact (conj Hrun (conj Hrep Hms)).
Defined.

(** The message that the first worker published and the second claimed. *)
Lemma queue_documents_typed_witness :
  ∃ s a, after_arrivals = Some s ∧ represents (tree (m_fs (sy_backend s))) a ∧
    sy_uuids s = [40; 41]%N ∧
    ∀ o, cur a !! Queue.location queue1 = Some o → ∃ ms : list (Queue.Message N),
      queue_decodes (J := unit) queue1 (object_bytes o) ms ∧
      sorted_by Queue.key ms ∧ Forall (message_typed [40; 41]%N) ms.
Proof.
  destruct arrivals_run as (s & Hrun & Hs & _).
  destruct (queue_documents_typed queue1_builder queue1 queue_session_ops s Hs)
    as (a & Hrep & Hty).
  assert (sy_uuids s = [40; 41]%N) as Hus.
  { assert (sy_uuids <$> after_arrivals = Some [40; 41]%N) as Hlog by (vm_compute; reflexivity).
    rewrite Hrun in Hlog. injection Hlog as ->. reflexivity. }
  rewrite Hus in Hty. exists s, a. exact (conj Hrun (conj Hrep (conj Hus Hty))).
Defined.

(** ** A process alone on a directory, and in memory *)

Definition same_draws : Env := {| env_millis := λ _, 5%N; env_uuid := λ _, 40%N |}.

Lemma singleton_of_size {A} (cls : gmap nat A) t cl :
  size cls = 1 → cls !! t = Some cl → cls = {[t := cl]}.
Proof.
  intros Hsize Ht. rewrite <- (insert_delete_id cls t cl Ht).
  assert (delete t cls = ∅) as ->; [|by rewrite insert_empty].
  apply map_size_empty_iff. rewrite map_size_delete_Some by (by eexists). lia.
Qed.

Lemma objects_alike_empty : objects_alike empty_astore Memory.default.
Proof. intros l. simpl. by rewrite !lookup_empty. Qed.

Lemma draws_from_constant us cs :
  Forall (λ u, u = 40%N) us → Forall (λ t, t = 5%N) cs → draws_from same_draws us cs.
Proof.
  intros Hus Hcs. split; intros n x Hx; simpl; symmetry.
  - exact (proj1 (Forall_lookup _ _) Hus n x Hx).
  - exact (proj1 (Forall_lookup _ _) Hcs n x Hx).
Qed.

Definition run_alone {A} (p : io FsError.StoreError A) : option (system FsError.StoreError A machine) :=
  play fs_proceed fs_invoke Act [Begin 0 p; Drive 500 0 40 5] (sys_start empty_machine).

Lemma runs_alone {A} (p : io FsError.StoreError A) s x us cs :
  run_alone p = Some s → size (sy_clients s) = 1 → got s 0 = Some (Some x, cs, us) →
  Forall (λ u, u = 40%N) us → Forall (λ t, t = 5%N) cs →
  ∃ cl, alone (a0 := empty_astore) (m0 := empty_machine) same_draws Memory.default s 19 0 cl ∧
    cl_op cl = p ∧ cl_cur cl = Ret x.
Proof.
  intros Hs Hsize (cl & H0 & Hc & Hcs & Hus)%got_returned Hall40 Hall5. exists cl.
  split; [|split; [|exact Hc]].
  - split.
    + exact objects_alike_empty.
    + eapply (play_reachable fs_proceed fs_invoke Act fs_proceed_ok fs_invoke_ok); exact Hs.
    + exact (singleton_of_size _ _ _ Hsize H0).
    + rewrite Hcs, Hus. by apply draws_from_constant.
    + apply (bool_decide_eq_true_1 (0 + 19 ≤ u64_max)%N). vm_compute; reflexivity.
  - apply (play_ops fs_proceed fs_invoke Act (λ _, p) [Begin 0 p; Drive 500 0 40 5]
      (sys_start empty_machine) s) with (t := 0); [|done|exact Hs|exact H0]. repeat constructor.
Qed.

(** One worker publishes, claims and acknowledges with a wrong token. *)
Definition alone_queue_ops : list (queue_op N) :=
  [QPublish 7%N; QClaim ten_millis; QAck (Queue.MkMessageId 40) (Queue.MkLeaseToken 1); QLen].

Definition alone_queue : io FsError.StoreError queue_session_result :=
  session (Queue.open_or_create (J := unit) (V := N) queue1_builder) queue_run alone_queue_ops.

Definition after_alone_queue := run_alone alone_queue.

Definition alone_queue_outputs : list (queue_output N) :=
  [OutPublished (Queue.MkMessageId 40);
   OutClaim (Some (Queue.MkClaim (Queue.MkMessageId 40) 7%N (Queue.MkLeaseToken 40) 1 15));
   OutAck Queue.LeaseMismatch; OutLen 1].

Lemma alone_queue_run :
  ∃ s cl, after_alone_queue = Some s ∧
    alone (a0 := empty_astore) (m0 := empty_machine) same_draws Memory.default s 19 0 cl ∧
    cl_op cl = alone_queue ∧ cl_cur cl = Ret (Ok alone_queue_outputs).
Proof.
  assert ((λ s, (size (sy_clients s), got s 0)) <$> after_alone_queue =
    Some (1, Some (Some (Ok alone_queue_outputs), [5; 5]%N, [40; 40]%N))) as Hlog
    by (vm_compute; reflexivity).
  destruct after_alone_queue as [s|] eqn:Hs; [|discriminate Hlog].
  injection Hlog as Hsize H0.
  destruct (runs_alone alone_queue s _ _ _ Hs Hsize H0) as (cl & Hcl); [repeat constructor..|].
  exists s, cl. split; [done|exact Hcl].
Qed.

(** What the filesystem returned is what the in-memory adapter returns. *)
Lemma queue_session_portable_witness :
  ∃ s mw, after_alone_queue = Some s ∧
    run (handle (H := Memory.checked_store) same_draws)
      (session (Queue.open_or_create (J := unit) (V := N) queue1_builder) queue_run alone_queue_ops)
      (MkWorld Memory.default 0 0) = Some (Ok alone_queue_outputs, mw).
Proof.
  destruct alone_queue_run as (s & cl & Hs & Halone & Hop & Hc).
  destruct (queue_session_portable same_draws Memory.default queue1_builder alone_queue_ops s 0
    cl _ Halone Hop Hc) as [[]|(a & x2 & mw & _ & Hrun & Hx & _)].
  exists s, mw. split; [exact Hs|]. destruct x2 as [x2|e]; [|destruct Hx].
  apply list_eq_Forall2 in Hx. subst x2. exact Hrun.
Defined.

(** A process inserts twice under one key and removes what it inserted. *)
Definition alone_map_ops : list (map_op N) :=
  [OpInsert "a" 1%N; OpInsertIfAbsent "a" 2%N; OpRemove "a"; OpEntries].

Abbreviation map_session_result := (result (list (map_output N)) (Core.Error FsError.StoreError unit)).

Definition alone_map : io FsError.StoreError map_session_result :=
  session (Map.open_or_create (J := unit) (V := N) map1_builder) map_run alone_map_ops.

Definition after_alone_map := run_alone alone_map.

Definition alone_map_outputs : list (map_output N) :=
  [OutVersion (version_new "2"); OutInsert (Map.Occupied 1%N); OutValue (Some 1%N);
   OutEntries []].

Lemma alone_map_run :
  ∃ s cl, after_alone_map = Some s ∧
    alone (a0 := empty_astore) (m0 := empty_machine) same_draws Memory.default s 19 0 cl ∧
    cl_op cl = alone_map ∧ cl_cur cl = Ret (Ok alone_map_outputs).
Proof.
  assert ((λ s, (size (sy_clients s), got s 0)) <$> after_alone_map =
    Some (1, Some (Some (Ok alone_map_outputs), [], []))) as Hlog by (vm_compute; reflexivity).
  destruct after_alone_map as [s|] eqn:Hs; [|discriminate Hlog].
  injection Hlog as Hsize H0.
  destruct (runs_alone alone_map s _ _ _ Hs Hsize H0) as (cl & Hcl); [repeat constructor..|].
  exists s, cl. split; [done|exact Hcl].
Qed.

(** In memory the versions are others. *)
Lemma map_session_portable_witness :
  ∃ s mw xs, after_alone_map = Some s ∧
    run (handle (H := Memory.checked_store) same_draws)
      (session (Map.open_or_create (J := unit) (V := N) map1_builder) map_run alone_map_ops)
      (MkWorld Memory.default 0 0) = Some (Ok xs, mw) ∧
    Forall2 same_map_output alone_map_outputs xs.
Proof.
  destruct alone_map_run as (s & cl & Hs & Halone & Hop & Hc).
  destruct (map_session_portable same_draws Memory.default map1_builder alone_map_ops
    s 0 cl _ Halone Hop Hc) as [[]|(a & x2 & mw & _ & Hrun & Hx & _)].
  destruct x2 as [xs|e]; [|destruct Hx].
  exists s, mw, xs. split; [exact Hs|]. split; [exact Hrun|exact Hx].
Defined.
