(* ===== verification/S3Workers.v ===== *)
(** * Workers on a bucket

    An execution of queue workers on the S3 adapter in which an acknowledgement fails
    and is applied later. *)

From S2P Require Import Prelude.
From S2P Require Import Program.
From S2P Require Import ObjectStore.
From S2P Require Import Json.
From S2P Require Import WorkQueue.
From S2P Require Import QueueRefinement.
From S2P Require Import QueueHistory.
From S2P Require Import Linearization.
From S2P Require Import Concurrent.
From S2P Require Import Scenarios.
From S2P Require Import S3Store.
From S2P Require Import S3Machine.
From S2P Require Import S3Scenarios.
From S2P Require Import Composition.
From S2P Require Import SystemLinearizable.
From S2P Require Import QueueSystem.
From S2P Require Import Backends.
From S2P Require Import SystemScheduler.

#[local] Existing Instance s3_backend.
#[local] Instance data_backend : Backend S3.StoreError s3_machine := s3_backend "data".

Definition bucket_invoke (i : nat) (c : call) (m : s3_machine) : option s3_machine :=
  s3_act (S3Begin i c) m.

Definition bucket_proceed (x : s3_action) (m : s3_machine) : option s3_machine :=
  match x with
  | S3Begin _ _ => None
  | S3Act i => if decide (is_Some (m_ops m !! i)) then s3_act x m else None
  | _ => s3_act x m
  end.

Lemma bucket_invoke_ok i c m m' :
  bucket_invoke i c m = Some m' →
  bk_step m m' ∧ bk_ops m !! i = None ∧ bk_ops m' = <[i := MkOperation c None]> (bk_ops m).
Proof.
  intros Hx. split; [by apply (s3_act_step (S3Begin i c))|].
  unfold bucket_invoke in Hx. simpl in Hx. case_decide as Hd; [|done]. destruct Hd.
  by injection Hx as <-.
Qed.

Lemma bucket_proceed_ok x m m' :
  bucket_proceed x m = Some m' →
  bk_step m m' ∧ ∀ i, bk_ops m !! i = None → bk_ops m' !! i = None.
Proof.
  intros Hx.
  assert (s3_act x m = Some m') as Hact.
  { destruct x; simpl in *; try done. by case_decide. }
  split; [by apply (s3_act_step x)|]. intros j Hj. destruct x as [i c|i|i|i|i]; simpl in *.
  - done.
  - case_decide as Hi; [|done]. destruct (m_threads m !! i) as [[c p]|]; simpl in Hact; [|done].
    destruct p as [r| |sc k]; [|done|].
    + injection Hact as <-. simpl. rewrite lookup_insert_ne; [done|]. intros ->.
      rewrite Hj in Hi. by destruct Hi.
    + destruct (serve sc _) as [[r srv]|]; simpl in Hact; [|done]. by injection Hact as <-.
  - destruct (m_threads m !! i) as [[c p]|]; simpl in Hact; [|done].
    destruct p as [r| |[|q] k]; try done. by injection Hact as <-.
  - destruct (m_flight m !! i) as [q|]; simpl in Hact; [|done].
    destruct (serve_put q _) as [[v srv]|]; simpl in Hact; [|done]. by injection Hact as <-.
  - by injection Hact as <-.
Qed.

(** The bucket after an empty queue was created. *)
Definition bucket_store : astore :=
  put (Queue.location queue1) (queue1_doc []) (version_new "e") empty_astore.

Definition queue_bucket : s3_machine := MkS3Machine {["data" := bucket_store]} ∅ ∅ ∅ [].

Lemma queue_bucket_initial : s3_initial "data" bucket_store queue_bucket.
Proof. by split. Qed.

Abbreviation bucket_result := (result (queue_output N) (Queue.Error S3.StoreError unit)).

Definition bucket_ops (t : nat) : queue_op N :=
  match t with
  | 0 => QPublish 7%N
  | 1 => QClaim ten_millis
  | _ => QAck (Queue.MkMessageId 30) (Queue.MkLeaseToken 31)
  end.

Definition bucket_worker (t : nat) : io S3.StoreError bucket_result :=
  queue_run queue1 (bucket_ops t).

(** Worker 0 publishes a message and worker 1 claims it.  The write of the
    acknowledgement of worker 2 times out, and the worker is told so; the message is
    still there for worker 3, which is about to acknowledge it too when the write of
    worker 2 arrives, and sees a conflict. *)
Definition late_ack : list (turn (E := S3.StoreError) (A := bucket_result) (X := s3_action)) :=
  [Begin 0 (bucket_worker 0); Drive 100 0 30 0; Begin 1 (bucket_worker 1); Drive 100 1 31 5;
   Begin 2 (bucket_worker 2); Drive 6 2 32 6; Do (S3TimeOut 201); Drive 100 2 32 6;
   Begin 3 (bucket_worker 3); Drive 5 3 33 7; Do (S3Arrive 201); Drive 100 3 33 7].

Definition bucket_start : system S3.StoreError bucket_result s3_machine := sys_start queue_bucket.

Definition after_late_ack := play bucket_proceed bucket_invoke S3Act late_ack bucket_start.

#[global] Instance queue_bucket_linearizes :
  BackendLinearizes S3.StoreError s3_machine true true bucket_store queue_bucket
    (λ m a, m_server m !! "data" = Some a) := s3_linearizes "data" _ _ queue_bucket_initial.

Lemma late_ack_runs :
  ∃ s, after_late_ack = Some s ∧
    queue_system (a0 := bucket_store) (m0 := queue_bucket) (J := unit) queue1 bucket_ops s ∧
    worker_got s 0 (OutPublished (Queue.MkMessageId 30)) [] [30]%N ∧
    got s 2 = Some (Some (Err (Queue.Store (S3.Transport None))), [6]%N, []).
Proof.
  assert ((λ s, (sy_uuids s, got s 0, got s 2)) <$> after_late_ack =
    Some ([30; 31]%N, Some (Some (Ok (OutPublished (Queue.MkMessageId 30))), [], [30]%N),
      Some (Some (Err (Queue.Store (S3.Transport None))), [6]%N, []))) as Hlog
    by (vm_compute; reflexivity).
  destruct after_late_ack as [s|] eqn:Hs; [|discriminate Hlog].
  injection Hlog as Hus H0 H2. exists s. split; [done|].
  split; [|split; [by apply got_returned|done]]. split.
  - apply put_coherent, empty_coherent.
  - split; [apply sorted_by_nil|]. eexists. split; [apply lookup_insert_eq|].
    by apply (queue_decodes_written queue1).
  - eapply (play_reachable bucket_proceed bucket_invoke S3Act bucket_proceed_ok bucket_invoke_ok);
      exact Hs.
  - apply (play_ops bucket_proceed bucket_invoke S3Act bucket_worker late_ack bucket_start s);
      [|done|exact Hs]. repeat constructor.
  - rewrite Hus. apply (bool_decide_eq_true_1 (NoDup [30; 31]%N)). vm_compute; reflexivity.
Qed.

Lemma queue_at_least_once_witness :
  ∃ s a (ms : list (Queue.Message N)), after_late_ack = Some s ∧
    m_server (sy_backend s) !! "data" = Some a ∧ queue_holds (J := unit) queue1 a ms ∧
    (Queue.MkMessageId 30 ∈ Queue.id <$> ms ∨
     ∃ t tok, bucket_ops t = QAck (Queue.MkMessageId 30) tok).
Proof.
  destruct late_ack_runs as (s & Hrun & Hs & H0 & _).
  destruct (queue_at_least_once queue1 bucket_ops s Hs) as (a & ms & Ha & Hms & Hpub & _).
  exists s, a, ms. split; [exact Hrun|]. split; [exact Ha|]. split; [exact Hms|].
  destruct (Hpub 0 _ _ _ H0) as [Hin|(t & tok & _ & _ & Hop & _)]; [by left|right].
  by exists t, tok.
Defined.
