(* ===== verification/Binding.v ===== *)
(** * The Node.js binding (objsds-napi/src/lib.rs)

    A native client gives JavaScript numeric handles to the structures it opened and
    exchanges values as JSON text.  An operation is a task of a worker pool: a program
    whose calls are those of the core crates and those on the client's registry of
    handles.  serde_json's values and the text of UUIDs are parameters.

    The model is generic in the store [S] and its errors [E], as [open_map] and the
    implementations of [BoundMap], [BoundLog] and [BoundQueue] are; the enums [Client]
    and [QueueClient] only pair each client with its own store type.  Arguments that
    Node-API converts arrive converted; that a cancelled task may never start is left
    to the machine of BindingMachine. *)

From S2P Require Import Prelude.
From S2P Require Import Program.
From S2P Require Import ObjectStore.
From S2P Require Import Json.
From S2P Require Import CoreTypes.
From S2P Require Import StructMap.
From S2P Require Import StructLog.
From S2P Require Import Client.
From S2P Require Import WorkQueue.
From S2P Require Import Envelope.
From S2P Require Import MemoryStore.
From S2P Require Import FilesystemStore.
From S2P Require Import S3Store.
Import Core.

(** ** serde_json *)

(** [Value], as [json!] builds it, [from_str], and [from_value] at the identifiers of
    the source, which are transparent around a UUID. *)
Class JsonValues (J Value : Type) := {
  json_null : Value;
  json_bool : bool → Value;
  json_number : N → Value;
  json_str : string → Value;
  json_object : list (string * Value) → Value;
  value_display : Value → string;
  from_str : string → result Value J;
  uuid_from_value : Value → result Uuid J;
}.

(** [serde_json::to_string] and [serde_json::to_value] of a serializable type. *)
Class Serializable (J Value T : Type) := {
  json_text : T → result string J;
  to_value : T → result Value J;
}.

(** The types the binding encodes, and the documents of structures of JSON values. *)
Class BindingCodec (J Value : Type) := {
  codec_value :: Serializable J Value Value;
  codec_number :: Serializable J Value N;
  codec_string :: Serializable J Value string;
  codec_bool :: Serializable J Value bool;
  codec_entries :: Serializable J Value (list (string * Value));
  codec_record :: Serializable J Value (Log.LogRecord Value);
  codec_records :: Serializable J Value (list (Log.LogRecord Value));
  codec_map_to :: ToJson J (Map.MapDocument Value);
  codec_owned_map_to :: ToJson J (Map.OwnedMapDocument Value);
  codec_owned_map_from :: FromJson J (Map.OwnedMapDocument Value);
  codec_log_to :: ToJson J (Log.LogDocument Value);
  codec_log_from :: FromJson J (Log.LogDocument Value);
  codec_queue_to :: ToJson J (Queue.QueueDocument Value);
  codec_queue_from :: FromJson J (Queue.QueueDocument Value);
}.

(** [Duration::from_millis]. *)
Definition Duration_from_millis (millis : N) : Duration :=
  MkDuration (millis / 1000) (millis mod 1000 * 1000000).

Lemma as_millis_from_millis n : as_millis (Duration_from_millis n) = n.
Proof.
  unfold as_millis, Duration_from_millis. simpl.
  replace (n mod 1000 * 1000000 / 1000000)%N with (n mod 1000)%N
    by (symmetry; by apply N.div_mul).
  pose proof (N.div_mod n 1000). lia.
Qed.

#[export] Instance S3_BuildError_to_string `{!S3Client} : Display S3.BuildError :=
  S3.BuildError_display.
#[export] Instance S3_StoreError_to_string `{!S3Client} : Display S3.StoreError :=
  S3.StoreError_display.
#[export] Instance FsError_BuildError_to_string : Display FsError.BuildError :=
  FsError.BuildError_display.
#[export] Instance FsError_StoreError_to_string : Display FsError.StoreError :=
  FsError.StoreError_display.

(** [Display] for the identifiers. *)
Definition LogId_display `{!UuidCrate} (id : Log.LogId) : string :=
  uuid_to_string (Log.logid_uuid id).
Definition MessageId_display `{!UuidCrate} (id : Queue.MessageId) : string :=
  uuid_to_string (Queue.message_uuid id).
Definition LeaseToken_display `{!UuidCrate} (token : Queue.LeaseToken) : string :=
  uuid_to_string (Queue.token_uuid token).

Module Napi.

(** ** Errors *)

(** [Status], of which the binding uses one value, and [napi::Error]. *)
Inductive Status := GenericFailure.
Record NapiError := MkNapiError { status : Status; reason : string }.
Abbreviation NapiResult A := (result A NapiError).

Definition ERROR_PREFIX : string := "OBJSDS_ERR_JSON:".

Section Errors.
Context {J Value : Type} `{!JsonValues J Value}.

Definition binding_error (code message : string) (details : Value) : NapiError :=
  let envelope := json_object
    [("code", json_str code); ("message", json_str message); ("details", details)] in
  MkNapiError GenericFailure (ERROR_PREFIX +:+ value_display envelope).

Definition invalid_handle : NapiError :=
  binding_error "ERR_OBJSDS_INVALID_HANDLE" "native data-structure handle is invalid"
    (json_object []).

Definition configuration_error {A} `{!Display A} (error : A) : NapiError :=
  binding_error "ERR_OBJSDS_INVALID_CONFIGURATION" (to_string error) (json_object []).

Context {E : Type} `{!Display E, !Display J}.

Definition operation_error (error : Error E J) : NapiError :=
  match error with
  | Configuration error => configuration_error error
  | Store error => binding_error "ERR_OBJSDS_STORE" (to_string error) (json_object [])
  | Document error => binding_error "ERR_OBJSDS_DOCUMENT" (to_string error) (json_object [])
  | NotFound =>
      binding_error "ERR_OBJSDS_NOT_FOUND" "data structure does not exist" (json_object [])
  | AlreadyExists error =>
      binding_error "ERR_OBJSDS_ALREADY_EXISTS" "data structure already exists"
        (json_object
           [("observedVersion", json_str (version_as_str (already_observed error)))])
  | Conflict error =>
      binding_error "ERR_OBJSDS_CONFLICT" "object version conflict"
        (json_object
           [("expectedVersion", json_str (version_as_str (conflict_expected error)));
            ("observedVersion",
              match conflict_observed error with
              | Some version => json_str (version_as_str version)
              | None => json_null
              end)])
  | Incompatible error =>
      binding_error "ERR_OBJSDS_INCOMPATIBLE" (to_string error) (json_object [])
  end.

Definition queue_error (error : Queue.Error E J) : NapiError :=
  match error with
  | Queue.Configuration error => configuration_error error
  | Queue.Store error => binding_error "ERR_OBJSDS_STORE" (to_string error) (json_object [])
  | Queue.Document error =>
      binding_error "ERR_OBJSDS_DOCUMENT" (to_string error) (json_object [])
  | Queue.Corrupt reason => binding_error "ERR_OBJSDS_DOCUMENT" reason (json_object [])
  | Queue.NotFound =>
      binding_error "ERR_OBJSDS_NOT_FOUND" "data structure does not exist" (json_object [])
  | Queue.AlreadyExists observed =>
      binding_error "ERR_OBJSDS_ALREADY_EXISTS" "data structure already exists"
        (json_object [("observedVersion", json_str (version_as_str observed))])
  | Queue.Conflict expected observed =>
      binding_error "ERR_OBJSDS_CONFLICT" "object version conflict"
        (json_object
           [("expectedVersion", json_str (version_as_str expected));
            ("observedVersion",
              match observed with
              | Some version => json_str (version_as_str version)
              | None => json_null
              end)])
  | Queue.Incompatible error =>
      binding_error "ERR_OBJSDS_INCOMPATIBLE" (to_string error) (json_object [])
  | Queue.InvalidLeaseDuration =>
      binding_error "ERR_OBJSDS_INVALID_CONFIGURATION" "invalid lease duration"
        (json_object [])
  | Queue.AttemptOverflow =>
      binding_error "ERR_OBJSDS_DOCUMENT" "message claim count overflowed" (json_object [])
  end.
End Errors.

(** ** Values *)

Section Values.
Context {J Value : Type} `{!JsonValues J Value, !Display J}.

Definition json_string {T} `{!Serializable J Value T} (value : T) : NapiResult string :=
  map_err (λ error, binding_error "ERR_OBJSDS_DOCUMENT"
             ("could not encode binding result: " +:+ to_string error) (json_object []))
    (json_text value).

(** [json!] unwraps the result of [to_value]: [None] is its panic. *)
Definition optional_json {T} `{!Serializable J Value T} `{!Serializable J Value Value}
    (value : option T) : option (NapiResult string) :=
  match value with
  | Some value =>
      value ← ok (to_value value);
      Some (json_string (json_object [("found", json_bool true); ("value", value)]))
  | None => Some (json_string (json_object [("found", json_bool false)]))
  end.

Definition parse_value (value : string) : NapiResult Value :=
  map_err (λ error, binding_error "ERR_OBJSDS_INVALID_JSON"
             ("invalid JSON value: " +:+ to_string error) (json_object []))
    (from_str value).

Definition parse_log_id (id : string) : NapiResult Log.LogId :=
  map_err (λ error, binding_error "ERR_OBJSDS_INVALID_LOG_ID"
             ("invalid log identifier: " +:+ to_string error)
             (json_object [("id", json_str id)]))
    (map_ok Log.MkLogId (uuid_from_value (json_str id))).

Definition parse_message_id (id : string) : NapiResult Queue.MessageId :=
  map_err (λ error, binding_error "ERR_OBJSDS_INVALID_MESSAGE_ID"
             ("invalid message identifier: " +:+ to_string error)
             (json_object [("id", json_str id)]))
    (map_ok Queue.MkMessageId (uuid_from_value (json_str id))).

Definition parse_lease_token (token : string) : NapiResult Queue.LeaseToken :=
  map_err (λ error, binding_error "ERR_OBJSDS_INVALID_LEASE_TOKEN"
             ("invalid lease token: " +:+ to_string error)
             (json_object [("token", json_str token)]))
    (map_ok Queue.MkLeaseToken (uuid_from_value (json_str token))).
End Values.

(** ** Bound structures *)

Section Bound.
Context {S E J Value : Type} `{!JsonValues J Value, !BindingCodec J Value, !UuidCrate,
  !Display E, !Display J}.
Implicit Types (value : Value).

(** [BoundMap for Map<S, Value>]. *)
Definition insert_if_absent_value (result : Map.InsertIfAbsent Value) : option Value :=
  match result with
  | Map.Inserted version =>
      Some (json_object [("inserted", json_bool true);
                         ("version", json_str (version_as_str version))])
  | Map.Occupied value =>
      value ← ok (to_value value);
      Some (json_object [("inserted", json_bool false); ("value", value)])
  end.

Section BoundMap.
Implicit Types (m : Map.Map S).

Definition map_get_json m (key : string) : io E (NapiResult string) :=
  let? value := prog_map_err operation_error (Map.get m key) in
  or_panic (optional_json value).

Definition map_entries_json m : io E (NapiResult string) :=
  let? entries := prog_map_err operation_error (Map.entries (V := Value) m) in
  Ret (json_string entries).

Definition map_insert_json m (key : string) value : io E (NapiResult string) :=
  let? version := prog_map_err operation_error (Map.insert m key value) in
  Ret (json_string (version_as_str version)).

Definition map_insert_if_absent_json m (key : string) value : io E (NapiResult string) :=
  let? result := prog_map_err operation_error (Map.insert_if_absent m key value) in
  let! result := or_panic (insert_if_absent_value result) in
  Ret (json_string result).

Definition map_remove_json m (key : string) : io E (NapiResult string) :=
  let? value := prog_map_err operation_error (Map.remove m key) in
  or_panic (optional_json value).
End BoundMap.

(** [BoundLog for Log<S, Value>]. *)
Section BoundLog.
Implicit Types (m : Log.Log S) (id : Log.LogId).

Definition log_append_json m value : io E (NapiResult string) :=
  let? id := prog_map_err operation_error (Log.append m value) in
  Ret (json_string (LogId_display id)).

Definition log_get_json m id : io E (NapiResult string) :=
  let? record := prog_map_err operation_error (Log.get (V := Value) m id) in
  or_panic (optional_json record).

Definition log_records_json m : io E (NapiResult string) :=
  let? records := prog_map_err operation_error (Log.records (V := Value) m) in
  Ret (json_string records).

Definition log_records_after_json m id : io E (NapiResult string) :=
  let? records := prog_map_err operation_error (Log.records_after (V := Value) m id) in
  Ret (json_string records).
End BoundLog.

(** [BoundQueue for Queue<S, Value>]. *)
Definition claim_json (claim : option (Queue.Claim Value)) : option (option Value) :=
  match claim with
  | Some claim =>
      value ← ok (to_value (Queue.claim_value claim));
      Some (Some (json_object
        [("id", json_str (MessageId_display (Queue.claim_id claim)));
         ("value", value);
         ("leaseToken", json_str (LeaseToken_display (Queue.lease_token claim)));
         ("attempt", json_number (Queue.attempt claim));
         ("leaseExpiresAtMillis", json_number (Queue.lease_expires_at_millis claim))]))
  | None => Some None
  end.

Section BoundQueue.
Context {C : Type}.
Implicit Types (m : Queue.Queue S C).

Definition queue_publish_json m value : io E (NapiResult string) :=
  let? id := prog_map_err queue_error (Queue.publish m value) in
  Ret (json_string (MessageId_display id)).

Definition queue_claim_json m (lease_millis : N) : io E (NapiResult string) :=
  let? claim := prog_map_err queue_error
    (Queue.claim (V := Value) m (Duration_from_millis lease_millis)) in
  let! claim := or_panic (claim_json claim) in
  or_panic (optional_json claim).

Definition ack_text (ack : Queue.Ack) : string :=
  match ack with
  | Queue.Acknowledged => "acknowledged"
  | Queue.AckNotFound => "notFound"
  | Queue.LeaseMismatch => "leaseMismatch"
  | Queue.LeaseExpired => "leaseExpired"
  end.

Definition queue_ack_json m (id : Queue.MessageId) (token : Queue.LeaseToken) :
    io E (NapiResult string) :=
  let? ack := prog_map_err queue_error (Queue.ack (V := Value) m id token) in
  Ret (json_string (ack_text ack)).

Definition queue_len_json m : io E (NapiResult string) :=
  let? len := prog_map_err queue_error (Queue.len (V := Value) m) in
  Ret (json_string (N.of_nat len)).

Definition queue_is_empty_json m : io E (NapiResult string) :=
  let? is_empty := prog_map_err queue_error (Queue.is_empty (V := Value) m) in
  Ret (json_string is_empty).
End BoundQueue.
End Bound.

(** ** The registry of handles

    [Cells] is the part of [State] that changes: the atomic counter and the contents
    of the three mutexes.  [lock] recovers a poisoned mutex, and each critical section
    is one operation of a hash map, so each is one call. *)

Abbreviation StoredQueue S := (Queue.Queue S Queue.SystemClock).

Record Cells (S : Type) := MkCells {
  next_handle : N;
  maps : gmap N (Map.Map S);
  logs : gmap N (Log.Log S);
  queues : gmap N (StoredQueue S);
}.
Arguments MkCells {S} next_handle maps logs queues.
Arguments next_handle {S} c.
Arguments maps {S} c.
Arguments logs {S} c.
Arguments queues {S} c.

Record State (S : Type) := MkState {
  client : Client.Objsds S;
  queue_client : S * string;
  cells : Cells S;
}.
Arguments MkState {S} client queue_client cells.
Arguments client {S} s.
Arguments queue_client {S} s.
Arguments cells {S} s.

Definition state_new {S} (client : Client.Objsds S) (queue_client : S * string) : State S :=
  MkState client queue_client (MkCells 1 ∅ ∅ ∅).

(** The calls of a task: those of the core crates, [State::handle], and those made
    under a lock. *)
Inductive bcall (S : Type) :=
  | CoreCall (c : call)
  | Handle
  | InsertMap (handle : N) (m : Map.Map S)
  | InsertLog (handle : N) (m : Log.Log S)
  | InsertQueue (handle : N) (m : StoredQueue S)
  | GetMap (handle : N)
  | GetLog (handle : N)
  | GetQueue (handle : N).
Arguments CoreCall {S} c.
Arguments Handle {S}.
Arguments InsertMap {S} handle m.
Arguments InsertLog {S} handle m.
Arguments InsertQueue {S} handle m.
Arguments GetMap {S} handle.
Arguments GetLog {S} handle.
Arguments GetQueue {S} handle.

Definition breply (S E : Type) (c : bcall S) : Type :=
  match c with
  | CoreCall c => reply E c
  | Handle => N
  | InsertMap _ _ | InsertLog _ _ | InsertQueue _ _ => unit
  | GetMap _ => option (Map.Map S)
  | GetLog _ => option (Log.Log S)
  | GetQueue _ => option (StoredQueue S)
  end.

Abbreviation task_prog S E := (prog (breply S E)).

(** [State::handle]: [fetch_add] on an [AtomicU32] wraps around. *)
Definition draw_handle {S} (s : Cells S) : N * Cells S :=
  (next_handle s, MkCells ((next_handle s + 1) mod 2 ^ 32) (maps s) (logs s) (queues s)).

(** The insertions [execute] makes under a lock. *)
Definition insert_map {S} (s : Cells S) (handle : N) (m : Map.Map S) : Cells S :=
  MkCells (next_handle s) (<[handle := m]> (maps s)) (logs s) (queues s).

Definition insert_log {S} (s : Cells S) (handle : N) (m : Log.Log S) : Cells S :=
  MkCells (next_handle s) (maps s) (<[handle := m]> (logs s)) (queues s).

Definition insert_queue {S} (s : Cells S) (handle : N) (m : StoredQueue S) : Cells S :=
  MkCells (next_handle s) (maps s) (logs s) (<[handle := m]> (queues s)).

(** What a call on the registry does. *)
Definition cells_step {S E} (s : Cells S) (c : bcall S) : option (breply S E c * Cells S) :=
  match c with
  | CoreCall _ => None
  | Handle => Some (draw_handle s)
  | InsertMap handle m => Some (tt, insert_map s handle m)
  | InsertLog handle m => Some (tt, insert_log s handle m)
  | InsertQueue handle m => Some (tt, insert_queue s handle m)
  | GetMap handle => Some (maps s !! handle, s)
  | GetLog handle => Some (logs s !! handle, s)
  | GetQueue handle => Some (queues s !! handle, s)
  end.

Definition map_release {S} (s : Cells S) (handle : N) : bool * Cells S :=
  (bool_decide (is_Some (maps s !! handle)),
   MkCells (next_handle s) (delete handle (maps s)) (logs s) (queues s)).

Definition log_release {S} (s : Cells S) (handle : N) : bool * Cells S :=
  (bool_decide (is_Some (logs s !! handle)),
   MkCells (next_handle s) (maps s) (delete handle (logs s)) (queues s)).

Definition queue_release {S} (s : Cells S) (handle : N) : bool * Cells S :=
  (bool_decide (is_Some (queues s !! handle)),
   MkCells (next_handle s) (maps s) (logs s) (delete handle (queues s))).

(** A program of the core crates as part of a task. *)
Fixpoint lift {S E A} (p : io E A) : task_prog S E A :=
  match p with
  | Ret a => Ret a
  | Panic => Panic
  | Call c k => Call (R := breply S E) (CoreCall c) (λ r, lift (k r))
  end.

(** ** Operations *)

Inductive Lifecycle := Create | Open | OpenOrCreate.

Inductive Operation :=
  | MapLifecycle (lifecycle : Lifecycle) (name schema : string)
  | MapGet (handle : N) (key : string)
  | MapEntries (handle : N)
  | MapInsert (handle : N) (key value_json : string)
  | MapInsertIfAbsent (handle : N) (key value_json : string)
  | MapRemove (handle : N) (key : string)
  | LogLifecycle (lifecycle : Lifecycle) (name schema : string)
  | LogAppend (handle : N) (value_json : string)
  | LogGet (handle : N) (id : string)
  | LogRecords (handle : N)
  | LogRecordsAfter (handle : N) (id : string)
  | QueueLifecycle (lifecycle : Lifecycle) (name schema : string)
  | QueuePublish (handle : N) (value_json : string)
  | QueueClaim (handle : N) (lease_millis : Z)
  | QueueAck (handle : N) (id token : string)
  | QueueLen (handle : N)
  | QueueIsEmpty (handle : N).

Section Tasks.
Context {S E J Value : Type} `{!JsonValues J Value, !BindingCodec J Value, !UuidCrate,
  !Display E, !Display J}.

Definition open_map (client : Client.Objsds S) lifecycle (name schema : string) :
    io E (NapiResult (Map.Map S)) :=
  let builder := Map.with_schema (Client.map client name) schema in
  prog_map_err operation_error
    match lifecycle with
    | Create => Map.create (V := Value) builder
    | Open => Map.open (V := Value) builder
    | OpenOrCreate => Map.open_or_create (V := Value) builder
    end.

Definition open_log (client : Client.Objsds S) lifecycle (name schema : string) :
    io E (NapiResult (Log.Log S)) :=
  let builder := Log.with_schema (Client.log client name) schema in
  prog_map_err operation_error
    match lifecycle with
    | Create => Log.create (V := Value) builder
    | Open => Log.open (V := Value) builder
    | OpenOrCreate => Log.open_or_create (V := Value) builder
    end.

Definition open_queue (store : S) (namespace : string) lifecycle (name schema : string) :
    io E (NapiResult (StoredQueue S)) :=
  let builder := Queue.with_schema (Queue.builder_new store namespace name) schema in
  prog_map_err queue_error
    match lifecycle with
    | Create => Queue.create (V := Value) builder
    | Open => Queue.open (V := Value) builder
    | OpenOrCreate => Queue.open_or_create (V := Value) builder
    end.

Definition registry_call (c : bcall S) : task_prog S E (breply S E c) := Call c Ret.

Definition map (handle : N) : task_prog S E (NapiResult (Map.Map S)) :=
  let! m := registry_call (GetMap handle) in Ret (ok_or m invalid_handle).

Definition log (handle : N) : task_prog S E (NapiResult (Log.Log S)) :=
  let! m := registry_call (GetLog handle) in Ret (ok_or m invalid_handle).

Definition queue (handle : N) : task_prog S E (NapiResult (StoredQueue S)) :=
  let! m := registry_call (GetQueue handle) in Ret (ok_or m invalid_handle).

Definition invalid_lease : NapiError :=
  binding_error "ERR_OBJSDS_INVALID_CONFIGURATION"
    "lease duration must be a positive integer number of milliseconds" (json_object []).

Definition execute (state : State S) (operation : Operation) :
    task_prog S E (NapiResult string) :=
  match operation with
  | MapLifecycle lifecycle name schema =>
      let! handle := registry_call Handle in
      let? m := lift (open_map (client state) lifecycle name schema) in
      let! _ := registry_call (InsertMap handle m) in
      Ret (json_string handle)
  | MapGet handle key =>
      let? m := map handle in
      lift (map_get_json m key)
  | MapEntries handle =>
      let? m := map handle in
      lift (map_entries_json m)
  | MapInsert handle key value_json =>
      let? m := map handle in
      let? value := Ret (parse_value value_json) in
      lift (map_insert_json m key value)
  | MapInsertIfAbsent handle key value_json =>
      let? m := map handle in
      let? value := Ret (parse_value value_json) in
      lift (map_insert_if_absent_json m key value)
  | MapRemove handle key =>
      let? m := map handle in
      lift (map_remove_json m key)
  | LogLifecycle lifecycle name schema =>
      let! handle := registry_call Handle in
      let? m := lift (open_log (client state) lifecycle name schema) in
      let! _ := registry_call (InsertLog handle m) in
      Ret (json_string handle)
  | LogAppend handle value_json =>
      let? m := log handle in
      let? value := Ret (parse_value value_json) in
      lift (log_append_json m value)
  | LogGet handle id =>
      let? m := log handle in
      let? id := Ret (parse_log_id id) in
      lift (log_get_json m id)
  | LogRecords handle =>
      let? m := log handle in
      lift (log_records_json m)
  | LogRecordsAfter handle id =>
      let? m := log handle in
      let? id := Ret (parse_log_id id) in
      lift (log_records_after_json m id)
  | QueueLifecycle lifecycle name schema =>
      let! handle := registry_call Handle in
      let '(store, namespace) := queue_client state in
      let? m := lift (open_queue store namespace lifecycle name schema) in
      let! _ := registry_call (InsertQueue handle m) in
      Ret (json_string handle)
  | QueuePublish handle value_json =>
      let? m := queue handle in
      let? value := Ret (parse_value value_json) in
      lift (queue_publish_json m value)
  | QueueClaim handle lease_millis =>
      let? lease_millis := Ret (ok_or (try_from_signed lease_millis) invalid_lease) in
      let? m := queue handle in
      lift (queue_claim_json m lease_millis)
  | QueueAck handle id token =>
      let? m := queue handle in
      let? id := Ret (parse_message_id id) in
      let? token := Ret (parse_lease_token token) in
      lift (queue_ack_json m id token)
  | QueueLen handle =>
      let? m := queue handle in
      lift (queue_len_json m)
  | QueueIsEmpty handle =>
      let? m := queue handle in
      lift (queue_is_empty_json m)
  end.

(** [BindingTask]: [compute] runs once. *)
Record BindingTask := MkBindingTask {
  task_state : State S;
  task_operation : option Operation;
}.

Definition task (state : State S) (operation : Operation) : BindingTask :=
  MkBindingTask state (Some operation).

Definition compute (t : BindingTask) : task_prog S E (NapiResult string) * BindingTask :=
  (match task_operation t with
   | None => Ret (Err (MkNapiError GenericFailure "binding task was already consumed"))
   | Some operation => execute (task_state t) operation
   end, MkBindingTask (task_state t) None).

Definition resolve (output : string) : NapiResult string := Ok output.

(** A task computes once. *)
Lemma compute_twice (t : BindingTask) :
  (compute (compute t).2).1 =
  Ret (Err (MkNapiError GenericFailure "binding task was already consumed")).
Proof. done. Qed.
End Tasks.
Arguments BindingTask S : clear implicits.

(** ** The methods of a native client

    Each makes the task of its operation; an abort signal can cancel the task before it
    starts.  [mapRelease], [logRelease] and [queueRelease] act at once, on the thread of
    JavaScript. *)

Section Methods.
Context {S : Type} (self : State S).

Definition map_create (name schema : string) : BindingTask S :=
  task self (MapLifecycle Create name schema).
Definition map_open (name schema : string) : BindingTask S :=
  task self (MapLifecycle Open name schema).
Definition map_open_or_create (name schema : string) : BindingTask S :=
  task self (MapLifecycle OpenOrCreate name schema).
Definition map_get (handle : N) (key : string) : BindingTask S :=
  task self (MapGet handle key).
Definition map_entries (handle : N) : BindingTask S :=
  task self (MapEntries handle).
Definition map_insert (handle : N) (key value_json : string) : BindingTask S :=
  task self (MapInsert handle key value_json).
Definition map_insert_if_absent (handle : N) (key value_json : string) : BindingTask S :=
  task self (MapInsertIfAbsent handle key value_json).
Definition map_remove (handle : N) (key : string) : BindingTask S :=
  task self (MapRemove handle key).
Definition log_create (name schema : string) : BindingTask S :=
  task self (LogLifecycle Create name schema).
Definition log_open (name schema : string) : BindingTask S :=
  task self (LogLifecycle Open name schema).
Definition log_open_or_create (name schema : string) : BindingTask S :=
  task self (LogLifecycle OpenOrCreate name schema).
Definition log_append (handle : N) (value_json : string) : BindingTask S :=
  task self (LogAppend handle value_json).
Definition log_get (handle : N) (id : string) : BindingTask S :=
  task self (LogGet handle id).
Definition log_records (handle : N) : BindingTask S :=
  task self (LogRecords handle).
Definition log_records_after (handle : N) (id : string) : BindingTask S :=
  task self (LogRecordsAfter handle id).
Definition queue_create (name schema : string) : BindingTask S :=
  task self (QueueLifecycle Create name schema).
Definition queue_open (name schema : string) : BindingTask S :=
  task self (QueueLifecycle Open name schema).
Definition queue_open_or_create (name schema : string) : BindingTask S :=
  task self (QueueLifecycle OpenOrCreate name schema).
Definition queue_publish (handle : N) (value_json : string) : BindingTask S :=
  task self (QueuePublish handle value_json).
Definition queue_claim (handle : N) (lease_millis : Z) : BindingTask S :=
  task self (QueueClaim handle lease_millis).
Definition queue_ack (handle : N) (id token : string) : BindingTask S :=
  task self (QueueAck handle id token).
Definition queue_len (handle : N) : BindingTask S :=
  task self (QueueLen handle).
Definition queue_is_empty (handle : N) : BindingTask S :=
  task self (QueueIsEmpty handle).
End Methods.

(** ** Clients *)

Section Clients.
Context {J Value : Type} `{!JsonValues J Value}.

(** The part the constructors share: [store.clone()] is the same store. *)
Definition native_client {S} (store : S) (namespace : string) : NapiResult (State S) :=
  let* client := map_err configuration_error
    (Client.build (Client.with_namespace (Client.with_store Client.builder store)
                     namespace)) in
  Ok (state_new client (store, namespace)).

(** A new in-memory store is the only one behind its handles. *)
Definition memory_client (namespace : string) : NapiResult (State unit) * Memory.State :=
  (native_client tt namespace, Memory.default).

Definition filesystem_client (namespace root : string) :
    prog Filesystem.root_reply (NapiResult (State Filesystem.FilesystemStore)) :=
  let? store := prog_map_err configuration_error
    (Filesystem.build (Filesystem.with_root Filesystem.builder root)) in
  Ret (native_client store namespace).

Definition s3_credentials (access_key_id secret_access_key session_token : option string) :
    NapiResult S3.Credentials :=
  match access_key_id, secret_access_key with
  | None, None => Ok S3.DefaultCredentials
  | Some access_key_id, Some secret_access_key =>
      let credentials := S3.Credentials_new access_key_id secret_access_key in
      Ok match session_token with
         | Some token => S3.with_session_token credentials token
         | None => credentials
         end
  | _, _ =>
      Err (binding_error "ERR_OBJSDS_INVALID_CONFIGURATION"
             "accessKeyId and secretAccessKey must be supplied together" (json_object []))
  end.

Definition s3_client `{!S3Client} (namespace bucket region : string)
    (endpoint : option string) (path_style : bool)
    (access_key_id secret_access_key session_token : option string) :
    NapiResult (State S3.S3Store) :=
  let* credentials := s3_credentials access_key_id secret_access_key session_token in
  let store := S3.with_path_style
    (S3.with_credentials (S3.with_region (S3.with_bucket S3.builder bucket) region)
       credentials) path_style in
  let store := match endpoint with
               | Some endpoint => S3.with_endpoint store endpoint
               | None => store
               end in
  let* store := map_err configuration_error (S3.build store) in
  native_client store namespace.
End Clients.

(** ** The facade (objsds-napi/npm/src/index.ts)

    JavaScript's own parser and property access are parameters: [js_parse] is
    [JSON.parse], which may throw; [js_field] reads a property of a parsed value, which
    throws for [null] (the outer [None]) and may be [undefined] (the inner one). *)

Class JsJson (Value : Type) := {
  js_parse : string → option Value;
  js_field : Value → string → option (option Value);
}.

Record ObjsdsError (Value : Type) := MkObjsdsError {
  code : option Value;
  message : option Value;
  details : option Value;
}.
Arguments MkObjsdsError {Value} code message details.
Arguments code {Value} o.
Arguments message {Value} o.
Arguments details {Value} o.

(** What the facade rejects with for a native error of this message: the error itself
    ([None]) or one that carries the fields of its envelope.  An absent [details] is
    an empty object. *)
Definition decorate_native_error {J Value} `{!JsonValues J Value, !JsJson Value}
    (text : string) : option (ObjsdsError Value) :=
  if str_starts_with ERROR_PREFIX text then
    envelope ← js_parse (String.substring (String.length ERROR_PREFIX)
                 (String.length text - String.length ERROR_PREFIX) text);
    code ← js_field envelope "code";
    message ← js_field envelope "message";
    details ← js_field envelope "details";
    Some (MkObjsdsError code message (Some (default (json_object []) details)))
  else None.
End Napi.
