(* ===== verification/BindingOperations.v ===== *)
(** * What the operations of the binding do

    A task on a handle looks its structure up, parses its arguments, runs one operation
    of the core crates and renders the result as JSON; a lifecycle task draws a handle,
    runs the builder and registers the structure.  The operations are those the models
    of StructMap, StructLog and WorkQueue are about ([map_run], [log_run],
    [queue_run]). *)

From S2P Require Import Prelude.
From S2P Require Import Program.
From S2P Require Import ObjectStore.
From S2P Require Import Json.
From S2P Require Import CoreTypes.
From S2P Require Import StructMap.
From S2P Require Import StructLog.
From S2P Require Import Client.
From S2P Require Import WorkQueue.
From S2P Require Import QueueRefinement.
From S2P Require Import Envelope.
From S2P Require Import Binding.
Import Core.

(** ** Structures, operations and results of any kind *)

Inductive kind := KMap | KLog | KQueue.

#[export] Instance kind_eq_dec : EqDecision kind.
Proof. solve_decision. Defined.

Inductive stored (S : Type) :=
  | StoredMap (m : Map.Map S)
  | StoredLog (m : Log.Log S)
  | StoredQueue (m : Napi.StoredQueue S).
Arguments StoredMap {S} m.
Arguments StoredLog {S} m.
Arguments StoredQueue {S} m.

Definition kind_of {S} (x : stored S) : kind :=
  match x with StoredMap _ => KMap | StoredLog _ => KLog | StoredQueue _ => KQueue end.

Inductive core_op (V : Type) :=
  | CoreMap (o : map_op V)
  | CoreLog (o : log_op V)
  | CoreQueue (o : queue_op V).
Arguments CoreMap {V} o.
Arguments CoreLog {V} o.
Arguments CoreQueue {V} o.

Inductive core_result (V E J : Type) :=
  | MapResult (r : result (map_output V) (Error E J))
  | LogResult (r : result (log_output V) (Error E J))
  | QueueResult (r : result (queue_output V) (Queue.Error E J)).
Arguments MapResult {V E J} r.
Arguments LogResult {V E J} r.
Arguments QueueResult {V E J} r.

(** A call of a task with its reply, and the structure it looked up or registered. *)
Abbreviation tcall S E := {c : Napi.bcall S & Napi.breply S E c}.

Definition looked_up {S E} (c : tcall S E) : option (kind * N * option (stored S)) :=
  match c with
  | existT (Napi.GetMap h) r => Some (KMap, h, StoredMap <$> r)
  | existT (Napi.GetLog h) r => Some (KLog, h, StoredLog <$> r)
  | existT (Napi.GetQueue h) r => Some (KQueue, h, StoredQueue <$> r)
  | _ => None
  end.

Definition drew {S E} (c : tcall S E) : option N :=
  match c with existT Napi.Handle h => Some h | _ => None end.

Definition registered {S E} (c : tcall S E) : option (N * stored S) :=
  match c with
  | existT (Napi.InsertMap h m) _ => Some (h, StoredMap m)
  | existT (Napi.InsertLog h m) _ => Some (h, StoredLog m)
  | existT (Napi.InsertQueue h m) _ => Some (h, StoredQueue m)
  | _ => None
  end.

Definition core_call {S E} (c : {c : call & reply E c}) : tcall S E :=
  let '(existT c r) := c in existT (Napi.CoreCall c) r.

(** The handle of an operation on a structure; a lifecycle operation has none. *)
Definition handle_of (op : Napi.Operation) : option (kind * N) :=
  match op with
  | Napi.MapLifecycle _ _ _ | Napi.LogLifecycle _ _ _ | Napi.QueueLifecycle _ _ _ => None
  | Napi.MapGet h _ | Napi.MapEntries h | Napi.MapInsert h _ _
  | Napi.MapInsertIfAbsent h _ _ | Napi.MapRemove h _ => Some (KMap, h)
  | Napi.LogAppend h _ | Napi.LogGet h _ | Napi.LogRecords h
  | Napi.LogRecordsAfter h _ => Some (KLog, h)
  | Napi.QueuePublish h _ | Napi.QueueClaim h _ | Napi.QueueAck h _ _ | Napi.QueueLen h
  | Napi.QueueIsEmpty h => Some (KQueue, h)
  end.

Section Operations.
Context {S E J Value : Type} `{!JsonValues J Value, !BindingCodec J Value, !UuidCrate,
  !Display E, !Display J}.
Implicit Types (op : Napi.Operation) (r : Napi.NapiResult string).

(** An operation refused before its handle is looked at. *)
Definition refused op : bool :=
  match op with Napi.QueueClaim _ lease_millis => (lease_millis <? 0)%Z | _ => false end.

(** The core operation an operation on a structure asks for. *)
Definition request op : Napi.NapiResult (core_op Value) :=
  match op with
  | Napi.MapGet _ key => Ok (CoreMap (OpGet key))
  | Napi.MapEntries _ => Ok (CoreMap OpEntries)
  | Napi.MapInsert _ key json =>
      map_ok (λ value, CoreMap (OpInsert key value)) (Napi.parse_value json)
  | Napi.MapInsertIfAbsent _ key json =>
      map_ok (λ value, CoreMap (OpInsertIfAbsent key value)) (Napi.parse_value json)
  | Napi.MapRemove _ key => Ok (CoreMap (OpRemove key))
  | Napi.LogAppend _ json =>
      map_ok (λ value, CoreLog (LogAppend value)) (Napi.parse_value json)
  | Napi.LogGet _ id => map_ok (λ id, CoreLog (LogGet id)) (Napi.parse_log_id id)
  | Napi.LogRecords _ => Ok (CoreLog LogRecords)
  | Napi.LogRecordsAfter _ id =>
      map_ok (λ id, CoreLog (LogRecordsAfter id)) (Napi.parse_log_id id)
  | Napi.QueuePublish _ json =>
      map_ok (λ value, CoreQueue (QPublish value)) (Napi.parse_value json)
  | Napi.QueueClaim _ millis =>
      Ok (CoreQueue (QClaim (Duration_from_millis (Z.to_N millis))))
  | Napi.QueueAck _ id token =>
      let* id := Napi.parse_message_id id in
      let* token := Napi.parse_lease_token token in
      Ok (CoreQueue (QAck id token))
  | Napi.QueueLen _ => Ok (CoreQueue QLen)
  | Napi.QueueIsEmpty _ => Ok (CoreQueue QIsEmpty)
  | Napi.MapLifecycle _ _ _ | Napi.LogLifecycle _ _ _ | Napi.QueueLifecycle _ _ _ =>
      Err Napi.invalid_handle
  end.

(** The core operation run on a structure of its kind. *)
Definition core_run (x : stored S) (o : core_op Value) : option (io E (core_result Value E J)) :=
  match x, o with
  | StoredMap m, CoreMap o => Some (let! r := map_run m o in Ret (MapResult r))
  | StoredLog m, CoreLog o => Some (let! r := log_run m o in Ret (LogResult r))
  | StoredQueue m, CoreQueue o => Some (let! r := queue_run m o in Ret (QueueResult r))
  | _, _ => None
  end.

(** The JSON text of an output; [None] is a panic of [json!]. *)
Definition render_map (x : map_output Value) : option (Napi.NapiResult string) :=
  match x with
  | OutValue value => Napi.optional_json value
  | OutEntries entries => Some (Napi.json_string entries)
  | OutVersion version => Some (Napi.json_string (version_as_str version))
  | OutInsert r =>
      value ← Napi.insert_if_absent_value r; Some (Napi.json_string value)
  end.

Definition render_log (x : log_output Value) : option (Napi.NapiResult string) :=
  match x with
  | OutId id => Some (Napi.json_string (LogId_display id))
  | OutRecord record => Napi.optional_json record
  | OutRecords records => Some (Napi.json_string records)
  end.

Definition render_queue (x : queue_output Value) : option (Napi.NapiResult string) :=
  match x with
  | OutPublished id => Some (Napi.json_string (MessageId_display id))
  | OutClaim claim => claim ← Napi.claim_json claim; Napi.optional_json claim
  | OutAck ack => Some (Napi.json_string (Napi.ack_text ack))
  | OutLen n => Some (Napi.json_string (N.of_nat n))
  | OutIsEmpty b => Some (Napi.json_string b)
  end.

Definition render_with {A F} (f : A → option (Napi.NapiResult string)) (g : F → Napi.NapiError)
    (x : result A F) : option (Napi.NapiResult string) :=
  match x with Ok a => f a | Err e => Some (Err (g e)) end.

Definition render (x : core_result Value E J) : option (Napi.NapiResult string) :=
  match x with
  | MapResult x => render_with render_map Napi.operation_error x
  | LogResult x => render_with render_log Napi.operation_error x
  | QueueResult x => render_with render_queue Napi.queue_error x
  end.

(** ** Tasks on a structure *)

Lemma plays_lift {A} (p : io E A) (cs : list (tcall S E)) a :
  plays (Napi.lift p) cs a ↔ ∃ ccs, cs = core_call <$> ccs ∧ plays p ccs a.
Proof.
  revert cs. induction p as [x| |c k IH]; intros cs; simpl.
  - split; [by intros [-> ->]; exists []|]. by intros (? & -> & -> & ->).
  - split; [done|]. by intros (? & _ & []).
  - setoid_rewrite IH. split.
    + intros (r & cs' & -> & ccs & -> & Hp). exists (existT c r :: ccs). naive_solver.
    + intros (ccs & -> & r & cs' & -> & Hp). exists r, (core_call <$> cs'). naive_solver.
Qed.

Lemma plays_rendered {A B F} (p : io E (result A F)) (out : A → B) rd (g : F → Napi.NapiError)
    (f : A → io E (Napi.NapiResult string)) ccs r :
  (∀ a cs r, plays (f a) cs r → cs = [] ∧ rd (out a) = Some r) →
  plays (try_bind f (prog_map_err g p)) ccs r →
  ∃ x, plays (prog_map_ok out p) ccs x ∧ render_with rd g x = Some r.
Proof.
  intros Hf. unfold prog_map_err, prog_map_ok. rewrite plays_try_bind.
  setoid_rewrite plays_bind. simpl.
  intros [(? & cs2 & a & -> & (cs1 & ? & [a'|e] & -> & Hp & -> & [= <-]) & Hr)
         |(e & (cs1 & ? & [a'|e'] & -> & Hp & -> & [= ->]) & ->)].
  - apply Hf in Hr as [-> Hr]. exists (Ok (out a)). split; [|done].
    exists cs1, [], (Ok a). by rewrite !app_nil_r.
  - exists (Err e'). split; [|done]. exists cs1, [], (Err e'). by rewrite !app_nil_r.
Qed.

Lemma plays_core {A R'} (p : io E A) (con : A → R') ccs x :
  plays p ccs x → plays (let! r := p in Ret (con r)) ccs (con x).
Proof. intros Hp. apply plays_bind. exists ccs, [], x. by rewrite app_nil_r. Qed.

(** The bound operations are the core operations, rendered. *)
Lemma map_json_rendered (m : Map.Map S) (o : map_op Value) ccs r :
  plays match o with
        | OpGet key => Napi.map_get_json m key
        | OpEntries => Napi.map_entries_json m
        | OpInsert key value => Napi.map_insert_json m key value
        | OpInsertIfAbsent key value => Napi.map_insert_if_absent_json m key value
        | OpRemove key => Napi.map_remove_json m key
        end ccs r →
  ∃ x, plays (map_run (E := E) (J := J) m o) ccs x ∧
    render_with render_map Napi.operation_error x = Some r.
Proof.
  destruct o; apply plays_rendered; intros a cs r0; try (by intros [-> ->]);
    try (by rewrite plays_or_panic).
  rewrite plays_bind. setoid_rewrite plays_or_panic. simpl.
  intros (? & ? & v & -> & [-> ->] & [-> ->]). done.
Qed.

Lemma log_json_rendered (m : Log.Log S) (o : log_op Value) ccs r :
  plays match o with
        | LogAppend value => Napi.log_append_json m value
        | LogGet id => Napi.log_get_json m id
        | LogRecords => Napi.log_records_json m
        | LogRecordsAfter id => Napi.log_records_after_json m id
        end ccs r →
  ∃ x, plays (log_run (E := E) (J := J) m o) ccs x ∧
    render_with render_log Napi.operation_error x = Some r.
Proof.
  destruct o; apply plays_rendered; intros a cs r0; try (by intros [-> ->]);
    by rewrite plays_or_panic.
Qed.

Lemma queue_json_rendered (m : Napi.StoredQueue S) (o : queue_op Value) ccs r :
  plays match o with
        | QPublish value => Napi.queue_publish_json m value
        | QClaim d =>
            let? claim := prog_map_err Napi.queue_error (Queue.claim (V := Value) m d) in
            let! claim := or_panic (Napi.claim_json claim) in
            or_panic (Napi.optional_json claim)
        | QAck id token => Napi.queue_ack_json m id token
        | QLen => Napi.queue_len_json m
        | QIsEmpty => Napi.queue_is_empty_json m
        end ccs r →
  ∃ x, plays (queue_run (E := E) (J := J) m o) ccs x ∧
    render_with render_queue Napi.queue_error x = Some r.
Proof.
  destruct o; apply plays_rendered; intros a cs r0; try (by intros [-> ->]).
  rewrite plays_bind. setoid_rewrite plays_or_panic. simpl.
  by intros (? & ? & v & -> & [-> ->] & [-> ?]).
Qed.

(** An operation on the structure it found parses its arguments and runs. *)
Definition ran_on (x : stored S) op (cs : list (tcall S E)) r : Prop :=
  match request op with
  | Err e => cs = [] ∧ r = Err e
  | Ok o => ∃ p ccs out, core_run x o = Some p ∧ cs = core_call <$> ccs ∧
      plays p ccs out ∧ render out = Some r
  end.

Lemma ran_on_map m op (o : map_op Value) (cs : list (tcall S E)) r p :
  request op = Ok (CoreMap o) → plays (Napi.lift p) cs r →
  p = match o with
      | OpGet key => Napi.map_get_json m key
      | OpEntries => Napi.map_entries_json m
      | OpInsert key value => Napi.map_insert_json m key value
      | OpInsertIfAbsent key value => Napi.map_insert_if_absent_json m key value
      | OpRemove key => Napi.map_remove_json m key
      end →
  ran_on (StoredMap m) op cs r.
Proof.
  intros Ho (ccs & -> & Hp)%plays_lift ->.
  apply map_json_rendered in Hp as (x & Hp & Hr). unfold ran_on. rewrite Ho.
  eexists _, ccs, (MapResult x). split; [done|]. split; [done|]. split; [|done].
  by apply plays_core.
Qed.

Lemma ran_on_log m op (o : log_op Value) (cs : list (tcall S E)) r p :
  request op = Ok (CoreLog o) → plays (Napi.lift p) cs r →
  p = match o with
      | LogAppend value => Napi.log_append_json m value
      | LogGet id => Napi.log_get_json m id
      | LogRecords => Napi.log_records_json m
      | LogRecordsAfter id => Napi.log_records_after_json m id
      end →
  ran_on (StoredLog m) op cs r.
Proof.
  intros Ho (ccs & -> & Hp)%plays_lift ->.
  apply log_json_rendered in Hp as (x & Hp & Hr). unfold ran_on. rewrite Ho.
  eexists _, ccs, (LogResult x). split; [done|]. split; [done|]. split; [|done].
  by apply plays_core.
Qed.

Lemma ran_on_queue m op (o : queue_op Value) (cs : list (tcall S E)) r p :
  request op = Ok (CoreQueue o) → plays (Napi.lift p) cs r →
  p = match o with
      | QPublish value => Napi.queue_publish_json m value
      | QClaim d =>
          let? claim := prog_map_err Napi.queue_error (Queue.claim (V := Value) m d) in
          let! claim := or_panic (Napi.claim_json claim) in
          or_panic (Napi.optional_json claim)
      | QAck id token => Napi.queue_ack_json m id token
      | QLen => Napi.queue_len_json m
      | QIsEmpty => Napi.queue_is_empty_json m
      end →
  ran_on (StoredQueue m) op cs r.
Proof.
  intros Ho (ccs & -> & Hp)%plays_lift ->.
  apply queue_json_rendered in Hp as (x & Hp & Hr). unfold ran_on. rewrite Ho.
  eexists _, ccs, (QueueResult x). split; [done|]. split; [done|]. split; [|done].
  by apply plays_core.
Qed.

(** The look-up that precedes an operation. *)
Definition looks_up k h (cs : list (tcall S E)) r (P : stored S → list (tcall S E) → Prop) :
    Prop :=
  ∃ c cs' found, cs = c :: cs' ∧ looked_up c = Some (k, h, found) ∧
    match found with
    | None => cs' = [] ∧ r = Err Napi.invalid_handle
    | Some x => kind_of x = k ∧ P x cs'
    end.

Ltac solve_looks_up :=
  rewrite plays_try_bind; simpl;
  intros [(? & cs2 & m & -> & (r1 & ? & -> & -> & Hm) & Hf)
         |(e & (r1 & ? & -> & -> & He) & ->)];
  [ destruct r1 as [m'|]; simplify_eq/=; by eexists _, cs2, _
  | destruct r1 as [m'|]; simplify_eq/=; by eexists _, [], _ ].

Lemma plays_map h (f : Map.Map S → Napi.task_prog S E (Napi.NapiResult string)) cs r :
  plays (try_bind f (Napi.map h)) cs r →
  looks_up KMap h cs r (λ x cs', match x with StoredMap m => plays (f m) cs' r | _ => False end).
Proof. solve_looks_up. Qed.

Lemma plays_log h (f : Log.Log S → Napi.task_prog S E (Napi.NapiResult string)) cs r :
  plays (try_bind f (Napi.log h)) cs r →
  looks_up KLog h cs r (λ x cs', match x with StoredLog m => plays (f m) cs' r | _ => False end).
Proof. solve_looks_up. Qed.

Lemma plays_queue h (f : Napi.StoredQueue S → Napi.task_prog S E (Napi.NapiResult string)) cs r :
  plays (try_bind f (Napi.queue h)) cs r →
  looks_up KQueue h cs r
    (λ x cs', match x with StoredQueue m => plays (f m) cs' r | _ => False end).
Proof. solve_looks_up. Qed.

Lemma looks_up_mono k h cs r (P Q : stored S → list (tcall S E) → Prop) :
  (∀ x cs', kind_of x = k → P x cs' → Q x cs') →
  looks_up k h cs r P → looks_up k h cs r Q.
Proof.
  intros HPQ (c & cs' & found & -> & Hc & Hf). exists c, cs', found.
  split; [done|]. split; [done|]. destruct found as [x|]; [|done].
  destruct Hf as [Hk HP]. auto.
Qed.

(** Parsing an argument before the operation. *)
Lemma plays_parsed {A} (a : Napi.NapiResult A) (f : A → Napi.task_prog S E (Napi.NapiResult string)) cs r :
  plays (try_bind f (Ret a)) cs r →
  match a with Ok a => plays (f a) cs r | Err e => cs = [] ∧ r = Err e end.
Proof. destruct a; [by rewrite try_bind_Ok|]. rewrite try_bind_Err. by intros [-> ->]. Qed.

Ltac parse_argument Hp :=
  apply plays_parsed in Hp;
  let a := match type of Hp with match ?a with _ => _ end => a end in
  destruct a eqn:?.

Ltac settle_error :=
  unfold ran_on; cbn [request]; repeat match goal with H : _ = _ |- _ => rewrite H end.

Ltac settle rule :=
  eapply rule;
  [ cbn [request]; repeat match goal with H : _ = _ |- _ => rewrite H end; reflexivity
  | eassumption | reflexivity ].

(** What an operation of the binding does.  A claim of negative duration is refused
    at once.  Every other operation first looks its handle up, once: an unknown handle
    is [ERR_OBJSDS_INVALID_HANDLE], and nothing else happened; an argument that does not
    parse is its error, and the store was not called; otherwise the calls of the task
    are those of one run of the core operation asked for, on the structure found, and
    the result is its result in JSON. *)
Lemma native_operation_runs (s : Napi.State S) op k h cs r :
  handle_of op = Some (k, h) →
  plays (Napi.execute s op) cs r →
  if refused op then cs = [] ∧ r = Err Napi.invalid_lease
  else looks_up k h cs r (λ x cs', ran_on x op cs' r).
Proof.
  destruct op as [|h' key|h'|h' key json|h' key json|h' key| |h' json|h' id|h'|h' id
    | |h' json|h' millis|h' id token|h'|h'];
    cbn [handle_of Napi.execute refused]; intros Hh; simplify_eq.
  all: try solve [intros Hp%plays_map; revert Hp; apply looks_up_mono;
                  intros [m|m|m] cs' _ Hp; [|done..];
                  try (parse_argument Hp; [|by settle_error]); by settle ran_on_map].
  all: try solve [intros Hp%plays_log; revert Hp; apply looks_up_mono;
                  intros [m|m|m] cs' _ Hp; [done| |done];
                  try (parse_argument Hp; [|by settle_error]); by settle ran_on_log].
  all: try solve [intros Hp%plays_queue; revert Hp; apply looks_up_mono;
                  intros [m|m|m] cs' _ Hp; [done..|];
                  repeat (parse_argument Hp; [|by settle_error]); by settle ran_on_queue].
  intros Hp%plays_parsed. unfold try_from_signed in Hp.
  rewrite Z.leb_antisym in Hp. destruct (millis <? 0)%Z; [done|].
  apply plays_queue in Hp. revert Hp. apply looks_up_mono.
  intros [m|m|m] cs' _ Hp; [done..|]. by settle ran_on_queue.
Qed.

(** ** Lifecycle tasks *)

(** The structure a lifecycle operation is about, if its builder accepts it, and the
    run of the builder. *)
Definition configured (s : Napi.State S) op : option (stored S) :=
  let client := Napi.client s in
  match op with
  | Napi.MapLifecycle _ name schema =>
      StoredMap <$> ok (Map.finish (Map.with_schema (Client.map client name) schema))
  | Napi.LogLifecycle _ name schema =>
      StoredLog <$> ok (Log.finish (Log.with_schema (Client.log client name) schema))
  | Napi.QueueLifecycle _ name schema =>
      let '(store, namespace) := Napi.queue_client s in
      StoredQueue <$> ok (Queue.finish (Queue.with_schema
                            (Queue.builder_new store namespace name) schema))
  | _ => None
  end.

Definition open_run (s : Napi.State S) op : io E (Napi.NapiResult (stored S)) :=
  match op with
  | Napi.MapLifecycle lifecycle name schema =>
      prog_map_ok StoredMap (Napi.open_map (Napi.client s) lifecycle name schema)
  | Napi.LogLifecycle lifecycle name schema =>
      prog_map_ok StoredLog (Napi.open_log (Napi.client s) lifecycle name schema)
  | Napi.QueueLifecycle lifecycle name schema =>
      let '(store, namespace) := Napi.queue_client s in
      prog_map_ok StoredQueue (Napi.open_queue store namespace lifecycle name schema)
  | _ => Ret (Err Napi.invalid_handle)
  end.

(** A builder that succeeded returned the handle it was configured for. *)
Lemma plays_configured {A B F G} (a : result A F) (g : F → G)
    (f : A → io E (result B G)) cs (b : B) :
  plays (try_bind f (Ret (map_err g a))) cs (Ok b) → ∃ a', a = Ok a' ∧ plays (f a') cs (Ok b).
Proof. destruct a as [a'|e]; simpl; [by eauto|]. by intros [_ [=]]. Qed.

Lemma plays_then_return {A B G} (p : io E (result A G)) cs (b b' : B) :
  plays (let? _ := p in Ret (Ok b)) cs (Ok b') → b' = b.
Proof.
  rewrite plays_try_bind.
  intros [(? & ? & ? & _ & _ & _ & [= ->])|(? & _ & [=])]. done.
Qed.

Lemma plays_map_err_Ok {A F G} (g : F → G) (p : io E (result A F)) cs a :
  plays (prog_map_err g p) cs (Ok a) → plays p cs (Ok a).
Proof.
  unfold prog_map_err. rewrite plays_bind.
  intros (cs1 & ? & [a'|e] & -> & Hp & -> & [= ->]). by rewrite app_nil_r.
Qed.

Lemma plays_prog_map_ok {A B F} (f : A → B) (p : io E (result A F)) cs y :
  plays (prog_map_ok f p) cs y ↔ ∃ x, plays p cs x ∧ y = map_ok f x.
Proof.
  unfold prog_map_ok. rewrite plays_bind. split.
  - intros (cs1 & ? & x & -> & Hp & -> & ->). rewrite app_nil_r. eauto.
  - intros (x & Hp & ->). exists cs, [], x. by rewrite app_nil_r.
Qed.

Lemma open_map_configured client lifecycle name schema cs m :
  plays (Napi.open_map (S := S) (E := E) client lifecycle name schema) cs (Ok m) →
  Map.finish (Map.with_schema (Client.map client name) schema) = Ok m.
Proof.
  intros Hp%plays_map_err_Ok.
  destruct lifecycle; apply plays_configured in Hp as (m' & -> & Hp);
    by apply plays_then_return in Hp as ->.
Qed.

Lemma open_log_configured client lifecycle name schema cs m :
  plays (Napi.open_log (S := S) (E := E) client lifecycle name schema) cs (Ok m) →
  Log.finish (Log.with_schema (Client.log client name) schema) = Ok m.
Proof.
  intros Hp%plays_map_err_Ok.
  destruct lifecycle; apply plays_configured in Hp as (m' & -> & Hp);
    by apply plays_then_return in Hp as ->.
Qed.

Lemma open_queue_configured store namespace lifecycle name schema cs m :
  plays (Napi.open_queue (S := S) (E := E) store namespace lifecycle name schema) cs (Ok m) →
  Queue.finish (Queue.with_schema (Queue.builder_new store namespace name) schema) = Ok m.
Proof.
  intros Hp%plays_map_err_Ok.
  destruct lifecycle; apply plays_configured in Hp as (m' & -> & Hp).
  - apply plays_try_bind in Hp as [(? & ? & ? & -> & _ & Hp)|(? & _ & [=])].
    by apply plays_then_return in Hp as ->.
  - by apply plays_then_return in Hp as ->.
  - apply plays_try_bind in Hp as [(? & ? & o & -> & _ & Hp)|(? & _ & [=])].
    destruct o as [o|]; [by apply plays_then_return in Hp as ->|].
    apply plays_try_bind in Hp as [(? & ? & ? & -> & _ & Hp)|(? & _ & [=])].
    apply plays_bind in Hp as (? & ? & c & -> & _ & Hp).
    destruct c as [v|[v|e]]; cbv beta iota in Hp.
    + by destruct Hp as [_ [= ->]].
    + by apply plays_then_return in Hp as ->.
    + by destruct Hp as [_ [=]].
Qed.

(** What a lifecycle task did: it drew a handle, ran the builder, and, when that
    succeeded, registered the structure under the handle it returns. *)
Definition opened (s : Napi.State S) op (cs : list (tcall S E)) r : Prop :=
  ∃ d h ccs x, drew d = Some h ∧ plays (open_run s op) ccs x ∧
    match x with
    | Err e => cs = d :: (core_call <$> ccs) ∧ r = Err e
    | Ok x => configured s op = Some x ∧
        ∃ i, registered i = Some (h, x) ∧ cs = d :: (core_call <$> ccs) ++ [i] ∧
          r = Napi.json_string h
    end.

Lemma plays_opening {A} s op (p : io E (Napi.NapiResult A)) (con : A → stored S)
    (ins : N → A → Napi.bcall S) h (cs : list (tcall S E)) r :
  (∀ h a rep, registered (existT (ins h a) rep : tcall S E) = Some (h, con a)) →
  open_run s op = prog_map_ok con p →
  (∀ ccs a, plays p ccs (Ok a) → configured s op = Some (con a)) →
  plays (let? m := Napi.lift p in
         let! _ := Napi.registry_call (ins h m) in Ret (Napi.json_string h)) cs r →
  opened s op (existT Napi.Handle h :: cs) r.
Proof.
  intros Hins Hrun Hconf. rewrite plays_try_bind.
  intros [(cs1 & cs2 & a & -> & (ccs & -> & Hp)%plays_lift & rep & ? & -> & -> & ->)
         |(e & (ccs & -> & Hp)%plays_lift & ->)].
  - exists (existT Napi.Handle h), h, ccs, (Ok (con a)). split; [done|].
    rewrite Hrun. split; [apply plays_prog_map_ok; by exists (Ok a)|].
    split; [by eapply Hconf|]. eexists. by split; [apply Hins|].
  - exists (existT Napi.Handle h), h, ccs, (Err e). split; [done|].
    rewrite Hrun. split; [apply plays_prog_map_ok; by exists (Err e)|done].
Qed.

(** What opening a structure through the binding does.  The task draws a handle,
    runs the builder of the core crate and returns its error, or registers the
    structure configured by the client's namespace, the name and the schema, under the
    handle, and returns the handle in JSON. *)
Lemma native_lifecycle_runs (s : Napi.State S) op cs r :
  handle_of op = None → plays (Napi.execute s op) cs r → opened s op cs r.
Proof.
  destruct op as [lc name schema| | | | | |lc name schema| | | | |lc name schema| | | | |];
    cbn [handle_of Napi.execute]; intros [=]; intros (h & cs' & -> & Hp).
  - revert Hp. apply (plays_opening _ _ _ StoredMap Napi.InsertMap); [done..|].
    intros ccs m Hm%open_map_configured. simpl. by rewrite Hm.
  - revert Hp. apply (plays_opening _ _ _ StoredLog Napi.InsertLog); [done..|].
    intros ccs m Hm%open_log_configured. simpl. by rewrite Hm.
  - unfold configured, open_run. revert Hp.
    destruct (Napi.queue_client s) as [store namespace] eqn:Hs.
    apply (plays_opening _ _ _ StoredQueue Napi.InsertQueue); [done|..];
      unfold open_run, configured; rewrite Hs; [done|].
    intros ccs m Hm%open_queue_configured. simpl. by rewrite Hm.
Qed.
End Operations.
