(* ===== verification/BindingMachine.v ===== *)
(** * Concurrent tasks of a native client

    The tasks of a client run on a pool of threads: [nstep] interleaves their calls,
    the registry's atomically and those of the core crates with any reply, and the
    releases JavaScript makes (by closing a structure, or from a finalizer).  The trace
    records every call with its reply.  A task whose next step never comes was
    cancelled before it started, blocks, or died; a panic ends a task and, since [lock]
    recovers poisoned mutexes, no other. *)

From S2P Require Import Prelude.
From S2P Require Import Program.
From S2P Require Import ObjectStore.
From S2P Require Import Json.
From S2P Require Import CoreTypes.
From S2P Require Import StructMap.
From S2P Require Import StructLog.
From S2P Require Import WorkQueue.
From S2P Require Import Envelope.
From S2P Require Import Binding.
From S2P Require Import BindingOperations.

(** ** The machine *)

Section Machine.
Context {S E : Type}.

Record task := MkTask {
  tk_op : Napi.Operation;
  tk_cur : Napi.task_prog S E (Napi.NapiResult string);
}.

Inductive event :=
  | Called (t : nat) (c : tcall S E)
  | Released (k : kind) (h : N).

Record nconfig := MkNConfig {
  nc_cells : Napi.Cells S;
  nc_tasks : gmap nat task;
  nc_trace : list event;
}.

Definition release (k : kind) (s : Napi.Cells S) (h : N) : bool * Napi.Cells S :=
  match k with
  | KMap => Napi.map_release s h
  | KLog => Napi.log_release s h
  | KQueue => Napi.queue_release s h
  end.

Context {J Value : Type} `{!JsonValues J Value, !BindingCodec J Value, !UuidCrate,
  !Display E, !Display J}.

Inductive nstep (s : Napi.State S) : nconfig → nconfig → Prop :=
  | nstep_start cells tasks trace t op :
      tasks !! t = None →
      nstep s (MkNConfig cells tasks trace)
        (MkNConfig cells (<[t := MkTask op (Napi.compute (Napi.task s op)).1]> tasks) trace)
  | nstep_registry cells cells' tasks trace t op c k r :
      tasks !! t = Some (MkTask op (Call c k)) →
      Napi.cells_step cells c = Some (r, cells') →
      nstep s (MkNConfig cells tasks trace)
        (MkNConfig cells' (<[t := MkTask op (k r)]> tasks) (trace ++ [Called t (existT c r)]))
  | nstep_core cells tasks trace t op c k r :
      tasks !! t = Some (MkTask op (Call (R := Napi.breply S E) (Napi.CoreCall c) k)) →
      nstep s (MkNConfig cells tasks trace)
        (MkNConfig cells (<[t := MkTask op (k r)]> tasks)
           (trace ++ [Called t (existT (Napi.CoreCall c) r)]))
  | nstep_release cells tasks trace k h :
      nstep s (MkNConfig cells tasks trace)
        (MkNConfig (release k cells h).2 tasks (trace ++ [Released k h])).

Definition nstart (s : Napi.State S) : nconfig := MkNConfig (Napi.cells s) ∅ [].
End Machine.
Arguments task S E : clear implicits.
Arguments event S E : clear implicits.
Arguments nconfig S E : clear implicits.

(** ** Reading a trace *)

Section Trace.
Context {S E : Type}.
Implicit Types (e : event S E) (trace : list (event S E)) (cs : list (tcall S E)).

Definition event_call (t : nat) e : option (tcall S E) :=
  match e with Called t' c => if decide (t' = t) then Some c else None | _ => None end.

Definition event_draw e : option (nat * N) :=
  match e with Called t c => pair t <$> drew c | _ => None end.

Definition event_insert e : option (N * stored S) :=
  match e with Called _ c => registered c | _ => None end.

(** The calls of a task; the handles drawn, by whom; the structures registered. *)
Definition calls_of (t : nat) trace : list (tcall S E) := omap (event_call t) trace.
Definition draws trace : list (nat * N) := omap event_draw trace.
Definition inserts trace : list (N * stored S) := omap event_insert trace.

(** What a handle names: the last structure registered under it and not released. *)
Definition update (k : kind) (h : N) (x : option (stored S)) e : option (stored S) :=
  match e with
  | Called _ c =>
      match registered c with
      | Some (h', x') => if decide (kind_of x' = k ∧ h' = h) then Some x' else x
      | None => x
      end
  | Released k' h' => if decide (k' = k ∧ h' = h) then None else x
  end.

Definition named trace (k : kind) (h : N) : option (stored S) :=
  foldl (update k h) None trace.

Definition cells_lookup (s : Napi.Cells S) (k : kind) (h : N) : option (stored S) :=
  match k with
  | KMap => StoredMap <$> Napi.maps s !! h
  | KLog => StoredLog <$> Napi.logs s !! h
  | KQueue => StoredQueue <$> Napi.queues s !! h
  end.

(** Task [t] registered [x] under [h], and nobody released it since. *)
Definition live trace (t : nat) (h : N) (x : stored S) : Prop :=
  ∃ pre i post, trace = pre ++ Called t i :: post ∧ registered i = Some (h, x) ∧
    Released (kind_of x) h ∉ post.

(** The n-th handle drawn. *)
Definition handle_at (n : nat) : N := (1 + N.of_nat n) mod 2 ^ 32.

Lemma named_snoc trace e k h : named (trace ++ [e]) k h = update k h (named trace k h) e.
Proof. unfold named. by rewrite foldl_app. Qed.

Lemma calls_of_snoc t trace e :
  calls_of t (trace ++ [e]) = calls_of t trace ++ option_list (event_call t e).
Proof. unfold calls_of. rewrite omap_app. simpl. by destruct (event_call t e). Qed.

Lemma draws_snoc trace e : draws (trace ++ [e]) = draws trace ++ option_list (event_draw e).
Proof. unfold draws. rewrite omap_app. simpl. by destruct (event_draw e). Qed.

Lemma inserts_snoc trace e :
  inserts (trace ++ [e]) = inserts trace ++ option_list (event_insert e).
Proof. unfold inserts. rewrite omap_app. simpl. by destruct (event_insert e). Qed.

(** A handle names only what was registered under it and not released since; and
    something registered and not released since is named unless the handle was used
    again. *)
Lemma named_live trace k h x :
  named trace k h = Some x → kind_of x = k ∧ ∃ t, live trace t h x.
Proof.
  revert x. induction trace as [|e trace IH] using rev_ind; intros x; [done|].
  rewrite named_snoc. unfold update.
  assert (named trace k h = Some x → Released k h ≠ e →
          kind_of x = k ∧ ∃ t, live (trace ++ [e]) t h x) as Hkeep.
  { intros (Hk & t & pre & i & post & -> & Hi & Hr)%IH He. split; [done|].
    exists t, pre, i, (post ++ [e]). rewrite <- app_assoc. split; [done|]. split; [done|].
    rewrite Hk in Hr |- *. set_solver. }
  destruct e as [t c|k' h']; [destruct (registered c) as [[h' x']|] eqn:Hc|].
  - case_decide as Hd; [|by auto]. intros [= ->]. destruct Hd as [<- ->].
    split; [done|]. exists t, trace, c, []. split; [done|]. split; [done|]. set_solver.
  - by auto.
  - case_decide as Hd; [done|]. intros Hn. apply Hkeep; [done|]. intros [= <- <-]. by apply Hd.
Qed.

Lemma live_is_named trace t h x :
  live trace t h x → is_Some (named trace (kind_of x) h).
Proof.
  intros (pre & i & post & -> & Hi & Hr).
  induction post as [|e post IH] using rev_ind.
  - rewrite named_snoc. simpl. rewrite Hi. by rewrite decide_True.
  - rewrite app_comm_cons, app_assoc, named_snoc.
    destruct IH as [y Hy]; [set_solver|]. destruct e as [t' c|k' h']; simpl.
    + repeat case_match; by eexists.
    + rewrite decide_False; [by eexists|]. intros [-> ->]. set_solver.
Qed.

Lemma live_named trace t h x :
  live trace t h x → NoDup (inserts trace).*1 → named trace (kind_of x) h = Some x.
Proof.
  intros (pre & i & post & -> & Hi & Hr).
  induction post as [|e post IH] using rev_ind.
  - intros _. rewrite named_snoc. simpl. rewrite Hi. by rewrite decide_True.
  - rewrite app_comm_cons, app_assoc, named_snoc, inserts_snoc, fmap_app.
    intros (Hnd & Hdisj & _)%NoDup_app. rewrite IH; [|set_solver|done].
    destruct e as [t' c|k' h']; simpl.
    + destruct (registered c) as [[h' x']|] eqn:Hc; [|done].
      rewrite decide_False; [done|]. intros [_ ->]. eapply (Hdisj h).
      * apply list_elem_of_fmap. exists (h, x). split; [done|].
        unfold inserts. apply list_elem_of_omap. exists (Called t i). by split; [set_solver|].
      * simpl. rewrite Hc. simpl. set_solver.
    + rewrite decide_False; [done|]. intros [-> ->]. set_solver.
Qed.
End Trace.

(** ** How tasks use the registry *)

(** A task draws at most one handle, and registers at most one structure, under it. *)
Inductive stage := Fresh | Drawn (h : N) | Spent.

#[export] Instance stage_eq_dec : EqDecision stage.
Proof. solve_decision. Defined.

Section Orderly.
Context {S E : Type}.

Definition advance (st : stage) (c : tcall S E) : option stage :=
  match drew c, registered c with
  | Some h, _ => if decide (st = Fresh) then Some (Drawn h) else None
  | None, Some (h, _) => if decide (st = Drawn h) then Some Spent else None
  | None, None => Some st
  end.

Lemma advance_registered st (c : tcall S E) st' h x :
  registered c = Some (h, x) → advance st c = Some st' → st = Drawn h.
Proof.
  unfold advance. intros Hr.
  assert (drew c = None) as -> by (destruct c as [[] ?]; done).
  rewrite Hr. by case_decide.
Qed.

(** From stage [st] on, the program keeps to this and registers only a [P]. *)
Fixpoint orderly {A} (P : stored S → Prop) (st : stage) (p : Napi.task_prog S E A) : Prop :=
  match p with
  | Call c k => ∀ r, ∃ st', advance st (existT c r) = Some st' ∧
      (∀ h x, registered (existT c r : tcall S E) = Some (h, x) → P x) ∧
      orderly P st' (k r)
  | _ => True
  end.

Definition stage_of (cs : list (tcall S E)) : option stage :=
  foldl (λ st c, st ≫= λ st, advance st c) (Some Fresh) cs.

Lemma stage_of_snoc (cs : list (tcall S E)) c : stage_of (cs ++ [c]) = stage_of cs ≫= λ st, advance st c.
Proof. unfold stage_of. by rewrite foldl_app. Qed.

(** What a stage says of the calls made. *)
Lemma stage_calls (cs : list (tcall S E)) st :
  stage_of cs = Some st →
  match st with
  | Fresh => omap drew cs = [] ∧ omap registered cs = []
  | Drawn h => omap drew cs = [h] ∧ omap registered cs = []
  | Spent => ∃ h x, omap drew cs = [h] ∧ omap registered cs = [(h, x)]
  end.
Proof.
  revert st. induction cs as [|c cs IH] using rev_ind; intros st.
  { by intros [= <-]. }
  rewrite stage_of_snoc. destruct (stage_of cs) as [st0|]; [|done].
  specialize (IH st0 eq_refl). simpl. unfold advance. rewrite !omap_app. simpl.
  assert (drew c = None ∨ registered c = None) as Hone
    by (destruct c as [[] ?]; simpl; auto).
  destruct (drew c) as [h|] eqn:Hd, (registered c) as [[h' x]|] eqn:Hr; simpl;
    try case_decide; intros [= <-]; subst; try destruct IH as [-> ->]; try done.
  - by destruct Hone.
  - by exists h', x.
  - rewrite !app_nil_r. by destruct st0.
Qed.

Lemma orderly_lift_bind {A B} P st (p : io E A) (f : A → Napi.task_prog S E B) :
  (∀ cs a, plays p cs a → orderly P st (f a)) →
  orderly P st (prog_bind f (Napi.lift p)).
Proof.
  induction p as [a| |c k IH]; simpl; intros Hf; [by apply (Hf [] a)|done|].
  intros r. exists st. split; [done|]. split; [done|].
  apply IH. intros cs a Hp. apply (Hf (existT c r :: cs)). simpl. eauto.
Qed.

Lemma orderly_lift {A} P st (p : io E A) : orderly P st (Napi.lift (S := S) p).
Proof.
  induction p as [a| |c k IH]; simpl; [done..|]. intros r. exists st. by split_and!.
Qed.

Lemma orderly_parsed {A B} P st (a : Napi.NapiResult A)
    (f : A → Napi.task_prog S E (Napi.NapiResult B)) :
  (∀ a, orderly P st (f a)) → orderly P st (try_bind f (Ret a)).
Proof. intros Hf. destruct a; [by rewrite try_bind_Ok|done]. Qed.
End Orderly.

Section ExecuteOrderly.
Context {S E J Value : Type} `{!JsonValues J Value, !BindingCodec J Value, !UuidCrate,
  !Display E, !Display J}.
Implicit Types (s : Napi.State S) (op : Napi.Operation).

Ltac solve_lookup := intros Hf [m|]; exists Fresh; (split; [done|]); (split; [done|]); [apply Hf|done].

Lemma orderly_map P h (f : Map.Map S → Napi.task_prog S E (Napi.NapiResult string)) :
  (∀ m, orderly P Fresh (f m)) → orderly P Fresh (try_bind f (Napi.map h)).
Proof. solve_lookup. Qed.

Lemma orderly_log P h (f : Log.Log S → Napi.task_prog S E (Napi.NapiResult string)) :
  (∀ m, orderly P Fresh (f m)) → orderly P Fresh (try_bind f (Napi.log h)).
Proof. solve_lookup. Qed.

Lemma orderly_queue P h (f : Napi.StoredQueue S → Napi.task_prog S E (Napi.NapiResult string)) :
  (∀ m, orderly P Fresh (f m)) → orderly P Fresh (try_bind f (Napi.queue h)).
Proof. solve_lookup. Qed.

(** Drawing, opening and registering. *)
Lemma orderly_opening {A} (p : io E (Napi.NapiResult A)) (con : A → stored S)
    (ins : N → A → Napi.bcall S) (P : stored S → Prop) h :
  (∀ h a rep, drew (existT (ins h a) rep : tcall S E) = None ∧
              registered (existT (ins h a) rep : tcall S E) = Some (h, con a)) →
  (∀ cs a, plays p cs (Ok a) → P (con a)) →
  orderly P (Drawn h) (let? m := Napi.lift p in
    let! _ := Napi.registry_call (ins h m) in Ret (Napi.json_string h)).
Proof.
  intros Hins HP. apply orderly_lift_bind. intros cs [a|e] Hp; [|done].
  intros r. exists Spent. unfold advance. destruct (Hins h a r) as [-> ->].
  rewrite decide_True by done. split; [done|]. split; [|done].
  intros h' x [= <- <-]. eauto.
Qed.

Lemma execute_orderly s op :
  orderly (λ x, configured s op = Some x) Fresh (Napi.execute (E := E) s op).
Proof.
  destruct op; cbn [Napi.execute configured];
    try solve [repeat first [apply orderly_parsed; intros ? | apply orderly_map; intros ?
      | apply orderly_log; intros ? | apply orderly_queue; intros ? | apply orderly_lift]].
  all: intros h; exists (Drawn h); (split; [done|]); (split; [done|]).
  - apply (orderly_opening _ StoredMap Napi.InsertMap); [done|].
    intros cs m Hm%open_map_configured. by rewrite Hm.
  - apply (orderly_opening _ StoredLog Napi.InsertLog); [done|].
    intros cs m Hm%open_log_configured. by rewrite Hm.
  - destruct (Napi.queue_client s) as [store namespace].
    apply (orderly_opening _ StoredQueue Napi.InsertQueue); [done|].
    intros cs m Hm%open_queue_configured. by rewrite Hm.
Qed.
End ExecuteOrderly.

(** ** Calls, their traces and the registry *)

Section TraceFacts.
Context {S E : Type}.
Implicit Types (trace : list (event S E)) (c : tcall S E).

Lemma elem_of_calls_of t c trace : c ∈ calls_of t trace ↔ Called t c ∈ trace.
Proof.
  unfold calls_of. rewrite list_elem_of_omap. split.
  - intros ([t' c'|] & He & Hc); simpl in Hc; [|done]. case_decide; by simplify_eq.
  - intros He. exists (Called t c). split; [done|]. simpl. by rewrite decide_True.
Qed.

Lemma elem_of_draws t h trace : (t, h) ∈ draws trace ↔ h ∈ omap drew (calls_of t trace).
Proof.
  unfold draws. rewrite !list_elem_of_omap. setoid_rewrite elem_of_calls_of. split.
  - intros ([t' c'|] & He & Hc); simpl in Hc; [|done].
    destruct (drew c') eqn:?; simplify_eq/=. eauto.
  - intros (c & Hc & Hd). exists (Called t c). split; [done|]. simpl. by rewrite Hd.
Qed.

Lemma elem_of_inserts h x trace :
  (h, x) ∈ inserts trace ↔ ∃ t c, Called t c ∈ trace ∧ registered c = Some (h, x).
Proof.
  unfold inserts. rewrite list_elem_of_omap. split.
  - intros ([t c|] & He & Hc); [by eauto|done].
  - intros (t & c & He & Hc). by exists (Called t c).
Qed.

Lemma handle_at_inj n m :
  (N.of_nat n < 2 ^ 32 → N.of_nat m < 2 ^ 32 → handle_at n = handle_at m → n = m)%N.
Proof.
  unfold handle_at. intros Hn Hm Heq.
  assert (∀ n, N.of_nat n < 2 ^ 32 → (1 + N.of_nat n) mod 2 ^ 32 =
            if decide (N.of_nat n = 2 ^ 32 - 1) then 0 else 1 + N.of_nat n)%N as Hmod.
  { intros k Hk. case_decide as Hd; [by rewrite Hd|]. apply N.mod_small. lia. }
  rewrite !Hmod in Heq by done. repeat case_decide; lia.
Qed.

Lemma handles_NoDup (n : nat) :
  (N.of_nat n ≤ 2 ^ 32)%N → NoDup (handle_at <$> seq 0 n).
Proof.
  intros Hn. apply NoDup_fmap_2_strong; [|apply NoDup_seq].
  intros i j Hi%elem_of_seq Hj%elem_of_seq. apply handle_at_inj; lia.
Qed.

(** What a call did to the registry. *)
Ltac registry_call Hs c :=
  destruct c; cbn [Napi.cells_step] in Hs;
  unfold Napi.draw_handle, Napi.insert_map, Napi.insert_log, Napi.insert_queue in Hs;
  simplify_eq/=.

(** A call with the registry before and after it. *)
Definition call_effect (cells : Napi.Cells S) c (cells' : Napi.Cells S) : Prop :=
  let '(existT c r) := c in
  Napi.cells_step cells c = Some (r, cells') ∨ ∃ core : call, c = Napi.CoreCall core ∧ cells' = cells.

Lemma call_effect_lookup t cells c cells' k h :
  call_effect cells c cells' →
  cells_lookup cells' k h = update k h (cells_lookup cells k h) (Called t c).
Proof.
  destruct c as [c r]. intros [Hs|(c0 & -> & ->)]; [|done].
  registry_call Hs c; try done; destruct k; simpl; try done;
    (case_decide as Hd;
     [destruct Hd as [_ ->]; by rewrite lookup_insert_eq|
      rewrite lookup_insert_ne; naive_solver]).
Qed.

Lemma call_effect_found cells c cells' k h found :
  call_effect cells c cells' → looked_up c = Some (k, h, found) →
  found = cells_lookup cells k h.
Proof.
  destruct c as [c r]. intros [Hs|(c0 & -> & ->)]; [|done].
  registry_call Hs c; intros; by simplify_eq.
Qed.

Lemma call_effect_draw cells c cells' :
  call_effect cells c cells' →
  match drew c with
  | Some h => h = Napi.next_handle cells ∧
      Napi.next_handle cells' = ((Napi.next_handle cells + 1) mod 2 ^ 32)%N
  | None => Napi.next_handle cells' = Napi.next_handle cells
  end.
Proof.
  destruct c as [c r]. intros [Hs|(c0 & -> & ->)]; [|done]. by registry_call Hs c.
Qed.

Lemma release_lookup (cells : Napi.Cells S) k0 h0 k h :
  cells_lookup (release k0 cells h0).2 k h =
  update k h (cells_lookup cells k h) (Released (E := E) k0 h0).
Proof.
  destruct k0, k; simpl; try done;
    (case_decide as Hd;
     [destruct Hd as [_ ->]; by rewrite lookup_delete_eq|
      rewrite lookup_delete_ne; naive_solver]).
Qed.

Lemma release_next (cells : Napi.Cells S) k h :
  Napi.next_handle (release k cells h).2 = Napi.next_handle cells.
Proof. by destruct k. Qed.
End TraceFacts.
