(* ===== verification/BindingRegistry.v ===== *)
(** * The registry of a native client

    Whatever the interleaving of tasks and releases: a handle names the structure the
    task that returned it registered, until it is released, and no other task ever gets
    it, as long as no more handles are drawn than there are; an operation acts on the
    structure its handle names. *)

From S2P Require Import Prelude.
From S2P Require Import Program.
From S2P Require Import ObjectStore.
From S2P Require Import Json.
From S2P Require Import CoreTypes.
From S2P Require Import Client.
From S2P Require Import Envelope.
From S2P Require Import Binding.
From S2P Require Import BindingOperations.
From S2P Require Import BindingMachine.

#[local] Arguments drew : simpl never.
#[local] Arguments registered : simpl never.

Section Registry.
Context {S E J Value : Type} `{!JsonValues J Value, !BindingCodec J Value, !UuidCrate,
  !Display E, !Display J}.
Context (client : Client.Objsds S) (queue_client : S * string).
Implicit Types (c : nconfig S E) (trace : list (event S E)) (x : stored S).

Let s : Napi.State S := Napi.state_new client queue_client.

(** A configuration the tasks of a new client reach. *)
Definition native_reachable c : Prop := rtc (nstep s) (nstart s) c.

(** No more handles were drawn than there are. *)
Definition within_handles trace : Prop := (N.of_nat (length (draws trace)) ≤ 2 ^ 32)%N.

(** A task has made the calls of the trace, and what is left of it completes them. *)
Record task_ok trace (t : nat) (tk : task S E) : Prop := MkTaskOk {
  to_stage : ∃ st, stage_of (calls_of t trace) = Some st ∧
    orderly (λ x, configured s (tk_op tk) = Some x) st (tk_cur tk);
  to_plays cs a : plays (tk_cur tk) cs a →
    plays (Napi.execute s (tk_op tk)) (calls_of t trace ++ cs) a;
  to_configured i h x : Called t i ∈ trace → registered i = Some (h, x) →
    configured s (tk_op tk) = Some x;
}.

Record registry_ok c : Prop := MkRegistryOk {
  ro_draws : (draws (nc_trace c)).*2 = handle_at <$> seq 0 (length (draws (nc_trace c)));
  ro_next : Napi.next_handle (nc_cells c) = handle_at (length (draws (nc_trace c)));
  ro_idle t : nc_tasks c !! t = None → calls_of t (nc_trace c) = [];
  ro_task t tk : nc_tasks c !! t = Some tk → task_ok (nc_trace c) t tk;
  ro_cells k h : cells_lookup (nc_cells c) k h = named (nc_trace c) k h;
  ro_found pre t i post k h found : nc_trace c = pre ++ Called t i :: post →
    looked_up i = Some (k, h, found) → found = named pre k h;
  ro_unique : within_handles (nc_trace c) → NoDup (inserts (nc_trace c)).*1;
}.

Lemma handle_at_succ n : ((handle_at n + 1) mod 2 ^ 32)%N = handle_at (Datatypes.S n).
Proof.
  unfold handle_at. rewrite N.Div0.add_mod_idemp_l. f_equal. lia.
Qed.

Lemma registry_start : registry_ok (nstart s).
Proof.
  split; simpl; try done.
  - by intros [].
  - intros [] t i post k h found Htr; discriminate.
  - intros _. constructor.
Qed.

(** Starting a task. *)
Lemma registry_spawn cells tasks trace t op :
  registry_ok (MkNConfig cells tasks trace) → tasks !! t = None →
  registry_ok (MkNConfig cells (<[t := MkTask op (Napi.execute s op)]> tasks) trace).
Proof.
  intros Hok Ht. pose proof (ro_idle _ Hok t Ht) as Hcalls. simpl in Hcalls.
  split; simpl; try apply Hok.
  - intros t' Ht'. apply (ro_idle _ Hok). simpl.
    apply lookup_insert_None in Ht' as [? _]. done.
  - intros t' tk' Ht'. destruct (decide (t = t')) as [<-|Hne].
    + rewrite lookup_insert_eq in Ht'. simplify_eq. split; simpl.
      * exists Fresh. rewrite Hcalls. split; [done|apply execute_orderly].
      * intros cs a. by rewrite Hcalls.
      * intros i h x Hi%elem_of_calls_of. rewrite Hcalls in Hi. by apply not_elem_of_nil in Hi.
    + rewrite lookup_insert_ne in Ht' by done. by apply (ro_task _ Hok).
Qed.

(** An event that is no call of the task. *)
Lemma task_ok_other trace e t tk :
  event_call t e = None → task_ok trace t tk → task_ok (trace ++ [e]) t tk.
Proof.
  intros He [Hst Hpl Hconf].
  assert (calls_of t (trace ++ [e]) = calls_of t trace) as Hcalls
    by (by rewrite calls_of_snoc, He, app_nil_r).
  split.
  - by rewrite Hcalls.
  - by rewrite Hcalls.
  - intros i h x Hi. apply Hconf. apply elem_of_calls_of in Hi.
    rewrite Hcalls in Hi. by apply elem_of_calls_of.
Qed.

(** The task's own call. *)
Lemma task_ok_call trace t op cc k r :
  task_ok trace t (MkTask op (Call cc k)) →
  task_ok (trace ++ [Called t (existT cc r)]) t (MkTask op (k r)).
Proof.
  intros [(st & Hst & Hord) Hpl Hconf]. simpl in Hord, Hpl, Hconf.
  assert (calls_of t (trace ++ [Called t (existT cc r)]) =
          calls_of t trace ++ [existT cc r]) as Hcalls
    by (by rewrite calls_of_snoc; simpl; rewrite decide_True).
  destruct (Hord r) as (st' & Hadv & HP & Hord').
  split; simpl.
  - exists st'. split; [|done]. by rewrite Hcalls, stage_of_snoc, Hst.
  - intros cs a Hp. rewrite Hcalls, <- app_assoc. apply Hpl. by exists r, cs.
  - intros i h x [Hi|[= ->]%list_elem_of_singleton]%elem_of_app; [by eapply Hconf|]. apply HP.
Qed.

Lemma found_snoc trace e cells :
  (∀ k h, cells_lookup cells k h = named trace k h) →
  (∀ pre t i post k h found, trace = pre ++ Called t i :: post →
     looked_up i = Some (k, h, found) → found = named pre k h) →
  (∀ t i k h found, e = Called t i → looked_up i = Some (k, h, found) →
     found = cells_lookup cells k h) →
  ∀ pre t i post k h found, trace ++ [e] = pre ++ Called t i :: post →
    looked_up i = Some (k, h, found) → found = named pre k h.
Proof.
  intros Hcells Hold Hnew pre t i post k h found Htr Hi.
  destruct post as [|e' post _] using rev_ind.
  - apply app_inj_tail in Htr as [<- ->]. rewrite <- Hcells. by eapply Hnew.
  - rewrite app_comm_cons, app_assoc in Htr. apply app_inj_tail in Htr as [-> _].
    by eapply Hold.
Qed.

(** Two tasks that drew the same handle are the same. *)
Lemma draws_unique trace t t' h :
  (draws trace).*2 = handle_at <$> seq 0 (length (draws trace)) → within_handles trace →
  (t, h) ∈ draws trace → (t', h) ∈ draws trace → t = t'.
Proof.
  intros Hdr Hw [i Hi]%list_elem_of_lookup [j Hj]%list_elem_of_lookup.
  assert (i = j) as ->; [|by simplify_eq].
  assert (NoDup (draws trace).*2) as Hnd by (rewrite Hdr; by apply handles_NoDup).
  apply (NoDup_lookup _ i j h Hnd); rewrite list_lookup_fmap; [by rewrite Hi|by rewrite Hj].
Qed.

(** A task that registered something drew the handle, and is done with both. *)
Lemma registered_spent trace t tk i h x :
  task_ok trace t tk → Called t i ∈ trace → registered i = Some (h, x) →
  stage_of (calls_of t trace) = Some Spent ∧ (t, h) ∈ draws trace.
Proof.
  intros [(st & Hst & _) _ _] Hi Hr. apply elem_of_calls_of in Hi.
  assert ((h, x) ∈ omap registered (calls_of t trace)) as Hin
    by (apply list_elem_of_omap; by exists i).
  pose proof (stage_calls _ _ Hst) as Hc. rewrite elem_of_draws.
  destruct st as [|h'|]; destruct_and?.
  - rewrite H1 in Hin. by apply not_elem_of_nil in Hin.
  - rewrite H1 in Hin. by apply not_elem_of_nil in Hin.
  - destruct Hc as (h' & x' & Hd & Hr'). rewrite Hr' in Hin.
    apply list_elem_of_singleton in Hin. simplify_eq. rewrite Hd. split; [done|]. set_solver.
Qed.

Lemma called_task c t i :
  registry_ok c → Called t i ∈ nc_trace c → ∃ tk, nc_tasks c !! t = Some tk.
Proof.
  intros Hok Hi. destruct (nc_tasks c !! t) as [tk|] eqn:Ht; [by eauto|].
  apply (ro_idle _ Hok) in Ht. apply elem_of_calls_of in Hi. rewrite Ht in Hi.
  by apply not_elem_of_nil in Hi.
Qed.

(** A task about to register something has drawn that handle, and nobody has
    registered anything under it. *)
Lemma registering_fresh c t op cc k r h x t' i x' :
  registry_ok c → within_handles (nc_trace c) →
  nc_tasks c !! t = Some (MkTask op (Call cc k)) →
  registered (existT cc r : tcall S E) = Some (h, x) →
  Called t' i ∈ nc_trace c → registered i = Some (h, x') → False.
Proof.
  intros Hok Hw Ht Hreg Hi Hr.
  destruct (called_task _ _ _ Hok Hi) as [tk' Ht'].
  destruct (registered_spent _ _ _ _ _ _ (ro_task _ Hok _ _ Ht') Hi Hr) as [Hspent Hdrew'].
  destruct (to_stage _ _ _ (ro_task _ Hok _ _ Ht)) as (st & Hst & Hord).
  destruct (Hord r) as (st' & Hadv & _). clear Hord.
  apply (advance_registered _ _ _ _ _ Hreg) in Hadv as ->.
  pose proof (stage_calls _ _ Hst) as [Hd _].
  assert (t = t') as ->; [|congruence].
  apply (draws_unique (nc_trace c) t t' h); [apply Hok|done| |done].
  apply elem_of_draws. rewrite Hd. set_solver.
Qed.

Lemma registry_release cells tasks trace k h :
  registry_ok (MkNConfig cells tasks trace) →
  registry_ok (MkNConfig (release k cells h).2 tasks (trace ++ [Released k h])).
Proof.
  intros Hok.
  assert (draws (trace ++ [Released k h]) = draws trace) as Hdr
    by (by rewrite draws_snoc, app_nil_r).
  assert (inserts (trace ++ [Released k h]) = inserts trace) as Hins
    by (by rewrite inserts_snoc, app_nil_r).
  split; simpl; rewrite ?Hdr, ?Hins.
  - apply Hok.
  - rewrite release_next. apply Hok.
  - intros t Ht. rewrite calls_of_snoc, app_nil_r. by apply (ro_idle _ Hok).
  - intros t tk Ht. apply task_ok_other; [done|]. by apply (ro_task _ Hok).
  - intros k' h'. rewrite (release_lookup (E := E)), named_snoc.
    by rewrite (ro_cells _ Hok : ∀ k h, cells_lookup cells k h = named trace k h).
  - apply (found_snoc _ _ cells); [apply Hok..|]. intros; discriminate.
  - unfold within_handles. rewrite Hdr. apply Hok.
Qed.

Lemma registry_called cells cells' tasks trace t op cc k r :
  registry_ok (MkNConfig cells tasks trace) →
  tasks !! t = Some (MkTask op (Call cc k)) →
  call_effect cells (existT cc r) cells' →
  registry_ok (MkNConfig cells' (<[t := MkTask op (k r)]> tasks)
    (trace ++ [Called t (existT cc r)])).
Proof.
  intros Hok Ht Heff. pose proof (ro_task _ Hok _ _ Ht) as Htask. simpl in Htask.
  pose proof (ro_draws _ Hok) as Hdr. pose proof (ro_next _ Hok) as Hnext.
  simpl in Hdr, Hnext.
  pose proof (call_effect_draw _ _ _ Heff) as Hdraw.
  split; simpl.
  - rewrite draws_snoc. simpl. destruct (drew _) as [h|] eqn:Hd; simpl; [|by rewrite app_nil_r].
    rewrite fmap_app, length_app, seq_app, fmap_app, Hdr. simpl.
    destruct Hdraw as [-> _]. by rewrite Hnext.
  - rewrite draws_snoc. simpl. destruct (drew _) as [h|] eqn:Hd; simpl.
    + destruct Hdraw as [_ ->]. rewrite length_app, Hnext, handle_at_succ. f_equal.
      simpl. lia.
    + rewrite app_nil_r. by rewrite Hdraw.
  - intros t' [Ht' Hne]%lookup_insert_None. rewrite calls_of_snoc. simpl.
    rewrite decide_False by done. rewrite app_nil_r. by apply (ro_idle _ Hok).
  - intros t' tk' Ht'. destruct (decide (t = t')) as [<-|Hne].
    + rewrite lookup_insert_eq in Ht'. simplify_eq. by apply task_ok_call.
    + rewrite lookup_insert_ne in Ht' by done. apply task_ok_other.
      * simpl. by rewrite decide_False.
      * by apply (ro_task _ Hok).
  - intros k' h'. rewrite (call_effect_lookup t _ _ _ _ _ Heff), named_snoc.
    by rewrite (ro_cells _ Hok : ∀ k h, cells_lookup cells k h = named trace k h).
  - apply (found_snoc _ _ cells); [apply Hok..|].
    intros t' i k' h' found [= <- <-]. by apply call_effect_found with cells'.
  - unfold within_handles. rewrite draws_snoc, inserts_snoc, length_app, fmap_app. intros Hw.
    assert (within_handles trace) as Hw' by (unfold within_handles; lia).
    apply NoDup_app. split; [by apply Hok|].
    destruct (registered (existT cc r)) as [[h x]|] eqn:Hreg; simpl; rewrite Hreg; simpl;
      [|split; [set_solver|constructor]].
    split; [|apply NoDup_singleton].
    intros h' Hh' ->%list_elem_of_singleton.
    apply list_elem_of_fmap in Hh' as ([h0 x0] & [= ->] & (t' & i & Hi & Hr)%elem_of_inserts).
    by eapply (registering_fresh (MkNConfig cells tasks trace)).
Qed.

Lemma registry_reachable c : native_reachable c → registry_ok c.
Proof.
  revert c. apply (rtc_ind_r registry_ok (nstart s)); [apply registry_start|].
  intros c1 c2 _ Hstep Hok. destruct Hstep.
  - by apply registry_spawn.
  - eapply registry_called; [done..|]. by left.
  - eapply registry_called; [done..|]. right. by eexists.
  - by apply registry_release.
Qed.

(** ** What JavaScript can rely on *)

(** C27: what a handle names.  Whatever tasks run and however their calls interleave
    with releases, the registry maps a handle of a kind to a structure only if some task
    registered that structure under that handle and it was not released since; and, as
    long as no more than 2^32 handles were drawn, every structure registered and not
    released is there. *)
Theorem native_registry_sound c k h x :
  native_reachable c →
  (cells_lookup (nc_cells c) k h = Some x →
     kind_of x = k ∧ ∃ t, live (nc_trace c) t h x) ∧
  (within_handles (nc_trace c) → kind_of x = k → (∃ t, live (nc_trace c) t h x) →
     cells_lookup (nc_cells c) k h = Some x).
Proof.
  intros Hok%registry_reachable. rewrite (ro_cells _ Hok). split; [apply named_live|].
  intros Hw <- [t Hl]. eapply live_named; [done|]. by apply Hok.
Qed.

(** C24: opening a structure.  A lifecycle task that returned drew a handle, ran the
    builder, and failed with its error having registered nothing, or registered the
    structure its client, name and schema configure under the handle it returns; and as
    long as no more than 2^32 handles were drawn no other task ever registered anything
    under that handle. *)
Theorem native_opening_task c t op r :
  native_reachable c → nc_tasks c !! t = Some (MkTask op (Ret r)) → handle_of op = None →
  opened s op (calls_of t (nc_trace c)) r ∧
  (within_handles (nc_trace c) →
   ∀ t' i i' h x x', Called t i ∈ nc_trace c → registered i = Some (h, x) →
     Called t' i' ∈ nc_trace c → registered i' = Some (h, x') → t' = t).
Proof.
  intros Hok%registry_reachable Ht Hop. split.
  - apply native_lifecycle_runs; [done|].
    pose proof (to_plays _ _ _ (ro_task _ Hok _ _ Ht) [] r) as Hp.
    rewrite app_nil_r in Hp. by apply Hp.
  - intros Hw t' i i' h x x' Hi Hr Hi' Hr'.
    destruct (called_task _ _ _ Hok Hi') as [tk' Ht'].
    eapply (draws_unique (nc_trace c)); [apply Hok|done|..].
    + by eapply registered_spent; [by eapply ro_task|..].
    + by eapply registered_spent; [by eapply ro_task|..].
Qed.

(** C22: what an operation acts on.  An operation that returned, other than a claim of
    negative duration, looked its handle up once.  If the look-up failed it reported an
    invalid handle, did nothing else, and no structure of that kind was registered under
    the handle and unreleased at that moment.  If it succeeded, the structure found was
    registered under the handle by a task whose client, name and schema configure it,
    and was not released before the look-up; and the rest of the task parsed the
    arguments and was one run of the core operation asked for on that structure, its
    result in JSON, or an argument error without any call. *)
Theorem native_operation_target c t op r k h :
  native_reachable c → nc_tasks c !! t = Some (MkTask op (Ret r)) →
  handle_of op = Some (k, h) → refused op = false →
  ∃ pre i post found cs,
    nc_trace c = pre ++ Called t i :: post ∧ looked_up i = Some (k, h, found) ∧
    calls_of t (nc_trace c) = i :: cs ∧
    match found with
    | None => cs = [] ∧ r = Err Napi.invalid_handle ∧
        ∀ t' x, kind_of x = k → ¬ live pre t' h x
    | Some x => kind_of x = k ∧ ran_on (J := J) (Value := Value) x op cs r ∧
        ∃ t' tk', live pre t' h x ∧ nc_tasks c !! t' = Some tk' ∧
          configured s (tk_op tk') = Some x
    end.
Proof.
  intros Hok%registry_reachable Ht Hop Href.
  pose proof (to_plays _ _ _ (ro_task _ Hok _ _ Ht) [] r) as Hp.
  rewrite app_nil_r in Hp. specialize (Hp (conj eq_refl eq_refl)).
  apply (native_operation_runs _ _ _ _ _ _ Hop) in Hp. simpl in Hp. rewrite Href in Hp.
  destruct Hp as (i & cs & found & Hcalls & Hi & Hf).
  assert (Called t i ∈ nc_trace c) as Hin by (apply elem_of_calls_of; rewrite Hcalls; set_solver).
  apply list_elem_of_split in Hin as (pre & post & Htr).
  pose proof (ro_found _ Hok _ _ _ _ _ _ _ Htr Hi) as Hnamed.
  exists pre, i, post, found, cs. split; [done|]. split; [done|]. split; [done|].
  destruct found as [x|].
  - destruct Hf as [Hk Hran]. split; [done|]. split; [done|].
    symmetry in Hnamed. apply named_live in Hnamed as [_ [t' Hl]].
    pose proof Hl as (pre' & i' & post' & -> & Hr & _).
    assert (Called t' i' ∈ nc_trace c) as Hi' by (rewrite Htr; set_solver).
    destruct (called_task _ _ _ Hok Hi') as [tk' Ht'].
    exists t', tk'. split; [done|]. split; [done|].
    by eapply (to_configured _ _ _ (ro_task _ Hok _ _ Ht')).
  - destruct Hf as [-> ->]. split; [done|]. split; [done|].
    intros t' x <- [y Hy]%live_is_named. congruence.
Qed.
End Registry.
