(* ===== verification/BindingPrograms.v ===== *)
(** * The calls of a task

    A task calls the registry, then the core crates, then, when it opened a structure,
    the registry again.  Its calls of the core crates are a program of their own
    ([shadows]): one of the bound operations on the structure found, which is the core
    operation followed by the rendering of its result ([follows]), or a builder, which
    never replaces an object. *)

From S2P Require Import Prelude.
From S2P Require Import Program.
From S2P Require Import ObjectStore.
From S2P Require Import Json.
From S2P Require Import CoreTypes.
From S2P Require Import Lifecycle.
From S2P Require Import StructMap.
From S2P Require Import StructLog.
From S2P Require Import Client.
From S2P Require Import WorkQueue.
From S2P Require Import QueueRefinement.
From S2P Require Import Linearization.
From S2P Require Import Concurrent.
From S2P Require Import ConcurrentMap.
From S2P Require Import ConcurrentLog.
From S2P Require Import ConcurrentQueue.
From S2P Require Import SystemLinearizable.
From S2P Require Import Isolation.
From S2P Require Import Envelope.
From S2P Require Import Binding.
From S2P Require Import BindingOperations.
Import Core.

(** ** The core program of a task *)

Section Shadows.
Context {S E A : Type}.

(** The core calls of [p] are those of [q], and [p] returns what [q] does; the only other
    calls of [p] register structures. *)
Fixpoint shadows (p : Napi.task_prog S E A) (q : io E A) {struct p} : Prop :=
  match p with
  | Ret x => q = Ret x
  | Panic => q = Panic
  | Call c k =>
      match c return (Napi.breply S E c → Napi.task_prog S E A) →
                     (Napi.breply S E c → io E A → Prop) → Prop with
      | Napi.CoreCall c => λ _ rec,
          ∃ k', q = Call (R := reply E) c k' ∧ ∀ r, rec r (k' r)
      | Napi.InsertMap _ _ => λ _ rec, rec tt q
      | Napi.InsertLog _ _ => λ _ rec, rec tt q
      | Napi.InsertQueue _ _ => λ _ rec, rec tt q
      | _ => λ _ _, False
      end k (λ r q, shadows (k r) q)
  end.

Lemma shadows_lift (q : io E A) : shadows (Napi.lift q) q.
Proof. induction q as [x| |c k IH]; simpl; [done..|]. by exists k. Qed.
End Shadows.

Lemma shadows_lift_bind {S E A B} (f : A → Napi.task_prog S E B) (g : A → io E B) (q : io E A) :
  (∀ a, shadows (f a) (g a)) → shadows (prog_bind f (Napi.lift q)) (prog_bind g q).
Proof.
  intros Hf. induction q as [x| |c k IH]; simpl; [apply Hf|done|]. eexists. by split.
Qed.

Section CorePrograms.
Context {S E J Value : Type} `{!JsonValues J Value, !BindingCodec J Value, !UuidCrate,
  !Display E, !Display J}.
Implicit Types (s : Napi.State S) (op : Napi.Operation) (x : stored S).

(** The bound operation for a core operation on a structure of its kind. *)
Definition json_run x (o : core_op Value) : option (io E (Napi.NapiResult string)) :=
  match x, o with
  | StoredMap m, CoreMap o => Some
      match o with
      | OpGet key => Napi.map_get_json m key
      | OpEntries => Napi.map_entries_json m
      | OpInsert key value => Napi.map_insert_json m key value
      | OpInsertIfAbsent key value => Napi.map_insert_if_absent_json m key value
      | OpRemove key => Napi.map_remove_json m key
      end
  | StoredLog m, CoreLog o => Some
      match o with
      | LogAppend value => Napi.log_append_json m value
      | LogGet id => Napi.log_get_json m id
      | LogRecords => Napi.log_records_json m
      | LogRecordsAfter id => Napi.log_records_after_json m id
      end
  | StoredQueue m, CoreQueue o => Some
      match o with
      | QPublish value => Napi.queue_publish_json m value
      | QClaim d =>
          let? claim := prog_map_err Napi.queue_error (Queue.claim (V := Value) m d) in
          let! claim := or_panic (Napi.claim_json claim) in
          or_panic (Napi.optional_json claim)
      | QAck id token => Napi.queue_ack_json m id token
      | QLen => Napi.queue_len_json m
      | QIsEmpty => Napi.queue_is_empty_json m
      end
  | _, _ => None
  end.

(** The core program of task [op] once it has found structure [x], if it is about one. *)
Inductive core_of s op : option (stored S) → io E (Napi.NapiResult string) → Prop :=
  | core_operation x o q :
      request op = Ok o → json_run x o = Some q → core_of s op (Some x) q
  | core_opening (h : N) :
      handle_of op = None →
      core_of s op None (let? _ := open_run s op in Ret (Napi.json_string h)).

(** What is left of a task after its first call of the registry: it is over when the
    handle named nothing, or an argument does not parse. *)
Definition after_lookup s op (found : option (stored S))
    (p : Napi.task_prog S E (Napi.NapiResult string)) : Prop :=
  (∃ r, p = Ret r ∧ ∀ x, found = Some x → ∃ e, request op = Err e) ∨
  ∃ q, core_of s op found q ∧ shadows p q.

(** What the first call of a task found. *)
Definition found_by (c : tcall S E) : option (stored S) :=
  match looked_up c with Some (_, _, x) => x | None => None end.

(** A call that looks a handle up or draws one. *)
Definition looks (c : Napi.bcall S) : Prop :=
  match c with
  | Napi.Handle | Napi.GetMap _ | Napi.GetLog _ | Napi.GetQueue _ => True
  | _ => False
  end.

Lemma after_operation s op x o q :
  request op = Ok o → json_run x o = Some q → after_lookup s op (Some x) (Napi.lift q).
Proof. intros Ho Hq. right. exists q. split; [by eapply core_operation|apply shadows_lift]. Qed.

Lemma shadows_opening {A} (p : io E (Napi.NapiResult A)) (con : A → stored S)
    (f : A → Napi.task_prog S E (Napi.NapiResult string)) (g : stored S → io E (Napi.NapiResult string)) :
  (∀ a, shadows (f a) (g (con a))) →
  shadows (try_bind f (Napi.lift p)) (try_bind g (prog_map_ok con p)).
Proof.
  intros Hf. induction p as [[a|e]| |c k IH]; simpl; [apply Hf|done..|]. eexists. by split.
Qed.

Ltac solve_operation :=
  intros [m|]; [|left; by eexists]; cbn [try_bind prog_bind ok_or];
  repeat match goal with
    | |- after_lookup _ _ _ (match ?a with _ => _ end) =>
        destruct a eqn:?;
        [|left; eexists; split; [reflexivity|]; intros ? _; cbn [request];
          repeat match goal with H : _ = _ |- _ => rewrite H end; by eexists]
    end;
  eapply after_operation;
  [cbn [request]; repeat match goal with H : _ = Ok _ |- _ => rewrite H end; reflexivity
  |reflexivity].

(** A task begins with a look-up, unless its argument is refused. *)
Definition begins s op (p : Napi.task_prog S E (Napi.NapiResult string)) : Prop :=
  match p with
  | Ret _ => True
  | Panic => False
  | Call c k => looks c ∧ ∀ r, after_lookup s op (found_by (existT c r)) (k r)
  end.

Lemma execute_begins s op : begins s op (Napi.execute (E := E) s op).
Proof.
  destruct op as [| | | | | | | | | | | | |h millis| | |]; cbn [Napi.execute];
    try (split; [exact I|]; solve [solve_operation]).
  1-3: split; [exact I|]; intros h; right; eexists; (split; [by apply (core_opening _ _ h)|]).
  - by apply shadows_opening.
  - by apply shadows_opening.
  - cbn [open_run]. destruct (Napi.queue_client s). by apply shadows_opening.
  - destruct (try_from_signed millis) as [d|] eqn:Hd; [|exact I].
    split; [exact I|].
    intros [m|]; [|left; by eexists]. eapply after_operation; [reflexivity|].
    unfold try_from_signed in Hd. destruct (_ <=? _)%Z; [|done]. by injection Hd as <-.
Qed.
End CorePrograms.

(** ** Where core programs act, and how they end *)

Section Rendered.
Context {E : Type}.

Lemma follows_rendered {A B F G R'} (p : io E (result A F)) (out : A → B) (rd : result B F → option (result R' G))
    (g : F → G) (f : A → io E (result R' G)) :
  (∀ a, f a = or_panic (rd (Ok (out a)))) → (∀ e, rd (Err e) = Some (Err (g e))) →
  follows (λ x, or_panic (rd x)) (try_bind f (prog_map_err g p)) (prog_map_ok out p).
Proof.
  intros Hf Herr. induction p as [[a|e]| |c k IH]; simpl.
  - apply Hf.
  - by rewrite Herr.
  - done.
  - eexists. split; [done|]. apply IH.
Qed.

Lemma or_panic_stopped {A B} (rd : B → option A) x : stopped (or_panic (rd x) : io E A).
Proof. destruct (rd x); by intros ? ?. Qed.

Lemma follows_final {A B} (f : B → io E A) p q :
  (∀ x, stopped (f x)) → follows f p q → failures_final q → failures_final p.
Proof.
  intros Hf. revert p. induction q as [x| |c k IH]; simpl; intros p.
  - intros -> _. specialize (Hf x). destruct (f x) as [y| |c k]; [done..|]. by destruct (Hf c k).
  - by intros ->.
  - intros (k' & -> & Hk) Hq r. destruct (Hq r) as [Hr Hst]. split; [by eapply IH|].
    intros Hb%Hst. specialize (Hk r). destruct (k r) as [y| |c' k1]; simpl in Hk.
    + rewrite Hk. apply Hf.
    + by rewrite Hk.
    + by destruct (Hb c' k1).
Qed.

(** An operation after one that may fail: it is not run when the first did. *)
Lemma final_try_bind {A B F} (f : A → io E (result B F)) p :
  failures_final p → (∀ a, stopped (f a)) → failures_final (try_bind f p).
Proof.
  intros Hp Hf.
  assert (∀ x : result A F, stopped match x with Ok a => f a | Err e => Ret (Err e) end) as Hst
    by (intros [a|e]; [apply Hf|by intros ? ?]).
  apply (follows_final (λ x, match x with Ok a => f a | Err e => Ret (Err e) end) _ p); [done| |done].
  apply follows_bind.
Qed.
End Rendered.

Section WhereCorePrograms.
Context {S E J Value : Type} `{!JsonValues J Value, !BindingCodec J Value, !UuidCrate,
  !Display E, !Display J}.
Implicit Types (s : Napi.State S) (op : Napi.Operation) (x : stored S).

Lemma map_json_follows (m : Map.Map S) o q :
  json_run (E := E) (StoredMap m) (CoreMap o) = Some q →
  follows (λ y, or_panic (render_with render_map Napi.operation_error y)) q (map_run (J := J) m o).
Proof.
  intros [= <-]. destruct o; apply follows_rendered; try done.
  intros a. simpl. by destruct (Napi.insert_if_absent_value a).
Qed.

Lemma log_json_follows (m : Log.Log S) o q :
  json_run (E := E) (StoredLog m) (CoreLog o) = Some q →
  follows (λ y, or_panic (render_with render_log Napi.operation_error y)) q (log_run (J := J) m o).
Proof. intros [= <-]. destruct o; by apply follows_rendered. Qed.

Lemma queue_json_follows (m : Napi.StoredQueue S) o q :
  json_run (E := E) (StoredQueue m) (CoreQueue o) = Some q →
  follows (λ y, or_panic (render_with render_queue Napi.queue_error y)) q (queue_run (J := J) m o).
Proof.
  intros [= <-]. destruct o; apply follows_rendered; try done.
  intros claim. simpl. by destruct (Napi.claim_json claim).
Qed.

(** *** Where operations act *)

Ltac solve_calls_all := follow_calls ltac:(idtac; progress unfold only_at, harmless, validate).

Lemma map_run_only_at (m : Map.Map S) (o : map_op Value) :
  only_at (Map.location m) (map_run (E := E) (J := J) m o).
Proof.
  destruct o; cbn [map_run];
    unfold Map.get, Map.entries, Map.insert, Map.insert_if_absent, Map.remove,
      Map.read, Map.write, Lifecycle.replace; solve_calls_all.
Qed.

Lemma log_run_only_at (m : Log.Log S) (o : log_op Value) :
  only_at (Log.location m) (log_run (E := E) (J := J) m o).
Proof.
  destruct o; cbn [log_run];
    unfold Log.append, Log.get, Log.records, Log.records_after, Log.read, Log.write,
      Lifecycle.replace; solve_calls_all.
Qed.

Lemma queue_run_only_at {C} (m : Queue.Queue S C) (o : queue_op Value) :
  only_at (Queue.location m) (queue_run (E := E) (J := J) m o).
Proof.
  destruct o; cbn [queue_run];
    unfold Queue.publish, Queue.claim, Queue.ack, Queue.len, Queue.is_empty, Queue.len,
      Queue.read, Queue.write; rewrite ?lease_millis_spec; solve_calls_all.
Qed.

(** The builders create objects and replace none, and stop when a creation fails. *)
Lemma stopped_Ret {A} (x : A) : stopped (Ret x : io E A).
Proof. by intros ? ?. Qed.

Ltac solve_opening :=
  follow_calls ltac:(idtac; match goal with
    | H : False |- _ => destruct H
    | H : ∃ e, _ = Err _ |- _ => by destruct H as [? [=]]
    | |- stopped _ => apply stopped_Ret
    | |- harmless _ _ => unfold harmless
    end).

Lemma map_opening_harmless l (c : Client.Objsds S) lifecycle name schema :
  harmless l (Napi.open_map (E := E) c lifecycle name schema) ∧
  failures_final (Napi.open_map (E := E) c lifecycle name schema).
Proof.
  destruct lifecycle; unfold Napi.open_map, Map.create, Map.open, Map.open_or_create,
    Lifecycle.open_or_create_structure, Lifecycle.create_structure, Lifecycle.open_structure,
    Lifecycle.create, Map.empty_bytes, Map.config_error, Map.read, validate; solve_opening.
Qed.

Lemma log_opening_harmless l (c : Client.Objsds S) lifecycle name schema :
  harmless l (Napi.open_log (E := E) c lifecycle name schema) ∧
  failures_final (Napi.open_log (E := E) c lifecycle name schema).
Proof.
  destruct lifecycle; unfold Napi.open_log, Log.create, Log.open, Log.open_or_create,
    Lifecycle.open_or_create_structure, Lifecycle.create_structure, Lifecycle.open_structure,
    Lifecycle.create, Log.empty_bytes, Log.config_error, Log.read, validate; solve_opening.
Qed.

Lemma queue_opening_harmless l (st : S) ns lifecycle name schema :
  harmless l (Napi.open_queue (E := E) st ns lifecycle name schema) ∧
  failures_final (Napi.open_queue (E := E) st ns lifecycle name schema).
Proof.
  destruct lifecycle; unfold Napi.open_queue, Queue.create, Queue.open, Queue.open_or_create,
    Queue.empty_bytes, Queue.map_create, Queue.read; solve_opening.
Qed.

(** An operation looks at the location and the schema only. *)
Lemma map_run_same (m m' : Map.Map S) (o : map_op Value) :
  Map.location m = Map.location m' → Map.schema m = Map.schema m' →
  map_run (E := E) (J := J) m o = map_run m' o.
Proof. destruct m, m'. simpl. intros -> ->. by destruct o. Qed.

Lemma log_run_same (m m' : Log.Log S) (o : log_op Value) :
  Log.location m = Log.location m' → Log.schema m = Log.schema m' →
  log_run (E := E) (J := J) m o = log_run m' o.
Proof. destruct m, m'. simpl. intros -> ->. by destruct o. Qed.

Lemma queue_run_same {C} (m m' : Queue.Queue S C) (o : queue_op Value) :
  Queue.location m = Queue.location m' → Queue.schema m = Queue.schema m' →
  queue_run (E := E) (J := J) m o = queue_run m' o.
Proof. destruct m, m'. simpl. intros -> ->. by destruct o. Qed.
End WhereCorePrograms.

(** ** Structures at a location *)

Definition stored_location {S} (x : stored S) : Location :=
  match x with
  | StoredMap m => Map.location m
  | StoredLog m => Log.location m
  | StoredQueue m => Queue.location m
  end.

Definition stored_schema {S} (x : stored S) : string :=
  match x with
  | StoredMap m => Map.schema m
  | StoredLog m => Log.schema m
  | StoredQueue m => Queue.schema m
  end.

(** The path segment of a kind. *)
Definition kind_segment (k : kind) : string :=
  match k with KMap => "maps" | KLog => "logs" | KQueue => "queues" end.

Lemma kind_segment_inj k k' : kind_segment k = kind_segment k' → k = k'.
Proof. by destruct k, k'. Qed.

Section Located.
Context {S : Type}.
Implicit Types (s : Napi.State S) (op : Napi.Operation) (x : stored S).

Lemma configured_location s op x :
  configured s op = Some x →
  ∃ ns name, location_structure ns (kind_segment (kind_of x)) name = Ok (stored_location x).
Proof.
  destruct op; cbn [configured]; try done.
  - unfold Map.finish. simpl. destruct (String.eqb _ _); simpl; [done|].
    destruct (Core.location _ _ _) as [l|] eqn:Hl; simpl; [|done]. intros [= <-].
    apply Core.location_Ok in Hl. by eexists _, _.
  - unfold Log.finish. simpl. destruct (String.eqb _ _); simpl; [done|].
    destruct (Core.location _ _ _) as [l|] eqn:Hl; simpl; [|done]. intros [= <-].
    apply Core.location_Ok in Hl. by eexists _, _.
  - destruct (Napi.queue_client s) as [st ns]. unfold Queue.finish. simpl.
    repeat (destruct (negb _); [done|]). destruct (String.eqb _ _); simpl; [done|].
    destruct (location_structure _ _ _) as [l|] eqn:Hl; simpl; [|done]. intros [= <-].
    by eexists _, _.
Qed.

(** Structures of different kinds are at different locations. *)
Lemma configured_kind s s' op op' x x' :
  configured s op = Some x → configured s' op' = Some x' →
  stored_location x = stored_location x' → kind_of x = kind_of x'.
Proof.
  intros (ns & name & H)%configured_location (ns' & name' & H')%configured_location Heq.
  apply location_structure_Ok in H as (? & ? & _ & Hl).
  apply location_structure_Ok in H' as (? & ? & _ & Hl'). rewrite <- Heq, Hl in Hl'.
  apply kind_segment_inj. by apply structure_path_inj in Hl' as (_ & ? & _).
Qed.
End Located.

(** ** The programs of one structure

    What a client of the core crates may rely on: the bound operations on a structure,
    through whatever handle of it, are the operations [run] of the core crate, at the
    structure's location, with their results rendered by [rd]. *)

Section Bound.
Context {S E J Value : Type} `{!JsonValues J Value, !BindingCodec J Value, !UuidCrate,
  !Display E, !Display J}.
Implicit Types (s : Napi.State S) (op : Napi.Operation) (x : stored S) (o : core_op Value).

(** Two handles of the same structure. *)
Definition same_structure x x' : Prop :=
  kind_of x = kind_of x' ∧ stored_location x = stored_location x' ∧
  stored_schema x = stored_schema x'.

Class BoundOperations {B : Type} x0 (run : core_op Value → option (io E B))
    (rd : B → option (Napi.NapiResult string)) : Prop := {
  bound_follows x o q : same_structure x x0 → json_run x o = Some q →
    ∃ p, run o = Some p ∧ follows (λ y, or_panic (rd y)) q p;
  bound_only_at o p : run o = Some p → only_at (stored_location x0) p;
  bound_final o p : run o = Some p → failures_final p;
}.

Definition run_map (m : Map.Map S) o : option (io E (result (map_output Value) (Error E J))) :=
  match o with CoreMap o => Some (map_run m o) | _ => None end.
Definition run_log (m : Log.Log S) o : option (io E (result (log_output Value) (Error E J))) :=
  match o with CoreLog o => Some (log_run m o) | _ => None end.
Definition run_queue (m : Napi.StoredQueue S) o :
    option (io E (result (queue_output Value) (Queue.Error E J))) :=
  match o with CoreQueue o => Some (queue_run m o) | _ => None end.

#[export] Instance bound_map m :
  BoundOperations (StoredMap m) (run_map m) (render_with render_map Napi.operation_error).
Proof.
  split.
  - intros [m'| |] [o| |] q (Hk & Hl & Hs) Hq; try done. eexists. split; [done|].
    apply map_json_follows in Hq. simpl in *. by rewrite <- (map_run_same m' m).
  - intros [o| |] p [= <-]. apply map_run_only_at.
  - intros [o| |] p [= <-]. eapply disciplined_final, map_run_disciplined.
Qed.

#[export] Instance bound_log m :
  BoundOperations (StoredLog m) (run_log m) (render_with render_log Napi.operation_error).
Proof.
  split.
  - intros [|m'|] [|o|] q (Hk & Hl & Hs) Hq; try done. eexists. split; [done|].
    apply log_json_follows in Hq. simpl in *. by rewrite <- (log_run_same m' m).
  - intros [|o|] p [= <-]. apply log_run_only_at.
  - intros [|o|] p [= <-]. eapply disciplined_final, log_run_disciplined.
Qed.

#[export] Instance bound_queue m :
  BoundOperations (StoredQueue m) (run_queue m) (render_with render_queue Napi.queue_error).
Proof.
  split.
  - intros [| |m'] [| |o] q (Hk & Hl & Hs) Hq; try done. eexists. split; [done|].
    apply queue_json_follows in Hq. simpl in *. by rewrite <- (queue_run_same m' m).
  - intros [| |o] p [= <-]. apply queue_run_only_at.
  - intros [| |o] p [= <-]. eapply disciplined_final, queue_run_disciplined.
Qed.

Lemma bound_calls {B} x (run : core_op Value → option (io E B)) rd o q :
  BoundOperations x run rd → json_run (E := E) x o = Some q →
  only_at (stored_location x) q ∧ failures_final q.
Proof.
  intros Hb Hq. destruct (bound_follows x o q) as (p & Hp & Hf); [by repeat split|done|]. split.
  - eapply follows_calls_all; [|exact Hf|by eapply bound_only_at].
    intros y. unfold or_panic. by destruct (rd y).
  - eapply follows_final; [|exact Hf|by eapply bound_final]. intros y. apply or_panic_stopped.
Qed.

Lemma json_run_calls x o q :
  json_run (E := E) x o = Some q → only_at (stored_location x) q ∧ failures_final q.
Proof. destruct x as [m|m|m]; eapply bound_calls; apply _. Qed.

Lemma open_run_calls s op l :
  harmless l (open_run (E := E) s op) ∧ failures_final (open_run (E := E) s op).
Proof.
  assert (∀ {A B} (con : A → B) (p : io E (Napi.NapiResult A)),
    harmless l p ∧ failures_final p → harmless l (prog_map_ok con p) ∧
      failures_final (prog_map_ok con p)) as Hmap.
  { intros A B con p [Hh Hf]. split.
    - by apply calls_all_bind.
    - eapply (follows_final _ _ p); [|apply follows_bind|done]. intros y. apply stopped_Ret. }
  destruct op; cbn [open_run]; try done.
  - apply Hmap, map_opening_harmless.
  - apply Hmap, log_opening_harmless.
  - destruct (Napi.queue_client s). apply Hmap, queue_opening_harmless.
Qed.

(** The core program of a task stops after a failed write, and does not touch a structure
    that is not at the location of the one it found. *)
Lemma core_of_final s op found q : core_of s op found (q : io E _) → failures_final q.
Proof.
  destruct 1 as [x o q _ Hq|h _]; [by eapply json_run_calls|].
  apply final_try_bind; [apply (open_run_calls s op (MkLocation ""))|].
  intros x. apply stopped_Ret.
Qed.

Lemma core_of_harmless s op found q l :
  core_of s op found (q : io E _) → (∀ x, found = Some x → stored_location x ≠ l) →
  harmless l q.
Proof.
  destruct 1 as [x o q _ Hq|h _]; intros Hne.
  - apply (only_at_harmless l (stored_location x)); [by eapply json_run_calls|by apply Hne].
  - apply calls_all_bind; [apply open_run_calls|]. by intros [x|e].
Qed.
End Bound.
