(* ===== verification/NativeSystem.v ===== *)
(** * Native clients on a backend

    Any number of native clients, of one process or of several, on one backend.  Each
    runs tasks on its own registry ([nstep]); the calls of the core crates reach the
    backend, where they overlap with those of the other clients, block, fail or crash
    ([native_step]).  Every execution is one of the system of [Composition], a task being
    a client from its look-up on ([native_simulated]); so, by [system_replayed] and
    [project], what the core crates promise of a structure holds for the tasks that have
    a handle of it ([native_explained]), whatever else the clients do. *)

From S2P Require Import Prelude.
From S2P Require Import Program.
From S2P Require Import ObjectStore.
From S2P Require Import Json.
From S2P Require Import CoreTypes.
From S2P Require Import Client.
From S2P Require Import Linearization.
From S2P Require Import Concurrent.
From S2P Require Import Composition.
From S2P Require Import SystemLinearizable.
From S2P Require Import Isolation.
From S2P Require Import Envelope.
From S2P Require Import Binding.
From S2P Require Import BindingOperations.
From S2P Require Import BindingMachine.
From S2P Require Import BindingRegistry.
From S2P Require Import BindingPrograms.
From stdpp Require Import functions.

(** ** The machine *)

(** What a task drew, and the structure it found. *)
Section Drawn.
Context {S E : Type}.
Implicit Types (cs : list (tcall S E)).

Definition call_uuids (c : tcall S E) : list Uuid :=
  match c with existT (Napi.CoreCall c) r => uuids_drawn c r | _ => [] end.

Definition call_clock (c : tcall S E) : list N :=
  match c with existT (Napi.CoreCall c) r => clock_drawn c r | _ => [] end.

Definition calls_uuids cs : list Uuid := cs ≫= call_uuids.
Definition calls_clock cs : list N := cs ≫= call_clock.

Definition calls_found cs : option (stored S) := c ← head cs; found_by c.
End Drawn.

Record native (S E M : Type) := MkNative {
  ns_backend : M;
  ns_clients : nat → nconfig S E;
  ns_waits : gmap (nat * nat) nat;
  ns_uuids : list Uuid;
}.
Arguments MkNative {S E M}.
Arguments ns_backend {S E M} n.
Arguments ns_clients {S E M} n.
Arguments ns_waits {S E M} n.
Arguments ns_uuids {S E M} n.

Section Machine.
Context {S E J Value M : Type} `{!JsonValues J Value, !BindingCodec J Value, !UuidCrate,
  !Display E, !Display J, !Backend E M}.
Context (state : nat → Napi.State S).
Implicit Types (c : nconfig S E) (cls : nat → nconfig S E) (m : M) (waits : gmap (nat * nat) nat).

(** A client's own step: it starts a task, calls its registry or releases a handle. *)
Definition own_step (s : Napi.State S) c c' : Prop :=
  nstep s c c' ∧
  ∀ t i r, nc_trace c' ≠ nc_trace c ++ [Called t (existT (Napi.CoreCall i) r)].

(** Task [t] is about to make the call [i] of the core crates. *)
Definition about_to c t op (i : call) k : Prop :=
  nc_tasks c !! t = Some (MkTask op (Call (R := Napi.breply S E) (Napi.CoreCall i) k)).

(** The client after task [t] got the reply to a call of the core crates. *)
Definition replied c t op (i : call) (r : reply E i) q : nconfig S E :=
  MkNConfig (nc_cells c) (<[t := MkTask op q]> (nc_tasks c))
    (nc_trace c ++ [Called t (existT (Napi.CoreCall i) r)]).

Inductive native_step : native S E M → native S E M → Prop :=
  | native_own m cls waits us p c' :
      own_step (state p) (cls p) c' →
      native_step (MkNative m cls waits us) (MkNative m (<[p := c']> cls) waits us)
  | native_draw m cls waits us p t op i k r :
      about_to (cls p) t op i k → store_call i = false →
      native_step (MkNative m cls waits us)
        (MkNative m (<[p := replied (cls p) t op i r (k r)]> cls) waits
           (us ++ uuids_drawn i r))
  | native_call m m' cls waits us p t op i k j :
      about_to (cls p) t op i k → store_call i = true → waits !! (p, t) = None →
      bk_step m m' → bk_ops m !! j = None →
      bk_ops m' = <[j := MkOperation i None]> (bk_ops m) →
      native_step (MkNative m cls waits us) (MkNative m' cls (<[(p, t) := j]> waits) us)
  | native_reply m cls waits us p t op i k j r :
      about_to (cls p) t op i k → store_call i = true → waits !! (p, t) = Some j →
      bk_ops m !! j = Some (MkOperation i (Some r)) →
      native_step (MkNative m cls waits us)
        (MkNative m (<[p := replied (cls p) t op i r (k r)]> cls) (delete (p, t) waits) us)
  | native_backend m m' cls waits us :
      bk_step m m' → (∀ j, bk_ops m !! j = None → bk_ops m' !! j = None) →
      native_step (MkNative m cls waits us) (MkNative m' cls waits us).

Definition native_start (m0 : M) : native S E M :=
  MkNative m0 (λ p, nstart (state p)) ∅ [].
End Machine.

(** ** Simulation *)

Section Simulation.
Context {S E J Value M : Type} `{!JsonValues J Value, !BindingCodec J Value, !UuidCrate,
  !Display E, !Display J, !Backend E M}.
Context (state : nat → Napi.State S).
Implicit Types (c : nconfig S E) (n : native S E M) (sy : system E (Napi.NapiResult string) M)
  (cs : list (tcall S E)) (cl : client E (Napi.NapiResult string)).

(** The client of the system that task [t] of client [p] is. *)
Definition task_id (p t : nat) : nat := encode_nat (p, t).

Lemma task_id_inj p t p' t' : task_id p t = task_id p' t' → p = p' ∧ t = t'.
Proof. intros [= -> ->]%(inj encode_nat). done. Qed.

(** A task that has made the calls [cs] and waits for the operation [w]: it has called
    nothing; or it is over without having called the core crates; or its core program
    runs. *)
Inductive task_stage (s : Napi.State S) cs (tk : task S E) (w : option nat) :
    option (client E (Napi.NapiResult string)) → Prop :=
  | stage_fresh : cs = [] → tk_cur tk = Napi.execute s (tk_op tk) → w = None →
      task_stage s cs tk w None
  | stage_over r : tk_cur tk = Ret r → w = None →
      (∀ x, calls_found cs = Some x → ∃ e, request (tk_op tk) = Err e) →
      task_stage s cs tk w None
  | stage_running cl : cs ≠ [] → core_of s (tk_op tk) (calls_found cs) (cl_op cl) →
      shadows (tk_cur tk) (cl_cur cl) → cl_wait cl = w → cl_uuids cl = calls_uuids cs →
      cl_clock cl = calls_clock cs → task_stage s cs tk w (Some cl).

Record native_sim n sy : Prop := MkNativeSim {
  si_backend : sy_backend sy = ns_backend n;
  si_uuids : sy_uuids sy = ns_uuids n;
  si_task p t tk : nc_tasks (ns_clients n p) !! t = Some tk →
    task_stage (state p) (calls_of t (nc_trace (ns_clients n p))) tk (ns_waits n !! (p, t))
      (sy_clients sy !! task_id p t);
  si_idle p t : nc_tasks (ns_clients n p) !! t = None →
    calls_of t (nc_trace (ns_clients n p)) = [] ∧ ns_waits n !! (p, t) = None ∧
    sy_clients sy !! task_id p t = None;
  si_back id cl : sy_clients sy !! id = Some cl → ∃ p t, id = task_id p t;
}.

Lemma sim_start m0 : native_sim (native_start state m0) (sys_start m0).
Proof. split; simpl; try done. all: intros *; by rewrite lookup_empty. Qed.

(** A step of one task. *)
Lemma sim_task n n' sy p t cls' :
  native_sim n sy →
  (∀ p', p' ≠ p → ns_clients n' p' = ns_clients n p') →
  (∀ t', t' ≠ t → nc_tasks (ns_clients n' p) !! t' = nc_tasks (ns_clients n p) !! t' ∧
     calls_of t' (nc_trace (ns_clients n' p)) = calls_of t' (nc_trace (ns_clients n p))) →
  (∀ k, k ≠ (p, t) → ns_waits n' !! k = ns_waits n !! k) →
  (∀ id, id ≠ task_id p t → cls' !! id = sy_clients sy !! id) →
  (∃ tk, nc_tasks (ns_clients n' p) !! t = Some tk ∧
     task_stage (state p) (calls_of t (nc_trace (ns_clients n' p))) tk (ns_waits n' !! (p, t))
       (cls' !! task_id p t)) →
  native_sim n' (MkSystem (ns_backend n') cls' (ns_uuids n')).
Proof.
  intros [_ _ Htask Hidle Hback] Hp Ht Hw Hcl (tk & Htk & Hstage).
  assert (∀ p1 t1, (p1, t1) ≠ (p, t) →
    nc_tasks (ns_clients n' p1) !! t1 = nc_tasks (ns_clients n p1) !! t1 ∧
    calls_of t1 (nc_trace (ns_clients n' p1)) = calls_of t1 (nc_trace (ns_clients n p1)) ∧
    ns_waits n' !! (p1, t1) = ns_waits n !! (p1, t1) ∧
    cls' !! task_id p1 t1 = sy_clients sy !! task_id p1 t1) as Hsame.
  { intros p1 t1 Hne. rewrite Hw, Hcl; [|by intros [-> ->]%task_id_inj|done].
    destruct (decide (p1 = p)) as [->|Hp1]; [|by rewrite Hp].
    destruct (Ht t1) as [? ?]; [congruence|done]. }
  split; simpl; try done.
  - intros p1 t1 tk1. destruct (decide ((p1, t1) = (p, t))) as [[= -> ->]|Hne].
    + rewrite Htk. by intros [= <-].
    + destruct (Hsame p1 t1 Hne) as (-> & -> & -> & ->). apply Htask.
  - intros p1 t1. destruct (decide ((p1, t1) = (p, t))) as [[= -> ->]|Hne]; [by rewrite Htk|].
    destruct (Hsame p1 t1 Hne) as (-> & -> & -> & ->). apply Hidle.
  - intros id cl Hid. destruct (decide (id = task_id p t)) as [->|Hne]; [by eexists _, _|].
    rewrite Hcl in Hid by done. by eapply Hback.
Qed.

Lemma sim_same n sy : native_sim n sy → ∃ cls, sy = MkSystem (ns_backend n) cls (ns_uuids n).
Proof. intros [Hb Hu _ _ _]. destruct sy as [m cls us]. simpl in *. subst. by exists cls. Qed.

Definition with_client n p c : native S E M :=
  MkNative (ns_backend n) (<[p := c]> (ns_clients n)) (ns_waits n) (ns_uuids n).

Lemma sim_client n sy p t c' cls' :
  native_sim n sy →
  (∀ t', t' ≠ t → nc_tasks c' !! t' = nc_tasks (ns_clients n p) !! t' ∧
     calls_of t' (nc_trace c') = calls_of t' (nc_trace (ns_clients n p))) →
  (∀ id, id ≠ task_id p t → cls' !! id = sy_clients sy !! id) →
  (∃ tk, nc_tasks c' !! t = Some tk ∧
     task_stage (state p) (calls_of t (nc_trace c')) tk (ns_waits n !! (p, t)) (cls' !! task_id p t)) →
  native_sim (with_client n p c') (MkSystem (ns_backend n) cls' (ns_uuids n)).
Proof.
  intros Hsim Ht Hcl Htk.
  apply (sim_task n (with_client n p c') sy p t); simpl; rewrite ?fn_lookup_insert; try done.
  intros p' Hp. by rewrite fn_lookup_insert_ne.
Qed.

Lemma calls_found_snoc cs i : cs ≠ [] → calls_found (cs ++ [i]) = calls_found cs.
Proof. by destruct cs. Qed.

Lemma calls_uuids_snoc cs i : calls_uuids (cs ++ [i]) = calls_uuids cs ++ call_uuids i.
Proof. unfold calls_uuids. rewrite bind_app. simpl. by rewrite app_nil_r. Qed.

Lemma calls_clock_snoc cs i : calls_clock (cs ++ [i]) = calls_clock cs ++ call_clock i.
Proof. unfold calls_clock. rewrite bind_app. simpl. by rewrite app_nil_r. Qed.

(** A call of the registry: the look-up decides what the task is; another call is the
    registration of the structure opened. *)
Lemma stage_registry s cs op (i : Napi.bcall S) k r cells cells' w ocl :
  task_stage s cs (MkTask op (Call (R := Napi.breply S E) i k)) w ocl →
  Napi.cells_step cells i = Some (r, cells') →
  (ocl = None ∧ ∃ q : io E (Napi.NapiResult string), w = None ∧
     task_stage s (cs ++ [existT i r]) (MkTask op (k r)) None (Some (MkClient q q [] None [] []))) ∨
  task_stage s (cs ++ [existT i r]) (MkTask op (k r)) w ocl.
Proof.
  intros Hst Hcells. inversion Hst as [Hcs Hcur Hw|x Hcur|cl Hcs Hcore Hsh Hw Hus Hck]; subst;
    simpl in *; [|done|].
  - pose proof (execute_begins (E := E) s op) as Hbegin. rewrite <- Hcur in Hbegin.
    destruct Hbegin as [Hl Hk].
    assert (calls_uuids [existT i r] = [] ∧ calls_clock [existT i r] = []) as [Hus Hck]
      by (by destruct i).
    destruct (Hk r) as [(x & Hx & Hno)|(q & Hq & Hsh)].
    + right. by eapply stage_over.
    + left. split; [done|]. exists q. split; [done|]. by apply stage_running.
  - right.
    assert (calls_uuids (cs ++ [existT i r]) = calls_uuids cs ∧
            calls_clock (cs ++ [existT i r]) = calls_clock cs) as [Hus' Hck'].
    { rewrite calls_uuids_snoc, calls_clock_snoc.
      destruct i; simpl in Hcells; simpl; by rewrite ?app_nil_r. }
    apply stage_running; [by destruct cs|by rewrite calls_found_snoc| |done|congruence|congruence].
    simpl in Hsh |- *. destruct i; try done; by destruct r.
Qed.

Lemma calls_of_other t t' i (trace : list (event S E)) : t' ≠ t → calls_of t' (trace ++ [Called t i]) = calls_of t' trace.
Proof.
  intros Hne. rewrite calls_of_snoc. simpl. rewrite decide_False by done. apply app_nil_r.
Qed.

Lemma calls_of_own t i (trace : list (event S E)) : calls_of t (trace ++ [Called t i]) = calls_of t trace ++ [i].
Proof. rewrite calls_of_snoc. simpl. by rewrite decide_True. Qed.

Lemma sim_registry n sy p t op cells cells' tasks trace (i : Napi.bcall S) k r :
  native_sim n sy → ns_clients n p = MkNConfig cells tasks trace →
  tasks !! t = Some (MkTask op (Call i k)) → Napi.cells_step cells i = Some (r, cells') →
  ∃ sy', rtc sys_step sy sy' ∧ native_sim
    (with_client n p (MkNConfig cells' (<[t := MkTask op (k r)]> tasks)
       (trace ++ [Called t (existT i r)]))) sy'.
Proof.
  intros Hsim Hc Ht Hi. destruct (sim_same _ _ Hsim) as [cls ->].
  pose proof (si_task _ _ Hsim p t (MkTask op (Call i k))) as Hst. rewrite Hc in Hst.
  specialize (Hst Ht). simpl in Hst.
  assert (∀ cls',
    (∀ id, id ≠ task_id p t → cls' !! id = cls !! id) →
    task_stage (state p) (calls_of t trace ++ [existT i r]) (MkTask op (k r)) (ns_waits n !! (p, t))
      (cls' !! task_id p t) →
    native_sim (with_client n p (MkNConfig cells' (<[t := MkTask op (k r)]> tasks)
      (trace ++ [Called t (existT i r)]))) (MkSystem (ns_backend n) cls' (ns_uuids n))) as Hnext.
  { intros cls' Hcl Hst'. apply (sim_client n _ p t _ cls' Hsim); [|done|].
    - intros t' Hne. rewrite Hc. simpl. by rewrite lookup_insert_ne, calls_of_other.
    - eexists. simpl. rewrite lookup_insert_eq, calls_of_own. by split. }
  apply (stage_registry _ _ _ _ _ r cells cells') in Hst as [(Hnone & q & Hw & Hst)|Hst]; [| |done].
  - eexists. split; [by apply rtc_once, (sys_begin _ _ _ (task_id p t) q)|]. apply Hnext.
    + intros id Hne. by rewrite lookup_insert_ne.
    + by rewrite lookup_insert_eq, Hw.
  - eexists. split; [constructor|]. by apply Hnext.
Qed.

Lemma sim_own n sy p c' :
  native_sim n sy → own_step (state p) (ns_clients n p) c' →
  ∃ sy', rtc sys_step sy sy' ∧ native_sim (with_client n p c') sy'.
Proof.
  intros Hsim [Hstep Hown]. destruct (sim_same _ _ Hsim) as [cls ->].
  remember (ns_clients n p) as c eqn:Hc.
  destruct Hstep as [cells tasks trace t op Ht|cells cells' tasks trace t op i k r Ht Hi
    |cells tasks trace t op i k r Ht|cells tasks trace kd h].
  - eexists. split; [constructor|]. eapply (sim_client n _ p t); [exact Hsim| |done|].
    + intros t' Hne. rewrite <- Hc. simpl. by rewrite lookup_insert_ne.
    + destruct (si_idle _ _ Hsim p t) as (Hcs & Hw & Hcl); [by rewrite <- Hc|].
      rewrite <- Hc in Hcs. simpl in Hcs, Hcl.
      eexists. simpl. rewrite lookup_insert_eq, Hcl. split; [done|]. by apply stage_fresh.
  - by eapply sim_registry.
  - by destruct (Hown t i r).
  - eexists. split; [constructor|].
    assert (∀ t, calls_of t (trace ++ [Released kd h]) = calls_of t trace) as Hcs
      by (intros t; by rewrite calls_of_snoc, app_nil_r).
    destruct Hsim as [_ _ Htask Hidle Hback]. split; simpl; try done.
    + intros p1 t1 tk1. specialize (Htask p1 t1 tk1). destruct (decide (p1 = p)) as [->|Hp].
      * rewrite fn_lookup_insert. simpl. rewrite Hcs. by rewrite <- Hc in Htask.
      * by rewrite fn_lookup_insert_ne.
    + intros p1 t1. specialize (Hidle p1 t1). destruct (decide (p1 = p)) as [->|Hp].
      * rewrite fn_lookup_insert. simpl. rewrite Hcs. by rewrite <- Hc in Hidle.
      * by rewrite fn_lookup_insert_ne.
Qed.

(** A call of the core crates. *)
Lemma stage_core s cs op (i : call) k w ocl :
  task_stage s cs (MkTask op (Call (R := Napi.breply S E) (Napi.CoreCall i) k)) w ocl →
  ∃ cl k', ocl = Some cl ∧ cl_cur cl = Call (R := reply E) i k' ∧ cl_wait cl = w ∧
    (∀ calls w', task_stage s cs (MkTask op (Call (Napi.CoreCall i) k)) w'
       (Some (MkClient (cl_op cl) (cl_cur cl) calls w' (cl_uuids cl) (cl_clock cl)))) ∧
    ∀ r calls w', task_stage s (cs ++ [existT (Napi.CoreCall i) r]) (MkTask op (k r)) w'
      (Some (MkClient (cl_op cl) (k' r) calls w' (cl_uuids cl ++ uuids_drawn i r)
               (cl_clock cl ++ clock_drawn i r))).
Proof.
  intros Hst. inversion Hst as [Hcs Hcur Hw|x Hcur|cl Hcs Hcore Hsh Hw Hus Hck]; subst;
    simpl in *; [|done|].
  - pose proof (execute_begins (E := E) s op) as Hbegin. rewrite <- Hcur in Hbegin.
    by destruct Hbegin.
  - destruct Hsh as (k' & Hcur & Hk). exists cl, k'. split_and!; try done.
    + intros calls w'. apply stage_running; try done. simpl. rewrite Hcur. by exists k'.
    + intros r calls w'.
      apply stage_running; simpl;
        [by destruct cs|by rewrite calls_found_snoc|apply Hk|done| |].
      * by rewrite calls_uuids_snoc, Hus.
      * by rewrite calls_clock_snoc, Hck.
Qed.

Lemma replied_tasks c t op i (r : reply E i) q t' :
  t' ≠ t → nc_tasks (replied c t op i r q) !! t' = nc_tasks c !! t' ∧
    calls_of t' (nc_trace (replied c t op i r q)) = calls_of t' (nc_trace c).
Proof. intros Hne. simpl. by rewrite lookup_insert_ne, calls_of_other. Qed.

Lemma sim_step n n' sy :
  native_sim n sy → native_step state n n' →
  ∃ sy', rtc sys_step sy sy' ∧ native_sim n' sy'.
Proof.
  intros Hsim Hstep. destruct (sim_same _ _ Hsim) as [cls ->].
  destruct Hstep as [m ns waits us p c' Hown|m ns waits us p t op i k r Hat Hi
    |m m' ns waits us p t op i k j Hat Hi Hnone Hb Hj Hops|m ns waits us p t op i k j r Hat Hi Hw Hj
    |m m' ns waits us Hb Hj]; simpl in *.
  - by apply (sim_own (MkNative m ns waits us) (MkSystem m cls us)).
  - pose proof (si_task _ _ Hsim _ _ _ Hat) as Hst. simpl in Hst.
    apply stage_core in Hst as (cl & k' & Hcl & Hcur & Hw & _ & Hnext).
    eexists. split; [apply rtc_once; by eapply (sys_draw _ _ _ _ cl i k' r)|].
    eapply (sim_task _ (MkNative m _ waits _) _ p t _ Hsim); simpl; rewrite ?fn_lookup_insert.
    + intros p' Hp. by rewrite fn_lookup_insert_ne.
    + apply replied_tasks.
    + done.
    + intros id Hne. by rewrite lookup_insert_ne.
    + eexists. simpl. rewrite !lookup_insert_eq, calls_of_own, Hw. by split.
  - pose proof (si_task _ _ Hsim _ _ _ Hat) as Hst. simpl in Hst.
    apply stage_core in Hst as (cl & k' & Hcl & Hcur & Hw & Hwait & _).
    eexists. split; [apply rtc_once; eapply (sys_call _ _ _ _ _ cl i k' j); try done; congruence|].
    eapply (sim_task _ (MkNative m' ns _ us) _ p t _ Hsim); simpl; [done|done|..].
    + intros id Hne. by rewrite lookup_insert_ne.
    + intros id Hne. by rewrite lookup_insert_ne.
    + eexists. rewrite !lookup_insert_eq. by split.
  - pose proof (si_task _ _ Hsim _ _ _ Hat) as Hst. simpl in Hst.
    apply stage_core in Hst as (cl & k' & Hcl & Hcur & Hw' & _ & Hnext).
    eexists. split; [apply rtc_once; eapply (sys_reply _ _ _ _ cl i k' j r); try done; congruence|].
    eapply (sim_task _ (MkNative m _ _ us) _ p t _ Hsim); simpl; rewrite ?fn_lookup_insert.
    + intros p' Hp. by rewrite fn_lookup_insert_ne.
    + apply replied_tasks.
    + intros kk Hne. by rewrite lookup_delete_ne.
    + intros id Hne. by rewrite lookup_insert_ne.
    + eexists. simpl. rewrite !lookup_insert_eq, lookup_delete_eq, calls_of_own. split; [done|].
      specialize (Hnext r (cl_calls cl) None).
      destruct (store_call_draws i r Hi) as [Hu Hc]. by rewrite Hu, Hc, !app_nil_r in Hnext.
  - exists (MkSystem m' cls us). split; [by apply rtc_once, sys_backend|].
    by destruct Hsim.
Qed.
End Simulation.

(** ** What the tasks on a structure do *)

Section Explained.
Context {S E J Value M B : Type} `{!JsonValues J Value, !BindingCodec J Value, !UuidCrate,
  !Display E, !Display J, !Backend E M}.
Context {spurious delayed : bool} {a0 : astore} {m0 : M} {holds : M → astore → Prop}.
Context `{!BackendLinearizes E M spurious delayed a0 m0 holds}.
Context (clients : nat → Client.Objsds S) (queue_clients : nat → S * string).
Context (x0 : stored S) (run : core_op Value → option (io E B))
  (rd : B → option (Napi.NapiResult string)).
Context `{!BoundOperations x0 run rd}.
Implicit Types (n : native S E M) (sy : system E (Napi.NapiResult string) M)
  (op : Napi.Operation) (o : core_op Value) (c : config E B).

Let state (p : nat) : Napi.State S := Napi.state_new (clients p) (queue_clients p).

(** The executions of native clients on the backend in which structure [x0], which was
    there from the start, is opened with one schema. *)
Record native_run n : Prop := MkNativeRun {
  nr_reachable : rtc (native_step state) (native_start state m0) n;
  nr_present : is_Some (cur a0 !! stored_location x0);
  nr_schema p t tk x : nc_tasks (ns_clients n p) !! t = Some tk →
    configured (state p) (tk_op tk) = Some x → stored_location x = stored_location x0 →
    same_structure x x0;
}.

(** The operation of the core crates that task [t] of client [p] asked of [x0]. *)
Definition asked n (p t : nat) : option (core_op Value) :=
  tk ← nc_tasks (ns_clients n p) !! t;
  x ← calls_found (calls_of t (nc_trace (ns_clients n p)));
  if decide (stored_location x = stored_location x0) then ok (request (tk_op tk)) else None.

Definition task_uuids n p t : list Uuid := calls_uuids (calls_of t (nc_trace (ns_clients n p))).
Definition task_clock n p t : list N := calls_clock (calls_of t (nc_trace (ns_clients n p))).

(** The task returned. *)
Definition task_result n p t : option (Napi.NapiResult string) :=
  tk ← nc_tasks (ns_clients n p) !! t;
  match tk_cur tk with Ret r => Some r | _ => None end.

Definition part n (id : nat) : option (io E B) :=
  '(p, t) ← decode_nat id; o ← asked n p t; run o.

Lemma part_task n p t : part n (task_id p t) = (o ← asked n p t; run o).
Proof. unfold part, task_id. by rewrite decode_encode_nat. Qed.

Lemma native_simulated n :
  rtc (native_step state) (native_start state m0) n →
  ∃ sy, rtc sys_step (sys_start m0) sy ∧ native_sim state n sy.
Proof.
  revert n. apply (rtc_ind_r (λ n, ∃ sy, rtc sys_step (sys_start m0) sy ∧ native_sim state n sy)).
  - exists (sys_start m0). split; [constructor|apply sim_start].
  - intros n n' _ Hstep (sy & Hsy & Hsim).
    destruct (sim_step state n n' sy Hsim Hstep) as (sy' & Hsy' & Hsim').
    exists sy'. split; [by etrans|done].
Qed.

(** Each client runs as one does on its own. *)
Lemma native_client_reachable n p :
  rtc (native_step state) (native_start state m0) n →
  native_reachable (clients p) (queue_clients p) (ns_clients n p).
Proof.
  revert n. apply (rtc_ind_r (λ n, native_reachable (clients p) (queue_clients p) (ns_clients n p)));
    [constructor|].
  intros n n' _ Hstep Hreach.
  assert (∀ p' (c' : nconfig S E), nstep (state p') (ns_clients n p') c' →
    native_reachable (clients p) (queue_clients p) (<[p' := c']> (ns_clients n) p)) as Hnext.
  { intros p' c' Hs. destruct (decide (p' = p)) as [->|Hne].
    - rewrite fn_lookup_insert. by eapply rtc_r.
    - by rewrite fn_lookup_insert_ne. }
  destruct Hstep as [? ? ? ? p' c' [Hs _]|? ns ? ? p' t op i k r Hat _|?|? ns ? ? p' t op i k j r Hat|?];
    simpl in *; try done.
  - by apply Hnext.
  - apply Hnext. destruct (ns p') as [cells tasks trace] eqn:Hc. by apply nstep_core.
  - apply Hnext. destruct (ns p') as [cells tasks trace] eqn:Hc. by apply nstep_core.
Qed.

(** What a task found some task opened. *)
Lemma found_configured n p t x :
  rtc (native_step state) (native_start state m0) n →
  calls_found (calls_of t (nc_trace (ns_clients n p))) = Some x →
  ∃ t' tk, nc_tasks (ns_clients n p) !! t' = Some tk ∧ configured (state p) (tk_op tk) = Some x.
Proof.
  intros Hok%(λ H, registry_reachable _ _ _ (native_client_reachable n p H)) Hf.
  unfold calls_found in Hf. destruct (calls_of t _) as [|i cs] eqn:Hcs; [done|]. simpl in Hf.
  unfold found_by in Hf. destruct (looked_up i) as [[[k h] found]|] eqn:Hi; [|done]. subst found.
  assert (Called t i ∈ nc_trace (ns_clients n p)) as Hin
    by (apply elem_of_calls_of; rewrite Hcs; set_solver).
  apply list_elem_of_split in Hin as (pre & post & Htr).
  pose proof (ro_found _ _ _ Hok _ _ _ _ _ _ _ Htr Hi) as Hnamed.
  symmetry in Hnamed. apply named_live in Hnamed as (_ & t' & pre' & i' & post' & -> & Hr & _).
  assert (Called t' i' ∈ nc_trace (ns_clients n p)) as Hi' by (rewrite Htr; set_solver).
  destruct (called_task _ _ _ _ _ Hok Hi') as [tk Htk]. exists t', tk. split; [done|].
  by eapply (to_configured _ _ _ _ _ (ro_task _ _ _ Hok _ _ Htk)).
Qed.

Let rendered (_ : nat) (y : B) : io E (Napi.NapiResult string) := or_panic (rd y).

(** A task that found [x0] runs the operation it asks; another does not touch [x0]. *)
Lemma task_fits n p t tk w cl :
  native_run n → nc_tasks (ns_clients n p) !! t = Some tk →
  task_stage (state p) (calls_of t (nc_trace (ns_clients n p))) tk w (Some cl) →
  fits (stored_location x0) (part n) rendered (task_id p t) (cl_op cl) ∧
  ∀ o, asked n p t = Some o → is_Some (run o).
Proof.
  intros Hn Htk Hst. inversion Hst as [| |cl' Hcs Hcore _ _ _ _]; subst cl'.
  unfold fits. rewrite part_task. unfold asked. rewrite Htk. simpl.
  destruct (calls_found _) as [x|] eqn:Hf; simpl.
  - case_decide as Hl.
    + destruct (found_configured n p t x (nr_reachable n Hn) Hf) as (t' & tk' & Htk' & Hx).
      pose proof (nr_schema n Hn _ _ _ _ Htk' Hx Hl) as Hsame.
      inversion Hcore as [x' o q Ho Hq|]; subst. rewrite Ho. simpl.
      destruct (bound_follows (run := run) (rd := rd) x o _ Hsame Hq) as (q' & Hq' & Hfo).
      rewrite Hq'.
      split; [split; [exact Hfo|exact (bound_only_at o q' Hq')]|]. intros o' [= <-].
      rewrite Hq'. by eexists.
    + split; [|done]. apply (core_of_harmless _ _ _ _ _ Hcore). intros x' [= <-]. done.
  - split; [|done]. apply (core_of_harmless _ _ _ _ _ Hcore). by intros x'.
Qed.

Lemma native_final n sy id cl :
  native_sim state n sy → sy_clients sy !! id = Some cl → failures_final (cl_op cl).
Proof.
  intros Hsim Hid. destruct (si_back _ _ _ Hsim id cl Hid) as (p & t & ->).
  destruct (nc_tasks (ns_clients n p) !! t) as [tk|] eqn:Htk.
  - pose proof (si_task _ _ _ Hsim p t tk Htk) as Hst. rewrite Hid in Hst.
    inversion Hst as [| |cl' _ Hcore]; subst. by eapply core_of_final.
  - destruct (si_idle _ _ _ Hsim p t Htk) as (_ & _ & Hnone). congruence.
Qed.

(** In [c] the task ran the operation and got what it returned, rendered. *)
Definition answered n c p t o r : Prop :=
  ∃ th y, c_threads c !! task_id p t = Some th ∧ run o = Some (t_op th) ∧ t_cur th = Ret y ∧
    rd y = Some r ∧ t_uuids th = task_uuids n p t ∧ t_clock th = task_clock n p t.

(** An execution of the core operations asked, and of nothing else. *)
Record runs_asked n c : Prop := MkRunsAsked {
  ra_reachable : creachable spurious a0 c;
  ra_store : ∃ a, holds (ns_backend n) a ∧ same_at (stored_location x0) a (c_store c);
  ra_threads id th : c_threads c !! id = Some th →
    ∃ p t o, id = task_id p t ∧ asked n p t = Some o ∧ run o = Some (t_op th);
  ra_answered p t o r : asked n p t = Some o → task_result n p t = Some r →
    answered n c p t o r;
  ra_uuids : NoDup (ns_uuids n) → NoDup (c_uuids c);
}.

(** A task that is over, having found [x0] and asked for something, was a client. *)
Lemma asked_client n sy p t o r :
  native_sim state n sy → asked n p t = Some o → task_result n p t = Some r →
  ∃ tk cl, nc_tasks (ns_clients n p) !! t = Some tk ∧ sy_clients sy !! task_id p t = Some cl ∧
    task_stage (state p) (calls_of t (nc_trace (ns_clients n p))) tk (ns_waits n !! (p, t)) (Some cl) ∧
    cl_cur cl = Ret r ∧ cl_uuids cl = task_uuids n p t ∧ cl_clock cl = task_clock n p t.
Proof.
  intros Hsim Ho Hr. unfold asked, task_result in Ho, Hr.
  destruct (nc_tasks (ns_clients n p) !! t) as [tk|] eqn:Htk; simpl in Ho, Hr; [|done].
  destruct (calls_found _) as [x|] eqn:Hf; simpl in Ho; [|done]. case_decide; [|done].
  pose proof (si_task _ _ _ Hsim p t tk Htk) as Hst.
  remember (sy_clients sy !! task_id p t) as ocl eqn:Hid. symmetry in Hid.
  destruct Hst as [Hcs _ _|r' _ _ Hno|cl Hcs Hcore Hsh Hw Hus Hck].
  - by rewrite Hcs in Hf.
  - destruct (Hno x Hf) as [e He]. by rewrite He in Ho.
  - exists tk, cl. split_and!; try done; [by apply stage_running|].
    destruct (tk_cur tk) as [r'| |]; simplify_eq. exact Hsh.
Qed.

(** Whatever the clients do, the tasks on a structure are an execution of its core
    operations. *)
Lemma native_explained n : native_run n → ∃ c, runs_asked n c.
Proof.
  intros Hn. destruct (native_simulated n (nr_reachable n Hn)) as (sy & Hsy & Hsim).
  destruct (system_replayed sy Hsy) as (c & Hc & Hholds & Hex).
  { intros id cl Hid _. by eapply native_final. }
  destruct (project spurious (stored_location x0) (part n) rendered
    (λ _ x, or_panic_stopped rd x) a0 c (nr_present n Hn) Hc) as (_ & c' & Hc' & Hpr).
  { intros id th Hth. destruct (ex_clients _ _ Hex id th Hth) as (cl & Hid & -> & _).
    destruct (si_back _ _ _ Hsim id cl Hid) as (p & t & ->).
    destruct (nc_tasks (ns_clients n p) !! t) as [tk|] eqn:Htk.
    - pose proof (si_task _ _ _ Hsim p t tk Htk) as Hst. rewrite Hid in Hst. by eapply task_fits.
    - destruct (si_idle _ _ _ Hsim p t Htk) as (_ & _ & Hnone). congruence. }
  exists c'. split; [done| | | |].
  - exists (c_store c). rewrite <- (si_backend _ _ _ Hsim). split; [done|]. apply Hpr.
  - intros id th Hth. destruct (pr_back _ _ _ _ _ Hpr id th Hth) as [[th1 Hth1] Hpart].
    destruct (ex_clients _ _ Hex id th1 Hth1) as (cl & Hid & _).
    destruct (si_back _ _ _ Hsim id cl Hid) as (p & t & ->).
    rewrite part_task in Hpart. destruct (asked n p t) as [o|] eqn:Ho; [|done].
    by exists p, t, o.
  - intros p t o r Ho Hr. destruct (asked_client n sy p t o r Hsim Ho Hr)
      as (tk & cl & Htk & Hid & Hst & Hcur & Hus & Hck).
    destruct (task_fits n p t tk _ cl Hn Htk Hst) as [_ Hrun].
    destruct (Hrun o Ho) as [q Hq].
    destruct (ex_returned _ _ Hex _ cl r Hid Hcur) as (th & Hth & _ & Hret & Hus' & Hck').
    pose proof (pr_thread _ _ _ _ _ Hpr _ th Hth) as Hp. rewrite part_task, Ho in Hp.
    simpl in Hp. rewrite Hq, Hret in Hp. destruct Hp as (th' & Hth' & Hop & Hfo & _ & Hu & Hk).
    apply follows_Ret in Hfo as (y & Hy & Hrd). exists th', y.
    split_and!; [done|by rewrite Hop|done| |congruence|congruence].
    unfold rendered in Hrd. destruct (rd y); simpl in Hrd; congruence.
  - intros Hnd. eapply sublist_NoDup; [|apply (pr_uuids _ _ _ _ _ Hpr)].
    apply (ex_uuids _ _ Hex). by rewrite (si_uuids _ _ _ Hsim).
Qed.
End Explained.
