(* ===== verification/NativeWorkers.v ===== *)
(** * What the tasks of native clients can rely on

    The promises of the core crates, for the JavaScript code that uses them: the tasks
    that have a handle of one queue, in any native clients, are its workers, and those
    that have a handle of one map do not lose updates; other tasks, structures, openings
    and releases do not matter. *)

From S2P Require Import Prelude.
From S2P Require Import Program.
From S2P Require Import ObjectStore.
From S2P Require Import Json.
From S2P Require Import CoreTypes.
From S2P Require Import StructMap.
From S2P Require Import StructLog.
From S2P Require Import Client.
From S2P Require Import WorkQueue.
From S2P Require Import QueueRefinement.
From S2P Require Import Linearization.
From S2P Require Import Concurrent.
From S2P Require Import ConcurrentMap.
From S2P Require Import ConcurrentLog.
From S2P Require Import ConcurrentQueue.
From S2P Require Import QueueWorkers.
From S2P Require Import Composition.
From S2P Require Import SystemLinearizable.
From S2P Require Import Isolation.
From S2P Require Import Envelope.
From S2P Require Import Binding.
From S2P Require Import BindingOperations.
From S2P Require Import BindingMachine.
From S2P Require Import BindingPrograms.
From S2P Require Import NativeSystem.
Import Core.

Lemma render_with_Ok {A F} (rd : A → option (Napi.NapiResult string)) (g : F → Napi.NapiError) y text :
  render_with rd g y = Some (Ok text) → ∃ x, y = Ok x ∧ rd x = Some (Ok text).
Proof. destruct y as [x|e]; simpl; [by exists x|done]. Qed.

Lemma queue_holds_same {J V S C} `{!FromJson J (Queue.QueueDocument V)} (m : Queue.Queue S C) a a'
    (ms : list (Queue.Message V)) :
  same_at (Queue.location m) a a' → queue_holds (J := J) m a' ms → queue_holds (J := J) m a ms.
Proof. intros [Hc _] [? (o & Ho & ?)]. split; [done|]. exists o. by rewrite Hc. Qed.

(** ** Queues *)

Section Queues.
Context {S E J Value M : Type} `{!JsonValues J Value, !BindingCodec J Value, !UuidCrate,
  !Display E, !Display J, !Backend E M}.
Context `{!JsonRoundTrip (J := J) (D := Queue.QueueDocument Value) id}.
Context {spurious delayed : bool} {a0 : astore} {m0 : M} {holds : M → astore → Prop}.
Context `{!BackendLinearizes E M spurious delayed a0 m0 holds}.
Context (clients : nat → Client.Objsds S) (queue_clients : nat → S * string).
Context (m : Napi.StoredQueue S).
Implicit Types (n : native S E M).

(** Clients of which some tasks use the queue [m], which was created empty. *)
Record native_queue n : Prop := MkNativeQueue {
  nq_run : native_run (m0 := m0) (a0 := a0) clients queue_clients (StoredQueue m) n;
  nq_coherent : coherent a0;
  nq_empty : queue_holds (J := J) m a0 ([] : list (Queue.Message Value));
  nq_uuids : NoDup (ns_uuids n);
}.

Abbreviation asks n p t := (asked (Value := Value) (StoredQueue m) n p t).

Definition queue_requests n (id : nat) : queue_op Value :=
  match '(p, t) ← decode_nat id; asks n p t with Some (CoreQueue o) => o | _ => QLen end.

Lemma queue_requests_task n p t o : asks n p t = Some (CoreQueue o) → queue_requests n (task_id p t) = o.
Proof. intros Ho. unfold queue_requests, task_id. rewrite decode_encode_nat. simpl. by rewrite Ho. Qed.

(** The tasks are the workers of [c]. *)
Lemma native_workers n :
  native_queue n →
  ∃ c : config E (result (queue_output Value) (Queue.Error E J)),
    runs_asked (a0 := a0) (spurious := spurious) (holds := holds) (Value := Value)
      (StoredQueue m) (run_queue m) (render_with render_queue Napi.queue_error) n c ∧
    workers spurious m (queue_requests n) a0 c.
Proof.
  intros [Hrun Hcoh Hempty Hnd].
  destruct (native_explained (B := result (queue_output Value) (Queue.Error E J))
    clients queue_clients (StoredQueue m) (run_queue m)
    (render_with render_queue Napi.queue_error) n Hrun) as (c & Hc).
  exists c. split; [done|]. split; [done|done|apply Hc| |by apply Hc].
  intros id th Hth. destruct (ra_threads _ _ _ _ _ Hc id th Hth) as (p & t & o & -> & Ho & Hq).
  destruct o as [| |o]; simplify_eq/=. by rewrite (queue_requests_task _ _ _ _ Ho).
Qed.

(** The output of each operation. *)
Definition output_of (o : queue_op Value) (x : queue_output Value) : Prop :=
  match o with
  | QPublish _ => ∃ i, x = OutPublished i
  | QClaim _ => ∃ claim, x = OutClaim claim
  | QAck _ _ => ∃ a, x = OutAck a
  | QLen => ∃ k, x = OutLen k
  | QIsEmpty => ∃ b, x = OutIsEmpty b
  end.

Lemma queue_run_output (o : queue_op Value) :
  results_all (λ y, ∀ x, y = Ok x → output_of o x) (queue_run (E := E) (J := J) m o).
Proof. destruct o; apply results_all_bind; intros [y|e] x; simpl; try done; intros [= <-]; by eexists. Qed.

(** A task that returned a text: its operation returned, in [c], what the text renders. *)
Lemma native_returned n c p t o text :
  runs_asked (a0 := a0) (spurious := spurious) (holds := holds) (Value := Value)
    (StoredQueue m) (run_queue m) (render_with render_queue Napi.queue_error) n c →
  asks n p t = Some (CoreQueue o) → task_result n p t = Some (Ok text) →
  ∃ x : queue_output Value, output_of o x ∧ render_queue x = Some (Ok text) ∧
    returned_ok (E := E) (J := J) c (task_id p t) x (task_clock n p t) (task_uuids n p t).
Proof.
  intros Hc Ho Hr.
  destruct (ra_answered _ _ _ _ _ Hc p t _ _ Ho Hr) as (th & y & Hth & Hop & Hy & Hrd & Hus & Hck).
  apply render_with_Ok in Hrd as (x & -> & Hrd). injection Hop as Hop.
  assert (results_all (λ y, ∀ x, y = Ok x → output_of o x) (t_cur th)) as Hall.
  { eapply creachable_results; [apply Hc|exact Hth|]. rewrite <- Hop. apply queue_run_output. }
  rewrite Hy in Hall. exists x. split; [by apply Hall|]. split; [done|]. by exists th.
Qed.

(** C9: exclusion, end to end.  Two tasks of JavaScript clients, of one process or of two,
    that claimed messages of one queue returned the JSON of two claims; if they are claims
    of the same message, one was made at a clock reading at or after the deadline of the
    other's lease.  The clients run any other tasks, on other structures and on this queue,
    open and release handles, on any backend that linearizes. *)
Theorem native_leases_exclusive n p1 t1 d1 text1 p2 t2 d2 text2 :
  native_queue n → (p1, t1) ≠ (p2, t2) →
  asks n p1 t1 = Some (CoreQueue (QClaim d1)) → task_result n p1 t1 = Some (Ok text1) →
  asks n p2 t2 = Some (CoreQueue (QClaim d2)) → task_result n p2 t2 = Some (Ok text2) →
  ∃ claim1 claim2 : option (Queue.Claim Value),
    render_queue (OutClaim claim1) = Some (Ok text1) ∧
    render_queue (OutClaim claim2) = Some (Ok text2) ∧
    ∀ cl1 cl2, claim1 = Some cl1 → claim2 = Some cl2 →
      Queue.claim_id cl1 = Queue.claim_id cl2 →
      ∃ now1 now2, task_clock n p1 t1 = [now1] ∧ task_clock n p2 t2 = [now2] ∧
        (now1 < Queue.lease_expires_at_millis cl1)%N ∧
        (now2 < Queue.lease_expires_at_millis cl2)%N ∧
        (Queue.lease_expires_at_millis cl1 ≤ now2 ∨ Queue.lease_expires_at_millis cl2 ≤ now1)%N.
Proof.
  intros Hn Hne Ho1 Hr1 Ho2 Hr2. destruct (native_workers n Hn) as (c & Hc & Hw).
  destruct (native_returned n c p1 t1 _ text1 Hc Ho1 Hr1) as (x1 & [claim1 ->] & Hj1 & H1).
  destruct (native_returned n c p2 t2 _ text2 Hc Ho2 Hr2) as (x2 & [claim2 ->] & Hj2 & H2).
  exists claim1, claim2. split_and!; [done..|]. intros cl1 cl2 -> -> Hid.
  assert (task_id p1 t1 ≠ task_id p2 t2) as Hne' by (intros [-> ->]%task_id_inj; done).
  destruct (worker_leases_exclusive _ _ _ _ _ _ _ _ _ _ _ _ _ Hw Hne' H1 H2 Hid)
    as (now1 & now2 & ?).
  exists now1, now2. tauto.
Qed.

(** C10: delivery, end to end.  At every moment the object of the queue is a valid queue;
    a message whose publication returned its identifier to JavaScript is there, unless some
    task asked to acknowledge it; and one whose acknowledgement returned [acknowledged] is
    not. *)
Theorem native_at_least_once n :
  native_queue n →
  ∃ a ms, holds (ns_backend n) a ∧ queue_holds (J := J) m a ms ∧
    (∀ p t value text,
       asks n p t = Some (CoreQueue (QPublish value)) → task_result n p t = Some (Ok text) →
       ∃ i, Napi.json_string (MessageId_display i) = Ok text ∧
         (i ∈ Queue.id <$> ms ∨ ∃ p' t' tok, asks n p' t' = Some (CoreQueue (QAck i tok)))) ∧
    (∀ p t i tok text,
       asks n p t = Some (CoreQueue (QAck i tok)) → task_result n p t = Some (Ok text) →
       ∃ ack, Napi.json_string (Napi.ack_text ack) = Ok text ∧
         (ack = Queue.Acknowledged → i ∉ Queue.id <$> ms)).
Proof.
  intros Hn. destruct (native_workers n Hn) as (c & Hc & Hw).
  destruct (worker_at_least_once _ _ _ _ _ Hw) as (ms & Hms & Hpub & Hack).
  destruct (ra_store _ _ _ _ _ Hc) as (a & Ha & Hsame).
  exists a, ms. split; [done|]. split; [by eapply queue_holds_same|]. split.
  - intros p t value text Ho Hr.
    destruct (native_returned n c p t _ text Hc Ho Hr) as (x & [i ->] & [= Hj] & Hx).
    exists i. split; [done|].
    destruct (Hpub _ _ _ _ Hx) as [?|(id & th & tok & Hth & Hop & _)]; [by left|right].
    destruct (ra_threads _ _ _ _ _ Hc id th Hth) as (p' & t' & o & -> & Ho' & Hq).
    destruct o as [| |o]; try done. rewrite (queue_requests_task _ _ _ _ Ho') in Hop. subst o.
    by exists p', t', tok.
  - intros p t i tok text Ho Hr.
    destruct (native_returned n c p t _ text Hc Ho Hr) as (x & [ack ->] & [= Hj] & Hx).
    exists ack. split; [done|]. intros ->. eapply Hack; [|exact Hx]. by apply queue_requests_task.
Qed.
End Queues.

(** ** Maps *)

Lemma map_holds_same {J V S} `{!FromJson J (Map.OwnedMapDocument V)} (m : Map.Map S) a a'
    (es : gmap string V) :
  same_at (Map.location m) a a' → map_holds (J := J) m a' es → map_holds (J := J) m a es.
Proof. intros [Hc _] (o & Ho & ?). exists o. by rewrite Hc. Qed.

Section Maps.
Context {S E J Value M : Type} `{!JsonValues J Value, !BindingCodec J Value, !UuidCrate,
  !Display E, !Display J, !Backend E M}.
Context `{!JsonRoundTrip (J := J) (D := Map.OwnedMapDocument Value) id}.
Context {spurious delayed : bool} {a0 : astore} {m0 : M} {holds : M → astore → Prop}.
Context `{!BackendLinearizes E M spurious delayed a0 m0 holds}.
Context (clients : nat → Client.Objsds S) (queue_clients : nat → S * string).
Context (m : Map.Map S) (es0 : gmap string Value).
Implicit Types (n : native S E M).

(** Clients of which some tasks use the map [m], whose entries were [es0]. *)
Record native_map n : Prop := MkNativeMap {
  nm_run : native_run (m0 := m0) (a0 := a0) clients queue_clients (StoredMap m) n;
  nm_coherent : coherent a0;
  nm_entries : map_holds (J := J) m a0 es0;
}.

Abbreviation asks n p t := (asked (Value := Value) (StoredMap m) n p t).

Definition map_requests n (id : nat) : map_op Value :=
  match '(p, t) ← decode_nat id; asks n p t with Some (CoreMap o) => o | _ => OpEntries end.

Lemma map_requests_task n p t o : asks n p t = Some (CoreMap o) → map_requests n (task_id p t) = o.
Proof. intros Ho. unfold map_requests, task_id. rewrite decode_encode_nat. simpl. by rewrite Ho. Qed.

(** C11: no lost updates, end to end.  The map ends up with exactly the changes of some of
    the operations tasks asked of it, each at most once and one after another; a task that
    returned to JavaScript returned the JSON of what its operation gives at its place in
    that order, or, when it changed nothing, at some point of it. *)
Theorem native_map_no_lost_update n :
  native_map n →
  ∃ order a, NoDup order ∧ holds (ns_backend n) a ∧
    map_holds (J := J) m a (map_after (map_requests n) es0 order) ∧
    (∀ p t o text, asks n p t = Some (CoreMap o) → task_result n p t = Some (Ok text) →
       ∃ k v, let model := map_model o (map_after (map_requests n) es0 (take k order)) in
         render_map (model.2 v) = Some (Ok text) ∧
         ((order !! k = Some (task_id p t) ∧ is_Some model.1) ∨
          ((task_id p t ∉ order) ∧ model.1 = None))) ∧
    ∀ id, id ∈ order → ∃ p t o, id = task_id p t ∧ asks n p t = Some (CoreMap o).
Proof.
  intros [Hrun Hcoh Hh].
  destruct (native_explained (B := result (map_output Value) (Error E J)) clients queue_clients
    (StoredMap m) (run_map m) (render_with render_map Napi.operation_error) n Hrun) as (c & Hc).
  assert (∀ id th, c_threads c !! id = Some th → ∃ p t o, id = task_id p t ∧
    asks n p t = Some (CoreMap o) ∧ t_op th = map_run m (map_requests n id)) as Hth.
  { intros id th Hth. destruct (ra_threads _ _ _ _ _ Hc id th Hth) as (p & t & o & -> & Ho & Hq).
    destruct o as [o| |]; simplify_eq/=. exists p, t, o. by rewrite (map_requests_task _ _ _ _ Ho). }
  destruct (concurrent_map_no_lost_update spurious m (map_requests n) a0 es0 c Hcoh Hh)
    as (Hnd & Hm & Hok & Hin); [apply Hc|by intros id th (? & ? & ? & _ & _ & ?)%Hth|].
  destruct (ra_store _ _ _ _ _ Hc) as (a & Ha & Hsame).
  exists (c_log c).*1, a. split_and!; [done|done|by eapply map_holds_same| |].
  - intros p t o text Ho Hr.
    destruct (ra_answered _ _ _ _ _ Hc p t _ _ Ho Hr) as (th & y & Ht & _ & Hy & Hrd & _).
    apply render_with_Ok in Hrd as (x & -> & Hrd).
    destruct (Hok _ th x Ht Hy) as (k & v & _ & Hx & Hk). exists k, v.
    rewrite (map_requests_task _ _ _ _ Ho) in Hx, Hk. subst x. by split.
  - intros id (th & _ & (p & t & o & -> & Ho & _)%Hth & _)%Hin. by exists p, t, o.
Qed.
End Maps.

(** ** Logs *)

Section Logs.
Context {S E J Value M : Type} `{!JsonValues J Value, !BindingCodec J Value, !UuidCrate,
  !Display E, !Display J, !Backend E M}.
Context `{!JsonRoundTrip (J := J) (D := Log.LogDocument Value) id}.
Context {spurious delayed : bool} {a0 : astore} {m0 : M} {holds : M → astore → Prop}.
Context `{!BackendLinearizes E M spurious delayed a0 m0 holds}.
Context (clients : nat → Client.Objsds S) (queue_clients : nat → S * string).
Context (m : Log.Log S).
Implicit Types (n : native S E M).

(** Clients of which some tasks use the log [m], which was created empty. *)
Record native_log n : Prop := MkNativeLog {
  nl_run : native_run (m0 := m0) (a0 := a0) clients queue_clients (StoredLog m) n;
  nl_coherent : coherent a0;
  nl_empty : log_holds (J := J) m a0 ([] : list (Log.LogRecord Value));
  nl_uuids : NoDup (ns_uuids n);
}.

Abbreviation asks n p t := (asked (Value := Value) (StoredLog m) n p t).

Definition log_requests n (id : nat) : log_op Value :=
  match '(p, t) ← decode_nat id; asks n p t with Some (CoreLog o) => o | _ => LogRecords end.

Lemma log_requests_task n p t o : asks n p t = Some (CoreLog o) → log_requests n (task_id p t) = o.
Proof. intros Ho. unfold log_requests, task_id. rewrite decode_encode_nat. simpl. by rewrite Ho. Qed.

Lemma log_holds_same a a' (rs : list (Log.LogRecord Value)) :
  same_at (Log.location m) a a' → log_holds (J := J) m a' rs → log_holds (J := J) m a rs.
Proof. intros [Hc _] [? (o & Ho & ?)]. split; [done|]. exists o. by rewrite Hc. Qed.

Lemma append_output value :
  results_all (λ y, ∀ x, y = Ok x → ∃ i, x = OutId i)
    (log_run (E := E) (J := J) m (LogAppend value)).
Proof. apply results_all_bind. intros [i|e] x; simpl; [|done]. intros [= <-]. by exists i. Qed.

(** Append-only, end to end: the record of every append that returned its identifier to
    JavaScript is in the log, and only records tasks asked to append are; a read returned
    the JSON of what a scan of some of them gives. *)
Lemma native_log_append_only n :
  native_log n →
  ∃ a rs, holds (ns_backend n) a ∧ log_holds (J := J) m a rs ∧
    (∀ p t value text, asks n p t = Some (CoreLog (LogAppend value)) →
       task_result n p t = Some (Ok text) →
       ∃ i, Napi.json_string (LogId_display i) = Ok text ∧ Log.MkRecord i value ∈ rs) ∧
    (∀ r, r ∈ rs → ∃ p t, asks n p t = Some (CoreLog (LogAppend (Log.value r)))) ∧
    (∀ p t o text, asks n p t = Some (CoreLog o) → task_result n p t = Some (Ok text) →
       (∀ value, o ≠ LogAppend value) →
       ∃ rs' x, sorted_by Log.key rs' ∧ rs' ⊆ rs ∧ log_view o rs' = Some x ∧
         render_log x = Some (Ok text)).
Proof.
  intros [Hrun Hcoh Hempty Hnd].
  destruct (native_explained (B := result (log_output Value) (Error E J)) clients queue_clients
    (StoredLog m) (run_log m) (render_with render_log Napi.operation_error) n Hrun) as (c & Hc).
  assert (∀ id th, c_threads c !! id = Some th → ∃ p t o, id = task_id p t ∧
    asks n p t = Some (CoreLog o) ∧ t_op th = log_run m (log_requests n id)) as Hth.
  { intros id th Hth. destruct (ra_threads _ _ _ _ _ Hc id th Hth) as (p & t & o & -> & Ho & Hq).
    destruct o as [|o|]; simplify_eq/=. exists p, t, o. by rewrite (log_requests_task _ _ _ _ Ho). }
  destruct (concurrent_log_append_only spurious m (log_requests n) a0 c Hcoh Hempty)
    as ((rs & Hrs & Hperm & _ & Happ) & Hin & Hread);
    [apply Hc|by intros id th (? & ? & ? & _ & _ & ?)%Hth|by apply Hc|].
  destruct (ra_store _ _ _ _ _ Hc) as (a & Ha & Hsame).
  exists a, rs. split; [done|]. split; [by eapply log_holds_same|]. split_and!.
  - intros p t value text Ho Hr.
    destruct (ra_answered _ _ _ _ _ Hc p t _ _ Ho Hr) as (th & y & Ht & Hop & Hy & Hrd & _).
    assert (t_op th = log_run m (LogAppend value)) as Hop' by (by injection Hop).
    apply render_with_Ok in Hrd as (x & -> & Hrd).
    pose proof (append_output value) as Hout. rewrite <- Hop' in Hout.
    eapply creachable_results in Hout; [|apply Hc|exact Ht]. rewrite Hy in Hout.
    destruct (Hout x eq_refl) as [i ->]. injection Hrd as Hrd. exists i. split; [done|].
    eapply Happ; [exact Ht| |exact Hy]. by apply log_requests_task.
  - intros r Hr. rewrite Hperm in Hr. apply list_elem_of_omap in Hr as (id & Hid & Har).
    destruct (Hin id Hid) as (th & u & value & Ht & Hop & _ & Har' & _).
    rewrite Har in Har'. injection Har' as ->.
    destruct (Hth id th Ht) as (p & t & o & -> & Ho & _).
    rewrite (log_requests_task _ _ _ _ Ho) in Hop. subst o. by exists p, t.
  - intros p t o text Ho Hr Hne.
    destruct (ra_answered _ _ _ _ _ Hc p t _ _ Ho Hr) as (th & y & Ht & _ & Hy & Hrd & _).
    apply render_with_Ok in Hrd as (x & -> & Hrd).
    destruct (Hread _ th x Ht Hy) as (k & rs' & _ & Hs & Hp & Hv);
      [by rewrite (log_requests_task _ _ _ _ Ho)|].
    rewrite (log_requests_task _ _ _ _ Ho) in Hv. exists rs', x. split_and!; [done| |done|done].
    intros r. rewrite Hp, Hperm, !list_elem_of_omap. intros (id & Hid & Hr'). exists id.
    split; [|done]. apply list_elem_of_lookup in Hid as [j Hj].
    apply lookup_take_Some in Hj as [Hj _]. apply list_elem_of_lookup. by exists j.
Qed.
End Logs.
