(* ===== verification/BindingErrors.v ===== *)
(** * Errors across the language boundary

    The binding packs an error into the text of a native error, as a JSON envelope
    behind a prefix; the TypeScript facade unpacks it.  What JavaScript can tell of a
    failure survives the trip: its kind, and the versions of a conflict. *)

From S2P Require Import Prelude.
From S2P Require Import ObjectStore.
From S2P Require Import CoreTypes.
From S2P Require Import WorkQueue.
From S2P Require Import Binding.
Import Core.

(** What serde_json and JavaScript document: parsing what serde_json displayed gives the
    value back; a field of an object is the one it was built with; strings are
    themselves, and not [null]. *)
Class JsLaws (J Value : Type) `{!JsonValues J Value, !Napi.JsJson Value} : Prop := {
  js_parse_display (v : Value) : Napi.js_parse (value_display v) = Some v;
  js_field_object (fields : list (string * Value)) key :
    NoDup fields.*1 →
    Napi.js_field (json_object fields) key = Some (list_to_map (M := gmap string Value) fields !! key);
  json_str_inj (a b : string) : json_str (Value := Value) a = json_str b → a = b;
  json_str_null (a : string) : json_str (Value := Value) a ≠ json_null;
}.

(** What JavaScript is told of a failure. *)
Inductive failure :=
  | InvalidConfiguration
  | StoreFailure
  | BadDocument
  | Missing
  | Existing (observed : Version)
  | Conflicting (expected : Version) (observed : option Version)
  | NotCompatible.

Definition core_failure {E J} (e : Error E J) : failure :=
  match e with
  | Configuration _ => InvalidConfiguration
  | Store _ => StoreFailure
  | Document _ => BadDocument
  | NotFound => Missing
  | AlreadyExists e => Existing (already_observed e)
  | Conflict e => Conflicting (conflict_expected e) (conflict_observed e)
  | Incompatible _ => NotCompatible
  end.

Definition queue_failure {E J} (e : Queue.Error E J) : failure :=
  match e with
  | Queue.Configuration _ | Queue.InvalidLeaseDuration => InvalidConfiguration
  | Queue.Store _ => StoreFailure
  | Queue.Document _ | Queue.Corrupt _ | Queue.AttemptOverflow => BadDocument
  | Queue.NotFound => Missing
  | Queue.AlreadyExists observed => Existing observed
  | Queue.Conflict expected observed => Conflicting expected observed
  | Queue.Incompatible _ => NotCompatible
  end.

Definition code_of (f : failure) : string :=
  match f with
  | InvalidConfiguration => "ERR_OBJSDS_INVALID_CONFIGURATION"
  | StoreFailure => "ERR_OBJSDS_STORE"
  | BadDocument => "ERR_OBJSDS_DOCUMENT"
  | Missing => "ERR_OBJSDS_NOT_FOUND"
  | Existing _ => "ERR_OBJSDS_ALREADY_EXISTS"
  | Conflicting _ _ => "ERR_OBJSDS_CONFLICT"
  | NotCompatible => "ERR_OBJSDS_INCOMPATIBLE"
  end.

Section Errors.
Context {E J Value : Type} `{!JsonValues J Value, !Napi.JsJson Value, !JsLaws J Value,
  !Display E, !Display J}.

Definition conflict_details (expected : Version) (observed : option Version) : Value :=
  json_object
    [("expectedVersion", json_str (version_as_str expected));
     ("observedVersion",
       match observed with
       | Some version => json_str (version_as_str version)
       | None => json_null
       end)].

Definition details_of (f : failure) : Value :=
  match f with
  | Existing observed => json_object [("observedVersion", json_str (version_as_str observed))]
  | Conflicting expected observed => conflict_details expected observed
  | _ => json_object []
  end.

(** An error of the core crate or of the queue, and what the binding makes of it. *)
Definition native_error (e : Error E J + Queue.Error E J) : Napi.NapiError :=
  match e with inl e => Napi.operation_error e | inr e => Napi.queue_error e end.

Definition failure_of (e : Error E J + Queue.Error E J) : failure :=
  match e with inl e => core_failure e | inr e => queue_failure e end.

Lemma native_error_spec e :
  ∃ message, native_error e = Napi.binding_error (code_of (failure_of e)) message
                                (details_of (failure_of e)).
Proof. destruct e as [[]|[]]; by eexists. Qed.

Lemma string_length_app a b :
  String.length (a +:+ b) = String.length a + String.length b.
Proof.
  induction a as [|c a IH]; [done|].
  change (String c a +:+ b) with (String c (a +:+ b)). simpl. by rewrite IH.
Qed.

Lemma substring_suffix a b :
  String.substring (String.length a) (String.length b) (a +:+ b) = b.
Proof.
  induction a as [|c a IH]; [|exact IH].
  change ("" +:+ b) with b. simpl. induction b as [|c b IH]; [done|]. simpl. by rewrite IH.
Qed.

(** The facade unpacks what [binding_error] packed. *)
Lemma decorate_binding_error code message (details : Value) :
  Napi.decorate_native_error (Napi.reason (Napi.binding_error code message details)) =
  Some (Napi.MkObjsdsError (Some (json_str code)) (Some (json_str message)) (Some details)).
Proof.
  unfold Napi.decorate_native_error, Napi.binding_error. cbn [Napi.reason].
  set (text := value_display _).
  unfold str_starts_with. rewrite prefix_append, string_length_app.
  rewrite Nat.add_comm, Nat.add_sub, substring_suffix.
  unfold text. rewrite js_parse_display. cbn [mbind option_bind].
  rewrite !js_field_object by (simpl; by apply (bool_decide_unpack _)). done.
Qed.

Lemma code_of_inj_kind f g :
  code_of f = code_of g →
  match f, g with
  | Existing _, Existing _ | Conflicting _ _, Conflicting _ _ => True
  | _, _ => f = g
  end.
Proof. by destruct f, g. Qed.

Lemma json_version_inj (v w : Version) :
  json_str (Value := Value) (version_as_str v) = json_str (version_as_str w) → v = w.
Proof. intros Heq%json_str_inj. destruct v, w. simpl in Heq. by rewrite Heq. Qed.

Lemma details_of_inj f g : code_of f = code_of g → details_of f = details_of g → f = g.
Proof.
  intros Hc%code_of_inj_kind Hd.
  assert (∀ key, Napi.js_field (details_of f) key = Napi.js_field (details_of g) key) as Hfield
    by (by rewrite Hd).
  destruct f as [| | | |v|v o|], g as [| | | |w|w o'|]; try done; simpl in Hfield;
    unfold conflict_details in Hfield.
  - specialize (Hfield "observedVersion").
    rewrite !js_field_object in Hfield by (simpl; by apply (bool_decide_unpack _)).
    simpl in Hfield. rewrite !lookup_insert_eq in Hfield. simplify_eq.
    f_equal. by apply json_version_inj.
  - pose proof (Hfield "expectedVersion") as He. specialize (Hfield "observedVersion").
    rewrite !js_field_object in He, Hfield by (simpl; by apply (bool_decide_unpack _)).
    simpl in He, Hfield.
    rewrite !(lookup_insert_ne _ "expectedVersion" "observedVersion") in Hfield by done.
    rewrite !lookup_insert_eq in He, Hfield. injection He as He. injection Hfield as Ho.
    apply json_version_inj in He as ->. f_equal.
    destruct o, o'; simpl in Ho; [f_equal; by apply json_version_inj| | |done].
    + by apply json_str_null in Ho.
    + symmetry in Ho. by apply json_str_null in Ho.
Qed.

(** C35: errors survive the trip to JavaScript.  Every error of the core crate or of the
    queue reaches the facade as an [ObjsdsError] with one of the codes the facade
    declares, and two errors the facade cannot tell apart by code and details are the
    same failure: the same kind, and for an existing object or a conflict the same
    versions, an absent object included. *)
Theorem native_errors_decoded (e e' : Error E J + Queue.Error E J) :
  let decoded e := Napi.decorate_native_error (Napi.reason (native_error e)) in
  (∃ o, decoded e = Some o ∧ Napi.code o = Some (json_str (code_of (failure_of e)))) ∧
  (∀ o o', decoded e = Some o → decoded e' = Some o' →
     Napi.code o = Napi.code o' → Napi.details o = Napi.details o' →
     failure_of e = failure_of e').
Proof.
  destruct (native_error_spec e) as [m He], (native_error_spec e') as [m' He'].
  simpl. rewrite He, He', !decorate_binding_error. split; [by eexists|].
  intros o o' [= <-] [= <-]. simpl. intros [= Hc] [= Hd].
  apply details_of_inj; [|done]. by eapply json_str_inj.
Qed.
End Errors.
