(* ===== verification/BindingScenarios.v ===== *)
(** * Scenarios of the binding

    A concrete JSON library, a scheduler for the tasks of a native client over the
    in-memory store, an execution that applies the theorems of the binding, and one that
    draws every handle. *)

From S2P Require Import Prelude.
From S2P Require Import Program.
From S2P Require Import ObjectStore.
From S2P Require Import MemoryStore.
From S2P Require Import Json.
From S2P Require Import CoreTypes.
From S2P Require Import StructMap.
From S2P Require Import StructLog.
From S2P Require Import Client.
From S2P Require Import WorkQueue.
From S2P Require Import Scenarios.
From S2P Require Import Envelope.
From S2P Require Import FilesystemScenarios.
From S2P Require Import Binding.
From S2P Require Import BindingOperations.
From S2P Require Import BindingMachine.
From S2P Require Import BindingRegistry.
From S2P Require Import BindingErrors.

(** ** A JSON library *)

(** Values are trees; an object lists its keys and values in turn. *)
Definition jvalue : Type := gen_tree (string + N + bool).

Definition text_of {D} `{Countable D} (d : D) : string :=
  String.string_of_list_byte (ExampleCodec.bits (encode d)).

Definition parse_text {D} `{Countable D} (text : string) : option D :=
  p ← ExampleCodec.unbits (String.list_byte_of_string text); decode p.

Lemma parse_text_of {D} `{Countable D} (d : D) : parse_text (text_of d) = Some d.
Proof.
  unfold parse_text, text_of.
  rewrite String.list_byte_of_string_of_list_byte, ExampleCodec.unbits_bits. simpl.
  apply decode_encode.
Qed.

Definition jstr (s : string) : jvalue := GenLeaf (inl (inl s)).

Fixpoint jflat (fields : list (string * jvalue)) : list jvalue :=
  match fields with [] => [] | (k, v) :: fields => jstr k :: v :: jflat fields end.

Definition jobject (fields : list (string * jvalue)) : jvalue := GenNode 1 (jflat fields).

Fixpoint jfields (vs : list jvalue) : list (string * jvalue) :=
  match vs with
  | GenLeaf (inl (inl k)) :: v :: vs => (k, v) :: jfields vs
  | _ => []
  end.

Lemma jfields_object fields : jfields (jflat fields) = fields.
Proof. induction fields as [|[k v] fields IH]; [done|]. simpl. by rewrite IH. Qed.

(** Decimal digits, the text of an identifier of the example uuid crate. *)
Fixpoint parse_decimal (acc : N) (s : string) : option N :=
  match s with
  | EmptyString => Some acc
  | String c s =>
      let d := Ascii.N_of_ascii c in
      if (48 <=? d)%N && (d <=? 57)%N then parse_decimal (acc * 10 + (d - 48)) s else None
  end.

#[global] Instance example_json : JsonValues unit jvalue := {|
  json_null := GenNode 0 [];
  json_bool b := GenLeaf (inr b);
  json_number n := GenLeaf (inl (inr n));
  json_str := jstr;
  json_object := jobject;
  value_display := text_of;
  from_str text := ok_or (parse_text text) tt;
  uuid_from_value v :=
    match v with
    | GenLeaf (inl (inl s)) => ok_or (parse_decimal 0 s) tt
    | _ => Err tt
    end;
|}.

#[global] Instance example_js : Napi.JsJson jvalue := {|
  Napi.js_parse := parse_text;
  Napi.js_field v key :=
    match v with
    | GenNode 0 _ => None
    | GenNode _ vs => Some (list_to_map (M := gmap string jvalue) (jfields vs) !! key)
    | GenLeaf _ => Some None
    end;
|}.

#[global] Instance example_js_laws : JsLaws unit jvalue.
Proof.
  split; try done.
  - intros v. apply parse_text_of.
  - intros fields key _. simpl. by rewrite jfields_object.
  - intros a b [=]. done.
Qed.

(** Anything countable is encoded as its code, and is the string of it as a value. *)
Definition by_code {T} `{Countable T} : Serializable unit jvalue T := {|
  json_text d := Ok (text_of d);
  to_value d := Ok (jstr (text_of d));
|}.

#[global] Instance example_binding : BindingCodec unit jvalue := {|
  codec_value := {| json_text v := Ok (text_of v); to_value := Ok |};
  codec_number := by_code;
  codec_string := by_code;
  codec_bool := by_code;
  codec_entries := by_code;
  codec_record := by_code;
  codec_records := by_code;
|}.

(** ** A scheduler *)

Inductive n_action :=
  | Spawn (t : nat) (op : Napi.Operation)
  | Turn (t : nat)
  | Drop (k : kind) (h : N).

Abbreviation n_state := (nconfig unit Empty_set * world Memory.State)%type.

#[local] Instance example_memory : ObjectStore Memory.State Empty_set := Memory.store true.

Definition n_call (cells : Napi.Cells unit) (w : world Memory.State) (c : Napi.bcall unit) :
    option (Napi.breply unit Empty_set c * Napi.Cells unit * world Memory.State) :=
  match Napi.cells_step (E := Empty_set) cells c with
  | Some (r, cells) => Some (r, cells, w)
  | None =>
      match c return option (Napi.breply unit Empty_set c * Napi.Cells unit *
                             world Memory.State) with
      | Napi.CoreCall core =>
          match handle (E := Empty_set) env core w with
          | Some (r, w) => Some (r, cells, w)
          | None => None
          end
      | _ => None
      end
  end.

Definition n_act (s : Napi.State unit) (x : n_action) '((c, w) : n_state) : option n_state :=
  let cells := nc_cells c in
  let tasks := nc_tasks c in
  let trace := nc_trace c in
  match x with
  | Spawn t op =>
      match tasks !! t with
      | Some _ => None
      | None =>
          Some (MkNConfig cells (<[t := MkTask op (Napi.execute (E := Empty_set)
                  (Value := jvalue) s op)]> tasks) trace, w)
      end
  | Turn t =>
      match tasks !! t with
      | Some (MkTask op (Call cc k)) =>
          match n_call cells w cc with
          | Some (r, cells, w) =>
              Some (MkNConfig cells (<[t := MkTask op (k r)]> tasks)
                      (trace ++ [Called t (existT cc r)]), w)
          | None => None
          end
      | _ => None
      end
  | Drop k h =>
      Some (MkNConfig (release k cells h).2 tasks (trace ++ [Released k h]), w)
  end.

Fixpoint n_run s (xs : list n_action) (c : n_state) : option n_state :=
  match xs with
  | [] => Some c
  | x :: xs => c ← n_act s x c; n_run s xs c
  end.

Lemma n_act_step s x c w c' w' :
  n_act s x (c, w) = Some (c', w') → nstep (Value := jvalue) s c c'.
Proof.
  destruct c as [cells tasks trace], x as [t op|t|k h]; simpl.
  - destruct (tasks !! t) eqn:Ht; [done|]. intros [= <- _]. by apply nstep_start.
  - destruct (tasks !! t) as [[op [a| |cc k]]|] eqn:Ht; try done.
    destruct (n_call cells w cc) as [[[r cells'] w1]|] eqn:Hc; [|done].
    intros [= <- _]. unfold n_call in Hc.
    destruct (Napi.cells_step cells cc) as [[r0 cells0]|] eqn:Hs;
      [simplify_eq; by eapply nstep_registry|].
    destruct cc as [core| | | | | | |]; try done.
    destruct (handle env core w) as [[r1 w2]|]; simplify_eq/=. by eapply nstep_core.
  - intros [= <- _]. apply nstep_release.
Qed.

Lemma n_run_reachable s xs c w c' w' :
  n_run s xs (c, w) = Some (c', w') → rtc (nstep (Value := jvalue) s) c c'.
Proof.
  revert c w. induction xs as [|x xs IH]; intros c w; cbn [n_run mbind option_bind].
  - intros [= -> _]. apply rtc_refl.
  - destruct (n_act s x (c, w)) as [[c1 w1]|] eqn:Hx; [|done]. intros Hr.
    eapply rtc_l; [by eapply n_act_step|by eapply IH].
Qed.

(** ** Two structures and a released handle *)

Definition native : Napi.State unit :=
  Napi.state_new (Client.MkObjsds tt "prod") (tt, "prod").

Definition turns (t n : nat) : list n_action := repeat (Turn t) n.

(** Tasks 0 and 1 open a map and a queue, interleaved; task 2 inserts into the map; task
    3 reads a map by the handle of the queue; the map is released, and task 4 finds it
    gone. *)
Definition native_schedule : list n_action :=
  [Spawn 0 (Napi.MapLifecycle Napi.Create "jobs" "v1"); Turn 0;
   Spawn 1 (Napi.QueueLifecycle Napi.OpenOrCreate "jobs" "v1")] ++ turns 1 3 ++
  turns 0 2 ++ turns 1 1 ++
  [Spawn 2 (Napi.MapInsert 1 "k" (text_of (jstr "v")))] ++ turns 2 3 ++
  [Spawn 3 (Napi.MapGet 2 "k"); Turn 3; Drop KMap 1;
   Spawn 4 (Napi.MapEntries 1); Turn 4].

Definition native_run (n : nat) : n_state :=
  default (nstart native, MkWorld Memory.default 0 0)
    (n_run native (take n native_schedule) (nstart native, MkWorld Memory.default 0 0)).

Definition result_of (t : nat) (c : n_state) : option (Napi.NapiResult string) :=
  match nc_tasks c.1 !! t with
  | Some (MkTask _ (Ret r)) => Some r
  | _ => None
  end.

Example native_run_results :
  let c := native_run 18 in
  result_of 0 c = Some (Ok (text_of 1%N)) ∧ result_of 1 c = Some (Ok (text_of 2%N)) ∧
  result_of 2 c = Some (Ok (text_of "3")) ∧ result_of 3 c = Some (Err Napi.invalid_handle) ∧
  result_of 4 c = Some (Err Napi.invalid_handle).
Proof. vm_compute. done. Qed.

Lemma native_run_reachable n :
  native_reachable (J := unit) (Value := jvalue) (Client.MkObjsds tt "prod") (tt, "prod")
    (native_run n).1.
Proof.
  unfold native_run. destruct (n_run _ _ _) as [[c w]|] eqn:Hr; [|apply rtc_refl].
  by apply n_run_reachable in Hr.
Qed.

Definition jobs_map : stored unit :=
  StoredMap (Map.MkMap tt (MkLocation "prod/maps/jobs.json") "v1").

Lemma native_registry_sound_witness :
  kind_of jobs_map = KMap ∧ ∃ t, live (nc_trace (native_run 15).1) t 1 jobs_map.
Proof.
  apply (native_registry_sound (J := unit) (Value := jvalue) (Client.MkObjsds tt "prod")
           (tt, "prod") (native_run 15).1 KMap 1 jobs_map).
  - apply native_run_reachable.
  - vm_compute. reflexivity.
Defined.

Lemma native_opening_task_witness :
  opened (J := unit) (Value := jvalue) native (Napi.MapLifecycle Napi.Create "jobs" "v1")
    (calls_of 0 (nc_trace (native_run 18).1)) (Ok (text_of 1%N)).
Proof.
  apply (native_opening_task (J := unit) (Value := jvalue) (Client.MkObjsds tt "prod")
           (tt, "prod") (native_run 18).1 0).
  - apply native_run_reachable.
  - vm_compute. reflexivity.
  - reflexivity.
Defined.

Lemma native_operation_target_witness :
  let op := Napi.MapInsert 1 "k" (text_of (jstr "v")) in
  ∃ pre i post found cs,
    nc_trace (native_run 18).1 = pre ++ Called 2 i :: post ∧
    looked_up i = Some (KMap, 1%N, found) ∧
    calls_of 2 (nc_trace (native_run 18).1) = i :: cs ∧
    match found with
    | None => cs = [] ∧ Ok (text_of "3") = Err Napi.invalid_handle ∧
        ∀ t' x, kind_of x = KMap → ¬ live pre t' 1 x
    | Some x => kind_of x = KMap ∧
        ran_on (J := unit) (Value := jvalue) x op cs (Ok (text_of "3")) ∧
        ∃ t' tk', live pre t' 1 x ∧ nc_tasks (native_run 18).1 !! t' = Some tk' ∧
          configured native (tk_op tk') = Some x
    end.
Proof.
  apply (native_operation_target (J := unit) (Value := jvalue) (Client.MkObjsds tt "prod")
           (tt, "prod") (native_run 18).1 2).
  - apply native_run_reachable.
  - vm_compute. reflexivity.
  - reflexivity.
  - reflexivity.
Defined.

Lemma native_errors_decoded_witness :
  let e : Core.Error Empty_set unit + Queue.Error Empty_set unit := inl Core.NotFound in
  ∃ o : Napi.ObjsdsError jvalue,
    Napi.decorate_native_error (Napi.reason (native_error e)) = Some o ∧
    Napi.code o = Some (json_str "ERR_OBJSDS_NOT_FOUND").
Proof. exact (proj1 (native_errors_decoded (inl Core.NotFound) (inl Core.NotFound))). Defined.

(** ** Drawing every handle *)

Definition open_nothing : Napi.Operation := Napi.MapLifecycle Napi.Open "" "v1".
Definition create_map (name : string) : Napi.Operation :=
  Napi.MapLifecycle Napi.Create name "v1".

Definition with_next (n : N) (s : Napi.Cells unit) : Napi.Cells unit :=
  Napi.MkCells n (Napi.maps s) (Napi.logs s) (Napi.queues s).

Abbreviation native_step := (nstep (E := Empty_set) (J := unit) (Value := jvalue) native).

Lemma spawn_step cells tasks trace t op :
  tasks !! t = None →
  native_step (MkNConfig cells tasks trace)
    (MkNConfig cells (<[t := MkTask op (Napi.execute native op)]> tasks) trace).
Proof. apply (nstep_start native). Qed.

(** A task that fails to open a structure has used up a handle. *)
Lemma waste_handle (c : nconfig unit Empty_set) t :
  nc_tasks c !! t = None →
  ∃ task e, rtc native_step c
    (MkNConfig (with_next ((Napi.next_handle (nc_cells c) + 1) mod 2 ^ 32) (nc_cells c))
       (<[t := task]> (nc_tasks c)) (nc_trace c ++ [Called t e])).
Proof.
  destruct c as [cells tasks trace]. simpl. intros Ht.
  eexists _, _. eapply rtc_l; [by apply (spawn_step _ _ _ t open_nothing)|].
  eapply rtc_l; [eapply nstep_registry; [apply lookup_insert_eq|done]|].
  rewrite insert_insert_eq. apply rtc_refl.
Qed.

Definition not_released (trace : list (event unit Empty_set)) : Prop :=
  ∀ k h, Released k h ∉ trace.

Lemma not_released_called trace t i :
  not_released trace → not_released (trace ++ [Called t i]).
Proof. intros Hr k h [Hin|Hin%list_elem_of_singleton]%elem_of_app; [by eapply Hr|done]. Qed.

Lemma waste_handles (n : N) (c : nconfig unit Empty_set) m :
  (Napi.next_handle (nc_cells c) < 2 ^ 32)%N →
  (∀ t, m ≤ t → nc_tasks c !! t = None) → not_released (nc_trace c) →
  ∃ c' m', rtc native_step c c' ∧ m ≤ m' ∧
    nc_cells c' = with_next ((Napi.next_handle (nc_cells c) + n) mod 2 ^ 32) (nc_cells c) ∧
    (∀ t, t < m → nc_tasks c' !! t = nc_tasks c !! t) ∧
    (∀ t, m' ≤ t → nc_tasks c' !! t = None) ∧ not_released (nc_trace c').
Proof.
  intros Hlt Hfree Hrel.
  induction n as [|n (c1 & m1 & Hsteps & Hm & Hcells & Hold & Hfree1 & Hrel1)] using N.peano_ind.
  - exists c, m. split; [apply rtc_refl|]. split; [done|]. split; [|done].
    rewrite N.add_0_r, N.mod_small by done. by destruct c as [[]].
  - destruct (waste_handle c1 m1) as (task & e & Hstep); [by apply Hfree1|].
    eexists _, (Datatypes.S m1). split; [by etrans|]. split; [lia|]. simpl. split_and!.
    + rewrite Hcells. simpl. unfold with_next. simpl. f_equal.
      rewrite N.Div0.add_mod_idemp_l. f_equal. lia.
    + intros t Ht. rewrite lookup_insert_ne by lia. by apply Hold.
    + intros t Ht. rewrite lookup_insert_ne by lia. apply Hfree1. lia.
    + by apply not_released_called.
Qed.

Definition map_named (name : string) : Map.Map unit :=
  Map.MkMap tt (MkLocation ("prod/maps/" +:+ name +:+ ".json")) "v1".

Lemma create_step cells tasks trace t op l b
    (k : Napi.breply unit Empty_set (Napi.CoreCall (Create l b)) → _) :
  tasks !! t = Some (MkTask op (Call (R := Napi.breply unit Empty_set)
                                  (Napi.CoreCall (Create l b)) k)) →
  native_step (MkNConfig cells tasks trace)
    (MkNConfig cells (<[t := MkTask op (k (Ok (version_new "1")))]> tasks)
       (trace ++ [Called t (existT (Napi.CoreCall (Create l b)) (Ok (version_new "1")))])).
Proof. apply (nstep_core native _ _ _ _ _ (Create l b)). Qed.

(** A task that creates a map, on a store that lets it. *)
Lemma create_map_steps (c : nconfig unit Empty_set) t name :
  is_path_segment name = true → nc_tasks c !! t = None → not_released (nc_trace c) →
  ∃ c', rtc native_step c c' ∧ not_released (nc_trace c') ∧
    nc_cells c' = Napi.MkCells ((Napi.next_handle (nc_cells c) + 1) mod 2 ^ 32)
      (<[Napi.next_handle (nc_cells c) := map_named name]> (Napi.maps (nc_cells c)))
      (Napi.logs (nc_cells c)) (Napi.queues (nc_cells c)) ∧
    nc_tasks c' = <[t := MkTask (create_map name)
      (Ret (Napi.json_string (Napi.next_handle (nc_cells c))))]> (nc_tasks c).
Proof.
  destruct c as [cells tasks trace]. simpl. intros Hname Ht Hrel.
  assert (Map.finish (Map.with_schema (Client.map (Napi.client native) name) "v1") =
          Ok (map_named name)) as Hfin.
  { unfold Map.finish. simpl. rewrite Client.core_location_spec by done. by rewrite Hname. }
  eexists. split; [|split; [|split]].
  - eapply rtc_l; [by apply (spawn_step _ _ _ t (create_map name))|].
    eapply rtc_l; [eapply nstep_registry; [apply lookup_insert_eq|done]|].
    rewrite insert_insert_eq. cbn [prog_bind].
    unfold Napi.open_map, Map.create. rewrite Hfin.
    eapply rtc_l; [eapply (create_step _ _ _ t), lookup_insert_eq|].
    rewrite insert_insert_eq.
    eapply rtc_l; [eapply nstep_registry; [apply lookup_insert_eq|done]|].
    rewrite insert_insert_eq. apply rtc_refl.
  - simpl. by repeat apply not_released_called.
  - done.
  - done.
Qed.

(** C36: handles run out.  [State::handle] wraps around silently: a client can reach a
    state in which two tasks, asked to create different maps, have returned the same
    handle although nothing was ever released, and the handle names the second map. *)
Theorem native_handle_reused :
  ∃ c t, native_reachable (J := unit) (Value := jvalue) (Client.MkObjsds tt "prod") (tt, "prod") c ∧
    0 < t ∧ not_released (nc_trace c) ∧
    nc_tasks c !! 0 = Some (MkTask (create_map "a") (Ret (Napi.json_string 1%N))) ∧
    nc_tasks c !! t = Some (MkTask (create_map "b") (Ret (Napi.json_string 1%N))) ∧
    cells_lookup (nc_cells c) KMap 1 = Some (StoredMap (map_named "b")).
Proof.
  destruct (create_map_steps (nstart native) 0 "a") as (c1 & Hc1 & Hr1 & Hcells1 & Ht1);
    [done|done|by intros k h Hin%not_elem_of_nil|].
  destruct (waste_handles (2 ^ 32 - 1) c1 1) as (c2 & m & Hc2 & Hm & Hcells2 & Hold & Hfree & Hr2);
    [by rewrite Hcells1| |done|].
  { intros t Ht. rewrite Ht1, lookup_insert_ne by lia. apply lookup_empty. }
  destruct (create_map_steps c2 m "b") as (c3 & Hc3 & Hr3 & Hcells3 & Ht3);
    [done|by apply Hfree|done|].
  assert (Napi.next_handle (nc_cells c2) = 1%N) as Hnext by (by rewrite Hcells2, Hcells1).
  rewrite Hnext in Hcells3, Ht3.
  exists c3, m. split; [by unfold native_reachable; etrans; [|etrans]|]. split; [lia|]. split; [done|].
  rewrite Ht3, Hcells3. split_and!.
  - rewrite lookup_insert_ne by lia. rewrite Hold by lia. rewrite Ht1.
    apply lookup_insert_eq.
  - apply lookup_insert_eq.
  - simpl. by rewrite lookup_insert_eq.
Qed.
