(* ===== verification/NativeScenarios.v ===== *)
(** * Scenarios of native clients

    A scheduler for native clients on a backend, and an execution on the in-memory
    adapter that applies the theorems of [NativeWorkers]: two clients open one queue and
    one map, publish, claim a message twice, and update the map. *)

From S2P Require Import Prelude.
From S2P Require Import Program.
From S2P Require Import ObjectStore.
From S2P Require Import MemoryStore.
From S2P Require Import Json.
From S2P Require Import CoreTypes.
From S2P Require Import StructMap.
From S2P Require Import Client.
From S2P Require Import WorkQueue.
From S2P Require Import QueueRefinement.
From S2P Require Import Linearization.
From S2P Require Import Concurrent.
From S2P Require Import ConcurrentMap.
From S2P Require Import Scenarios.
From S2P Require Import Composition.
From S2P Require Import Backends.
From S2P Require Import SystemScheduler.
From S2P Require Import StructWorkers.
From S2P Require Import Envelope.
From S2P Require Import FilesystemScenarios.
From S2P Require Import Binding.
From S2P Require Import BindingOperations.
From S2P Require Import BindingMachine.
From S2P Require Import BindingPrograms.
From S2P Require Import BindingScenarios.
From S2P Require Import NativeSystem.
From S2P Require Import NativeWorkers.
From stdpp Require Import functions.

(** ** A scheduler *)

Section Scheduler.
Context {S E J Value M : Type} `{!JsonValues J Value, !BindingCodec J Value, !UuidCrate,
  !Display E, !Display J, !Backend E M}.
Context (binvoke : nat → call → M → option M) (bproceed : nat → M → option M).
Context (binvoke_ok : ∀ i c m m', binvoke i c m = Some m' →
  bk_step m m' ∧ bk_ops m !! i = None ∧ bk_ops m' = <[i := MkOperation c None]> (bk_ops m)).
Context (bproceed_ok : ∀ i m m', bproceed i m = Some m' →
  bk_step m m' ∧ ∀ j, bk_ops m !! j = None → bk_ops m' !! j = None).
Context (state : nat → Napi.State S).
Implicit Types (n : native S E M) (c : nconfig S E).

(** A new task of a client. *)
Definition begin_task (p t : nat) (op : Napi.Operation) n : option (native S E M) :=
  let c := ns_clients n p in
  match nc_tasks c !! t with
  | Some _ => None
  | None =>
      Some (MkNative (ns_backend n)
        (<[p := MkNConfig (nc_cells c)
             (<[t := MkTask op (Napi.execute (Value := Value) (state p) op)]> (nc_tasks c))
             (nc_trace c)]> (ns_clients n)) (ns_waits n) (ns_uuids n))
  end.

(** One step of a task, or of the operation it waits for: the operations of the backend
    are numbered from [100 * p + 10 * t], and the draws are [u] and [now]. *)
Definition go (p t : nat) (u now : N) n : option (native S E M) :=
  let c := ns_clients n p in
  match nc_tasks c !! t with
  | Some (MkTask op (Call i k)) =>
      match i return (Napi.breply S E i → Napi.task_prog S E (Napi.NapiResult string)) → _ with
      | Napi.CoreCall i => λ k,
          if store_call i then
            match ns_waits n !! (p, t) with
            | None =>
                let j := 100 * p + 10 * t + length (nc_trace c) in
                m ← binvoke j i (ns_backend n);
                Some (MkNative m (ns_clients n) (<[(p, t) := j]> (ns_waits n)) (ns_uuids n))
            | Some j =>
                match returned_reply j i (ns_backend n) with
                | Some r =>
                    Some (MkNative (ns_backend n)
                      (<[p := replied c t op i r (k r)]> (ns_clients n))
                      (delete (p, t) (ns_waits n)) (ns_uuids n))
                | None =>
                    m ← bproceed j (ns_backend n);
                    Some (MkNative m (ns_clients n) (ns_waits n) (ns_uuids n))
                end
            end
          else
            r ← drawn_reply u now i;
            Some (MkNative (ns_backend n) (<[p := replied c t op i r (k r)]> (ns_clients n))
              (ns_waits n) (ns_uuids n ++ uuids_drawn i r))
      | i => λ k,
          '(r, cells) ← Napi.cells_step (E := E) (nc_cells c) i;
          Some (MkNative (ns_backend n)
            (<[p := MkNConfig cells (<[t := MkTask op (k r)]> (nc_tasks c))
                 (nc_trace c ++ [Called t (existT i r)])]> (ns_clients n)) (ns_waits n) (ns_uuids n))
      end k
  | _ => None
  end.

Fixpoint advance (k p t : nat) (u now : N) n : native S E M :=
  match k with
  | O => n
  | Datatypes.S k =>
      match go p t u now n with Some n => advance k p t u now n | None => n end
  end.

(** A task begins, or makes at most [k] steps. *)
Inductive n_turn := Task (p t : nat) (op : Napi.Operation) | Steps (k p t : nat) (u now : N).

Fixpoint n_play (xs : list n_turn) n : native S E M :=
  match xs with
  | [] => n
  | Task p t op :: xs => n_play xs (default n (begin_task p t op n))
  | Steps k p t u now :: xs => n_play xs (advance k p t u now n)
  end.

Lemma begin_task_step p t op n n' : begin_task p t op n = Some n' → native_step (Value := Value) state n n'.
Proof.
  destruct n as [m cls waits us]. unfold begin_task. simpl.
  destruct (cls p) as [cells tasks trace] eqn:Hc. simpl. destruct (tasks !! t) eqn:Ht; [done|].
  intros [= <-]. apply native_own. rewrite Hc. split; [by apply nstep_start|].
  intros t' i r Heq%(f_equal length). simpl in Heq. rewrite length_app in Heq. simpl in Heq. lia.
Qed.

Lemma registry_own p t op cells cells' tasks trace (i : Napi.bcall S) k r :
  tasks !! t = Some (MkTask op (Call (R := Napi.breply S E) i k)) →
  Napi.cells_step cells i = Some (r, cells') →
  own_step (Value := Value) (state p) (MkNConfig cells tasks trace)
    (MkNConfig cells' (<[t := MkTask op (k r)]> tasks) (trace ++ [Called t (existT i r)])).
Proof.
  intros Ht Hi. split; [by eapply nstep_registry|]. intros t' i' r' Heq. simpl in Heq.
  apply app_inj_tail in Heq as [_ [= _ Hi' _]]. by subst i.
Qed.

Lemma go_step p t u now n n' : go p t u now n = Some n' → native_step (Value := Value) state n n'.
Proof.
  destruct n as [m cls waits us]. unfold go. simpl.
  destruct (nc_tasks (cls p) !! t) as [[op [x| |i k]]|] eqn:Ht; try done.
  assert (∀ r cells', Napi.cells_step (nc_cells (cls p)) i = Some (r, cells') →
    native_step (Value := Value) state (MkNative m cls waits us)
      (MkNative m (<[p := MkNConfig cells' (<[t := MkTask op (k r)]> (nc_tasks (cls p)))
        (nc_trace (cls p) ++ [Called t (existT i r)])]> cls) waits us)) as Hown.
  { intros r cells' Hi. apply native_own. destruct (cls p) as [cells tasks trace]. by apply registry_own. }
  destruct i as [i| | | | | | |]; cbn [Napi.cells_step Napi.draw_handle mbind option_bind] in *;
    try (intros [= <-]; by apply Hown).
  clear Hown. destruct (store_call i) eqn:Hi.
  - destruct (waits !! (p, t)) as [j|] eqn:Hw.
    + destruct (returned_reply j i m) as [r|] eqn:Hr.
      * intros [= <-]. eapply native_reply; [done..|]. by apply returned_reply_Some.
      * destruct (bproceed j m) as [m'|] eqn:Hb; simpl; [|done]. intros [= <-].
        destruct (bproceed_ok _ _ _ Hb). by apply native_backend.
    + destruct (binvoke _ i m) as [m'|] eqn:Hb; simpl; [|done]. intros [= <-].
      destruct (binvoke_ok _ _ _ _ Hb) as (? & ? & ?). by eapply native_call.
  - destruct (drawn_reply u now i) as [r|]; simpl; [|done]. intros [= <-]. by eapply native_draw.
Qed.

Lemma advance_reachable k p t u now n : rtc (native_step (Value := Value) state) n (advance k p t u now n).
Proof.
  revert n. induction k as [|k IH]; intros n; simpl; [constructor|].
  destruct (go p t u now n) as [n'|] eqn:Hgo; [|constructor].
  eapply rtc_l; [by eapply go_step|apply IH].
Qed.

Lemma n_play_reachable xs n : rtc (native_step (Value := Value) state) n (n_play xs n).
Proof.
  revert n. induction xs as [|[p t op|k p t u now] xs IH]; intros n; simpl; [constructor|..].
  - destruct (begin_task p t op n) as [n'|] eqn:Hb; simpl; [|apply IH].
    eapply rtc_l; [by eapply begin_task_step|apply IH].
  - etrans; [apply advance_reachable|apply IH].
Qed.

(** The tasks are those begun. *)
Definition begun (xs : list n_turn) n : Prop :=
  ∀ p t tk, nc_tasks (ns_clients n p) !! t = Some tk → Task p t (tk_op tk) ∈ xs.

Lemma begun_insert xs n m waits us p t op q cells trace :
  begun xs n → Task p t op ∈ xs →
  begun xs (MkNative m (<[p := MkNConfig cells
    (<[t := MkTask op q]> (nc_tasks (ns_clients n p))) trace]> (ns_clients n)) waits us).
Proof.
  intros Hn Hop p1 t1 tk1. simpl. destruct (decide (p1 = p)) as [->|Hne].
  - rewrite fn_lookup_insert. simpl. intros [[<- <-]|[_ Ht]]%lookup_insert_Some; [done|by apply Hn].
  - rewrite fn_lookup_insert_ne by done. apply Hn.
Qed.

Lemma go_begun xs p t u now n n' : begun xs n → go p t u now n = Some n' → begun xs n'.
Proof.
  intros Hn. unfold go.
  destruct (nc_tasks (ns_clients n p) !! t) as [[op [x| |i k]]|] eqn:Ht; try done.
  pose proof (Hn p t _ Ht) as Hop. simpl in Hop.
  destruct i as [i| | | | | | |]; cbn [Napi.cells_step Napi.draw_handle mbind option_bind];
    try (intros [= <-]; by apply begun_insert).
  destruct (store_call i).
  - destruct (ns_waits n !! (p, t)) as [j|].
    + destruct (returned_reply j i (ns_backend n)) as [r|]; [intros [= <-]; by apply begun_insert|].
      destruct (bproceed j (ns_backend n)); simpl; [|done]. by intros [= <-].
    + destruct (binvoke _ i (ns_backend n)); simpl; [|done]. by intros [= <-].
  - destruct (drawn_reply u now i); simpl; [|done]. intros [= <-]. by apply begun_insert.
Qed.

Lemma advance_begun xs k p t u now n : begun xs n → begun xs (advance k p t u now n).
Proof.
  revert n. induction k as [|k IH]; intros n Hn; simpl; [done|].
  destruct (go p t u now n) as [n'|] eqn:Hgo; [|done]. apply IH. by eapply go_begun.
Qed.

Lemma n_play_begun xs ys n : begun ys n → xs ⊆ ys → begun ys (n_play xs n).
Proof.
  revert n. induction xs as [|[p t op|k p t u now] xs IH]; intros n Hn Hxs; simpl; [done|..].
  - apply IH; [|set_solver]. unfold begin_task.
    destruct (nc_tasks (ns_clients n p) !! t); simpl; [done|].
    apply begun_insert; [done|set_solver].
  - apply IH; [by apply advance_begun|set_solver].
Qed.
End Scheduler.

(** ** Two clients of one queue

    Both clients open the queue, and client 0 creates a map.  Client 0 publishes a job;
    both clients try to claim it at the same time, and client 1 is told of a conflict;
    after the deadline it claims the job again, and acknowledges it. *)

Definition prod (p : nat) : Client.Objsds unit := Client.MkObjsds tt "prod".
Definition prod_queue (p : nat) : unit * string := (tt, "prod").
Definition native_state (p : nat) : Napi.State unit := Napi.state_new (prod p) (prod_queue p).

Definition jobs_queue : Napi.StoredQueue unit :=
  Queue.MkQueue tt (MkLocation "prod/queues/jobs.json") "v1" Queue.MkSystemClock.

Definition jobs_document : bytes :=
  encoded (Queue.MkQueueDocument 1 "queue" "v1" ([] : list (Queue.Message jvalue))).

Definition shifts : list n_turn :=
  [Task 0 0 (Napi.QueueLifecycle Napi.Open "jobs" "v1");
   Task 1 0 (Napi.QueueLifecycle Napi.OpenOrCreate "jobs" "v1");
   Steps 3 0 0 0 0; Steps 20 1 0 0 0; Steps 20 0 0 0 0;
   Task 0 1 (Napi.MapLifecycle Napi.Create "jobs" "v1"); Steps 2 0 1 0 0;
   Task 0 2 (Napi.QueuePublish 1 (text_of (jstr "job"))); Steps 30 0 2 30 0; Steps 30 0 1 0 0;
   Task 0 3 (Napi.QueueClaim 1 10); Task 1 1 (Napi.QueueClaim 1 10);
   Steps 5 0 3 31 5; Steps 5 1 1 32 5; Steps 30 0 3 31 5; Steps 30 1 1 32 5;
   Task 1 2 (Napi.QueueClaim 1 10); Steps 30 1 2 33 20;
   Task 1 3 (Napi.QueueAck 1 "30" "33"); Steps 30 1 3 0 25].

Definition after_shifts : native unit Empty_set memory :=
  n_play (Value := jvalue) mem_invoke mem_proceed native_state shifts
    (native_start native_state (memory_with (Queue.location jobs_queue) jobs_document)).

Lemma after_shifts_reachable :
  rtc (native_step (Value := jvalue) native_state)
    (native_start native_state (memory_with (Queue.location jobs_queue) jobs_document)) after_shifts.
Proof. apply (n_play_reachable mem_invoke mem_proceed mem_invoke_ok mem_proceed_ok). Qed.

(** Only one schema is used. *)
Definition one_schema (x0 : stored unit) (x : n_turn) : Prop :=
  match x with
  | Task p t op => ∀ x, configured (native_state p) op = Some x →
      stored_location x = stored_location x0 → same_structure x x0
  | Steps _ _ _ _ _ => True
  end.

Lemma begun_schema x0 xs (n : native unit Empty_set memory) p t tk x :
  Forall (one_schema x0) xs → begun xs n → nc_tasks (ns_clients n p) !! t = Some tk →
  configured (native_state p) (tk_op tk) = Some x → stored_location x = stored_location x0 →
  same_structure x x0.
Proof.
  intros Hxs Hn Htk%Hn. rewrite list.Forall_forall in Hxs. by apply (Hxs _ Htk).
Qed.

Ltac solve_schema :=
  first [exact I
        |solve [let x := fresh in intros x; vm_compute; intros [=]]
        |solve [let x := fresh in intros x; vm_compute; intros [= <-] [=]]
        |solve [let x := fresh in intros x; vm_compute; intros [= <-]; repeat split]].

Lemma after_shifts_run :
  native_run (Value := jvalue) (a0 := astore_with (Queue.location jobs_queue) jobs_document)
    (m0 := memory_with (Queue.location jobs_queue) jobs_document)
    prod prod_queue (StoredQueue jobs_queue) after_shifts.
Proof.
  split; [apply after_shifts_reachable|by eexists; apply lookup_insert_eq|].
  intros p t tk x. apply (begun_schema (StoredQueue jobs_queue) shifts).
  - repeat first [apply Forall_nil_2|apply Forall_cons_2; [solve_schema|]].
  - apply (n_play_begun mem_invoke mem_proceed mem_invoke_ok mem_proceed_ok); [|by intros ?]. intros p' t' tk'. simpl. by rewrite lookup_empty.
Qed.

#[local] Instance queue_round_trip : JsonRoundTrip (J := unit) (D := Queue.QueueDocument jvalue) id.
Proof. exact ExampleCodec.round_trip. Qed.

#[local] Instance map_round_trip : JsonRoundTrip (J := unit) (D := Map.OwnedMapDocument jvalue) id.
Proof. exact ExampleCodec.round_trip. Qed.

Abbreviation queue_shifts :=
  (native_queue (Value := jvalue) (a0 := astore_with (Queue.location jobs_queue) jobs_document)
    (m0 := memory_with (Queue.location jobs_queue) jobs_document) prod prod_queue jobs_queue).

Lemma after_shifts_queue : queue_shifts after_shifts.
Proof.
  split; [apply after_shifts_run|apply astore_with_coherent| |].
  - split; [apply sorted_by_nil|]. eexists. split; [apply lookup_insert_eq|].
    by apply (queue_decodes_written (J := unit) (V := jvalue) jobs_queue).
  - replace (ns_uuids after_shifts) with [30; 31; 32; 33]%N by (vm_compute; reflexivity).
    apply (bool_decide_eq_true_1 (NoDup [30; 31; 32; 33]%N)). vm_compute; reflexivity.
Qed.

Definition job_claim (u attempt deadline : N) : Queue.Claim jvalue :=
  Queue.MkClaim (Queue.MkMessageId 30) (jstr "job") (Queue.MkLeaseToken u) attempt deadline.

Definition claim_text (cl : Queue.Claim jvalue) : string :=
  default "" (r ← render_queue (OutClaim (Some cl)); ok r).

(** The two claims of the job. *)
Lemma native_leases_exclusive_witness :
  ∃ claim1 claim2 : option (Queue.Claim jvalue),
    render_queue (OutClaim claim1) = Some (Ok (claim_text (job_claim 31 1 15))) ∧
    render_queue (OutClaim claim2) = Some (Ok (claim_text (job_claim 33 2 30))) ∧
    ∀ cl1 cl2, claim1 = Some cl1 → claim2 = Some cl2 →
      Queue.claim_id cl1 = Queue.claim_id cl2 →
      ∃ now1 now2, task_clock after_shifts 0 3 = [now1] ∧ task_clock after_shifts 1 2 = [now2] ∧
        (now1 < Queue.lease_expires_at_millis cl1)%N ∧
        (now2 < Queue.lease_expires_at_millis cl2)%N ∧
        (Queue.lease_expires_at_millis cl1 ≤ now2 ∨ Queue.lease_expires_at_millis cl2 ≤ now1)%N.
Proof.
  apply (native_leases_exclusive (a0 := astore_with (Queue.location jobs_queue) jobs_document)
    (m0 := memory_with (Queue.location jobs_queue) jobs_document) prod prod_queue jobs_queue after_shifts 0 3
    (Duration_from_millis 10) (claim_text (job_claim 31 1 15)) 1 2 (Duration_from_millis 10)
    (claim_text (job_claim 33 2 30))); [apply after_shifts_queue|done|vm_compute; reflexivity..].
Defined.

(** The job was published, and acknowledged by the claim that took it over. *)
Lemma native_at_least_once_witness :
  ∃ a ms, Memory.sim (sh_state (ns_backend after_shifts)) a ∧
    queue_holds (J := unit) jobs_queue a ms ∧
    ∃ i, Napi.json_string (MessageId_display i) = Ok (text_of (uuid_to_string 30)) ∧
      (i ∈ Queue.id <$> ms ∨ ∃ p t tok, asked (Value := jvalue) (StoredQueue jobs_queue) after_shifts p t =
         Some (CoreQueue (QAck i tok))).
Proof.
  destruct (native_at_least_once (a0 := astore_with (Queue.location jobs_queue) jobs_document)
    (m0 := memory_with (Queue.location jobs_queue) jobs_document) prod prod_queue jobs_queue after_shifts after_shifts_queue)
    as (a & ms & Ha & Hms & Hpub & _).
  exists a, ms. split; [exact Ha|]. split; [exact Hms|].
  apply (Hpub 0 2 (jstr "job")); vm_compute; reflexivity.
Defined.

(** ** Two clients of one map

    Both clients open the map and insert under one key at the same time; client 1 is told
    of a conflict, and reads what client 0 wrote. *)

Definition jobs_table : Map.Map unit := Map.MkMap tt (MkLocation "prod/maps/jobs.json") "v1".

Definition table_document : bytes :=
  encoded (Map.MkOwnedMapDocument 1 "map" "v1" (∅ : gmap string jvalue)).

Definition updates : list n_turn :=
  [Task 0 0 (Napi.MapLifecycle Napi.Open "jobs" "v1");
   Task 1 0 (Napi.MapLifecycle Napi.OpenOrCreate "jobs" "v1");
   Steps 20 0 0 0 0; Steps 20 1 0 0 0;
   Task 0 1 (Napi.MapInsert 1 "k" (text_of (jstr "a")));
   Task 1 1 (Napi.MapInsert 1 "k" (text_of (jstr "b")));
   Steps 5 0 1 0 0; Steps 5 1 1 0 0; Steps 20 0 1 0 0; Steps 20 1 1 0 0;
   Task 1 2 (Napi.MapGet 1 "k"); Steps 20 1 2 0 0].

Definition after_updates : native unit Empty_set memory :=
  n_play (Value := jvalue) mem_invoke mem_proceed native_state updates
    (native_start native_state (memory_with (Map.location jobs_table) table_document)).

Lemma after_updates_map :
  native_map (J := unit) (Value := jvalue)
    (a0 := astore_with (Map.location jobs_table) table_document)
    (m0 := memory_with (Map.location jobs_table) table_document)
    prod prod_queue jobs_table ∅ after_updates.
Proof.
  split; [|apply astore_with_coherent|].
  - split; [apply (n_play_reachable mem_invoke mem_proceed mem_invoke_ok mem_proceed_ok)
           |by eexists; apply lookup_insert_eq|].
    intros p t tk x. apply (begun_schema (StoredMap jobs_table) updates).
    + repeat first [apply Forall_nil_2|apply Forall_cons_2; [solve_schema|]].
    + apply (n_play_begun mem_invoke mem_proceed mem_invoke_ok mem_proceed_ok); [|by intros ?].
      intros p' t' tk'. simpl. by rewrite lookup_empty.
  - eexists. simpl. split; [apply lookup_insert_eq|].
    by apply (map_decodes_written (J := unit) (V := jvalue) jobs_table).
Qed.

Definition found_text : string :=
  default "" (r ← render_map (OutValue (Some (jstr "a"))); ok r).

(** The read returned what the model gives for the changes made. *)
Lemma native_map_no_lost_update_witness :
  ∃ order a, NoDup order ∧ Memory.sim (sh_state (ns_backend after_updates)) a ∧
    map_holds (J := unit) jobs_table a (map_after (map_requests jobs_table after_updates) ∅ order) ∧
    ∃ k v, let model := map_model (OpGet "k")
                (map_after (map_requests jobs_table after_updates) ∅ (take k order)) in
      render_map (model.2 v) = Some (Ok found_text) ∧
      ((order !! k = Some (task_id 1 2) ∧ is_Some model.1) ∨
       ((task_id 1 2 ∉ order) ∧ model.1 = None)).
Proof.
  destruct (native_map_no_lost_update
    (a0 := astore_with (Map.location jobs_table) table_document)
    (m0 := memory_with (Map.location jobs_table) table_document) prod prod_queue jobs_table ∅ after_updates after_updates_map)
    as (order & a & Hnd & Ha & Hm & Hok & _).
  exists order, a. split; [exact Hnd|]. split; [exact Ha|]. split; [exact Hm|].
  apply (Hok 1 2 (OpGet "k")); vm_compute; reflexivity.
Defined.
